(* ===== verification/_CoqProject ===== *)
-Q . S2P
Prelude.v
Words.v
GoIO.v
GoStr.v
Json.v
WalEntry.v
Packet.v
Wal.v
Events.v
ServerSession.v
LogServer.v
ServerApp.v
ServerRun.v
IpcMsg.v
Project64.v
SendQueue.v
ClientPorts.v
PositionSystem.v
Daemon.v
DaemonWire.v
DaemonConn.v
DaemonRun.v
DaemonStart.v
ClientSession.v
GameInfo.v
ClientRun.v
ClientApp.v
ClientStart.v
Uplink.v
UplinkRun.v
Replication.v
ReplicationUplink.v
Convergence.v
