(* ===== verification/Prelude.v ===== *)
(** * OoTMM multiplayer: a verification library

    The program lets several players of a randomized game share what they find.
    Each player runs a _client_ (src/client) next to the game; the clients of one
    session connect to a _server_ (src/server).  What is shared is a log of entries
    (items and events).  The server keeps the log of a session in a file; every
    client keeps a replica of it and a queue of its own entries that the server has
    not yet acknowledged, both in files too.  A client also starts a _daemon_ that
    tells local programs over HTTP what happens in its game.

    ** The parts, and where they are modelled

    - This file: results of Go functions, the state-and-error monad [M] and its laws,
      small tactics, lists.  Words.v: machine integers at their width, byte
      orders, slices and arrays.  GoIO.v: files, connections, buffered channels.
      GoStr.v: byte strings and hexadecimal.  Json.v: what is used of
      encoding/json.  These five model the language and its standard library.
    - WalEntry.v (shared/wal/types.go, serialize.go, key.go): an entry, its bytes,
      its deduplication key.  Wal.v (shared/wal/wal.go): the log file with [Append],
      [OpenWAL], and the streams that follow it.  Both sides use it.
    - Packet.v (shared/protocol): the framing and the message bodies between client
      and server.
    - Events.v (server/internal/events), ServerSession.v (server/internal/session):
      a session with its players, four goroutines each.  ServerApp.v
      (server/internal/app): connections, and the registry that opens and closes
      sessions.  ServerRun.v (server/main.go, server/internal/config,
      server/internal/app): the configuration, the accepting loop and the shutdown.
      LogServer.v: the class [LogServer] of what a server promises to its
      clients, and its instance for the sessions of ServerSession.v.
    - IpcMsg.v (client/internal/ipc/msg.go, unixsock.go) and Project64.v
      (project64_windows.go): the two transports to the game.
    - SendQueue.v, PositionSystem.v, GameInfo.v, ClientSession.v, Uplink.v
      (client/internal/game): the queue of pending entries, the positions of players,
      the patch file, the session of a game, its connection to the server.
      ClientPorts.v holds the outgoing channels these share, ClientRun.v the life of
      a session with all its goroutines, from its start to its end, and UplinkRun.v
      that of the uplink, put together with it.
    - Daemon.v, DaemonWire.v, DaemonStart.v (client/internal/daemon): clients and
      subscriptions, the messages on the wire, and the start around the lock file.
      DaemonConn.v (conn.go): the connection of a client to the daemon with its
      goroutine.  DaemonRun.v (daemon.go, http.go): the running daemon, its loop,
      watchdog, connections and websocket handlers over the registry of Daemon.v.
    - ClientApp.v (client/internal/app/app.go, client/internal/ipc): finding a game to
      play with, over the class [IpcConn] of what is used of a connection to a game.
      ClientStart.v (client/main.go, client/internal/config, client/internal/app,
      client/internal/util): the client from its command line to its end, which is an
      exit code, the panic of a session, or none while a session does not end.
    - Replication.v and Convergence.v: any number of clients and one [LogServer],
      composed of the handlers above; the end-to-end theorems.  ReplicationUplink.v
      shows that the uplink of UplinkRun.v implements the client of Replication.v.

    ** How code becomes definitions

    A Go function is a function to [res] (a value, an error, a panic), or a
    computation of [M S] over the state [S] it works on, with the source's names and
    the order of its tests and effects.  A critical section under a mutex is one
    function.  Code of several goroutines is a step relation over program points:
    [next_step] (WALStream.Next), [client_step] (the goroutines of a player),
    [conn_step] and [app_step] of ServerApp.v (the server's connections),
    [server_step] (the server), [run_step] (the NATS sink), [uplink_step] (a connection of an uplink),
    [up_own] (the uplink), [full_step] (a client session with its uplink),
    [own_step] of ClientRun.v (a client session), [hub_step] (the methods of the
    daemon), [daemon_step] (the daemon, with [run_step] of DaemonRun.v for [run] and the
    watchdog and [serve_step] for a connection), [conn_step] of DaemonConn.v (a connection
    to it, with its writes in parts), [sys_step] of DaemonStart.v (processes) and
    [sys_step] of Replication.v (the whole system; the steps of a client are
    [node_flow], what the program does, [node_local], what game and timers give it,
    [node_link], the connection, and [node_loss], what loses packets).  A program that runs from start to end without goroutines of its
    own is a list of events ([Start] of ClientStart.v).  A Go map that is
    ranged over is visited in an order that is an argument.  What the code gets from
    outside is an argument or a script: the answers of the disk are the [f_script]
    of a file, those of a connection its [rx] and [tx_script], and random bytes, the
    clock, ready [select] cases, the directory, the archive and the calls of Windows
    are arguments.  Formatted errors keep their constant part.

    Replication.v works on the very handlers ([handleMsg], [handleUplinkPacket],
    [Append], [Ack], [Run_start]) but is coarser in the transport: a packet in flight
    is an element of a list instead of bytes ([message_delivery] and
    [uplink_in_order] are about the bytes, and [uplink_implements_node] relates the
    two on the side of the client), a packet of the client may arrive in any
    order or be lost, and one of the server only over the connection it was sent on.
    There the disk refuses nothing after the start, also not in [no_entry_lost] and
    [replicas_converge]; refusals are the subject of [append_durable] and
    [send_queue_faults].  Packets of anybody ([sy_rogue]) reach the server of the safety
    theorems; the schedule of [replicas_converge] has none.

    ** What the theorems show

    - End to end (Replication.v, Convergence.v): every replica is a prefix of the
      server's log, no accepted entry is lost, the replicas can always converge by what
      the clients do themselves, and an entry on its way over a connection that holds
      gets into the log.
    - Storage (Wal.v, SendQueue.v): both files refine their abstract value (a
      deduplicated list, a finite map), across reopening and refused system calls.
    - Streams (Wal.v, ServerSession.v, Uplink.v): entries and packets arrive in
      order, without gaps, and no waiting reader misses one.
    - Formats (WalEntry.v, Packet.v, IpcMsg.v, DaemonWire.v, GameInfo.v): round trips,
      exact domains of the parsers, no panics on foreign bytes, with one exception
      ([info_item_panic]).
    - Sessions (ServerSession.v, ServerApp.v, ClientSession.v, ClientRun.v): what each
      handler does on every branch, sequence numbers, reference counts,
      well-formedness.
    - Ends (ClientRun.v, UplinkRun.v, ServerRun.v): a connection, a session of a client
      and the whole server can always be shut down, nothing runs afterwards and the
      files hold the logs and are closed, unless a client crashes (the message at work
      is an INFO_ITEM of six bytes); the model of the uplink in ClientRun.v is refined
      by the real one.
    - The daemon (Daemon.v, DaemonConn.v, DaemonRun.v, DaemonStart.v): channels are
      never misused, subscribers get a part of what was sent in order, what the
      watchdog spares and loses, that a stopped daemon closes its listener and its
      connections, what of a client's messages is written before and after [Close], who
      serves.
    - The rest of the client (PositionSystem.v, ClientApp.v, ClientStart.v,
      Project64.v): local numbers, the choice of the game, the order of what the
      client does up to each of its ends, handles.

    Some theorems state what the code does where this is not what it means to do:
    [info_item_panic], [send_queue_faults] (a torn record after a failed [Add]),
    [open_wal_torn] (a log cut inside a record is refused, one cut between records is
    opened), [game_entry_queued] (acknowledged although
    not stored), [game_round] (a refused game stays connected), [session_shutdown] (a
    daemon that does not read keeps a session from ending), [daemon_start_lock] (two
    clients that start at once), [daemon_watchdog] (a client that connects when the
    daemon ends), [daemon_conn_order] (messages lost and a frame torn by [Close]), [file_association] (a
    notification that is left out) and [project64_read] (a lost part).

    ** Bounds and fuel

    Loops that follow the input take fuel: the records of a file and the packets and
    frames of a stream take at least four bytes each, JSON values at least one
    ([parse_fuel]), draining takes one element of two channels at a time.  [NoFuel]
    is the answer when it does not suffice, and the lemmas named [_returns] show that
    the functions that choose the fuel never give it.  Indices into the log are 32
    bits wide; the theorems that depend on it ask for fewer than 2^32 entries
    ([short] in Replication.v).

    ** Not modelled

    Logging and the console output of the goroutines.  The calls of libraries and of
    the system are arguments: flags (pflag), colours, the registry of Windows, the
    listener, dialling; a signal is a step that cancels a context.  Of the daemon's HTTP
    server the routing and the CORS header are left out, and a websocket is what it was
    told to write.  The lengths of pauses are left out: a timer may fire at any time.
    Time is an argument or a deadline that is set; no theorem is about durations but
    those that count ticks. *)

From stdpp Require Import base gmap sets list strings tactics.
From Stdlib Require Import ZArith Lia.

(** ** Results of Go functions

    A Go function that returns [(T, error)] is modelled by a value of [res T]:
    it returns a value, returns an error, or panics.  [NoFuel] is the answer of
    a bounded unrolling of a loop that was given too few iterations; every
    loop of the development comes with a theorem that rules it out. *)

Inductive error : Type :=
  | EOF
  | ErrUnexpectedEOF
  | OSError (code : Z)
  | Errorf (msg : string)
  | Wrapf (msg : string) (e : error).

Inductive res (A : Type) : Type :=
  | Ok (a : A)
  | Err (e : error)
  | Panic
  | NoFuel.
Arguments Ok {A} a.
Arguments Err {A} e.
Arguments Panic {A}.
Arguments NoFuel {A}.

#[export] Instance error_eq_dec : EqDecision error.
Proof. solve_decision. Defined.

#[export] Instance res_eq_dec {A} `{EqDecision A} : EqDecision (res A).
Proof. solve_decision. Defined.

#[export] Instance res_ret : MRet res := λ A a, Ok a.
#[export] Instance res_bind : MBind res := λ A B f m,
  match m with
  | Ok a => f a
  | Err e => Err e
  | Panic => Panic
  | NoFuel => NoFuel
  end.

(** [fmt.Errorf("...: %v", err)] around a call. *)
Definition wrap_err {A} (msg : string) (m : res A) : res A :=
  match m with
  | Err e => Err (Wrapf msg e)
  | _ => m
  end.

Definition is_ok {A} (m : res A) : bool :=
  match m with Ok _ => true | _ => false end.

Definition res_get {A} (m : res A) : option A :=
  match m with Ok a => Some a | _ => None end.

(** A computation that neither panics nor exhausts its fuel: what a Go
    function does that always returns. *)
Definition returns {A} (m : res A) : Prop := m ≠ Panic ∧ m ≠ NoFuel.

(** ** Stateful Go functions

    [M S A] is a function over a mutable structure [S]: it always yields the
    final state, whatever its outcome, because an early [return err] keeps the
    mutations done so far. *)

Definition M (S A : Type) : Type := S → S * res A.

#[export] Instance M_ret S : MRet (M S) := λ A a s, (s, Ok a).
#[export] Instance M_bind S : MBind (M S) := λ A B f m s,
  match m s with
  | (s', Ok a) => f a s'
  | (s', Err e) => (s', Err e)
  | (s', Panic) => (s', Panic)
  | (s', NoFuel) => (s', NoFuel)
  end.

Definition fail {S A} (e : error) : M S A := λ s, (s, Err e).
Definition gets {S A} (f : S → A) : M S A := λ s, (s, Ok (f s)).
Definition modify {S} (f : S → S) : M S unit := λ s, (f s, Ok tt).
Definition lift {S A} (r : res A) : M S A := λ s, (s, r).

(** [if err != nil { cleanup; return fmt.Errorf(msg, err) }] *)
Definition on_err {S A} (m : M S A) (cleanup : error → M S A) : M S A := λ s,
  match m s with
  | (s', Err e) => cleanup e s'
  | r => r
  end.

Definition wrapM {S A} (msg : string) (m : M S A) : M S A :=
  on_err m (λ e, fail (Wrapf msg e)).

(** A call whose error result the code drops. *)
Definition ignore {S A} (m : M S A) : M S unit := λ s,
  match m s with
  | (s', Ok _) | (s', Err _) => (s', Ok tt)
  | (s', Panic) => (s', Panic)
  | (s', NoFuel) => (s', NoFuel)
  end.

(** Run a computation over a field of a larger structure. *)
Definition zoom {S T A} (get : S → T) (set : T → S → S) (m : M T A) : M S A := λ s,
  let '(t, r) := m (get s) in (set t s, r).

(** A computation that returns from every state. *)
Definition total {S A} (m : M S A) : Prop := ∀ s, returns (snd (m s)).

(** ** Equations of the combinators, for rewriting *)

Create HintDb go.
Create Rewrite HintDb gorw.

Lemma Ok_inj {A} (a b : A) : Ok a = Ok b → a = b.
Proof. by intros [= ?]. Qed.

Lemma res_bind_ok {A B} (f : A → res B) a : (Ok a ≫= f) = f a.
Proof. done. Qed.

Lemma res_bind_ret {A} (m : res A) : (m ≫= λ a, Ok a) = m.
Proof. by destruct m. Qed.

Lemma res_bind_assoc {A B C} (m : res A) (f : A → res B) (g : B → res C) :
  ((m ≫= f) ≫= g) = (m ≫= λ a, f a ≫= g).
Proof. by destruct m. Qed.

Lemma res_bind_Ok_inv {A B} (m : res A) (f : A → res B) b :
  (m ≫= f) = Ok b → ∃ a, m = Ok a ∧ f a = Ok b.
Proof. destruct m; simpl; intros; simplify_eq; eauto. Qed.

Lemma res_bind_returns {A B} (m : res A) (f : A → res B) :
  returns m → (∀ a, m = Ok a → returns (f a)) → returns (m ≫= f).
Proof. intros [??] Hf. destruct m; simpl; [by apply Hf|done..]. Qed.

Lemma wrap_err_returns {A} msg (m : res A) : returns (wrap_err msg m) ↔ returns m.
Proof. unfold returns. by destruct m. Qed.

Lemma wrap_err_Ok {A} msg (m : res A) a : wrap_err msg m = Ok a ↔ m = Ok a.
Proof. by destruct m. Qed.

Lemma returns_ok {A} (a : A) : returns (Ok a).
Proof. done. Qed.

Lemma returns_err {A} e : returns (A:=A) (Err e).
Proof. done. Qed.

(** *** Computations that leave an observation of the state alone *)

Definition keeps {S T A} (f : S → T) (m : M S A) : Prop := ∀ s, f (fst (m s)) = f s.

Section keeps.
Context {S T A B : Type} (f : S → T).
Implicit Types m : M S A.

Lemma keeps_pure m : (∀ s, fst (m s) = s) → keeps f m.
Proof. intros H s. by rewrite H. Qed.

Lemma keeps_bind m (k : A → M S B) : keeps f m → (∀ a, keeps f (k a)) → keeps f (m ≫= k).
Proof.
  intros Hm Hk s. unfold mbind, M_bind. specialize (Hm s).
  destruct (m s) as [s' [a|e| |]]; simpl in *; [|done..]. rewrite <- Hm. apply Hk.
Qed.

Lemma keeps_ignore m : keeps f m → keeps f (ignore m).
Proof. intros Hm s. specialize (Hm s). unfold ignore. by destruct (m s) as [s' [| | |]]. Qed.

Lemma keeps_wrapM msg m : keeps f m → keeps f (wrapM msg m).
Proof. intros Hm s. specialize (Hm s). unfold wrapM, on_err. by destruct (m s) as [s' [| | |]]. Qed.

Lemma keeps_on_err m (h : error → M S A) : keeps f m → (∀ e, keeps f (h e)) → keeps f (on_err m h).
Proof.
  intros Hm Hh s. specialize (Hm s). unfold on_err. destruct (m s) as [s' [| | |]]; try done.
  simpl in Hm. rewrite <- Hm. apply Hh.
Qed.

Lemma keeps_if (P : Prop) `{Decision P} m1 m2 :
  keeps f m1 → keeps f m2 → keeps f (if decide P then m1 else m2).
Proof. intros. by case_decide. Qed.

Lemma keeps_zoom {X} (get : S → X) set (m : M X A) :
  (∀ x s, f (set x s) = f s) → keeps f (zoom get set m).
Proof. intros Hf s. unfold zoom. destruct (m (get s)). apply Hf. Qed.
End keeps.

(** *** Total computations *)

Section total.
Context {S T A B : Type}.
Implicit Types m : M S A.

Lemma total_ret (a : A) : total (mret a : M S A).
Proof. by intros s. Qed.

Lemma total_fail e : total (fail e : M S A).
Proof. by intros s. Qed.

Lemma total_gets (f : S → A) : total (gets f).
Proof. by intros s. Qed.

Lemma total_modify (f : S → S) : total (modify f).
Proof. by intros s. Qed.

Lemma total_lift (r : res A) : returns r → total (lift r : M S A).
Proof. by intros Hr s. Qed.

Lemma total_bind m (k : A → M S B) : total m → (∀ a, total (k a)) → total (m ≫= k).
Proof.
  intros Hm Hk s. unfold mbind, M_bind. specialize (Hm s) as [Hp Hf].
  destruct (m s) as [s' [a|e| |]]; simpl in *; [apply Hk|done..].
Qed.

Lemma total_wrapM msg m : total m → total (wrapM msg m).
Proof.
  intros Hm s. unfold wrapM, on_err. specialize (Hm s) as [Hp Hf].
  by destruct (m s) as [s' [a|e| |]].
Qed.

Lemma total_ignore m : total m → total (ignore m).
Proof.
  intros Hm s. unfold ignore. specialize (Hm s) as [Hp Hf].
  by destruct (m s) as [s' [a|e| |]].
Qed.

Lemma total_zoom (get : S → T) set (m : M T A) : total m → total (zoom get set m).
Proof. intros Hm s. unfold zoom. specialize (Hm (get s)). by destruct (m (get s)). Qed.

Lemma total_if {P : Prop} `{Decision P} (m1 m2 : M S A) :
  total m1 → total m2 → total (if decide P then m1 else m2).
Proof. intros. by case_decide. Qed.

Lemma total_bool (b : bool) (m1 m2 : M S A) : total m1 → total m2 → total (if b then m1 else m2).
Proof. intros. by destruct b. Qed.
End total.

#[export] Hint Resolve returns_ok returns_err total_ret total_fail total_gets total_modify total_lift
  total_bind total_wrapM total_ignore total_zoom total_if total_bool : go.
#[export] Hint Rewrite @res_bind_ok @res_bind_assoc : gorw.

(** ** Tactics *)

(** Case analysis on whatever a [match], [if] or [decide] is stuck on. *)
Ltac case_all :=
  repeat (case_match || case_decide || case_bool_decide); simplify_eq/=.

(** [keeps f m] by the shape of [m]; the facts about its calls are in context. *)
Ltac solve_keeps :=
  repeat first [solve [auto] | apply keeps_pure; by intros ? | apply keeps_bind; [|intros ?]
               | apply keeps_if | apply keeps_ignore | apply keeps_wrapM | (apply keeps_on_err; [|intros ?])
               | solve [apply keeps_zoom; by intros ? ?]].

(** Decide a closed equation between values of a type with decidable equality
    by evaluation. *)
Ltac by_compute := apply (bool_decide_unpack _); vm_compute; exact I.

(** ** Lists *)

Section lists.
Context {A : Type}.
Implicit Types (l k : list A) (n : nat).

Lemma drop_app_skip l k n : length l ≤ n → drop n (l ++ k) = drop (n - length l) k.
Proof. intros. rewrite drop_app. by rewrite (drop_ge l n), app_nil_l by lia. Qed.

Lemma prefix_app_inv_length l1 l2 k :
  l1 `prefix_of` k → l2 `prefix_of` k → length l1 ≤ length l2 → l1 `prefix_of` l2.
Proof.
  intros H1 H2 Hlen. destruct (prefix_weak_total l1 l2 k H1 H2) as [|Hp]; [done|].
  by rewrite (prefix_length_eq _ _ Hp Hlen).
Qed.

Lemma prefix_take_length l k : l `prefix_of` k → l = take (length l) k.
Proof. intros [k' ->]. by rewrite take_app_length. Qed.

Lemma take_prefix n l : take n l `prefix_of` l.
Proof. exists (drop n l). by rewrite take_drop. Qed.

Lemma take_S_snoc l n x : l !! n = Some x → take (S n) l = take n l ++ [x].
Proof. apply take_S_r. Qed.

Lemma lookup_last_split l x : l !! (length l - 1) = Some x → ∃ k, l = k ++ [x].
Proof.
  intros H. exists (take (length l - 1) l). pose proof (lookup_lt_Some _ _ _ H).
  rewrite <- (take_S_snoc _ _ _ H), take_ge; [done|lia].
Qed.
End lists.

#[export] Hint Resolve take_prefix : go.
