(* ===== verification/Words.v ===== *)
(** * Machine words, byte strings and fixed-size arrays

    Go's unsigned and signed integers at their width, the byte orders of
    [encoding/binary], slices with their bounds checks and [copy]. *)

From stdpp Require Import base countable list vector numbers tactics.
From Stdlib Require Import ZArith Lia.
From S2P Require Import Prelude.

Local Open Scope Z_scope.

(** ** Unsigned integers *)

Definition in_range (w : N) (z : Z) : bool := (0 <=? z) && (z <? 2 ^ Z.of_N w).

Record uint (w : N) : Type := MkUint {
  uval : Z;
  uval_ok : in_range w uval = true;
}.
Arguments MkUint {w} _ _.
Arguments uval {w} _.
Arguments uval_ok {w} _.

(** A proof of a true boolean that evaluates to [eq_refl]. *)
Definition seal_true {b : bool} : b = true → b = true :=
  match b with true => λ _, eq_refl | false => λ H, H end.

Lemma wrap_in_range w z : in_range w (z mod 2 ^ Z.of_N w) = true.
Proof.
  unfold in_range. pose proof (Z.mod_pos_bound z (2 ^ Z.of_N w)).
  pose proof (Z.pow_pos_nonneg 2 (Z.of_N w)). lia.
Qed.

(** Conversion to [uintW]: reduction modulo [2^W]. *)
Definition to_uint (w : N) (z : Z) : uint w :=
  MkUint (z mod 2 ^ Z.of_N w) (seal_true (wrap_in_range w z)).

Abbreviation u8 := (uint 8).
Abbreviation u16 := (uint 16).
Abbreviation u32 := (uint 32).
Abbreviation U8 := (to_uint 8).
Abbreviation U16 := (to_uint 16).
Abbreviation U32 := (to_uint 32).

(** [x++] *)
Definition uincr {w} (x : uint w) : uint w := to_uint w (uval x + 1).
Definition uadd {w} (x y : uint w) : uint w := to_uint w (uval x + uval y).

(** ** Signed integers, in two's complement *)

Definition in_srange (z : Z) : bool := (-2 ^ 15 <=? z) && (z <? 2 ^ 15).

Record i16 : Type := MkI16 { sval : Z; sval_ok : in_srange sval = true }.

Definition swrap (z : Z) : Z := (z + 2 ^ 15) mod 2 ^ 16 - 2 ^ 15.

Lemma swrap_in_range z : in_srange (swrap z) = true.
Proof. unfold in_srange, swrap. pose proof (Z.mod_pos_bound (z + 2 ^ 15) (2 ^ 16)). lia. Qed.

Definition I16 (z : Z) : i16 := MkI16 (swrap z) (seal_true (swrap_in_range z)).

(** The conversions [int16(x)] and [uint16(x)]. *)
Definition int16 (x : u16) : i16 := I16 (uval x).
Definition uint16 (x : i16) : u16 := U16 (sval x).

(** ** Byte strings *)

Abbreviation bytes := (list u8).

(** [n] bytes of [z], least significant first. *)
Fixpoint le_bytes (n : nat) (z : Z) : bytes :=
  match n with
  | O => []
  | S n => U8 z :: le_bytes n (Z.shiftr z 8)
  end.

Fixpoint le_value (bs : bytes) : Z :=
  match bs with
  | [] => 0
  | b :: bs => Z.lor (uval b) (Z.shiftl (le_value bs) 8)
  end.

Definition be_bytes (n : nat) (z : Z) : bytes := reverse (le_bytes n z).
Definition be_value (bs : bytes) : Z := le_value (reverse bs).

(** ** Slices and arrays *)

(** [data[a:b]] *)
Definition slice (data : bytes) (a b : nat) : res bytes :=
  if decide (a ≤ b ≤ length data)%nat then Ok (take (b - a) (drop a data)) else Panic.

(** [data[a:]] *)
Definition slice_from (data : bytes) (a : nat) : res bytes := slice data a (length data).

(** [data[i]] *)
Definition index (data : bytes) (i : nat) : res u8 :=
  match data !! i with Some b => Ok b | None => Panic end.

(** The array [[n]byte] after [copy(a[:], src)] when [a] starts zeroed. *)
Fixpoint arr_of (n : nat) (src : bytes) : vec u8 n :=
  match n with
  | O => [#]
  | S n => default (U8 0) (head src) ::: arr_of n (tail src)
  end.

Definition zeros (n : nat) : bytes := replicate n (U8 0).

(** [copy(data[a:b], src)]: at most [b - a] bytes are copied. *)
Definition copy_into (data : bytes) (a b : nat) (src : bytes) : res bytes :=
  if decide (a ≤ b ≤ length data)%nat then
    let k := Nat.min (b - a) (length src) in
    Ok (take a data ++ take k src ++ drop (a + k) data)
  else Panic.

(** [copy(data[a:], src)] *)
Definition copy_from (data : bytes) (a : nat) (src : bytes) : res bytes :=
  copy_into data a (length data) src.

(** [data[i] = x] *)
Definition set_index (data : bytes) (i : nat) (x : u8) : res bytes :=
  if decide (i < length data)%nat then Ok (<[i := x]> data) else Panic.

(** [binary.LittleEndian] and [binary.BigEndian]: each read or write of [n]
    bytes panics when the slice it is given is shorter. *)
Definition fixed (n : nat) (bs : bytes) : res bytes :=
  if decide (n ≤ length bs)%nat then Ok (take n bs) else Panic.

Definition le_Uint16 (bs : bytes) : res u16 := bs ← fixed 2 bs; Ok (U16 (le_value bs)).
Definition le_Uint32 (bs : bytes) : res u32 := bs ← fixed 4 bs; Ok (U32 (le_value bs)).
Definition be_Uint16 (bs : bytes) : res u16 := bs ← fixed 2 bs; Ok (U16 (be_value bs)).
Definition be_Uint32 (bs : bytes) : res u32 := bs ← fixed 4 bs; Ok (U32 (be_value bs)).

Definition le_get16 data a b : res u16 := s ← slice data a b; le_Uint16 s.
Definition le_get32 data a b : res u32 := s ← slice data a b; le_Uint32 s.
Definition be_get16 data a b : res u16 := s ← slice data a b; be_Uint16 s.
Definition be_get32 data a b : res u32 := s ← slice data a b; be_Uint32 s.

Definition put_fixed (data : bytes) (a b : nat) (src : bytes) : res bytes :=
  s ← slice data a b;
  if decide (length src ≤ length s)%nat then copy_into data a b src else Panic.

Definition le_put16 data a b (v : u16) := put_fixed data a b (le_bytes 2 (uval v)).
Definition le_put32 data a b (v : u32) := put_fixed data a b (le_bytes 4 (uval v)).
Definition be_put16 data a b (v : u16) := put_fixed data a b (be_bytes 2 (uval v)).
Definition be_put32 data a b (v : u32) := put_fixed data a b (be_bytes 4 (uval v)).

(** [binary.LittleEndian.AppendUint16] and [AppendUint32]. *)
Definition le_append16 (data : bytes) (v : u16) : bytes := data ++ le_bytes 2 (uval v).
Definition le_append32 (data : bytes) (v : u32) : bytes := data ++ le_bytes 4 (uval v).

(** ** Decidable equality and countability *)

Lemma uint_eq {w} (x y : uint w) : uval x = uval y → x = y.
Proof.
  destruct x as [x Hx], y as [y Hy]; simpl; intros ->. f_equal. apply proof_irrel.
Qed.

Lemma i16_eq (x y : i16) : sval x = sval y → x = y.
Proof.
  destruct x as [x Hx], y as [y Hy]; simpl; intros ->. f_equal. apply proof_irrel.
Qed.

#[export] Instance uint_eq_dec w : EqDecision (uint w).
Proof.
  refine (λ x y, match decide (uval x = uval y) with
                 | left H => left (uint_eq x y H)
                 | right H => right _ end).
  abstract (by intros ->).
Defined.

#[export] Instance i16_eq_dec : EqDecision i16.
Proof.
  refine (λ x y, match decide (sval x = sval y) with
                 | left H => left (i16_eq x y H)
                 | right H => right _ end).
  abstract (by intros ->).
Defined.

(** ** Facts about words *)

Lemma uint_bounds {w} (x : uint w) : 0 <= uval x < 2 ^ Z.of_N w.
Proof. destruct x as [x Hx]. unfold in_range in Hx. simpl. lia. Qed.

Lemma i16_bounds (x : i16) : -2 ^ 15 <= sval x < 2 ^ 15.
Proof. destruct x as [x Hx]. unfold in_srange in Hx. simpl. lia. Qed.

Lemma to_uint_uval {w} (x : uint w) : to_uint w (uval x) = x.
Proof. apply uint_eq. simpl. apply Z.mod_small, uint_bounds. Qed.

Lemma uval_to_uint_small w z : 0 <= z < 2 ^ Z.of_N w → uval (to_uint w z) = z.
Proof. intros. by apply Z.mod_small. Qed.

#[export] Program Instance uint_countable w : Countable (uint w) :=
  inj_countable uval (λ z, Some (to_uint w z)) _.
Next Obligation. intros w x. simpl. by rewrite to_uint_uval. Qed.

Lemma uincr_small {w} (x : uint w) :
  uval x + 1 < 2 ^ Z.of_N w → uval (uincr x) = uval x + 1.
Proof. intros. apply uval_to_uint_small. pose proof (uint_bounds x). lia. Qed.

(** Two's complement conversions are inverse to each other. *)
Lemma int16_uint16 (x : i16) : int16 (uint16 x) = x.
Proof.
  apply i16_eq. pose proof (i16_bounds x). unfold int16, uint16, I16, swrap; simpl.
  destruct (decide (0 <= sval x)).
  - rewrite (Z.mod_small (sval x)) by lia. rewrite Z.mod_small by lia. lia.
  - replace (sval x mod 2 ^ 16) with (sval x + 2 ^ 16).
    + replace (sval x + 2 ^ 16 + 2 ^ 15) with (sval x + 2 ^ 15 + 1 * 2 ^ 16) by lia.
      rewrite Z.mod_add, Z.mod_small by lia. lia.
    + rewrite <- (Z.mod_add (sval x) 1), Z.mod_small by lia. lia.
Qed.

Lemma uint16_int16 (x : u16) : uint16 (int16 x) = x.
Proof.
  apply uint_eq. pose proof (uint_bounds x) as Hx. simpl in *. unfold swrap.
  destruct (decide (uval x < 2 ^ 15)).
  - rewrite (Z.mod_small (uval x + 2 ^ 15)) by lia. rewrite Z.mod_small by lia. lia.
  - replace ((uval x + 2 ^ 15) mod 2 ^ 16) with (uval x - 2 ^ 15)
      by (rewrite <- (Z.mod_add (uval x + 2 ^ 15) (-1)), Z.mod_small by lia; lia).
    rewrite <- (Z.mod_add _ 1), Z.mod_small by lia. lia.
Qed.

(** ** Byte order *)

Lemma length_le_bytes n z : length (le_bytes n z) = n.
Proof. revert z. induction n; simpl; auto. Qed.

Lemma length_be_bytes n z : length (be_bytes n z) = n.
Proof. unfold be_bytes. by rewrite length_reverse, length_le_bytes. Qed.

Lemma byte_land_shiftl (b c : Z) : 0 <= b < 2 ^ 8 → Z.land b (Z.shiftl c 8) = 0.
Proof.
  intros Hb. apply Z.bits_inj'. intros n Hn.
  rewrite Z.land_spec, Z.shiftl_spec, Z.bits_0 by lia.
  destruct (decide (n < 8)).
  - by rewrite (Z.testbit_neg_r c), andb_false_r by lia.
  - rewrite <- (Z.mod_small b (2 ^ 8)), Z.mod_pow2_bits_high by lia. done.
Qed.

Lemma byte_lor_shiftl (b c : Z) : 0 <= b < 2 ^ 8 → Z.lor b (Z.shiftl c 8) = b + 2 ^ 8 * c.
Proof.
  intros Hb. pose proof (Z.add_lor_land b (Z.shiftl c 8)) as H.
  rewrite byte_land_shiftl, Z.shiftl_mul_pow2 in H by lia.
  rewrite Z.shiftl_mul_pow2 by lia. lia.
Qed.

Lemma le_value_bounds bs : 0 <= le_value bs < 2 ^ (8 * Z.of_nat (length bs)).
Proof.
  induction bs as [|b bs IH]; simpl; [lia|].
  pose proof (uint_bounds b). rewrite byte_lor_shiftl by (simpl in *; lia).
  replace (8 * Z.of_nat (S (length bs))) with (8 + 8 * Z.of_nat (length bs)) by lia.
  rewrite Z.pow_add_r by lia. nia.
Qed.

Lemma le_value_bytes n z : le_value (le_bytes n z) = z mod 2 ^ (8 * Z.of_nat n).
Proof.
  revert z. induction n as [|n IH]; intros z; simpl; [by rewrite Z.mod_1_r|].
  rewrite IH, byte_lor_shiftl by (apply Z.mod_pos_bound; lia).
  replace (8 * Z.of_nat (S n)) with (8 + 8 * Z.of_nat n) by lia.
  rewrite Z.pow_add_r, Z.rem_mul_r, Z.shiftr_div_pow2 by lia. done.
Qed.

Lemma le_bytes_value bs : le_bytes (length bs) (le_value bs) = bs.
Proof.
  induction bs as [|b bs IH]; simpl; [done|].
  pose proof (uint_bounds b) as Hb. simpl in Hb.
  rewrite byte_lor_shiftl by lia. f_equal.
  - apply uint_eq; simpl. rewrite Z.mul_comm, Z.mod_add by lia. by apply Z.mod_small.
  - rewrite Z.shiftr_div_pow2, Z.mul_comm, Z.div_add, Z.div_small by lia. done.
Qed.

Lemma be_value_bytes n z : be_value (be_bytes n z) = z mod 2 ^ (8 * Z.of_nat n).
Proof. unfold be_value, be_bytes. by rewrite reverse_involutive, le_value_bytes. Qed.

Lemma be_bytes_value bs : be_bytes (length bs) (be_value bs) = bs.
Proof.
  unfold be_value, be_bytes. rewrite <- (length_reverse bs), le_bytes_value.
  apply reverse_involutive.
Qed.

Lemma U16_mod (x : u16) : U16 (uval x mod 2 ^ 16) = x.
Proof. rewrite Z.mod_small; [apply to_uint_uval|apply (uint_bounds x)]. Qed.

Lemma U32_mod (x : u32) : U32 (uval x mod 2 ^ 32) = x.
Proof. rewrite Z.mod_small; [apply to_uint_uval|apply (uint_bounds x)]. Qed.

(** ** Arrays *)

Lemma arr_of_vec {n} (v : vec u8 n) : arr_of n (vec_to_list v) = v.
Proof. induction v; simpl; f_equal/=; done. Qed.

(** The instance of the library does not evaluate; this one does. *)
#[export] Instance arr_countable n : Countable (vec u8 n) | 0.
Proof.
  refine (inj_countable vec_to_list (λ l, Some (arr_of n l)) _).
  abstract (intros v; by rewrite arr_of_vec).
Defined.

Lemma arr_of_list n (l : bytes) : length l = n → vec_to_list (arr_of n l) = l.
Proof.
  revert l. induction n as [|n IH]; intros [|b l] Hl; simplify_eq/=; [done|].
  by rewrite IH.
Qed.

Lemma length_zeros n : length (zeros n) = n.
Proof. apply length_replicate. Qed.

(** ** Reading a buffer laid out as a concatenation *)

Lemma slice_ok data a b :
  (a ≤ b ≤ length data)%nat → slice data a b = Ok (take (b - a) (drop a data)).
Proof. intros. unfold slice. by rewrite decide_True. Qed.

Lemma slice_here l k b : length l = b → slice (l ++ k) 0 b = Ok l.
Proof.
  intros <-. rewrite slice_ok by (rewrite length_app; lia).
  by rewrite drop_0, Nat.sub_0_r, take_app_length.
Qed.

Lemma slice_all l b : length l = b → slice l 0 b = Ok l.
Proof. intros. by rewrite <- (app_nil_r l) at 1; apply slice_here. Qed.

Lemma slice_skip l k a b :
  (length l ≤ a ≤ b)%nat → slice (l ++ k) a b = slice k (a - length l) (b - length l).
Proof.
  intros [Ha Hb]. unfold slice. rewrite length_app, drop_app_skip by done.
  replace (b - length l - (a - length l))%nat with (b - a)%nat by lia.
  by repeat case_decide; try lia.
Qed.

Lemma index_here b k : index (b :: k) 0 = Ok b.
Proof. done. Qed.

Lemma index_skip l k i :
  (length l ≤ i)%nat → index (l ++ k) i = index k (i - length l).
Proof. intros Hi. unfold index. by rewrite lookup_app_r. Qed.

Lemma index_ok data i : (i < length data)%nat → ∃ b, index data i = Ok b.
Proof. intros [b Hb]%lookup_lt_is_Some_2. exists b. unfold index. by rewrite Hb. Qed.

Lemma fixed_ok n bs : length bs = n → fixed n bs = Ok bs.
Proof. intros <-. unfold fixed. by rewrite decide_True, take_ge by lia. Qed.

Lemma le_Uint16_bytes (x : u16) : le_Uint16 (le_bytes 2 (uval x)) = Ok x.
Proof.
  unfold le_Uint16. rewrite fixed_ok by apply length_le_bytes.
  rewrite res_bind_ok, le_value_bytes. f_equal. apply U16_mod.
Qed.

Lemma le_Uint32_bytes (x : u32) : le_Uint32 (le_bytes 4 (uval x)) = Ok x.
Proof.
  unfold le_Uint32. rewrite fixed_ok by apply length_le_bytes.
  rewrite res_bind_ok, le_value_bytes. f_equal. apply U32_mod.
Qed.

Lemma be_Uint16_bytes (x : u16) : be_Uint16 (be_bytes 2 (uval x)) = Ok x.
Proof.
  unfold be_Uint16. rewrite fixed_ok by apply length_be_bytes.
  rewrite res_bind_ok, be_value_bytes. f_equal. apply U16_mod.
Qed.

Lemma be_Uint32_bytes (x : u32) : be_Uint32 (be_bytes 4 (uval x)) = Ok x.
Proof.
  unfold be_Uint32. rewrite fixed_ok by apply length_be_bytes.
  rewrite res_bind_ok, be_value_bytes. f_equal. apply U32_mod.
Qed.

(** A length prefix is read back. *)
Lemma le_Uint32_length n :
  Z.of_nat n < 2 ^ 32 → le_Uint32 (le_bytes 4 (Z.of_nat n)) = Ok (U32 (Z.of_nat n)).
Proof.
  intros. rewrite <- le_Uint32_bytes. by rewrite uval_to_uint_small by (simpl in *; lia).
Qed.

Lemma le_bytes4_inj (x y : u32) : le_bytes 4 (uval x) = le_bytes 4 (uval y) → x = y.
Proof. intros H. apply Ok_inj. by rewrite <- !le_Uint32_bytes, H. Qed.

Lemma be_bytes2_inj (x y : u16) : be_bytes 2 (uval x) = be_bytes 2 (uval y) → x = y.
Proof. intros H. apply Ok_inj. by rewrite <- !be_Uint16_bytes, H. Qed.

Lemma be_bytes4_inj (x y : u32) : be_bytes 4 (uval x) = be_bytes 4 (uval y) → x = y.
Proof. intros H. apply Ok_inj. by rewrite <- !be_Uint32_bytes, H. Qed.

Lemma arr_of_inj n l k : length l = n → length k = n → arr_of n l = arr_of n k → l = k.
Proof. intros Hl Hk H. by rewrite <- (arr_of_list n l), <- (arr_of_list n k), H. Qed.

Lemma le_get16_spec data a b (x : u16) :
  slice data a b = Ok (le_bytes 2 (uval x)) → le_get16 data a b = Ok x.
Proof. unfold le_get16. intros ->. apply le_Uint16_bytes. Qed.

Lemma le_get32_spec data a b (x : u32) :
  slice data a b = Ok (le_bytes 4 (uval x)) → le_get32 data a b = Ok x.
Proof. unfold le_get32. intros ->. apply le_Uint32_bytes. Qed.

Lemma be_get16_spec data a b (x : u16) :
  slice data a b = Ok (be_bytes 2 (uval x)) → be_get16 data a b = Ok x.
Proof. unfold be_get16. intros ->. apply be_Uint16_bytes. Qed.

Lemma be_get32_spec data a b (x : u32) :
  slice data a b = Ok (be_bytes 4 (uval x)) → be_get32 data a b = Ok x.
Proof. unfold be_get32. intros ->. apply be_Uint32_bytes. Qed.

(** ** Reads within the bounds return *)

Lemma slice_inbounds data a b :
  (a ≤ b ≤ length data)%nat →
  ∃ s, slice data a b = Ok s ∧ length s = (b - a)%nat.
Proof.
  intros. rewrite slice_ok by done. eexists; split; [done|].
  rewrite length_take, length_drop. lia.
Qed.

Lemma slice_length data a b s : slice data a b = Ok s → length s = (b - a)%nat.
Proof.
  unfold slice. case_decide; [|done]. intros [= <-]. rewrite length_take, length_drop. lia.
Qed.

Section inbounds.
Context (data : bytes) (a b : nat).

Let get n : (b - a = n)%nat → (a ≤ b ≤ length data)%nat →
  ∃ s, slice data a b = Ok s ∧ fixed n s = Ok s.
Proof.
  intros Hn H. destruct (slice_inbounds data a b H) as (s & Hs & Hl).
  exists s. split; [done|]. apply fixed_ok. lia.
Qed.

Lemma le_get16_inbounds :
  (b - a = 2)%nat → (a ≤ b ≤ length data)%nat → ∃ x, le_get16 data a b = Ok x.
Proof. intros Hn H. destruct (get 2 Hn H) as (s & Hs & Hf). unfold le_get16, le_Uint16.
  rewrite Hs; simpl. rewrite Hf; simpl. eauto. Qed.

Lemma le_get32_inbounds :
  (b - a = 4)%nat → (a ≤ b ≤ length data)%nat → ∃ x, le_get32 data a b = Ok x.
Proof. intros Hn H. destruct (get 4 Hn H) as (s & Hs & Hf). unfold le_get32, le_Uint32.
  rewrite Hs; simpl. rewrite Hf; simpl. eauto. Qed.

Lemma be_get16_inbounds :
  (b - a = 2)%nat → (a ≤ b ≤ length data)%nat → ∃ x, be_get16 data a b = Ok x.
Proof. intros Hn H. destruct (get 2 Hn H) as (s & Hs & Hf). unfold be_get16, be_Uint16.
  rewrite Hs; simpl. rewrite Hf; simpl. eauto. Qed.

Lemma be_get32_inbounds :
  (b - a = 4)%nat → (a ≤ b ≤ length data)%nat → ∃ x, be_get32 data a b = Ok x.
Proof. intros Hn H. destruct (get 4 Hn H) as (s & Hs & Hf). unfold be_get32, be_Uint32.
  rewrite Hs; simpl. rewrite Hf; simpl. eauto. Qed.

End inbounds.

(** ** Reads rebuild the prefix they cover *)

Lemma slice_take data a b s : slice data a b = Ok s → take b data = take a data ++ s.
Proof.
  unfold slice. case_decide as H; [|done]. intros [= <-].
  rewrite <- (take_drop a (take b data)) at 1. rewrite take_take, Nat.min_l by lia.
  by rewrite skipn_firstn_comm.
Qed.

Lemma index_take data i x : index data i = Ok x → take (S i) data = take i data ++ [x].
Proof.
  unfold index. destruct (data !! i) eqn:H; [|done]. intros [= <-]. by apply take_S_r.
Qed.

Lemma le_get16_take data a b (x : u16) :
  (b - a = 2)%nat → le_get16 data a b = Ok x → take b data = take a data ++ le_bytes 2 (uval x).
Proof.
  intros Hb H. apply res_bind_Ok_inv in H as (s & Hs & H). unfold le_Uint16 in H.
  rewrite fixed_ok in H.
  - apply Ok_inj in H as <-. rewrite (slice_take _ _ _ _ Hs). f_equal.
    assert (length s = 2%nat) as Hl by (rewrite (slice_length _ _ _ _ Hs); lia).
    pose proof (le_value_bounds s) as Hbd. rewrite Hl in Hbd.
    rewrite uval_to_uint_small by (simpl in *; lia). by rewrite <- Hl, le_bytes_value.
  - rewrite (slice_length _ _ _ _ Hs). lia.
Qed.

Lemma le_get32_take data a b (x : u32) :
  (b - a = 4)%nat → le_get32 data a b = Ok x → take b data = take a data ++ le_bytes 4 (uval x).
Proof.
  intros Hb H. apply res_bind_Ok_inv in H as (s & Hs & H). unfold le_Uint32 in H.
  rewrite fixed_ok in H.
  - apply Ok_inj in H as <-. rewrite (slice_take _ _ _ _ Hs). f_equal.
    assert (length s = 4%nat) as Hl by (rewrite (slice_length _ _ _ _ Hs); lia).
    pose proof (le_value_bounds s) as Hbd. rewrite Hl in Hbd.
    rewrite uval_to_uint_small by (simpl in *; lia). by rewrite <- Hl, le_bytes_value.
  - rewrite (slice_length _ _ _ _ Hs). lia.
Qed.

Lemma be_get16_take data a b (x : u16) :
  (b - a = 2)%nat → be_get16 data a b = Ok x → take b data = take a data ++ be_bytes 2 (uval x).
Proof.
  intros Hb H. apply res_bind_Ok_inv in H as (s & Hs & H). unfold be_Uint16 in H.
  assert (length s = 2%nat) as Hl by (rewrite (slice_length _ _ _ _ Hs); lia).
  rewrite fixed_ok in H by done. apply Ok_inj in H as <-. rewrite (slice_take _ _ _ _ Hs). f_equal.
  pose proof (le_value_bounds (reverse s)) as Hbd. rewrite length_reverse, Hl in Hbd.
  rewrite uval_to_uint_small by (unfold be_value; simpl in *; lia). by rewrite <- Hl, be_bytes_value.
Qed.

Lemma be_get32_take data a b (x : u32) :
  (b - a = 4)%nat → be_get32 data a b = Ok x → take b data = take a data ++ be_bytes 4 (uval x).
Proof.
  intros Hb H. apply res_bind_Ok_inv in H as (s & Hs & H). unfold be_Uint32 in H.
  assert (length s = 4%nat) as Hl by (rewrite (slice_length _ _ _ _ Hs); lia).
  rewrite fixed_ok in H by done. apply Ok_inj in H as <-. rewrite (slice_take _ _ _ _ Hs). f_equal.
  pose proof (le_value_bounds (reverse s)) as Hbd. rewrite length_reverse, Hl in Hbd.
  rewrite uval_to_uint_small by (unfold be_value; simpl in *; lia). by rewrite <- Hl, be_bytes_value.
Qed.

(** ** Filling a zeroed buffer from left to right *)

Lemma copy_into_next pre k a b src :
  length pre = a → (b - a = length src)%nat → (a ≤ b ≤ a + k)%nat →
  copy_into (pre ++ zeros k) a b src = Ok ((pre ++ src) ++ zeros (k - length src)).
Proof.
  intros <- Hs Hb. unfold copy_into. rewrite length_app, length_zeros, decide_True by lia.
  f_equal. rewrite Hs, Nat.min_id, take_app_length, (take_ge src), <- app_assoc by lia.
  do 2 f_equal. rewrite drop_app_add. unfold zeros. by rewrite drop_replicate.
Qed.

Lemma copy_from_next pre k a src :
  length pre = a → k = length src →
  copy_from (pre ++ zeros k) a src = Ok ((pre ++ src) ++ zeros 0).
Proof.
  intros Ha Hk. unfold copy_from.
  rewrite copy_into_next by (rewrite ?length_app, ?length_zeros; lia).
  by replace (k - length src)%nat with 0%nat by lia.
Qed.

Lemma put_fixed_next pre k a b src :
  length pre = a → (b - a = length src)%nat → (a ≤ b ≤ a + k)%nat →
  put_fixed (pre ++ zeros k) a b src = Ok ((pre ++ src) ++ zeros (k - length src)).
Proof.
  intros Hp Hs Hb. unfold put_fixed.
  destruct (slice_inbounds (pre ++ zeros k) a b) as (s & -> & Hl);
    [rewrite length_app, length_zeros; lia|].
  rewrite res_bind_ok, decide_True by lia. by apply copy_into_next.
Qed.

Lemma set_index_next pre k a x :
  length pre = a → (0 < k)%nat →
  set_index (pre ++ zeros k) a x = Ok ((pre ++ [x]) ++ zeros (k - 1)).
Proof.
  intros <- Hk. unfold set_index. rewrite length_app, length_zeros, decide_True by lia.
  destruct k as [|k]; [lia|]. rewrite insert_app_r_alt by lia.
  rewrite Nat.sub_diag, <- app_assoc. do 2 f_equal. simpl. by rewrite Nat.sub_0_r.
Qed.

(** ** Automation for layouts *)

Lemma length_single (x : u8) : length [x] = 1%nat.
Proof. done. Qed.

#[export] Hint Rewrite @length_app @length_vec_to_list @length_le_bytes @length_be_bytes
  @length_zeros @length_single @length_nil : len.

Ltac len := autorewrite with len; lia.

(** Evaluate a chain of buffer writes over [make([]byte, n)]. *)
Ltac run_write :=
  first [ rewrite copy_into_next by len
        | rewrite put_fixed_next by len
        | rewrite set_index_next by len
        | rewrite copy_from_next by len ];
  rewrite res_bind_ok; autorewrite with len; cbn [Nat.sub].

Ltac run_writes :=
  unfold le_put16, le_put32, be_put16, be_put32;
  change (@nil u8) with (@nil u8);
  repeat run_write.

(** Evaluate reads over a concatenation of fields. *)
Ltac run_slice :=
  repeat (rewrite slice_skip by len; autorewrite with len; cbn [Nat.sub]);
  first [ apply slice_here; len | apply slice_all; len ].

Ltac run_index :=
  repeat (rewrite index_skip by len; autorewrite with len; cbn [Nat.sub]);
  reflexivity.

(** A serializer against the concatenation of its fields. *)
Ltac solve_layout :=
  match goal with
  | |- context [zeros ?n] => change (zeros n) with ([] ++ zeros n)
  end;
  cbv zeta; run_writes; rewrite <- ?app_assoc, ?app_nil_l, ?app_nil_r; try reflexivity.

Ltac run_reads :=
  repeat (match goal with
    | |- (le_get16 ?d ?a ?b ≫= _) = _ => erewrite (le_get16_spec d a b) by run_slice
    | |- (le_get32 ?d ?a ?b ≫= _) = _ => erewrite (le_get32_spec d a b) by run_slice
    | |- (be_get16 ?d ?a ?b ≫= _) = _ => erewrite (be_get16_spec d a b) by run_slice
    | |- (be_get32 ?d ?a ?b ≫= _) = _ => erewrite (be_get32_spec d a b) by run_slice
    | |- (slice ?d ?a ?b ≫= _) = _ =>
        let H := fresh in eassert (slice d a b = Ok _) as H by run_slice; rewrite H; clear H
    | |- (index ?d ?i ≫= _) = _ =>
        let H := fresh in eassert (index d i = Ok _) as H by run_index; rewrite H; clear H
    end; rewrite res_bind_ok).

(** A parser on the layout of its own message, whatever follows. *)
Ltac solve_parse :=
  rewrite decide_False by len; rewrite <- ?app_assoc; run_reads;
  rewrite ?arr_of_vec, ?int16_uint16.

(** A parser on any input: every read is within the length it checked. *)
Ltac solve_returns :=
  repeat match goal with
    | |- context [le_get16 ?d ?a ?b] =>
        destruct (le_get16_inbounds d a b) as [? ->]; [lia..|]
    | |- context [le_get32 ?d ?a ?b] =>
        destruct (le_get32_inbounds d a b) as [? ->]; [lia..|]
    | |- context [be_get16 ?d ?a ?b] =>
        destruct (be_get16_inbounds d a b) as [? ->]; [lia..|]
    | |- context [be_get32 ?d ?a ?b] =>
        destruct (be_get32_inbounds d a b) as [? ->]; [lia..|]
    | |- context [slice ?d ?a ?b] =>
        destruct (slice_inbounds d a b) as (? & -> & _); [lia|]
    | |- context [index ?d ?i] => destruct (index_ok d i) as [? ->]; [lia|]
    end;
  try done.

Lemma le_put32_whole v : le_put32 (zeros 4) 0 4 v = Ok (le_bytes 4 (uval v)).
Proof.
  change (zeros 4) with ([] ++ zeros 4). rewrite <- (res_bind_ret (le_put32 _ _ _ _)).
  run_writes. by rewrite app_nil_l, app_nil_r.
Qed.

Lemma be_put32_whole v : be_put32 (zeros 4) 0 4 v = Ok (be_bytes 4 (uval v)).
Proof.
  change (zeros 4) with ([] ++ zeros 4). rewrite <- (res_bind_ret (be_put32 _ _ _ _)).
  run_writes. by rewrite app_nil_l, app_nil_r.
Qed.
