(* ===== verification/GoIO.v ===== *)
(** * Files, connections and channels

    What the program uses of Go's [os.File], [net.Conn], [io.ReadFull] and
    buffered channels.  The answers of the operating system are an explicit
    script: one [outcome] per system call, consumed in order; an exhausted
    script means that every further call succeeds. *)

From stdpp Require Import base list strings numbers tactics.
From Stdlib Require Import ZArith Lia.
From S2P Require Import Prelude Words.

(** A call succeeds, or transfers at most [n] bytes and then fails. *)
Inductive outcome : Type :=
  | Done
  | Fails (n : nat) (code : Z).

(** [io.ReadFull] over a source that offers [avail] and then [ending]. *)
Definition read_full_from (avail : bytes) (ending : error) (n : nat) : bytes * res bytes :=
  if decide (n ≤ length avail) then (drop n avail, Ok (take n avail))
  else ([], Err match avail, ending with
                | [], _ => ending
                | _ :: _, EOF => ErrUnexpectedEOF
                | _ :: _, _ => ending
                end).

(** [f(); defer g()]: run [m], then [cleanup] whatever the outcome of [m]. *)
Definition deferred {S A} (m : M S A) (cleanup : M S unit) : M S A := λ s,
  let '(s1, r) := m s in (fst (cleanup s1), r).

(** ** Files *)

Record file : Type := File {
  f_data : bytes;
  f_pos : nat;
  f_closed : bool;
  f_script : list outcome;
}.

Definition set_f_data d f := File d (f_pos f) (f_closed f) (f_script f).
Definition set_f_pos p f := File (f_data f) p (f_closed f) (f_script f).

(** The file [os.OpenFile(path, os.O_RDWR|os.O_CREATE, 0644)] returns when the
    path holds [data]. *)
Definition open_file (data : bytes) (script : list outcome) : file :=
  File data 0 false script.

Definition ErrClosed : error := Errorf "file already closed".

Definition next_outcome : M file outcome := λ f,
  if f_closed f then (f, Err ErrClosed) else
  match f_script f with
  | [] => (f, Ok Done)
  | o :: s => (File (f_data f) (f_pos f) (f_closed f) s, Ok o)
  end.

(** A call with no data: it happens entirely or not at all. *)
Definition syscall {A} (m : M file A) : M file A :=
  o ← next_outcome;
  match o with
  | Done => m
  | Fails _ code => fail (OSError code)
  end.

Definition overwrite (data : bytes) (pos : nat) (bs : bytes) : bytes :=
  resize pos (U8 0) data ++ bs ++ drop (pos + length bs) data.

Definition put_bytes (bs : bytes) : M file unit := λ f,
  (File (overwrite (f_data f) (f_pos f) bs) (f_pos f + length bs) (f_closed f) (f_script f), Ok tt).

Definition file_write (bs : bytes) : M file unit :=
  o ← next_outcome;
  match o with
  | Done => put_bytes bs
  | Fails n code => put_bytes (take n bs);; fail (OSError code)
  end.

(** A read that is cut short delivers the bytes before the failure. *)
Definition get_bytes (o : outcome) (n : nat) : M file bytes := λ f,
  let avail := drop (f_pos f) (f_data f) in
  let '(src, ending) := match o with
                        | Done => (avail, EOF)
                        | Fails k code => (take k avail, OSError code)
                        end in
  let '(rest, r) := read_full_from src ending n in
  (set_f_pos (f_pos f + (length src - length rest)) f, r).

Definition file_read_full (n : nat) : M file bytes :=
  if decide (n = 0) then mret [] else
  o ← next_outcome;
  get_bytes o n.

Definition file_seek_current : M file nat := syscall (gets f_pos).
Definition file_seek_start (p : nat) : M file unit := syscall (modify (set_f_pos p)).
Definition file_seek_end : M file unit :=
  syscall (modify (λ f, set_f_pos (length (f_data f)) f)).
Definition file_truncate (n : nat) : M file unit :=
  syscall (modify (λ f, set_f_data (resize n (U8 0) (f_data f)) f)).
Definition file_sync : M file unit := syscall (mret tt).
(** A [Close] that reports an error has closed the file all the same. *)
Definition file_close : M file unit :=
  deferred (syscall (mret tt)) (modify (λ f, File (f_data f) (f_pos f) true (f_script f))).

Lemma file_close_cases f :
  ∃ s r, file_close f = (File (f_data f) (f_pos f) true s, r) ∧ returns r.
Proof.
  unfold file_close, deferred, syscall, next_outcome, mbind, M_bind.
  destruct (f_closed f); [by eexists _, _|]. destruct (f_script f) as [|[] s]; by eexists _, _.
Qed.

(** ** Connections *)

(** [rx] is what arrives from the peer until the stream ends with [rx_end]: end
    of file, a reset, or an expired deadline.  [tx] is what was sent.  A
    deadline is the timeout last set, [None] for [time.Time{}]. *)
Record conn : Type := Conn {
  rx : bytes;
  rx_end : error;
  tx : bytes;
  tx_script : list outcome;
  r_deadline : option Z;
  w_deadline : option Z;
}.

Definition set_rx (b : bytes) (c : conn) : conn :=
  Conn b (rx_end c) (tx c) (tx_script c) (r_deadline c) (w_deadline c).
Definition set_tx (b : bytes) (s : list outcome) (c : conn) : conn :=
  Conn (rx c) (rx_end c) b s (r_deadline c) (w_deadline c).

Definition SetReadDeadline (d : option Z) : M conn unit := modify (λ c,
  Conn (rx c) (rx_end c) (tx c) (tx_script c) d (w_deadline c)).
Definition SetWriteDeadline (d : option Z) : M conn unit := modify (λ c,
  Conn (rx c) (rx_end c) (tx c) (tx_script c) (r_deadline c) d).

Definition conn_read_full (n : nat) : M conn bytes := λ c,
  let '(rest, r) := read_full_from (rx c) (rx_end c) n in (set_rx rest c, r).

Definition conn_write (bs : bytes) : M conn unit := λ c,
  match tx_script c with
  | [] => (set_tx (tx c ++ bs) [] c, Ok tt)
  | Done :: s => (set_tx (tx c ++ bs) s c, Ok tt)
  | Fails n code :: s => (set_tx (tx c ++ take n bs) s c, Err (OSError code))
  end.

(** A connection whose writes all succeed, and one fed with given bytes. *)
Definition conn_on (input : bytes) (ending : error) : conn := Conn input ending [] [] None None.

(** ** Buffered channels *)

Record chan (A : Type) : Type := Chan { ch_cap : nat; ch_buf : list A }.
Arguments Chan {A} _ _.
Arguments ch_cap {A} _.
Arguments ch_buf {A} _.

Definition make_chan (A : Type) (n : nat) : chan A := Chan n [].
Definition chan_ready {A} (c : chan A) : bool := length (ch_buf c) <? ch_cap c.
Definition chan_push {A} (x : A) (c : chan A) : chan A := Chan (ch_cap c) (ch_buf c ++ [x]).

(** [select { case c <- x: default: }] *)
Definition try_send {A} (x : A) (c : chan A) : chan A :=
  if chan_ready c then chan_push x c else c.

Definition chan_wf {A} (c : chan A) : Prop := length (ch_buf c) ≤ ch_cap c.

(** *** A channel and its consumer

    [pt_taken] is what the receiving goroutine has already taken, oldest first:
    [pt_taken ++ ch_buf] is everything ever sent. *)

Record port (A : Type) : Type := Port { pt_chan : chan A; pt_taken : list A }.
Arguments Port {A} _ _.
Arguments pt_chan {A} _.
Arguments pt_taken {A} _.

Definition make_port (A : Type) (n : nat) : port A := Port (make_chan A n) [].

Definition pt_sent {A} (p : port A) : list A := pt_taken p ++ ch_buf (pt_chan p).

(** [x := <-c] *)
Definition port_take {A} (p : port A) : port A :=
  match ch_buf (pt_chan p) with
  | [] => p
  | x :: l => Port (Chan (ch_cap (pt_chan p)) l) (pt_taken p ++ [x])
  end.

Definition port_push {A} (x : A) (p : port A) : port A := Port (chan_push x (pt_chan p)) (pt_taken p).

(** A send that completes: when the channel is full the sender waits until the
    receiver has taken an element. *)
Definition port_send {A} (x : A) (p : port A) : port A :=
  port_push x (if chan_ready (pt_chan p) then p else port_take p).

(** *** Sends of a goroutine with a context

    [o_done] is [ctx.Err() != nil].  [o_picks] are the choices of a [select] whose
    send and [ctx.Done()] are both ready: [true] takes the send. *)

Record outlet (A : Type) : Type := Outlet {
  o_done : bool;
  o_picks : list bool;
  o_port : port A;
}.
Arguments Outlet {A} _ _ _.
Arguments o_done {A} _.
Arguments o_picks {A} _.
Arguments o_port {A} _.

Definition make_outlet (A : Type) (done : bool) (picks : list bool) (n : nat) : outlet A :=
  Outlet done picks (make_port A n).

Definition o_cancel {A} (o : outlet A) : outlet A := Outlet true (o_picks o) (o_port o).
Definition o_take {A} (o : outlet A) : outlet A := Outlet (o_done o) (o_picks o) (port_take (o_port o)).
Definition o_ready {A} (o : outlet A) : bool := chan_ready (pt_chan (o_port o)).
Definition o_sent {A} (o : outlet A) : list A := pt_sent (o_port o).

(** [select { case c <- x: case <-ctx.Done(): default: }], and the same without
    [default] when one of its cases is ready. *)
Definition o_send {A} (x : A) (o : outlet A) : outlet A :=
  if o_ready o then
    match o_done o, o_picks o with
    | true, false :: bs => Outlet true bs (o_port o)
    | true, true :: bs => Outlet true bs (port_push x (o_port o))
    | d, bs => Outlet d bs (port_push x (o_port o))
    end
  else o.

(** The blocking [select { case c <- x: case <-ctx.Done(): }] can go on. *)
Definition o_unblocked {A} (o : outlet A) : bool := o_ready o || o_done o.

(** ** Facts *)

(** The number of calls the operating system will refuse. *)
Fixpoint faults (s : list outcome) : nat :=
  match s with
  | [] => 0
  | Done :: s => faults s
  | Fails _ _ :: s => S (faults s)
  end.

Lemma next_outcome_cases f :
  f_closed f = false →
  ∃ o s, next_outcome f = (File (f_data f) (f_pos f) false s, Ok o)
    ∧ faults (f_script f) = match o with Done => faults s | Fails _ _ => S (faults s) end.
Proof.
  intros Ho. unfold next_outcome. rewrite Ho. destruct f as [d p c [|o s]]; simpl in *; subst.
  - by exists Done, [].
  - exists o, s. split; [done|]. by destruct o.
Qed.

Lemma syscall_cases {A} (m : M file A) f :
  f_closed f = false →
  (∃ s, syscall m f = m (File (f_data f) (f_pos f) false s) ∧ faults (f_script f) = faults s)
  ∨ (∃ s c, syscall m f = (File (f_data f) (f_pos f) false s, Err (OSError c))
            ∧ faults (f_script f) = S (faults s)).
Proof.
  intros Ho. destruct (next_outcome_cases f Ho) as (o & s & Hn & Hf).
  unfold syscall, mbind, M_bind. rewrite Hn. destruct o; [left|right]; eauto.
Qed.

Lemma overwrite_end data bs : overwrite data (length data) bs = data ++ bs.
Proof.
  unfold overwrite. rewrite resize_all. by rewrite drop_ge, app_nil_r by lia.
Qed.

(** Writing at the end of an open file. *)
Lemma file_write_cases bs f :
  f_closed f = false → f_pos f = length (f_data f) →
  ∃ s r bs', file_write bs f = (File (f_data f ++ bs') (f_pos f + length bs') false s, r)
  ∧ ((r = Ok tt ∧ bs' = bs ∧ faults (f_script f) = faults s)
     ∨ ((∃ c, r = Err (OSError c)) ∧ bs' `prefix_of` bs ∧ faults (f_script f) = S (faults s))).
Proof.
  intros Ho Hp. destruct (next_outcome_cases f Ho) as (o & s & Hn & Hf).
  unfold file_write, mbind, M_bind. rewrite Hn.
  destruct o as [|n c]; unfold put_bytes; simpl; rewrite Hp, overwrite_end.
  - exists s, (Ok tt), bs. auto.
  - exists s, (Err (OSError c)), (take n bs). split; [done|]. right.
    split_and!; [eauto|apply take_prefix|done].
Qed.

(** An open file about to be extended. *)
Definition at_end (f : file) : Prop := f_closed f = false ∧ f_pos f = length (f_data f).

Lemma syscall_nofault {A} (m : M file A) f :
  f_closed f = false → faults (f_script f) = 0 →
  ∃ s, syscall m f = m (File (f_data f) (f_pos f) false s) ∧ faults s = 0.
Proof.
  intros Ho Hf. destruct (syscall_cases m f Ho) as [(s&?&?)|(?&?&?&?)]; [|lia].
  exists s. split; [done|lia].
Qed.

Lemma file_total_syscall {A} (m : M file A) : total m → total (syscall m).
Proof.
  intros Hm f. unfold syscall, next_outcome, mbind, M_bind.
  destruct (f_closed f); [done|]. destruct (f_script f) as [|[|]]; try done; apply Hm.
Qed.

Lemma file_total_write bs : total (file_write bs).
Proof.
  intros f. unfold file_write, next_outcome, mbind, M_bind.
  destruct (f_closed f); [done|]. by destruct (f_script f) as [|[|]].
Qed.

Lemma read_full_app n l k ending :
  length l = n → read_full_from (l ++ k) ending n = (k, Ok l).
Proof.
  intros <-. unfold read_full_from. rewrite decide_True by (rewrite length_app; lia).
  by rewrite take_app_length, drop_app_length.
Qed.

Lemma read_full_short n avail :
  length avail < n →
  read_full_from avail EOF n = ([], Err (if decide (avail = []) then EOF else ErrUnexpectedEOF)).
Proof. intros. unfold read_full_from. rewrite decide_False by lia. by destruct avail. Qed.

Lemma read_full_lacking avail ending n :
  length avail < n → ∃ e, read_full_from avail ending n = ([], Err e).
Proof. intros. unfold read_full_from. rewrite decide_False by lia. by eexists. Qed.

Lemma read_full_from_cases avail ending n :
  (∃ l, read_full_from avail ending n = (drop n avail, Ok l) ∧ length l = n)
  ∨ (∃ e, read_full_from avail ending n = ([], Err e)).
Proof.
  unfold read_full_from. case_decide; [left|right]; eexists; [|done].
  split; [done|]. rewrite length_take. lia.
Qed.

(** *** Reading *)

(** The bytes between the file offset and the end. *)
Definition f_rest (f : file) : bytes := drop (f_pos f) (f_data f).

(** A file being read sequentially with nothing going wrong. *)
Definition reading (f : file) (R : bytes) : Prop :=
  f_closed f = false ∧ f_script f = [] ∧ f_rest f = R ∧ f_pos f ≤ length (f_data f).

Lemma reading_open data : reading (open_file data []) data.
Proof. split_and!; [done..|simpl; lia]. Qed.

Lemma file_read_full_app n l R f :
  reading f (l ++ R) → length l = n →
  ∃ f', file_read_full n f = (f', Ok l) ∧ reading f' R ∧ f_data f' = f_data f.
Proof.
  intros (Ho & Hs & HR & Hp) <-. unfold file_read_full. case_decide as Hn.
  - destruct l; [|done]. exists f. split_and!; done.
  - unfold mbind, M_bind, next_outcome. rewrite Ho, Hs. unfold get_bytes.
    fold (f_rest f). rewrite HR, read_full_app by done. eexists. split; [done|].
    split; [|done]. unfold reading, f_rest; simpl. rewrite length_app, Nat.add_sub.
    assert (f_pos f + length l ≤ length (f_data f)).
    { apply (f_equal length) in HR. unfold f_rest in HR.
      rewrite length_drop, length_app in HR. lia. }
    split_and!; [done..| |done]. rewrite <- drop_drop. fold (f_rest f). rewrite HR.
    by rewrite drop_app_length.
Qed.

Lemma file_read_full_short n f R :
  reading f R → length R < n →
  ∃ f', file_read_full n f
        = (f', Err (if decide (R = []) then EOF else ErrUnexpectedEOF))
        ∧ f_closed f' = false ∧ f_script f' = [].
Proof.
  intros (Ho & Hs & HR & _) Hn. unfold file_read_full. rewrite decide_False by lia.
  unfold mbind, M_bind, next_outcome. rewrite Ho, Hs. unfold get_bytes.
  fold (f_rest f). rewrite HR, read_full_short by done. by eexists.
Qed.

(** Whatever the disk answers, a full read moves forward by what it delivers. *)
Lemma file_read_full_progress n f :
  let '(f', r) := file_read_full n f in
  returns r ∧ ∀ bs, r = Ok bs → length bs = n ∧ length (f_rest f') + n = length (f_rest f).
Proof.
  unfold file_read_full. case_decide as Hn; simpl.
  { split; [done|]. intros ? <-%Ok_inj. simpl. lia. }
  unfold mbind, M_bind, next_outcome. destruct (f_closed f) eqn:Ho; [done|].
  assert (∀ o s, let '(f', r) := get_bytes o n (File (f_data f) (f_pos f) false s) in
    returns r ∧ ∀ bs, r = Ok bs → length bs = n ∧ length (f_rest f') + n = length (f_rest f)) as Hg.
  { intros o s. unfold get_bytes; simpl.
    set (src := match o with Done => _ | Fails k code => _ end).
    assert (length (fst src) ≤ length (f_rest f)) as Hsrc
      by (destruct o; simpl; rewrite ?length_take; unfold f_rest; lia).
    destruct src as [avail ending]. simpl in Hsrc. unfold read_full_from.
    case_decide as Hl; (split; [done|intros ? [= <-]]).
    rewrite length_take. split; [lia|]. unfold f_rest in *; simpl.
    rewrite !length_drop in *. lia. }
  destruct f as [d p c [|o s]]; simpl in *; subst; apply Hg.
Qed.

Lemma try_send_wf {A} (x : A) c : chan_wf c → chan_wf (try_send x c).
Proof.
  unfold chan_wf, try_send, chan_ready. intros. destruct (Nat.ltb_spec (length (ch_buf c)) (ch_cap c)); [|done].
  simpl. rewrite length_app; simpl. lia.
Qed.

Lemma try_send_prefix {A} (x : A) c : ch_buf c `prefix_of` ch_buf (try_send x c).
Proof. unfold try_send. destruct (chan_ready c); [by eexists|done]. Qed.

#[export] Hint Resolve try_send_wf try_send_prefix : go.

(** *** Channels and their consumers *)

Lemma pt_sent_push {A} (x : A) p : pt_sent (port_push x p) = pt_sent p ++ [x].
Proof. unfold pt_sent; simpl. by rewrite app_assoc. Qed.

Lemma pt_sent_take {A} (p : port A) : pt_sent (port_take p) = pt_sent p.
Proof.
  unfold pt_sent, port_take. destruct (ch_buf (pt_chan p)) as [|x l] eqn:H; simpl; [by rewrite H|].
  by rewrite <- app_assoc.
Qed.

Lemma pt_sent_send {A} (x : A) p : pt_sent (port_send x p) = pt_sent p ++ [x].
Proof. unfold port_send. rewrite pt_sent_push. case_match; by rewrite ?pt_sent_take. Qed.

Lemma port_send_wf {A} (x : A) p :
  0 < ch_cap (pt_chan p) → chan_wf (pt_chan p) → chan_wf (pt_chan (port_send x p)).
Proof.
  unfold chan_wf, port_send, chan_ready. intros Hc Hw. case_match eqn:He; simpl.
  - apply Nat.ltb_lt in He. rewrite length_app; simpl. lia.
  - unfold port_take. destruct (ch_buf (pt_chan p)) as [|y l] eqn:Hb; simpl in *;
      rewrite ?Hb, ?length_app in *; simpl in *; lia.
Qed.

Lemma o_send_cases {A} (x : A) o :
  o_done (o_send x o) = o_done o
  ∧ ch_cap (pt_chan (o_port (o_send x o))) = ch_cap (pt_chan (o_port o))
  ∧ (o_sent (o_send x o) = o_sent o ++ [x] ∧ o_ready o = true
     ∨ o_sent (o_send x o) = o_sent o ∧ (o_ready o = false ∨ o_done o = true)).
Proof.
  unfold o_send, o_sent. destruct (o_ready o); [|split_and!; [done|done|right; auto]].
  destruct (o_done o) eqn:Hd, (o_picks o) as [|[] bs]; cbn [o_done o_port];
    rewrite ?pt_sent_push; (split_and!; [done|done|]); auto.
Qed.

Lemma o_send_live {A} (x : A) o :
  o_done o = false → o_ready o = true → o_sent (o_send x o) = o_sent o ++ [x].
Proof.
  intros Hd Hr. destruct (o_send_cases x o) as (_ & _ & [[? _]|[_ [?|?]]]); congruence.
Qed.

Lemma o_sent_take {A} (o : outlet A) : o_sent (o_take o) = o_sent o.
Proof. apply pt_sent_take. Qed.
