(* ===== verification/GoStr.v ===== *)
(** * Go strings

    A Go string is a byte string.  Literals, hexadecimal encoding and decoding,
    trimming, and the session directories both sides derive from an ID. *)

From stdpp Require Import base gmap sets strings vector numbers tactics list.
From Stdlib Require Import ZArith Lia Ascii.
From S2P Require Import Prelude Words.

(** A string literal. *)
Definition str (s : string) : bytes :=
  (λ a, U8 (Z.of_N (Ascii.N_of_ascii a))) <$> String.list_ascii_of_string s.

(** ** encoding/hex *)

Definition hexDigit (n : Z) : u8 := U8 (if decide (n < 10)%Z then 48 + n else 87 + n).

Definition hex_EncodeToString (src : bytes) : bytes :=
  b ← src; [hexDigit (uval b / 16)%Z; hexDigit (uval b mod 16)%Z].

Definition fromHexChar (c : u8) : option Z :=
  let c := uval c in
  if decide (48 <= c <= 57)%Z then Some (c - 48)%Z
  else if decide (97 <= c <= 102)%Z then Some (c - 97 + 10)%Z
  else if decide (65 <= c <= 70)%Z then Some (c - 65 + 10)%Z
  else None.

Definition ErrHex : error := Errorf "encoding/hex: invalid".

Fixpoint hex_DecodeString (s : bytes) : res bytes :=
  match s with
  | [] => Ok []
  | [_] => Err ErrHex
  | a :: b :: s =>
      match fromHexChar a, fromHexChar b with
      | Some x, Some y => rest ← hex_DecodeString s; Ok (U8 (x * 16 + y) :: rest)
      | _, _ => Err ErrHex
      end
  end.

(** [strings.TrimRight(s, "\x00")] *)
Fixpoint trim_right_zero (s : bytes) : bytes :=
  match s with
  | [] => []
  | b :: s =>
      match trim_right_zero s with
      | [] => if decide (b = U8 0) then [] else [b]
      | s => b :: s
      end
  end.

(** [strings.TrimRight(string(name[:]), "\x00")] *)
Definition name_string (name : vec u8 8) : bytes := trim_right_zero (vec_to_list name).

(** ** Session directories

    [fmt.Sprintf("%s/sessions/%02x/%030x", prefix, id[0], id[1:])] *)

Definition session_dir (prefix : bytes) (id : vec u8 16) : bytes :=
  prefix ++ str "/sessions/" ++ hex_EncodeToString (take 1 (vec_to_list id))
  ++ str "/" ++ hex_EncodeToString (drop 1 (vec_to_list id)).

(** ** Facts *)

Lemma fromHexChar_hexDigit n : (0 <= n < 16)%Z → fromHexChar (hexDigit n) = Some n.
Proof.
  intros Hn. unfold fromHexChar, hexDigit.
  destruct (decide (n < 10)%Z); rewrite uval_to_uint_small by (simpl; lia).
  - rewrite decide_True by lia. f_equal. lia.
  - rewrite decide_False, decide_True by lia. f_equal. lia.
Qed.

Lemma hex_EncodeToString_cons b s :
  hex_EncodeToString (b :: s)
  = hexDigit (uval b / 16)%Z :: hexDigit (uval b mod 16)%Z :: hex_EncodeToString s.
Proof. done. Qed.

(** Decoding inverts encoding. *)
Lemma hex_round_trip s : hex_DecodeString (hex_EncodeToString s) = Ok s.
Proof.
  induction s as [|b s IH]; [done|]. rewrite hex_EncodeToString_cons. cbn [hex_DecodeString].
  pose proof (uint_bounds b) as Hb. change (2 ^ Z.of_N 8)%Z with 256%Z in Hb.
  assert (0 <= uval b / 16 < 16)%Z as Hq by (split; [apply Z.div_pos; lia|apply Z.div_lt_upper_bound; lia]).
  assert (0 <= uval b mod 16 < 16)%Z as Hr by (apply Z.mod_pos_bound; lia).
  rewrite !fromHexChar_hexDigit, IH by done. cbn [mbind res_bind]. f_equal. f_equal.
  rewrite (Z.mul_comm _ 16), <- Z.div_mod by lia. apply to_uint_uval.
Qed.

Lemma length_hex s : length (hex_EncodeToString s) = 2 * length s.
Proof. induction s as [|b s IH]; [done|]. rewrite hex_EncodeToString_cons. simpl. lia. Qed.

Lemma hex_inj s1 s2 : hex_EncodeToString s1 = hex_EncodeToString s2 → s1 = s2.
Proof. intros H. apply Ok_inj. by rewrite <- !hex_round_trip, H. Qed.

(** Strings are decoded two characters at a time. *)
Lemma two_steps_ind (P : bytes → Prop) :
  P [] → (∀ a, P [a]) → (∀ a b s, P s → P (a :: b :: s)) → ∀ s, P s.
Proof.
  intros H0 H1 H2 s. enough (P s ∧ ∀ a, P (a :: s)) by tauto.
  induction s as [|b s [IH1 IH2]]; split; auto.
Qed.

Lemma hex_DecodeString_cases s :
  (∃ d, hex_DecodeString s = Ok d ∧ length s = 2 * length d) ∨ hex_DecodeString s = Err ErrHex.
Proof.
  induction s as [|a|a b s IH] using two_steps_ind; [left; by exists []|by right|].
  cbn [hex_DecodeString]. destruct (fromHexChar a), (fromHexChar b); auto.
  destruct IH as [(d & -> & Hl)| ->]; [left|by right]. eexists. split; [done|]. simpl. lia.
Qed.

(** Two sessions never share a directory. *)
Lemma session_dir_inj prefix id1 id2 :
  session_dir prefix id1 = session_dir prefix id2 → id1 = id2.
Proof.
  unfold session_dir. intros H. apply app_inv_head, app_inv_head in H.
  assert (∀ id : vec u8 16, length (hex_EncodeToString (take 1 (vec_to_list id))) = 2) as Hl
    by (intros id; rewrite length_hex, length_take, length_vec_to_list; done).
  apply app_inj_1 in H as [H1 H2]; [|by rewrite !Hl].
  apply app_inv_head in H2. apply hex_inj in H1, H2.
  apply vec_to_list_inj2. by rewrite <- (take_drop 1 (vec_to_list id1)), H1, H2, take_drop.
Qed.

Lemma trim_right_zero_spec s :
  ∃ n, s = trim_right_zero s ++ replicate n (U8 0)
  ∧ ∀ l, trim_right_zero s ≠ l ++ [U8 0].
Proof.
  induction s as [|b s (n & Hs & Hl)]; simpl.
  - exists 0. split; [done|]. by intros [].
  - destruct (trim_right_zero s) as [|c t] eqn:Ht.
    + simpl in Hs. destruct (decide (b = U8 0)) as [->|Hb].
      * exists (S n). simpl. rewrite Hs. split; [done|]. by intros [].
      * exists n. simpl. split; [by f_equal|]. intros [|? []]; simpl; congruence.
    + exists n. split; [simpl; by rewrite Hs at 1|].
      intros [|x l]; simpl; [congruence|]. intros [= _ H]. by apply (Hl l).
Qed.
