(* ===== verification/Json.v ===== *)
(** * encoding/json

    What the client uses of Go's JSON package: UTF-8, the escapes of strings, the
    grammar of [Unmarshal], the rules by which a value fills a Go variable, and
    the bytes [Marshal] writes.  Nothing here is code of the repository; GameInfo.v and
    DaemonWire.v use it. *)

From stdpp Require Import base gmap sets strings vector numbers tactics list.
From Stdlib Require Import ZArith Lia.
From S2P Require Import Prelude Words GoStr.

(** ** UTF-8 (unicode/utf8) *)

Definition between (lo hi : Z) (b : u8) : bool := (lo <=? uval b)%Z && (uval b <=? hi)%Z.

Definition cont (b : u8) : bool := between 128 191 b.

(** The length of the sequence of several bytes at the head of [s], if it is valid:
    the table of [utf8.DecodeRune]. *)
Definition utf8_size (s : bytes) : option nat :=
  match s with
  | a :: b :: s =>
      if between 194 223 a then (if cont b then Some 2 else None) else
      match s with
      | c :: s =>
          if between 224 239 a then
            (if between (if decide (uval a = 224)%Z then 160 else 128)
                        (if decide (uval a = 237)%Z then 159 else 191) b && cont c
             then Some 3 else None) else
          match s with
          | d :: _ =>
              if between 240 244 a
                 && between (if decide (uval a = 240)%Z then 144 else 128)
                            (if decide (uval a = 244)%Z then 143 else 191) b && cont c && cont d
              then Some 4 else None
          | [] => None
          end
      | [] => None
      end
  | _ => None
  end.

(** [utf8.EncodeRune] *)
Definition encode_rune (r : Z) : bytes :=
  if (r <? 128)%Z then [U8 r]
  else if (r <? 2048)%Z then [U8 (192 + r / 64); U8 (128 + r mod 64)]
  else if (r <? 65536)%Z then [U8 (224 + r / 4096); U8 (128 + r / 64 mod 64); U8 (128 + r mod 64)]
  else [U8 (240 + r / 262144); U8 (128 + r / 4096 mod 64); U8 (128 + r / 64 mod 64); U8 (128 + r mod 64)].

(** U+FFFD, which stands for an invalid byte. *)
Definition rune_error : bytes := [U8 239; U8 191; U8 189].

(** A string cut into its characters; [BadByte] is a byte that starts no valid
    sequence. *)
Inductive rune : Type :=
  | Ascii (b : u8)
  | Multi (x : bytes)
  | BadByte.

Fixpoint runes (fuel : nat) (s : bytes) : list rune :=
  match fuel, s with
  | S fuel, b :: t =>
      if (uval b <? 128)%Z then Ascii b :: runes fuel t
      else match utf8_size s with
           | Some n => Multi (take n s) :: runes fuel (drop n s)
           | None => BadByte :: runes fuel t
           end
  | _, _ => []
  end.

Definition runes_of (s : bytes) : list rune := runes (length s) s.

Definition clean_rune (r : rune) : bytes :=
  match r with Ascii b => [b] | Multi x => x | BadByte => rune_error end.

(** The string with every invalid byte replaced. *)
Definition to_valid (s : bytes) : bytes := runes_of s ≫= clean_rune.

Definition valid_utf8 (s : bytes) : Prop := BadByte ∉ runes_of s.

(** ** Writing *)

Definition quote : u8 := U8 34.
Definition backslash : u8 := U8 92.

(** Characters that [Marshal] copies: its [htmlSafeSet]. *)
Definition html_safe (b : u8) : bool :=
  (32 <=? uval b)%Z && negb (bool_decide (uval b ∈ [34; 38; 60; 62; 92]%Z)).

Definition escape_ascii (b : u8) : bytes :=
  if html_safe b then [b]
  else if decide (uval b = 92 ∨ uval b = 34)%Z then [backslash; b]
  else if decide (uval b = 8)%Z then str "\b"
  else if decide (uval b = 12)%Z then str "\f"
  else if decide (uval b = 10)%Z then str "\n"
  else if decide (uval b = 13)%Z then str "\r"
  else if decide (uval b = 9)%Z then str "\t"
  else str "\u00" ++ hex_EncodeToString [b].

(** U+2028 and U+2029 are escaped. *)
Definition escape_rune (r : rune) : bytes :=
  match r with
  | Ascii b => escape_ascii b
  | Multi x =>
      if decide (x = [U8 226; U8 128; U8 168]) then str "\u2028"
      else if decide (x = [U8 226; U8 128; U8 169]) then str "\u2029"
      else x
  | BadByte => str "\ufffd"
  end.

Definition json_string (s : bytes) : bytes := quote :: (runes_of s ≫= escape_rune) ++ [quote].

(** [strconv.AppendInt(dst, z, 10)] *)
Fixpoint decimal (fuel : nat) (n : Z) : bytes :=
  match fuel with
  | 0 => []
  | S fuel => (if (n <? 10)%Z then [] else decimal fuel (n / 10)) ++ [U8 (48 + n mod 10)]
  end.

Definition decimal_fuel (n : Z) : nat := S (Z.to_nat (Z.log2 n)).

Definition json_int (z : Z) : bytes :=
  if (z <? 0)%Z then U8 45 :: decimal (decimal_fuel (- z)) (- z) else decimal (decimal_fuel z) z.

Definition json_bool (b : bool) : bytes := if b then str "true" else str "false".

(** The fields of a struct, each with the bytes of its value. *)
Definition json_member (m : bytes * bytes) : bytes := json_string m.1 ++ [U8 58] ++ m.2.

Fixpoint json_members (ms : list (bytes * bytes)) : bytes :=
  match ms with
  | [] => []
  | [m] => json_member m
  | m :: ms => json_member m ++ [U8 44] ++ json_members ms
  end.

Definition json_object (ms : list (bytes * bytes)) : bytes := [U8 123] ++ json_members ms ++ [U8 125].

Fixpoint json_elements (vs : list bytes) : bytes :=
  match vs with
  | [] => []
  | [v] => v
  | v :: vs => v ++ [U8 44] ++ json_elements vs
  end.

Definition json_array (vs : list bytes) : bytes := [U8 91] ++ json_elements vs ++ [U8 93].

(** ** Reading: the grammar *)

Inductive json : Type :=
  | JNull
  | JBool (b : bool)
  | JNumber (literal : bytes)
  | JString (s : bytes)
  | JArray (l : list json)
  | JObject (l : list (bytes * json)).

Definition SyntaxError : error := Errorf "invalid JSON".

Definition is_space (b : u8) : bool := bool_decide (uval b ∈ [32; 9; 13; 10]%Z).

Fixpoint skip_space (d : bytes) : bytes :=
  match d with
  | b :: t => if is_space b then skip_space t else d
  | [] => []
  end.

(** *** Strings *)

Definition simple_escape (e : u8) : option u8 :=
  if bool_decide (uval e ∈ [34; 92; 47]%Z) then Some e
  else if decide (uval e = 98)%Z then Some (U8 8)
  else if decide (uval e = 102)%Z then Some (U8 12)
  else if decide (uval e = 110)%Z then Some (U8 10)
  else if decide (uval e = 114)%Z then Some (U8 13)
  else if decide (uval e = 116)%Z then Some (U8 9)
  else None.

(** The four digits after a [\u]. *)
Definition hex4 (d : bytes) : option (Z * bytes) :=
  match d with
  | a :: b :: c :: e :: t =>
      match fromHexChar a, fromHexChar b, fromHexChar c, fromHexChar e with
      | Some a, Some b, Some c, Some e => Some (((a * 16 + b) * 16 + c) * 16 + e, t)%Z
      | _, _, _, _ => None
      end
  | _ => None
  end.

(** The character of an escape [\uXXXX], with the second half of a surrogate pair
    when it follows. *)
Definition unicode_escape (d : bytes) : option (bytes * bytes) :=
  match hex4 d with
  | None => None
  | Some (r, t) =>
      if decide (55296 <= r < 57344)%Z then
        match t with
        | b :: u :: t' =>
            if decide (b = backslash ∧ u = U8 117 ∧ r < 56320)%Z then
              match hex4 t' with
              | Some (r2, t2) =>
                  if decide (56320 <= r2 < 57344)%Z
                  then Some (encode_rune ((r - 55296) * 1024 + (r2 - 56320) + 65536), t2)
                  else Some (rune_error, t)
              | None => Some (rune_error, t)
              end
            else Some (rune_error, t)
        | _ => Some (rune_error, t)
        end
      else Some (encode_rune r, t)
  end.

(** One character of a string, or an escape, and what follows. *)
Definition string_char (d : bytes) : res (bytes * bytes) :=
  match d with
  | [] => Err SyntaxError
  | b :: t =>
      if decide (b = backslash) then
        match t with
        | e :: t =>
            if decide (e = U8 117) then
              match unicode_escape t with
              | Some xr => Ok xr
              | None => Err SyntaxError
              end
            else match simple_escape e with
                 | Some c => Ok ([c], t)
                 | None => Err SyntaxError
                 end
        | [] => Err SyntaxError
        end
      else if (uval b <? 32)%Z then Err SyntaxError
      else if (uval b <? 128)%Z then Ok ([b], t)
      else match utf8_size d with
           | Some n => Ok (take n d, drop n d)
           | None => Ok (rune_error, t)
           end
  end.

(** The rest of a string after its opening quote: its value and what follows. *)
Fixpoint string_body (fuel : nat) (d : bytes) : res (bytes * bytes) :=
  match fuel with
  | 0 => NoFuel
  | S fuel =>
      if decide (head d = Some quote) then Ok ([], tail d) else
      '(x, rest) ← string_char d;
      '(s, r) ← string_body fuel rest;
      Ok (x ++ s, r)
  end.

(** *** Numbers *)

Definition is_digit (b : u8) : bool := between 48 57 b.

Fixpoint digits (d : bytes) : bytes * bytes :=
  match d with
  | b :: t => if is_digit b then let '(x, r) := digits t in (b :: x, r) else ([], d)
  | [] => ([], [])
  end.

(** One or more digits. *)
Definition digits1 (d : bytes) : option (bytes * bytes) :=
  match digits d with
  | ([], _) => None
  | xr => Some xr
  end.

Definition int_part (d : bytes) : option (bytes * bytes) :=
  match d with
  | b :: t => if decide (b = U8 48) then Some ([b], t) else digits1 d
  | [] => None
  end.

Definition frac_part (d : bytes) : option (bytes * bytes) :=
  match d with
  | b :: t =>
      if decide (b = U8 46) then
        match digits1 t with Some (x, r) => Some (b :: x, r) | None => None end
      else Some ([], d)
  | [] => Some ([], [])
  end.

Definition exp_part (d : bytes) : option (bytes * bytes) :=
  match d with
  | b :: t =>
      if decide (b = U8 101 ∨ b = U8 69) then
        let '(sign, t) := match t with
                          | s :: t' => if decide (s = U8 43 ∨ s = U8 45) then ([s], t') else ([], t)
                          | [] => ([], [])
                          end in
        match digits1 t with Some (x, r) => Some (b :: sign ++ x, r) | None => None end
      else Some ([], d)
  | [] => Some ([], [])
  end.

Definition number (d : bytes) : option (bytes * bytes) :=
  let '(sign, t) := match d with
                    | b :: t => if decide (b = U8 45) then ([b], t) else ([], d)
                    | [] => ([], [])
                    end in
  '(x, t) ← int_part t;
  '(y, t) ← frac_part t;
  '(z, t) ← exp_part t;
  Some (sign ++ x ++ y ++ z, t).

(** *** Values *)

(** [word] at the head of [d]. *)
Definition keyword (word : bytes) (j : json) (d : bytes) : res (json * bytes) :=
  if decide (take (length word) d = word) then Ok (j, drop (length word) d) else Err SyntaxError.

Definition maxNestingDepth : N := 10000.

Definition is_byte (n : Z) (b : u8) : bool := (uval b =? n)%Z.

Fixpoint parse_value (fuel : nat) (depth : N) (d : bytes) : res (json * bytes) :=
  match fuel with
  | 0 => NoFuel
  | S fuel =>
      match skip_space d with
      | [] => Err SyntaxError
      | b :: t =>
          if is_byte 123 b then
            if (maxNestingDepth <=? depth)%N then Err (Errorf "exceeded max depth") else
            match skip_space t with
            | c :: t' => if is_byte 125 c then Ok (JObject [], t') else
                         '(l, r) ← parse_members fuel (depth + 1) t; Ok (JObject l, r)
            | [] => Err SyntaxError
            end
          else if is_byte 91 b then
            if (maxNestingDepth <=? depth)%N then Err (Errorf "exceeded max depth") else
            match skip_space t with
            | c :: t' => if is_byte 93 c then Ok (JArray [], t') else
                         '(l, r) ← parse_elements fuel (depth + 1) t; Ok (JArray l, r)
            | [] => Err SyntaxError
            end
          else if is_byte 34 b then
            '(s, r) ← string_body (S (length t)) t; Ok (JString s, r)
          else if is_byte 116 b then keyword (str "true") (JBool true) (b :: t)
          else if is_byte 102 b then keyword (str "false") (JBool false) (b :: t)
          else if is_byte 110 b then keyword (str "null") JNull (b :: t)
          else match number (b :: t) with
               | Some (x, r) => Ok (JNumber x, r)
               | None => Err SyntaxError
               end
      end
  end
with parse_elements (fuel : nat) (depth : N) (d : bytes) : res (list json * bytes) :=
  match fuel with
  | 0 => NoFuel
  | S fuel =>
      '(j, r) ← parse_value fuel depth d;
      match skip_space r with
      | b :: t =>
          if is_byte 44 b then '(l, r) ← parse_elements fuel depth t; Ok (j :: l, r)
          else if is_byte 93 b then Ok ([j], t)
          else Err SyntaxError
      | [] => Err SyntaxError
      end
  end
with parse_members (fuel : nat) (depth : N) (d : bytes) : res (list (bytes * json) * bytes) :=
  match fuel with
  | 0 => NoFuel
  | S fuel =>
      match skip_space d with
      | b :: t =>
          if is_byte 34 b then
            '(k, r) ← string_body (S (length t)) t;
            match skip_space r with
            | c :: t =>
                if is_byte 58 c then
                  '(j, r) ← parse_value fuel depth t;
                  match skip_space r with
                  | b :: t =>
                      if is_byte 44 b then '(l, r) ← parse_members fuel depth t; Ok ((k, j) :: l, r)
                      else if is_byte 125 b then Ok ([(k, j)], t)
                      else Err SyntaxError
                  | [] => Err SyntaxError
                  end
                else Err SyntaxError
            | [] => Err SyntaxError
            end
          else Err SyntaxError
      | [] => Err SyntaxError
      end
  end.

Definition parse_fuel (d : bytes) : nat := 2 * length d + 2.

(** A whole document. *)
Definition parse_json (d : bytes) : res json :=
  '(j, r) ← parse_value (parse_fuel d) 0 d;
  match skip_space r with
  | [] => Ok j
  | _ => Err SyntaxError
  end.

(** ** Reading: the values of Go variables

    A decoder takes the value of the variable before and the JSON value.  [null]
    leaves the variable alone; a value that does not fit is an error. *)

Definition Decoder (A : Type) : Type := A → json → res A.

Definition TypeError : error := Errorf "cannot unmarshal into Go value".

Definition dec_string : Decoder bytes := λ old j,
  match j with
  | JNull => Ok old
  | JString s => Ok s
  | _ => Err TypeError
  end.

Definition digits_value (ds : bytes) : Z := foldl (λ a b, a * 10 + (uval b - 48))%Z 0%Z ds.

(** [strconv.ParseUint] on a number of the grammar. *)
Definition uint_literal (x : bytes) : option Z :=
  if forallb is_digit x then Some (digits_value x) else None.

(** [strconv.ParseInt] on a number of the grammar. *)
Definition int_literal (x : bytes) : option Z :=
  match x with
  | b :: t => if decide (b = U8 45) then Z.opp <$> uint_literal t else uint_literal x
  | [] => None
  end.

(** [int] has 64 bits. *)
Definition in_int64 (z : Z) : Prop := (-2 ^ 63 <= z < 2 ^ 63)%Z.

Definition dec_int : Decoder Z := λ old j,
  match j with
  | JNull => Ok old
  | JNumber x =>
      match int_literal x with
      | Some z => if decide (-2 ^ 63 <= z < 2 ^ 63)%Z then Ok z else Err TypeError
      | None => Err TypeError
      end
  | _ => Err TypeError
  end.

Definition dec_uint (w : N) : Decoder (uint w) := λ old j,
  match j with
  | JNull => Ok old
  | JNumber x =>
      match uint_literal x with
      | Some z => if decide (z < 2 ^ Z.of_N w)%Z then Ok (to_uint w z) else Err TypeError
      | None => Err TypeError
      end
  | _ => Err TypeError
  end.

(** A pointer to a [bool]: [null] is the nil pointer. *)
Definition dec_bool_ptr : Decoder (option bool) := λ old j,
  match j with
  | JNull => Ok None
  | JBool b => Ok (Some b)
  | _ => Err TypeError
  end.

(** Elements fill the old ones, the variable being a slice. *)
Fixpoint dec_elements {A} (zero : A) (dec : Decoder A) (old : list A) (js : list json) : res (list A) :=
  match js with
  | [] => Ok []
  | j :: js =>
      x ← dec (default zero (head old)) j;
      l ← dec_elements zero dec (tail old) js;
      Ok (x :: l)
  end.

Definition dec_slice {A} (zero : A) (dec : Decoder A) : Decoder (list A) := λ old j,
  match j with
  | JNull => Ok []
  | JArray js => dec_elements zero dec old js
  | _ => Err TypeError
  end.

(** Names are compared without regard to case when none is equal; U+017F and
    U+212A are the characters outside ASCII that fold to letters of ASCII. *)
Definition fold_rune (r : rune) : bytes :=
  match r with
  | Ascii b => if between 97 122 b then [U8 (uval b - 32)] else [b]
  | Multi x =>
      if decide (x = [U8 197; U8 191]) then str "S"
      else if decide (x = [U8 226; U8 132; U8 170]) then str "K"
      else x
  | BadByte => rune_error
  end.

Definition fold_name (s : bytes) : bytes := runes_of s ≫= fold_rune.

(** A field of a struct [S]: its name and what a value does to the struct. *)
Definition field (S : Type) : Type := bytes * (S → json → res S).

Definition find_field {S} (fields : list (field S)) (key : bytes) : option (S → json → res S) :=
  match list_find (λ f, f.1 = key) fields with
  | Some (_, f) => Some f.2
  | None => (λ f, (snd f).2) <$> list_find (λ f, fold_name f.1 = fold_name key) fields
  end.

Fixpoint dec_members {S} (fields : list (field S)) (s : S) (ms : list (bytes * json)) : res S :=
  match ms with
  | [] => Ok s
  | (k, j) :: ms =>
      s' ← match find_field fields k with
           | Some f => f s j
           | None => Ok s
           end;
      dec_members fields s' ms
  end.

Definition dec_struct {S} (fields : list (field S)) : Decoder S := λ old j,
  match j with
  | JNull => Ok old
  | JObject ms => dec_members fields old ms
  | _ => Err TypeError
  end.

(** A field of type [A]. *)
Definition on_field {S A} (name : string) (get : S → A) (set : A → S → S) (dec : Decoder A) : field S :=
  (str name, λ s j, a ← dec (get s) j; Ok (set a s)).

(** [json.Unmarshal(data, &v)] with [v] zero. *)
Definition Unmarshal {A} (dec : Decoder A) (zero : A) (data : bytes) : res A :=
  j ← parse_json data;
  dec zero j.

(** ** Facts: UTF-8 *)

Arguments utf8_size : simpl never.

(** A valid sequence of several bytes, whatever follows it. *)
Definition multi_ok (x : bytes) : Prop :=
  (∃ b t, x = b :: t ∧ (128 <= uval b)%Z) ∧ ∀ rest, utf8_size (x ++ rest) = Some (length x).

Lemma between_spec lo hi b : between lo hi b = true ↔ (lo <= uval b <= hi)%Z.
Proof. unfold between. lia. Qed.

Lemma utf8_size_multi s n :
  utf8_size s = Some n → n ≤ length s ∧ 0 < n ∧ multi_ok (take n s).
Proof.
  unfold utf8_size at 1, multi_ok, utf8_size. destruct s as [|a [|b s]]; [done..|].
  destruct (between 194 223 a) eqn:H1.
  { destruct (cont b) eqn:Hb; [|done]. intros [= <-]. simpl. split; [lia|]. split; [lia|].
    split; [exists a, [b]; split; [done|]; apply between_spec in H1; lia|].
    intros rest. simpl. by rewrite H1, Hb. }
  destruct s as [|c s]; [done|]. destruct (between 224 239 a) eqn:H2.
  { destruct (between _ _ b && cont c) eqn:Hb; [|done]. intros [= <-]. simpl. split; [lia|]. split; [lia|].
    split; [exists a, [b; c]; split; [done|]; apply between_spec in H2; lia|].
    intros rest. simpl. by rewrite H1, H2, Hb. }
  destruct s as [|d s]; [done|]. destruct (between 240 244 a) eqn:H3; simpl; [|done].
  destruct (_ && cont c && cont d) eqn:Hb; [|done]. intros [= <-]. simpl. split; [lia|]. split; [lia|].
  split; [exists a, [b; c; d]; split; [done|]; apply between_spec in H3; lia|].
  intros rest. simpl. by rewrite H1, H2, H3; simpl; rewrite Hb.
Qed.

Definition rune_wf (r : rune) : Prop :=
  match r with
  | Ascii b => (uval b < 128)%Z
  | Multi x => multi_ok x
  | BadByte => True
  end.

Lemma runes_wf fuel s : Forall rune_wf (runes fuel s).
Proof.
  revert s. induction fuel as [|fuel IH]; intros [|b t]; cbn [runes]; [constructor..|].
  destruct (Z.ltb_spec (uval b) 128); [by constructor|].
  destruct (utf8_size (b :: t)) as [n|] eqn:Hn; [|by constructor].
  constructor; [|done]. by apply utf8_size_multi in Hn as (_ & _ & ?).
Qed.

(** Any fuel that reaches the end of the string gives the same runes. *)
Lemma runes_fuel f1 f2 s : length s ≤ f1 → length s ≤ f2 → runes f1 s = runes f2 s.
Proof.
  revert f2 s. induction f1 as [|f1 IH]; intros [|f2] [|b t] H1 H2; cbn [runes]; simpl in *; try done; try lia.
  destruct (uval b <? 128)%Z; [f_equal; apply IH; lia|].
  destruct (utf8_size (b :: t)) as [n|] eqn:Hn; [|f_equal; apply IH; lia].
  apply utf8_size_multi in Hn as (_ & Hn & _). f_equal.
  apply IH; rewrite length_drop; simpl; lia.
Qed.

(** Valid strings are their own cleaning. *)
Lemma to_valid_id s : valid_utf8 s → to_valid s = s.
Proof.
  unfold valid_utf8, to_valid, runes_of. generalize (le_n (length s)). generalize (length s) at 2 3 4.
  intros f. revert s. induction f as [|f IH]; intros [|b t] Hf Hv; cbn [runes] in *; simpl in Hf; try done; try lia.
  destruct (Z.ltb_spec (uval b) 128).
  { simpl. f_equal. apply IH; [lia|]. intros Hin. apply Hv. by right. }
  destruct (utf8_size (b :: t)) as [n|] eqn:Hn; [|by destruct Hv; left].
  destruct (utf8_size_multi _ _ Hn) as (_ & Hpos & _).
  rewrite bind_cons. cbn [clean_rune]. rewrite (IH (drop n (b :: t))); [apply take_drop| |].
  - rewrite length_drop. simpl. lia.
  - intros Hin. apply Hv. by right.
Qed.

(** ASCII is valid. *)
Definition ascii (s : bytes) : Prop := Forall (λ b, uval b < 128)%Z s.

Lemma runes_ascii s : ascii s → runes_of s = Ascii <$> s.
Proof.
  unfold runes_of. induction 1 as [|b s Hb _ IH]; [done|]. cbn [length runes fmap list_fmap].
  assert ((uval b <? 128)%Z = true) as -> by lia. f_equal. exact IH.
Qed.

Lemma ascii_valid s : ascii s → valid_utf8 s.
Proof. intros Hs. unfold valid_utf8. rewrite runes_ascii by done. by intros (? & ? & _)%list_elem_of_fmap. Qed.

(** ** Facts: strings *)

Lemma u8_eq (b : u8) z : uval b = z → b = U8 z.
Proof. intros <-. by rewrite to_uint_uval. Qed.

Lemma hex4_low b t :
  (uval b < 256)%Z →
  hex4 (str "00" ++ hex_EncodeToString [b] ++ t) = Some (uval b, t).
Proof.
  intros Hb. pose proof (uint_bounds b) as Hb0. rewrite hex_EncodeToString_cons.
  change (str "00") with [U8 48; U8 48]. cbn [app hex4].
  assert (fromHexChar (U8 48) = Some 0%Z) as -> by reflexivity.
  assert (0 <= uval b / 16 < 16)%Z as Hq by (split; [apply Z.div_pos; lia|apply Z.div_lt_upper_bound; lia]).
  assert (0 <= uval b mod 16 < 16)%Z as Hr by (apply Z.mod_pos_bound; lia).
  rewrite !fromHexChar_hexDigit by done.
  cbn [app hex_EncodeToString mbind list_bind]. f_equal. f_equal. rewrite (Z.div_mod (uval b) 16) at 3 by lia. lia.
Qed.

(** What [string_char] reads back after an escape. *)
Definition reads_char (e x : bytes) : Prop := ∀ rest,
  string_char (e ++ rest) = Ok (x, rest) ∧ head (e ++ rest) ≠ Some quote.

Lemma reads_escape c n : simple_escape (U8 n) = Some c → U8 n ≠ U8 117 → reads_char [backslash; U8 n] [c].
Proof.
  intros He Hn rest. split; [|by_compute]. cbn [app string_char]. rewrite decide_True by done.
  rewrite decide_False by done. by rewrite He.
Qed.

Lemma reads_control b : (uval b < 128)%Z → reads_char (str "\u00" ++ hex_EncodeToString [b]) [b].
Proof.
  intros Hb rest. split; [|by_compute]. change (str "\u00") with (backslash :: U8 117 :: str "00").
  cbn [app string_char]. rewrite !decide_True by done. unfold unicode_escape.
  rewrite <- (app_assoc (str "00")), hex4_low by lia.
  rewrite decide_False by lia. unfold encode_rune. assert ((uval b <? 128)%Z = true) as -> by lia.
  by rewrite to_uint_uval.
Qed.

Lemma reads_ascii b : (uval b < 128)%Z → reads_char (escape_ascii b) [b].
Proof.
  intros Hb. unfold escape_ascii. destruct (html_safe b) eqn:Hs.
  { unfold html_safe in Hs. apply andb_prop in Hs as [Hs1 Hs2%negb_true_iff%bool_decide_eq_false].
    intros rest. cbn [app head string_char]. split.
    - rewrite decide_False by (intros ->; apply Hs2; by_compute).
      assert ((uval b <? 32)%Z = false) as -> by lia. by assert ((uval b <? 128)%Z = true) as -> by lia.
    - intros [= ->]. apply Hs2. by_compute. }
  destruct (decide (uval b = 92 ∨ uval b = 34)%Z) as [[->%u8_eq| ->%u8_eq]|_].
  { apply reads_escape; by_compute. }
  { apply reads_escape; by_compute. }
  repeat match goal with
  | |- context [decide (uval b = ?n)] =>
      destruct (decide (uval b = n)) as [->%u8_eq|_];
      [apply (reads_escape _ _); by_compute|]
  end.
  by apply reads_control.
Qed.

Lemma reads_unicode z x :
  (0 <= z < 65536)%Z →
  (∀ rest, unicode_escape (drop 2 x ++ rest) = Some (encode_rune z, rest)) →
  take 2 x = [backslash; U8 117] → reads_char x (encode_rune z).
Proof.
  intros _ Hu Hx rest. destruct x as [|b [|u x]]; try done. simpl in Hx, Hu. simplify_eq.
  split; [|by_compute]. cbn [app string_char]. rewrite !decide_True by done. by rewrite Hu.
Qed.

Lemma reads_rune r : rune_wf r → reads_char (escape_rune r) (clean_rune r).
Proof.
  destruct r as [b|x|]; cbn [rune_wf escape_rune clean_rune]; [apply reads_ascii| |].
  - intros [(b & t & -> & Hb) Hx].
    destruct (decide _) as [->|_]; [by apply (reads_unicode 8232)|].
    destruct (decide _) as [->|_]; [by apply (reads_unicode 8233)|].
    intros rest. specialize (Hx rest). cbn [app head string_char] in *.
    assert (∀ z, (0 <= z < 128)%Z → b ≠ U8 z) as Hne
      by (intros z Hz ->; rewrite uval_to_uint_small in Hb by (simpl; lia); lia).
    split; [|intros [= ->]; by apply (Hne 34%Z)].
    rewrite decide_False by (by apply (Hne 92%Z)).
    assert ((uval b <? 32)%Z = false) as -> by lia. assert ((uval b <? 128)%Z = false) as -> by lia.
    rewrite Hx. f_equal. f_equal; [exact (take_app_length (b :: t) rest)|exact (drop_app_length (b :: t) rest)].
  - intros _. by apply (reads_unicode 65533).
Qed.

Lemma string_body_runes rs fuel rest :
  Forall rune_wf rs → length rs < fuel →
  string_body fuel ((rs ≫= escape_rune) ++ quote :: rest) = Ok (rs ≫= clean_rune, rest).
Proof.
  intros Hrs. revert fuel. induction Hrs as [|r rs Hr _ IH]; intros [|fuel] Hf; simpl in Hf; try lia; [done|].
  rewrite !bind_cons, <- app_assoc. cbn [string_body].
  destruct (reads_rune r Hr ((rs ≫= escape_rune) ++ quote :: rest)) as [Hc Hq].
  rewrite decide_False, Hc by done. cbn [mbind res_bind]. rewrite IH by lia. done.
Qed.

Lemma escape_rune_nonempty r : rune_wf r → 0 < length (escape_rune r).
Proof.
  intros Hr. destruct (reads_rune r Hr []) as [Hc _]. destruct (escape_rune r); [done|simpl; lia].
Qed.

Lemma length_runes_escaped rs : Forall rune_wf rs → length rs ≤ length (rs ≫= escape_rune).
Proof.
  induction 1 as [|r rs Hr _ IH]; [done|]. rewrite bind_cons, length_app.
  pose proof (escape_rune_nonempty r Hr). simpl. lia.
Qed.

(** A string that [Marshal] wrote is read back as its cleaning. *)
Lemma string_body_json s rest :
  ∃ t, json_string s ++ rest = quote :: t
  ∧ string_body (S (length t)) t = Ok (to_valid s, rest).
Proof.
  exists ((runes_of s ≫= escape_rune) ++ quote :: rest). unfold json_string, to_valid.
  split; [by rewrite <- app_comm_cons, <- app_assoc|].
  pose proof (runes_wf (length s) s) as Hwf. fold (runes_of s) in Hwf.
  apply string_body_runes; [done|]. pose proof (length_runes_escaped _ Hwf).
  rewrite length_app. simpl. lia.
Qed.

(** ** Facts: numbers *)

(** What may follow a number in a document. *)
Definition number_end (rest : bytes) : Prop :=
  match rest with
  | [] => True
  | b :: _ => is_digit b = false ∧ uval b ≠ 46%Z ∧ uval b ≠ 101%Z ∧ uval b ≠ 69%Z
  end.

Lemma digits_app ds rest :
  Forall (λ b, is_digit b = true) ds → number_end rest → digits (ds ++ rest) = (ds, rest).
Proof.
  intros Hds Hr. induction Hds as [|b ds Hb _ IH]; cbn [app digits].
  - destruct rest as [|b r]; [done|]. destruct Hr as [Hr _]. cbn [digits]. by rewrite Hr.
  - by rewrite Hb, IH.
Qed.

Lemma frac_exp_end rest :
  number_end rest → frac_part rest = Some ([], rest) ∧ exp_part rest = Some ([], rest).
Proof.
  intros Hr. destruct rest as [|b r]; [done|]. destruct Hr as (_ & H1 & H2 & H3). simpl.
  rewrite !decide_False; [done|..].
  - by intros [->| ->].
  - by intros ->.
Qed.

(** A decimal numeral: digits without a leading zero. *)
Definition numeral (ds : bytes) : Prop :=
  Forall (λ b, is_digit b = true) ds ∧ ds ≠ [] ∧ (ds = [U8 48] ∨ head ds ≠ Some (U8 48)).

Lemma number_numeral (neg : bool) ds rest :
  numeral ds → number_end rest →
  number ((if neg then [U8 45] else []) ++ ds ++ rest)
  = Some ((if neg then [U8 45] else []) ++ ds, rest).
Proof.
  intros (Hd & Hne & Hz) Hr. destruct (frac_exp_end rest Hr) as [Hf He].
  assert (int_part (ds ++ rest) = Some (ds, rest)) as Hi.
  { destruct Hz as [->|Hz]; [done|]. destruct ds as [|b ds]; [done|]. cbn [app int_part].
    rewrite decide_False by (intros ->; by apply Hz).
    unfold digits1. change (b :: ds ++ rest) with ((b :: ds) ++ rest). by rewrite digits_app. }
  assert (∃ b t, ds ++ rest = b :: t ∧ b ≠ U8 45) as (b & t & Hb & Hb45).
  { destruct ds as [|b ds]; [done|]. exists b, (ds ++ rest). split; [done|].
    apply Forall_cons in Hd as [Hd _]. intros ->. discriminate Hd. }
  unfold number. destruct neg; cbn [app].
  - rewrite decide_True by done. rewrite Hi. cbn [mbind option_bind]. rewrite Hf. cbn [mbind option_bind].
    rewrite He. cbn [mbind option_bind]. by rewrite !app_nil_r.
  - assert (match ds ++ rest with
            | b :: t => if decide (b = U8 45) then ([b], t) else ([], ds ++ rest)
            | [] => ([], [])
            end = ([], ds ++ rest)) as -> by (rewrite Hb; by rewrite decide_False).
    rewrite Hi. cbn [mbind option_bind].
    rewrite Hf. cbn [mbind option_bind]. rewrite He. cbn [mbind option_bind]. by rewrite !app_nil_r.
Qed.

Lemma digits_value_snoc ds b : digits_value (ds ++ [b]) = (digits_value ds * 10 + (uval b - 48))%Z.
Proof. unfold digits_value. by rewrite foldl_app. Qed.

Lemma decimal_spec fuel n :
  (0 <= n)%Z → (Z.log2 n < Z.of_nat fuel)%Z →
  numeral (decimal fuel n) ∧ digits_value (decimal fuel n) = n.
Proof.
  revert n. induction fuel as [|fuel IH]; intros n Hn Hf.
  { pose proof (Z.log2_nonneg n). lia. }
  cbn [decimal]. pose proof (Z.mod_pos_bound n 10) as Hm.
  assert (uval (U8 (48 + n mod 10)) = 48 + n mod 10)%Z as Hu by (apply uval_to_uint_small; simpl; lia).
  assert (is_digit (U8 (48 + n mod 10)) = true) as Hd by (unfold is_digit, between; lia).
  destruct (Z.ltb_spec n 10) as [Hlt|Hge].
  - cbn [app]. split.
    + split; [by constructor|]. split; [done|]. rewrite Z.mod_small by lia.
      destruct (decide (n = 0)%Z) as [->|Hn0]; [by left|right]. intros [= H].
      rewrite !Z.mod_small in H by lia. lia.
    + pose proof (digits_value_snoc [] (U8 (48 + n mod 10))) as Hs. cbn [app] in Hs. rewrite Hs, Hu, Z.mod_small by lia. change (digits_value []) with 0%Z. lia.
  - destruct (IH (n / 10)%Z) as [(H1 & H2 & H3) Hv].
    { apply Z.div_pos; lia. }
    { assert (Z.log2 (n / 10) < Z.log2 n)%Z; [|lia].
      apply Z.log2_lt_pow2; [apply Z.div_str_pos; lia|].
      apply Z.div_lt_upper_bound; [lia|]. destruct (Z.log2_spec n) as [_ Hs]; [lia|].
      rewrite Z.pow_succ_r in Hs by apply Z.log2_nonneg. lia. }
    assert (n / 10 > 0)%Z as Hpos by (apply Z.lt_gt, Z.div_str_pos; lia).
    split.
    + split; [by apply Forall_app_2; [|constructor]|]. split; [by intros [_ [=]]%app_eq_nil|]. right.
      destruct (decimal fuel (n / 10)) as [|b ds] eqn:Hdec; [done|]. simpl. destruct H3 as [H3|H3]; [|done].
      rewrite H3 in Hv. assert (digits_value [U8 48] = 0)%Z by done. lia.
    + rewrite digits_value_snoc, Hv, Hu. rewrite (Z.div_mod n 10) at 3 by lia. lia.
Qed.

Lemma json_int_spec z :
  ∃ (neg : bool) ds, json_int z = (if neg then [U8 45] else []) ++ ds ∧ numeral ds
  ∧ int_literal (json_int z) = Some z.
Proof.
  assert (∀ n, (0 <= n)%Z → (Z.log2 n < Z.of_nat (decimal_fuel n))%Z) as Hf.
  { intros n Hn. unfold decimal_fuel. pose proof (Z.log2_nonneg n). lia. }
  assert (∀ ds, numeral ds → uint_literal ds = Some (digits_value ds)) as Hu.
  { intros ds [Hd _]. unfold uint_literal.
    assert (forallb is_digit ds = true) as ->; [|done].
    induction Hd as [|b ds Hb _ IH]; [done|]. simpl. by rewrite Hb, IH. }
  unfold json_int. destruct (Z.ltb_spec z 0) as [Hz|Hz].
  - destruct (decimal_spec (decimal_fuel (- z)) (- z)) as [Hn Hv]; [lia|apply Hf; lia|].
    exists true, (decimal (decimal_fuel (- z)) (- z)). split; [done|]. split; [done|].
    cbn [int_literal]. rewrite decide_True by done. rewrite Hu, Hv by done. simpl. f_equal. lia.
  - destruct (decimal_spec (decimal_fuel z) z) as [Hn Hv]; [lia|by apply Hf|].
    exists false, (decimal (decimal_fuel z) z). split; [done|]. split; [done|].
    pose proof Hn as (Hd & Hne & _). destruct (decimal _ z) as [|b ds] eqn:He; [done|]. cbn [int_literal].
    apply Forall_cons in Hd as [Hd _]. rewrite decide_False by (intros ->; discriminate Hd).
    by rewrite Hu, Hv.
Qed.

(** ** Facts: what [Marshal] writes is read back *)

Definition follows_value (rest : bytes) : Prop := ∃ b r, rest = b :: r ∧ (b = U8 44 ∨ b = U8 125).

(** The text [t] is read as the value [j], before a comma or a closing brace. *)
Definition reads_value (t : bytes) (j : json) : Prop := ∀ fuel depth rest,
  follows_value rest → parse_value (S fuel) depth (t ++ rest) = Ok (j, rest).

Lemma is_byte_false n (b : u8) : uval b ≠ n → is_byte n b = false.
Proof. unfold is_byte. lia. Qed.

Lemma reads_string s : reads_value (json_string s) (JString (to_valid s)).
Proof.
  intros fuel depth rest _. destruct (string_body_json s rest) as (t & -> & Hb).
  cbn [parse_value]. change (skip_space (quote :: t)) with (quote :: t). cbv iota beta.
  by rewrite Hb.
Qed.

Lemma reads_bool b : reads_value (json_bool b) (JBool b).
Proof. intros fuel depth rest _. by destruct b. Qed.

Lemma digit_head (neg : bool) ds rest :
  numeral ds → ∃ b t, (if neg then [U8 45] else []) ++ ds ++ rest = b :: t
  ∧ (uval b = 45%Z ∨ 48 <= uval b <= 57)%Z.
Proof.
  intros (Hd & Hne & _). destruct neg; [by exists (U8 45), (ds ++ rest); split; [|left]|].
  destruct ds as [|b ds]; [done|]. exists b, (ds ++ rest). split; [done|right].
  apply Forall_cons in Hd as [Hd _]. by apply between_spec in Hd.
Qed.

Lemma reads_int z : reads_value (json_int z) (JNumber (json_int z)).
Proof.
  intros fuel depth rest (b0 & r0 & -> & Hb0).
  destruct (json_int_spec z) as (neg & ds & -> & Hn & _). rewrite <- app_assoc.
  destruct (digit_head neg ds (b0 :: r0) Hn) as (b & t & Hbt & Hb).
  pose proof (number_numeral neg ds (b0 :: r0) Hn) as Hnum. rewrite Hbt in *.
  cbn [parse_value]. assert (skip_space (b :: t) = b :: t) as ->.
  { cbn [skip_space]. unfold is_space. rewrite bool_decide_eq_false_2; [done|].
    rewrite !elem_of_cons. intros [?|[?|[?|[?|?%elem_of_nil]]]]; lia || done. }
  rewrite !is_byte_false by lia. rewrite Hnum; [done|]. by destruct Hb0 as [->| ->].
Qed.

(** A field of an object: its name, the text of its value and the value. *)
Definition reads_member (m : bytes * bytes) (kj : bytes * json) : Prop :=
  kj.1 = m.1 ∧ ascii m.1 ∧ reads_value m.2 kj.2.

Lemma parse_members_json ms kjs fuel depth rest :
  Forall2 reads_member ms kjs → ms ≠ [] → length ms < fuel →
  parse_members fuel depth (json_members ms ++ U8 125 :: rest) = Ok (kjs, rest).
Proof.
  intros Hall. revert fuel. induction Hall as [|[k t] [k' j] ms kjs (Hk & Ha & Hr) Hall IH]; intros fuel Hne Hf; [done|].
  simpl in Hk, Ha, Hr. subst k'. destruct fuel as [|[|fuel]]; simpl in Hf; [lia..|].
  set (tail := match ms with [] => [] | _ => [U8 44] ++ json_members ms end).
  assert (json_members ((k, t) :: ms) = json_member (k, t) ++ tail) as ->.
  { unfold tail. destruct ms; [by rewrite app_nil_r|done]. }
  unfold json_member. cbn [fst snd]. rewrite <- !app_assoc.
  destruct (string_body_json k ([U8 58] ++ t ++ tail ++ U8 125 :: rest)) as (d & -> & Hb).
  change (parse_members (S (S fuel)) depth (quote :: d)) with
    ('(k, r) ← string_body (S (length d)) d;
     match skip_space r with
     | c :: t =>
         if is_byte 58 c then
           '(j, r) ← parse_value (S fuel) depth t;
           match skip_space r with
           | b :: t =>
               if is_byte 44 b then '(l, r) ← parse_members (S fuel) depth t; Ok ((k, j) :: l, r)
               else if is_byte 125 b then Ok ([(k, j)], t)
               else Err SyntaxError
           | [] => Err SyntaxError
           end
         else Err SyntaxError
     | [] => Err SyntaxError
     end).
  rewrite Hb, to_valid_id by by apply ascii_valid. cbn [mbind res_bind app].
  change (skip_space (U8 58 :: t ++ tail ++ U8 125 :: rest)) with (U8 58 :: t ++ tail ++ U8 125 :: rest).
  change (is_byte 58 (U8 58)) with true. cbv iota.
  rewrite (Hr fuel depth (tail ++ U8 125 :: rest)).
  2: { unfold tail. destruct ms; [exists (U8 125), rest; auto|].
       eexists (U8 44), _. split; [done|by left]. }
  cbn [mbind res_bind]. destruct ms as [|m ms].
  - unfold tail. inversion Hall; subst. done.
  - assert (skip_space (tail ++ U8 125 :: rest) = U8 44 :: json_members (m :: ms) ++ U8 125 :: rest) as -> by done.
    change (is_byte 44 (U8 44)) with true. cbv iota.
    rewrite (IH (S fuel)) by (done || simpl in *; lia). done.
Qed.

Lemma reads_object ms kjs fuel rest :
  Forall2 reads_member ms kjs → length ms < fuel →
  parse_value (S fuel) 0 (json_object ms ++ rest) = Ok (JObject kjs, rest).
Proof.
  intros Hall Hf. unfold json_object. rewrite <- !app_assoc. destruct ms as [|m ms].
  { inversion Hall; subst. done. }
  pose proof (parse_members_json (m :: ms) kjs fuel 1 rest Hall) as Hp.
  assert (∃ t, json_members (m :: ms) ++ U8 125 :: rest = quote :: t) as [t Ht].
  { destruct ms; unfold json_members, json_member, json_string; rewrite <- ?app_assoc; by eexists. }
  cbn [app]. rewrite Ht in *. 
  change (parse_value (S fuel) 0 (U8 123 :: quote :: t)) with
    ('(l, r) ← parse_members fuel 1 (quote :: t); Ok (JObject l, r)).
  rewrite Hp by done. done.
Qed.

(** ** Facts: reading always ends *)

(** The reader returns, and what it leaves is shorter than [n]. *)
Definition shrinks {A} (m : res (A * bytes)) (n : nat) : Prop :=
  returns m ∧ ∀ a r, m = Ok (a, r) → length r < n.

Lemma shrinks_err {A} e n : shrinks (Err e : res (A * bytes)) n.
Proof. by split. Qed.

Lemma shrinks_ok {A} (a : A) r n : length r < n → shrinks (Ok (a, r)) n.
Proof. intros H. split; [done|]. by intros ?? [= <- <-]. Qed.

Lemma shrinks_bind {A B} (m : res (A * bytes)) (f : A * bytes → res (B * bytes)) n k :
  shrinks m k → (∀ a r, length r < k → shrinks (f (a, r)) n) → shrinks (m ≫= f) n.
Proof.
  intros [[Hp Hf] Hm] Hk. destruct m as [[a r]|e| |]; [|by split|done|done].
  cbn [mbind res_bind]. apply Hk. by apply (Hm a).
Qed.

Lemma shrinks_weaken {A} (m : res (A * bytes)) n n' : shrinks m n → n ≤ n' → shrinks m n'.
Proof. intros [Hr Hm] Hn. split; [done|]. intros a r H. specialize (Hm a r H). lia. Qed.

Lemma skip_space_length d : length (skip_space d) ≤ length d.
Proof. induction d as [|b d IH]; simpl; [lia|]. destruct (is_space b); simpl; lia. Qed.

Lemma hex4_length d z r : hex4 d = Some (z, r) → length r < length d.
Proof.
  destruct d as [|a [|b [|c [|e t]]]]; try done. simpl. repeat case_match; [|done..]. intros [= _ <-]. lia.
Qed.

Lemma unicode_escape_length d x r : unicode_escape d = Some (x, r) → length r < length d.
Proof.
  unfold unicode_escape. destruct (hex4 d) as [[z t]|] eqn:Hh; [|done]. apply hex4_length in Hh.
  case_decide; [|by intros [= _ <-]]. destruct t as [|b [|u t]]; [by intros [= _ <-]..|].
  case_decide; [|by intros [= _ <-]]. destruct (hex4 t) as [[z2 t2]|] eqn:Hh2; [|by intros [= _ <-]].
  apply hex4_length in Hh2. case_decide; intros [= _ <-]; simpl in *; lia.
Qed.

Lemma string_char_shrinks d : shrinks (string_char d) (length d).
Proof.
  destruct d as [|b t]; cbn [string_char]; [apply shrinks_err|]. case_decide.
  { destruct t as [|e t]; [apply shrinks_err|]. case_decide.
    - destruct (unicode_escape t) as [[x r]|] eqn:Hu; [|apply shrinks_err].
      apply unicode_escape_length in Hu. apply shrinks_ok. simpl. lia.
    - destruct (simple_escape e); [|apply shrinks_err]. apply shrinks_ok. simpl. lia. }
  destruct (uval b <? 32)%Z; [apply shrinks_err|].
  destruct (uval b <? 128)%Z; [apply shrinks_ok; simpl; lia|].
  destruct (utf8_size (b :: t)) as [n|] eqn:Hn; [|apply shrinks_ok; simpl; lia].
  apply utf8_size_multi in Hn as (Hl & Hn & _). apply shrinks_ok. rewrite length_drop. lia.
Qed.

Lemma string_body_shrinks fuel d : length d < fuel → shrinks (string_body fuel d) (S (length d)).
Proof.
  revert d. induction fuel as [|fuel IH]; intros d Hf; [lia|]. cbn [string_body]. case_decide.
  { apply shrinks_ok. destruct d; simpl; lia. }
  apply (shrinks_bind _ _ _ (length d)); [apply string_char_shrinks|]. intros x r Hr. cbn beta iota.
  apply (shrinks_bind _ _ _ (S (length r))); [apply IH; lia|]. intros s r' Hr'. apply shrinks_ok. lia.
Qed.

Lemma digits_length d x r : digits d = (x, r) → length x + length r = length d.
Proof.
  revert x r. induction d as [|b d IH]; cbn [digits]; [by intros x r [= <- <-]|]. intros x r.
  destruct (is_digit b); [|by intros [= <- <-]]. destruct (digits d) as [y s]. intros [= <- <-].
  specialize (IH y s eq_refl). simpl. lia.
Qed.

Lemma digits1_length d x r : digits1 d = Some (x, r) → length r < length d.
Proof.
  unfold digits1. destruct (digits d) as [[|b y] s] eqn:Hd; [done|]. intros [= <- <-].
  apply digits_length in Hd. simpl in Hd. lia.
Qed.

Lemma int_part_length d x r : int_part d = Some (x, r) → length r < length d.
Proof.
  destruct d as [|b t]; [done|]. cbn [int_part]. case_decide; [intros [= _ <-]; simpl; lia|].
  apply digits1_length.
Qed.

Lemma frac_part_length d x r : frac_part d = Some (x, r) → length r ≤ length d.
Proof.
  destruct d as [|b t]; cbn [frac_part]; [by intros [= <- <-]|]. case_decide; [|by intros [= _ <-]].
  destruct (digits1 t) as [[y s]|] eqn:Hd; [|done]. intros [= _ <-]. apply digits1_length in Hd. simpl. lia.
Qed.

Lemma exp_part_length d x r : exp_part d = Some (x, r) → length r ≤ length d.
Proof.
  destruct d as [|b t]; cbn [exp_part]; [by intros [= <- <-]|]. case_decide; [|by intros [= _ <-]].
  destruct t as [|s t]; [done|]. case_decide; simpl;
    (destruct (digits1 _) as [[y u]|] eqn:Hd; [|done]); intros [= _ <-];
    apply digits1_length in Hd; simpl in *; lia.
Qed.

Lemma number_length d x r : number d = Some (x, r) → length r < length d.
Proof.
  unfold number. intros H.
  assert (∃ sign t, (match d with
    | b :: t => if decide (b = U8 45) then ([b], t) else ([], d)
    | [] => ([], []) end) = (sign, t) ∧ length t ≤ length d) as (sign & t & Ht & Hl).
  { destruct d as [|b t]; [by exists [], []|].
    case_decide; [exists [b], t|exists [], (b :: t)]; (split; [done|]); simpl; lia. }
  rewrite Ht in H. clear Ht.
  apply bind_Some in H as ([y t1] & H1%int_part_length & H).
  apply bind_Some in H as ([z t2] & H2%frac_part_length & H).
  apply bind_Some in H as ([u t3] & H3%exp_part_length & H). simplify_eq. lia.
Qed.

Lemma keyword_shrinks word j d : word ≠ [] → shrinks (keyword word j d) (length d).
Proof.
  intros Hw. unfold keyword. case_decide as Ht; [|apply shrinks_err]. apply shrinks_ok.
  apply (f_equal length) in Ht. rewrite length_take in Ht. rewrite length_drop.
  assert (0 < length word) by (destruct word; [done|simpl; lia]). lia.
Qed.

Definition parse_total_at (fuel : nat) : Prop := ∀ depth d,
  (2 * length d + 1 ≤ fuel → shrinks (parse_value fuel depth d) (length d))
  ∧ (2 * length d + 2 ≤ fuel → shrinks (parse_elements fuel depth d) (length d))
  ∧ (2 * length d + 2 ≤ fuel → shrinks (parse_members fuel depth d) (length d)).

Lemma parse_value_step fuel depth d :
  parse_total_at fuel → 2 * length d + 1 ≤ S fuel → shrinks (parse_value (S fuel) depth d) (length d).
Proof.
  intros IH Hf. cbn [parse_value]. pose proof (skip_space_length d) as Hd.
  destruct (skip_space d) as [|b t]; [apply shrinks_err|]. simpl in Hd.
  pose proof (skip_space_length t) as Ht.
  destruct (is_byte 123 b).
  { case_match; [apply shrinks_err|]. destruct (skip_space t) as [|c t']; [apply shrinks_err|]. simpl in Ht.
    case_match; [apply shrinks_ok; lia|].
    apply (shrinks_bind _ _ _ (length t)); [apply IH; lia|]. intros. apply shrinks_ok. lia. }
  destruct (is_byte 91 b).
  { case_match; [apply shrinks_err|]. destruct (skip_space t) as [|c t']; [apply shrinks_err|]. simpl in Ht.
    case_match; [apply shrinks_ok; lia|].
    apply (shrinks_bind _ _ _ (length t)); [apply IH; lia|]. intros. apply shrinks_ok. lia. }
  destruct (is_byte 34 b).
  { apply (shrinks_bind _ _ _ (S (length t))); [apply string_body_shrinks; lia|].
    intros. apply shrinks_ok. lia. }
  do 3 (case_match; [eapply shrinks_weaken; [by apply keyword_shrinks|simpl; lia]|]).
  destruct (number (b :: t)) as [[x r]|] eqn:Hn; [|apply shrinks_err].
  apply number_length in Hn. apply shrinks_ok. simpl in Hn. lia.
Qed.

Lemma parse_elements_step fuel depth d :
  parse_total_at fuel → 2 * length d + 2 ≤ S fuel → shrinks (parse_elements (S fuel) depth d) (length d).
Proof.
  intros IH Hf. cbn [parse_elements].
  apply (shrinks_bind _ _ _ (length d)); [apply IH; lia|]. intros j r Hr. cbn beta iota.
  pose proof (skip_space_length r) as Hs. destruct (skip_space r) as [|b t]; [apply shrinks_err|]. simpl in Hs.
  case_match; [|case_match; [apply shrinks_ok; lia|apply shrinks_err]].
  apply (shrinks_bind _ _ _ (length t)); [apply IH; lia|]. intros. apply shrinks_ok. lia.
Qed.

Lemma parse_members_step fuel depth d :
  parse_total_at fuel → 2 * length d + 2 ≤ S fuel → shrinks (parse_members (S fuel) depth d) (length d).
Proof.
  intros IH Hf. cbn [parse_members]. pose proof (skip_space_length d) as Hd.
  destruct (skip_space d) as [|b t]; [apply shrinks_err|]. simpl in Hd. case_match; [|apply shrinks_err].
  apply (shrinks_bind _ _ _ (S (length t))); [apply string_body_shrinks; lia|]. intros k r Hr. cbn beta iota.
  pose proof (skip_space_length r) as Hs. destruct (skip_space r) as [|c u]; [apply shrinks_err|]. simpl in Hs.
  case_match; [|apply shrinks_err].
  apply (shrinks_bind _ _ _ (length u)); [apply IH; lia|]. intros j r2 Hr2. cbn beta iota.
  pose proof (skip_space_length r2) as Hs2. destruct (skip_space r2) as [|e v]; [apply shrinks_err|]. simpl in Hs2.
  case_match; [|case_match; [apply shrinks_ok; lia|apply shrinks_err]].
  apply (shrinks_bind _ _ _ (length v)); [apply IH; lia|]. intros. apply shrinks_ok. lia.
Qed.

Lemma parse_total fuel : parse_total_at fuel.
Proof.
  induction fuel as [|fuel IH]; intros depth d; [by split_and!; lia|].
  split_and!; intros; [by apply parse_value_step|by apply parse_elements_step|by apply parse_members_step].
Qed.

(** No document makes the parser panic or run out of fuel. *)
Lemma parse_json_returns d : returns (parse_json d).
Proof.
  unfold parse_json, parse_fuel. apply res_bind_returns; [by apply parse_total; lia|].
  intros [j r] _. by destruct (skip_space r).
Qed.

(** *** Decoders always return *)

Definition dec_total {A} (dec : Decoder A) : Prop := ∀ old j, returns (dec old j).

Lemma dec_string_total : dec_total dec_string.
Proof. by intros old []. Qed.

Lemma dec_int_total : dec_total dec_int.
Proof. intros old []; try done. simpl. case_match; [by case_decide|done]. Qed.

Lemma dec_uint_total w : dec_total (dec_uint w).
Proof. intros old []; try done. simpl. case_match; [by case_decide|done]. Qed.

Lemma dec_bool_ptr_total : dec_total dec_bool_ptr.
Proof. by intros old []. Qed.

Lemma dec_slice_total {A} (zero : A) dec : dec_total dec → dec_total (dec_slice zero dec).
Proof.
  intros Hd old j. destruct j as [| | | |js|]; try done. simpl. revert old.
  induction js as [|j js IH]; intros old; simpl; [done|].
  apply res_bind_returns; [apply Hd|]. intros x _. apply res_bind_returns; [apply IH|done].
Qed.

(** A field whose values always return. *)
Definition field_total {S} (f : field S) : Prop := ∀ s j, returns (f.2 s j).

Lemma on_field_total {S A} name get set (dec : Decoder A) :
  dec_total dec → field_total (on_field (S := S) name get set dec).
Proof. intros Hd s j. simpl. by apply res_bind_returns; [apply Hd|]. Qed.

Lemma find_field_total {S} (fields : list (field S)) key f :
  Forall field_total fields → find_field fields key = Some f → ∀ s j, returns (f s j).
Proof.
  intros Hf. unfold find_field. destruct (list_find (λ f, f.1 = key) fields) as [[i g]|] eqn:H1.
  - intros [= <-]. apply list_find_Some in H1 as (H1 & _). by eapply (Forall_lookup_1 _ _ _ _ Hf H1).
  - intros ([i g] & H2 & ->)%fmap_Some. apply list_find_Some in H2 as (H2 & _).
    by eapply (Forall_lookup_1 _ _ _ _ Hf H2).
Qed.

Lemma dec_struct_total {S} (fields : list (field S)) :
  Forall field_total fields → dec_total (dec_struct fields).
Proof.
  intros Hf old j. destruct j as [| | | | |ms]; try done. simpl. revert old.
  induction ms as [|[k j] ms IH]; intros old; simpl; [done|]. apply res_bind_returns; [|intros; apply IH].
  destruct (find_field fields k) as [f|] eqn:Hk; [|done]. by eapply find_field_total.
Qed.

Lemma Unmarshal_returns {A} (dec : Decoder A) zero d : dec_total dec → returns (Unmarshal dec zero d).
Proof. intros Hd. unfold Unmarshal. apply res_bind_returns; [apply parse_json_returns|]. intros j _. apply Hd. Qed.

#[export] Hint Resolve dec_string_total dec_int_total dec_uint_total dec_bool_ptr_total dec_slice_total
  on_field_total dec_struct_total Unmarshal_returns : go.

(** [Forall field_total] of a list of fields. *)
Ltac total_fields :=
  repeat (apply Forall_cons_2; [apply on_field_total; auto with go|]); apply Forall_nil_2.

(** *** A document that is one object of [Marshal] *)

Lemma parse_json_object ms kjs :
  Forall2 reads_member ms kjs → parse_json (json_object ms) = Ok (JObject kjs).
Proof.
  intros Hall. unfold parse_json, parse_fuel.
  assert (length ms ≤ length (json_members ms)) as Hl.
  { clear Hall. induction ms as [|m [|m' ms] IH]; [done|unfold json_members, json_member; simpl; lia|].
    change (json_members (m :: m' :: ms)) with (json_member m ++ [U8 44] ++ json_members (m' :: ms)).
    rewrite !length_app. simpl in *. lia. }
  replace (2 * length (json_object ms) + 2) with (S (2 * length (json_object ms) + 1)) by lia.
  rewrite <- (app_nil_r (json_object ms)) at 2.
  rewrite (reads_object ms kjs) by (done || (unfold json_object; rewrite !length_app; lia)). done.
Qed.
