(* ===== verification/WalEntry.v ===== *)
(** * WAL entries (shared/wal/types.go, serialize.go, key.go)

    The tagged record that both sides log, its byte format and its
    deduplication key. *)

From stdpp Require Import base countable list strings vector numbers tactics.
From Stdlib Require Import ZArith Lia.
From S2P Require Import Prelude Words.

(** ** Data *)

Definition WalItem : u8 := U8 1.
Definition WalEvent : u8 := U8 2.

Record WalEntryItem : Type := MkItem {
  i_To : u8;
  i_Game : u8;
  i_GI : u16;
  i_Flags : u16;
  i_Key : u32;
  i_Nonce : u32;
}.

Record WalEntryEvent : Type := MkEvent { ev_ID : u32 }.

Record WalEntry : Type := MkEntry {
  e_Type : u8;
  e_PlayerID : vec u8 16;
  e_PlayerName : vec u8 8;
  e_From : u8;
  e_Item : WalEntryItem;
  e_Event : WalEntryEvent;
}.

Definition zero_item : WalEntryItem := MkItem (U8 0) (U8 0) (U16 0) (U16 0) (U32 0) (U32 0).
Definition zero_event : WalEntryEvent := MkEvent (U32 0).

#[export] Instance WalEntryItem_eq_dec : EqDecision WalEntryItem.
Proof. solve_decision. Defined.
#[export] Instance WalEntryEvent_eq_dec : EqDecision WalEntryEvent.
Proof. solve_decision. Defined.
#[export] Instance WalEntry_eq_dec : EqDecision WalEntry.
Proof. solve_decision. Defined.

(** ** Operations *)

Definition DedupKey (w : WalEntry) : res (vec u8 16) :=
  let key := zeros 16 in
  key ← set_index key 0 (e_Type w);
  key ← set_index key 1 (e_From w);
  if decide (e_Type w = WalItem) then
    key ← set_index key 2 (i_Game (e_Item w));
    key ← le_put32 key 3 7 (i_Key (e_Item w));
    key ← le_put32 key 7 11 (i_Nonce (e_Item w));
    Ok (arr_of 16 key)
  else if decide (e_Type w = WalEvent) then
    key ← le_put32 key 2 6 (ev_ID (e_Event w));
    Ok (arr_of 16 key)
  else Err (Errorf "unknown WAL entry type").

Definition Parse (data : bytes) : res WalEntry :=
  if decide (length data < 26) then Err (Errorf "WAL entry too short") else
  typ ← index data 0;
  pid ← slice data 1 17;
  name ← slice data 17 25;
  from ← index data 25;
  let entry := MkEntry typ (arr_of 16 pid) (arr_of 8 name) from in
  if decide (typ = WalItem) then
    if decide (length data < 40) then Err (Errorf "WAL item entry too short") else
    to ← index data 26;
    game ← index data 27;
    gi ← le_get16 data 28 30;
    flags ← le_get16 data 30 32;
    key ← le_get32 data 32 36;
    nonce ← le_get32 data 36 40;
    Ok (entry (MkItem to game gi flags key nonce) zero_event)
  else if decide (typ = WalEvent) then
    if decide (length data < 30) then Err (Errorf "WAL event entry too short") else
    id ← le_get32 data 26 30;
    Ok (entry zero_item (MkEvent id))
  else Err (Errorf "unknown WAL entry type").

Definition Serialize (e : WalEntry) : res bytes :=
  let buf := [e_Type e] in
  let buf := buf ++ vec_to_list (e_PlayerID e) in
  let buf := buf ++ vec_to_list (e_PlayerName e) in
  let buf := buf ++ [e_From e] in
  if decide (e_Type e = WalItem) then
    let buf := buf ++ [i_To (e_Item e)] in
    let buf := buf ++ [i_Game (e_Item e)] in
    let buf := le_append16 buf (i_GI (e_Item e)) in
    let buf := le_append16 buf (i_Flags (e_Item e)) in
    let buf := le_append32 buf (i_Key (e_Item e)) in
    let buf := le_append32 buf (i_Nonce (e_Item e)) in
    Ok buf
  else if decide (e_Type e = WalEvent) then
    Ok (le_append32 buf (ev_ID (e_Event e)))
  else Err (Errorf "unknown WAL entry type").

(** ** Specification-level notions *)

(** The tags the format knows. *)
Definition known_type (e : WalEntry) : Prop := e_Type e = WalItem ∨ e_Type e = WalEvent.

#[export] Instance known_type_dec e : Decision (known_type e).
Proof. unfold known_type. apply _. Defined.

(** What survives a trip through the byte format: the variant the tag does not
    select comes back zeroed. *)
Definition normalize (e : WalEntry) : WalEntry :=
  MkEntry (e_Type e) (e_PlayerID e) (e_PlayerName e) (e_From e)
    (if decide (e_Type e = WalItem) then e_Item e else zero_item)
    (if decide (e_Type e = WalItem) then zero_event else e_Event e).

Definition normal (e : WalEntry) : Prop := known_type e ∧ normalize e = e.

#[export] Instance normal_dec e : Decision (normal e).
Proof. unfold normal. apply _. Defined.

(** The fields the key is made of. *)
Definition key_fields (e : WalEntry) : u8 * u8 * u8 * u32 * u32 :=
  if decide (e_Type e = WalItem)
  then (e_Type e, e_From e, i_Game (e_Item e), i_Key (e_Item e), i_Nonce (e_Item e))
  else (e_Type e, e_From e, U8 0, ev_ID (e_Event e), U32 0).

(** ** Layouts *)

Lemma WalItem_not_WalEvent : WalItem ≠ WalEvent.
Proof. by_compute. Qed.

Definition header_bytes (e : WalEntry) : bytes :=
  [e_Type e] ++ vec_to_list (e_PlayerID e) ++ vec_to_list (e_PlayerName e) ++ [e_From e].

Definition item_bytes (i : WalEntryItem) : bytes :=
  [i_To i] ++ [i_Game i] ++ le_bytes 2 (uval (i_GI i)) ++ le_bytes 2 (uval (i_Flags i))
  ++ le_bytes 4 (uval (i_Key i)) ++ le_bytes 4 (uval (i_Nonce i)).

Lemma Serialize_item e :
  e_Type e = WalItem → Serialize e = Ok (header_bytes e ++ item_bytes (e_Item e)).
Proof.
  intros H. unfold Serialize. rewrite decide_True by done.
  unfold header_bytes, item_bytes, le_append16, le_append32. by rewrite <- !app_assoc.
Qed.

Lemma Serialize_event e :
  e_Type e = WalEvent →
  Serialize e = Ok (header_bytes e ++ le_bytes 4 (uval (ev_ID (e_Event e)))).
Proof.
  intros H. unfold Serialize. rewrite H, decide_False, decide_True;
    [|done|symmetry; apply WalItem_not_WalEvent].
  unfold header_bytes, le_append32. by rewrite <- !app_assoc, H.
Qed.

Lemma Serialize_unknown e : ¬ known_type e → Serialize e = Err (Errorf "unknown WAL entry type").
Proof. unfold known_type, Serialize. intros. rewrite !decide_False; tauto. Qed.

Lemma length_header_bytes e : length (header_bytes e) = 26.
Proof. unfold header_bytes. len. Qed.

Lemma length_item_bytes i : length (item_bytes i) = 14.
Proof. unfold item_bytes. len. Qed.

(** ** Round trip *)

Lemma Parse_header e rest :
  let data := header_bytes e ++ rest in
  index data 0 = Ok (e_Type e) ∧ slice data 1 17 = Ok (vec_to_list (e_PlayerID e))
  ∧ slice data 17 25 = Ok (vec_to_list (e_PlayerName e)) ∧ index data 25 = Ok (e_From e).
Proof.
  unfold header_bytes. cbv zeta. rewrite <- !app_assoc.
  split_and!; [run_index|run_slice|run_slice|run_index].
Qed.

Lemma Parse_item_fields e i rest :
  let data := header_bytes e ++ item_bytes i ++ rest in
  index data 26 = Ok (i_To i) ∧ index data 27 = Ok (i_Game i)
  ∧ le_get16 data 28 30 = Ok (i_GI i) ∧ le_get16 data 30 32 = Ok (i_Flags i)
  ∧ le_get32 data 32 36 = Ok (i_Key i) ∧ le_get32 data 36 40 = Ok (i_Nonce i).
Proof.
  pose proof (length_header_bytes e) as Hh. cbv zeta. unfold item_bytes.
  rewrite <- !app_assoc. split_and!.
  - rewrite index_skip by lia. rewrite Hh. run_index.
  - rewrite index_skip by lia. rewrite Hh. run_index.
  - apply le_get16_spec. rewrite slice_skip by lia. rewrite Hh. run_slice.
  - apply le_get16_spec. rewrite slice_skip by lia. rewrite Hh. run_slice.
  - apply le_get32_spec. rewrite slice_skip by lia. rewrite Hh. run_slice.
  - apply le_get32_spec. rewrite slice_skip by lia. rewrite Hh. run_slice.
Qed.

(** Parsing what [Serialize] wrote, whatever follows it. *)
Lemma Parse_Serialize_app e data rest :
  Serialize e = Ok data → Parse (data ++ rest) = Ok (normalize e).
Proof.
  intros He. assert (known_type e) as Hk.
  { destruct (decide (known_type e)); [done|]. by rewrite Serialize_unknown in He. }
  unfold Parse, normalize. destruct Hk as [Ht|Ht].
  - rewrite Serialize_item in He by done. apply Ok_inj in He as <-. rewrite <- app_assoc.
    destruct (Parse_header e (item_bytes (e_Item e) ++ rest)) as (H0&H1&H2&H3).
    destruct (Parse_item_fields e (e_Item e) rest) as (F0&F1&F2&F3&F4&F5).
    rewrite H0, H1, H2, H3, F0, F1, F2, F3, F4, F5, !length_app, length_header_bytes,
      length_item_bytes. cbn [mbind res_bind].
    rewrite !(decide_True _ _ Ht), !decide_False, !arr_of_vec by lia. by destruct (e_Item e).
  - rewrite Serialize_event in He by done. apply Ok_inj in He as <-. rewrite <- app_assoc.
    set (eid := ev_ID (e_Event e)).
    destruct (Parse_header e (le_bytes 4 (uval eid) ++ rest)) as (H0&H1&H2&H3).
    assert (le_get32 (header_bytes e ++ le_bytes 4 (uval eid) ++ rest) 26 30 = Ok eid) as H4.
    { apply le_get32_spec. rewrite slice_skip by (rewrite length_header_bytes; lia).
      rewrite length_header_bytes. run_slice. }
    assert (e_Type e ≠ WalItem) as Hne by (rewrite Ht; by intros ?%eq_sym%WalItem_not_WalEvent).
    rewrite H0, H1, H2, H3, H4, !length_app, length_header_bytes, length_le_bytes.
    cbn [mbind res_bind].
    rewrite !(decide_False _ _ Hne), (decide_True _ _ Ht), !decide_False, !arr_of_vec by lia.
    by destruct (e_Event e).
Qed.

Lemma Parse_Serialize e data : Serialize e = Ok data → Parse data = Ok (normalize e).
Proof. intros H. rewrite <- (app_nil_r data). by apply Parse_Serialize_app. Qed.

Lemma normalize_normal e : known_type e → normal (normalize e).
Proof.
  intros Hk. split; [done|]. unfold normalize; simpl. by case_decide.
Qed.

Lemma known_type_normalize e : known_type (normalize e) ↔ known_type e.
Proof. done. Qed.

(** The exact precondition of the parser. *)
Definition parseable (data : bytes) : Prop :=
  (data !! 0 = Some WalItem ∧ 40 ≤ length data) ∨ (data !! 0 = Some WalEvent ∧ 30 ≤ length data).

(** On every input [Parse] either accepts, exactly on parseable data and with a
    normal entry, or returns an error; it never indexes out of range. *)
Lemma Parse_cases data :
  (parseable data ∧ ∃ e, Parse data = Ok e ∧ normal e)
  ∨ (¬ parseable data ∧ ∃ err, Parse data = Err err).
Proof.
  unfold parseable, Parse. case_decide as Hl.
  { right. split; [lia|eauto]. }
  destruct (data !! 0) as [typ|] eqn:Htyp; [|by apply lookup_ge_None in Htyp; lia].
  assert (index data 0 = Ok typ) as -> by (unfold index; by rewrite Htyp). cbn [mbind res_bind].
  destruct (slice_inbounds data 1 17) as (pid & -> & _); [lia|].
  destruct (slice_inbounds data 17 25) as (name & -> & _); [lia|].
  destruct (index_ok data 25) as [from ->]; [lia|]. cbn [mbind res_bind].
  destruct (decide (typ = WalItem)) as [->|Hni].
  { case_decide.
    - right. split; [|eauto]. intros [[_ ?]|[[=] _]]; lia.
    - left. destruct (index_ok data 26) as [? ->]; [lia|].
      destruct (index_ok data 27) as [? ->]; [lia|].
      destruct (le_get16_inbounds data 28 30) as [? ->]; [lia..|].
      destruct (le_get16_inbounds data 30 32) as [? ->]; [lia..|].
      destruct (le_get32_inbounds data 32 36) as [? ->]; [lia..|].
      destruct (le_get32_inbounds data 36 40) as [? ->]; [lia..|].
      split; [left; split; [done|lia]|]. eexists. split; [done|].
      split; [by left|done]. }
  destruct (decide (typ = WalEvent)) as [->|Hne].
  { case_decide.
    - right. split; [|eauto]. intros [[[=] _]|[_ ?]]; lia.
    - left. destruct (le_get32_inbounds data 26 30) as [? ->]; [lia..|].
      split; [right; split; [done|lia]|]. eexists. split; [done|].
      split; [by right|done]. }
  right. split; [|eauto]. by intros [[[= ->] _]|[[= ->] _]].
Qed.

Lemma Parse_normal data e : Parse data = Ok e → normal e.
Proof. intros H. destruct (Parse_cases data) as [(_&?&?&?)|(_&?&?)]; congruence. Qed.

Lemma Parse_returns data : returns (Parse data).
Proof. destruct (Parse_cases data) as [(_&?&->&_)|(_&?&->)]; done. Qed.

Lemma Parse_ok_iff data : (∃ e, Parse data = Ok e) ↔ parseable data.
Proof.
  destruct (Parse_cases data) as [(?&?&->&_)|(?&?&->)]; split; try done; [eauto|].
  by intros [? [=]].
Qed.

(** ** Deduplication keys *)

Lemma DedupKey_item e : e_Type e = WalItem →
  DedupKey e = Ok (arr_of 16 ([e_Type e] ++ [e_From e] ++ [i_Game (e_Item e)]
    ++ le_bytes 4 (uval (i_Key (e_Item e))) ++ le_bytes 4 (uval (i_Nonce (e_Item e)))
    ++ zeros 5)).
Proof.
  intros Ht. unfold DedupKey. change (zeros 16) with ([] ++ zeros 16).
  cbv zeta. run_writes. rewrite decide_True by done. run_writes.
  by rewrite <- !app_assoc.
Qed.

Lemma DedupKey_event e : e_Type e = WalEvent →
  DedupKey e = Ok (arr_of 16 ([e_Type e] ++ [e_From e]
    ++ le_bytes 4 (uval (ev_ID (e_Event e))) ++ zeros 10)).
Proof.
  intros Ht. unfold DedupKey. change (zeros 16) with ([] ++ zeros 16).
  cbv zeta. run_writes. rewrite Ht, decide_False, decide_True; [|done|by intros ?%eq_sym%WalItem_not_WalEvent].
  run_writes. by rewrite <- !app_assoc.
Qed.

Lemma DedupKey_known e : known_type e ↔ ∃ k, DedupKey e = Ok k.
Proof.
  split.
  - intros [?|?]; eexists; [by apply DedupKey_item|by apply DedupKey_event].
  - intros [k Hk]. unfold known_type, DedupKey in *. change (zeros 16) with ([] ++ zeros 16) in Hk.
    cbv zeta in Hk. destruct (decide (e_Type e = WalItem)); [by left|].
    destruct (decide (e_Type e = WalEvent)); [by right|].
    rewrite !set_index_next in Hk by len. done.
Qed.

Lemma DedupKey_returns e : returns (DedupKey e).
Proof.
  destruct (decide (known_type e)) as [Hk|Hk].
  - by destruct (proj1 (DedupKey_known e) Hk) as [k ->].
  - unfold DedupKey. change (zeros 16) with ([] ++ zeros 16). cbv zeta.
    run_writes. unfold known_type in Hk. rewrite !decide_False by tauto. done.
Qed.

Lemma DedupKey_normalize e : DedupKey (normalize e) = DedupKey e.
Proof. unfold DedupKey, normalize; simpl. by repeat case_decide. Qed.

Lemma DedupKey_key_fields e1 e2 :
  known_type e1 → known_type e2 → key_fields e1 = key_fields e2 → DedupKey e1 = DedupKey e2.
Proof.
  unfold key_fields. intros [H1|H1] [H2|H2]; rewrite H1, H2;
    intros [= ]; rewrite ?(DedupKey_item e1), ?(DedupKey_item e2), ?(DedupKey_event e1),
      ?(DedupKey_event e2) by done; congruence.
Qed.

Lemma DedupKey_inj e1 e2 k :
  DedupKey e1 = Ok k → DedupKey e2 = Ok k → key_fields e1 = key_fields e2.
Proof.
  intros Hk1 Hk2. assert (known_type e1 ∧ known_type e2) as [[H1|H1] [H2|H2]]
    by (split; apply DedupKey_known; eauto).
  all: rewrite ?(DedupKey_item e1) in Hk1 by done; rewrite ?(DedupKey_event e1) in Hk1 by done;
    rewrite ?(DedupKey_item e2) in Hk2 by done; rewrite ?(DedupKey_event e2) in Hk2 by done.
  all: rewrite <- Hk2 in Hk1; apply Ok_inj, arr_of_inj in Hk1; [|len..].
  all: unfold key_fields; rewrite H1, H2 in *.
  all: apply app_inj_1 in Hk1 as [Ht Hr]; [|done].
  - apply app_inj_1 in Hr as [[= Hf] Hr]; [|done].
    apply app_inj_1 in Hr as [[= Hg] Hr]; [|done].
    apply app_inj_1 in Hr as [Hk Hr]; [|len]. apply app_inj_1 in Hr as [Hn _]; [|len].
    apply le_bytes4_inj in Hk, Hn. by rewrite Hf, Hg, Hk, Hn.
  - done.
  - done.
  - apply app_inj_1 in Hr as [[= Hf] Hr]; [|done].
    apply app_inj_1 in Hr as [Hk _]; [|len].
    apply le_bytes4_inj in Hk. by rewrite Hf, Hk.
Qed.

Lemma Serialize_known e :
  known_type e → ∃ d, Serialize e = Ok d ∧ (length d = 40 ∨ length d = 30).
Proof.
  intros [H|H].
  - rewrite Serialize_item by done. eexists; split; [done|].
    rewrite length_app, length_header_bytes, length_item_bytes. by left.
  - rewrite Serialize_event by done. eexists; split; [done|].
    rewrite length_app, length_header_bytes, length_le_bytes. by right.
Qed.

Lemma Serialize_returns e : returns (Serialize e).
Proof.
  destruct (decide (known_type e)) as [Hk|Hk].
  - by destruct (Serialize_known e Hk) as (d & -> & _).
  - by rewrite Serialize_unknown.
Qed.

(** Replace a prefix of [data] by the reads that cover it. *)
Ltac rebuild data :=
  repeat match goal with
    | H : take ?n data = _ |- context [take ?n data] => rewrite H
    end;
  rewrite ?take_0, <- ?app_assoc; done.

(** Parsing and writing back gives the bytes that were read, up to what followed
    the entry. *)
Lemma Serialize_Parse data e :
  Parse data = Ok e → ∃ d rest, Serialize e = Ok d ∧ data = d ++ rest.
Proof.
  intros Hp. pose proof (Parse_normal _ _ Hp) as [Hk Hn].
  destruct (Serialize_known e Hk) as (d & Hd & Hl). exists d, (drop (length d) data).
  split; [done|]. rewrite <- (take_drop (length d) data) at 1. f_equal.
  unfold Parse in Hp. destruct (decide (length data < 26)); [done|].
  apply res_bind_Ok_inv in Hp as (t & H0%index_take & Hp).
  apply res_bind_Ok_inv in Hp as (pid & Hpid & Hp).
  apply res_bind_Ok_inv in Hp as (name & Hname & Hp).
  apply res_bind_Ok_inv in Hp as (from & H3%index_take & Hp).
  pose proof (slice_length _ _ _ _ Hpid) as Lp. pose proof (slice_length _ _ _ _ Hname) as Ln.
  apply slice_take in Hpid, Hname.
  destruct (decide (t = WalItem)) as [->|]; [|destruct (decide (t = WalEvent)) as [->|]; [|done]].
  - destruct (decide (length data < 40)); [done|].
    do 6 (apply res_bind_Ok_inv in Hp as (? & ? & Hp)).
    repeat match goal with
      | H : index _ _ = Ok _ |- _ => apply index_take in H
      | H : le_get16 _ _ _ = Ok _ |- _ => apply le_get16_take in H; [|done]
      | H : le_get32 _ _ _ = Ok _ |- _ => apply le_get32_take in H; [|done]
      end.
    apply Ok_inj in Hp as <-. rewrite Serialize_item in Hd by done. apply Ok_inj in Hd as <-.
    rewrite length_app, length_header_bytes, length_item_bytes. simpl (26 + 14).
    unfold header_bytes, item_bytes. cbn [e_Type e_PlayerID e_PlayerName e_From e_Item
      i_To i_Game i_GI i_Flags i_Key i_Nonce].
    rewrite !arr_of_list by done. rebuild data.
  - destruct (decide (length data < 30)); [done|].
    apply res_bind_Ok_inv in Hp as (id & Hid%le_get32_take & Hp); [|done].
    apply Ok_inj in Hp as <-. rewrite Serialize_event in Hd by done. apply Ok_inj in Hd as <-.
    rewrite length_app, length_header_bytes, length_le_bytes. simpl (26 + 4).
    unfold header_bytes. cbn [e_Type e_PlayerID e_PlayerName e_From e_Event ev_ID].
    rewrite !arr_of_list by done. rebuild data.
Qed.

(** ** Examples used by the witnesses *)

Definition ex_player : vec u8 16 := arr_of 16 [U8 7; U8 9].
Definition ex_item : WalEntry :=
  MkEntry WalItem ex_player (arr_of 8 [U8 76; U8 105; U8 110; U8 107]) (U8 2)
    (MkItem (U8 3) (U8 1) (U16 258) (U16 0) (U32 70000) (U32 0)) zero_event.
Definition ex_event : WalEntry :=
  MkEntry WalEvent ex_player (arr_of 8 []) (U8 2) zero_item (MkEvent (U32 3735928559)).

Lemma ex_item_normal : normal ex_item.
Proof. by_compute. Qed.

Lemma ex_event_normal : normal ex_event.
Proof. by_compute. Qed.

(** ** Properties *)

(** C23: whatever follows them, the bytes written by [Serialize] are parsed back
    to the entry with its unused variant zeroed, and that entry has the same
    deduplication key: the server acknowledges the key the client waits for. *)
Theorem wal_entry_roundtrip e data rest :
  Serialize e = Ok data →
  Parse (data ++ rest) = Ok (normalize e)
  ∧ DedupKey (normalize e) = DedupKey e
  ∧ (normal e → Parse (data ++ rest) = Ok e).
Proof.
  intros H. split_and!; [by apply Parse_Serialize_app|apply DedupKey_normalize|].
  intros [_ Hn]. by rewrite (Parse_Serialize_app e data rest H), Hn.
Qed.

Lemma wal_entry_roundtrip_witness :
  ∃ data, Serialize ex_item = Ok data ∧ length data = 40
  ∧ Parse (data ++ [U8 255]) = Ok (normalize ex_item).
Proof.
  destruct (Serialize ex_item) as [data| | |] eqn:H; [|exfalso; vm_compute in H; discriminate H..].
  exists data. split; [reflexivity|]. split.
  - vm_compute in H. injection H as <-. reflexivity.
  - exact (proj1 (wal_entry_roundtrip ex_item data [U8 255] H)).
Defined.

(** On every byte string [Parse] either returns an error or accepts, and it
    accepts exactly the strings of a known tag that reach the variant's length;
    what it accepts is a normal entry that serializes to the bytes read. *)
Theorem wal_parse_exact data :
  (parseable data ∧ ∃ e d rest, Parse data = Ok e ∧ normal e ∧ Serialize e = Ok d ∧ data = d ++ rest)
  ∨ ((¬ parseable data) ∧ ∃ err, Parse data = Err err).
Proof.
  destruct (Parse_cases data) as [(Hp&e&He&Hn)|?]; [left|by right].
  destruct (Serialize_Parse _ _ He) as (d & rest & ? & ?). eauto 10.
Qed.

(** C24: two entries of known type have the same deduplication key exactly when
    they agree on the tag, the sending world and the identity of the check (game,
    key and nonce) or of the event. *)
Theorem dedup_key_identity e1 e2 :
  known_type e1 → known_type e2 →
  (∃ k, DedupKey e1 = Ok k) ∧ (DedupKey e1 = DedupKey e2 ↔ key_fields e1 = key_fields e2).
Proof.
  intros H1 H2. pose proof (proj1 (DedupKey_known e1) H1) as [k Hk].
  split; [eauto|]. split; [|by apply DedupKey_key_fields].
  intros Heq. apply (DedupKey_inj e1 e2 k); congruence.
Qed.

Lemma dedup_key_identity_witness :
  (∃ k, DedupKey ex_item = Ok k)
  ∧ (DedupKey ex_item = DedupKey ex_event ↔ key_fields ex_item = key_fields ex_event).
Proof. apply (dedup_key_identity ex_item ex_event); [left|right]; reflexivity. Defined.
