(* ===== verification/Packet.v ===== *)
(** * The client/server protocol (shared/protocol)

    Packet framing over a TCP stream and the little-endian message bodies. *)

From stdpp Require Import base list strings vector numbers tactics.
From Stdlib Require Import ZArith Lia.
From S2P Require Import Prelude Words GoIO WalEntry.

(** ** Opcodes and message types *)

Definition OpNOP : u8 := U8 0.
Definition OpHello : u8 := U8 1.
Definition OpWal : u8 := U8 2.
Definition OpWalAck : u8 := U8 3.
Definition OpPosition : u8 := U8 4.

Record Packet : Type := MkPacket { p_Op : u8; p_Data : bytes }.

Record ClientHello : Type := MkClientHello {
  ch_Magic : vec u8 8;
  ch_Version : u32;
  ch_SessionID : vec u8 16;
  ch_SessionSecret : vec u8 8;
  ch_PlayerID : vec u8 16;
  ch_PlayerName : vec u8 8;
  ch_WorldID : u8;
  ch_WalIndex : u32;
}.

Record ServerHello : Type := MkServerHello { sh_Magic : vec u8 8; sh_Version : u32 }.

Record ServerWal : Type := MkServerWal { sw_Index : u32; sw_Entry : WalEntry }.

Record ClientPosition : Type := MkClientPosition {
  cp_Key : u16; cp_X : i16; cp_Y : i16; cp_Z : i16;
}.

Record ServerPosition : Type := MkServerPosition {
  sp_ID : vec u8 16;
  sp_Name : vec u8 8;
  sp_Key : u16; sp_X : i16; sp_Y : i16; sp_Z : i16;
}.

#[export] Instance Packet_eq_dec : EqDecision Packet.
Proof. solve_decision. Defined.
#[export] Instance ClientHello_eq_dec : EqDecision ClientHello.
Proof. solve_decision. Defined.
#[export] Instance ServerHello_eq_dec : EqDecision ServerHello.
Proof. solve_decision. Defined.
#[export] Instance ServerWal_eq_dec : EqDecision ServerWal.
Proof. solve_decision. Defined.
#[export] Instance ClientPosition_eq_dec : EqDecision ClientPosition.
Proof. solve_decision. Defined.
#[export] Instance ServerPosition_eq_dec : EqDecision ServerPosition.
Proof. solve_decision. Defined.

(** ** Message bodies *)

Definition ParseClientHello (data : bytes) : res ClientHello :=
  if decide (length data < 65) then Err (Errorf "client hello too short") else
  magic ← slice data 0 8;
  version ← le_get32 data 8 12;
  sid ← slice data 12 28;
  secret ← slice data 28 36;
  pid ← slice data 36 52;
  name ← slice data 52 60;
  world ← index data 60;
  wal ← le_get32 data 61 65;
  Ok (MkClientHello (arr_of 8 magic) version (arr_of 16 sid) (arr_of 8 secret)
        (arr_of 16 pid) (arr_of 8 name) world wal).

Definition ClientHello_Serialize (h : ClientHello) : res bytes :=
  let data := zeros 65 in
  data ← copy_into data 0 8 (ch_Magic h);
  data ← le_put32 data 8 12 (ch_Version h);
  data ← copy_into data 12 28 (ch_SessionID h);
  data ← copy_into data 28 36 (ch_SessionSecret h);
  data ← copy_into data 36 52 (ch_PlayerID h);
  data ← copy_into data 52 60 (ch_PlayerName h);
  data ← set_index data 60 (ch_WorldID h);
  data ← le_put32 data 61 65 (ch_WalIndex h);
  Ok data.

Definition ParseServerHello (data : bytes) : res ServerHello :=
  if decide (length data < 12) then Err (Errorf "server hello too short") else
  magic ← slice data 0 8;
  version ← le_get32 data 8 12;
  Ok (MkServerHello (arr_of 8 magic) version).

Definition ServerHello_Serialize (h : ServerHello) : res bytes :=
  let data := zeros 12 in
  data ← copy_into data 0 8 (sh_Magic h);
  data ← le_put32 data 8 12 (sh_Version h);
  Ok data.

Definition ParseServerWal (data : bytes) : res ServerWal :=
  if decide (length data < 4) then Err (Errorf "server wal too short") else
  idx ← le_get32 data 0 4;
  rest ← slice_from data 4;
  entry ← wrap_err "failed to deserialize wal entry" (Parse rest);
  Ok (MkServerWal idx entry).

Definition ServerWal_Serialize (x : ServerWal) : res bytes :=
  entryData ← wrap_err "failed to serialize wal entry" (Serialize (sw_Entry x));
  let data := zeros (4 + length entryData) in
  data ← le_put32 data 0 4 (sw_Index x);
  data ← copy_from data 4 entryData;
  Ok data.

Definition ParseClientPosition (data : bytes) : res ClientPosition :=
  if decide (length data < 8) then Err (Errorf "client position too short") else
  key ← le_get16 data 0 2;
  x ← le_get16 data 2 4;
  y ← le_get16 data 4 6;
  z ← le_get16 data 6 8;
  Ok (MkClientPosition key (int16 x) (int16 y) (int16 z)).

Definition ClientPosition_Serialize (p : ClientPosition) : res bytes :=
  let data := zeros 8 in
  data ← le_put16 data 0 2 (cp_Key p);
  data ← le_put16 data 2 4 (uint16 (cp_X p));
  data ← le_put16 data 4 6 (uint16 (cp_Y p));
  data ← le_put16 data 6 8 (uint16 (cp_Z p));
  Ok data.

Definition ParseServerPosition (data : bytes) : res ServerPosition :=
  if decide (length data < 34) then Err (Errorf "server position too short") else
  id ← slice data 0 16;
  name ← slice data 16 24;
  key ← le_get16 data 24 26;
  x ← le_get16 data 26 28;
  y ← le_get16 data 28 30;
  z ← le_get16 data 30 32;
  Ok (MkServerPosition (arr_of 16 id) (arr_of 8 name) key (int16 x) (int16 y) (int16 z)).

Definition ServerPosition_Serialize (p : ServerPosition) : res bytes :=
  let data := zeros 34 in
  data ← copy_into data 0 16 (sp_ID p);
  data ← copy_into data 16 24 (sp_Name p);
  data ← le_put16 data 24 26 (sp_Key p);
  data ← le_put16 data 26 28 (uint16 (sp_X p));
  data ← le_put16 data 28 30 (uint16 (sp_Y p));
  data ← le_put16 data 30 32 (uint16 (sp_Z p));
  Ok data.

(** ** Framing *)

(** The "Create packet" part of [SendRaw]. *)
Definition packet_bytes (pkt : Packet) : res bytes :=
  let size := length (p_Data pkt) in
  let data := zeros (3 + size) in
  data ← le_put16 data 0 2 (U16 (Z.of_nat size));
  data ← set_index data 2 (p_Op pkt);
  data ← copy_from data 3 (p_Data pkt);
  Ok data.

Definition SendRaw (pkt : Packet) : M conn unit :=
  let size := length (p_Data pkt) in
  if decide (65535 < Z.of_nat size)%Z
  then fail (Errorf "packet size exceeds maximum allowed size of 65535 bytes") else
  data ← lift (packet_bytes pkt);
  conn_write data.

Definition SendRawTimeout (pkt : Packet) (timeout : Z) : M conn unit :=
  SetWriteDeadline (Some timeout);;
  deferred (SendRaw pkt) (SetWriteDeadline None).

Definition default_timeout : Z := (10 * 1000000000)%Z.

Definition SendRawTimeoutDefault (pkt : Packet) : M conn unit :=
  SendRawTimeout pkt default_timeout.

Definition RecvRaw : M conn Packet :=
  header ← conn_read_full 3;
  size ← lift (le_get16 header 0 2);
  data ← conn_read_full (Z.to_nat (uval size));
  op ← lift (index header 2);
  mret (MkPacket op data).

Definition RecvRawTimeout (timeout : Z) : M conn Packet :=
  SetReadDeadline (Some timeout);;
  deferred RecvRaw (SetReadDeadline None).

Definition RecvRawTimeoutDefault : M conn Packet := RecvRawTimeout default_timeout.

(** ** The contract of a message body

    What the handlers rely on: the writer never fails on a value in its
    domain, the parser recovers the value and ignores what follows it, and no
    input makes the parser panic. *)

Class Codec (A : Type) := {
  c_ser : A → res bytes;
  c_parse : bytes → res A;
  c_dom : A → Prop;
  c_ser_ok a : c_dom a → ∃ d, c_ser a = Ok d ∧ length d ≤ 65;
  c_parse_ser a d rest : c_dom a → c_ser a = Ok d → c_parse (d ++ rest) = Ok a;
  c_parse_returns d : returns (c_parse d);
}.

(** ** Layouts *)

Definition client_hello_layout (h : ClientHello) : bytes :=
  vec_to_list (ch_Magic h) ++ le_bytes 4 (uval (ch_Version h))
  ++ vec_to_list (ch_SessionID h) ++ vec_to_list (ch_SessionSecret h)
  ++ vec_to_list (ch_PlayerID h) ++ vec_to_list (ch_PlayerName h)
  ++ [ch_WorldID h] ++ le_bytes 4 (uval (ch_WalIndex h)).

Definition server_hello_layout (h : ServerHello) : bytes :=
  vec_to_list (sh_Magic h) ++ le_bytes 4 (uval (sh_Version h)).

Definition client_position_layout (p : ClientPosition) : bytes :=
  le_bytes 2 (uval (cp_Key p)) ++ le_bytes 2 (uval (uint16 (cp_X p)))
  ++ le_bytes 2 (uval (uint16 (cp_Y p))) ++ le_bytes 2 (uval (uint16 (cp_Z p))).

Definition server_position_layout (p : ServerPosition) : bytes :=
  vec_to_list (sp_ID p) ++ vec_to_list (sp_Name p)
  ++ le_bytes 2 (uval (sp_Key p)) ++ le_bytes 2 (uval (uint16 (sp_X p)))
  ++ le_bytes 2 (uval (uint16 (sp_Y p))) ++ le_bytes 2 (uval (uint16 (sp_Z p)))
  ++ zeros 2.

Lemma ClientHello_Serialize_layout h : ClientHello_Serialize h = Ok (client_hello_layout h).
Proof. unfold ClientHello_Serialize. solve_layout. Qed.

Lemma ServerHello_Serialize_layout h : ServerHello_Serialize h = Ok (server_hello_layout h).
Proof. unfold ServerHello_Serialize. solve_layout. Qed.

Lemma ClientPosition_Serialize_layout p :
  ClientPosition_Serialize p = Ok (client_position_layout p).
Proof. unfold ClientPosition_Serialize. solve_layout. Qed.

Lemma ServerPosition_Serialize_layout p :
  ServerPosition_Serialize p = Ok (server_position_layout p).
Proof. unfold ServerPosition_Serialize. solve_layout. Qed.

Lemma ServerWal_Serialize_layout i e d :
  Serialize e = Ok d → ServerWal_Serialize (MkServerWal i e) = Ok (le_bytes 4 (uval i) ++ d).
Proof.
  intros Hd. unfold ServerWal_Serialize. cbn [sw_Index sw_Entry]. rewrite Hd.
  cbn [wrap_err mbind res_bind].
  solve_layout.
Qed.

(** ** Parsing a layout *)

Lemma ParseClientHello_layout h rest :
  ParseClientHello (client_hello_layout h ++ rest) = Ok h.
Proof. unfold ParseClientHello, client_hello_layout. solve_parse. by destruct h. Qed.

Lemma ParseServerHello_layout h rest :
  ParseServerHello (server_hello_layout h ++ rest) = Ok h.
Proof. unfold ParseServerHello, server_hello_layout. solve_parse. by destruct h. Qed.

Lemma ParseClientPosition_layout p rest :
  ParseClientPosition (client_position_layout p ++ rest) = Ok p.
Proof. unfold ParseClientPosition, client_position_layout. solve_parse. by destruct p. Qed.

Lemma ParseServerPosition_layout p rest :
  ParseServerPosition (server_position_layout p ++ rest) = Ok p.
Proof. unfold ParseServerPosition, server_position_layout. solve_parse. by destruct p. Qed.

Lemma ParseServerWal_layout i e d rest :
  Serialize e = Ok d →
  ParseServerWal ((le_bytes 4 (uval i) ++ d) ++ rest) = Ok (MkServerWal i (normalize e)).
Proof.
  intros Hd. unfold ParseServerWal. rewrite decide_False by len. rewrite <- app_assoc.
  run_reads. unfold slice_from. rewrite slice_skip by len. rewrite length_le_bytes.
  rewrite slice_all by len. rewrite res_bind_ok, (Parse_Serialize_app e d rest) by done. done.
Qed.

(** ** Parsers never panic *)

Lemma ParseClientHello_returns data : returns (ParseClientHello data).
Proof. unfold ParseClientHello. case_decide; [done|]. solve_returns. Qed.

Lemma ParseServerHello_returns data : returns (ParseServerHello data).
Proof. unfold ParseServerHello. case_decide; [done|]. solve_returns. Qed.

Lemma ParseClientPosition_returns data : returns (ParseClientPosition data).
Proof. unfold ParseClientPosition. case_decide; [done|]. solve_returns. Qed.

Lemma ParseServerPosition_returns data : returns (ParseServerPosition data).
Proof. unfold ParseServerPosition. case_decide; [done|]. solve_returns. Qed.

Lemma ParseServerWal_returns data : returns (ParseServerWal data).
Proof.
  unfold ParseServerWal, slice_from. case_decide; [done|]. solve_returns.
  rewrite !res_bind_ok. apply res_bind_returns; [|done].
  apply wrap_err_returns, Parse_returns.
Qed.

(** ** The bodies implement the contract *)

#[export] Program Instance ClientHello_codec : Codec ClientHello := {|
  c_ser := ClientHello_Serialize; c_parse := ParseClientHello; c_dom _ := True |}.
Next Obligation.
  intros h _. rewrite ClientHello_Serialize_layout. eexists; split; [done|].
  unfold client_hello_layout. len.
Qed.
Next Obligation.
  intros h d rest _. rewrite ClientHello_Serialize_layout. intros <-%Ok_inj.
  apply ParseClientHello_layout.
Qed.
Next Obligation. apply ParseClientHello_returns. Qed.

#[export] Program Instance ServerHello_codec : Codec ServerHello := {|
  c_ser := ServerHello_Serialize; c_parse := ParseServerHello; c_dom _ := True |}.
Next Obligation.
  intros h _. rewrite ServerHello_Serialize_layout. eexists; split; [done|].
  unfold server_hello_layout. len.
Qed.
Next Obligation.
  intros h d rest _. rewrite ServerHello_Serialize_layout. intros <-%Ok_inj.
  apply ParseServerHello_layout.
Qed.
Next Obligation. apply ParseServerHello_returns. Qed.

#[export] Program Instance ClientPosition_codec : Codec ClientPosition := {|
  c_ser := ClientPosition_Serialize; c_parse := ParseClientPosition; c_dom _ := True |}.
Next Obligation.
  intros p _. rewrite ClientPosition_Serialize_layout. eexists; split; [done|].
  unfold client_position_layout. len.
Qed.
Next Obligation.
  intros p d rest _. rewrite ClientPosition_Serialize_layout. intros <-%Ok_inj.
  apply ParseClientPosition_layout.
Qed.
Next Obligation. apply ParseClientPosition_returns. Qed.

#[export] Program Instance ServerPosition_codec : Codec ServerPosition := {|
  c_ser := ServerPosition_Serialize; c_parse := ParseServerPosition; c_dom _ := True |}.
Next Obligation.
  intros p _. rewrite ServerPosition_Serialize_layout. eexists; split; [done|].
  unfold server_position_layout. len.
Qed.
Next Obligation.
  intros p d rest _. rewrite ServerPosition_Serialize_layout. intros <-%Ok_inj.
  apply ParseServerPosition_layout.
Qed.
Next Obligation. apply ParseServerPosition_returns. Qed.

#[export] Program Instance ServerWal_codec : Codec ServerWal := {|
  c_ser := ServerWal_Serialize; c_parse := ParseServerWal; c_dom x := normal (sw_Entry x) |}.
Next Obligation.
  intros [i e] [Hk _]. simpl in Hk. destruct (Serialize_known e Hk) as (d & Hd & Hl).
  rewrite (ServerWal_Serialize_layout i e d Hd). eexists; split; [done|]. len.
Qed.
Next Obligation.
  intros [i e] d rest [Hk Hn]. simpl in *. destruct (Serialize_known e Hk) as (d' & Hd & _).
  rewrite (ServerWal_Serialize_layout i e d' Hd). intros <-%Ok_inj.
  by rewrite (ParseServerWal_layout i e d' rest Hd), Hn.
Qed.
Next Obligation. apply ParseServerWal_returns. Qed.

(** A WAL entry alone is the body of the client's [OpWal] packets. *)
#[export] Program Instance WalEntry_codec : Codec WalEntry := {|
  c_ser := Serialize; c_parse := Parse; c_dom := normal |}.
Next Obligation.
  intros e [Hk _]. destruct (Serialize_known e Hk) as (d & Hd & Hl).
  exists d; split; [done|lia].
Qed.
Next Obligation. intros e d rest [_ Hn] Hd. by rewrite (Parse_Serialize_app e d rest Hd), Hn. Qed.
Next Obligation. apply Parse_returns. Qed.

(** ** Framing: layout of one packet *)

Definition sendable (p : Packet) : Prop := (Z.of_nat (length (p_Data p)) <= 65535)%Z.

Definition frame (p : Packet) : bytes :=
  le_bytes 2 (Z.of_nat (length (p_Data p))) ++ [p_Op p] ++ p_Data p.

Lemma length_frame p : length (frame p) = 3 + length (p_Data p).
Proof. unfold frame. len. Qed.

Lemma frame_size p : sendable p → uval (U16 (Z.of_nat (length (p_Data p)))) = Z.of_nat (length (p_Data p)).
Proof. unfold sendable. intros. apply uval_to_uint_small. lia. Qed.

Lemma packet_bytes_frame p : sendable p → packet_bytes p = Ok (frame p).
Proof.
  intros Hp. unfold packet_bytes, frame. solve_layout. by rewrite frame_size.
Qed.

Lemma SendRaw_sendable p c : sendable p → SendRaw p c = conn_write (frame p) c.
Proof.
  intros Hp. unfold SendRaw. rewrite decide_False by (unfold sendable in Hp; lia).
  unfold mbind, M_bind, lift. by rewrite packet_bytes_frame.
Qed.

Lemma SendRaw_oversized p c :
  ¬ sendable p →
  SendRaw p c = (c, Err (Errorf "packet size exceeds maximum allowed size of 65535 bytes")).
Proof. unfold sendable, SendRaw. intros. by rewrite decide_True by lia. Qed.

(** Reading the header, then the body. *)
Lemma RecvRaw_unfold c :
  RecvRaw c =
  match read_full_from (rx c) (rx_end c) 3 with
  | (r1, Ok header) =>
      match le_get16 header 0 2 with
      | Ok size =>
          match read_full_from r1 (rx_end c) (Z.to_nat (uval size)) with
          | (r2, Ok data) => (set_rx r2 c, op ← index header 2; Ok (MkPacket op data))
          | (r2, Err e) => (set_rx r2 c, Err e)
          | (r2, Panic) => (set_rx r2 c, Panic)
          | (r2, NoFuel) => (set_rx r2 c, NoFuel)
          end
      | Err e => (set_rx r1 c, Err e)
      | Panic => (set_rx r1 c, Panic)
      | NoFuel => (set_rx r1 c, NoFuel)
      end
  | (r1, Err e) => (set_rx r1 c, Err e)
  | (r1, Panic) => (set_rx r1 c, Panic)
  | (r1, NoFuel) => (set_rx r1 c, NoFuel)
  end.
Proof.
  unfold RecvRaw, mbind, M_bind, conn_read_full, lift.
  destruct (read_full_from (rx c) (rx_end c) 3) as [r1 [header| | |]]; try done.
  destruct (le_get16 header 0 2) as [size| | |]; try done. simpl.
  destruct (read_full_from r1 (rx_end c) _) as [r2 [data| | |]]; try done.
  simpl. by destruct (index header 2).
Qed.

Definition header_of (p : Packet) : bytes :=
  le_bytes 2 (Z.of_nat (length (p_Data p))) ++ [p_Op p].

Lemma frame_header p : frame p = header_of p ++ p_Data p.
Proof. unfold frame, header_of. by rewrite <- app_assoc. Qed.

Lemma header_size p :
  sendable p → le_get16 (header_of p) 0 2 = Ok (U16 (Z.of_nat (length (p_Data p)))).
Proof. intros Hp. apply le_get16_spec. rewrite frame_size by done. apply slice_here. len. Qed.

Lemma header_op p : index (header_of p) 2 = Ok (p_Op p).
Proof. unfold header_of. run_index. Qed.

Lemma RecvRaw_frame p rest c :
  sendable p → rx c = frame p ++ rest → RecvRaw c = (set_rx rest c, Ok p).
Proof.
  intros Hp Hc. rewrite RecvRaw_unfold, Hc, frame_header, <- app_assoc.
  rewrite read_full_app by (unfold header_of; len).
  rewrite header_size, header_op, frame_size, Nat2Z.id by done.
  rewrite read_full_app by done. by destruct p.
Qed.

(** A stream that stops inside a frame yields an error, not a packet. *)
Lemma RecvRaw_truncated p k c :
  sendable p → k < length (frame p) → rx c = take k (frame p) → rx_end c = EOF →
  RecvRaw c = (set_rx [] c, Err (if decide (k = 0 ∨ k = 3) then EOF else ErrUnexpectedEOF)).
Proof.
  intros Hp Hk Hc He. rewrite length_frame in Hk. rewrite RecvRaw_unfold, Hc, He, frame_header.
  assert (length (header_of p) = 3) as Hh by (unfold header_of; len).
  destruct (decide (k < 3)).
  - rewrite read_full_short by (rewrite length_take; lia).
    rewrite take_app_le by lia. destruct k as [|k]; [done|].
    rewrite decide_False; [by rewrite decide_False by lia|].
    intros Hnil%(f_equal length). rewrite length_take in Hnil. simpl in Hnil. lia.
  - rewrite take_app_ge, read_full_app, header_size, frame_size, Nat2Z.id by (done || lia).
    rewrite read_full_short by (rewrite length_take; lia). rewrite Hh.
    destruct (decide (k = 3)) as [->|].
    + by rewrite decide_True, decide_True by (done || lia).
    + rewrite decide_False; [by rewrite decide_False by lia|].
      intros Hnil%(f_equal length). rewrite length_take in Hnil. simpl in Hnil. lia.
Qed.

(** ** Streams of packets *)

(** The receive loop of a reader goroutine: [RecvRaw] until it fails. *)
Fixpoint recv_all (fuel : nat) (c : conn) : list Packet * res unit :=
  match fuel with
  | 0 => ([], NoFuel)
  | S fuel =>
      match RecvRaw c with
      | (c', Ok p) => let '(ps, r) := recv_all fuel c' in (p :: ps, r)
      | (_, Err e) => ([], Err e)
      | (_, Panic) => ([], Panic)
      | (_, NoFuel) => ([], NoFuel)
      end
  end.

Fixpoint send_all (ps : list Packet) : M conn unit :=
  match ps with
  | [] => mret tt
  | p :: ps => SendRaw p;; send_all ps
  end.

Definition stream (ps : list Packet) : bytes := concat (frame <$> ps).

Lemma send_all_stream ps c :
  Forall sendable ps → tx_script c = [] → send_all ps c = (set_tx (tx c ++ stream ps) [] c, Ok tt).
Proof.
  intros Hps. revert c. induction Hps as [|p ps Hp Hps IH]; intros c Hs; simpl.
  - unfold stream; simpl. rewrite app_nil_r. destruct c; by simplify_eq/=.
  - unfold mbind, M_bind. rewrite SendRaw_sendable by done. unfold conn_write. rewrite Hs.
    rewrite IH by done. unfold stream; simpl. by rewrite <- app_assoc.
Qed.

(** Cutting the stream anywhere loses whole packets from its end and nothing else. *)
Lemma recv_all_cut ps k fuel c :
  Forall sendable ps → rx c = take k (stream ps) → rx_end c = EOF → length (rx c) < fuel →
  ∃ n e, recv_all fuel c = (take n ps, Err e) ∧ (length (stream ps) ≤ k → n = length ps ∧ e = EOF).
Proof.
  intros Hps. revert k fuel c. induction Hps as [|p ps Hp Hps IH]; intros k fuel c Hc He Hf;
    (destruct fuel as [|fuel]; [lia|]); cbn [recv_all].
  - exists 0, EOF. rewrite RecvRaw_unfold, Hc, He. unfold stream; simpl. by rewrite take_nil.
  - assert (stream (p :: ps) = frame p ++ stream ps) as Hst by done. rewrite Hst in *.
    destruct (decide (k < length (frame p))) as [Hk|Hk].
    + rewrite take_app_le in Hc by lia.
      rewrite (RecvRaw_truncated p k c) by done. exists 0. eexists. split; [done|].
      rewrite length_app. intros. exfalso. lia.
    + rewrite take_app_ge in Hc by lia.
      rewrite (RecvRaw_frame p (take (k - length (frame p)) (stream ps)) c) by done.
      destruct (IH (k - length (frame p)) fuel (set_rx (take (k - length (frame p)) (stream ps)) c))
        as (n & e & Hr & Hall); [done|done| |].
      { cbn [rx set_rx]. rewrite Hc, length_app in Hf. pose proof (length_frame p). lia. }
      rewrite Hr. exists (S n), e. split; [done|]. rewrite length_app. intros.
      destruct Hall as [-> ->]; [lia|done].
Qed.

(** ** Robustness of the receiver *)

Lemma RecvRaw_returns c : returns (snd (RecvRaw c)).
Proof.
  rewrite RecvRaw_unfold.
  destruct (read_full_from_cases (rx c) (rx_end c) 3) as [(h & -> & Hl)|[e ->]]; [|done].
  destruct (le_get16_inbounds h 0 2) as [size ->]; [lia..|].
  destruct (read_full_from_cases (drop 3 (rx c)) (rx_end c) (Z.to_nat (uval size)))
    as [(d & -> & _)|[e ->]]; [|done].
  destruct (index_ok h 2) as [op ->]; [lia|]. done.
Qed.

Lemma deferred_returns {A} (m : M conn A) k c :
  returns (snd (m c)) → returns (snd (deferred m k c)).
Proof. unfold deferred. by destruct (m c). Qed.

(** ** Properties *)

Definition ex_hello : ClientHello :=
  MkClientHello (arr_of 8 [U8 79]) (U32 65536) (arr_of 16 [U8 1]) (arr_of 8 [U8 2]) ex_player
    (arr_of 8 []) (U8 4) (U32 77).

(** One side writes [a] with [ser] as the body of a packet [op], the other side
    receives that packet from the stream, up to its last byte and no further, and
    parses [a] from its body. *)
Definition delivered {A} (ser : A → res bytes) (parse : bytes → res A)
    (op : u8) (rest : bytes) (ending : error) (a : A) : Prop :=
  ∃ d c', ser a = Ok d
  ∧ snd (SendRaw (MkPacket op d) (conn_on [] EOF)) = Ok tt
  ∧ RecvRaw (conn_on (tx (fst (SendRaw (MkPacket op d) (conn_on [] EOF))) ++ rest) ending)
    = (c', Ok (MkPacket op d))
  ∧ rx c' = rest
  ∧ parse d = Ok a.

Lemma codec_delivered {A} `{Codec A} (a : A) (op : u8) (rest : bytes) (ending : error) :
  c_dom a → delivered c_ser c_parse op rest ending a.
Proof.
  intros Ha. destruct (c_ser_ok a Ha) as (d & Hd & Hl). exists d.
  assert (sendable (MkPacket op d)) as Hs by (unfold sendable; simpl; lia).
  rewrite SendRaw_sendable by done. simpl.
  eexists. split_and!; [done..|by apply RecvRaw_frame|done|].
  rewrite <- (app_nil_r d). by eapply c_parse_ser.
Qed.

(** C25: each message of the protocol, written by its [Serialize] and sent with
    [SendRaw] under its opcode, is received by the other side's [RecvRaw] as the
    same packet, the rest of the stream is left untouched, and its parser gives back
    the value that was sent: the two hellos, the positions of both sides, an entry
    of the log from the client and the same with its index from the server (for an
    entry the code can produce, [normal]). The hellos and positions are laid out as
    the wire format says. *)
Theorem message_delivery (rest : bytes) (ending : error) :
  (∀ h, delivered ClientHello_Serialize ParseClientHello OpHello rest ending h
        ∧ ClientHello_Serialize h = Ok (client_hello_layout h))
  ∧ (∀ h, delivered ServerHello_Serialize ParseServerHello OpHello rest ending h
        ∧ ServerHello_Serialize h = Ok (server_hello_layout h))
  ∧ (∀ e, normal e → delivered Serialize Parse OpWal rest ending e)
  ∧ (∀ i e, normal e →
       delivered ServerWal_Serialize ParseServerWal OpWal rest ending (MkServerWal i e))
  ∧ (∀ p, delivered ClientPosition_Serialize ParseClientPosition OpPosition rest ending p
        ∧ ClientPosition_Serialize p = Ok (client_position_layout p))
  ∧ (∀ p, delivered ServerPosition_Serialize ParseServerPosition OpPosition rest ending p
        ∧ ServerPosition_Serialize p = Ok (server_position_layout p)).
Proof.
  split; [|split; [|split; [|split; [|split]]]].
  - intros h. split; [by apply (@codec_delivered _ ClientHello_codec)|apply ClientHello_Serialize_layout].
  - intros h. split; [by apply (@codec_delivered _ ServerHello_codec)|apply ServerHello_Serialize_layout].
  - intros e He. by apply (@codec_delivered _ WalEntry_codec).
  - intros i e He. by apply (@codec_delivered _ ServerWal_codec).
  - intros p. split; [by apply (@codec_delivered _ ClientPosition_codec)
      |apply ClientPosition_Serialize_layout].
  - intros p. split; [by apply (@codec_delivered _ ServerPosition_codec)
      |apply ServerPosition_Serialize_layout].
Qed.

Lemma message_delivery_witness :
  normal ex_item
  ∧ delivered ClientHello_Serialize ParseClientHello OpHello [U8 9] EOF ex_hello
  ∧ delivered ServerWal_Serialize ParseServerWal OpWal [U8 9] EOF (MkServerWal (U32 3) ex_item)
  ∧ delivered ServerPosition_Serialize ParseServerPosition OpPosition [U8 9] EOF
      (MkServerPosition ex_player (arr_of 8 []) (U16 1) (I16 (-2)) (I16 3) (I16 (-4))).
Proof.
  destruct (message_delivery [U8 9] EOF) as (H1 & _ & _ & H4 & _ & H6).
  split; [exact ex_item_normal|]. split; [exact (proj1 (H1 ex_hello))|].
  split; [exact (H4 (U32 3) ex_item ex_item_normal)|]. apply H6.
Defined.

(** A reader that receives packets until the first failure gets, from a
    stream cut at any byte, a prefix of the packets that were sent, in order and
    unaltered; from the whole stream it gets all of them and then end of file. *)
Theorem packet_stream_delivery ps k :
  Forall sendable ps →
  let sent := tx (fst (send_all ps (conn_on [] EOF))) in
  ∃ n e, recv_all (S (length sent)) (conn_on (take k sent) EOF) = (take n ps, Err e)
  ∧ (length sent ≤ k → n = length ps ∧ e = EOF).
Proof.
  intros Hps. rewrite send_all_stream by done. cbv zeta. simpl tx.
  apply recv_all_cut; [done..|]. simpl. rewrite length_take. lia.
Qed.

Lemma packet_stream_delivery_witness :
  let ps := [MkPacket OpNOP []; MkPacket OpWalAck [U8 5; U8 6]] in
  Forall sendable ps ∧
  let sent := tx (fst (send_all ps (conn_on [] EOF))) in
  length sent = 8 ∧
  ∃ n e, recv_all (S (length sent)) (conn_on (take 7 sent) EOF) = (take n ps, Err e)
  ∧ (length sent ≤ 7 → n = length ps ∧ e = EOF).
Proof.
  intros ps. assert (Forall sendable ps) as Hps.
  { unfold ps, sendable. repeat constructor; vm_compute; discriminate. }
  split; [exact Hps|]. split; [reflexivity|]. exact (packet_stream_delivery ps 7 Hps).
Defined.

(** No bytes from the network make the receiver or a message parser panic;
    the deadline set for a read is cleared again whatever happens; and an
    oversized packet is refused before anything is written. *)
Theorem protocol_robust (data : bytes) (c : conn) (p : Packet) :
  returns (ParseClientHello data) ∧ returns (ParseServerHello data)
  ∧ returns (ParseServerWal data) ∧ returns (ParseClientPosition data)
  ∧ returns (ParseServerPosition data)
  ∧ returns (snd (RecvRawTimeoutDefault c))
  ∧ r_deadline (fst (RecvRawTimeoutDefault c)) = None
  ∧ w_deadline (fst (SendRawTimeoutDefault p c)) = None
  ∧ ((65535 < Z.of_nat (length (p_Data p)))%Z →
     ∃ e, snd (SendRawTimeoutDefault p c) = Err e ∧ tx (fst (SendRawTimeoutDefault p c)) = tx c).
Proof.
  split_and!; [apply ParseClientHello_returns|apply ParseServerHello_returns
    |apply ParseServerWal_returns|apply ParseClientPosition_returns
    |apply ParseServerPosition_returns|..].
  - unfold RecvRawTimeoutDefault, RecvRawTimeout, mbind, M_bind, SetReadDeadline, modify.
    apply deferred_returns, RecvRaw_returns.
  - unfold RecvRawTimeoutDefault, RecvRawTimeout, mbind, M_bind, SetReadDeadline, modify, deferred.
    by destruct (RecvRaw _).
  - unfold SendRawTimeoutDefault, SendRawTimeout, mbind, M_bind, SetWriteDeadline, modify, deferred.
    by destruct (SendRaw _ _).
  - intros Hp. unfold SendRawTimeoutDefault, SendRawTimeout, mbind, M_bind, SetWriteDeadline,
      modify, deferred. rewrite SendRaw_oversized by (unfold sendable; lia). simpl. eauto.
Qed.
