(* ===== verification/Wal.v ===== *)
(** * The write-ahead log (shared/wal/wal.go)

    The file-backed, deduplicated, append-only list of entries that the server
    keeps per session and the client keeps as its replica, and the blocking
    streams that follow it. *)

From stdpp Require Import base gmap sets list strings vector numbers tactics relations.
From Stdlib Require Import ZArith Lia.
From S2P Require Import Prelude Words GoIO WalEntry.

(** ** State

    [w_notify] numbers the channel currently stored in [wal.notify]: the
    channels with a smaller number are the closed ones. *)

Record WAL : Type := MkWAL {
  w_done : bool;
  w_file : file;
  w_set : gset (vec u8 16);
  w_entries : list WalEntry;
  w_count : u32;
  w_notify : nat;
}.

Record WALStream : Type := MkStream { st_done : bool; st_index : u32 }.

Definition set_w_file (f : file) (w : WAL) : WAL :=
  MkWAL (w_done w) f (w_set w) (w_entries w) (w_count w) (w_notify w).

Definition on_file {A} (m : M file A) : M WAL A := zoom w_file set_w_file m.

(** ** Loading and opening *)

Definition load_entry (key : vec u8 16) (entry : WalEntry) (w : WAL) : WAL :=
  MkWAL (w_done w) (w_file w) ({[key]} ∪ w_set w) (w_entries w ++ [entry])
    (uincr (w_count w)) (w_notify w).

(** The length prefix, or [None] at the end of the file ([break]). *)
Definition read_length : M WAL (option u32) := λ w,
  match on_file (file_read_full 4) w with
  | (w', Ok lengthBuf) => (w', length ← le_Uint32 lengthBuf; Ok (Some length))
  | (w', Err EOF) => (w', Ok None)
  | (w', Err e) => (w', Err (Wrapf "wal: failed to read entry length" e))
  | (w', Panic) => (w', Panic)
  | (w', NoFuel) => (w', NoFuel)
  end.

Definition load_body (length : u32) : M WAL unit :=
  data ← wrapM "wal: failed to read entry data" (on_file (file_read_full (Z.to_nat (uval length))));
  entry ← lift match Parse data with
               | Err _ => Err (Errorf "wal: failed to deserialize entry")
               | r => r
               end;
  dedupKey ← lift (wrap_err "wal: failed to compute deduplication key" (DedupKey entry));
  modify (load_entry dedupKey entry).

Fixpoint load (fuel : nat) : M WAL unit :=
  match fuel with
  | 0 => lift NoFuel
  | S fuel =>
      length ← read_length;
      match length with
      | None => mret tt
      | Some length => load_body length;; load fuel
      end
  end.

Definition Close : M WAL unit :=
  modify (λ w, MkWAL true (w_file w) (w_set w) (w_entries w) (w_count w) (w_notify w));;
  on_file file_close.

Definition new_wal (f : file) : WAL := MkWAL false f ∅ [] (U32 0) 0.

(** Every iteration of [load] consumes at least the four bytes of a length. *)
Definition load_fuel (f : file) : nat := S (length (f_data f)).

(** [OpenWAL] on what [os.OpenFile] returned: the log, or the error and the file
    it closed. *)
Definition OpenWAL (opened : res file) : option file * res WAL :=
  match wrap_err "wal" opened with
  | Ok f =>
      match load (load_fuel f) (new_wal f) with
      | (w, Ok _) => (None, Ok w)
      | (w, Err e) => (Some (w_file (fst (Close w))), Err e)
      | (w, Panic) => (None, Panic)
      | (w, NoFuel) => (None, NoFuel)
      end
  | Err e => (None, Err e)
  | Panic => (None, Panic)
  | NoFuel => (None, NoFuel)
  end.

(** ** Appending *)

Definition rollback {A} (pos : nat) (msg : string) (m : M WAL A) : M WAL A :=
  on_err m (λ e,
    ignore (on_file (file_truncate pos));;
    ignore (on_file (file_seek_start pos));;
    fail (Wrapf msg e)).

(** The in-memory update and the wake-up: [close(wal.notify)] and a fresh
    channel. *)
Definition commit (key : vec u8 16) (entry : WalEntry) (w : WAL) : WAL :=
  MkWAL (w_done w) (w_file w) ({[key]} ∪ w_set w) (w_entries w ++ [entry])
    (uincr (w_count w)) (S (w_notify w)).

(** Seek, then write the length prefix and the data, then sync. *)
Definition write_record (lengthBuf data : bytes) : M WAL unit :=
  pos ← wrapM "wal: failed to seek in file" (on_file file_seek_current);
  rollback pos "wal: failed to write entry length to file" (on_file (file_write lengthBuf));;
  rollback pos "wal: failed to write entry to file" (on_file (file_write data));;
  rollback pos "wal: failed to sync file" (on_file file_sync).

(** The critical section of [Append]. *)
Definition append_locked (dedupKey : vec u8 16) (lengthBuf data : bytes) (entry : WalEntry) :
    M WAL unit :=
  dup ← gets (λ w, bool_decide (dedupKey ∈ w_set w));
  if (dup : bool) then mret tt else
  write_record lengthBuf data;;
  modify (commit dedupKey entry).

Definition Append (entry : WalEntry) : M WAL unit :=
  data ← lift (wrap_err "wal: failed to marshal entry" (Serialize entry));
  dedupKey ← lift (wrap_err "wal: failed to compute deduplication key" (DedupKey entry));
  lengthBuf ← lift (le_put32 (zeros 4) 0 4 (U32 (Z.of_nat (length data))));
  append_locked dedupKey lengthBuf data entry.

(** ** Reading *)

Definition Get (w : WAL) (index : u32) : res (option WalEntry) :=
  if decide (uval (w_count w) <= uval index)%Z then Ok None
  else match w_entries w !! Z.to_nat (uval index) with
       | Some e => Ok (Some e)
       | None => Panic
       end.

Definition Count (w : WAL) : u32 := w_count w.

Definition Subscribe (done : bool) (index : u32) : WALStream := MkStream done index.

(** ** Streams

    [Next] is a loop with three atomic regions: it reads [wal.notify] under the
    lock, calls [Get], and blocks in a [select].  Other goroutines run between
    them. *)

Inductive next_pc : Type :=
  | ReadNotify
  | CallGet (ch : nat)
  | Select (ch : nat)
  | Returned (r : res (WalEntry * u32)).

Inductive next_step (w : WAL) : next_pc * WALStream → next_pc * WALStream → Prop :=
  | next_read_notify st :
      next_step w (ReadNotify, st) (CallGet (w_notify w), st)
  | next_get_some ch st e :
      Get w (st_index st) = Ok (Some e) →
      next_step w (CallGet ch, st)
        (Returned (Ok (e, st_index st)), MkStream (st_done st) (uincr (st_index st)))
  | next_get_none ch st :
      Get w (st_index st) = Ok None →
      next_step w (CallGet ch, st) (Select ch, st)
  | next_get_panic ch st :
      Get w (st_index st) = Panic →
      next_step w (CallGet ch, st) (Returned Panic, st)
  | next_notified ch st :
      ch < w_notify w →
      next_step w (Select ch, st) (ReadNotify, st)
  | next_closed ch st :
      w_done w = true →
      next_step w (Select ch, st) (Returned (Err (Errorf "wal stream closed")), st)
  | next_canceled ch st :
      st_done st = true →
      next_step w (Select ch, st) (Returned (Err (Errorf "wal stream canceled")), st).

(** One subscriber among concurrent appenders.  After [Next] returns an entry
    its caller takes it (the label of the step) and calls it again. *)
Inductive follow_step :
    WAL * (next_pc * WALStream) → option (WalEntry * u32) → WAL * (next_pc * WALStream) → Prop :=
  | follow_next w p p' : next_step w p p' → follow_step (w, p) None (w, p')
  | follow_again w e i st :
      follow_step (w, (Returned (Ok (e, i)), st)) (Some (e, i)) (w, (ReadNotify, st))
  | follow_append w e p : follow_step (w, p) None (fst (Append e w), p)
  | follow_close w p : follow_step (w, p) None (fst (Close w), p)
  | follow_cancel w pc st : follow_step (w, (pc, st)) None (w, (pc, MkStream true (st_index st))).

(** What the caller has taken, oldest first. *)
Inductive follow_run (c0 : WAL * (next_pc * WALStream)) :
    list (WalEntry * u32) → WAL * (next_pc * WALStream) → Prop :=
  | run_start : follow_run c0 [] c0
  | run_step tr c o c' :
      follow_run c0 tr c → follow_step c o c' → follow_run c0 (tr ++ option_list o) c'.

(** ** The abstract log *)

(** An append-only list without two entries of the same key. *)
Definition has_key (k : vec u8 16) (l : list WalEntry) : Prop :=
  ∃ e, e ∈ l ∧ DedupKey e = Ok k.

Definition aappend (e : WalEntry) (l : list WalEntry) : list WalEntry :=
  if decide (DedupKey e ∈ DedupKey <$> l) then l else l ++ [e].

(** ** Invariants *)

Definition wal_frame (e : WalEntry) : bytes :=
  match Serialize e with
  | Ok d => le_bytes 4 (Z.of_nat (length d)) ++ d
  | _ => []
  end.

Definition wal_bytes (l : list WalEntry) : bytes := concat (wal_frame <$> l).

(** What is always true of the log in memory. *)
Record mem_wf (w : WAL) : Prop := {
  mem_known : Forall known_type (w_entries w);
  mem_set k : k ∈ w_set w ↔ has_key k (w_entries w);
  mem_count : w_count w = U32 (Z.of_nat (length (w_entries w)));
}.

(** No two entries of the log carry the same key. *)
Definition keys_nodup (w : WAL) : Prop := NoDup (DedupKey <$> w_entries w).

(** The open file holds exactly the log and the next write goes to its end. *)
Record disk_wf (w : WAL) : Prop := {
  disk_data : f_data (w_file w) = wal_bytes (w_entries w);
  disk_pos : f_pos (w_file w) = length (f_data (w_file w));
}.

(** ** File-only computations *)

(** A computation over the log that touches nothing but its file. *)
Definition file_only {A} (m : M WAL A) : Prop :=
  ∀ w, ∃ f r, m w = (set_w_file f w, r) ∧ returns r.

Lemma set_w_file_twice f1 f2 w : set_w_file f1 (set_w_file f2 w) = set_w_file f1 w.
Proof. done. Qed.

Lemma set_w_file_id w : set_w_file (w_file w) w = w.
Proof. by destruct w. Qed.

Lemma file_only_on_file {A} (m : M file A) : total m → file_only (on_file m).
Proof.
  intros Hm w. unfold on_file, zoom. specialize (Hm (w_file w)).
  destruct (m (w_file w)) as [f r]. by eexists _, _.
Qed.

Lemma file_only_bind {A B} (m : M WAL A) (k : A → M WAL B) :
  file_only m → (∀ a, file_only (k a)) → file_only (m ≫= k).
Proof.
  intros Hm Hk w. destruct (Hm w) as (f & r & Hr & Hret). unfold mbind, M_bind. rewrite Hr.
  destruct r as [a|e| |]; [|by eexists _, _|by destruct Hret..].
  destruct (Hk a (set_w_file f w)) as (f' & r' & Hr' & ?). eauto.
Qed.

Lemma file_only_fail {A} e : file_only (fail e : M WAL A).
Proof. intros w. exists (w_file w), (Err e). by rewrite set_w_file_id. Qed.

Lemma file_only_ret {A} (a : A) : file_only (mret a : M WAL A).
Proof. intros w. exists (w_file w), (Ok a). by rewrite set_w_file_id. Qed.

Lemma file_only_on_err {A} (m : M WAL A) h :
  file_only m → (∀ e, file_only (h e)) → file_only (on_err m h).
Proof.
  intros Hm Hh w. destruct (Hm w) as (f & r & Hr & Hret). unfold on_err. rewrite Hr.
  destruct r as [a|e| |]; [by eexists _, _| |by destruct Hret..].
  destruct (Hh e (set_w_file f w)) as (f' & r' & Hr' & ?). eauto.
Qed.

Lemma file_only_ignore {A} (m : M WAL A) : file_only m → file_only (ignore m).
Proof.
  intros Hm w. destruct (Hm w) as (f & r & Hr & Hret). unfold ignore. rewrite Hr.
  destruct r; [by eexists _, _..|by destruct Hret|by destruct Hret].
Qed.

Create HintDb wal.
#[export] Hint Resolve file_only_on_file file_only_bind file_only_fail file_only_ret
  file_only_on_err file_only_ignore file_total_syscall file_total_write : wal.
#[export] Hint Extern 1 (total _) => (intros ?; done) : wal.

Lemma file_only_rollback {A} pos msg (m : M WAL A) : file_only m → file_only (rollback pos msg m).
Proof.
  intros Hm. unfold rollback, file_truncate, file_seek_start.
  apply file_only_on_err; [done|intros e]. eauto 20 with wal.
Qed.
#[export] Hint Resolve file_only_rollback : wal.

Lemma file_only_write_record lb d : file_only (write_record lb d).
Proof. unfold write_record, wrapM, file_seek_current, file_sync. eauto 20 with wal. Qed.

(** ** Append in memory *)

(** Whatever the disk does, a critical section either finds the key, or commits
    the entry and succeeds, or leaves the memory as it was and fails. *)
Lemma append_locked_cases k lb d e w w' r :
  append_locked k lb d e w = (w', r) →
  (k ∈ w_set w ∧ w' = w ∧ r = Ok tt)
  ∨ ((k ∉ w_set w) ∧ (∃ f, w' = commit k e (set_w_file f w) ∧ r = Ok tt))
  ∨ ((k ∉ w_set w) ∧ (∃ f err, w' = set_w_file f w ∧ r = Err err)).
Proof.
  unfold append_locked, gets, mbind, M_bind. intros H.
  destruct (bool_decide_reflect (k ∈ w_set w)) as [Hin|Hnin].
  { left. by injection H as <- <-. }
  right. destruct (file_only_write_record lb d w) as (f & r' & Hr & Hret). rewrite Hr in H.
  destruct r' as [[]|err| |]; [left|right|by destruct Hret..]; injection H as <- <-; eauto 6.
Qed.

(** [Append] as a whole, in terms of the entry's key. *)
Lemma Append_known e w :
  known_type e →
  ∃ k d lb, DedupKey e = Ok k ∧ Serialize e = Ok d
    ∧ lb = le_bytes 4 (uval (U32 (Z.of_nat (length d))))
    ∧ Append e w = append_locked k lb d e w.
Proof.
  intros Hk. destruct (proj1 (DedupKey_known e) Hk) as [k Hkey].
  destruct (Serialize_known e Hk) as (d & Hd & _).
  eexists k, d, _. split_and!; [done..|]. unfold Append, mbind, M_bind, lift.
  rewrite Hd, Hkey. simpl wrap_err. cbv iota.
  change (zeros 4) with ([] ++ zeros 4). unfold le_put32.
  by rewrite put_fixed_next, app_nil_l, length_le_bytes, app_nil_r by len.
Qed.

Lemma Append_unknown e w :
  ¬ known_type e →
  Append e w = (w, Err (Wrapf "wal: failed to marshal entry" (Errorf "unknown WAL entry type"))).
Proof. intros Hk. unfold Append, mbind, M_bind, lift. by rewrite Serialize_unknown. Qed.

Lemma Append_cases e w w' r :
  Append e w = (w', r) →
  (∃ k, DedupKey e = Ok k ∧ k ∈ w_set w ∧ w' = w ∧ r = Ok tt)
  ∨ (∃ k f, DedupKey e = Ok k ∧ (k ∉ w_set w) ∧ w' = commit k e (set_w_file f w) ∧ r = Ok tt)
  ∨ (∃ f err, w' = set_w_file f w ∧ r = Err err).
Proof.
  intros H. destruct (decide (known_type e)) as [Hk|Hk].
  - destruct (Append_known e w Hk) as (k & d & lb & Hkey & _ & _ & Ha). rewrite Ha in H.
    destruct (append_locked_cases _ _ _ _ _ _ _ H)
      as [(?&?&?)|[(?&?&?&?)|(?&?&?&?&?)]]; [left|right; left|right; right]; eauto 6.
  - rewrite Append_unknown in H by done. injection H as <- <-. right; right.
    exists (w_file w). by eexists; rewrite set_w_file_id.
Qed.

Lemma Append_returns e w : returns (snd (Append e w)).
Proof.
  destruct (Append e w) as [w' r] eqn:H. simpl.
  destruct (Append_cases _ _ _ _ H) as [(?&?&?&?&->)|[(?&?&?&?&?&->)|(?&?&?&->)]]; done.
Qed.

(** ** The memory invariant *)

Lemma mem_wf_new f : mem_wf (new_wal f).
Proof. split; simpl; [done| |done]. intros k. unfold has_key. set_solver. Qed.

Lemma mem_wf_file f w : mem_wf w → mem_wf (set_w_file f w).
Proof. intros [???]. by split. Qed.

#[export] Instance has_key_dec k l : Decision (has_key k l).
Proof.
  refine (cast_if (decide (Exists (λ e, DedupKey e = Ok k) l))); unfold has_key; by rewrite <- Exists_exists.
Defined.

Lemma has_key_app k l1 l2 : has_key k (l1 ++ l2) ↔ has_key k l1 ∨ has_key k l2.
Proof. unfold has_key. set_solver. Qed.

Lemma has_key_singleton k k' e : DedupKey e = Ok k' → has_key k [e] ↔ k = k'.
Proof.
  intros He. unfold has_key. split.
  - intros (e' & ->%list_elem_of_singleton & Hk). congruence.
  - intros ->. exists e. by rewrite list_elem_of_singleton.
Qed.

Lemma uincr_length (l : nat) : uincr (U32 (Z.of_nat l)) = U32 (Z.of_nat (S l)).
Proof.
  apply uint_eq. simpl. rewrite Zplus_mod_idemp_l. f_equal. lia.
Qed.

(** Both ways of adding an entry: reading it from the file and appending it. *)
Lemma mem_wf_add k e w w' :
  DedupKey e = Ok k → mem_wf w →
  w_set w' = {[k]} ∪ w_set w → w_entries w' = w_entries w ++ [e] → w_count w' = uincr (w_count w) →
  mem_wf w'.
Proof.
  intros Hk [Hkn Hset Hc] Hs He Hcnt. split.
  - rewrite He. apply Forall_app; split; [done|]. apply Forall_singleton, DedupKey_known; eauto.
  - intros k'. rewrite Hs, He, has_key_app, (has_key_singleton k' k), <- Hset by done. set_solver.
  - rewrite Hcnt, He, Hc, length_app, Nat.add_1_r. apply uincr_length.
Qed.

Lemma mem_wf_Append e w : mem_wf w → mem_wf (fst (Append e w)).
Proof.
  intros Hw. destruct (Append e w) as [w' r] eqn:H. simpl.
  destruct (Append_cases _ _ _ _ H) as [(?&?&?&->&_)|[(k&f&Hk&?&->&_)|(?&?&->&_)]].
  - done.
  - by apply (mem_wf_add k e (set_w_file f w)); [done|by apply mem_wf_file|..].
  - by apply mem_wf_file.
Qed.

Lemma mem_wf_Close w : mem_wf w → mem_wf (fst (Close w)).
Proof.
  intros Hw. unfold Close, mbind, M_bind, modify, on_file, zoom; simpl.
  destruct (file_close (w_file w)) as [f r]. by destruct Hw.
Qed.

(** ** The disk invariant *)

Lemma set_w_file_file f w : w_file (set_w_file f w) = f.
Proof. done. Qed.

(** With no further fault, the clean-up of a failed step cuts the file back. *)
Lemma cleanup_spec {A} pos e w :
  f_closed (w_file w) = false → faults (f_script (w_file w)) = 0 →
  pos ≤ length (f_data (w_file w)) →
  ∃ s, (ignore (on_file (file_truncate pos));; ignore (on_file (file_seek_start pos));;
        fail e : M WAL A) w
       = (set_w_file (File (take pos (f_data (w_file w))) pos false s) w, Err e).
Proof.
  intros Ho Hf Hp. unfold mbind, M_bind, ignore, on_file, zoom, file_truncate, file_seek_start.
  destruct (syscall_nofault (modify (λ f, set_f_data (resize pos (U8 0) (f_data f)) f))
    (w_file w) Ho Hf) as (s & -> & Hs). simpl.
  set (f1 := set_f_data _ _).
  destruct (syscall_nofault (modify (set_f_pos pos)) f1) as (s' & -> & _); [done..|]. simpl.
  exists s'. by rewrite resize_le.
Qed.

(** One step of [write_record]: it appends [bs], or the file is cut back. *)
Definition step_spec (pos : nat) (bs : bytes) (w : WAL) (o : WAL * res unit) : Prop :=
  ∃ f r, o = (set_w_file f w, r) ∧ at_end f
  ∧ ((r = Ok tt ∧ f_data f = f_data (w_file w) ++ bs
      ∧ faults (f_script f) = faults (f_script (w_file w)))
     ∨ ((∃ e, r = Err e) ∧ f_data f = take pos (f_data (w_file w)))).

Lemma rollback_spec pos msg bs (m : M file unit) w :
  at_end (w_file w) → pos ≤ length (f_data (w_file w)) → faults (f_script (w_file w)) ≤ 1 →
  (∃ s r bs', m (w_file w) = (File (f_data (w_file w) ++ bs')
      (f_pos (w_file w) + length bs') false s, r)
    ∧ ((r = Ok tt ∧ bs' = bs ∧ faults (f_script (w_file w)) = faults s)
       ∨ ((∃ c, r = Err (OSError c)) ∧ bs' `prefix_of` bs
          ∧ faults (f_script (w_file w)) = S (faults s)))) →
  step_spec pos bs w (rollback pos msg (on_file m) w).
Proof.
  intros [Ho Hend] Hp Hf (s & r & bs' & Hm & Hcases). unfold rollback, on_err, step_spec.
  unfold on_file at 1, zoom at 1. rewrite Hm.
  destruct Hcases as [(-> & -> & Hfs)|([c ->] & _ & Hfs)].
  - eexists _, _. split; [done|]. unfold at_end; simpl. rewrite length_app, Hend. auto.
  - set (w1 := set_w_file _ w).
    destruct (cleanup_spec (A:=unit) pos (Wrapf msg (OSError c)) w1) as [s' ->];
      [done|simpl; lia|simpl; rewrite length_app; lia|].
    eexists _, _. split; [done|]. unfold at_end; simpl. rewrite length_take, length_app.
    split_and!; [done|lia|]. right. split; [eauto|]. by rewrite take_app_le.
Qed.

Lemma rollback_write_spec pos msg bs w :
  at_end (w_file w) → pos ≤ length (f_data (w_file w)) → faults (f_script (w_file w)) ≤ 1 →
  step_spec pos bs w (rollback pos msg (on_file (file_write bs)) w).
Proof. intros [Ho He] ??. apply rollback_spec; [done..|]. by apply file_write_cases. Qed.

Lemma rollback_sync_spec pos msg w :
  at_end (w_file w) → pos ≤ length (f_data (w_file w)) → faults (f_script (w_file w)) ≤ 1 →
  step_spec pos [] w (rollback pos msg (on_file file_sync) w).
Proof.
  intros [Ho He] ??. apply rollback_spec; [done..|].
  destruct (syscall_cases (mret tt) (w_file w) Ho) as [(s&Hr&?)|(s&c&Hr&?)];
    unfold file_sync; rewrite Hr; exists s; eexists _, [];
    rewrite app_nil_r, Nat.add_0_r; (split; [done|]); [left|right]; eauto.
Qed.

Lemma step_spec_seq pos b1 b2 (m1 m2 : M WAL unit) w :
  pos ≤ length (f_data (w_file w)) → faults (f_script (w_file w)) ≤ 1 →
  step_spec pos b1 w (m1 w) →
  (∀ w1, at_end (w_file w1) → pos ≤ length (f_data (w_file w1)) →
         faults (f_script (w_file w1)) ≤ 1 → step_spec pos b2 w1 (m2 w1)) →
  step_spec pos (b1 ++ b2) w ((m1;; m2) w).
Proof.
  intros Hp Hf (f1 & r1 & Hm1 & Hend1 & [(-> & Hd1 & Hs1)|([e ->] & Hd1)]) H2;
    unfold mbind, M_bind; rewrite Hm1.
  - destruct (H2 (set_w_file f1 w)) as (f2 & r2 & -> & Hend2 & Hr2);
      [done|simpl; rewrite Hd1, length_app; lia|simpl; lia|].
    exists f2, r2. split_and!; [done..|]. simpl in Hr2.
    destruct Hr2 as [(-> & Hd2 & Hs2)|(? & Hd2)]; [left|right]; rewrite Hd2, Hd1.
    + split_and!; [done|by rewrite app_assoc|congruence].
    + split; [done|]. by rewrite take_app_le.
  - eexists f1, _. split_and!; [done..|]. right. eauto.
Qed.

(** [write_record] is atomic with respect to one refused call. *)
Lemma write_record_spec lb d w :
  at_end (w_file w) → faults (f_script (w_file w)) ≤ 1 →
  step_spec (length (f_data (w_file w))) (lb ++ d) w (write_record lb d w).
Proof.
  intros [Ho Hend] Hf. unfold write_record, mbind at 1, M_bind at 1, wrapM, on_err.
  unfold on_file at 1, zoom at 1, file_seek_current.
  destruct (syscall_cases (gets f_pos) (w_file w) Ho) as [(s&->&Hs)|(s&c&->&Hs)]; simpl.
  - rewrite Hend. set (w1 := set_w_file _ w). set (pos := length _).
    match goal with |- step_spec _ _ _ (?m w1) =>
      assert (step_spec pos (lb ++ d ++ []) w1 (m w1)) as (f & r & Hm & ? & Hcase) end.
    { assert (at_end (w_file w1)) by done.
      apply step_spec_seq; [simpl; lia..|by apply rollback_write_spec; simpl; [|lia..]|].
      intros w2 ???. apply step_spec_seq; [done..|by apply rollback_write_spec|].
      intros w3 ???. by apply rollback_sync_spec. }
    rewrite app_nil_r in Hcase. simpl in Hcase. rewrite <- Hs in Hcase.
    exists f, r. by rewrite Hm.
  - eexists _, _. split; [done|]. split; [by split|]. right. simpl. rewrite take_ge by done. eauto.
Qed.

Lemma wal_bytes_app l1 l2 : wal_bytes (l1 ++ l2) = wal_bytes l1 ++ wal_bytes l2.
Proof. unfold wal_bytes. by rewrite fmap_app, concat_app. Qed.

Lemma wal_frame_Ok e d :
  Serialize e = Ok d → wal_frame e = le_bytes 4 (uval (U32 (Z.of_nat (length d)))) ++ d.
Proof.
  intros Hd. unfold wal_frame. rewrite Hd.
  destruct (decide (known_type e)) as [Hk|Hk].
  - destruct (Serialize_known e Hk) as (d' & Hd' & Hl). rewrite Hd in Hd'. apply Ok_inj in Hd' as <-.
    rewrite uval_to_uint_small; [done|simpl; lia].
  - by rewrite Serialize_unknown in Hd.
Qed.

(** [Append] keeps the file equal to the log, whatever single call fails. *)
Lemma disk_wf_Append e w w' r :
  disk_wf w → f_closed (w_file w) = false → faults (f_script (w_file w)) ≤ 1 →
  Append e w = (w', r) →
  disk_wf w' ∧ f_closed (w_file w') = false.
Proof.
  intros [Hd Hp] Ho Hf H. destruct (decide (known_type e)) as [Hk|Hk].
  - destruct (Append_known e w Hk) as (k & d & lb & _ & Hser & -> & Ha). rewrite Ha in H.
    unfold append_locked, gets, mbind, M_bind in H.
    destruct (bool_decide (k ∈ w_set w)); [injection H as <- <-; done|].
    destruct (write_record_spec (le_bytes 4 (uval (U32 (Z.of_nat (length d))))) d w)
      as (f & r' & Hr & [Ho' He'] & Hcase); [done..|]. rewrite Hr in H.
    destruct Hcase as [(-> & Hfd & _)|([err ->] & Hfd)]; injection H as <- <-;
      (split; [|done]); split; simpl; try done; rewrite Hfd.
    + rewrite Hd, wal_bytes_app, <- (wal_frame_Ok e) by done.
      unfold wal_bytes at 3; simpl. by rewrite app_nil_r.
    + by rewrite take_ge.
  - rewrite Append_unknown in H by done. by injection H as <- <-.
Qed.

(** ** Loading *)

Lemma read_length_total w :
  let '(w', r) := read_length w in
  returns r ∧ (∀ n, r = Ok (Some n) → length (f_rest (w_file w')) + 4 = length (f_rest (w_file w))).
Proof.
  unfold read_length, on_file, zoom.
  pose proof (file_read_full_progress 4 (w_file w)) as Hp.
  destruct (file_read_full 4 (w_file w)) as [f [bs|e| |]]; destruct Hp as [Hr Hb]; simpl.
  - destruct (Hb bs eq_refl) as [Hl Hf]. unfold le_Uint32. rewrite fixed_ok by done. done.
  - destruct e; (split; [done|by intros ? [=]]).
  - by destruct Hr.
  - by destruct Hr.
Qed.

Lemma load_body_total n w :
  let '(w', r) := load_body n w in
  returns r ∧ (r = Ok tt → length (f_rest (w_file w')) ≤ length (f_rest (w_file w))).
Proof.
  unfold load_body, mbind, M_bind, wrapM, on_err, on_file, zoom, lift, modify, fail.
  pose proof (file_read_full_progress (Z.to_nat (uval n)) (w_file w)) as Hp.
  destruct (file_read_full (Z.to_nat (uval n)) (w_file w)) as [f [bs|e| |]];
    destruct Hp as [Hr Hb]; [|done|by destruct Hr..].
  destruct (Hb bs eq_refl) as [_ Hf].
  destruct (Parse_cases bs) as [(_&e&->&[Hk _])|(_&?&->)]; [|done].
  destruct (proj1 (DedupKey_known e) Hk) as [k ->]. simpl. split; [done|intros _; lia].
Qed.

(** The loop of [load] ends on any file, whatever the disk answers. *)
Lemma load_total fuel w : length (f_rest (w_file w)) < fuel → returns (snd (load fuel w)).
Proof.
  revert w. induction fuel as [|fuel IH]; intros w Hf; [lia|]. cbn [load].
  unfold mbind at 1, M_bind at 1. pose proof (read_length_total w) as Hrl.
  destruct (read_length w) as [w1 [[n|]|e| |]]; destruct Hrl as [Hret Hn];
    [|done|done|by destruct Hret..].
  unfold mbind, M_bind. pose proof (load_body_total n w1) as Hb.
  destruct (load_body n w1) as [w2 [[]|e| |]]; destruct Hb as [Hret' Hb];
    [|done|by destruct Hret'..].
  apply IH. specialize (Hn n eq_refl). specialize (Hb eq_refl). lia.
Qed.

Lemma mem_wf_load fuel w : mem_wf w → mem_wf (fst (load fuel w)).
Proof.
  revert w. induction fuel as [|fuel IH]; intros w Hw; [done|]. cbn [load]. unfold mbind at 1, M_bind at 1.
  assert (mem_wf (fst (read_length w))) as Hrl.
  { unfold read_length, on_file, zoom. destruct (file_read_full 4 (w_file w)) as [f [bs|[]| |]];
      by apply mem_wf_file. }
  destruct (read_length w) as [w1 [[n|]|e| |]]; [|done..]. simpl in Hrl. unfold mbind, M_bind.
  assert (mem_wf (fst (load_body n w1))) as Hlb.
  { unfold load_body, mbind, M_bind, wrapM, on_err, on_file, zoom, lift, modify, fail.
    destruct (file_read_full _ (w_file w1)) as [f [bs|e| |]]; [|by apply mem_wf_file..].
    destruct (Parse bs) as [e|e| |] eqn:Hp; [|by apply mem_wf_file..].
    destruct (DedupKey e) as [k|e'| |] eqn:Hk; [|by apply mem_wf_file..].
    apply (mem_wf_add k e (set_w_file f w1)); [done|by apply mem_wf_file|done..]. }
  destruct (load_body n w1) as [w2 [[]|e| |]]; [|done..]. by apply IH.
Qed.

(** What [OpenWAL] returns is a well-formed log, whatever the file holds. *)
Lemma OpenWAL_mem_wf opened w : snd (OpenWAL opened) = Ok w → mem_wf w.
Proof.
  unfold OpenWAL. destruct opened as [f|e| |]; try done. cbn [wrap_err].
  pose proof (mem_wf_load (load_fuel f) (new_wal f) (mem_wf_new f)) as Hw.
  destruct (load (load_fuel f) (new_wal f)) as [w' [[]|e| |]]; simpl; try done. by intros [= <-].
Qed.

Lemma OpenWAL_returns data script : returns (snd (OpenWAL (Ok (open_file data script)))).
Proof.
  unfold OpenWAL, wrap_err. set (f := open_file data script).
  assert (returns (snd (load (load_fuel f) (new_wal f)))) as [Hp Hf].
  { apply load_total. unfold f_rest, load_fuel, f; simpl. rewrite drop_0. lia. }
  destruct (load (load_fuel f) (new_wal f)) as [w [[]|e| |]]; simpl in *; [done|done|by destruct Hp|by destruct Hf].
Qed.

(** Loading the frame of one entry. *)
Lemma load_frame fuel e k R w :
  DedupKey e = Ok k → reading (w_file w) (wal_frame e ++ R) →
  ∃ f, load (S fuel) w = load fuel (load_entry k (normalize e) (set_w_file f w))
    ∧ reading f R ∧ f_data f = f_data (w_file w).
Proof.
  intros Hk Hrd. assert (known_type e) as Hkn by (apply DedupKey_known; eauto).
  destruct (Serialize_known e Hkn) as (d & Hd & Hl).
  rewrite (wal_frame_Ok e d Hd), <- app_assoc in Hrd. set (n := U32 _) in Hrd.
  assert (Z.to_nat (uval n) = length d) as Hn
    by (unfold n; rewrite uval_to_uint_small by (simpl; lia); lia).
  destruct (file_read_full_app 4 _ _ _ Hrd) as (f1 & Hr1 & Hrd1 & Hd1); [len|].
  destruct (file_read_full_app (length d) _ _ _ Hrd1) as (f2 & Hr2 & Hrd2 & Hd2); [done|].
  exists f2. split_and!; [|done|congruence]. cbn [load].
  unfold mbind at 1, M_bind at 1, read_length, on_file at 1, zoom at 1. rewrite Hr1.
  rewrite le_Uint32_bytes. cbn [mbind res_bind].
  unfold mbind at 1, M_bind at 1, load_body, mbind, M_bind, wrapM, on_err, on_file, zoom.
  simpl w_file. rewrite Hn, Hr2. unfold lift.
  rewrite (Parse_Serialize e d Hd), DedupKey_normalize, Hk. done.
Qed.

(** The log after loading the frames of [l]. *)
Fixpoint loaded (l : list WalEntry) (w : WAL) : WAL :=
  match l with
  | [] => w
  | e :: l =>
      match DedupKey e with
      | Ok k => loaded l (load_entry k (normalize e) w)
      | _ => w
      end
  end.

Lemma loaded_spec l w :
  Forall known_type l → mem_wf w →
  mem_wf (loaded l w) ∧ w_entries (loaded l w) = w_entries w ++ (normalize <$> l)
  ∧ w_file (loaded l w) = w_file w ∧ w_done (loaded l w) = w_done w.
Proof.
  intros Hl. revert w. induction Hl as [|e l He Hl IH]; intros w Hw; simpl.
  { by rewrite app_nil_r. }
  destruct (proj1 (DedupKey_known e) He) as [k Hk]. rewrite Hk.
  destruct (IH (load_entry k (normalize e) w)) as (Hwf & Hes & Hf & Hd).
  { by apply (mem_wf_add k (normalize e) w); [rewrite DedupKey_normalize|..]. }
  rewrite Hes, Hf, Hd. simpl. by rewrite <- app_assoc.
Qed.

Lemma loaded_set_file l f w : loaded l (set_w_file f w) = set_w_file f (loaded l w).
Proof.
  revert w. induction l as [|e l IH]; intros w; simpl; [done|].
  destruct (DedupKey e); try done. by rewrite <- IH.
Qed.

Lemma load_frames fuel l R w :
  Forall known_type l → reading (w_file w) (wal_bytes l ++ R) →
  ∃ f, load (length l + fuel) w = load fuel (set_w_file f (loaded l w))
    ∧ reading f R ∧ f_data f = f_data (w_file w).
Proof.
  intros Hl. revert w. induction Hl as [|e l He Hl IH]; intros w Hrd; simpl.
  { exists (w_file w). by rewrite set_w_file_id. }
  destruct (proj1 (DedupKey_known e) He) as [k Hk]. rewrite Hk.
  assert (wal_bytes (e :: l) = wal_frame e ++ wal_bytes l) as Hwb by done.
  rewrite Hwb, <- app_assoc in Hrd.
  destruct (load_frame (length l + fuel) e k _ w Hk Hrd) as (f & Hload & Hrd' & Hdat).
  destruct (IH (load_entry k (normalize e) (set_w_file f w))) as (f' & Hl' & Hr' & Hd'); [done|].
  exists f'. split_and!; [|done|by rewrite Hd'].
  simpl in Hload. rewrite Hload, Hl'.
  change (load_entry k (normalize e) (set_w_file f w))
    with (set_w_file f (load_entry k (normalize e) w)).
  by rewrite loaded_set_file.
Qed.

Lemma load_end fuel w :
  reading (w_file w) [] → ∃ f, load (S fuel) w = (set_w_file f w, Ok tt)
    ∧ f_data f = f_data (w_file w) ∧ f_closed f = false ∧ f_script f = []
    ∧ f_pos f = f_pos (w_file w).
Proof.
  intros (Ho & Hs & Hr & _). cbn [load]. unfold mbind, M_bind, read_length, on_file, zoom.
  unfold file_read_full. rewrite decide_False by done. unfold mbind, M_bind, next_outcome.
  rewrite Ho, Hs. unfold get_bytes. fold (f_rest (w_file w)). rewrite Hr. simpl.
  eexists. split; [done|]. simpl. split_and!; [done..|lia].
Qed.

Lemma length_wal_frame e : known_type e → 4 < length (wal_frame e).
Proof.
  intros Hk. destruct (Serialize_known e Hk) as (d & Hd & Hl).
  rewrite (wal_frame_Ok e d Hd), length_app, length_le_bytes. lia.
Qed.

Lemma length_wal_bytes l : Forall known_type l → length l ≤ length (wal_bytes l).
Proof.
  induction 1 as [|e l He Hl IH]; [done|].
  assert (wal_bytes (e :: l) = wal_frame e ++ wal_bytes l) as -> by done.
  rewrite length_app. pose proof (length_wal_frame e He). simpl. lia.
Qed.

(** Opening a file that holds the frames of [l]. *)
Lemma OpenWAL_frames l :
  Forall known_type l →
  ∃ w, OpenWAL (Ok (open_file (wal_bytes l) [])) = (None, Ok w)
    ∧ mem_wf w ∧ w_entries w = normalize <$> l ∧ w_done w = false
    ∧ f_data (w_file w) = wal_bytes l ∧ at_end (w_file w) ∧ f_script (w_file w) = [].
Proof.
  intros Hl. set (f0 := open_file (wal_bytes l) []).
  assert (reading f0 (wal_bytes l ++ [])) as Hrd by (rewrite app_nil_r; apply reading_open).
  assert (load_fuel f0 = length l + S (length (wal_bytes l) - length l)) as Hfuel.
  { unfold load_fuel; simpl. pose proof (length_wal_bytes l Hl). lia. }
  destruct (load_frames (S (length (wal_bytes l) - length l)) l [] (new_wal f0) Hl Hrd)
    as (f1 & Hl1 & Hrd1 & Hd1).
  destruct (loaded_spec l (new_wal f0) Hl (mem_wf_new f0)) as (Hwf & Hes & Hf & Hdn).
  destruct (load_end (length (wal_bytes l) - length l) (set_w_file f1 (loaded l (new_wal f0))))
    as (f2 & Hl2 & Hd2 & Ho2 & Hs2 & Hp2); [done|].
  unfold OpenWAL, wrap_err. rewrite Hfuel, Hl1, Hl2. eexists. split; [done|]. simpl.
  split_and!; [by do 2 apply mem_wf_file|done|done|by rewrite Hd2| |done].
  split; [done|]. rewrite Hp2, Hd2. simpl. destruct Hrd1 as (_ & _ & Hr1 & Hp1).
  apply (f_equal length) in Hr1. unfold f_rest in Hr1. rewrite length_drop in Hr1. simpl in Hr1. lia.
Qed.

(** Entries come back in the normal form in which they were parsed. *)
Definition all_normal (w : WAL) : Prop := Forall normal (w_entries w).

Lemma normalize_all l : Forall normal l → normalize <$> l = l.
Proof. induction 1 as [|e l [_ He] _ IH]; [done|]. by rewrite fmap_cons, He, IH. Qed.

Lemma normal_known l : Forall normal l → Forall known_type l.
Proof. intros H. by apply (Forall_impl normal); [|intros e [? _]]. Qed.

Lemma mem_wf_eq w1 w2 :
  mem_wf w1 → mem_wf w2 → w_entries w1 = w_entries w2 →
  w_set w1 = w_set w2 ∧ w_count w1 = w_count w2.
Proof.
  intros [_ S1 C1] [_ S2 C2] He. split; [|by rewrite C1, C2, He].
  apply set_eq. intros k. by rewrite S1, S2, He.
Qed.

(** A cut inside a frame makes the loop fail. *)
Lemma load_frame_cut fuel e k n w :
  DedupKey e = Ok k → 0 < n < length (wal_frame e) →
  reading (w_file w) (take n (wal_frame e)) →
  ∃ w' err, load (S fuel) w = (w', Err err)
    ∧ f_closed (w_file w') = false ∧ f_script (w_file w') = [].
Proof.
  intros Hk Hn Hrd. assert (known_type e) as Hkn by (apply DedupKey_known; eauto).
  destruct (Serialize_known e Hkn) as (d & Hd & Hl).
  rewrite (wal_frame_Ok e d Hd) in *. set (m := U32 _) in *.
  assert (Z.to_nat (uval m) = length d) as Hm
    by (unfold m; rewrite uval_to_uint_small by (simpl; lia); lia).
  rewrite length_app, length_le_bytes in Hn. cbn [load].
  unfold mbind at 1, M_bind at 1, read_length, on_file at 1, zoom at 1.
  destruct (decide (n < 4)).
  - destruct (file_read_full_short 4 _ _ Hrd) as (f & -> & Hc & Hs); [rewrite length_take; lia|].
    rewrite decide_False; [by eexists _, _|].
    intros Hnil%(f_equal length). rewrite length_take, length_app, length_le_bytes in Hnil.
    simpl in Hnil. lia.
  - rewrite take_app_ge in Hrd by (rewrite length_le_bytes; lia).
    destruct (file_read_full_app 4 _ _ _ Hrd) as (f1 & -> & Hrd1 & _); [len|].
    rewrite le_Uint32_bytes. cbn [mbind res_bind].
    unfold mbind at 1, M_bind at 1, load_body, mbind, M_bind, wrapM, on_err, on_file, zoom.
    simpl w_file. rewrite Hm. rewrite length_le_bytes in Hrd1.
    destruct (file_read_full_short (length d) _ _ Hrd1) as (f2 & -> & Hc & Hs);
      [rewrite length_take; lia|]. by eexists _, _.
Qed.

Lemma take_wal_bytes l n :
  Forall known_type l → n ≤ length (wal_bytes l) →
  ∃ i, (n = length (wal_bytes (take i l)) ∧ take n (wal_bytes l) = wal_bytes (take i l))
    ∨ (∃ e m, l !! i = Some e ∧ 0 < m < length (wal_frame e)
         ∧ n = length (wal_bytes (take i l)) + m
         ∧ take n (wal_bytes l) = wal_bytes (take i l) ++ take m (wal_frame e)).
Proof.
  intros Hl. revert n. induction Hl as [|e l He Hl IH]; intros n Hn.
  { exists 0. left. by assert (n = 0) as -> by (simpl in Hn; lia). }
  assert (∀ l, wal_bytes (e :: l) = wal_frame e ++ wal_bytes l) as Hc by done.
  rewrite Hc, length_app in Hn.
  destruct (decide (n = 0)) as [->|]; [exists 0; left; done|].
  destruct (decide (n < length (wal_frame e))).
  - exists 0. right. exists e, n. rewrite Hc, take_app_le by lia. split_and!; [done|lia..|done|done].
  - destruct (IH (n - length (wal_frame e))) as [i Hi]; [lia|]. exists (S i). simpl.
    rewrite !Hc, take_app_ge, length_app by lia.
    destruct Hi as [[Hn' ->]|(e' & m & Hi & Hm & Hn' & ->)]; [left|right].
    + split; [lia|done].
    + exists e', m. split_and!; [done|lia..|]. by rewrite <- app_assoc.
Qed.

(** ** Following the log *)

Lemma Append_extends e w :
  w_entries w `prefix_of` w_entries (fst (Append e w))
  ∧ w_done (fst (Append e w)) = w_done w
  ∧ ((w_notify (fst (Append e w)) = w_notify w ∧ w_count (fst (Append e w)) = w_count w)
     ∨ w_notify (fst (Append e w)) = S (w_notify w)).
Proof.
  destruct (Append e w) as [w' r] eqn:H. simpl.
  destruct (Append_cases _ _ _ _ H) as [(?&?&?&->&_)|[(k&f&Hk&?&->&_)|(?&?&->&_)]]; simpl; auto.
  split_and!; [by eexists|done|by right].
Qed.

Lemma Close_fields w :
  w_entries (fst (Close w)) = w_entries w ∧ w_notify (fst (Close w)) = w_notify w
  ∧ w_count (fst (Close w)) = w_count w ∧ w_done (fst (Close w)) = true.
Proof.
  unfold Close, mbind, M_bind, modify, on_file, zoom; simpl. by destruct (file_close _).
Qed.

Lemma Get_Some w i e :
  Get w i = Ok (Some e) →
  (uval i < uval (w_count w))%Z ∧ w_entries w !! Z.to_nat (uval i) = Some e.
Proof.
  unfold Get. case_decide; [done|]. destruct (_ !! _) eqn:He; [|done].
  intros [= ->]. split; [lia|done].
Qed.

Lemma Get_total w i : mem_wf w → ∃ o, Get w i = Ok o.
Proof.
  intros [_ _ Hc]. unfold Get. case_decide as Hlt; [by eexists|].
  destruct (w_entries w !! Z.to_nat (uval i)) eqn:He; [by eexists|].
  apply lookup_ge_None in He. rewrite Hc in Hlt. simpl in Hlt.
  pose proof (uint_bounds i).
  pose proof (Z.mod_le (Z.of_nat (length (w_entries w))) (2 ^ 32)). lia.
Qed.

(** The invariant of a subscriber that started at [i0] and has taken [tr]. *)
Record follow_inv (i0 : u32) (tr : list (WalEntry * u32)) (c : WAL * (next_pc * WALStream)) : Prop := {
  fi_mem : mem_wf c.1;
  fi_trace j e i : tr !! j = Some (e, i) →
    uval i = (uval i0 + Z.of_nat j)%Z ∧ w_entries c.1 !! Z.to_nat (uval i) = Some e;
  fi_pc : match c.2.1 with
          | ReadNotify => uval (st_index c.2.2) = (uval i0 + Z.of_nat (length tr))%Z
          | CallGet ch => uval (st_index c.2.2) = (uval i0 + Z.of_nat (length tr))%Z
              ∧ ch ≤ w_notify c.1
          | Select ch => uval (st_index c.2.2) = (uval i0 + Z.of_nat (length tr))%Z
              ∧ ch ≤ w_notify c.1
              ∧ (ch = w_notify c.1 → (uval (w_count c.1) <= uval (st_index c.2.2))%Z)
          | Returned (Ok (e, i)) => uval i = (uval i0 + Z.of_nat (length tr))%Z
              ∧ uval (st_index c.2.2) = (uval i + 1)%Z
              ∧ w_entries c.1 !! Z.to_nat (uval i) = Some e
          | Returned r => returns r
          end;
}.

Lemma follow_inv_grow i0 tr w w' p :
  mem_wf w' → w_entries w `prefix_of` w_entries w' →
  (w_notify w' = w_notify w ∧ w_count w' = w_count w ∨ w_notify w' = S (w_notify w)) →
  follow_inv i0 tr (w, p) → follow_inv i0 tr (w', p).
Proof.
  intros Hw' Hpre Hn [Hw Htr Hpc]. split; simpl in *; [done| |].
  - intros j e i Hj. destruct (Htr j e i Hj). split; [done|]. by eapply prefix_lookup_Some.
  - destruct (p.1) as [|ch|ch|[[e i]| | |]]; try done.
    + destruct Hpc. split; [done|]. destruct Hn as [[? _]|?]; lia.
    + destruct Hpc as (?&?&?). destruct Hn as [[-> ->]| ->]; [done|]. split_and!; [done|lia..].
    + destruct Hpc as (?&?&?). split_and!; [done..|]. by eapply prefix_lookup_Some.
Qed.

Lemma follow_inv_step i0 tr c o c' :
  follow_inv i0 tr c → follow_step c o c' → follow_inv i0 (tr ++ option_list o) c'.
Proof.
  intros Hinv Hstep. destruct Hstep as [w p p' Hn|w e i st|w e p|w p|w pc st]; simpl;
    rewrite ?app_nil_r.
  - destruct Hinv as [Hw Htr Hpc]. split; simpl in *; [done..|].
    destruct Hn as [st|ch st e Hg|ch st Hg|ch st Hg|ch st Hlt|ch st Hd|ch st Hd]; simpl in *.
    + by split.
    + apply Get_Some in Hg as [Hlt He]. destruct Hpc as [Hidx _]. split_and!; [done| |done].
      apply (uincr_small (st_index st)). pose proof (uint_bounds (w_count w)). lia.
    + destruct Hpc. split_and!; [done..|intros _]. unfold Get in Hg.
      case_decide; [done|]. by destruct (_ !! _).
    + exfalso. destruct (Get_total w (st_index st) Hw) as [o Ho]. congruence.
    + by destruct Hpc.
    + done.
    + done.
  - destruct Hinv as [Hw Htr (Hi & Hidx & He)]. split; simpl in *; [done| |].
    + intros j e' i' [Hj|[Hj Hx]]%lookup_app_Some; [by apply Htr|].
      apply list_lookup_singleton_Some in Hx as [Hz [= <- <-]].
      split; [|done]. rewrite Hi. lia.
    + rewrite length_app. simpl. lia.
  - destruct (Append_extends e w) as (Hp & _ & Hn).
    eapply follow_inv_grow; [|done..|done]. by apply mem_wf_Append, (fi_mem _ _ _ Hinv).
  - destruct (Close_fields w) as (He & Hn & Hc & _).
    eapply follow_inv_grow; [by apply mem_wf_Close, (fi_mem _ _ _ Hinv)| | |done].
    + by rewrite He.
    + by left.
  - destruct Hinv as [Hw Htr Hpc]. by split.
Qed.

Lemma follow_run_inv w0 done i0 tr c :
  mem_wf w0 → follow_run (w0, (ReadNotify, Subscribe done i0)) tr c → follow_inv i0 tr c.
Proof.
  intros Hw. induction 1 as [|tr c o c' _ IH Hs]; [|by eapply follow_inv_step].
  split; simpl; [done|done|lia].
Qed.

(** ** Refinement of the abstract log *)

Lemma mem_wf_key_in w e k :
  mem_wf w → DedupKey e = Ok k → (k ∈ w_set w ↔ DedupKey e ∈ DedupKey <$> w_entries w).
Proof.
  intros [_ Hset _] Hk. rewrite Hset, Hk, list_elem_of_fmap. unfold has_key.
  split; intros (e' & ? & ?); exists e'; eauto.
Qed.

Lemma Append_entries e w w' r :
  mem_wf w → Append e w = (w', r) →
  (r = Ok tt ∧ known_type e ∧ w_entries w' = aappend e (w_entries w))
  ∨ (∃ err f, r = Err err ∧ w' = set_w_file f w).
Proof.
  intros Hw H. unfold aappend.
  destruct (Append_cases _ _ _ _ H) as [(k&Hk&Hin&->&->)|[(k&f&Hk&Hnin&->&->)|(f&err&->&->)]].
  - left. split_and!; [done|apply DedupKey_known; eauto|].
    rewrite decide_True; [done|]. by apply (mem_wf_key_in w e k).
  - left. split_and!; [done|apply DedupKey_known; eauto|].
    rewrite decide_False; [done|]. by rewrite <- (mem_wf_key_in w e k).
  - right. eauto.
Qed.

Lemma aappend_keys e l :
  NoDup (DedupKey <$> l) → NoDup (DedupKey <$> aappend e l).
Proof.
  intros Hl. unfold aappend. case_decide as Hin; [done|].
  rewrite fmap_app. apply NoDup_app. split_and!; [done| |apply NoDup_singleton].
  intros x Hx ->%list_elem_of_singleton. done.
Qed.

Lemma aappend_has e l : DedupKey e ∈ DedupKey <$> aappend e l.
Proof.
  unfold aappend. case_decide; [done|]. rewrite fmap_app. apply elem_of_app. right. by left.
Qed.

Lemma aappend_prefix e l : l `prefix_of` aappend e l.
Proof. unfold aappend. case_decide; [done|by eexists]. Qed.

Lemma Append_keys_nodup e w w' r :
  mem_wf w → keys_nodup w → Append e w = (w', r) → keys_nodup w'.
Proof.
  intros Hw Hk H. destruct (Append_entries _ _ _ _ Hw H) as [(_&_&He)|(err&f&_&->)]; [|done].
  unfold keys_nodup. rewrite He. by apply aappend_keys.
Qed.

Lemma Append_all_normal e w w' r :
  mem_wf w → normal e → all_normal w → Append e w = (w', r) → all_normal w'.
Proof.
  intros Hw He Hn H. destruct (Append_entries _ _ _ _ Hw H) as [(_&_&Hes)|(err&f&_&->)]; [|done].
  unfold all_normal, aappend in *. rewrite Hes. case_decide; [done|].
  apply Forall_app; split; [done|]. by apply Forall_singleton.
Qed.

(** Reopening the file of a consistent log gives the log back. *)
Lemma reopen w :
  mem_wf w → all_normal w → disk_wf w →
  ∃ w2, OpenWAL (Ok (open_file (f_data (w_file w)) [])) = (None, Ok w2)
  ∧ w_entries w2 = w_entries w ∧ w_set w2 = w_set w ∧ w_count w2 = w_count w
  ∧ mem_wf w2 ∧ disk_wf w2 ∧ w_done w2 = false ∧ f_closed (w_file w2) = false.
Proof.
  intros Hw Hn [Hd _]. rewrite Hd.
  destruct (OpenWAL_frames (w_entries w)) as (w2 & Ho & Hw2 & He & Hdn & Hdat & [Hcl Hend] & _);
    [by apply normal_known|].
  rewrite normalize_all in He by done. destruct (mem_wf_eq w2 w) as [Hs Hc]; [done..|].
  exists w2. split_and!; try done. split; [by rewrite Hdat, He|done].
Qed.

(** A disk that refuses nothing has an empty script, and keeps it. *)
Lemma Append_script e w :
  f_closed (w_file w) = false → f_script (w_file w) = [] →
  f_script (w_file (fst (Append e w))) = [].
Proof.
  intros Ho Hs. destruct (decide (known_type e)) as [Hk|Hk].
  - destruct (Append_known e w Hk) as (k & d & lb & _ & _ & _ & ->).
    unfold append_locked, gets, mbind, M_bind. destruct (bool_decide (k ∈ w_set w)); [done|].
    destruct w as [dn [dat p c s] st es n nt]; simpl in *; subst.
    by unfold write_record, rollback, wrapM, on_err, on_file, zoom, file_seek_current, file_write,
      file_sync, syscall, next_outcome, mbind, M_bind.
  - by rewrite Append_unknown.
Qed.

(** *** Only [Close] cancels the log and closes its file *)

Definition life_of (w : WAL) : bool * bool := (w_done w, f_closed (w_file w)).

Lemma keeps_on_file {A} (m : M file A) : keeps f_closed m → keeps life_of (on_file m).
Proof.
  intros Hm w. specialize (Hm (w_file w)). unfold on_file, zoom, life_of.
  destruct (m (w_file w)). simpl in *. by rewrite Hm.
Qed.

Lemma keeps_syscall {A} (m : M file A) : keeps f_closed m → keeps f_closed (syscall m).
Proof.
  intros Hm f. unfold syscall, next_outcome, mbind, M_bind. destruct (f_closed f) eqn:Hc; [done|].
  destruct (f_script f) as [|[] ?]; rewrite ?Hm; done.
Qed.

Lemma file_write_open bs : keeps f_closed (file_write bs).
Proof.
  intros f. unfold file_write, next_outcome, put_bytes, mbind, M_bind.
  destruct (f_closed f) eqn:Hc; [done|]. by destruct (f_script f) as [|[] ?].
Qed.

Lemma file_read_open n : keeps f_closed (file_read_full n).
Proof.
  intros f. unfold file_read_full. case_decide; [done|]. unfold next_outcome, get_bytes, mbind, M_bind.
  destruct (f_closed f) eqn:Hc; [done|]. destruct (f_script f) as [|[] ?]; by case_match.
Qed.

Lemma rollback_life {A} pos msg (m : M file A) :
  keeps f_closed m → keeps life_of (rollback pos msg (on_file m)).
Proof.
  intros Hm. apply keeps_on_err; [by apply keeps_on_file|]. intros e.
  assert (keeps life_of (on_file (file_truncate pos))) by (by apply keeps_on_file, keeps_syscall).
  assert (keeps life_of (on_file (file_seek_start pos))) by (by apply keeps_on_file, keeps_syscall).
  solve_keeps.
Qed.

Lemma Append_life e w : life_of (fst (Append e w)) = life_of w.
Proof.
  assert (∀ pos bs msg, keeps life_of (rollback pos msg (on_file (file_write bs))))
    by (intros; apply rollback_life, file_write_open).
  assert (∀ pos msg, keeps life_of (rollback pos msg (on_file file_sync)))
    by (intros; by apply rollback_life, keeps_syscall).
  assert (keeps life_of (on_file file_seek_current)) by (by apply keeps_on_file, keeps_syscall).
  assert (∀ k, keeps life_of (modify (commit k e))) by done.
  revert w. fold (keeps life_of (Append e)). unfold Append, append_locked, write_record. solve_keeps.
  by destruct a2; solve_keeps.
Qed.

Lemma OpenWAL_life f l : snd (OpenWAL (Ok f)) = Ok l → life_of l = (false, f_closed f).
Proof.
  assert (∀ n, keeps life_of (on_file (file_read_full n))) as Hr
    by (intros; apply keeps_on_file, file_read_open).
  assert (keeps life_of read_length) as Hl.
  { intros w. specialize (Hr 4 w). unfold read_length.
    by destruct (on_file (file_read_full 4) w) as [w' [|[]| |]]. }
  assert (∀ n, keeps life_of (load_body n)) as Hb.
  { intros n. unfold load_body. assert (∀ k e, keeps life_of (modify (load_entry k e))) by done. solve_keeps. }
  assert (∀ fuel, keeps life_of (load fuel)) as Hload.
  { intros fuel. induction fuel as [|fuel IH]; cbn [load]; [done|]. solve_keeps. destruct a; solve_keeps. }
  unfold OpenWAL, wrap_err. specialize (Hload (load_fuel f) (new_wal f)).
  destruct (load (load_fuel f) (new_wal f)) as [w [[]|e| |]]; simpl in *; try done. by intros [= <-].
Qed.

(** ** Logs in use *)

Definition log_inv (l : WAL) : Prop := mem_wf l ∧ keys_nodup l ∧ all_normal l.

(** A log whose file is in step with it, on a disk that refuses nothing. *)
Definition synced (l : WAL) : Prop :=
  log_inv l ∧ disk_wf l ∧ f_closed (w_file l) = false ∧ f_script (w_file l) = [].

Lemma log_inv_Append e l l' r : normal e → log_inv l → Append e l = (l', r) → log_inv l'.
Proof.
  intros He (Hm & Hk & Hn) Ha. split_and!.
  - change l' with (fst (l', r)). rewrite <- Ha. by apply mem_wf_Append.
  - by eapply Append_keys_nodup.
  - by eapply Append_all_normal.
Qed.

Lemma open_stored data l :
  data = wal_bytes l → Forall normal l → NoDup (DedupKey <$> l) →
  ∃ w, OpenWAL (Ok (open_file data [])) = (None, Ok w) ∧ w_entries w = l ∧ synced w.
Proof.
  intros -> Hn Hk.
  destruct (OpenWAL_frames l) as (w & Ho & Hw & He & _ & Hd & [Hc Hp] & Hs); [by apply normal_known|].
  rewrite normalize_all in He by done. exists w. split; [done|]. split; [done|].
  split; [split; [done|]|split; [|done]]; unfold keys_nodup, all_normal; rewrite ?He; [done|].
  split; [by rewrite Hd, He|done].
Qed.

Lemma synced_Append e l : normal e → synced l → synced (fst (Append e l)).
Proof.
  intros He (Hl & Hd & Hc & Hs). destruct (Append e l) as [l' r] eqn:Ha. simpl.
  destruct (disk_wf_Append e l l' r Hd Hc) as [Hd' Hc']; [by rewrite Hs; simpl; lia|done|].
  split; [by eapply log_inv_Append|]. split; [done|]. split; [done|].
  change l' with (fst (l', r)). rewrite <- Ha. by apply Append_script.
Qed.

(** An open file on a disk that refuses nothing accepts every entry of a known
    type. *)
Lemma Append_accepted e l :
  known_type e → f_closed (w_file l) = false → f_script (w_file l) = [] →
  snd (Append e l) = Ok tt.
Proof.
  intros Hk Ho Hs. destruct (Append_known e l Hk) as (k & d & lb & _ & _ & _ & ->).
  unfold append_locked, gets, mbind, M_bind. destruct (bool_decide (k ∈ w_set l)); [done|].
  destruct l as [dn [dat p c s] st es n nt]; simpl in *; subst.
  by unfold write_record, rollback, wrapM, on_err, on_file, zoom, file_seek_current, file_write,
    file_sync, syscall, next_outcome, mbind, M_bind.
Qed.

(** [Append] succeeds exactly when the log holds the entry's key afterwards. *)
Lemma Append_exact e k l l' r :
  mem_wf l → DedupKey e = Ok k → Append e l = (l', r) →
  (r = Ok tt ↔ has_key k (w_entries l'))
  ∧ w_entries l' = (if decide (r = Ok tt) then aappend e (w_entries l) else w_entries l)
  ∧ (has_key k (w_entries l) → r = Ok tt ∧ l' = l).
Proof.
  intros Hw Hk Ha. assert (mem_wf l') as Hw'.
  { change l' with (fst (l', r)). rewrite <- Ha. by apply mem_wf_Append. }
  assert (known_type e) as Hkn by (apply DedupKey_known; eauto).
  destruct (Append_known e l Hkn) as (k' & d & lb & Hk' & _ & _ & Hlk).
  rewrite Hk in Hk'. apply Ok_inj in Hk' as <-.
  assert (has_key k (w_entries l) → r = Ok tt ∧ l' = l) as Hdup.
  { intros Hin%(mem_set l Hw). rewrite Hlk in Ha. unfold append_locked, gets, mbind, M_bind in Ha.
    rewrite bool_decide_true in Ha by done. by injection Ha. }
  split; [|split; [|done]];
    destruct (Append_entries e l l' r Hw Ha) as [(Hr & _ & He)|(err & f & Hr & ->)].
  - split; [intros _|done]. rewrite <- (mem_set l' Hw'), (mem_wf_key_in l' e k Hw' Hk), He.
    apply aappend_has.
  - rewrite Hr. split; [done|]. intros Hin. destruct (Hdup Hin) as [Hx _]. by rewrite Hr in Hx.
  - by rewrite decide_True.
  - by rewrite Hr, decide_False.
Qed.

(** With such a disk an append of a well-formed entry succeeds. *)
Lemma Append_synced e l :
  normal e → synced l →
  ∃ l', Append e l = (l', Ok tt) ∧ w_entries l' = aappend e (w_entries l) ∧ synced l'.
Proof.
  intros He Hl. pose proof (synced_Append e l He Hl) as Hl'. pose proof Hl as (Hi & _ & Ho & Hs).
  destruct (Append e l) as [l' r] eqn:Ha. exists l'.
  assert (r = Ok tt) as ->.
  { change r with (snd (l', r)). rewrite <- Ha. by apply Append_accepted; [apply He|..]. }
  destruct (Append_entries e l l' _ (proj1 Hi) Ha) as [(_ & _ & ?)|(?&?&[=]&_)]. done.
Qed.

(** ** What a blocked subscriber has seen *)

Lemma follow_inv_taken i0 tr c :
  follow_inv i0 tr c →
  tr.*1 = take (length tr) (drop (Z.to_nat (uval i0)) (w_entries c.1)).
Proof.
  intros [_ Htr _]. apply list_eq. intros j. rewrite list_lookup_fmap.
  destruct (tr !! j) as [[e i]|] eqn:Hj; simpl.
  - destruct (Htr j e i Hj) as [Hi He]. pose proof (lookup_lt_Some _ _ _ Hj).
    rewrite lookup_take, lookup_drop. case_decide; [|lia]. rewrite <- He. f_equal.
    pose proof (uint_bounds i0). lia.
  - apply lookup_ge_None in Hj. symmetry. apply lookup_ge_None. rewrite length_take. lia.
Qed.

Lemma count_small w :
  mem_wf w → (Z.of_nat (length (w_entries w)) < 2 ^ 32)%Z →
  uval (w_count w) = Z.of_nat (length (w_entries w)).
Proof. intros [_ _ Hc] Hl. rewrite Hc. apply uval_to_uint_small. simpl. lia. Qed.

(** *** Opening a cut file *)

Lemma OpenWAL_complete l :
  Forall normal l →
  ∃ w, OpenWAL (Ok (open_file (wal_bytes l) [])) = (None, Ok w)
  ∧ w_entries w = l ∧ mem_wf w ∧ f_data (w_file w) = wal_bytes l ∧ f_closed (w_file w) = false.
Proof.
  intros Hn. destruct (OpenWAL_frames l) as (w & Ho & Hw & He & _ & Hd & [Hcl _] & _); [by apply normal_known|].
  exists w. rewrite normalize_all in He by done. done.
Qed.

Lemma OpenWAL_cut l e m :
  Forall normal l → normal e → 0 < m < length (wal_frame e) →
  ∃ f err, OpenWAL (Ok (open_file (wal_bytes l ++ take m (wal_frame e)) [])) = (Some f, Err err)
  ∧ f_closed f = true.
Proof.
  intros Hn [Hke _] Hm. destruct (proj1 (DedupKey_known e) Hke) as [k Hk]. set (f0 := open_file _ []).
  assert (load_fuel f0 = length l + S (length (f_data f0) - length l)) as Hfuel.
  { unfold load_fuel. simpl. rewrite length_app.
    pose proof (length_wal_bytes l (normal_known _ Hn)). lia. }
  destruct (load_frames (S (length (f_data f0) - length l)) l (take m (wal_frame e)) (new_wal f0))
    as (f1 & Hl1 & Hrd1 & _); [by apply normal_known|apply reading_open|].
  destruct (load_frame_cut (length (f_data f0) - length l) e k m (set_w_file f1 (loaded l (new_wal f0))))
    as (w' & err & Hl2 & _); [done..|].
  assert (load (load_fuel f0) (new_wal f0) = (w', Err err)) as Hload by (by rewrite Hfuel, Hl1).
  unfold OpenWAL, wrap_err. rewrite Hload. eexists _, err. split; [done|].
  unfold Close, mbind, M_bind, modify, on_file, zoom. simpl.
  by destruct (file_close_cases (w_file w')) as (s & r & -> & _).
Qed.

(** ** Properties *)

Definition ex_wal : WAL := new_wal (open_file [] []).
Definition ex_wal1 : WAL := fst (Append ex_item ex_wal).

(** C8: [Append] implements the abstract deduplicated log.  When it returns nil
    the list of entries is the old one, extended by the entry unless its key was
    there; when it returns an error (unknown tag, or any failing system call)
    the entries, the key set, the count and the notification channel are as
    before.  It always returns, and it keeps the invariants that the set holds
    exactly the keys of the entries, that the counter is the length modulo 2^32
    and that no two entries share a key. *)
Theorem append_refines_log e w w' r :
  mem_wf w → keys_nodup w → Append e w = (w', r) →
  mem_wf w' ∧ keys_nodup w'
  ∧ ((r = Ok tt ∧ known_type e ∧ w_entries w' = aappend e (w_entries w))
     ∨ (∃ err, r = Err err ∧ w_entries w' = w_entries w ∧ w_set w' = w_set w
        ∧ w_count w' = w_count w ∧ w_notify w' = w_notify w)).
Proof.
  intros Hw Hk H. split_and!.
  - change w' with (fst (w', r)). rewrite <- H. by apply mem_wf_Append.
  - by apply (Append_keys_nodup e w w' r).
  - destruct (Append_entries _ _ _ _ Hw H) as [?|(err&f&->&->)]; [by left|right]. by exists err.
Qed.

Lemma append_refines_log_witness :
  let '(w', r) := Append ex_event ex_wal1 in
  mem_wf w' ∧ keys_nodup w'
  ∧ ((r = Ok tt ∧ known_type ex_event ∧ w_entries w' = aappend ex_event (w_entries ex_wal1))
     ∨ (∃ err, r = Err err ∧ w_entries w' = w_entries ex_wal1 ∧ w_set w' = w_set ex_wal1
        ∧ w_count w' = w_count ex_wal1 ∧ w_notify w' = w_notify ex_wal1)).
Proof.
  destruct (Append ex_event ex_wal1) as [w' r] eqn:H.
  apply (append_refines_log ex_event ex_wal1 w' r); [| |exact H].
  - apply mem_wf_Append, mem_wf_new.
  - unfold keys_nodup. apply (bool_decide_unpack _). vm_compute. exact I.
Defined.

(** C3: durability and atomicity.  If the disk refuses at most one system call
    during [Append], then whether [Append] succeeded or failed, opening the file
    it leaves behind gives back exactly the log in memory: entries, key set and
    count.  In particular an entry whose append returned nil is on disk, and a
    failed append leaves no partial record. *)
Theorem append_durable e w w' r :
  mem_wf w → all_normal w → disk_wf w → f_closed (w_file w) = false → normal e →
  faults (f_script (w_file w)) ≤ 1 →
  Append e w = (w', r) →
  ∃ w2, OpenWAL (Ok (open_file (f_data (w_file w')) [])) = (None, Ok w2)
  ∧ w_entries w2 = w_entries w' ∧ w_set w2 = w_set w' ∧ w_count w2 = w_count w'
  ∧ (r = Ok tt → DedupKey e ∈ DedupKey <$> w_entries w2).
Proof.
  intros Hw Hn Hd Hc He Hf H.
  assert (mem_wf w') as Hw' by (change w' with (fst (w', r)); rewrite <- H; by apply mem_wf_Append).
  assert (all_normal w') by (by apply (Append_all_normal e w w' r)).
  destruct (disk_wf_Append _ _ _ _ Hd Hc Hf H) as [Hd' _].
  destruct (reopen w') as (w2 & Ho & He2 & Hs2 & Hc2 & _); [done..|].
  exists w2. split_and!; [done..|]. rewrite He2. intros ->.
  destruct (Append_entries _ _ _ _ Hw H) as [(_&_&->)|(?&?&[=]&_)].
  unfold aappend. case_decide; [done|]. rewrite fmap_app. set_solver.
Qed.

(** The disk refuses the second write after three bytes. *)
Definition ex_wal_faulty : WAL :=
  set_w_file (File (f_data (w_file ex_wal1)) (f_pos (w_file ex_wal1)) false
    [Done; Done; Fails 3 28]) ex_wal1.

Lemma append_durable_witness :
  let '(w', r) := Append ex_event ex_wal_faulty in
  (∃ err, r = Err err) ∧
  ∃ w2, OpenWAL (Ok (open_file (f_data (w_file w')) [])) = (None, Ok w2)
  ∧ w_entries w2 = w_entries w' ∧ w_set w2 = w_set w' ∧ w_count w2 = w_count w'
  ∧ (r = Ok tt → DedupKey ex_event ∈ DedupKey <$> w_entries w2).
Proof.
  destruct (Append ex_event ex_wal_faulty) as [w' r] eqn:H. split.
  - assert (is_ok r = false ∧ returns r) as [Hr Hret].
    { assert (r = snd (Append ex_event ex_wal_faulty)) as -> by (rewrite H; reflexivity).
      split; [vm_compute; reflexivity|apply Append_returns]. }
    destruct r; [discriminate Hr|eauto|by destruct Hret..].
  - apply (append_durable ex_event ex_wal_faulty w' r); [| | | | | |exact H].
    + apply mem_wf_file, mem_wf_Append, mem_wf_new.
    + constructor; [apply ex_item_normal|constructor].
    + split; vm_compute; reflexivity.
    + reflexivity.
    + apply ex_event_normal.
    + vm_compute. constructor.
Defined.

(** C27: exactly the complete logs are opened.  If the file of a log is cut at any
    byte, [OpenWAL] succeeds with the entries before the cut when the cut falls
    between two records (nothing is lost but what was cut off), and returns an error
    with the file closed when it falls inside a record: a torn log is never read as a
    different log, and never cut back to its complete records either. *)
Theorem open_wal_torn l n :
  Forall normal l → n ≤ length (wal_bytes l) →
  (∀ i, n = length (wal_bytes (take i l)) →
     ∃ w, OpenWAL (Ok (open_file (take n (wal_bytes l)) [])) = (None, Ok w)
     ∧ w_entries w = take i l ∧ mem_wf w ∧ f_data (w_file w) = take n (wal_bytes l) ∧ f_closed (w_file w) = false)
  ∧ ((∀ i, n ≠ length (wal_bytes (take i l))) →
     ∃ f err, OpenWAL (Ok (open_file (take n (wal_bytes l)) [])) = (Some f, Err err) ∧ f_closed f = true).
Proof.
  intros Hn Hle. split.
  - intros i ->. assert (take (length (wal_bytes (take i l))) (wal_bytes l) = wal_bytes (take i l)) as ->.
    { rewrite <- (take_drop i l) at 2. by rewrite wal_bytes_app, take_app_length. }
    by apply OpenWAL_complete, Forall_take.
  - intros Hcut. destruct (take_wal_bytes l n) as [i [[Hlen _]|(e & m & He & Hm & Hlen & ->)]];
      [by apply normal_known|done|by destruct (Hcut i)|].
    eapply OpenWAL_cut; [by apply Forall_take|by eapply Forall_lookup_1|done].
Qed.

Lemma open_wal_torn_witness :
  let l := [ex_item; ex_event] in
  let n := length (wal_bytes [ex_item]) in
  Forall normal l ∧ S n ≤ length (wal_bytes l)
  ∧ (∃ w, OpenWAL (Ok (open_file (take n (wal_bytes l)) [])) = (None, Ok w) ∧ w_entries w = [ex_item])
  ∧ (∃ f err, OpenWAL (Ok (open_file (take (S n) (wal_bytes l)) [])) = (Some f, Err err) ∧ f_closed f = true).
Proof.
  intros l n. assert (Forall normal l) as Hl.
  { constructor; [apply ex_item_normal|constructor; [apply ex_event_normal|constructor]]. }
  assert (S n ≤ length (wal_bytes l)) as Hn by (apply (bool_decide_unpack _); vm_compute; exact I).
  split; [exact Hl|]. split; [exact Hn|]. split.
  - destruct (proj1 (open_wal_torn l n Hl (le_S_n _ _ (le_S _ _ Hn))) 1 eq_refl) as (w & H1 & H2 & _).
    exists w. split; [exact H1|exact H2].
  - apply (proj2 (open_wal_torn l (S n) Hl Hn)). intros i Hi.
    assert (∀ k, S n ≠ length (wal_bytes (take k l))) as Hk; [|exact (Hk i Hi)].
    intros [|[|[|k]]]; apply (bool_decide_unpack _); vm_compute; exact I.
Defined.

(** C9: a subscriber takes the log in order.  However appends, [Close] and
    cancellation interleave with [Next], what it has taken is a contiguous run
    of the log that starts at the index it subscribed at, each entry with its
    own index, and [Next] never panics. *)
Theorem stream_in_order w0 done i0 tr w pc st :
  mem_wf w0 →
  follow_run (w0, (ReadNotify, Subscribe done i0)) tr (w, (pc, st)) →
  tr.*1 = take (length tr) (drop (Z.to_nat (uval i0)) (w_entries w))
  ∧ (∀ j e i, tr !! j = Some (e, i) → uval i = (uval i0 + Z.of_nat j)%Z)
  ∧ pc ≠ Returned Panic.
Proof.
  intros Hw Hrun. pose proof (follow_run_inv _ _ _ _ _ Hw Hrun) as Hinv. split_and!.
  - exact (follow_inv_taken _ _ _ Hinv).
  - intros j e i Hj. apply (fi_trace _ _ _ Hinv _ _ _ Hj).
  - intros ->. by destruct (fi_pc _ _ _ Hinv : returns _) as [? _].
Qed.

(** No lost wake-up.  A subscriber that can make no step in its [select] is
    not cancelled, its log is not closed, and it has taken every entry of the log
    from its start index on: an append between its reading of [wal.notify] and
    its blocking is never missed. *)
Theorem stream_no_lost_wakeup w0 done i0 tr w ch st :
  mem_wf w0 →
  follow_run (w0, (ReadNotify, Subscribe done i0)) tr (w, (Select ch, st)) →
  (Z.of_nat (length (w_entries w)) < 2 ^ 32)%Z →
  (∀ p', ¬ next_step w (Select ch, st) p') →
  w_done w = false ∧ st_done st = false ∧ tr.*1 = drop (Z.to_nat (uval i0)) (w_entries w).
Proof.
  intros Hw Hrun Hlen Hblock. pose proof (follow_run_inv _ _ _ _ _ Hw Hrun) as Hinv.
  pose proof (fi_pc _ _ _ Hinv) as (Hidx & Hle & Heq). simpl in *.
  assert (ch = w_notify w) as Hch.
  { destruct (decide (ch = w_notify w)); [done|].
    destruct (Hblock (ReadNotify, st)). constructor. lia. }
  split_and!.
  - destruct (w_done w) eqn:E; [|done]. edestruct Hblock. by apply next_closed.
  - destruct (st_done st) eqn:E; [|done]. edestruct Hblock. by apply next_canceled.
  - rewrite (follow_inv_taken _ _ _ Hinv). simpl. apply take_ge.
    rewrite length_drop. specialize (Heq Hch).
    rewrite (count_small w (fi_mem _ _ _ Hinv) Hlen), Hidx in Heq. lia.
Qed.

(** A subscriber that reads the channel of the empty log, lets an append pass,
    then finds the entry, takes it and blocks. *)
Lemma ex_follow_run :
  follow_run (ex_wal, (ReadNotify, Subscribe false (U32 0))) [(ex_item, U32 0)]
    (ex_wal1, (Select 1, MkStream false (U32 1))).
Proof.
  set (c0 := (ex_wal, (ReadNotify, Subscribe false (U32 0)))).
  assert (follow_run c0 [] (ex_wal1, (CallGet 0, Subscribe false (U32 0)))) as H.
  { change (@nil (WalEntry * u32)) with (([] ++ option_list None) ++ option_list (@None (WalEntry * u32))).
    eapply run_step; [eapply run_step; [apply run_start|apply follow_next, next_read_notify]|].
    apply follow_append. }
  change [(ex_item, U32 0)]
    with (((([] ++ option_list None) ++ option_list (Some (ex_item, U32 0))) ++ option_list None)
          ++ option_list (@None (WalEntry * u32))).
  eapply run_step; [eapply run_step; [eapply run_step; [eapply run_step; [exact H|]|]|]|].
  - apply follow_next, (next_get_some ex_wal1 0 (Subscribe false (U32 0)) ex_item). reflexivity.
  - apply follow_again.
  - apply follow_next, next_read_notify.
  - apply follow_next, next_get_none. reflexivity.
Qed.

Lemma stream_in_order_witness :
  [(ex_item, U32 0)].*1 = take 1 (drop 0 (w_entries ex_wal1))
  ∧ (∀ j e i, [(ex_item, U32 0)] !! j = Some (e, i) → uval i = (uval (U32 0) + Z.of_nat j)%Z)
  ∧ Select 1 ≠ Returned Panic.
Proof.
  apply (stream_in_order ex_wal false (U32 0) [(ex_item, U32 0)] ex_wal1 (Select 1)
    (MkStream false (U32 1))); [apply mem_wf_new|apply ex_follow_run].
Defined.

Lemma stream_no_lost_wakeup_witness :
  w_done ex_wal1 = false ∧ st_done (MkStream false (U32 1)) = false
  ∧ [(ex_item, U32 0)].*1 = drop (Z.to_nat (uval (U32 0))) (w_entries ex_wal1).
Proof.
  apply (stream_no_lost_wakeup ex_wal false (U32 0) [(ex_item, U32 0)] ex_wal1 1
    (MkStream false (U32 1))); [apply mem_wf_new|apply ex_follow_run|reflexivity|].
  intros p' Hs. inversion Hs; subst; simpl in *; [|discriminate..].
  match goal with H : 1 < _ |- _ => vm_compute in H; lia end.
Defined.
