(* ===== verification/Events.v ===== *)
(** * Event sinks (server/internal/events)

    The [Sink] interface, the null sink and the NATS sink: a bounded queue that
    drops events when it is full and a goroutine that publishes them.  The NATS
    client itself is outside the repository: whether a connection attempt or a
    publication succeeds is not determined here. *)

From stdpp Require Import base gmap sets strings vector numbers tactics list.
From Stdlib Require Import ZArith Lia.
From S2P Require Import Prelude Words GoIO GoStr.

Section sink.
Context {E : Type}.

Record EventNATS : Type := MkEventNATS { ev_subject : bytes; ev_data : E }.

(** The program points of [SinkNATS.run]. *)
Inductive run_pc : Type := Connecting | Publishing | RunDone.

(** [sk_published] is what [publish] was called with, oldest first. *)
Record SinkNATS : Type := MkSinkNATS {
  sk_url : bytes;
  sk_ch : outlet EventNATS;
  sk_pc : run_pc;
  sk_published : list EventNATS;
}.

Inductive Sink : Type :=
  | SinkNull
  | SinkNats (s : SinkNATS).

Definition newSinkNATS (url : bytes) (picks : list bool) : SinkNATS :=
  MkSinkNATS url (make_outlet EventNATS false picks 1024) Connecting [].

Definition NewSink (url : bytes) (picks : list bool) : Sink :=
  if decide (url ≠ []) then SinkNats (newSinkNATS url picks) else SinkNull.

Definition set_sk_ch (c : outlet EventNATS) (s : SinkNATS) : SinkNATS :=
  MkSinkNATS (sk_url s) c (sk_pc s) (sk_published s).
Definition set_sk_pc (pc : run_pc) (s : SinkNATS) : SinkNATS :=
  MkSinkNATS (sk_url s) (sk_ch s) pc (sk_published s).

(** [Send]: queue the event or drop it; never an error. *)
Definition sink_Send (subject : bytes) (event : E) : M Sink unit := λ s,
  match s with
  | SinkNull => (SinkNull, Ok tt)
  | SinkNats s => (SinkNats (set_sk_ch (o_send (MkEventNATS subject event) (sk_ch s)) s), Ok tt)
  end.

(** [Close] up to waiting for the goroutine. *)
Definition sink_cancel (s : Sink) : Sink :=
  match s with
  | SinkNull => SinkNull
  | SinkNats s => SinkNats (set_sk_ch (o_cancel (sk_ch s)) s)
  end.

(** [publish]: the event is encoded and handed to the connection. *)
Definition publish (ev : EventNATS) (s : SinkNATS) : SinkNATS :=
  MkSinkNATS (sk_url s) (sk_ch s) (sk_pc s) (sk_published s ++ [ev]).

(** The goroutine [run]: [connect] retries until it is connected or canceled,
    then events are taken from the channel one by one. *)
Inductive run_step (s : SinkNATS) : SinkNATS → Prop :=
  | run_connected : sk_pc s = Connecting → o_done (sk_ch s) = false → run_step s (set_sk_pc Publishing s)
  | run_retry : sk_pc s = Connecting → o_done (sk_ch s) = false → run_step s s
  | run_gave_up : sk_pc s = Connecting → o_done (sk_ch s) = true → run_step s (set_sk_pc RunDone s)
  | run_event ev buf :
      sk_pc s = Publishing → ch_buf (pt_chan (o_port (sk_ch s))) = ev :: buf →
      run_step s (publish ev (set_sk_ch (o_take (sk_ch s)) s))
  | run_stop : sk_pc s = Publishing → o_done (sk_ch s) = true → run_step s (set_sk_pc RunDone s).

(** A sink in use: sends (labelled by the event), [Close] and the goroutine. *)
Inductive sink_step : Sink → list EventNATS → Sink → Prop :=
  | sink_send subject event s :
      sink_step s [MkEventNATS subject event] (fst (sink_Send subject event s))
  | sink_close s : sink_step s [] (sink_cancel s)
  | sink_run s s' : run_step s s' → sink_step (SinkNats s) [] (SinkNats s').

Inductive sink_trace (s0 : Sink) : list EventNATS → Sink → Prop :=
  | sink_start : sink_trace s0 [] s0
  | sink_next tr s es s' : sink_trace s0 tr s → sink_step s es s' → sink_trace s0 (tr ++ es) s'.

(** ** Invariant *)

(** What was published and what waits is what was accepted, and that is a part
    of what was sent, in order. *)
Definition sink_inv (tr : list EventNATS) (s : Sink) : Prop :=
  match s with
  | SinkNull => True
  | SinkNats s =>
      sk_published s = pt_taken (o_port (sk_ch s)) ∧ o_sent (sk_ch s) `sublist_of` tr
      ∧ ch_cap (pt_chan (o_port (sk_ch s))) = 1024 ∧ chan_wf (pt_chan (o_port (sk_ch s)))
  end.

Lemma sink_inv_step tr s es s' : sink_inv tr s → sink_step s es s' → sink_inv (tr ++ es) s'.
Proof.
  intros Hi Hs. destruct Hs as [subject event [|s]|[|s]|s s' Hr]; simpl in *; try done;
    rewrite ?app_nil_r.
  - destruct Hi as (Hp & Hsub & Hcap & Hwf).
    set (ev := MkEventNATS subject event).
    pose proof (o_send_cases ev (sk_ch s)) as (_ & Hcap' & Hc).
    assert (pt_taken (o_port (o_send ev (sk_ch s))) = pt_taken (o_port (sk_ch s))) as Ht.
    { unfold o_send. repeat case_match; done. }
    split_and!; [by rewrite Ht| |by rewrite Hcap'|].
    + destruct Hc as [[-> _]|[-> _]]; [by apply sublist_app|by apply sublist_inserts_r].
    + unfold chan_wf. rewrite Hcap'. unfold o_send, o_ready, chan_ready in *.
      destruct (Nat.ltb_spec (length (ch_buf (pt_chan (o_port (sk_ch s))))) (ch_cap (pt_chan (o_port (sk_ch s)))));
        [|done]. repeat case_match; simpl; rewrite ?length_app; simpl; try done; lia.
  - done.
  - destruct Hi as (Hp & Hsub & Hcap & Hwf).
    destruct Hr as [? ?|? ?|? ?|ev buf _ Hb|? ?]; simpl; [done..| |done].
    unfold chan_wf in *. rewrite o_sent_take. unfold port_take. rewrite Hb. simpl.
    rewrite Hp. split_and!; [done..|]. rewrite Hb in Hwf. simpl in Hwf. lia.
Qed.

Lemma sink_inv_trace url picks tr s :
  sink_trace (NewSink url picks) tr s → sink_inv tr s.
Proof.
  induction 1 as [|tr s es s' _ IH Hs]; [|by eapply sink_inv_step].
  unfold NewSink. case_decide; [|done]. split_and!; [done..|]. apply Nat.le_0_l.
Qed.

End sink.
Arguments EventNATS E : clear implicits.
Arguments SinkNATS E : clear implicits.
Arguments Sink E : clear implicits.

(** ** Properties *)

Definition ex_ev (n : nat) : EventNATS nat := MkEventNATS (str "s") n.

(** Two events sent, then the goroutine connects and publishes the first. *)
Definition ex_sent : SinkNATS nat :=
  MkSinkNATS (str "nats://n")
    (Outlet false [] (Port (Chan 1024 [ex_ev 1; ex_ev 2]) [])) Connecting [].
Definition ex_published : SinkNATS nat :=
  let s := set_sk_pc Publishing ex_sent in publish (ex_ev 1) (set_sk_ch (o_take (sk_ch s)) s).

Lemma ex_sink_trace :
  sink_trace (NewSink (str "nats://n") []) [ex_ev 1; ex_ev 2] (SinkNats ex_published).
Proof.
  apply (sink_next _ [ex_ev 1; ex_ev 2] (SinkNats (set_sk_pc Publishing ex_sent)) []);
    [|by apply sink_run, (run_event _ (ex_ev 1) [ex_ev 2])].
  apply (sink_next _ [ex_ev 1; ex_ev 2] (SinkNats ex_sent) []); [|by apply sink_run, run_connected].
  apply (sink_next _ [ex_ev 1] (fst (sink_Send (str "s") 1 (NewSink (str "nats://n") []))) [ex_ev 2]);
    [|apply (sink_send (str "s") 2)].
  apply (sink_next _ [] (NewSink (str "nats://n") []) [ex_ev 1]);
    [apply sink_start|apply (sink_send (str "s") 1)].
Qed.

(** Events are published in the order in which they were sent, none twice
    and none invented; a full queue of 1024 drops events and never blocks or
    fails the sender. *)
Theorem events_in_order {E} url picks tr (s : SinkNATS E) subject event :
  sink_trace (NewSink url picks) tr (SinkNats s) →
  sk_published s `sublist_of` tr
  ∧ sk_published s ++ ch_buf (pt_chan (o_port (sk_ch s))) `sublist_of` tr
  ∧ length (ch_buf (pt_chan (o_port (sk_ch s)))) ≤ 1024
  ∧ snd (sink_Send subject event (SinkNats s)) = Ok tt.
Proof.
  intros Ht. destruct (sink_inv_trace _ _ _ _ Ht) as (Hp & Hsub & Hcap & Hwf).
  unfold o_sent, pt_sent in Hsub. rewrite <- Hp in Hsub. split_and!; [|done| |done].
  - etrans; [apply sublist_inserts_r|exact Hsub]. done.
  - unfold chan_wf in Hwf. by rewrite Hcap in Hwf.
Qed.

Lemma events_in_order_witness :
  sink_trace (NewSink (str "nats://n") []) [ex_ev 1; ex_ev 2] (SinkNats ex_published)
  ∧ sk_published ex_published = [ex_ev 1]
  ∧ sk_published ex_published `sublist_of` [ex_ev 1; ex_ev 2]
  ∧ sk_published ex_published ++ ch_buf (pt_chan (o_port (sk_ch ex_published)))
      `sublist_of` [ex_ev 1; ex_ev 2]
  ∧ length (ch_buf (pt_chan (o_port (sk_ch ex_published)))) ≤ 1024
  ∧ snd (sink_Send (str "s") 3 (SinkNats ex_published)) = Ok tt.
Proof.
  split; [exact ex_sink_trace|]. split; [reflexivity|].
  exact (events_in_order (str "nats://n") [] [ex_ev 1; ex_ev 2] ex_published (str "s") 3 ex_sink_trace).
Defined.
