(* ===== verification/ServerSession.v ===== *)
(** * Server sessions (server/internal/session/session.go)

    A session is a log shared by the players connected to it.  Each player has
    four goroutines; a step of one of them is a step of the relation below. *)

From stdpp Require Import base gmap sets strings vector numbers tactics list.
From Stdlib Require Import ZArith Lia.
From S2P Require Import Prelude Words GoIO GoStr WalEntry Packet Wal Events.

(** ** State *)

Record PositionEvent : Type := MkPositionEvent {
  pe_Event : bytes;
  pe_SessionID : bytes;
  pe_PlayerID : bytes;
  pe_WorldID : u8;
  pe_PlayerName : bytes;
  pe_Key : u16; pe_X : i16; pe_Y : i16; pe_Z : i16;
}.

(** Players are pointers; [pl_ref] numbers stand for them. *)
Abbreviation pl_ref := nat.

Record Session : Type := MkSession {
  S_ID : vec u8 16;
  S_Secret : vec u8 8;
  S_DataDir : bytes;
  S_done : bool;
  S_players : gset pl_ref;
  S_wal : WAL;
  S_sink : Sink PositionEvent;
}.

(** [P_out] carries the player's context: [o_done (P_out p)] is
    [p.ctx.Err() != nil].  Times are nanoseconds, [None] the zero time. *)
Record Player : Type := MkPlayer {
  P_ID : vec u8 16;
  P_Name : vec u8 8;
  P_WorldID : u8;
  P_WalIndex : u32;
  P_LastPosTime : option Z;
  P_Conn : conn;
  P_in : chan Packet;
  P_out : outlet Packet;
}.

(** *** Program points of the goroutines of a player *)

Inductive join_pc : Type := JHello | JRunning | JLeft.
Inductive in_pc : Type := InRecv | InPush (pkt : Packet) | InStopped.
Inductive pkts_pc : Type := PkSelect | PkSend (pkt : Packet) | PkStopped.
Inductive out_pc : Type := OutSelect | OutWrite (pkt : Packet) | OutStopped.
Inductive wal_pc : Type :=
  | WsNext (pc : next_pc) (index : u32)
  | WsSend (pkt : Packet) (index : u32)
  | WsStopped.

(** A player and its goroutines; [c_from] is the WAL index [Join] was given. *)
Record Client : Type := MkClient {
  c_player : Player;
  c_from : u32;
  c_join : join_pc;
  c_in : in_pc;
  c_pkts : pkts_pc;
  c_out : out_pc;
  c_wal : wal_pc;
}.

(** The session and every player that ever joined it. *)
Record World : Type := MkWorld {
  w_session : Session;
  w_clients : gmap pl_ref Client;
}.

(** *** Updates *)

Definition set_S_done b s :=
  MkSession (S_ID s) (S_Secret s) (S_DataDir s) b (S_players s) (S_wal s) (S_sink s).
Definition set_S_players p s :=
  MkSession (S_ID s) (S_Secret s) (S_DataDir s) (S_done s) p (S_wal s) (S_sink s).
Definition set_S_wal l s :=
  MkSession (S_ID s) (S_Secret s) (S_DataDir s) (S_done s) (S_players s) l (S_sink s).
Definition set_S_sink k s :=
  MkSession (S_ID s) (S_Secret s) (S_DataDir s) (S_done s) (S_players s) (S_wal s) k.

Definition set_P_WalIndex i p :=
  MkPlayer (P_ID p) (P_Name p) (P_WorldID p) i (P_LastPosTime p) (P_Conn p) (P_in p) (P_out p).
Definition set_P_LastPosTime t p :=
  MkPlayer (P_ID p) (P_Name p) (P_WorldID p) (P_WalIndex p) t (P_Conn p) (P_in p) (P_out p).
Definition set_P_Conn c p :=
  MkPlayer (P_ID p) (P_Name p) (P_WorldID p) (P_WalIndex p) (P_LastPosTime p) c (P_in p) (P_out p).
Definition set_P_in i p :=
  MkPlayer (P_ID p) (P_Name p) (P_WorldID p) (P_WalIndex p) (P_LastPosTime p) (P_Conn p) i (P_out p).
Definition set_P_out o p :=
  MkPlayer (P_ID p) (P_Name p) (P_WorldID p) (P_WalIndex p) (P_LastPosTime p) (P_Conn p) (P_in p) o.

Definition on_player f c :=
  MkClient (f (c_player c)) (c_from c) (c_join c) (c_in c) (c_pkts c) (c_out c) (c_wal c).
Definition set_c_join j c :=
  MkClient (c_player c) (c_from c) j (c_in c) (c_pkts c) (c_out c) (c_wal c).
Definition set_c_in i c :=
  MkClient (c_player c) (c_from c) (c_join c) i (c_pkts c) (c_out c) (c_wal c).
Definition set_c_pkts k c :=
  MkClient (c_player c) (c_from c) (c_join c) (c_in c) k (c_out c) (c_wal c).
Definition set_c_out o c :=
  MkClient (c_player c) (c_from c) (c_join c) (c_in c) (c_pkts c) o (c_wal c).
Definition set_c_wal l c :=
  MkClient (c_player c) (c_from c) (c_join c) (c_in c) (c_pkts c) (c_out c) l.

Definition set_session s w := MkWorld s (w_clients w).
Definition upd_client (pid : pl_ref) (f : Client → Client) (w : World) : World :=
  MkWorld (w_session w) (alter f pid (w_clients w)).

(** [p.cancel()] *)
Definition cancel_player (c : Client) : Client := on_player (λ p, set_P_out (o_cancel (P_out p)) p) c.

Definition on_wal {A} (m : M WAL A) : M World A :=
  zoom (λ w, S_wal (w_session w)) (λ l w, set_session (set_S_wal l (w_session w)) w) m.
Definition on_sink {A} (m : M (Sink PositionEvent) A) : M World A :=
  zoom (λ w, S_sink (w_session w)) (λ k w, set_session (set_S_sink k (w_session w)) w) m.

(** Dereferencing the player pointer of a handler. *)
Definition get_player (pid : pl_ref) : M World Player := λ w,
  match w_clients w !! pid with
  | Some c => (w, Ok (c_player c))
  | None => (w, Panic)
  end.

(** ** Opening and closing *)

(** [mkdir] and [opened] are what [os.MkdirAll] and [os.OpenFile] answer for the
    directory of the session and its [wal.bin]. *)
Definition getDataPath (prefix : bytes) (sessionID : vec u8 16) (mkdir : option error) : res bytes :=
  let dataDir := session_dir prefix sessionID in
  match mkdir with
  | Some err => Err (Wrapf "failed to create data directory" err)
  | None => Ok dataDir
  end.

Definition wal_cancel (l : WAL) : WAL :=
  MkWAL true (w_file l) (w_set l) (w_entries l) (w_count l) (w_notify l).

(** The contexts of the session and of its log are children of [ctx]: they are
    born cancelled when [ctx] is, which is [parent_done]. *)
Definition child_wal (parent_done : bool) (l : WAL) : WAL := if parent_done then wal_cancel l else l.

Definition OpenSession (prefix : bytes) (sessionID : vec u8 16) (secret : vec u8 8)
    (sink : Sink PositionEvent) (parent_done : bool) (mkdir : option error)
    (opened : bytes → res file) : res Session :=
  dataPath ← wrap_err "failed to get data path" (getDataPath prefix sessionID mkdir);
  wal ← wrap_err "failed to open WAL" (snd (OpenWAL (opened (dataPath ++ str "/wal.bin"))));
  Ok (MkSession sessionID secret dataPath parent_done ∅ (child_wal parent_done wal) sink).

(** Canceling the session's context cancels the contexts derived from it: the
    log's and the players'. *)
Definition session_cancel (w : World) : World :=
  MkWorld (set_S_done true (set_S_wal (wal_cancel (S_wal (w_session w))) (w_session w)))
    (cancel_player <$> w_clients w).

Definition session_Close : M World unit :=
  modify session_cancel;;
  on_wal Close.

(** ** Handlers *)

(** A map of players is visited in any order; each iteration concerns another
    channel, so the order does not matter. *)
Definition BroadcastExcept (pkt : Packet) (excluded : pl_ref) (w : World) : World :=
  MkWorld (w_session w)
    (map_imap (λ pid c, Some (if decide (pid ∈ S_players (w_session w) ∧ pid ≠ excluded)
                              then on_player (λ p, set_P_out (o_send pkt (P_out p)) p) c else c))
       (w_clients w)).

Definition pos_interval : Z := (250 * 1000000)%Z.

(** Whether the event of a position is due; [since] is the instant at which
    [time.Since] looks at the clock. *)
Definition pos_due (p : Player) (since : Z) : bool :=
  match P_LastPosTime p with
  | None => true
  | Some t => (pos_interval <=? since - t)%Z
  end.

Definition position_event (s : Session) (p : Player) (pos : ClientPosition) : PositionEvent :=
  MkPositionEvent (str "position") (hex_EncodeToString (vec_to_list (S_ID s)))
    (hex_EncodeToString (vec_to_list (P_ID p))) (P_WorldID p) (name_string (P_Name p))
    (cp_Key pos) (cp_X pos) (cp_Y pos) (cp_Z pos).

(** [since] and [now] are the two readings of the clock. *)
Definition handlePositionUpdate (since now : Z) (pid : pl_ref) (pos : ClientPosition) : M World unit :=
  p ← get_player pid;
  data ← lift (ServerPosition_Serialize
    (MkServerPosition (P_ID p) (P_Name p) (cp_Key pos) (cp_X pos) (cp_Y pos) (cp_Z pos)));
  modify (BroadcastExcept (MkPacket OpPosition data) pid);;
  if pos_due p since then
    modify (upd_client pid (on_player (set_P_LastPosTime (Some now))));;
    s ← gets w_session;
    let event := position_event s p pos in
    ignore (on_sink (sink_Send (str "ootmm.events.multi." ++ pe_SessionID event) event))
  else mret tt.

(** [handlePacket] up to its final [p.Send]: the packet to send, if any. *)
Definition handlePacket (since now : Z) (pid : pl_ref) (pkt : Packet) : M World (option Packet) :=
  if decide (p_Op pkt = OpNOP) then mret None
  else if decide (p_Op pkt = OpWal) then
    entry ← lift (wrap_err "failed to parse WAL entry" (Parse (p_Data pkt)));
    wrapM "failed to append WAL entry" (on_wal (Append entry));;
    dedupKey ← lift (wrap_err "failed to compute deduplication key" (DedupKey entry));
    mret (Some (MkPacket OpWalAck (vec_to_list dedupKey)))
  else if decide (p_Op pkt = OpPosition) then
    pos ← lift (wrap_err "failed to parse client position" (ParseClientPosition (p_Data pkt)));
    handlePositionUpdate since now pid pos;;
    mret None
  else mret None.

(** The body of the loop of [handleWalStream] after [Next] returned an entry. *)
Definition handleWalEntry (pid : pl_ref) (entry : WalEntry) (index : u32) : M World (option Packet) :=
  p ← get_player pid;
  if decide (uval index < uval (P_WalIndex p))%Z then mret None else
  modify (upd_client pid (on_player (set_P_WalIndex (uincr index))));;
  bodyData ← lift (ServerWal_Serialize (MkServerWal index entry));
  mret (Some (MkPacket OpWal bodyData)).

(** ** Joining *)

Definition server_magic : vec u8 8 :=
  arr_of 8 [U8 79; U8 111; U8 84; U8 77; U8 77; U8 127; U8 1; U8 0].

(** The new [Player] and its registration; its context is a child of the
    session's. *)
Definition join_register (pid : pl_ref) (playerID : vec u8 16) (name : vec u8 8) (worldID : u8)
    (walIndex : u32) (c : conn) (picks : list bool) (w : World) : World :=
  let player := MkPlayer playerID name worldID walIndex None c (make_chan Packet 64)
                  (make_outlet Packet (S_done (w_session w)) picks 64) in
  MkWorld (set_S_players ({[pid]} ∪ S_players (w_session w)) (w_session w))
    (<[pid := MkClient player walIndex JHello InRecv PkSelect OutSelect
               (WsNext ReadNotify walIndex)]> (w_clients w)).

(** The HELLO reply on the connection. *)
Definition join_hello : M conn unit :=
  data ← lift (ServerHello_Serialize (MkServerHello server_magic (U32 65536)));
  SendRawTimeoutDefault (MkPacket OpHello data).

(** The deferred calls at the end of [Join]. *)
Definition join_leave (pid : pl_ref) (w : World) : World :=
  upd_client pid (λ c, set_c_join JLeft (cancel_player c))
    (set_session (set_S_players (S_players (w_session w) ∖ {[pid]}) (w_session w)) w).

Definition nop : Packet := MkPacket OpNOP [].

(** ** Steps *)

(** Run a computation on the connection of a player. *)
Definition with_conn {A} (m : M conn A) (c : Client) : Client * res A :=
  let '(k, r) := m (P_Conn (c_player c)) in (on_player (set_P_Conn k) c, r).

Definition stop (f : Client → Client) : Client → Client := λ c, cancel_player (f c).

(** [p.Send] of [handleWalStream] and the test of its loop. *)
Definition wal_send (pkt : Packet) (i : u32) (c : Client) : Client :=
  let c' := on_player (λ p, set_P_out (o_send pkt (P_out p)) p) c in
  if o_done (P_out (c_player c)) then stop (set_c_wal WsStopped) c'
  else set_c_wal (WsNext ReadNotify i) c'.

(** One atomic action of the goroutines of player [pid], whose state is [c]. *)
Inductive client_step (w : World) (pid : pl_ref) (c : Client) : World → Prop :=
  (* Join *)
  | st_hello_ok c' :
      c_join c = JHello → with_conn join_hello c = (c', Ok tt) →
      client_step w pid c (upd_client pid (λ _, set_c_join JRunning c') w)
  | st_hello_err c' e :
      c_join c = JHello → with_conn join_hello c = (c', Err e) →
      client_step w pid c (join_leave pid (upd_client pid (λ _, c') w))
  | st_leave :
      c_join c = JRunning → o_done (P_out (c_player c)) = true →
      c_in c = InStopped → c_pkts c = PkStopped → c_out c = OutStopped → c_wal c = WsStopped →
      client_step w pid c (join_leave pid w)
  (* handleMsgIn *)
  | st_recv c' pkt :
      c_join c = JRunning → c_in c = InRecv →
      with_conn RecvRawTimeoutDefault c = (c', Ok pkt) →
      client_step w pid c (upd_client pid (λ _, set_c_in (InPush pkt) c') w)
  | st_recv_err c' e :
      c_join c = JRunning → c_in c = InRecv →
      with_conn RecvRawTimeoutDefault c = (c', Err e) →
      client_step w pid c (upd_client pid (λ _, stop (set_c_in InStopped) c') w)
  | st_push pkt :
      c_in c = InPush pkt → chan_ready (P_in (c_player c)) = true →
      client_step w pid c
        (upd_client pid (λ c, set_c_in InRecv (on_player (λ p, set_P_in (chan_push pkt (P_in p)) p) c)) w)
  | st_in_stop :
      c_join c = JRunning → o_done (P_out (c_player c)) = true →
      client_step w pid c (upd_client pid (stop (set_c_in InStopped)) w)
  (* handlePackets *)
  | st_handle pkt rest since now w1 o :
      c_join c = JRunning → c_pkts c = PkSelect → (since <= now)%Z →
      ch_buf (P_in (c_player c)) = pkt :: rest →
      handlePacket since now pid pkt
        (upd_client pid (on_player (λ p, set_P_in (Chan (ch_cap (P_in p)) rest) p)) w) = (w1, Ok o) →
      client_step w pid c
        (upd_client pid (set_c_pkts (match o with Some p => PkSend p | None => PkSelect end)) w1)
  | st_handle_err pkt rest since now w1 e :
      c_join c = JRunning → c_pkts c = PkSelect → (since <= now)%Z →
      ch_buf (P_in (c_player c)) = pkt :: rest →
      handlePacket since now pid pkt
        (upd_client pid (on_player (λ p, set_P_in (Chan (ch_cap (P_in p)) rest) p)) w) = (w1, Err e) →
      client_step w pid c (upd_client pid (stop (set_c_pkts PkStopped)) w1)
  | st_pkts_send pkt :
      c_pkts c = PkSend pkt → o_unblocked (P_out (c_player c)) = true →
      client_step w pid c
        (upd_client pid (λ c, set_c_pkts PkSelect (on_player (λ p, set_P_out (o_send pkt (P_out p)) p) c)) w)
  | st_pkts_stop :
      c_join c = JRunning → c_pkts c = PkSelect → o_done (P_out (c_player c)) = true →
      client_step w pid c (upd_client pid (stop (set_c_pkts PkStopped)) w)
  (* handleMsgOut *)
  | st_out_take pkt rest :
      c_join c = JRunning → c_out c = OutSelect →
      ch_buf (pt_chan (o_port (P_out (c_player c)))) = pkt :: rest →
      client_step w pid c
        (upd_client pid (λ c, set_c_out (OutWrite pkt) (on_player (λ p, set_P_out (o_take (P_out p)) p) c)) w)
  | st_out_nop :
      c_join c = JRunning → c_out c = OutSelect →
      client_step w pid c (upd_client pid (set_c_out (OutWrite nop)) w)
  | st_out_write pkt c' :
      c_out c = OutWrite pkt → with_conn (SendRawTimeoutDefault pkt) c = (c', Ok tt) →
      client_step w pid c (upd_client pid (λ _, set_c_out OutSelect c') w)
  | st_out_err pkt c' e :
      c_out c = OutWrite pkt → with_conn (SendRawTimeoutDefault pkt) c = (c', Err e) →
      client_step w pid c (upd_client pid (λ _, stop (set_c_out OutStopped) c') w)
  | st_out_stop :
      c_join c = JRunning → c_out c = OutSelect → o_done (P_out (c_player c)) = true →
      client_step w pid c (upd_client pid (stop (set_c_out OutStopped)) w)
  (* handleWalStream *)
  | st_next pc pc' i st' :
      c_join c = JRunning → c_wal c = WsNext pc i →
      next_step (S_wal (w_session w)) (pc, MkStream (o_done (P_out (c_player c))) i) (pc', st') →
      client_step w pid c (upd_client pid (set_c_wal (WsNext pc' (st_index st'))) w)
  | st_wal_entry e n i w1 o :
      c_wal c = WsNext (Returned (Ok (e, n))) i →
      handleWalEntry pid e n w = (w1, Ok o) →
      client_step w pid c
        (upd_client pid (set_c_wal (match o with Some p => WsSend p i | None => WsNext ReadNotify i end)) w1)
  | st_wal_entry_err e n i w1 err :
      c_wal c = WsNext (Returned (Ok (e, n))) i →
      handleWalEntry pid e n w = (w1, Err err) →
      client_step w pid c (upd_client pid (stop (set_c_wal WsStopped)) w1)
  | st_wal_err err i :
      c_wal c = WsNext (Returned (Err err)) i →
      client_step w pid c (upd_client pid (stop (set_c_wal WsStopped)) w)
  | st_wal_send pkt i :
      c_wal c = WsSend pkt i → o_unblocked (P_out (c_player c)) = true →
      client_step w pid c
        (upd_client pid (wal_send pkt i) w).

(** Steps of the session: a player's, a new player's (on a connection that was
    just accepted), [Close], or the end of the context it was opened with. *)
Inductive srv_step (w : World) : World → Prop :=
  | srv_client pid c w' :
      w_clients w !! pid = Some c → client_step w pid c w' → srv_step w w'
  | srv_join pid playerID name worldID walIndex k picks :
      w_clients w !! pid = None → tx k = [] →
      srv_step w (join_register pid playerID name worldID walIndex k picks w)
  | srv_close : srv_step w (fst (session_Close w))
  | srv_cancel : srv_step w (session_cancel w).

Definition srv_reach : World → World → Prop := rtc srv_step.

(** ** What a handler may change *)

Definition is_wal (pkt : Packet) : Prop := p_Op pkt = OpWal.
#[export] Instance is_wal_dec pkt : Decision (is_wal pkt).
Proof. unfold is_wal. apply _. Defined.

(** The log packets a player was given, oldest first. *)
Definition wal_sent (c : Client) : list Packet := filter is_wal (o_sent (P_out (c_player c))).

(** Another player's handler touches at most the outgoing queue, with a
    position. *)
Definition nudged (c c' : Client) : Prop :=
  c_from c' = c_from c ∧ c_join c' = c_join c ∧ c_in c' = c_in c ∧ c_pkts c' = c_pkts c
  ∧ c_out c' = c_out c ∧ c_wal c' = c_wal c
  ∧ P_WalIndex (c_player c') = P_WalIndex (c_player c)
  ∧ P_Conn (c_player c') = P_Conn (c_player c)
  ∧ o_done (P_out (c_player c')) = o_done (P_out (c_player c))
  ∧ pt_taken (o_port (P_out (c_player c'))) = pt_taken (o_port (P_out (c_player c)))
  ∧ (o_sent (P_out (c_player c')) = o_sent (P_out (c_player c))
     ∨ ∃ d, o_sent (P_out (c_player c')) = o_sent (P_out (c_player c)) ++ [MkPacket OpPosition d]).

Lemma nudged_refl c : nudged c c.
Proof. split_and!; auto. Qed.

Lemma o_send_taken {A} (x : A) o : pt_taken (o_port (o_send x o)) = pt_taken (o_port o).
Proof. unfold o_send. by repeat case_match. Qed.

Lemma nudged_send d c :
  nudged c (on_player (λ p, set_P_out (o_send (MkPacket OpPosition d) (P_out p)) p) c).
Proof.
  pose proof (o_send_cases (MkPacket OpPosition d) (P_out (c_player c))) as (Hd & _ & Hc).
  split_and!; simpl; [done..|apply o_send_taken|].
  destruct Hc as [[-> _]|[-> _]]; eauto.
Qed.

(** Two worlds that differ by what handlers may do to the players. *)
Definition nudged_all (w w' : World) : Prop :=
  ∀ pid, match w_clients w !! pid, w_clients w' !! pid with
         | Some c, Some c' => nudged c c'
         | None, None => True
         | _, _ => False
         end.

Lemma lookup_broadcast pkt x w pid :
  w_clients (BroadcastExcept pkt x w) !! pid
  = (λ c, if decide (pid ∈ S_players (w_session w) ∧ pid ≠ x)
          then on_player (λ p, set_P_out (o_send pkt (P_out p)) p) c else c) <$> w_clients w !! pid.
Proof. simpl. rewrite map_lookup_imap. by destruct (w_clients w !! pid). Qed.

#[local] Arguments BroadcastExcept : simpl never.

Lemma nudged_broadcast d x w : nudged_all w (BroadcastExcept (MkPacket OpPosition d) x w).
Proof.
  intros pid. rewrite lookup_broadcast. destruct (w_clients w !! pid) as [c|]; simpl; [|done].
  case_decide; [apply nudged_send|apply nudged_refl].
Qed.

Lemma handlePositionUpdate_spec since now pid pos w c :
  w_clients w !! pid = Some c →
  ∃ w1, handlePositionUpdate since now pid pos w = (w1, Ok tt)
  ∧ nudged_all w w1 ∧ S_wal (w_session w1) = S_wal (w_session w)
  ∧ S_players (w_session w1) = S_players (w_session w).
Proof.
  intros Hc. unfold handlePositionUpdate, get_player, mbind, M_bind. rewrite Hc. unfold lift.
  rewrite ServerPosition_Serialize_layout. unfold modify at 1.
  set (d := server_position_layout _).
  pose proof (nudged_broadcast d pid w) as Hn. set (w1 := BroadcastExcept _ _ _) in *.
  destruct (pos_due (c_player c) since); [|by exists w1].
  unfold modify, gets, ignore, on_sink, zoom.
  destruct (sink_Send _ _ _) as [k r] eqn:Hk.
  assert (r = Ok tt) as -> by (unfold sink_Send in Hk; destruct (S_sink _); congruence).
  eexists. split; [done|]. split_and!; [|done|done].
  intros q. specialize (Hn q). cbn [w_clients set_session upd_client]. destruct (decide (q = pid)) as [->|Hne].
  - rewrite lookup_alter_eq. destruct (w_clients w !! pid), (w_clients w1 !! pid); done || exact Hn.
  - by rewrite lookup_alter_ne by done.
Qed.

(** ** The invariant of a session *)

(** An acknowledgement names a key of the log. *)
Definition acked (l : WAL) (pkt : Packet) : Prop :=
  p_Op pkt = OpWalAck → ∃ k, k ∈ w_set l ∧ p_Data pkt = vec_to_list k.

Definition wal_packet (x : WalEntry * u32) : Packet :=
  MkPacket OpWal (default [] (res_get (ServerWal_Serialize (MkServerWal x.2 x.1)))).

(** The entries taken from the log, starting at the index of [Join], are the log
    packets of the player, the last of them possibly still on its way. *)
Definition stream_inv (l : WAL) (c : Client) : Prop :=
  ∃ tr, wal_sent c = wal_packet <$> tr ∧
  match c_wal c with
  | WsNext pc i =>
      follow_inv (c_from c) tr (l, (pc, MkStream false i))
      ∧ uval (P_WalIndex (c_player c)) = (uval (c_from c) + Z.of_nat (length tr))%Z
  | WsSend pkt i => ∃ e n, pkt = wal_packet (e, n)
      ∧ follow_inv (c_from c) (tr ++ [(e, n)]) (l, (ReadNotify, MkStream false i))
      ∧ uval (P_WalIndex (c_player c)) = (uval (c_from c) + Z.of_nat (S (length tr)))%Z
  | WsStopped => follow_inv (c_from c) tr (l, (Returned (Err EOF), MkStream false (U32 0)))
  end.

Definition client_inv (l : WAL) (c : Client) : Prop :=
  Forall (acked l) (o_sent (P_out (c_player c)))
  ∧ match c_pkts c with PkSend pkt => acked l pkt ∧ ¬ is_wal pkt | _ => True end
  ∧ stream_inv l c.

Definition srv_inv (w : World) : Prop :=
  log_inv (S_wal (w_session w))
  ∧ ∀ pid c, w_clients w !! pid = Some c → client_inv (S_wal (w_session w)) c.

(** *** A log that grows *)

Definition grows (l l' : WAL) : Prop :=
  w_entries l `prefix_of` w_entries l'
  ∧ (w_notify l' = w_notify l ∧ w_count l' = w_count l ∨ w_notify l' = S (w_notify l)).

Lemma grows_refl l : grows l l.
Proof. split; auto. Qed.

Lemma grows_Append e l : grows l (fst (Append e l)).
Proof. destruct (Append_extends e l) as (? & _ & ?). by split. Qed.

Lemma grows_Close l : grows l (fst (Close l)).
Proof. destruct (Close_fields l) as (He & Hn & Hc & _). split; [by rewrite He|by left]. Qed.

Lemma mem_wf_set_mono l l' k :
  mem_wf l → mem_wf l' → grows l l' → k ∈ w_set l → k ∈ w_set l'.
Proof.
  intros Hl Hl' [[x Hx] _]. rewrite (mem_set l Hl), (mem_set l' Hl'), Hx, has_key_app. auto.
Qed.

Lemma follow_grow i0 tr l l' p :
  mem_wf l' → grows l l' → follow_inv i0 tr (l, p) → follow_inv i0 tr (l', p).
Proof. intros Hw [Hp Hn] Hf. by apply (follow_inv_grow i0 tr l l' p Hw Hp Hn). Qed.

Lemma stream_inv_grow l l' c : mem_wf l' → grows l l' → stream_inv l c → stream_inv l' c.
Proof.
  intros Hw Hg (tr & Hs & Hm). exists tr. split; [done|].
  destruct (c_wal c) as [pc i|pkt i|].
  - destruct Hm as [Hf Hi]. split; [by eapply follow_grow|done].
  - destruct Hm as (e & n & Hp & Hf & Hi). exists e, n. split_and!; [done|by eapply follow_grow|done].
  - by eapply follow_grow.
Qed.

Lemma acked_grow l l' pkt : mem_wf l → mem_wf l' → grows l l' → acked l pkt → acked l' pkt.
Proof.
  intros Hl Hl' Hg Ha Hop. destruct (Ha Hop) as (k & Hk & Hd). exists k. split; [|done].
  by apply (mem_wf_set_mono l l' k).
Qed.

Lemma client_inv_grow l l' c :
  mem_wf l → mem_wf l' → grows l l' → client_inv l c → client_inv l' c.
Proof.
  intros Hl Hl' Hg (Hs & Hp & Hst). split_and!.
  - eapply Forall_impl; [exact Hs|]. intros pkt. by apply acked_grow.
  - destruct (c_pkts c); [done| |done]. destruct Hp. split; [by apply (acked_grow l l' pkt)|done].
  - by eapply stream_inv_grow.
Qed.

Lemma log_inv_Close l : log_inv l → log_inv (fst (Close l)).
Proof.
  intros (Hm & Hk & Hn). destruct (Close_fields l) as (He & _).
  split_and!; [by apply mem_wf_Close|..]; unfold keys_nodup, all_normal; by rewrite He.
Qed.

Lemma log_inv_cancel l : log_inv l → log_inv (wal_cancel l).
Proof. intros ([Hk Hs Hc] & Hn & Ha). by split_and!. Qed.

Lemma synced_child b l : synced l → synced (child_wal b l).
Proof.
  intros (Hl & [??] & ? & ?). destruct b; [|by split_and!]. split_and!; try done. by apply log_inv_cancel.
Qed.

(** *** Queueing packets *)

Lemma opcodes_distinct :
  OpPosition ≠ OpWal ∧ OpPosition ≠ OpWalAck ∧ OpWalAck ≠ OpWal ∧ OpNOP ≠ OpWal.
Proof. split_and!; by_compute. Qed.

Lemma filter_wal_snoc l pkt : ¬ is_wal pkt → filter is_wal (l ++ [pkt]) = filter is_wal l.
Proof. intros H. rewrite filter_app, filter_cons_False, filter_nil, app_nil_r; done. Qed.

Lemma client_inv_nudged l c c' : nudged c c' → client_inv l c → client_inv l c'.
Proof.
  destruct opcodes_distinct as (Hpw & Hpa & _).
  intros (Hfr & _ & _ & Hpk & _ & Hws & Hwi & _ & _ & _ & Hs) (Ha & Hp & tr & Ht & Hm).
  unfold client_inv, stream_inv, wal_sent in *. rewrite Hfr, Hpk, Hws, Hwi.
  destruct Hs as [->|[d ->]]; [split_and!; eauto|]. split_and!; [|done|].
  - apply Forall_app; split; [done|]. apply Forall_singleton. intros Hop. by destruct Hpa.
  - exists tr. split; [|done]. by rewrite filter_wal_snoc.
Qed.

Lemma srv_inv_upd w pid f c :
  srv_inv w → w_clients w !! pid = Some c → client_inv (S_wal (w_session w)) (f c) →
  srv_inv (upd_client pid f w).
Proof.
  intros [Hl Hc] Hpid Hf. split; [done|]. intros q c'. simpl. destruct (decide (q = pid)) as [->|Hne].
  - rewrite lookup_alter_eq, Hpid. by intros [= <-].
  - rewrite lookup_alter_ne by done. apply Hc.
Qed.

Lemma srv_inv_nudged w w' :
  log_inv (S_wal (w_session w')) → grows (S_wal (w_session w)) (S_wal (w_session w')) →
  nudged_all w w' → srv_inv w → srv_inv w'.
Proof.
  intros Hl' Hg Hn [Hl Hc]. split; [done|]. intros pid c' Hc'. specialize (Hn pid).
  rewrite Hc' in Hn. destruct (w_clients w !! pid) as [c|] eqn:Hpid; [|done].
  apply (client_inv_nudged _ c); [done|].
  apply (client_inv_grow (S_wal (w_session w))); [apply Hl|apply Hl'|done|by eapply Hc].
Qed.

(** *** The handlers *)

Lemma nudged_all_refl w w' : w_clients w' = w_clients w → nudged_all w w'.
Proof. intros Hw pid. rewrite Hw. destruct (w_clients w !! pid); [apply nudged_refl|done]. Qed.

(** What [handlePacket] does on a log packet whose entry parses. *)
Lemma handlePacket_wal since now pid pkt e w :
  p_Op pkt = OpWal → Parse (p_Data pkt) = Ok e →
  let '(l', r) := Append e (S_wal (w_session w)) in
  handlePacket since now pid pkt w
  = (set_session (set_S_wal l' (w_session w)) w,
     match r with
     | Ok _ => key ← wrap_err "failed to compute deduplication key" (DedupKey e);
               Ok (Some (MkPacket OpWalAck (vec_to_list key)))
     | Err err => Err (Wrapf "failed to append WAL entry" err)
     | Panic => Panic
     | NoFuel => NoFuel
     end).
Proof.
  intros Hop Hp. unfold handlePacket. rewrite Hop, Hp.
  rewrite decide_False by by_compute. rewrite decide_True by done.
  cbn [wrap_err]. unfold lift, wrapM, on_err, on_wal, zoom, mbind, M_bind.
  destruct (Append e (S_wal (w_session w))) as [l' [[]|err| |]]; try done.
  by destruct (wrap_err _ (DedupKey e)).
Qed.

Definition handled (w w1 : World) (r : res (option Packet)) : Prop :=
  returns r ∧ log_inv (S_wal (w_session w1)) ∧ grows (S_wal (w_session w)) (S_wal (w_session w1))
  ∧ nudged_all w w1 ∧ S_players (w_session w1) = S_players (w_session w)
  ∧ ∀ p, r = Ok (Some p) → acked (S_wal (w_session w1)) p ∧ ¬ is_wal p.

Lemma handled_same w r :
  log_inv (S_wal (w_session w)) → returns r → (∀ p, r ≠ Ok (Some p)) → handled w w r.
Proof.
  intros Hl Hr Hp. split; [done|]. split; [done|]. split; [apply grows_refl|].
  split; [by apply nudged_all_refl|]. split; [done|]. intros p Hx. by destruct (Hp p).
Qed.

Lemma handlePacket_handled since now pid pkt w c w1 r :
  w_clients w !! pid = Some c → log_inv (S_wal (w_session w)) →
  handlePacket since now pid pkt w = (w1, r) → handled w w1 r.
Proof.
  intros Hc Hl Hh. destruct (decide (p_Op pkt = OpWal)) as [Hop|Hop].
  - destruct (Parse_cases (p_Data pkt)) as [(_ & e & Hp & He)|(_ & err & Hp)].
    + pose proof (handlePacket_wal since now pid pkt e w Hop Hp) as Hw.
      pose proof (grows_Append e (S_wal (w_session w))) as Hg.
      pose proof (Append_returns e (S_wal (w_session w))) as Hret.
      destruct (Append e (S_wal (w_session w))) as [l' ra] eqn:Ha. rewrite Hh in Hw.
      simplify_eq. simpl in Hret, Hg. pose proof (log_inv_Append e _ _ _ He Hl Ha) as Hl'.
      unfold handled. cbn [w_session set_session S_wal set_S_wal S_players].
      split; [|split; [done|split; [done|split; [by apply nudged_all_refl|split; [done|]]]]].
      * destruct ra as [[]|err| |]; [|done|by destruct Hret..].
        destruct (proj1 (DedupKey_known e) (proj1 He)) as [k ->]. done.
      * intros p Hr. destruct ra as [[]|err| |]; [|done..].
        apply res_bind_Ok_inv in Hr as (k & Hk%wrap_err_Ok & [= <-]). split; [|by destruct opcodes_distinct as (_&_&?&_)].
        intros _. exists k. split; [|done].
        destruct (Append_entries e _ _ _ (proj1 Hl) Ha) as [(_ & _ & Hes)|(?&?&[=]&_)].
        apply (mem_wf_key_in l' e k (proj1 Hl') Hk). rewrite Hes. apply aappend_has.
    + unfold handlePacket in Hh. rewrite Hop, Hp, decide_False, decide_True in Hh by (done || by_compute).
      unfold mbind, M_bind, lift in Hh. cbn [wrap_err] in Hh. simplify_eq. by apply handled_same.
  - unfold handlePacket in Hh. destruct (decide (p_Op pkt = OpNOP)) as [|Hno].
    { unfold mret, M_ret in Hh. simplify_eq. by apply handled_same. }
    rewrite decide_False in Hh by done. destruct (decide (p_Op pkt = OpPosition)); cycle 1.
    { unfold mret, M_ret in Hh. simplify_eq. by apply handled_same. }
    unfold mbind, M_bind, lift in Hh. pose proof (ParseClientPosition_returns (p_Data pkt)) as Hret.
    destruct (ParseClientPosition (p_Data pkt)) as [pos|err| |]; [|..|by destruct Hret|by destruct Hret].
    + cbn [wrap_err] in Hh. destruct (handlePositionUpdate_spec since now pid pos w c Hc)
        as (w2 & Hw2 & Hn & Hs & Hpl). rewrite Hw2 in Hh. unfold mret, M_ret in Hh. simplify_eq.
      unfold handled. rewrite Hs. split; [done|]. split; [done|]. split; [apply grows_refl|]. done.
    + cbn [wrap_err] in Hh. simplify_eq. by apply handled_same.
Qed.

(** *** The log stream of a player *)

(** The stream never returns an entry that the player already has: the test of
    the loop is never true. *)
Lemma handleWalEntry_spec pid e n i w c :
  w_clients w !! pid = Some c → client_inv (S_wal (w_session w)) c →
  c_wal c = WsNext (Returned (Ok (e, n))) i →
  handleWalEntry pid e n w
  = (upd_client pid (on_player (set_P_WalIndex (uincr n))) w, Ok (Some (wal_packet (e, n))))
  ∧ client_inv (S_wal (w_session w))
      (set_c_wal (WsSend (wal_packet (e, n)) i) (on_player (set_P_WalIndex (uincr n)) c)).
Proof.
  intros Hc (Ha & Hp & tr & Ht & Hm) Hws. rewrite Hws in Hm. destruct Hm as [Hf Hi].
  pose proof (fi_mem _ _ _ Hf) as Hw. simpl in Hw.
  pose proof (fi_pc _ _ _ Hf) as (Hn & Hst & He). simpl in Hn, Hst, He.
  assert (known_type e) as Hk by (by apply (Forall_lookup_1 _ _ _ _ (mem_known _ Hw) He)).
  destruct (Serialize_known e Hk) as (d & Hd & _). split.
  - unfold handleWalEntry, get_player, mbind, M_bind. rewrite Hc.
    rewrite decide_False by lia. unfold modify, lift, mret, M_ret, wal_packet; cbn [fst snd].
    by rewrite (ServerWal_Serialize_layout n e d Hd).
  - split; [done|]. split; [done|]. exists tr. split; [done|]. exists e, n. split; [done|]. split.
    + apply (follow_inv_step _ _ _ (Some (e, n)) _ Hf). apply follow_again.
    + simpl c_player. cbn [P_WalIndex set_P_WalIndex]. rewrite uincr_small; [simpl; lia|].
      pose proof (uint_bounds i). simpl in *. lia.
Qed.

Lemma client_inv_wal_send l c pkt i :
  client_inv l c → c_wal c = WsSend pkt i → o_unblocked (P_out (c_player c)) = true →
  client_inv l (wal_send pkt i c).
Proof.
  intros (Ha & Hp & tr & Ht & Hm) Hws Hub. rewrite Hws in Hm.
  destruct Hm as (e & n & -> & Hf & Hi). unfold wal_send.
  assert (acked l (wal_packet (e, n))) as Hak by (intros Hop; exfalso; revert Hop; by_compute).
  assert (Forall (acked l) (o_sent (o_send (wal_packet (e, n)) (P_out (c_player c))))) as Ha'.
  { destruct (o_send_cases (wal_packet (e, n)) (P_out (c_player c))) as (_ & _ & [[-> _]|[-> _]]); [|done].
    apply Forall_app; split; [done|by apply Forall_singleton]. }
  assert (follow_inv (c_from c) tr (l, (Returned (Err EOF), MkStream false (U32 0)))) as Hstop.
  { destruct Hf as [Hmem Htr _]. split; [done| |done]. intros j x k Hj. apply Htr. by apply lookup_app_l_Some. }
  assert (follow_inv (c_from c) (tr ++ [(e, n)]) (l, (Returned (Err EOF), MkStream false (U32 0))))
    as Hstop' by (destruct Hf as [Hmem Htr _]; by split).
  unfold wal_sent in Ht. unfold o_unblocked in Hub. apply orb_prop in Hub.
  destruct (o_send_cases (wal_packet (e, n)) (P_out (c_player c))) as (_ & _ & Hc).
  assert (filter is_wal (o_sent (P_out (c_player c)) ++ [wal_packet (e, n)])
          = wal_packet <$> (tr ++ [(e, n)])) as Hsnoc.
  { rewrite filter_app, Ht, fmap_app. by rewrite filter_cons_True by done. }
  destruct (o_done (P_out (c_player c))) eqn:Hd; (split; [done|split; [done|]]).
  - destruct Hc as [[Hs _]|[Hs _]]; unfold stream_inv, wal_sent; simpl; unfold o_sent in *; simpl.
    + exists (tr ++ [(e, n)]). rewrite Hs. by split.
    + exists tr. rewrite Hs. by split.
  - destruct Hc as [[Hs _]|[_ [?|?]]]; [|destruct Hub; congruence..].
    exists (tr ++ [(e, n)]). unfold wal_sent; simpl. rewrite Hs. split; [done|].
    split; [done|]. rewrite length_app. simpl. lia.
Qed.

Lemma client_inv_pkts_send l c pkt :
  client_inv l c → c_pkts c = PkSend pkt →
  client_inv l (set_c_pkts PkSelect (on_player (λ p, set_P_out (o_send pkt (P_out p)) p) c)).
Proof.
  intros (Ha & Hp & tr & Ht & Hm) Hpk. rewrite Hpk in Hp. destruct Hp as [Hak Hnw].
  destruct (o_send_cases pkt (P_out (c_player c))) as (_ & _ & Hc).
  unfold client_inv, stream_inv, wal_sent in *. simpl.
  destruct Hc as [[-> _]|[-> _]]; [|eauto]. split; [|split; [done|]].
  - apply Forall_app; split; [done|by apply Forall_singleton].
  - exists tr. by rewrite filter_wal_snoc.
Qed.

Lemma client_inv_next l c pc pc' i st' :
  mem_wf l → client_inv l c → c_wal c = WsNext pc i →
  next_step l (pc, MkStream (o_done (P_out (c_player c))) i) (pc', st') →
  client_inv l (set_c_wal (WsNext pc' (st_index st')) c).
Proof.
  intros Hl (Ha & Hp & tr & Ht & Hm) Hws Hn. rewrite Hws in Hm. destruct Hm as [Hf Hi].
  split; [done|]. split; [done|]. exists tr. split; [done|]. split; [|done].
  assert (follow_inv (c_from c) tr (l, (pc, MkStream (o_done (P_out (c_player c))) i))) as Hf'.
  { destruct Hf as [? ? ?]. by split. }
  pose proof (follow_inv_step _ _ _ None _ Hf' (follow_next _ _ _ Hn)) as Hf2.
  rewrite app_nil_r in Hf2. destruct Hf2 as [? ? ?]. by split.
Qed.

Lemma client_inv_stop_wal l c :
  client_inv l c → client_inv l (stop (set_c_wal WsStopped) c).
Proof.
  intros (Ha & Hp & tr & Ht & Hm). split; [done|]. split; [done|]. unfold stream_inv.
  exists tr. split; [done|]. simpl. destruct (c_wal c) as [pc i|pkt i|].
  - destruct Hm as [[Hw Htr _] _]. by split.
  - destruct Hm as (e & n & _ & [Hw Htr _] & _). split; [done| |done].
    intros j x k Hj. apply Htr. by apply lookup_app_l_Some.
  - done.
Qed.

(** *** Every step keeps the invariant *)

Lemma with_conn_eq {A} (m : M conn A) c c' r :
  with_conn m c = (c', r) → ∃ k, c' = on_player (set_P_Conn k) c.
Proof. unfold with_conn. destruct (m _) as [k x]. intros [= <- _]. by exists k. Qed.

Lemma srv_inv_players w p : srv_inv w → srv_inv (set_session (set_S_players p (w_session w)) w).
Proof. done. Qed.

Lemma srv_inv_leave w pid c :
  srv_inv w → w_clients w !! pid = Some c → srv_inv (join_leave pid w).
Proof.
  intros Hi Hc. apply (srv_inv_upd _ _ _ c); [by apply srv_inv_players|done|].
  exact (proj2 Hi pid c Hc).
Qed.

Lemma nudged_all_lookup w w' pid c :
  nudged_all w w' → w_clients w !! pid = Some c → ∃ c', w_clients w' !! pid = Some c' ∧ nudged c c'.
Proof.
  intros Hn Hc. specialize (Hn pid). rewrite Hc in Hn.
  destruct (w_clients w' !! pid) as [c'|]; [by exists c'|done].
Qed.

Lemma handled_inv w w1 r : srv_inv w → handled w w1 r → srv_inv w1.
Proof. intros Hi (_ & Hl & Hg & Hn & _). by apply (srv_inv_nudged w). Qed.

(** A packet taken from [in] and handled. *)
Lemma handle_step_inv since now pid pkt rest w c w1 r :
  srv_inv w → w_clients w !! pid = Some c →
  handlePacket since now pid pkt
    (upd_client pid (on_player (λ p, set_P_in (Chan (ch_cap (P_in p)) rest) p)) w) = (w1, r) →
  srv_inv w1 ∧ ∃ c1, w_clients w1 !! pid = Some c1 ∧ client_inv (S_wal (w_session w1)) c1
  ∧ ∀ p, r = Ok (Some p) → acked (S_wal (w_session w1)) p ∧ ¬ is_wal p.
Proof.
  intros Hi Hc Hh. set (f := on_player _) in Hh.
  assert (srv_inv (upd_client pid f w)) as Hi0
    by (apply (srv_inv_upd _ _ _ c Hi Hc); exact (proj2 Hi pid c Hc)).
  assert (w_clients (upd_client pid f w) !! pid = Some (f c)) as Hc0
    by (simpl; by rewrite lookup_alter_eq, Hc).
  pose proof (handlePacket_handled since now pid pkt _ (f c) w1 r Hc0 (proj1 Hi0) Hh) as Hd.
  pose proof (handled_inv _ _ _ Hi0 Hd) as Hi1. split; [done|].
  destruct Hd as (_ & _ & _ & Hn & _ & Ho).
  destruct (nudged_all_lookup _ _ _ _ Hn Hc0) as (c1 & Hc1 & _).
  exists c1. split; [done|]. split; [exact (proj2 Hi1 pid c1 Hc1)|done].
Qed.

Lemma client_step_inv w pid c w' :
  srv_inv w → w_clients w !! pid = Some c → client_step w pid c w' → srv_inv w'.
Proof.
  intros Hi Hc Hs. pose proof (proj2 Hi pid c Hc) as Hci.
  pose proof (proj1 (proj1 Hi)) as Hmem.
  destruct Hs as [c' _ Hk|c' e _ Hk|_ _ _ _ _ _|c' pkt _ _ Hk|c' e _ _ Hk|pkt _ _|_ _
    |pkt rest since now w1 o _ _ _ _ Hh|pkt rest since now w1 e _ _ _ _ Hh|pkt Hpk Hub
    |_ Hpk _|pkt rest _ _ Hb|_ _|pkt c' _ Hk|pkt c' e _ Hk|_ _ _
    |pc pc' i st' _ Hws Hn|e n i w1 o Hws Hh|e n i w1 err Hws Hh|err i Hws|pkt i Hws Hub];
    try (apply with_conn_eq in Hk as [k ->]);
    try (apply (srv_inv_upd _ _ _ c Hi Hc); exact Hci).
  - apply (srv_inv_leave _ _ (on_player (set_P_Conn k) c)).
    + apply (srv_inv_upd _ _ _ c Hi Hc). exact Hci.
    + simpl. by rewrite lookup_alter_eq, Hc.
  - destruct (handle_step_inv _ _ _ _ _ _ _ _ _ Hi Hc Hh) as (Hi1 & c1 & Hc1 & (Ha & _ & Hst) & Ho).
    apply (srv_inv_upd _ _ _ c1 Hi1 Hc1). split; [done|]. split; [|done].
    simpl. destruct o as [p|]; [|done]. by apply Ho.
  - destruct (handle_step_inv _ _ _ _ _ _ _ _ _ Hi Hc Hh) as (Hi1 & c1 & Hc1 & (Ha & _ & Hst) & _).
    apply (srv_inv_upd _ _ _ c1 Hi1 Hc1). by split_and!.
  - apply (srv_inv_upd _ _ _ c Hi Hc). by apply client_inv_pkts_send.
  - apply (srv_inv_upd _ _ _ c Hi Hc). destruct Hci as (Ha & _ & Hst). by split_and!.
  - apply (srv_inv_upd _ _ _ c Hi Hc). destruct Hci as (Ha & Hp & Hst).
    unfold client_inv, stream_inv, wal_sent. simpl. rewrite o_sent_take. done.
  - apply (srv_inv_upd _ _ _ c Hi Hc). by eapply client_inv_next.
  - destruct (handleWalEntry_spec pid e n i w c Hc Hci Hws) as [Heq Hnew].
    rewrite Heq in Hh. simplify_eq. split; [apply Hi|].
    intros q c'. simpl. destruct (decide (q = pid)) as [->|Hne].
    + rewrite !lookup_alter_eq, Hc. by intros [= <-].
    + rewrite !lookup_alter_ne by done. apply Hi.
  - destruct (handleWalEntry_spec pid e n i w c Hc Hci Hws) as [Heq _].
    rewrite Heq in Hh. simplify_eq.
  - apply (srv_inv_upd _ _ _ c Hi Hc). by apply client_inv_stop_wal.
  - apply (srv_inv_upd _ _ _ c Hi Hc). by apply client_inv_wal_send.
Qed.

Lemma srv_inv_cancel w : srv_inv w → srv_inv (session_cancel w).
Proof.
  intros [Hl Hc]. pose proof (log_inv_cancel _ Hl) as Hl'. split; [done|].
  intros pid c'. simpl. rewrite lookup_fmap. destruct (w_clients w !! pid) as [c|] eqn:Hpid; [|done].
  intros [= <-]. pose proof (Hc pid c Hpid) as Hci.
  apply (client_inv_grow (S_wal (w_session w))); [apply Hl|apply Hl'|by split; [|left]|exact Hci].
Qed.

Lemma srv_inv_close w : srv_inv w → srv_inv (fst (session_Close w)).
Proof.
  intros Hi%srv_inv_cancel. unfold session_Close, mbind, M_bind, modify, on_wal, zoom.
  set (w1 := session_cancel w) in *. pose proof (log_inv_Close _ (proj1 Hi)) as Hl.
  pose proof (grows_Close (S_wal (w_session w1))) as Hg.
  destruct (Close (S_wal (w_session w1))) as [l r]. simpl in *.
  apply (srv_inv_nudged w1); [done|done|by apply nudged_all_refl|done].
Qed.

Lemma srv_inv_join w pid playerID name worldID walIndex k picks :
  srv_inv w → srv_inv (join_register pid playerID name worldID walIndex k picks w).
Proof.
  intros Hi. split; [apply Hi|]. intros q c. simpl. destruct (decide (q = pid)) as [->|Hne].
  - rewrite lookup_insert_eq. intros [= <-]. split; [constructor|]. split; [done|].
    exists []. split; [done|]. simpl. split; [|lia]. split; [apply Hi|done|simpl; lia].
  - rewrite lookup_insert_ne by done. apply Hi.
Qed.

Lemma srv_inv_step w w' : srv_inv w → srv_step w w' → srv_inv w'.
Proof.
  intros Hi Hs. destruct Hs as [pid c w' Hc Hs|pid playerID name worldID walIndex k picks Hn _| |].
  - by eapply client_step_inv.
  - by apply srv_inv_join.
  - by apply srv_inv_close.
  - by apply srv_inv_cancel.
Qed.

Lemma srv_inv_reach w w' : srv_inv w → srv_reach w w' → srv_inv w'.
Proof. induction 2; eauto using srv_inv_step. Qed.

(** ** What is written to a player's connection *)

Definition hello_packet : Packet :=
  MkPacket OpHello (server_hello_layout (MkServerHello server_magic (U32 65536))).

Definition not_nop (pkt : Packet) : Prop := p_Op pkt ≠ OpNOP.
#[export] Instance not_nop_dec pkt : Decision (not_nop pkt).
Proof. unfold not_nop. apply _. Defined.

(** The connection carries the HELLO, then the packets taken from [out] with NOPs
    in between; a failed write may have cut the last one. *)
Definition conn_inv (c : Client) : Prop :=
  let t := tx (P_Conn (c_player c)) in
  let taken := filter not_nop (pt_taken (o_port (P_out (c_player c)))) in
  (∃ ps k, Forall sendable ps ∧ t = take k (stream (hello_packet :: ps))
     ∧ filter not_nop ps `prefix_of` taken)
  ∧ match c_join c with
    | JHello => t = [] ∧ taken = [] ∧ c_out c = OutSelect
    | JRunning => ∃ ps, Forall sendable ps ∧
        match c_out c with
        | OutSelect => t = stream (hello_packet :: ps) ∧ filter not_nop ps = taken
        | OutWrite pkt => t = stream (hello_packet :: ps) ∧ filter not_nop (ps ++ [pkt]) = taken
        | OutStopped => True
        end
    | JLeft => match c_out c with OutWrite _ => False | _ => True end
    end.

Lemma SendRawTimeoutDefault_tx pkt k :
  let '(k', r) := SendRawTimeoutDefault pkt k in
  (sendable pkt ∧ ∃ j, tx k' = tx k ++ take j (frame pkt)
     ∧ (r = Ok tt → take j (frame pkt) = frame pkt))
  ∨ (¬ sendable pkt ∧ tx k' = tx k ∧ ∃ e, r = Err e).
Proof.
  unfold SendRawTimeoutDefault, SendRawTimeout, mbind, M_bind, SetWriteDeadline, modify, deferred.
  set (k0 := Conn _ _ _ _ _ _). destruct (decide (sendable pkt)) as [Hs|Hs].
  - rewrite SendRaw_sendable by done. unfold conn_write. simpl.
    destruct (tx_script k) as [|[|n c] s]; simpl; left; (split; [done|]).
    + exists (length (frame pkt)). by rewrite take_ge by done.
    + exists (length (frame pkt)). by rewrite take_ge by done.
    + by exists n.
  - rewrite SendRaw_oversized by done. right. split_and!; [done|done|by eexists].
Qed.

#[export] Instance sendable_dec pkt : Decision (sendable pkt).
Proof. unfold sendable. apply _. Defined.

Lemma RecvRaw_tx k : tx (fst (RecvRaw k)) = tx k.
Proof.
  rewrite RecvRaw_unfold. destruct (read_full_from _ _ _) as [r1 [h|e| |]]; try done.
  destruct (le_get16 h 0 2); try done. by destruct (read_full_from r1 _ _) as [r2 [d|e| |]].
Qed.

Lemma RecvRawTimeoutDefault_tx k : tx (fst (RecvRawTimeoutDefault k)) = tx k.
Proof.
  unfold RecvRawTimeoutDefault, RecvRawTimeout, mbind, M_bind, SetReadDeadline, modify, deferred.
  set (k0 := Conn _ _ _ _ _ _). pose proof (RecvRaw_tx k0) as H. destruct (RecvRaw k0). done.
Qed.

Lemma join_hello_eq k : join_hello k = SendRawTimeoutDefault hello_packet k.
Proof. unfold join_hello, mbind, M_bind, lift. by rewrite ServerHello_Serialize_layout. Qed.

Lemma stream_app ps qs : stream (ps ++ qs) = stream ps ++ stream qs.
Proof. unfold stream. by rewrite fmap_app, concat_app. Qed.

Lemma stream_singleton p : stream [p] = frame p.
Proof. unfold stream. cbn [fmap list_fmap concat]. apply app_nil_r. Qed.

Lemma hello_sendable : sendable hello_packet.
Proof. vm_compute. discriminate. Qed.

(** Writing one more packet, possibly only in part. *)
Lemma conn_inv_write ps pkt j taken t' :
  Forall sendable ps → sendable pkt →
  filter not_nop (ps ++ [pkt]) = taken →
  t' = stream (hello_packet :: ps) ++ take j (frame pkt) →
  ∃ ps k, Forall sendable ps ∧ t' = take k (stream (hello_packet :: ps))
     ∧ filter not_nop ps `prefix_of` taken.
Proof.
  intros Hps Hp Ht ->. exists (ps ++ [pkt]), (length (stream (hello_packet :: ps)) + j).
  split_and!.
  - apply Forall_app; split; [done|by apply Forall_singleton].
  - rewrite app_comm_cons, (stream_app _ [pkt]), stream_singleton, take_app_add. done.
  - by rewrite Ht.
Qed.

Lemma conn_inv_nudged c c' : nudged c c' → conn_inv c → conn_inv c'.
Proof.
  intros (_ & Hj & _ & _ & Ho & _ & _ & Hk & _ & Ht & _). unfold conn_inv. by rewrite Hj, Ho, Hk, Ht.
Qed.

(** The two steps of [handleMsgOut] that write. *)
Lemma conn_inv_out_write c c' pkt r :
  conn_inv c → c_join c = JRunning → c_out c = OutWrite pkt →
  with_conn (SendRawTimeoutDefault pkt) c = (c', r) →
  (r = Ok tt → conn_inv (set_c_out OutSelect c'))
  ∧ conn_inv (stop (set_c_out OutStopped) c').
Proof.
  intros [Hall Hm] Hj Ho Hw. rewrite Hj, Ho in Hm. destruct Hm as (ps & Hps & Ht & Htk).
  unfold with_conn in Hw. pose proof (SendRawTimeoutDefault_tx pkt (P_Conn (c_player c))) as Hs.
  destruct (SendRawTimeoutDefault pkt (P_Conn (c_player c))) as [k' r']. simplify_eq.
  unfold conn_inv; simpl. rewrite Hj.
  destruct Hs as [(Hsend & j & Htx & Hok)|(_ & Htx & e & ->)].
  - rewrite Ht in Htx. pose proof (conn_inv_write ps pkt j _ _ Hps Hsend Htk Htx) as Hgen.
    split; [|split; [done|by exists ps]]. intros ->. split; [done|].
    exists (ps ++ [pkt]). split; [apply Forall_app; split; [done|by apply Forall_singleton]|].
    split; [|done]. rewrite Htx, Hok by done.
    by rewrite app_comm_cons, (stream_app _ [pkt]), stream_singleton.
  - split; [done|]. rewrite Htx. split; [done|by exists ps].
Qed.

(** The HELLO. *)
Lemma conn_inv_hello c c' r :
  conn_inv c → c_join c = JHello → with_conn join_hello c = (c', r) →
  (r = Ok tt → conn_inv (set_c_join JRunning c'))
  ∧ conn_inv (set_c_join JLeft (cancel_player c')).
Proof.
  intros [Hall Hm] Hj Hw. rewrite Hj in Hm. destruct Hm as (Ht & Htk & Ho).
  unfold with_conn in Hw. rewrite join_hello_eq in Hw.
  pose proof (SendRawTimeoutDefault_tx hello_packet (P_Conn (c_player c))) as Hs.
  destruct (SendRawTimeoutDefault hello_packet (P_Conn (c_player c))) as [k' r']. simplify_eq.
  destruct Hs as [(_ & j & Htx & Hok)|(Hns & _)]; [|by destruct (Hns hello_sendable)].
  rewrite Ht in Htx. simpl in Htx. unfold conn_inv; simpl. rewrite Ho, Htk.
  assert (∃ ps k, Forall sendable ps ∧ tx k' = take k (stream (hello_packet :: ps))
    ∧ filter not_nop ps `prefix_of` []) as Hgen.
  { exists [], j. split_and!; [done| |done]. by rewrite stream_singleton. }
  split; [|done]. intros ->. split; [done|]. exists []. split; [done|]. split; [|done].
  by rewrite stream_singleton, Htx, Hok.
Qed.

Definition conns_inv (w : World) : Prop :=
  ∀ pid c, w_clients w !! pid = Some c → conn_inv c.

Lemma conns_inv_upd w pid f c :
  conns_inv w → w_clients w !! pid = Some c → conn_inv (f c) → conns_inv (upd_client pid f w).
Proof.
  intros Hi Hpid Hf q c'. simpl. destruct (decide (q = pid)) as [->|Hne].
  - rewrite lookup_alter_eq, Hpid. by intros [= <-].
  - rewrite lookup_alter_ne by done. apply Hi.
Qed.

Lemma conns_inv_nudged w w' : nudged_all w w' → conns_inv w → conns_inv w'.
Proof.
  intros Hn Hi pid c' Hc'. specialize (Hn pid). rewrite Hc' in Hn.
  destruct (w_clients w !! pid) as [c|] eqn:Hc; [|done].
  eapply conn_inv_nudged; [done|]. by eapply Hi.
Qed.

Lemma conn_inv_running_write c pkt : conn_inv c → c_out c = OutWrite pkt → c_join c = JRunning.
Proof. intros [_ Hm] Ho. destruct (c_join c); [by destruct Hm as (_&_&?); congruence|done|by rewrite Ho in Hm]. Qed.

Lemma conn_inv_send pkt c :
  conn_inv c → conn_inv (on_player (λ p, set_P_out (o_send pkt (P_out p)) p) c).
Proof. unfold conn_inv; simpl. by rewrite o_send_taken. Qed.

(** [handleMsgOut] takes the next packet, or writes a NOP. *)
Lemma conn_inv_out_take pkt rest c :
  conn_inv c → c_join c = JRunning → c_out c = OutSelect →
  ch_buf (pt_chan (o_port (P_out (c_player c)))) = pkt :: rest →
  conn_inv (set_c_out (OutWrite pkt) (on_player (λ p, set_P_out (o_take (P_out p)) p) c)).
Proof.
  intros [(ps & k & Hps & Ht & Hpre) Hm] Hj Ho Hb. rewrite Hj, Ho in Hm.
  unfold conn_inv; simpl. rewrite Hj. unfold port_take. rewrite Hb; simpl.
  rewrite filter_app. split.
  - exists ps, k. split_and!; [done..|]. etrans; [done|by eexists].
  - destruct Hm as (qs & Hqs & Hst & Htk). exists qs. split; [done|]. split; [done|].
    by rewrite filter_app, Htk.
Qed.

Lemma conn_inv_out_nop c :
  conn_inv c → c_join c = JRunning → c_out c = OutSelect → conn_inv (set_c_out (OutWrite nop) c).
Proof.
  intros [Hall Hm] Hj Ho. rewrite Hj, Ho in Hm. split; [done|]. simpl. rewrite Hj.
  destruct Hm as (qs & Hqs & Hst & Htk). exists qs. split; [done|]. split; [done|].
  rewrite filter_app, Htk. rewrite filter_cons_False, filter_nil, app_nil_r; [done|by intros []].
Qed.

Lemma conn_inv_out_stop c : conn_inv c → c_join c = JRunning → conn_inv (stop (set_c_out OutStopped) c).
Proof.
  intros [Hall Hm] Hj. rewrite Hj in Hm. destruct Hm as (ps & Hps & _). split; [done|]. simpl.
  rewrite Hj. by exists ps.
Qed.

Lemma conn_inv_leave c :
  conn_inv c → c_out c = OutStopped → conn_inv (set_c_join JLeft (cancel_player c)).
Proof. intros [Hall _] Ho. split; [done|]. simpl. by rewrite Ho. Qed.

Lemma handlePacket_nudged since now pid pkt w c w1 r :
  w_clients w !! pid = Some c → log_inv (S_wal (w_session w)) →
  handlePacket since now pid pkt w = (w1, r) → nudged_all w w1.
Proof. intros Hc Hl Hh. by destruct (handlePacket_handled _ _ _ _ _ _ _ _ Hc Hl Hh) as (_&_&_&?&_). Qed.

Lemma conns_handle since now pid pkt rest w c w1 r g :
  srv_inv w → conns_inv w → w_clients w !! pid = Some c →
  handlePacket since now pid pkt
    (upd_client pid (on_player (λ p, set_P_in (Chan (ch_cap (P_in p)) rest) p)) w) = (w1, r) →
  (∀ c, conn_inv c → conn_inv (g c)) → conns_inv (upd_client pid g w1).
Proof.
  intros Hi Hci Hc Hh Hg. set (f := on_player _) in Hh.
  assert (w_clients (upd_client pid f w) !! pid = Some (f c)) as Hc0
    by (simpl; by rewrite lookup_alter_eq, Hc).
  assert (conns_inv (upd_client pid f w)) as Hci0
    by (apply (conns_inv_upd _ _ _ c Hci Hc); exact (Hci pid c Hc)).
  pose proof (handlePacket_nudged since now pid pkt _ (f c) w1 r Hc0 (proj1 Hi) Hh) as Hn.
  pose proof (conns_inv_nudged _ _ Hn Hci0) as Hci1.
  destruct (nudged_all_lookup _ _ _ _ Hn Hc0) as (c1 & Hc1 & _).
  apply (conns_inv_upd _ _ _ c1 Hci1 Hc1). by apply Hg, (Hci1 pid).
Qed.

(** What is received does not change what was written. *)
Lemma conn_inv_recv c c' r :
  conn_inv c → with_conn RecvRawTimeoutDefault c = (c', r) → conn_inv c'.
Proof.
  intros Hcc Hk. unfold with_conn in Hk. pose proof (RecvRawTimeoutDefault_tx (P_Conn (c_player c))) as Ht.
  destruct (RecvRawTimeoutDefault _) as [k r']. simplify_eq. unfold conn_inv in *. simpl in *. by rewrite Ht.
Qed.

Lemma client_step_conns w pid c w' :
  srv_inv w → conns_inv w → w_clients w !! pid = Some c → client_step w pid c w' → conns_inv w'.
Proof.
  intros Hi Hci Hc Hs. pose proof (Hci pid c Hc) as Hcc.
  destruct Hs as [c' Hj Hk|c' e Hj Hk|Hj Hd _ _ Ho _|c' pkt Hj _ Hk|c' e Hj _ Hk|pkt _ _|_ _
    |pkt rest since now w1 o _ Hpk _ _ Hh|pkt rest since now w1 e _ Hpk _ _ Hh|pkt Hpk Hub
    |_ Hpk _|pkt rest Hj Ho Hb|Hj Ho|pkt c' Ho Hk|pkt c' e Ho Hk|Hj Ho _
    |pc pc' i st' _ Hws Hn|e n i w1 o Hws Hh|e n i w1 err Hws Hh|err i Hws|pkt i Hws Hub];
    try (apply (conns_inv_upd _ _ _ c Hci Hc); exact Hcc).
  - apply (conns_inv_upd _ _ _ c Hci Hc). by apply (conn_inv_hello c c' (Ok tt)).
  - intros q d. simpl.
    destruct (decide (q = pid)) as [->|Hne].
    + rewrite !lookup_alter_eq, Hc. intros [= <-]. by apply (conn_inv_hello c c' (Err e)).
    + rewrite ?lookup_alter_ne by done. apply Hci.
  - intros q d. simpl. destruct (decide (q = pid)) as [->|Hne].
    + rewrite lookup_alter_eq, Hc. intros [= <-]. by apply conn_inv_leave.
    + rewrite ?lookup_alter_ne by done. apply Hci.
  - apply (conns_inv_upd _ _ _ c Hci Hc). exact (conn_inv_recv _ _ _ Hcc Hk).
  - apply (conns_inv_upd _ _ _ c Hci Hc). exact (conn_inv_recv _ _ _ Hcc Hk).
  - by eapply conns_handle.
  - by eapply conns_handle.
  - apply (conns_inv_upd _ _ _ c Hci Hc). by apply conn_inv_send.
  - apply (conns_inv_upd _ _ _ c Hci Hc). by eapply conn_inv_out_take.
  - apply (conns_inv_upd _ _ _ c Hci Hc). by apply conn_inv_out_nop.
  - apply (conns_inv_upd _ _ _ c Hci Hc). pose proof (conn_inv_running_write _ _ Hcc Ho) as Hj.
    by apply (conn_inv_out_write c c' pkt (Ok tt)).
  - apply (conns_inv_upd _ _ _ c Hci Hc). pose proof (conn_inv_running_write _ _ Hcc Ho) as Hj.
    by apply (conn_inv_out_write c c' pkt (Err e)).
  - apply (conns_inv_upd _ _ _ c Hci Hc). by apply conn_inv_out_stop.
  - destruct (handleWalEntry_spec pid e n i w c Hc (proj2 Hi pid c Hc) Hws) as [Heq _].
    rewrite Heq in Hh. simplify_eq.
    intros q d. simpl. destruct (decide (q = pid)) as [->|Hne].
    + rewrite !lookup_alter_eq, Hc. intros [= <-]. exact Hcc.
    + rewrite ?lookup_alter_ne by done. apply Hci.
  - destruct (handleWalEntry_spec pid e n i w c Hc (proj2 Hi pid c Hc) Hws) as [Heq _].
    rewrite Heq in Hh. simplify_eq.
  - apply (conns_inv_upd _ _ _ c Hci Hc). pose proof (conn_inv_send pkt c Hcc) as Hx.
    unfold wal_send. by destruct (o_done (P_out (c_player c))).
Qed.

Lemma srv_step_conns w w' : srv_inv w → conns_inv w → srv_step w w' → conns_inv w'.
Proof.
  intros Hi Hci Hs. destruct Hs as [pid c w' Hc Hs|pid playerID name worldID walIndex k picks Hn Htx| |].
  - by eapply client_step_conns.
  - intros q c. simpl. destruct (decide (q = pid)) as [->|Hne].
    + rewrite lookup_insert_eq. intros [= <-]. split; [|done]. exists [], 0. by split_and!.
    + rewrite lookup_insert_ne by done. apply Hci.
  - intros pid c. unfold session_Close, mbind, M_bind, modify, on_wal, zoom.
    destruct (Close _). simpl. rewrite lookup_fmap.
    destruct (w_clients w !! pid) as [c0|] eqn:Hc; [|done]. intros [= <-]. exact (Hci pid c0 Hc).
  - intros pid c. simpl. rewrite lookup_fmap.
    destruct (w_clients w !! pid) as [c0|] eqn:Hc; [|done]. intros [= <-]. exact (Hci pid c0 Hc).
Qed.

Lemma srv_reach_inv w w' :
  srv_inv w → conns_inv w → srv_reach w w' → srv_inv w' ∧ conns_inv w'.
Proof.
  intros Hi Hc Hr. induction Hr as [|w w1 w2 Hs _ IH]; [done|].
  apply IH; [by eapply srv_inv_step|by eapply srv_step_conns].
Qed.

(** ** From the log to the wire *)

(** The log packets of the entries [l] of the log from index [i] on. *)
Definition log_packets (i : u32) (l : list WalEntry) : list Packet :=
  imap (λ j e, wal_packet (e, U32 (uval i + Z.of_nat j))) l.

(** The log from index [i] on. *)
Definition log_from (i : u32) (l : WAL) : list WalEntry := drop (Z.to_nat (uval i)) (w_entries l).

Lemma follow_inv_trace i0 tr l p :
  follow_inv i0 tr (l, p) →
  wal_packet <$> tr = log_packets i0 (take (length tr) (log_from i0 l)).
Proof.
  intros Hf. pose proof (follow_inv_taken _ _ _ Hf) as Ht. simpl in Ht.
  apply list_eq. intros j. unfold log_packets, log_from. rewrite list_lookup_imap, list_lookup_fmap.
  rewrite <- Ht, list_lookup_fmap. destruct (tr !! j) as [[e i]|] eqn:Hj; [|done]. simpl.
  destruct (fi_trace _ _ _ Hf j e i Hj) as [Hi _]. rewrite <- Hi, to_uint_uval. done.
Qed.

Lemma client_log_packets l c :
  client_inv l c → ∃ n, wal_sent c = log_packets (c_from c) (take n (log_from (c_from c) l)).
Proof.
  intros (_ & _ & tr & Ht & Hm). exists (length tr). rewrite Ht.
  destruct (c_wal c) as [pc i|pkt i|].
  - destruct Hm as [Hf _]. by eapply follow_inv_trace.
  - destruct Hm as (e & n & _ & [Hw Htr _] & _).
    apply (follow_inv_trace _ _ _ (Returned (Err EOF), MkStream false (U32 0))). split; [done| |done].
    intros j x k Hj. apply Htr. by apply lookup_app_l_Some.
  - by eapply follow_inv_trace.
Qed.

Lemma log_packets_prefix i l1 l2 : l1 `prefix_of` l2 → log_packets i l1 `prefix_of` log_packets i l2.
Proof. intros [k ->]. unfold log_packets. rewrite imap_app. by eexists. Qed.

Lemma log_packets_take i l ps :
  ps `prefix_of` log_packets i l → ∃ n, ps = log_packets i (take n l).
Proof.
  intros Hp. exists (length ps). rewrite (prefix_take_length _ _ Hp) at 1.
  unfold log_packets. apply list_eq. intros j. rewrite lookup_take, !list_lookup_imap, lookup_take.
  by case_decide.
Qed.

Lemma filter_prefix {A} (P : A → Prop) `{∀ x, Decision (P x)} (l k : list A) :
  l `prefix_of` k → filter P l `prefix_of` filter P k.
Proof. intros [x ->]. rewrite filter_app. by eexists. Qed.

Lemma filter_wal_not_nop (l : list Packet) : filter is_wal (filter not_nop l) = filter is_wal l.
Proof.
  rewrite list_filter_filter. apply list_filter_iff. intros pkt. unfold is_wal, not_nop.
  destruct opcodes_distinct as (_ & _ & _ & H). split; [by intros [? _]|].
  intros Hw. split; [done|]. rewrite Hw. congruence.
Qed.

Lemma filter_wal_hello ps : filter is_wal (hello_packet :: ps) = filter is_wal ps.
Proof. apply filter_cons_False. unfold is_wal. by_compute. Qed.

(** What a reader of the connection gets before its first failure. *)
Definition received (k : nat) (c : Client) : list Packet :=
  let sent := tx (P_Conn (c_player c)) in
  fst (recv_all (S (length sent)) (conn_on (take k sent) EOF)).

Lemma received_spec k c :
  conn_inv c → ∃ ps n, received k c = take n (hello_packet :: ps)
  ∧ filter not_nop ps `prefix_of` filter not_nop (pt_taken (o_port (P_out (c_player c)))).
Proof.
  intros [(ps & j & Hps & Ht & Hpre) _]. unfold received. cbv zeta. rewrite Ht, take_take.
  set (hs := hello_packet :: ps).
  assert (Forall sendable hs) as Hhs by (constructor; [apply hello_sendable|done]).
  destruct (recv_all_cut hs (k `min` j) (S (length (take j (stream hs))))
    (conn_on (take (k `min` j) (stream hs)) EOF) Hhs eq_refl eq_refl) as (n & e & Hr & _).
  { simpl. rewrite !length_take. lia. }
  exists ps, n. by rewrite Hr.
Qed.

Lemma received_prefix k c (P : Packet → Prop) `{∀ x, Decision (P x)} :
  conn_inv c → ¬ P hello_packet → (∀ pkt, P pkt → not_nop pkt) →
  filter P (received k c) `prefix_of` filter P (o_sent (P_out (c_player c))).
Proof.
  intros Hc Hh Hn. destruct (received_spec k c Hc) as (ps & n & -> & Hpre).
  assert (∀ l : list Packet, filter P (filter not_nop l) = filter P l) as Hf.
  { intros l. rewrite list_filter_filter. apply list_filter_iff. intros pkt.
    split; [by intros [? _]|]. intros Hp. split; [done|by apply Hn]. }
  etrans; [apply filter_prefix, (take_prefix n)|]. rewrite filter_cons_False by done.
  rewrite <- Hf. etrans; [apply filter_prefix, Hpre|]. rewrite Hf. apply filter_prefix.
  unfold o_sent, pt_sent. by eexists.
Qed.

(** A session as [OpenSession] makes it from a file of distinct entries. *)
Definition fresh_world (id : vec u8 16) (secret : vec u8 8) (dir : bytes)
    (sink : Sink PositionEvent) (l : WAL) : World :=
  MkWorld (MkSession id secret dir false ∅ l sink) ∅.

Lemma fresh_world_inv id secret dir sink l :
  log_inv l → srv_inv (fresh_world id secret dir sink l) ∧ conns_inv (fresh_world id secret dir sink l).
Proof. intros Hl. split; [split; [done|]|]; intros pid c; cbn; by rewrite lookup_empty. Qed.

(** *** A player that is up to date *)

(** The stream goroutine is blocked on the current notification channel, and the
    writer has nothing to write. *)
Definition idle (l : WAL) (c : Client) : Prop :=
  c_join c = JRunning ∧ (∃ i, c_wal c = WsNext (Select (w_notify l)) i)
  ∧ c_out c = OutSelect ∧ ch_buf (pt_chan (o_port (P_out (c_player c)))) = [].

Lemma idle_sent_all l c :
  client_inv l c → (Z.of_nat (length (w_entries l)) < 2 ^ 32)%Z →
  (∃ i, c_wal c = WsNext (Select (w_notify l)) i) →
  wal_sent c = log_packets (c_from c) (log_from (c_from c) l).
Proof.
  intros (_ & _ & tr & Ht & Hm) Hlen [i Hws]. rewrite Hws in Hm. destruct Hm as [Hf Hi].
  rewrite Ht, (follow_inv_trace _ _ _ _ Hf). unfold log_from. rewrite take_ge; [done|].
  pose proof (fi_pc _ _ _ Hf) as (Hst & _ & Hcnt). simpl in Hst, Hcnt.
  specialize (Hcnt eq_refl). rewrite (count_small l (fi_mem _ _ _ Hf) Hlen) in Hcnt.
  rewrite length_drop. pose proof (uint_bounds (c_from c)). lia.
Qed.

Lemma idle_received_all l c :
  client_inv l c → conn_inv c → (Z.of_nat (length (w_entries l)) < 2 ^ 32)%Z → idle l c →
  filter is_wal (received (length (tx (P_Conn (c_player c)))) c)
  = log_packets (c_from c) (log_from (c_from c) l).
Proof.
  intros Hci [_ Hm] Hlen (Hj & Hws & Ho & Hb). rewrite <- (idle_sent_all l c Hci Hlen Hws).
  rewrite Hj, Ho in Hm. destruct Hm as (ps & Hps & Ht & Htk).
  unfold received. cbv zeta. rewrite take_ge by done.
  assert (Forall sendable (hello_packet :: ps)) as Hhs by (constructor; [apply hello_sendable|done]).
  destruct (recv_all_cut (hello_packet :: ps) (length (stream (hello_packet :: ps)))
    (S (length (tx (P_Conn (c_player c))))) (conn_on (tx (P_Conn (c_player c))) EOF) Hhs)
    as (n & e & Hr & Hall); [by rewrite Ht, take_ge|done|simpl; lia|].
  destruct Hall as [-> ->]; [done|]. rewrite Hr, take_ge by done. cbn [fst].
  rewrite filter_wal_hello, <- filter_wal_not_nop, Htk, filter_wal_not_nop.
  unfold wal_sent, o_sent, pt_sent. by rewrite Hb, app_nil_r.
Qed.

(** *** An example run: a player joins a session whose log has one entry *)

Definition ex_w0 : World :=
  fresh_world (arr_of 16 [U8 1]) (arr_of 8 [U8 2]) (str "d") SinkNull ex_wal1.
Definition ex_w1 : World :=
  join_register 0 ex_player (arr_of 8 [U8 65]) (U8 3) (U32 0) (conn_on [] EOF) [] ex_w0.

Definition ex_c0 : Client :=
  MkClient (MkPlayer ex_player (arr_of 8 [U8 65]) (U8 3) (U32 0) None (conn_on [] EOF)
    (make_chan Packet 64) (make_outlet Packet false [] 64)) (U32 0) JHello InRecv PkSelect OutSelect
    (WsNext ReadNotify (U32 0)).
Definition ex_c (w : World) : Client := default ex_c0 (w_clients w !! 0).

Definition ex_w2 := upd_client 0 (λ _, set_c_join JRunning (fst (with_conn join_hello (ex_c ex_w1)))) ex_w1.
Definition ex_w3 := upd_client 0 (set_c_wal (WsNext (CallGet 1) (U32 0))) ex_w2.
Definition ex_w4 := upd_client 0 (set_c_wal (WsNext (Returned (Ok (ex_item, U32 0))) (U32 1))) ex_w3.
Definition ex_w5 := upd_client 0 (set_c_wal (WsSend (wal_packet (ex_item, U32 0)) (U32 1)))
  (fst (handleWalEntry 0 ex_item (U32 0) ex_w4)).
Definition ex_w6 := upd_client 0 (wal_send (wal_packet (ex_item, U32 0)) (U32 1)) ex_w5.
Definition ex_w7 := upd_client 0 (λ c, set_c_out (OutWrite (wal_packet (ex_item, U32 0)))
  (on_player (λ p, set_P_out (o_take (P_out p)) p) c)) ex_w6.
Definition ex_w8 := upd_client 0 (λ _, set_c_out OutSelect
  (fst (with_conn (SendRawTimeoutDefault (wal_packet (ex_item, U32 0))) (ex_c ex_w7)))) ex_w7.
Definition ex_w9 := upd_client 0 (set_c_wal (WsNext (CallGet 1) (U32 1))) ex_w8.
Definition ex_w10 := upd_client 0 (set_c_wal (WsNext (Select 1) (U32 1))) ex_w9.

Ltac ex_client :=
  match goal with
  | |- srv_step ?w _ => apply (srv_client w 0 (ex_c w)); [vm_compute; reflexivity|]
  end.

Lemma ex_srv_reach : srv_reach ex_w0 ex_w10.
Proof.
  apply (rtc_l _ _ ex_w1); [by apply srv_join|].
  apply (rtc_l _ _ ex_w2). { ex_client. apply st_hello_ok; vm_compute; reflexivity. }
  apply (rtc_l _ _ ex_w3).
  { ex_client. apply (st_next _ _ _ ReadNotify (CallGet 1) (U32 0) (MkStream false (U32 0)));
      [vm_compute; reflexivity..|]. exact (next_read_notify ex_wal1 (MkStream false (U32 0))). }
  apply (rtc_l _ _ ex_w4).
  { ex_client. apply (st_next _ _ _ (CallGet 1) _ (U32 0) (MkStream false (U32 1)));
      [vm_compute; reflexivity..|].
    apply (next_get_some _ 1 (MkStream false (U32 0))). vm_compute. reflexivity. }
  apply (rtc_l _ _ ex_w5).
  { ex_client. apply (st_wal_entry _ _ _ ex_item (U32 0) (U32 1) _ (Some (wal_packet (ex_item, U32 0))));
      vm_compute; reflexivity. }
  apply (rtc_l _ _ ex_w6).
  { ex_client. apply (st_wal_send _ _ _ (wal_packet (ex_item, U32 0)) (U32 1)); vm_compute; reflexivity. }
  apply (rtc_l _ _ ex_w7).
  { ex_client. apply (st_out_take _ _ _ (wal_packet (ex_item, U32 0)) []); vm_compute; reflexivity. }
  apply (rtc_l _ _ ex_w8).
  { ex_client. apply (st_out_write _ _ _ (wal_packet (ex_item, U32 0))); vm_compute; reflexivity. }
  apply (rtc_l _ _ ex_w9).
  { ex_client. apply (st_next _ _ _ ReadNotify (CallGet 1) (U32 1) (MkStream false (U32 1)));
      [vm_compute; reflexivity..|]. exact (next_read_notify ex_wal1 (MkStream false (U32 1))). }
  apply (rtc_l _ _ ex_w10); [|apply rtc_refl].
  ex_client. apply (st_next _ _ _ (CallGet 1) (Select 1) (U32 1) (MkStream false (U32 1)));
    [vm_compute; reflexivity..|].
  apply (next_get_none _ 1 (MkStream false (U32 1))). vm_compute. reflexivity.
Qed.

(** *** What a player's step does to its session *)

(** Only a log packet changes the log, by one [Append]; nothing changes the
    identity of the session. *)
Definition session_kept (w w' : World) : Prop :=
  S_ID (w_session w') = S_ID (w_session w) ∧ S_Secret (w_session w') = S_Secret (w_session w)
  ∧ S_DataDir (w_session w') = S_DataDir (w_session w) ∧ S_done (w_session w') = S_done (w_session w)
  ∧ (S_wal (w_session w') = S_wal (w_session w)
     ∨ ∃ e, normal e ∧ S_wal (w_session w') = fst (Append e (S_wal (w_session w)))).

Lemma session_kept_refl w w' : w_session w' = w_session w → session_kept w w'.
Proof. intros H. unfold session_kept. rewrite H. auto 10. Qed.

Lemma handlePositionUpdate_kept since now pid pos w :
  session_kept w (fst (handlePositionUpdate since now pid pos w)).
Proof.
  unfold handlePositionUpdate, get_player, mbind, M_bind, lift, modify.
  destruct (w_clients w !! pid) as [c|]; [|by apply session_kept_refl].
  rewrite ServerPosition_Serialize_layout. destruct (pos_due (c_player c) since);
    [|by apply session_kept_refl].
  unfold gets, ignore, on_sink, zoom, sink_Send.
  by destruct (S_sink _); split_and!; auto.
Qed.

Lemma handlePacket_kept since now pid pkt w :
  session_kept w (fst (handlePacket since now pid pkt w)).
Proof.
  unfold handlePacket. destruct (decide (p_Op pkt = OpNOP)); [by apply session_kept_refl|].
  destruct (decide (p_Op pkt = OpWal)) as [Hop|].
  - unfold mbind, M_bind, lift. destruct (Parse_cases (p_Data pkt)) as [(_ & e & -> & He)|(_ & err & ->)];
      cbn [wrap_err]; [|by apply session_kept_refl].
    unfold wrapM, on_err, on_wal, zoom.
    assert (session_kept w (set_session (set_S_wal (fst (Append e (S_wal (w_session w)))) (w_session w)) w))
      as Hk by (split_and!; [done..|right; by exists e]).
    destruct (Append e _) as [l [[]|err| |]]; try done. by destruct (wrap_err _ (DedupKey e)).
  - destruct (decide (p_Op pkt = OpPosition)) as [_|]; [|by apply session_kept_refl].
    unfold mbind, M_bind, lift. destruct (wrap_err _ (ParseClientPosition (p_Data pkt))) as [pos|e| |];
      try by apply session_kept_refl.
    pose proof (handlePositionUpdate_kept since now pid pos w) as Hk.
    destruct (handlePositionUpdate since now pid pos w) as [w1 [[]|e| |]]; done.
Qed.

Lemma client_step_kept w pid c w' : client_step w pid c w' → session_kept w w'.
Proof.
  intros Hs. destruct Hs as [| | | | | | |pkt rest since now w1 o _ _ _ _ Hh
    |pkt rest since now w1 e _ _ _ _ Hh| | | | | | | | |e n i w1 o _ Hh|e n i w1 err _ Hh| |];
    try (apply session_kept_refl; reflexivity); try (by split_and!; auto).
  - pose proof (handlePacket_kept since now pid pkt (upd_client pid
      (on_player (λ p, set_P_in (Chan (ch_cap (P_in p)) rest) p)) w)) as Hk. by rewrite Hh in Hk.
  - pose proof (handlePacket_kept since now pid pkt (upd_client pid
      (on_player (λ p, set_P_in (Chan (ch_cap (P_in p)) rest) p)) w)) as Hk. by rewrite Hh in Hk.
  - apply session_kept_refl. revert Hh. unfold handleWalEntry, get_player, mbind, M_bind.
    destruct (w_clients w !! pid) as [c0|]; [|done]. case_decide; [by intros [= <- <-]|].
    unfold modify, lift. destruct (ServerWal_Serialize _); [|done..]. by intros [= <- <-].
  - apply session_kept_refl. revert Hh. unfold handleWalEntry, get_player, mbind, M_bind.
    destruct (w_clients w !! pid) as [c0|]; [|done]. case_decide; [done|].
    unfold modify, lift. destruct (ServerWal_Serialize _); [done|..|done|done]. by intros [= <- <-].
Qed.

(** *** The handlers, branch by branch *)

Lemma handlePacket_unparsed since now pid pkt err w :
  p_Op pkt = OpWal → Parse (p_Data pkt) = Err err →
  handlePacket since now pid pkt w = (w, Err (Wrapf "failed to parse WAL entry" err)).
Proof.
  intros Hop Hp. unfold handlePacket. rewrite Hop, Hp.
  rewrite decide_False by by_compute. by rewrite decide_True.
Qed.

Lemma handlePacket_other since now pid pkt w c w1 r :
  w_clients w !! pid = Some c → log_inv (S_wal (w_session w)) →
  handlePacket since now pid pkt w = (w1, r) → p_Op pkt ≠ OpWal →
  S_wal (w_session w1) = S_wal (w_session w) ∧ ∀ p, r ≠ Ok (Some p).
Proof.
  intros Hc Hl Hh Hop. unfold handlePacket in Hh. destruct (decide (p_Op pkt = OpNOP)).
  { unfold mret, M_ret in Hh. by simplify_eq. }
  rewrite decide_False in Hh by done. destruct (decide (p_Op pkt = OpPosition)); cycle 1.
  { unfold mret, M_ret in Hh. by simplify_eq. }
  unfold mbind, M_bind, lift in Hh. destruct (ParseClientPosition (p_Data pkt)) as [pos|err| |];
    cbn [wrap_err] in Hh; [|by simplify_eq..].
  destruct (handlePositionUpdate_spec since now pid pos w c Hc) as (w2 & Hw2 & _ & Hs & _).
  rewrite Hw2 in Hh. unfold mret, M_ret in Hh. by simplify_eq.
Qed.

Lemma handlePositionUpdate_eq since now pid pos w c :
  w_clients w !! pid = Some c →
  ∃ data, ParseServerPosition data = Ok (MkServerPosition (P_ID (c_player c)) (P_Name (c_player c))
      (cp_Key pos) (cp_X pos) (cp_Y pos) (cp_Z pos))
  ∧ let w1 := BroadcastExcept (MkPacket OpPosition data) pid w in
    handlePositionUpdate since now pid pos w
    = (if pos_due (c_player c) since then
         let s := w_session w in
         set_session (set_S_sink (fst (sink_Send
           (str "ootmm.events.multi." ++ hex_EncodeToString (vec_to_list (S_ID s)))
           (position_event s (c_player c) pos) (S_sink s))) s)
           (upd_client pid (on_player (set_P_LastPosTime (Some now))) w1)
       else w1, Ok tt).
Proof.
  intros Hc. eexists (server_position_layout _). split.
  { rewrite <- (app_nil_r (server_position_layout _)). apply ParseServerPosition_layout. }
  unfold handlePositionUpdate, get_player, mbind, M_bind. rewrite Hc. unfold lift.
  rewrite ServerPosition_Serialize_layout. unfold modify at 1. cbv zeta.
  destruct (pos_due (c_player c) since); [|done].
  unfold modify, gets, ignore, on_sink, zoom. cbn [w_session upd_client].
  change (w_session (BroadcastExcept ?p ?q w)) with (w_session w).
  unfold sink_Send. by destruct (S_sink (w_session w)).
Qed.

(** ** Properties *)

Lemma ex_wal1_inv : log_inv ex_wal1.
Proof.
  split_and!.
  - apply mem_wf_Append, mem_wf_new.
  - unfold keys_nodup. by_compute.
  - unfold all_normal. apply Forall_singleton. apply ex_item_normal.
Qed.

(** C6: in every execution of a session, whatever its players, goroutines, full
    queues, broken connections and [Close] do, what a player can read from its
    connection (cut anywhere) has as its log packets consecutive entries of the
    session's log from the index given to [Join] on, each with its index; and
    every acknowledgement in it names the key of an entry of the log. *)
Theorem player_receives_log id secret dir sink l w pid c k :
  log_inv l → srv_reach (fresh_world id secret dir sink l) w → w_clients w !! pid = Some c →
  (∃ n, filter is_wal (received k c)
        = log_packets (c_from c) (take n (log_from (c_from c) (S_wal (w_session w)))))
  ∧ (∀ pkt, pkt ∈ received k c → p_Op pkt = OpWalAck →
     ∃ key, has_key key (w_entries (S_wal (w_session w))) ∧ p_Data pkt = vec_to_list key).
Proof.
  intros Hl Hr Hc. destruct (fresh_world_inv id secret dir sink l Hl) as [Hi0 Hk0].
  destruct (srv_reach_inv _ _ Hi0 Hk0 Hr) as [[Hlog Hi] Hk].
  pose proof (Hi pid c Hc) as Hci. pose proof (Hk pid c Hc) as Hcc. split.
  - destruct (client_log_packets _ _ Hci) as [n Hn].
    assert (filter is_wal (received k c) `prefix_of` wal_sent c) as Hp.
    { apply received_prefix; [done|unfold is_wal; by_compute|].
      intros pkt Hw. unfold not_nop. rewrite Hw. by_compute. }
    rewrite Hn in Hp. destruct (log_packets_take _ _ _ Hp) as [m ->]. rewrite take_take. by eexists.
  - intros pkt Hin Hop.
    assert (pkt ∈ filter (λ p, p_Op p = OpWalAck) (received k c)) as Hin' by (by apply list_elem_of_filter).
    assert (filter (λ p, p_Op p = OpWalAck) (received k c)
            `prefix_of` filter (λ p, p_Op p = OpWalAck) (o_sent (P_out (c_player c)))) as Hp.
    { apply received_prefix; [done|by_compute|]. intros p Hw. unfold not_nop. rewrite Hw. by_compute. }
    destruct Hp as [x Hx]. assert (pkt ∈ o_sent (P_out (c_player c))) as Hs.
    { assert (pkt ∈ filter (λ p, p_Op p = OpWalAck) (o_sent (P_out (c_player c)))) as Hf
        by (rewrite Hx; apply elem_of_app; by left). by apply list_elem_of_filter in Hf as [_ ?]. }
    destruct (proj1 (Forall_forall _ _) (proj1 Hci) pkt Hs Hop) as (key & Hkey & Hd).
    exists key. split; [|done]. by apply (mem_set _ (proj1 Hlog)).
Qed.

Lemma player_receives_log_witness :
  w_clients ex_w10 !! 0 = Some (ex_c ex_w10)
  ∧ length (filter is_wal (received 200 (ex_c ex_w10))) = 1
  ∧ ∃ n, filter is_wal (received 200 (ex_c ex_w10))
        = log_packets (c_from (ex_c ex_w10))
            (take n (log_from (c_from (ex_c ex_w10)) (S_wal (w_session ex_w10)))).
Proof.
  split; [vm_compute; reflexivity|]. split; [vm_compute; reflexivity|].
  refine (proj1 (player_receives_log (arr_of 16 [U8 1]) (arr_of 8 [U8 2]) (str "d") SinkNull ex_wal1
    ex_w10 0 (ex_c ex_w10) 200 ex_wal1_inv ex_srv_reach _)).
  vm_compute. reflexivity.
Defined.

(** C22: the stream of a player never stalls: when its goroutine is blocked on the
    log's current notification channel and its writer has nothing left to write,
    the player has been sent every entry of the log from its index on. *)
Theorem idle_player_up_to_date id secret dir sink l w pid c :
  log_inv l → srv_reach (fresh_world id secret dir sink l) w → w_clients w !! pid = Some c →
  (Z.of_nat (length (w_entries (S_wal (w_session w)))) < 2 ^ 32)%Z →
  idle (S_wal (w_session w)) c →
  filter is_wal (received (length (tx (P_Conn (c_player c)))) c)
  = log_packets (c_from c) (log_from (c_from c) (S_wal (w_session w))).
Proof.
  intros Hl Hr Hc Hlen Hidle. destruct (fresh_world_inv id secret dir sink l Hl) as [Hi0 Hk0].
  destruct (srv_reach_inv _ _ Hi0 Hk0 Hr) as [[_ Hi] Hk].
  apply idle_received_all; [by eapply Hi|by eapply Hk|done|done].
Qed.

Lemma idle_player_up_to_date_witness :
  idle (S_wal (w_session ex_w10)) (ex_c ex_w10)
  ∧ filter is_wal (received (length (tx (P_Conn (c_player (ex_c ex_w10))))) (ex_c ex_w10))
    = log_packets (c_from (ex_c ex_w10)) (log_from (c_from (ex_c ex_w10)) (S_wal (w_session ex_w10))).
Proof.
  assert (idle (S_wal (w_session ex_w10)) (ex_c ex_w10)) as Hidle.
  { split; [vm_compute; reflexivity|]. split; [exists (U32 1); vm_compute; reflexivity|].
    split; vm_compute; reflexivity. }
  split; [exact Hidle|].
  refine (idle_player_up_to_date (arr_of 16 [U8 1]) (arr_of 8 [U8 2]) (str "d") SinkNull ex_wal1
    ex_w10 0 (ex_c ex_w10) ex_wal1_inv ex_srv_reach _ _ Hidle); vm_compute; reflexivity.
Defined.

(** C21: the handler of a player's packets returns on every packet. A log packet
    whose data is not an entry gives an error and leaves the log as it was. One
    that carries an entry is acknowledged, with the entry's key, exactly when the
    log holds an entry of that key afterwards; the log is then extended by the
    entry if it was new, and has the same entries otherwise. A key that is already
    in the log is acknowledged without any change, whatever the disk does, and
    every entry is acknowledged while the file is open and the disk refuses
    nothing. Other packets leave the log alone and are not answered. *)
Theorem handle_packet_log since now pid pkt w c w1 r :
  w_clients w !! pid = Some c → log_inv (S_wal (w_session w)) →
  handlePacket since now pid pkt w = (w1, r) →
  let l := S_wal (w_session w) in
  let l1 := S_wal (w_session w1) in
  returns r
  ∧ (p_Op pkt = OpWal → ∀ e, Parse (p_Data pkt) = Ok e → ∃ key, DedupKey e = Ok key
     ∧ let ack := Ok (Some (MkPacket OpWalAck (vec_to_list key))) in
       (r = ack ↔ has_key key (w_entries l1))
       ∧ w_entries l1 = (if decide (has_key key (w_entries l1)) then aappend e (w_entries l)
                         else w_entries l)
       ∧ (has_key key (w_entries l) → r = ack ∧ l1 = l)
       ∧ (f_closed (w_file l) = false → f_script (w_file l) = [] → r = ack))
  ∧ (p_Op pkt = OpWal → ∀ err, Parse (p_Data pkt) = Err err → l1 = l ∧ ∃ err', r = Err err')
  ∧ (p_Op pkt ≠ OpWal → l1 = l ∧ ∀ p, r ≠ Ok (Some p)).
Proof.
  intros Hc Hl Hh l l1. split; [apply (handlePacket_handled _ _ _ _ _ _ _ _ Hc Hl Hh)|].
  split; [|split; [|by intros Hop; eapply handlePacket_other]]; cycle 1.
  { intros Hop err Hp. rewrite (handlePacket_unparsed since now pid pkt err w Hop Hp) in Hh.
    injection Hh as <- <-. eauto. }
  intros Hop e Hp. pose proof (handlePacket_wal since now pid pkt e w Hop Hp) as Hw.
  destruct (proj1 (DedupKey_known e) (proj1 (Parse_normal _ _ Hp))) as [key Hkey]. exists key. split; [done|].
  destruct (Append e (S_wal (w_session w))) as [l' ra] eqn:Ha. rewrite Hh in Hw.
  pose proof (Append_exact e key _ _ _ (proj1 Hl) Hkey Ha) as (Hiff & Hes & Hdup).
  pose proof (Append_accepted e l (proj1 (Parse_normal _ _ Hp))) as Hacc. subst l. rewrite Ha in Hacc.
  subst l1. injection Hw as -> Hr. cbn [w_session set_session S_wal set_S_wal].
  assert (∀ x, r = Ok (Some x) → ra = Ok tt) as Hok by (intros x ->; by destruct ra as [[]| | |]).
  assert (ra = Ok tt → r = Ok (Some (MkPacket OpWalAck (vec_to_list key)))) as Hack.
  { intros ->. rewrite Hr, Hkey. done. }
  split; [|split; [|split]].
  - rewrite <- Hiff. naive_solver.
  - rewrite Hes at 1. by apply decide_ext.
  - intros [??]%Hdup. auto.
  - auto.
Qed.

(** The same entry twice, from an execution: appended, then only acknowledged. *)
Lemma handle_packet_log_witness :
  let d := match Serialize ex_event with Ok d => d | _ => [] end in
  let '(w1, r) := handlePacket 0 0 0 (MkPacket OpWal d) ex_w10 in
  let '(w2, r') := handlePacket 0 0 0 (MkPacket OpWal d) w1 in
  length (w_entries (S_wal (w_session w1))) = 2 ∧ returns r ∧ returns r'
  ∧ ∃ key, DedupKey ex_event = Ok key
    ∧ (r = Ok (Some (MkPacket OpWalAck (vec_to_list key)))
       ↔ has_key key (w_entries (S_wal (w_session w1)))).
Proof.
  intros d. destruct (handlePacket 0 0 0 (MkPacket OpWal d) ex_w10) as [w1 r] eqn:Hh.
  destruct (handlePacket 0 0 0 (MkPacket OpWal d) w1) as [w2 r'] eqn:Hh'.
  assert (w_clients ex_w10 !! 0 = Some (ex_c ex_w10)) as Hc by (vm_compute; reflexivity).
  destruct (handle_packet_log 0 0 0 (MkPacket OpWal d) ex_w10 (ex_c ex_w10) w1 r Hc ex_wal1_inv Hh)
    as (H1 & H2 & _).
  assert (Parse d = Ok ex_event) as Hp by (vm_compute; reflexivity).
  destruct (H2 eq_refl ex_event Hp) as (key & Hk & Hiff & _).
  pose proof (f_equal (λ x, length (w_entries (S_wal (w_session x.1)))) Hh) as Hlen.
  vm_compute in Hlen. split; [symmetry; exact Hlen|]. split; [exact H1|]. split; [|by exists key].
  destruct (handlePacket_handled _ _ _ _ _ _ _ _ Hc ex_wal1_inv Hh) as (_ & Hl1 & _ & Hn & _).
  destruct (nudged_all_lookup _ _ _ _ Hn Hc) as (c1 & Hc1 & _).
  exact (proj1 (handlePacket_handled _ _ _ _ _ _ _ _ Hc1 Hl1 Hh')).
Defined.

(** A position update reaches the outgoing queue of every other player of the
    session, once, if it has room, with the sender's ID and name; the sender and
    those who left get nothing, nobody is blocked, and the event sink is given one
    event when the last one is at least 250 ms old and none otherwise. *)
Theorem position_broadcast since now pid pos w c :
  w_clients w !! pid = Some c →
  ∃ w1 data, handlePositionUpdate since now pid pos w = (w1, Ok tt)
  ∧ ParseServerPosition data = Ok (MkServerPosition (P_ID (c_player c)) (P_Name (c_player c))
      (cp_Key pos) (cp_X pos) (cp_Y pos) (cp_Z pos))
  ∧ (∀ q d, w_clients w !! q = Some d → ∃ d', w_clients w1 !! q = Some d' ∧
      P_out (c_player d') = if decide (q ∈ S_players (w_session w) ∧ q ≠ pid)
                            then o_send (MkPacket OpPosition data) (P_out (c_player d))
                            else P_out (c_player d))
  ∧ (∀ c1, w_clients w1 !! pid = Some c1 →
      let due := match P_LastPosTime (c_player c) with
                 | None => true | Some t => bool_decide (250000000 <= since - t)%Z end in
      P_LastPosTime (c_player c1) = (if due then Some now else P_LastPosTime (c_player c))
      ∧ S_sink (w_session w1)
        = if due then fst (sink_Send (str "ootmm.events.multi." ++ hex_EncodeToString (vec_to_list (S_ID (w_session w))))
                             (position_event (w_session w) (c_player c) pos) (S_sink (w_session w)))
          else S_sink (w_session w)).
Proof.
  intros Hc. pose proof (handlePositionUpdate_eq since now pid pos w c Hc) as (data & Hd & Heq).
  rewrite Heq. clear Heq. set (w1 := BroadcastExcept _ _ _).
  assert (∀ q d, w_clients w !! q = Some d → w_clients w1 !! q =
    Some (if decide (q ∈ S_players (w_session w) ∧ q ≠ pid)
          then on_player (λ p, set_P_out (o_send (MkPacket OpPosition data) (P_out p)) p) d else d)) as Hq.
  { intros q d Hqd. unfold w1. by rewrite lookup_broadcast, Hqd. }
  change (match P_LastPosTime (c_player c) with
          | None => true | Some t => bool_decide (250000000 <= since - t)%Z end)
    with (match P_LastPosTime (c_player c) with
          | None => true | Some t => bool_decide (pos_interval <= since - t)%Z end).
  assert (pos_due (c_player c) since = match P_LastPosTime (c_player c) with
    | None => true | Some t => bool_decide (pos_interval <= since - t)%Z end) as <-.
  { unfold pos_due. destruct (P_LastPosTime (c_player c)) as [t0|]; [|done].
    apply eq_bool_prop_intro. rewrite bool_decide_spec. by rewrite Is_true_true, Z.leb_le. }
  eexists _, data. split; [done|]. split; [done|].
  destruct (pos_due (c_player c) since); split.
  - intros q d Hqd. specialize (Hq q d Hqd). cbn [w_clients set_session upd_client].
    destruct (decide (q = pid)) as [->|Hne].
    + rewrite lookup_alter_eq, Hq. eexists. split; [done|]. simpl. by case_decide.
    + rewrite lookup_alter_ne, Hq by done. eexists. split; [done|]. by case_decide.
  - intros c1. cbn [w_clients set_session upd_client]. rewrite lookup_alter_eq, (Hq pid c Hc).
    rewrite decide_False by (by intros []). intros [= <-]. done.
  - intros q d Hqd. rewrite (Hq q d Hqd). eexists. split; [done|]. by case_decide.
  - intros c1. rewrite (Hq pid c Hc), decide_False by (by intros []). by intros [= <-].
Qed.

Lemma position_broadcast_witness :
  w_clients ex_w10 !! 0 = Some (ex_c ex_w10)
  ∧ ∃ w1 data, handlePositionUpdate 5 6 0 (MkClientPosition (U16 1) (I16 2) (I16 3) (I16 4)) ex_w10 = (w1, Ok tt)
  ∧ ParseServerPosition data = Ok (MkServerPosition (P_ID (c_player (ex_c ex_w10)))
      (P_Name (c_player (ex_c ex_w10))) (U16 1) (I16 2) (I16 3) (I16 4)).
Proof.
  assert (w_clients ex_w10 !! 0 = Some (ex_c ex_w10)) as Hc by (vm_compute; reflexivity).
  split; [exact Hc|].
  destruct (position_broadcast 5 6 0 (MkClientPosition (U16 1) (I16 2) (I16 3) (I16 4)) ex_w10 _ Hc)
    as (w1 & data & H1 & H2 & _).
  exists w1, data. split; [exact H1|exact H2].
Defined.
