(* ===== verification/LogServer.v ===== *)
(** * What a server promises its clients

    The interface between the server and the replicas of its log, as a type
    class, and the proof that the sessions of ServerSession.v implement it. *)

From stdpp Require Import base gmap sets strings vector numbers tactics list.
From Stdlib Require Import ZArith Lia.
From S2P Require Import Prelude Words GoIO GoStr WalEntry Packet Wal Events ServerSession.

(** [srv_handle] is the handler of a client's packet, with the reply it sends;
    [srv_packet s i] is the packet of the log stream at index [i]; [srv_restart]
    relates the server before and after a restart.  [srv_ok] is its invariant. *)
Class LogServer (St : Type) := {
  srv_log : St → list WalEntry;
  srv_ok : St → Prop;
  srv_handle : Packet → St → St * res (option Packet);
  srv_packet : St → u32 → option Packet;
  srv_restart : St → St → Prop;
  srv_keys s : srv_ok s → NoDup (DedupKey <$> srv_log s);
  srv_normal s : srv_ok s → Forall normal (srv_log s);
  (** A well-formed entry is appended unless its key is known, and acknowledged. *)
  srv_accepts s pkt e :
    srv_ok s → p_Op pkt = OpWal → Parse (p_Data pkt) = Ok e →
    ∃ s' key, srv_handle pkt s = (s', Ok (Some (MkPacket OpWalAck (vec_to_list key))))
    ∧ DedupKey e = Ok key ∧ srv_log s' = aappend e (srv_log s) ∧ srv_ok s';
  (** Any other packet leaves the log alone and is not acknowledged. *)
  srv_ignores s pkt :
    srv_ok s → p_Op pkt ≠ OpWal ∨ (∃ err, Parse (p_Data pkt) = Err err) →
    ∃ s' r, srv_handle pkt s = (s', r) ∧ (∀ p, r ≠ Ok (Some p))
    ∧ srv_log s' = srv_log s ∧ srv_ok s';
  (** The stream carries the entries of the log, each at its index. *)
  srv_streams s i p :
    srv_ok s → srv_packet s i = Some p →
    ∃ e, srv_log s !! Z.to_nat (uval i) = Some e ∧ p = wal_packet (e, i);
  srv_streams_all s i e :
    srv_ok s → (Z.of_nat (length (srv_log s)) < 2 ^ 32)%Z →
    srv_log s !! Z.to_nat (uval i) = Some e → srv_packet s i = Some (wal_packet (e, i));
  (** A restart keeps the log. *)
  srv_restarts s s' : srv_ok s → srv_restart s s' → srv_ok s' ∧ srv_log s' = srv_log s;
}.

(** ** The sessions of the server

    Player [pid] sends the packets; [since] and [now] are the readings of the clock. *)

Section server.
Context (pid : pl_ref) (since now : Z).

Definition session_log (w : World) : list WalEntry := w_entries (S_wal (w_session w)).

Definition world_ok (w : World) : Prop :=
  synced (S_wal (w_session w)) ∧ is_Some (w_clients w !! pid).

(** The stream of [handleWalStream]: [Get], then the packet of [handleWalEntry]. *)
Definition stream_packet (w : World) (i : u32) : option Packet :=
  match Get (S_wal (w_session w)) i with
  | Ok (Some e) => Some (wal_packet (e, i))
  | _ => None
  end.

(** The session is opened again on the file that the old one left, and the
    player joins again. *)
Definition restarted (w w' : World) : Prop :=
  ∃ prefix id secret sink done s playerID name worldID walIndex k picks,
    OpenSession prefix id secret sink done None
      (λ _, Ok (open_file (f_data (w_file (S_wal (w_session w)))) [])) = Ok s
    ∧ w' = join_register pid playerID name worldID walIndex k picks (MkWorld s ∅).

Lemma world_ok_handled pkt w w1 r :
  world_ok w → handlePacket since now pid pkt w = (w1, r) →
  is_Some (w_clients w1 !! pid)
  ∧ (∀ e, p_Op pkt = OpWal → Parse (p_Data pkt) = Ok e →
     ∃ key, r = Ok (Some (MkPacket OpWalAck (vec_to_list key))) ∧ DedupKey e = Ok key
     ∧ session_log w1 = aappend e (session_log w) ∧ synced (S_wal (w_session w1)))
  ∧ (p_Op pkt ≠ OpWal ∨ (∃ err, Parse (p_Data pkt) = Err err) →
     (∀ p, r ≠ Ok (Some p)) ∧ S_wal (w_session w1) = S_wal (w_session w)).
Proof.
  intros [Hs [c Hc]] Hh.
  pose proof (handlePacket_handled _ _ _ _ _ _ _ _ Hc (proj1 Hs) Hh) as (_ & _ & _ & Hn & _).
  destruct (nudged_all_lookup w w1 pid c Hn Hc) as (c' & Hc' & _). split; [by eexists|]. split.
  - intros e Hop Hp. pose proof (handlePacket_wal since now pid pkt e w Hop Hp) as Hw.
    destruct (Append_synced e _ (Parse_normal _ _ Hp) Hs) as (l' & Ha & He & Hl').
    rewrite Ha, Hh in Hw. destruct (proj1 (DedupKey_known e) (proj1 (Parse_normal _ _ Hp))) as [key Hkey].
    rewrite Hkey in Hw. simplify_eq/=. by exists key.
  - intros [Hop|[err Hp]]; [by destruct (handlePacket_other _ _ _ _ _ _ _ _ Hc (proj1 Hs) Hh Hop)|].
    destruct (decide (p_Op pkt = OpWal)) as [Hop|Hop];
      [|by destruct (handlePacket_other _ _ _ _ _ _ _ _ Hc (proj1 Hs) Hh Hop)].
    rewrite (handlePacket_unparsed since now pid pkt err w Hop Hp) in Hh. by simplify_eq.
Qed.

Lemma restarted_ok w w' : world_ok w → restarted w w' → world_ok w' ∧ session_log w' = session_log w.
Proof.
  intros [((Hw & Hk & Hn) & Hd & Hc & Hs) _]
    (prefix & id & secret & sink & done & s & p1 & p2 & p3 & p4 & k & picks & Ho & ->).
  destruct (open_stored (f_data (w_file (S_wal (w_session w)))) (session_log w)) as (l & Hl & He & Hsy);
    [apply Hd|done..|].
  unfold OpenSession in Ho. simpl in Ho. rewrite Hl in Ho. simpl in Ho. simplify_eq.
  split; [|unfold session_log, child_wal; simpl; by destruct done]. split; [by apply synced_child|].
  simpl. rewrite lookup_insert_eq. by eexists.
Qed.

#[export] Program Instance world_server : LogServer World := {|
  srv_log := session_log;
  srv_ok := world_ok;
  srv_handle := handlePacket since now pid;
  srv_packet := stream_packet;
  srv_restart := restarted;
|}.
Next Obligation. intros w [((_ & Hk & _) & _) _]. exact Hk. Qed.
Next Obligation. intros w [((_ & _ & Hn) & _) _]. exact Hn. Qed.
Next Obligation.
  intros w pkt e Hok Hop Hp. destruct (handlePacket since now pid pkt w) as [w1 r] eqn:Hh.
  destruct (world_ok_handled pkt w w1 r Hok Hh) as (Hs & Hw & _).
  destruct (Hw e Hop Hp) as (key & -> & ? & ? & ?). by exists w1, key.
Qed.
Next Obligation.
  intros w pkt Hok Hi. destruct (handlePacket since now pid pkt w) as [w1 r] eqn:Hh.
  destruct (world_ok_handled pkt w w1 r Hok Hh) as (Hs & _ & Ho).
  destruct (Ho Hi) as [Hr Hw]. exists w1, r. unfold session_log, world_ok. rewrite Hw.
  split; [done|]. split; [done|]. split; [done|]. split; [apply Hok|done].
Qed.
Next Obligation.
  intros w i p _ Hp. unfold stream_packet in Hp. destruct (Get _ _) as [[e|]|?| |] eqn:Hg; simplify_eq.
  exists e. split; [|done]. by apply Get_Some in Hg as [_ Hg].
Qed.
Next Obligation.
  intros w i e [((Hw & _) & _) _] Hlen He. unfold stream_packet.
  pose proof (lookup_lt_Some _ _ _ He) as Hlt. unfold session_log in *. unfold Get.
  rewrite count_small by done. rewrite decide_False by (pose proof (uint_bounds i); lia). by rewrite He.
Qed.
Next Obligation. intros w w' Hok Hr. by apply restarted_ok. Qed.
End server.
