(* ===== verification/ServerApp.v ===== *)
(** * The server (server/internal/app/app.go)

    The registry of open sessions, shared by the connections by reference
    counting, and the life of a connection. *)

From stdpp Require Import base gmap sets strings vector numbers tactics list.
From Stdlib Require Import ZArith Lia.
From S2P Require Import Prelude Words GoIO GoStr WalEntry Packet Wal Events ServerSession.

(** ** State *)

(** Sessions are pointers into [a_heap]. *)
Record appSession : Type := MkAppSession { as_session : nat; as_count : Z }.

(** The program points of [handleClient]: before the HELLO is handled, between
    [acquireSession] and [Join], in [Join] (with the session, its ID and the
    player), and returned. *)
Inductive cl_pc : Type :=
  | ClRecv (c : conn)
  | ClAcquired (c : conn) (hello : ClientHello) (ref : nat)
  | ClJoined (id : vec u8 16) (ref : nat) (pid : pl_ref)
  | ClReturned.

(** [a_done] is [app.ctx.Err() != nil]. *)
Record App : Type := MkApp {
  a_done : bool;
  a_prefix : bytes;
  a_sink : Sink PositionEvent;
  a_sessions : gmap (vec u8 16) appSession;
  a_heap : gmap nat World;
  a_disk : gmap bytes bytes;
  a_conns : gmap nat cl_pc;
}.

Definition set_sessions s a :=
  MkApp (a_done a) (a_prefix a) (a_sink a) s (a_heap a) (a_disk a) (a_conns a).
Definition set_heap h a :=
  MkApp (a_done a) (a_prefix a) (a_sink a) (a_sessions a) h (a_disk a) (a_conns a).
Definition set_disk d a :=
  MkApp (a_done a) (a_prefix a) (a_sink a) (a_sessions a) (a_heap a) d (a_conns a).
Definition set_conns c a :=
  MkApp (a_done a) (a_prefix a) (a_sink a) (a_sessions a) (a_heap a) (a_disk a) c.
Definition set_sink k a :=
  MkApp (a_done a) (a_prefix a) k (a_sessions a) (a_heap a) (a_disk a) (a_conns a).

(** What the operating system answers when a session is opened, and the address
    of the new session. *)
Record env : Type := MkEnv {
  env_ref : nat;
  env_mkdir : option error;
  env_open : option error;
  env_script : list outcome;
}.

Definition wal_path (dir : bytes) : bytes := dir ++ str "/wal.bin".

Definition opened (a : App) (v : env) (path : bytes) : res file :=
  match env_open v with
  | Some e => Err e
  | None => Ok (open_file (default [] (a_disk a !! path)) (env_script v))
  end.

(** ** Sessions by reference counting *)

Definition acquireSession (v : env) (id : vec u8 16) (secret : vec u8 8) : M App nat := λ a,
  match a_sessions a !! id with
  | Some appS =>
      match a_heap a !! as_session appS with
      | None => (a, Panic)
      | Some w =>
          if decide (S_Secret (w_session w) ≠ secret) then (a, Err (Errorf "invalid session secret"))
          else (set_sessions (<[id := MkAppSession (as_session appS) (as_count appS + 1)]> (a_sessions a)) a,
                Ok (as_session appS))
      end
  | None =>
      match wrap_err "failed to open session"
              (OpenSession (a_prefix a) id secret (a_sink a) (a_done a) (env_mkdir v) (opened a v)) with
      | Ok session =>
          (set_sessions (<[id := MkAppSession (env_ref v) 1]> (a_sessions a))
             (set_heap (<[env_ref v := MkWorld session ∅]> (a_heap a)) a), Ok (env_ref v))
      | Err e => (a, Err e)
      | Panic => (a, Panic)
      | NoFuel => (a, NoFuel)
      end
  end.

(** [Session.Close] of the session at [ref]; its file is then on the disk as it
    was left. *)
Definition close_session (ref : nat) (a : App) : App :=
  match a_heap a !! ref with
  | None => a
  | Some w =>
      let w' := fst (session_Close w) in
      set_disk (<[wal_path (S_DataDir (w_session w)) := f_data (w_file (S_wal (w_session w')))]> (a_disk a))
        (set_heap (<[ref := w']> (a_heap a)) a)
  end.

Definition releaseSession (id : vec u8 16) (a : App) : App :=
  match a_sessions a !! id with
  | None => a
  | Some appS =>
      let count := (as_count appS - 1)%Z in
      if decide (count <= 0)%Z
      then close_session (as_session appS) (set_sessions (delete id (a_sessions a)) a)
      else set_sessions (<[id := MkAppSession (as_session appS) count]> (a_sessions a)) a
  end.

(** ** A connection *)

(** The first packet: [handleClient] logs an error and returns unless it is a
    HELLO that parses. *)
Definition client_hello : M conn ClientHello :=
  pkt ← RecvRawTimeoutDefault;
  if decide (p_Op pkt ≠ OpHello) then fail (Errorf "unexpected operation code") else
  lift (ParseClientHello (p_Data pkt)).

Definition set_conn (cid : nat) (pc : cl_pc) (a : App) : App := set_conns (<[cid := pc]> (a_conns a)) a.

(** All sessions are given the same sink. *)
Definition with_sink (k : Sink PositionEvent) (w : World) : World :=
  set_session (set_S_sink k (w_session w)) w.

(** The end of [app.ctx]: the contexts of all sessions are derived from it. *)
Definition app_cancel (a : App) : App :=
  MkApp true (a_prefix a) (a_sink a) (a_sessions a) (session_cancel <$> a_heap a) (a_disk a) (a_conns a).

(** What [handleClient] and the goroutines of the players do.  [ok] restricts what
    the operating system may answer. *)
Inductive conn_step (ok : env → Prop) (a : App) : App → Prop :=
  (* handleClient *)
  | app_bad_hello cid c c' e :
      a_conns a !! cid = Some (ClRecv c) → client_hello c = (c', Err e) →
      conn_step ok a (set_conn cid ClReturned a)
  | app_acquire cid c c' hello v a' ref :
      a_conns a !! cid = Some (ClRecv c) → client_hello c = (c', Ok hello) →
      ok v → a_heap a !! env_ref v = None →
      acquireSession v (ch_SessionID hello) (ch_SessionSecret hello) a = (a', Ok ref) →
      conn_step ok a (set_conn cid (ClAcquired c' hello ref) a')
  | app_refused cid c c' hello v a' e :
      a_conns a !! cid = Some (ClRecv c) → client_hello c = (c', Ok hello) →
      ok v → acquireSession v (ch_SessionID hello) (ch_SessionSecret hello) a = (a', Err e) →
      conn_step ok a (set_conn cid ClReturned a')
  | app_join cid c hello ref w pid picks :
      a_conns a !! cid = Some (ClAcquired c hello ref) →
      a_heap a !! ref = Some w → w_clients w !! pid = None →
      conn_step ok a (set_conn cid (ClJoined (ch_SessionID hello) ref pid)
        (set_heap (<[ref := join_register pid (ch_PlayerID hello) (ch_PlayerName hello)
                              (ch_WorldID hello) (ch_WalIndex hello) c picks w]> (a_heap a)) a))
  (* a goroutine of a player *)
  | app_session ref w pid c w' :
      a_heap a !! ref = Some w → w_clients w !! pid = Some c →
      client_step (with_sink (a_sink a) w) pid c w' →
      conn_step ok a (set_sink (S_sink (w_session w')) (set_heap (<[ref := w']> (a_heap a)) a))
  (* Join returned: releaseSession *)
  | app_release cid id ref pid w c :
      a_conns a !! cid = Some (ClJoined id ref pid) →
      a_heap a !! ref = Some w → w_clients w !! pid = Some c → c_join c = JLeft →
      conn_step ok a (set_conn cid ClReturned (releaseSession id a)).

Inductive app_step (ok : env → Prop) (a : App) : App → Prop :=
  (* run: a connection is accepted *)
  | app_accept cid c :
      a_conns a !! cid = None → tx c = [] → app_step ok a (set_conn cid (ClRecv c) a)
  | app_conn a' : conn_step ok a a' → app_step ok a a'
  | app_stop : app_step ok a (app_cancel a).

Definition app_reach (ok : env → Prop) : App → App → Prop := rtc (app_step ok).

(** [Run]: no session, no connection. *)
Definition new_app (prefix : bytes) (sink : Sink PositionEvent) (disk : gmap bytes bytes) : App :=
  MkApp false prefix sink ∅ ∅ disk ∅.

(** ** Holders of a session *)

(** The session a connection has acquired and not released. *)
Definition held (pc : cl_pc) : option (vec u8 16 * nat) :=
  match pc with
  | ClAcquired _ hello ref => Some (ch_SessionID hello, ref)
  | ClJoined id ref _ => Some (id, ref)
  | _ => None
  end.

Definition holds (id : vec u8 16) (pc : cl_pc) : Prop := fst <$> held pc = Some id.
#[export] Instance holds_dec id pc : Decision (holds id pc).
Proof. unfold holds. apply _. Defined.

Definition holders (id : vec u8 16) (a : App) : nat :=
  size (filter (λ x, holds id x.2) (a_conns a)).

Lemma holders_update id cid pc a :
  holders id (set_conn cid pc a)
  = (if decide (holds id pc) then 1 else 0)
    + size (filter (λ x, holds id x.2) (delete cid (a_conns a))).
Proof.
  unfold holders, set_conn; simpl. rewrite <- insert_delete_eq.
  destruct (decide (holds id pc)) as [H|H].
  - rewrite map_filter_insert_True by done. rewrite map_size_insert_None; [done|].
    apply map_lookup_filter_None. left. apply lookup_delete_eq.
  - rewrite map_filter_insert_False by done. by rewrite delete_delete_eq.
Qed.

Lemma holders_split id cid pc a :
  a_conns a !! cid = Some pc →
  holders id a = (if decide (holds id pc) then 1 else 0)
    + size (filter (λ x, holds id x.2) (delete cid (a_conns a))).
Proof.
  intros H. rewrite <- holders_update. unfold holders, set_conn; simpl. by rewrite insert_id.
Qed.

(** The holder count after connection [cid] moves on. *)
Lemma holders_move id cid pc pc' a :
  a_conns a !! cid = Some pc →
  holders id (set_conn cid pc' a) + (if decide (holds id pc) then 1 else 0)
  = holders id a + (if decide (holds id pc') then 1 else 0).
Proof. intros H. rewrite holders_update, (holders_split id cid pc a H). lia. Qed.

Lemma holders_new id cid pc a :
  a_conns a !! cid = None → held pc = None → holders id (set_conn cid pc a) = holders id a.
Proof.
  intros H Hp. rewrite holders_update, decide_False by (unfold holds; by rewrite Hp).
  unfold holders. by rewrite delete_id.
Qed.

(** ** The invariant of the registry *)

(** A session that has been opened for [id] and not closed: its file is open, and
    its contexts are cancelled only if the server's is, which is [done]. *)
Definition live (prefix : bytes) (done : bool) (id : vec u8 16) (w : World) : Prop :=
  S_ID (w_session w) = id ∧ S_DataDir (w_session w) = session_dir prefix id
  ∧ S_done (w_session w) = done ∧ life_of (S_wal (w_session w)) = (done, false).

Record app_inv (a : App) : Prop := {
  ai_reg id s : a_sessions a !! id = Some s →
    (∃ w, a_heap a !! as_session s = Some w ∧ live (a_prefix a) (a_done a) id w)
    ∧ as_count s = Z.of_nat (holders id a) ∧ (0 < as_count s)%Z;
  ai_held cid pc id ref : a_conns a !! cid = Some pc → held pc = Some (id, ref) →
    ∃ s, a_sessions a !! id = Some s ∧ as_session s = ref;
}.

Lemma holders_zero id a :
  (∀ cid pc, a_conns a !! cid = Some pc → ¬ holds id pc) → holders id a = 0.
Proof.
  intros H. unfold holders. apply map_size_empty_iff, map_eq. intros cid.
  rewrite lookup_empty. apply map_lookup_filter_None. right. intros pc Hc. by apply (H cid).
Qed.

Lemma holders_only id cid cid' pc pc' a :
  holders id a = 1 → a_conns a !! cid = Some pc → holds id pc →
  a_conns a !! cid' = Some pc' → holds id pc' → cid' = cid.
Proof.
  intros H1 Hc Hh Hc' Hh'. destruct (decide (cid' = cid)) as [|Hne]; [done|exfalso].
  rewrite (holders_split id cid pc a Hc), decide_True in H1 by done.
  assert (size (filter (λ x, holds id x.2) (delete cid (a_conns a))) = 0) as Hz by lia.
  apply map_size_empty_iff in Hz.
  assert (filter (λ x, holds id x.2) (delete cid (a_conns a)) !! cid' = Some pc') as Hl.
  { apply map_lookup_filter_Some. split; [by rewrite lookup_delete_ne|done]. }
  by rewrite Hz, lookup_empty in Hl.
Qed.

Lemma app_inv_unregistered a id : app_inv a → a_sessions a !! id = None → holders id a = 0.
Proof.
  intros Hi Hn. apply holders_zero. intros cid pc Hc Hh. unfold holds in Hh.
  destruct (held pc) as [[i ref]|] eqn:He; [|done]. simpl in Hh. simplify_eq.
  destruct (ai_held a Hi cid pc id ref Hc He) as (s & Hs & _). congruence.
Qed.

(** Two registered IDs never share a session. *)
Lemma app_inv_refs a id1 id2 s1 s2 :
  app_inv a → a_sessions a !! id1 = Some s1 → a_sessions a !! id2 = Some s2 →
  as_session s1 = as_session s2 → id1 = id2.
Proof.
  intros Hi H1 H2 Heq.
  destruct (ai_reg a Hi id1 s1 H1) as ((w1 & Hw1 & Hid1 & _) & _).
  destruct (ai_reg a Hi id2 s2 H2) as ((w2 & Hw2 & Hid2 & _) & _).
  rewrite Heq in Hw1. simplify_eq. done.
Qed.

(** A connection that moves on without changing what it holds. *)
Lemma app_inv_conn a cid pc pc' :
  app_inv a → a_conns a !! cid = Some pc → held pc' = held pc → app_inv (set_conn cid pc' a).
Proof.
  intros [Hr Hh] Hc He. split.
  - intros id s Hs. destruct (Hr id s Hs) as (Hw & Hcnt & Hpos). split; [done|]. split; [|done].
    rewrite Hcnt. f_equal. pose proof (holders_move id cid pc pc' a Hc) as Hm.
    assert (holds id pc' ↔ holds id pc) as Hiff by (unfold holds; by rewrite He).
    destruct (decide (holds id pc)), (decide (holds id pc')); tauto || lia.
  - intros c q id ref Hq Hx. simpl in Hq. apply lookup_insert_Some in Hq as [[<- <-]|[_ Hq]].
    + rewrite He in Hx. by eapply Hh.
    + by eapply Hh.
Qed.

Lemma app_inv_accept a cid c :
  app_inv a → a_conns a !! cid = None → app_inv (set_conn cid (ClRecv c) a).
Proof.
  intros [Hr Hh] Hn. split.
  - intros id s Hs. rewrite holders_new by done. by apply Hr.
  - intros x q id ref Hq Hx. simpl in Hq. apply lookup_insert_Some in Hq as [[<- <-]|[_ Hq]]; [done|].
    by eapply Hh.
Qed.

(** A registered session keeps running in place. *)
Lemma app_inv_heap a ref w w' :
  app_inv a → a_heap a !! ref = Some w →
  (∀ id, live (a_prefix a) (a_done a) id w → live (a_prefix a) (a_done a) id w') →
  app_inv (set_heap (<[ref := w']> (a_heap a)) a).
Proof.
  intros [Hr Hh] Hw Hl. split; [|done]. intros id s Hs.
  destruct (Hr id s Hs) as ((w1 & Hw1 & Hlive) & Hcnt). split; [|done]. simpl.
  destruct (decide (ref = as_session s)) as [->|Hne].
  - rewrite lookup_insert_eq. exists w'. split; [done|]. simplify_eq. by apply Hl.
  - rewrite lookup_insert_ne by done. eauto.
Qed.

Lemma app_inv_sink a k : app_inv a → app_inv (set_sink k a).
Proof. intros [Hr Hh]. by split. Qed.

(** *** Acquiring *)

Lemma acquire_err v id secret a a' e : acquireSession v id secret a = (a', Err e) → a' = a.
Proof.
  unfold acquireSession. destruct (a_sessions a !! id) as [s|].
  - destruct (a_heap a !! as_session s); [|done]. case_decide; congruence.
  - destruct (wrap_err _ _); congruence.
Qed.

Lemma OpenSession_Ok prefix id secret sink done mkdir op s :
  OpenSession prefix id secret sink done mkdir op = Ok s →
  ∃ l, snd (OpenWAL (op (wal_path (session_dir prefix id)))) = Ok l
  ∧ s = MkSession id secret (session_dir prefix id) done ∅ (child_wal done l) sink.
Proof.
  unfold OpenSession, getDataPath. intros H.
  apply res_bind_Ok_inv in H as (d & Hd%wrap_err_Ok & H).
  destruct mkdir; [done|]. apply Ok_inj in Hd as <-.
  apply res_bind_Ok_inv in H as (l & Hl%wrap_err_Ok & <-%Ok_inj). eauto.
Qed.

(** What [acquireSession] does when it succeeds. *)
Lemma acquire_ok v id secret a a' ref :
  acquireSession v id secret a = (a', Ok ref) →
  (∃ s w, a_sessions a !! id = Some s ∧ a_heap a !! as_session s = Some w ∧ ref = as_session s
     ∧ S_Secret (w_session w) = secret
     ∧ a' = set_sessions (<[id := MkAppSession (as_session s) (as_count s + 1)]> (a_sessions a)) a)
  ∨ (∃ l, a_sessions a !! id = None ∧ ref = env_ref v
     ∧ snd (OpenWAL (opened a v (wal_path (session_dir (a_prefix a) id)))) = Ok l
     ∧ a' = set_sessions (<[id := MkAppSession ref 1]> (a_sessions a))
         (set_heap (<[ref := MkWorld (MkSession id secret (session_dir (a_prefix a) id) (a_done a) ∅
               (child_wal (a_done a) l) (a_sink a)) ∅]>
            (a_heap a)) a)).
Proof.
  unfold acquireSession. destruct (a_sessions a !! id) as [s|] eqn:Hs.
  - destruct (a_heap a !! as_session s) as [w|] eqn:Hw; [|done]. case_decide as Hsec; [done|].
    intros [= <- <-]. left. exists s, w. split_and!; try done; by apply dec_stable.
  - destruct (wrap_err _ _) as [session|e| |] eqn:Ho; [|done..]. intros [= <- <-]. right.
    apply wrap_err_Ok, OpenSession_Ok in Ho as (l & Hl & ->). by exists l.
Qed.

Lemma opened_life a v path l done :
  snd (OpenWAL (opened a v path)) = Ok l → life_of (child_wal done l) = (done, false).
Proof.
  unfold opened. destruct (env_open v); [done|]. intros Hl%OpenWAL_life.
  destruct done; [|done]. unfold life_of in *. simpl in *. congruence.
Qed.

Lemma app_inv_acquire v a a' cid pc c hello ref :
  app_inv a → a_conns a !! cid = Some pc → held pc = None → a_heap a !! env_ref v = None →
  acquireSession v (ch_SessionID hello) (ch_SessionSecret hello) a = (a', Ok ref) →
  app_inv (set_conn cid (ClAcquired c hello ref) a').
Proof.
  intros Hi Hc Hp Hf Ha. set (id := ch_SessionID hello) in *.
  set (pc' := ClAcquired c hello ref).
  assert (∀ i, holders i (set_conn cid pc' a) = holders i a + if decide (i = id) then 1 else 0) as Hcnt.
  { intros i. pose proof (holders_move i cid pc pc' a Hc) as Hm.
    rewrite (decide_False (P:=holds i pc)) in Hm by (unfold holds; by rewrite Hp).
    destruct (decide (i = id)) as [->|Hne].
    - rewrite (decide_True (P:=holds id pc')) in Hm by done. lia.
    - rewrite (decide_False (P:=holds i pc')) in Hm; [lia|]. unfold holds; simpl. intros Hx. apply Hne. by injection Hx. }
  assert (∀ i s, a_sessions a !! i = Some s → as_session s ≠ env_ref v) as Hne.
  { intros i s Hs Heq. destruct (ai_reg a Hi i s Hs) as ((w & Hw & _) & _). congruence. }
  destruct (acquire_ok v id (ch_SessionSecret hello) a a' ref Ha)
    as [(s & w & Hs & Hw & -> & _ & ->)|(l & Hs & -> & Hl & ->)]; split.
  - intros i x Hx. simpl in Hx. change (holders i _) with (holders i (set_conn cid pc' a)). rewrite Hcnt.
    apply lookup_insert_Some in Hx as [[<- <-]|[Hxi Hx]].
    + destruct (ai_reg a Hi id s Hs) as (Hlv & Hn & Hpos). split; [done|].
      rewrite decide_True by done. simpl. lia.
    + destruct (ai_reg a Hi i x Hx) as (Hlv & Hn & Hpos). split; [done|].
      rewrite decide_False by done. lia.
  - intros x q i r Hq Hh. simpl in Hq |- *. apply lookup_insert_Some in Hq as [[<- <-]|[_ Hq]].
    + simpl in Hh. simplify_eq. fold id. rewrite lookup_insert_eq. by eexists.
    + destruct (ai_held a Hi x q i r Hq Hh) as (s' & Hs' & <-).
      destruct (decide (id = i)) as [<-|Hni];
        [rewrite lookup_insert_eq; simplify_eq; by eexists|rewrite lookup_insert_ne by done; eauto].
  - intros i x Hx. simpl in Hx |- *.
    change (holders i _) with (holders i (set_conn cid pc' a)). rewrite Hcnt.
    apply lookup_insert_Some in Hx as [[<- <-]|[Hxi Hx]].
    + simpl. rewrite lookup_insert_eq. split.
      * eexists. split; [done|]. split_and!; simpl; try done. by eapply opened_life.
      * rewrite (app_inv_unregistered a id Hi Hs), decide_True by done. lia.
    + destruct (ai_reg a Hi i x Hx) as (Hlv & Hn & Hpos). rewrite decide_False by done.
      split; [|lia]. rewrite lookup_insert_ne by (intros He; by apply (Hne i x Hx)). done.
  - intros x q i r Hq Hh. simpl in Hq |- *. apply lookup_insert_Some in Hq as [[<- <-]|[_ Hq]].
    + simpl in Hh. simplify_eq. fold id. rewrite lookup_insert_eq. by eexists.
    + destruct (ai_held a Hi x q i r Hq Hh) as (s' & Hs' & <-).
      destruct (decide (id = i)) as [<-|Hni]; [congruence|].
      rewrite lookup_insert_ne by done. eauto.
Qed.

(** *** Releasing *)

Lemma app_inv_release a cid id ref pid :
  app_inv a → a_conns a !! cid = Some (ClJoined id ref pid) →
  app_inv (set_conn cid ClReturned (releaseSession id a)).
Proof.
  intros Hi Hc. destruct (ai_held a Hi cid _ id ref Hc eq_refl) as (s & Hs & Href).
  destruct (ai_reg a Hi id s Hs) as ((w & Hw & Hlive) & Hn & Hpos).
  assert (∀ i, holders i (set_conn cid ClReturned a) + (if decide (i = id) then 1 else 0) = holders i a)
    as Hcnt.
  { intros i. pose proof (holders_move i cid _ ClReturned a Hc) as Hm.
    rewrite (decide_False (P:=holds i ClReturned)) in Hm by done.
    destruct (decide (i = id)) as [->|Hne].
    - rewrite (decide_True (P:=holds id _)) in Hm by done. lia.
    - rewrite (decide_False (P:=holds i _)) in Hm; [lia|]. unfold holds; simpl. congruence. }
  unfold releaseSession. rewrite Hs. case_decide as Hle; split.
  - intros i x Hx. unfold close_session in *. simpl in Hx |- *. rewrite Hw in *. simpl in Hx |- *.
    apply lookup_delete_Some in Hx as [Hne Hx].
    change (holders i _) with (holders i (set_conn cid ClReturned a)).
    specialize (Hcnt i). rewrite decide_False, Nat.add_0_r in Hcnt by done. rewrite Hcnt.
    destruct (ai_reg a Hi i x Hx) as (Hlv & Hni & Hposi). split; [|done].
    rewrite lookup_insert_ne; [done|]. intros Heq. apply Hne. by eapply app_inv_refs.
  - intros x q i r Hq Hh. unfold close_session in *. simpl in Hq |- *. rewrite Hw in *. simpl in Hq |- *.
    apply lookup_insert_Some in Hq as [[<- <-]|[Hxc Hq]]; [done|].
    destruct (ai_held a Hi x q i r Hq Hh) as (s' & Hs' & <-).
    exists s'. split; [|done]. rewrite lookup_delete_ne; [done|]. intros <-.
    destruct Hxc. symmetry. apply (holders_only id cid x (ClJoined id ref pid) q a); [lia|done..|].
    unfold holds. by rewrite Hh.
  - intros i x Hx. simpl in Hx |- *.
    change (holders i _) with (holders i (set_conn cid ClReturned a)). specialize (Hcnt i).
    apply lookup_insert_Some in Hx as [[<- <-]|[Hxi Hx]].
    + rewrite decide_True in Hcnt by done. simpl. split; [by exists w|]. lia.
    + destruct (ai_reg a Hi i x Hx) as (Hlv & Hni & Hposi). rewrite decide_False in Hcnt by done.
      split; [done|]. lia.
  - intros x q i r Hq Hh. simpl in Hq |- *. apply lookup_insert_Some in Hq as [[<- <-]|[_ Hq]]; [done|].
    destruct (ai_held a Hi x q i r Hq Hh) as (s' & Hs' & <-).
    destruct (decide (id = i)) as [<-|Hne];
      [rewrite lookup_insert_eq; simplify_eq; by eexists|rewrite lookup_insert_ne by done; eauto].
Qed.

Lemma live_step prefix done id k w pid c w' :
  client_step (with_sink k w) pid c w' → live prefix done id w → live prefix done id w'.
Proof.
  intros Hs (H1 & H2 & H3 & H4). destruct (client_step_kept _ _ _ _ Hs) as (K1 & _ & K3 & K4 & K5).
  simpl in *. unfold live. rewrite K1, K3, K4. split_and!; [done..|].
  destruct K5 as [->|(e & _ & ->)]; [done|]. by rewrite Append_life.
Qed.

Lemma app_inv_conn_step ok a a' : app_inv a → conn_step ok a a' → app_inv a'.
Proof.
  intros Hi Hs. destruct Hs as [cid c c' e Hc _|cid c c' hello v a' ref Hc _ _ Hf Ha
    |cid c c' hello v a' e Hc _ _ Ha|cid c hello ref w pid picks Hc Hw Hp|ref w pid c w' Hw Hc Hst
    |cid id ref pid w c Hc _ _ _].
  - by apply (app_inv_conn a cid (ClRecv c)).
  - by apply (app_inv_acquire v a a' cid (ClRecv c)).
  - apply acquire_err in Ha as ->. by apply (app_inv_conn a cid (ClRecv c)).
  - apply (app_inv_conn _ cid (ClAcquired c hello ref)); [|done|done].
    by apply (app_inv_heap a ref w).
  - apply app_inv_sink, (app_inv_heap a ref w); [done..|]. intros id. by apply live_step with (a_sink a) pid c.
  - by apply (app_inv_release a cid id ref pid).
Qed.

Lemma app_inv_stop a : app_inv a → app_inv (app_cancel a).
Proof.
  intros [Hr Hh]. split; [|done]. intros id s Hs. destruct (Hr id s Hs) as ((w & Hw & Hl) & Hcnt).
  split; [|done]. exists (session_cancel w). simpl. rewrite lookup_fmap, Hw. split; [done|].
  destruct Hl as (H1 & H2 & _ & [= _ H4]). unfold live, life_of; simpl. by rewrite H4.
Qed.

Lemma app_inv_step ok a a' : app_inv a → app_step ok a a' → app_inv a'.
Proof.
  intros Hi [cid c Hn _|a1 Hs|]; [by apply app_inv_accept|by eapply app_inv_conn_step|by apply app_inv_stop].
Qed.

Lemma app_inv_reach ok prefix sink disk a : app_reach ok (new_app prefix sink disk) a → app_inv a.
Proof.
  intros Hr. remember (new_app prefix sink disk) as a0 eqn:H0.
  assert (app_inv a0) as Hi by (rewrite H0; split; intros *; cbn; rewrite lookup_empty; done).
  clear H0. induction Hr; eauto using app_inv_step.
Qed.

(** ** The log of a session, open or closed *)

Definition log_of (a : App) (id : vec u8 16) : list WalEntry :=
  match a_sessions a !! id with
  | Some s => match a_heap a !! as_session s with
              | Some w => w_entries (S_wal (w_session w))
              | None => []
              end
  | None =>
      match snd (OpenWAL (Ok (open_file (default [] (a_disk a !! wal_path (session_dir (a_prefix a) id))) []))) with
      | Ok l => w_entries l
      | _ => []
      end
  end.

(** The files on the disk and the open sessions are well-formed logs. *)
Record store_inv (a : App) : Prop := {
  si_disk path data : a_disk a !! path = Some data →
    ∃ l, data = wal_bytes l ∧ Forall normal l ∧ NoDup (DedupKey <$> l);
  si_open id s w : a_sessions a !! id = Some s → a_heap a !! as_session s = Some w →
    synced (S_wal (w_session w));
}.

(** Steps in which the disk refuses nothing to a session that is opened. *)
Definition good_env (v : env) : Prop := env_script v = [].

(** What may happen to the log of a session while it is open. *)
Definition log_kept (w w' : World) : Prop :=
  let l := S_wal (w_session w) in let l' := S_wal (w_session w') in
  l' = l ∨ (∃ e, normal e ∧ l' = fst (Append e l)) ∨ l' = wal_cancel l.

Lemma session_log_kept w w' : session_kept w w' → log_kept w w'.
Proof. intros (_&_&_&_&[|]); [by left|by right; left]. Qed.

Lemma log_kept_refl w : log_kept w w.
Proof. by left. Qed.

Lemma synced_kept w w' : log_kept w w' → synced (S_wal (w_session w)) → synced (S_wal (w_session w')).
Proof.
  intros [->|[(e & He & ->)| ->]] H; [done|by apply synced_Append|by apply (synced_child true)].
Qed.

Lemma log_kept_grows w w' :
  log_kept w w' → w_entries (S_wal (w_session w)) `prefix_of` w_entries (S_wal (w_session w')).
Proof. intros [->|[(e & _ & ->)| ->]]; [done|apply (proj1 (Append_extends e _))|done]. Qed.

(** *** Each step keeps the store and extends the logs *)

Lemma close_file_data w :
  f_data (w_file (S_wal (w_session (fst (session_Close w))))) = f_data (w_file (S_wal (w_session w))).
Proof.
  unfold session_Close, mbind, M_bind, modify, on_wal, zoom, Close, on_file, zoom, mbind, M_bind; simpl.
  by destruct (file_close_cases (w_file (S_wal (w_session w)))) as (s & [] & -> & _).
Qed.

Lemma wal_path_inj prefix id1 id2 :
  wal_path (session_dir prefix id1) = wal_path (session_dir prefix id2) → id1 = id2.
Proof. unfold wal_path. intros H%app_inv_tail. by eapply session_dir_inj. Qed.

Lemma disk_entry a path :
  store_inv a → ∃ l, default [] (a_disk a !! path) = wal_bytes l ∧ Forall normal l ∧ NoDup (DedupKey <$> l).
Proof.
  intros Hi. destruct (a_disk a !! path) as [data|] eqn:Hd; simpl.
  - destruct (si_disk a Hi path data Hd) as (l & -> & ? & ?). by exists l.
  - exists []. split; [done|]. split; [done|]. constructor.
Qed.

Definition extends (a a' : App) : Prop := ∀ id, log_of a id `prefix_of` log_of a' id.

(** Changes that concern neither the registry nor the files. *)
Lemma store_same a a' :
  a_prefix a' = a_prefix a → a_sessions a' = a_sessions a → a_disk a' = a_disk a →
  (∀ ref w, a_heap a !! ref = Some w → ∃ w', a_heap a' !! ref = Some w' ∧ log_kept w w') →
  (∀ ref, a_heap a !! ref = None → a_heap a' !! ref = None) →
  store_inv a → store_inv a' ∧ extends a a'.
Proof.
  intros Hp Hs Hd Hh Hn Hi. split; [split|].
  - rewrite Hd. apply Hi.
  - intros id s w'. rewrite Hs. intros Hid Hw'. destruct (a_heap a !! as_session s) as [w|] eqn:Hw;
      [|by rewrite (Hn _ Hw) in Hw'].
    destruct (Hh _ _ Hw) as (w2 & Hw2 & Hk). simplify_eq.
    eapply synced_kept; [done|]. by eapply (si_open a Hi).
  - intros id. unfold log_of. rewrite Hp, Hs, Hd. destruct (a_sessions a !! id) as [s|]; [|done].
    destruct (a_heap a !! as_session s) as [w|] eqn:Hw; [|apply prefix_nil].
    destruct (Hh _ _ Hw) as (w' & -> & Hk). by apply log_kept_grows.
Qed.

Lemma heap_insert_kept a ref w w' :
  a_heap a !! ref = Some w → log_kept w w' →
  (∀ r v, a_heap a !! r = Some v → ∃ v', <[ref := w']> (a_heap a) !! r = Some v' ∧ log_kept v v')
  ∧ (∀ r, a_heap a !! r = None → <[ref := w']> (a_heap a) !! r = None).
Proof.
  intros Hw Hk. split; intros r.
  - intros v Hv. destruct (decide (ref = r)) as [<-|Hne].
    + rewrite lookup_insert_eq. simplify_eq. by eexists.
    + rewrite lookup_insert_ne by done. exists v. split; [done|by apply log_kept_refl].
  - intros Hn. rewrite lookup_insert_ne; [done|]. by intros ->; simplify_eq.
Qed.

Lemma store_acquire v a a' id secret ref :
  app_inv a → store_inv a → good_env v → a_heap a !! env_ref v = None →
  acquireSession v id secret a = (a', Ok ref) → store_inv a' ∧ extends a a'.
Proof.
  intros Ha Hi Hv Hf Hacq.
  destruct (acquire_ok v id secret a a' ref Hacq)
    as [(s & w & Hs & Hw & -> & _ & ->)|(l & Hs & -> & Hl & ->)].
  - split; [split; [apply Hi|]|]; simpl.
    + intros i x w'. intros [[<- <-]|[_ Hx]]%lookup_insert_Some;
        [by apply (si_open a Hi id s)|by apply (si_open a Hi i x)].
    + intros i. unfold log_of; simpl. destruct (decide (id = i)) as [<-|Hne].
      * by rewrite lookup_insert_eq, Hs.
      * by rewrite lookup_insert_ne.
  - assert (∀ i x, a_sessions a !! i = Some x → env_ref v ≠ as_session x) as Hne.
    { intros i x Hx Heq. destruct (ai_reg a Ha i x Hx) as ((w & Hw & _) & _). congruence. }
    unfold opened in Hl. destruct (env_open v) as [|]; [done|]. rewrite Hv in Hl.
    destruct (disk_entry a (wal_path (session_dir (a_prefix a) id)) Hi) as (es & Hes & Hn & Hk).
    destruct (open_stored _ es Hes Hn Hk) as (w & Ho & Hwe & Hsy). rewrite Ho in Hl. simpl in Hl.
    apply Ok_inj in Hl as <-. split; [split; [apply Hi|]|]; simpl.
    + intros i x w'. intros [[<- <-]|[Hii Hx]]%lookup_insert_Some; simpl.
      * rewrite lookup_insert_eq. intros [= <-]. by apply synced_child.
      * rewrite lookup_insert_ne by eauto. by eapply (si_open a Hi).
    + intros i. unfold log_of; simpl. destruct (decide (id = i)) as [<-|Hii].
      * rewrite lookup_insert_eq, Hs; simpl. rewrite lookup_insert_eq; simpl. rewrite Ho.
        by destruct (a_done a).
      * rewrite lookup_insert_ne by done. destruct (a_sessions a !! i) as [x|] eqn:Hx; [|done].
        by rewrite lookup_insert_ne by eauto.
Qed.

Lemma store_release a id :
  app_inv a → store_inv a → store_inv (releaseSession id a) ∧ extends a (releaseSession id a).
Proof.
  intros Ha Hi. unfold releaseSession. destruct (a_sessions a !! id) as [s|] eqn:Hs; [|by split; [|intros i]].
  destruct (ai_reg a Ha id s Hs) as ((w & Hw & Hid & Hdir & _) & _). case_decide.
  - unfold close_session; simpl. rewrite Hw. destruct (si_open a Hi id s w Hs Hw) as (Hl & [Hd _] & _).
    assert (∀ i x, a_sessions a !! i = Some x → id ≠ i → as_session s ≠ as_session x) as Hne.
    { intros i x Hx Hii Heq. by apply Hii, (app_inv_refs a id i s x). }
    split; [split|]; simpl.
    + intros path data [[<- <-]|[_ Hp]]%lookup_insert_Some; [|by eapply (si_disk a Hi)].
      rewrite close_file_data, Hd. exists (w_entries (S_wal (w_session w))). split; [done|].
      by destruct Hl as (_ & ? & ?).
    + intros i x w' [Hii Hx]%lookup_delete_Some. rewrite lookup_insert_ne by eauto.
      by apply (si_open a Hi i x).
    + intros i. unfold log_of; simpl. destruct (decide (id = i)) as [<-|Hii].
      * rewrite Hs, Hw, lookup_delete_eq, Hdir, lookup_insert_eq; simpl. rewrite close_file_data, Hd.
        destruct Hl as (_ & Hk & Hn). destruct (open_stored _ _ eq_refl Hn Hk) as (w2 & -> & He & _).
        simpl. by rewrite He.
      * rewrite lookup_delete_ne by done. destruct (a_sessions a !! i) as [x|] eqn:Hx.
        -- by rewrite lookup_insert_ne by eauto.
        -- rewrite lookup_insert_ne; [done|]. rewrite Hdir. by intros ?%wal_path_inj.
  - split; [split; [apply Hi|]|]; simpl.
    + intros i x w'. intros [[<- <-]|[_ Hx]]%lookup_insert_Some;
        [by apply (si_open a Hi id s)|by apply (si_open a Hi i x)].
    + intros i. unfold log_of; simpl. destruct (decide (id = i)) as [<-|Hne].
      * by rewrite lookup_insert_eq, Hs.
      * by rewrite lookup_insert_ne.
Qed.

Lemma set_conn_store a cid pc :
  store_inv a → store_inv (set_conn cid pc a) ∧ extends a (set_conn cid pc a).
Proof. intros [Hd Ho]. split; [by split|]. by intros i. Qed.

Lemma extends_trans a1 a2 a3 : extends a1 a2 → extends a2 a3 → extends a1 a3.
Proof. intros H1 H2 id. etrans; [apply H1|apply H2]. Qed.

Lemma conn_step_store a a' :
  app_inv a → store_inv a → conn_step good_env a a' → store_inv a' ∧ extends a a'.
Proof.
  intros Ha Hi Hs. destruct Hs as [cid c c' e _ _|cid c c' hello v a' ref _ _ Hv Hf Hacq
    |cid c c' hello v a' e _ _ _ Hacq|cid c hello ref w pid picks _ Hw _|ref w pid c w' Hw _ Hst
    |cid id ref pid w c _ _ _ _].
  - by apply set_conn_store.
  - destruct (store_acquire v a a' _ _ ref Ha Hi Hv Hf Hacq) as [Hi' He].
    destruct (set_conn_store a' cid (ClAcquired c' hello ref) Hi'). split; [done|by eapply extends_trans].
  - apply acquire_err in Hacq as ->. by apply set_conn_store.
  - set (w' := join_register _ _ _ _ _ _ _ w).
    assert (log_kept w w') as Hk by (by left).
    destruct (heap_insert_kept a ref w w' Hw Hk) as [H1 H2]. by apply store_same.
  - assert (log_kept w w') as Hk by exact (session_log_kept _ _ (client_step_kept _ _ _ _ Hst)).
    destruct (heap_insert_kept a ref w w' Hw Hk) as [H1 H2]. by apply store_same.
  - destruct (store_release a id Ha Hi) as [Hi' He].
    destruct (set_conn_store (releaseSession id a) cid ClReturned Hi').
    split; [done|by eapply extends_trans].
Qed.

Lemma app_step_store a a' :
  app_inv a → store_inv a → app_step good_env a a' → store_inv a' ∧ extends a a'.
Proof.
  intros Ha Hi [cid c _ _|a1 Hs|]; [by apply set_conn_store|by apply conn_step_store|].
  apply store_same; [done..| | |done]; intros ref; simpl; rewrite lookup_fmap.
  - intros w ->. exists (session_cancel w). split; [done|]. by right; right.
  - by intros ->.
Qed.

Lemma app_reach_store a a' :
  app_inv a → store_inv a → app_reach good_env a a' → app_inv a' ∧ store_inv a' ∧ extends a a'.
Proof.
  intros Ha Hi Hr. induction Hr as [a|a a1 a2 Hs _ IH]; [by split_and!; [..|intros i]|].
  pose proof (app_inv_step _ _ _ Ha Hs) as Ha1.
  destruct (app_step_store _ _ Ha Hi Hs) as [Hi1 He1].
  destruct (IH Ha1 Hi1) as (? & ? & ?). split_and!; [done..|by eapply extends_trans].
Qed.

(** What is fixed when the server starts, and its context. *)
Lemma conn_step_fixed ok a a' :
  conn_step ok a a' → a_prefix a' = a_prefix a ∧ a_done a' = a_done a.
Proof.
  intros Hs. destruct Hs as [|cid c c' hello v a1 ref _ _ _ _ Ha|cid c c' hello v a1 e _ _ _ Ha| | |];
    simpl; try done.
  - by destruct (acquire_ok _ _ _ _ _ _ Ha) as [(s & w & _ & _ & _ & _ & ->)|(l & _ & _ & _ & ->)].
  - by apply acquire_err in Ha as ->.
  - unfold releaseSession, close_session. by repeat (case_match || case_decide).
Qed.

Lemma app_reach_prefix ok a a' : app_reach ok a a' → a_prefix a' = a_prefix a.
Proof.
  induction 1 as [|a a1 a2 Hs _ IH]; [done|]. rewrite IH. clear IH.
  destruct Hs as [|a1 Hs|]; [done|by destruct (conn_step_fixed _ _ _ Hs)|done].
Qed.

Lemma OpenSession_returns a v id secret :
  returns (OpenSession (a_prefix a) id secret (a_sink a) (a_done a) (env_mkdir v) (opened a v)).
Proof.
  unfold OpenSession, getDataPath. destruct (env_mkdir v); [done|]. simpl.
  apply res_bind_returns; [|done]. apply wrap_err_returns. unfold opened.
  destruct (env_open v); [done|]. apply OpenWAL_returns.
Qed.

(** *** Two players that come and go *)

Definition ex_env (n : nat) : env := MkEnv n None None [].
Definition ex_prefix : bytes := str "data".
Definition ex_app0 : App := new_app ex_prefix SinkNull ∅.

(** A connection on which [ex_hello] arrives. *)
Definition ex_client : conn :=
  conn_on (match ClientHello_Serialize ex_hello with Ok d => frame (MkPacket OpHello d) | _ => [] end) EOF.
Definition ex_client' : conn := fst (client_hello ex_client).

Definition ex_app1 : App := set_conn 0 (ClRecv ex_client) ex_app0.
Definition ex_app2 : App :=
  set_conn 0 (ClAcquired ex_client' ex_hello 7)
    (fst (acquireSession (ex_env 7) (ch_SessionID ex_hello) (ch_SessionSecret ex_hello) ex_app1)).
Definition ex_app3 : App := set_conn 1 (ClRecv ex_client) ex_app2.
Definition ex_app4 : App :=
  set_conn 1 (ClAcquired ex_client' ex_hello 7)
    (fst (acquireSession (ex_env 8) (ch_SessionID ex_hello) (ch_SessionSecret ex_hello) ex_app3)).

Lemma ex_app_reach : app_reach good_env ex_app0 ex_app4.
Proof.
  apply (rtc_l _ _ ex_app1); [apply app_accept; vm_compute; reflexivity|].
  apply (rtc_l _ _ ex_app2).
  { apply app_conn, (app_acquire _ _ 0 ex_client ex_client' ex_hello (ex_env 7)); vm_compute; reflexivity. }
  apply (rtc_l _ _ ex_app3); [apply app_accept; vm_compute; reflexivity|].
  apply (rtc_l _ _ ex_app4); [|apply rtc_refl].
  apply app_conn, (app_acquire _ _ 1 ex_client ex_client' ex_hello (ex_env 8)); vm_compute; reflexivity.
Qed.

(** ** Properties *)

(** C19: in every execution of the server, whatever the operating system answers,
    the count of a registered session is the number of connections that hold it
    and is positive, the session is open and stored under its own ID and
    directory, its contexts are cancelled exactly when the server's is, and every connection between [acquireSession] and [releaseSession]
    works on the session registered under its ID: nobody uses a closed session
    and no two open sessions share a log file. *)
Theorem sessions_refcounted ok prefix sink disk a :
  app_reach ok (new_app prefix sink disk) a →
  (∀ id s, a_sessions a !! id = Some s →
     as_count s = Z.of_nat (holders id a) ∧ (0 < as_count s)%Z
     ∧ ∃ w, a_heap a !! as_session s = Some w ∧ live prefix (a_done a) id w)
  ∧ (∀ cid pc id ref, a_conns a !! cid = Some pc → held pc = Some (id, ref) →
     ∃ s w, a_sessions a !! id = Some s ∧ as_session s = ref ∧ a_heap a !! ref = Some w
       ∧ live prefix (a_done a) id w)
  ∧ (∀ id1 id2 s1 s2 w1 w2, a_sessions a !! id1 = Some s1 → a_sessions a !! id2 = Some s2 →
     a_heap a !! as_session s1 = Some w1 → a_heap a !! as_session s2 = Some w2 →
     wal_path (S_DataDir (w_session w1)) = wal_path (S_DataDir (w_session w2)) → id1 = id2).
Proof.
  intros Hr. pose proof (app_inv_reach _ _ _ _ _ Hr) as Hi.
  assert (a_prefix a = prefix) as Hp by (by apply (app_reach_prefix ok _ _ Hr)).
  split_and!.
  - intros id s Hs. destruct (ai_reg a Hi id s Hs) as (Hw & Hc & Hpos). rewrite Hp in Hw. done.
  - intros cid pc id ref Hc Hh. destruct (ai_held a Hi cid pc id ref Hc Hh) as (s & Hs & <-).
    destruct (ai_reg a Hi id s Hs) as ((w & Hw & Hl) & _). rewrite Hp in Hl. exists s, w. done.
  - intros id1 id2 s1 s2 w1 w2 H1 H2 Hw1 Hw2.
    destruct (ai_reg a Hi id1 s1 H1) as ((v1 & Hv1 & _ & Hd1 & _) & _).
    destruct (ai_reg a Hi id2 s2 H2) as ((v2 & Hv2 & _ & Hd2 & _) & _).
    simplify_eq. rewrite Hd1, Hd2. apply wal_path_inj.
Qed.

Lemma sessions_refcounted_witness :
  ∃ s, a_sessions ex_app4 !! ch_SessionID ex_hello = Some s
  ∧ as_count s = 2%Z
  ∧ as_count s = Z.of_nat (holders (ch_SessionID ex_hello) ex_app4) ∧ (0 < as_count s)%Z
  ∧ ∃ w, a_heap ex_app4 !! as_session s = Some w ∧ live ex_prefix false (ch_SessionID ex_hello) w.
Proof.
  exists (MkAppSession 7 2). assert (a_sessions ex_app4 !! ch_SessionID ex_hello = Some (MkAppSession 7 2)) as Hs
    by (vm_compute; reflexivity).
  split; [exact Hs|]. split; [reflexivity|].
  exact (proj1 (sessions_refcounted good_env ex_prefix SinkNull ∅ ex_app4 ex_app_reach) _ _ Hs).
Defined.

(** A HELLO with another secret than that of the open session is refused and
    changes nothing; with the right one it gets the same session; when the session
    is not open, it is opened with the secret of the HELLO, whatever that is.
    [acquireSession] never panics. *)
Theorem acquire_secret ok prefix sink disk a v id secret a' r :
  app_reach ok (new_app prefix sink disk) a → acquireSession v id secret a = (a', r) →
  r ≠ Panic ∧ r ≠ NoFuel ∧
  match a_sessions a !! id with
  | Some s => ∃ w, a_heap a !! as_session s = Some w
      ∧ (S_Secret (w_session w) ≠ secret → a' = a ∧ r = Err (Errorf "invalid session secret"))
      ∧ (S_Secret (w_session w) = secret → r = Ok (as_session s) ∧ a_heap a' = a_heap a
         ∧ a_sessions a' !! id = Some (MkAppSession (as_session s) (as_count s + 1)))
  | None =>
      (∃ e, r = Err e ∧ a' = a)
      ∨ (∃ w, r = Ok (env_ref v) ∧ a_heap a' !! env_ref v = Some w ∧ S_Secret (w_session w) = secret
         ∧ w_clients w = ∅ ∧ a_sessions a' !! id = Some (MkAppSession (env_ref v) 1))
  end.
Proof.
  intros Hr Hacq. pose proof (app_inv_reach _ _ _ _ _ Hr) as Hi.
  unfold acquireSession in Hacq. destruct (a_sessions a !! id) as [s|] eqn:Hs.
  - destruct (ai_reg a Hi id s Hs) as ((w & Hw & _) & _). rewrite Hw in Hacq.
    destruct (decide (S_Secret (w_session w) ≠ secret)) as [Hne|He]; simplify_eq.
    + split_and!; [done..|]. by exists w.
    + apply dec_stable in He. split_and!; [done..|]. exists w. split; [done|]. split; [done|].
      intros _. simpl. by rewrite lookup_insert_eq.
  - pose proof (proj2 (wrap_err_returns "failed to open session" _) (OpenSession_returns a v id secret))
      as [Hp Hf].
    destruct (wrap_err _ _) as [session|e| |] eqn:Ho; simplify_eq; [|by split_and!; eauto|done..].
    split_and!; [done..|]. right. apply wrap_err_Ok, OpenSession_Ok in Ho as (l & _ & ->).
    simpl. rewrite !lookup_insert_eq. eauto 10.
Qed.

Lemma acquire_secret_witness :
  let id := ch_SessionID ex_hello in
  ∃ s, a_sessions ex_app2 !! id = Some s
  ∧ ∃ w, a_heap ex_app2 !! as_session s = Some w
      ∧ (S_Secret (w_session w) ≠ arr_of 8 [] →
         fst (acquireSession (ex_env 9) id (arr_of 8 []) ex_app2) = ex_app2
         ∧ snd (acquireSession (ex_env 9) id (arr_of 8 []) ex_app2) = Err (Errorf "invalid session secret")).
Proof.
  intros id. exists (MkAppSession 7 1).
  assert (a_sessions ex_app2 !! id = Some (MkAppSession 7 1)) as Hs by (vm_compute; reflexivity).
  split; [exact Hs|].
  assert (app_reach good_env ex_app0 ex_app2) as Hr.
  { apply (rtc_l _ _ ex_app1); [apply app_accept; vm_compute; reflexivity|].
    apply (rtc_l _ _ ex_app2); [|apply rtc_refl].
    apply app_conn, (app_acquire _ _ 0 ex_client ex_client' ex_hello (ex_env 7)); vm_compute; reflexivity. }
  destruct (acquireSession (ex_env 9) id (arr_of 8 []) ex_app2) as [a' r] eqn:Ha.
  pose proof (acquire_secret good_env ex_prefix SinkNull ∅ ex_app2 (ex_env 9) id (arr_of 8 []) a' r Hr Ha)
    as (_ & _ & H).
  rewrite Hs in H. destruct H as (w & Hw & H & _). exists w. split; [exact Hw|exact H].
Defined.

(** C4: the log of a session survives its closing: over any execution in which the
    disk refuses nothing to the sessions that are opened, what was the log of an
    ID, in memory while the session is open and on the disk while it is closed,
    remains a prefix of it, however often players join and leave. *)
Theorem log_survives prefix sink disk a a' id :
  store_inv (new_app prefix sink disk) →
  app_reach good_env (new_app prefix sink disk) a → app_reach good_env a a' →
  log_of a id `prefix_of` log_of a' id.
Proof.
  intros Hs Hr Hr'.
  assert (app_inv (new_app prefix sink disk)) as Hi by (by apply (app_inv_reach good_env _ _ _ _ (rtc_refl _ _))).
  destruct (app_reach_store _ _ Hi Hs Hr) as (Hi1 & Hs1 & _).
  destruct (app_reach_store _ _ Hi1 Hs1 Hr') as (_ & _ & He). apply He.
Qed.

(** A disk that holds the log of one session. *)
Definition ex_disk : gmap bytes bytes :=
  {[ wal_path (session_dir ex_prefix (ch_SessionID ex_hello)) := wal_bytes [ex_item] ]}.
Definition ex_app5 : App := new_app ex_prefix SinkNull ex_disk.
Definition ex_app6 : App := set_conn 0 (ClRecv ex_client) ex_app5.
Definition ex_app7 : App :=
  set_conn 0 (ClAcquired ex_client' ex_hello 7)
    (fst (acquireSession (ex_env 7) (ch_SessionID ex_hello) (ch_SessionSecret ex_hello) ex_app6)).

Lemma log_survives_witness :
  let id := ch_SessionID ex_hello in
  store_inv ex_app5 ∧ app_reach good_env ex_app5 ex_app7
  ∧ log_of ex_app5 id = [ex_item] ∧ log_of ex_app5 id `prefix_of` log_of ex_app7 id.
Proof.
  intros id.
  assert (store_inv ex_app5) as Hs.
  { split.
    - intros path data H. change (ex_disk !! path = Some data) in H. unfold ex_disk in H.
      apply lookup_singleton_Some in H as [_ <-]. exists [ex_item].
      split; [reflexivity|]. split; [apply Forall_singleton, ex_item_normal|]. apply NoDup_singleton.
    - intros i s w H. cbn in H. rewrite lookup_empty in H. discriminate H. }
  assert (app_reach good_env ex_app5 ex_app7) as Hr.
  { apply (rtc_l _ _ ex_app6); [apply app_accept; vm_compute; reflexivity|].
    apply (rtc_l _ _ ex_app7); [|apply rtc_refl].
    apply app_conn, (app_acquire _ _ 0 ex_client ex_client' ex_hello (ex_env 7)); vm_compute; reflexivity. }
  split; [exact Hs|]. split; [exact Hr|]. split; [vm_compute; reflexivity|].
  exact (log_survives ex_prefix SinkNull ex_disk ex_app5 ex_app7 id Hs (rtc_refl _ _) Hr).
Defined.
