(* ===== verification/ServerRun.v ===== *)
(** * The life of the server (server/internal/app/app.go, server/internal/config)

    [Run] and [run]: the configuration, the loop that accepts connections, and the
    end: who waits for whom when the context of the server is cancelled, and in which
    state the sessions are left.  The connections are those of ServerApp.v. *)

From stdpp Require Import base gmap sets strings vector numbers tactics list relations.
From Stdlib Require Import ZArith Lia.
From S2P Require Import Prelude Words GoIO GoStr WalEntry Packet Wal Events ServerSession ServerApp.

(** ** Configuration *)

Record Config : Type := MkConfig { DataDir : bytes; NatsURL : bytes }.

(** [getenv] is [os.Getenv].  [flag_data d args] is what [pflag] gives for
    [--data]/[-d] on the command line [args] when the default is [d], [None] when it
    ends the process. *)
Definition ParseConfig (getenv : bytes → bytes) (flag_data : bytes → list bytes → option bytes)
    (args : list bytes) : option Config :=
  let env := getenv (str "OOTMM_SERVER_DATA_DIR") in
  let defaultDataDir := if decide (env = []) then str "./data/server" else env in
  dataDir ← flag_data defaultDataDir args;
  Some (MkConfig dataDir (getenv (str "OOTMM_SERVER_NATS_URL"))).

(** ** State *)

(** [run] before the test of its loop, in [AcceptTCP] and in [wg.Wait]; [Run] in
    [sink.Close] and at its end. *)
Inductive run_pc : Type := RLoop | RAccept | RWait | RSink | REnded.

(** [sv_listening]: the listener is open. *)
Record Server : Type := MkServer {
  sv_app : App;
  sv_pc : run_pc;
  sv_listening : bool;
}.

Definition set_app a s := MkServer a (sv_pc s) (sv_listening s).
Definition set_pc p s := MkServer (sv_app s) p (sv_listening s).
Definition set_listening b s := MkServer (sv_app s) (sv_pc s) b.

(** [Run] up to [app.run]: [listen] is what [net.ListenTCP] answers, [picks] are the
    choices of the channel of the sink.  [None]: the process ended. *)
Definition Run (listen : option error) (getenv : bytes → bytes)
    (flag_data : bytes → list bytes → option bytes) (args : list bytes) (picks : list bool)
    (disk : gmap bytes bytes) : option (res Server) :=
  match listen with
  | Some err => Some (Err err)
  | None =>
      conf ← ParseConfig getenv flag_data args;
      let sink := NewSink (NatsURL conf) picks in
      Some (Ok (MkServer (new_app (DataDir conf) sink disk) RLoop true))
  end.

(** ** Steps *)

Definition returned (pc : cl_pc) : Prop := pc = ClReturned.

Definition sink_ended (k : Sink PositionEvent) : Prop :=
  match k with SinkNull => True | SinkNats s => sk_pc s = RunDone end.

(** The server by itself; [ok] restricts what the operating system may answer. *)
Inductive own_step (ok : env → Prop) (s : Server) : Server → Prop :=
  (* run *)
  | sv_again : sv_pc s = RLoop → a_done (sv_app s) = false → own_step ok s (set_pc RAccept s)
  | sv_break : sv_pc s = RLoop → a_done (sv_app s) = true → own_step ok s (set_pc RWait s)
  | sv_accept_err : sv_pc s = RAccept → own_step ok s (set_pc RLoop s)
  | sv_unlisten : a_done (sv_app s) = true → own_step ok s (set_listening false s)
  | sv_wait :
      sv_pc s = RWait → sv_listening s = false → map_Forall (λ _, returned) (a_conns (sv_app s)) →
      own_step ok s (set_pc RSink (set_app (set_sink (sink_cancel (a_sink (sv_app s))) (sv_app s)) s))
  (* Run: sink.Close waits for the goroutine of the sink *)
  | sv_end : sv_pc s = RSink → sink_ended (a_sink (sv_app s)) → own_step ok s (set_pc REnded s)
  (* the goroutines *)
  | sv_conn a : conn_step ok (sv_app s) a → own_step ok s (set_app a s)
  | sv_sink k k' :
      a_sink (sv_app s) = SinkNats k → Events.run_step k k' →
      own_step ok s (set_app (set_sink (SinkNats k') (sv_app s)) s).

(** With the clients and the user. *)
Inductive server_step (ok : env → Prop) (s : Server) : Server → Prop :=
  | sv_own s' : own_step ok s s' → server_step ok s s'
  | sv_accept cid c :
      sv_pc s = RAccept → sv_listening s = true → a_conns (sv_app s) !! cid = None → tx c = [] →
      server_step ok s (set_pc RLoop (set_app (set_conn cid (ClRecv c) (sv_app s)) s))
  | sv_interrupt : server_step ok s (set_app (app_cancel (sv_app s)) s).

Definition server_reach (ok : env → Prop) : Server → Server → Prop := rtc (server_step ok).

(** ** A player whose context is cancelled *)

(** Steps to the end of its goroutines and of [Join]. *)
Definition work (c : Client) : nat :=
  match c_join c with JHello => 2 | JRunning => 1 | JLeft => 0 end
  + match c_in c with InStopped => 0 | _ => 1 end
  + match c_pkts c with PkSend _ => 2 | PkSelect => 1 | PkStopped => 0 end
  + match c_out c with OutWrite _ => 2 | OutSelect => 1 | OutStopped => 0 end
  + match c_wal c with
    | WsNext ReadNotify _ => 4 | WsNext (CallGet _) _ => 3 | WsNext (Select _) _ => 2
    | WsNext (Returned (Ok _)) _ => 2 | WsNext (Returned _) _ => 1
    | WsSend _ _ => 1 | WsStopped => 0
    end.

Definition out_done (c : Client) : bool := o_done (P_out (c_player c)).

Definition closer (w : World) (pid : pl_ref) (c : Client) : Prop :=
  ∃ w' c', client_step w pid c w' ∧ w_clients w' !! pid = Some c' ∧ work c' < work c
    ∧ out_done c' = true.

(** A step that changes the player to [c']. *)
Lemma closer_upd w pid c f :
  w_clients w !! pid = Some c → client_step w pid c (upd_client pid f w) →
  work (f c) < work c → out_done (f c) = true → closer w pid c.
Proof.
  intros Hc Hs Hw Hd. exists (upd_client pid f w), (f c). split_and!; [done| |done..].
  simpl. by rewrite lookup_alter_eq, Hc.
Qed.

Ltac finish_work :=
  unfold work; simpl;
  repeat match goal with H : ?f ?x = _ |- context [?f ?x] => rewrite H end; lia.

Lemma with_conn_cases {A} (m : M conn A) c :
  ∃ k r, with_conn m c = (on_player (set_P_Conn k) c, r) ∧ r = snd (m (P_Conn (c_player c))).
Proof. unfold with_conn. destruct (m _) as [k r]. by exists k, r. Qed.

Lemma Send_returns pkt k : returns (snd (SendRawTimeoutDefault pkt k)).
Proof.
  pose proof (SendRawTimeoutDefault_tx pkt k) as H. revert H.
  unfold SendRawTimeoutDefault, SendRawTimeout, mbind, M_bind, SetWriteDeadline, modify, deferred.
  destruct (decide (sendable pkt)) as [Hs|Hs].
  - rewrite SendRaw_sendable by done. unfold conn_write. simpl. by destruct (tx_script k) as [|[|] ?].
  - by rewrite SendRaw_oversized by done.
Qed.

(** [Join] waits for nothing but its goroutines, and each of them finds its end. *)
Lemma wal_closer w pid c :
  srv_inv w → w_clients w !! pid = Some c → out_done c = true → c_join c = JRunning →
  c_wal c ≠ WsStopped → closer w pid c.
Proof.
  intros Hi Hc Hd Hj Hw. pose proof (proj2 Hi pid c Hc) as Hci.
  destruct (c_wal c) as [pc i|pkt i|] eqn:Ews; [| |done].
  - destruct pc as [|ch|ch|[[e n]|err| |]].
    + apply (closer_upd w pid c (set_c_wal (WsNext (CallGet (w_notify (S_wal (w_session w)))) i)));
        [done| |finish_work|done].
      apply (st_next _ _ _ ReadNotify _ i (MkStream (o_done (P_out (c_player c))) i) Hj Ews).
      apply next_read_notify.
    + destruct (Get_total (S_wal (w_session w)) i (proj1 (proj1 Hi))) as [[e|] Hg].
      * apply (closer_upd w pid c (set_c_wal (WsNext (Returned (Ok (e, i))) (uincr i))));
          [done| |finish_work|done].
        apply (st_next _ _ _ (CallGet ch) _ i (MkStream (o_done (P_out (c_player c))) (uincr i)) Hj Ews).
        exact (next_get_some _ ch (MkStream _ i) e Hg).
      * apply (closer_upd w pid c (set_c_wal (WsNext (Select ch) i))); [done| |finish_work|done].
        apply (st_next _ _ _ (CallGet ch) _ i (MkStream (o_done (P_out (c_player c))) i) Hj Ews).
        exact (next_get_none _ ch (MkStream _ i) Hg).
    + apply (closer_upd w pid c
        (set_c_wal (WsNext (Returned (Err (Errorf "wal stream canceled"))) i))); [done| |finish_work|done].
      apply (st_next _ _ _ (Select ch) _ i (MkStream (o_done (P_out (c_player c))) i) Hj Ews).
      by apply next_canceled.
    + destruct (handleWalEntry_spec pid e n i w c Hc Hci Ews) as [Heq _].
      eexists _, (set_c_wal (WsSend (wal_packet (e, n)) i) (on_player (set_P_WalIndex (uincr n)) c)).
      split_and!; [exact (st_wal_entry w pid c e n i _ _ Ews Heq)| |finish_work|done].
      simpl. by rewrite !lookup_alter_eq, Hc.
    + apply (closer_upd w pid c (stop (set_c_wal WsStopped)) Hc); [by eapply st_wal_err|finish_work|done].
    + destruct Hci as (_ & _ & tr & _ & Hm). rewrite Ews in Hm.
      by destruct (fi_pc _ _ _ (proj1 Hm) : returns _) as [? ?].
    + destruct Hci as (_ & _ & tr & _ & Hm). rewrite Ews in Hm.
      by destruct (fi_pc _ _ _ (proj1 Hm) : returns _) as [? ?].
  - assert (wal_send pkt i c = stop (set_c_wal WsStopped)
      (on_player (λ p, set_P_out (o_send pkt (P_out p)) p) c)) as Heq.
    { unfold wal_send. unfold out_done in Hd. by rewrite Hd. }
    apply (closer_upd w pid c (wal_send pkt i) Hc).
    + apply st_wal_send; [done|]. unfold o_unblocked. unfold out_done in Hd. rewrite Hd. apply orb_true_r.
    + rewrite Heq. finish_work.
    + by rewrite Heq.
Qed.

Lemma player_closer w pid c :
  srv_inv w → w_clients w !! pid = Some c → out_done c = true → c_join c ≠ JLeft → closer w pid c.
Proof.
  intros Hi Hc Hd Hj. destruct (c_join c) eqn:Ej; [| |done].
  - destruct (with_conn_cases join_hello c) as (k & r & Hw & Hr).
    assert (returns r) as [Hp Hf] by (rewrite Hr, join_hello_eq; apply Send_returns).
    destruct r as [[]|e| |]; [| |done..].
    + apply (closer_upd w pid c (λ _, set_c_join JRunning (on_player (set_P_Conn k) c)) Hc);
        [by apply st_hello_ok|finish_work|done].
    + eexists _, _. split_and!; [by eapply st_hello_err| | |].
      * simpl. by rewrite !lookup_alter_eq, Hc.
      * finish_work.
      * done.
  - destruct (c_wal c) eqn:Ew; [by eapply wal_closer; rewrite ?Ew..|].
    destruct (c_in c) eqn:Ei;
      [apply (closer_upd w pid c (stop (set_c_in InStopped)) Hc); [by apply st_in_stop|finish_work|done]..|].
    destruct (c_pkts c) as [|pkt|] eqn:Ek.
    { apply (closer_upd w pid c (stop (set_c_pkts PkStopped)) Hc); [by apply st_pkts_stop|finish_work|done]. }
    { eapply (closer_upd w pid c _ Hc);
        [apply (st_pkts_send _ _ _ pkt Ek); unfold o_unblocked; unfold out_done in Hd; rewrite Hd; apply orb_true_r
        |finish_work|].
      unfold out_done in *. simpl. by rewrite (proj1 (o_send_cases pkt (P_out (c_player c)))). }
    destruct (c_out c) as [|pkt|] eqn:Eo.
    { apply (closer_upd w pid c (stop (set_c_out OutStopped)) Hc); [by apply st_out_stop|finish_work|done]. }
    { destruct (with_conn_cases (SendRawTimeoutDefault pkt) c) as (k & r & Hw & Hr).
      assert (returns r) as [Hp Hf] by (rewrite Hr; apply Send_returns).
      destruct r as [[]|e| |]; [| |done..].
      - apply (closer_upd w pid c (λ _, set_c_out OutSelect (on_player (set_P_Conn k) c)) Hc);
          [by eapply st_out_write|finish_work|done].
      - apply (closer_upd w pid c (λ _, stop (set_c_out OutStopped) (on_player (set_P_Conn k) c)) Hc);
          [by eapply st_out_err|finish_work|done]. }
    eexists _, _. split_and!; [by apply st_leave| | |].
    + simpl. by rewrite lookup_alter_eq, Hc.
    + finish_work.
    + done.
Qed.

(** ** What stays true of a session *)

(** Players stay, and their contexts stay cancelled. *)
Definition carried (w w' : World) : Prop :=
  ∀ pid, match w_clients w !! pid, w_clients w' !! pid with
         | Some c, Some c' => out_done c = true → out_done c' = true
         | None, None => True
         | _, _ => False
         end.

#[export] Instance carried_preorder : PreOrder carried.
Proof.
  split.
  - intros w pid. by destruct (w_clients w !! pid).
  - intros w1 w2 w3 H1 H2 pid. specialize (H1 pid). specialize (H2 pid).
    destruct (w_clients w1 !! pid), (w_clients w2 !! pid), (w_clients w3 !! pid); tauto.
Qed.

Lemma carried_nudged w w' : nudged_all w w' → carried w w'.
Proof.
  intros H pid. specialize (H pid). destruct (w_clients w !! pid), (w_clients w' !! pid); try done.
  destruct H as (_&_&_&_&_&_&_&_&Hd&_). unfold out_done. congruence.
Qed.

Lemma carried_upd w pid f :
  (∀ c, out_done c = true → out_done (f c) = true) → carried w (upd_client pid f w).
Proof.
  intros Hf q. simpl. destruct (decide (q = pid)) as [->|Hne].
  - rewrite lookup_alter_eq. destruct (w_clients w !! pid) as [c|]; simpl; [apply Hf|done].
  - rewrite lookup_alter_ne by done. by destruct (w_clients w !! q).
Qed.

(** The player itself is replaced. *)
Lemma carried_const w pid c c' :
  w_clients w !! pid = Some c → (out_done c = true → out_done c' = true) →
  carried w (upd_client pid (λ _, c') w).
Proof.
  intros Hc Hd q. simpl. destruct (decide (q = pid)) as [->|Hne].
  - by rewrite lookup_alter_eq, Hc.
  - rewrite lookup_alter_ne by done. by destruct (w_clients w !! q).
Qed.

Lemma carried_clients w w' : w_clients w' = w_clients w → carried w w'.
Proof. intros H pid. rewrite H. by destruct (w_clients w !! pid). Qed.

Lemma carried_leave w pid : carried w (join_leave pid w).
Proof. by apply (carried_upd (set_session _ w)). Qed.

Lemma carried_cancel w : carried w (session_cancel w).
Proof. intros pid. simpl. rewrite lookup_fmap. by destruct (w_clients w !! pid). Qed.

Lemma carried_is_Some w w' pid :
  carried w w' → is_Some (w_clients w !! pid) → is_Some (w_clients w' !! pid).
Proof. intros H [c Hc]. specialize (H pid). rewrite Hc in H. destruct (w_clients w' !! pid); [by eexists|done]. Qed.

Lemma carried_handle since now pid pkt rest w c w1 r :
  w_clients w !! pid = Some c → log_inv (S_wal (w_session w)) →
  handlePacket since now pid pkt
    (upd_client pid (on_player (λ p, set_P_in (Chan (ch_cap (P_in p)) rest) p)) w) = (w1, r) →
  carried w w1.
Proof.
  intros Hc Hl Hh. set (f := on_player _) in Hh. transitivity (upd_client pid f w).
  - by apply carried_upd.
  - apply carried_nudged. eapply (handlePacket_handled _ _ _ _ _ (f c)); [|exact Hl|exact Hh].
    simpl. by rewrite lookup_alter_eq, Hc.
Qed.

Lemma wal_send_done pkt i c : out_done c = true → out_done (wal_send pkt i c) = true.
Proof. intros Hd. unfold wal_send. unfold out_done in *. by rewrite Hd. Qed.

Lemma client_step_carried w pid c w' :
  srv_inv w → w_clients w !! pid = Some c → client_step w pid c w' → carried w w'.
Proof.
  intros Hi Hc Hs. assert (log_inv (S_wal (w_session w))) as Hl by apply Hi.
  destruct Hs as [c' _ Hk|c' e _ Hk| |c' pkt _ _ Hk|c' e _ _ Hk| |
    |pkt rest since now w1 o _ _ _ _ Hh|pkt rest since now w1 e _ _ _ _ Hh|pkt Hpk Hub
    | | | |pkt c' _ Hk|pkt c' e _ Hk| | |e n i w1 o Hws Hh|e n i w1 err Hws Hh| |pkt i Hws Hub];
    try (apply with_conn_eq in Hk as [k ->]);
    try (by apply carried_upd); try (by apply (carried_const _ _ c)).
  - etrans; [by apply (carried_const w pid c (on_player (set_P_Conn k) c))|apply carried_leave].
  - apply carried_leave.
  - etrans; [by eapply carried_handle|by apply carried_upd].
  - etrans; [by eapply carried_handle|by apply carried_upd].
  - apply carried_upd. intros d Hd. unfold out_done in *. simpl.
    by rewrite (proj1 (o_send_cases pkt (P_out (c_player d)))).
  - destruct (handleWalEntry_spec pid e n i w c Hc (proj2 Hi pid c Hc) Hws) as [Heq _].
    rewrite Heq in Hh. simplify_eq. etrans; by apply carried_upd.
  - destruct (handleWalEntry_spec pid e n i w c Hc (proj2 Hi pid c Hc) Hws) as [Heq _].
    rewrite Heq in Hh. simplify_eq.
  - apply carried_upd, wal_send_done.
Qed.

(** The context of the session governs those of its players. *)
Definition governed (w : World) : Prop :=
  S_done (w_session w) = true → ∀ pid c, w_clients w !! pid = Some c → out_done c = true.

Definition world_good (w : World) : Prop := srv_inv w ∧ governed w.

Lemma governed_carried w w' :
  S_done (w_session w') = S_done (w_session w) → carried w w' → governed w → governed w'.
Proof.
  intros Hs Hc Hg Hd pid c' Hc'. rewrite Hs in Hd. specialize (Hc pid). rewrite Hc' in Hc.
  destruct (w_clients w !! pid) as [c|] eqn:Hw; [|done]. apply Hc. by eapply Hg.
Qed.

(** Steps of the whole session that happen in place. *)
Definition evolves (w w' : World) : Prop :=
  (world_good w → world_good w') ∧ (world_good w → carried w w')
  ∧ (f_closed (w_file (S_wal (w_session w))) = true → f_closed (w_file (S_wal (w_session w'))) = true).

Lemma evolves_client w k pid c w' :
  w_clients w !! pid = Some c → client_step (with_sink k w) pid c w' → evolves w w'.
Proof.
  intros Hc Hs. pose proof (client_step_kept _ _ _ _ Hs) as (_ & _ & _ & Hd & Hw).
  assert (∀ wd, srv_inv w → carried wd w → carried wd w') as Hcar.
  { intros wd Hi Hwd. etrans; [exact Hwd|]. by apply (client_step_carried (with_sink k w) pid c). }
  split_and!.
  - intros [Hi Hg]. split; [by apply (client_step_inv (with_sink k w) pid c)|].
    apply (governed_carried w); [done|by apply Hcar|done].
  - intros [Hi _]. by apply Hcar.
  - simpl in Hw. destruct Hw as [->|(e & _ & ->)]; [done|].
    pose proof (Append_life e (S_wal (w_session w))) as [= _ ->]. done.
Qed.

Lemma world_good_join w pid p1 p2 p3 p4 k picks :
  world_good w → world_good (join_register pid p1 p2 p3 p4 k picks w).
Proof.
  intros [Hi Hg]. split; [by apply srv_inv_join|].
  intros Hd q c Hq. simpl in Hq. apply lookup_insert_Some in Hq as [[<- <-]|[_ Hq]]; [exact Hd|by eapply Hg].
Qed.

Lemma evolves_cancel w : evolves w (session_cancel w).
Proof.
  split_and!; [|by intros _; apply carried_cancel|done]. intros [Hi _]. split; [by apply srv_inv_cancel|].
  intros _ pid c. simpl. rewrite lookup_fmap. destruct (w_clients w !! pid); [|done]. by intros [= <-].
Qed.

Lemma session_Close_eq w :
  ∃ f, fst (session_Close w) = set_session (set_S_wal (set_w_file f (S_wal (w_session (session_cancel w))))
    (w_session (session_cancel w))) (session_cancel w)
  ∧ f = fst (file_close (w_file (S_wal (w_session w)))).
Proof.
  eexists. split; [|done]. unfold session_Close, mbind, M_bind, modify, on_wal, zoom, Close, on_file, zoom, mbind, M_bind, modify.
  simpl. by destruct (file_close _) as [f [| | |]].
Qed.

Lemma evolves_close w : evolves w (fst (session_Close w)).
Proof.
  pose proof (evolves_cancel w) as (H1 & H2 & H3). destruct (session_Close_eq w) as (f & Heq & Hf).
  split_and!.
  - intros [Hi Hg]. split; [by apply srv_inv_close|]. rewrite Heq. by apply (H1 (conj Hi Hg)).
  - intros Hw. rewrite Heq. by apply (H2 Hw).
  - intros Hc. rewrite Heq. simpl. rewrite Hf.
    by destruct (file_close_cases (w_file (S_wal (w_session w)))) as (s & r & -> & _).
Qed.

(** ** What stays true of the server *)

Definition file_closed (w : World) : bool := f_closed (w_file (S_wal (w_session w))).

Record run_inv (a : App) : Prop := {
  ri_good ref w : a_heap a !! ref = Some w → world_good w;
  (** A session that is not registered any more is closed. *)
  ri_closed ref w : a_heap a !! ref = Some w →
    (∃ id s, a_sessions a !! id = Some s ∧ as_session s = ref) ∨ file_closed w = true;
  ri_joined cid id ref pid : a_conns a !! cid = Some (ClJoined id ref pid) →
    ∃ w, a_heap a !! ref = Some w ∧ is_Some (w_clients w !! pid);
}.

Lemma run_inv_sink a k : run_inv a → run_inv (set_sink k a).
Proof. intros [???]. by split. Qed.

Lemma run_inv_heap a ref w w' :
  run_inv a → a_heap a !! ref = Some w → evolves w w' → run_inv (set_heap (<[ref := w']> (a_heap a)) a).
Proof.
  intros [Hg Hc Hj] Hw (E1 & E2 & E3). pose proof (Hg ref w Hw) as Hgw. split; simpl.
  - intros r v [[<- <-]|[_ Hv]]%lookup_insert_Some; [by apply E1|by eapply Hg].
  - intros r v [[<- <-]|[_ Hv]]%lookup_insert_Some; [|by eapply Hc].
    destruct (Hc ref w Hw) as [?|?]; [by left|right; by apply E3].
  - intros cid id r pid Hcid. destruct (Hj cid id r pid Hcid) as (v & Hv & Hp).
    destruct (decide (ref = r)) as [<-|Hne].
    + rewrite lookup_insert_eq. exists w'. split; [done|]. simplify_eq. eapply carried_is_Some; eauto.
    + rewrite lookup_insert_ne by done. by exists v.
Qed.

Lemma run_inv_conn a cid pc :
  run_inv a →
  (∀ id ref pid, pc = ClJoined id ref pid → ∃ w, a_heap a !! ref = Some w ∧ is_Some (w_clients w !! pid)) →
  run_inv (set_conn cid pc a).
Proof.
  intros [Hg Hc Hj] Hp. split; [done..|]. intros x id ref pid. simpl.
  intros [[<- ->]|[_ Hx]]%lookup_insert_Some; [by eapply Hp|by eapply Hj].
Qed.

(** The registry points to the same sessions. *)
Lemma run_inv_count a id s s' :
  run_inv a → a_sessions a !! id = Some s → as_session s' = as_session s →
  run_inv (set_sessions (<[id := s']> (a_sessions a)) a).
Proof.
  intros [Hg Hc Hj] Hs He. split; [done| |done]. intros ref w Hw. simpl.
  destruct (Hc ref w Hw) as [(i & x & Hx & Hr)|?]; [left|by right].
  destruct (decide (id = i)) as [<-|Hne].
  - exists id, s'. rewrite lookup_insert_eq. split; [done|congruence].
  - exists i, x. by rewrite lookup_insert_ne.
Qed.

Lemma run_inv_acquire v a a' id secret ref :
  app_inv a → store_inv a → run_inv a → good_env v → a_heap a !! env_ref v = None →
  acquireSession v id secret a = (a', Ok ref) → run_inv a'.
Proof.
  intros Ha Hst Hi Hv Hf Hacq. destruct (store_acquire v a a' id secret ref Ha Hst Hv Hf Hacq) as [Hst' _].
  destruct (acquire_ok v id secret a a' ref Hacq)
    as [(s & w & Hs & Hw & -> & _ & ->)|(l & Hs & -> & Hl & ->)]; [by eapply run_inv_count|].
  destruct Hi as [Hg Hc Hj]. split; simpl.
  - intros r w [[<- <-]|[_ Hw]]%lookup_insert_Some; [|by eapply Hg]. split.
    + split; [|intros ? ?; simpl; by rewrite lookup_empty].
      destruct (si_open _ Hst' id (MkAppSession (env_ref v) 1) (MkWorld (MkSession id secret
        (session_dir (a_prefix a) id) (a_done a) ∅ (child_wal (a_done a) l) (a_sink a)) ∅))
        as [Hlog _]; [simpl; by rewrite lookup_insert_eq..|exact Hlog].
    + intros _ pid c. simpl. by rewrite lookup_empty.
  - intros r w [[<- <-]|[Hne Hw]]%lookup_insert_Some.
    + left. exists id, (MkAppSession (env_ref v) 1). by rewrite lookup_insert_eq.
    + destruct (Hc r w Hw) as [(i & x & Hx & Hr)|?]; [left|by right]. exists i, x.
      rewrite lookup_insert_ne; [done|congruence].
  - intros cid i r pid Hcid. destruct (Hj cid i r pid Hcid) as (w & Hw & Hp). exists w.
    rewrite lookup_insert_ne; [done|congruence].
Qed.

Lemma run_inv_release a id : app_inv a → store_inv a → run_inv a → run_inv (releaseSession id a).
Proof.
  intros Ha Hst Hi. unfold releaseSession. destruct (a_sessions a !! id) as [s|] eqn:Hs; [|done].
  case_decide; [|by eapply run_inv_count].
  destruct (ai_reg a Ha id s Hs) as ((w & Hw & _) & _). unfold close_session. simpl. rewrite Hw.
  pose proof (run_inv_heap a _ w _ Hi Hw (evolves_close w)) as [Hg Hc Hj]. split; [done| |done].
  intros ref v Hv. simpl in *. destruct (decide (as_session s = ref)) as [<-|Hne].
  - right. rewrite lookup_insert_eq in Hv. simplify_eq. unfold file_closed.
    destruct (session_Close_eq w) as (f & -> & ->). simpl.
    by destruct (file_close_cases (w_file (S_wal (w_session w)))) as (s' & r & -> & _).
  - destruct (Hc ref v Hv) as [(i & x & Hx & Hr)|?]; [left|by right]. exists i, x. split; [|done].
    rewrite lookup_delete_ne; [done|]. intros <-. congruence.
Qed.

Lemma run_inv_conn_step a a' :
  app_inv a → store_inv a → run_inv a → conn_step good_env a a' → run_inv a'.
Proof.
  intros Ha Hst Hi Hs. destruct Hs as [cid c c' e _ _|cid c c' hello v a' ref _ _ Hv Hf Hacq
    |cid c c' hello v a' e _ _ _ Hacq|cid c hello ref w pid picks _ Hw Hn|ref w pid c w' Hw Hc Hst'
    |cid id ref pid w c _ _ _ _].
  - by apply run_inv_conn.
  - apply run_inv_conn; [by eapply run_inv_acquire|done].
  - apply acquire_err in Hacq as ->. by apply run_inv_conn.
  - set (w' := join_register _ _ _ _ _ _ _ w). apply run_inv_conn.
    + destruct Hi as [Hg Hc Hj]. split; simpl.
      * intros r v [[<- <-]|[_ Hv]]%lookup_insert_Some; [|by eapply Hg]. by apply world_good_join, Hg with ref.
      * intros r v [[<- <-]|[_ Hv]]%lookup_insert_Some; [by apply (Hc ref w)|by eapply Hc].
      * intros x i r q Hx. destruct (Hj x i r q Hx) as (v & Hv & Hq).
        destruct (decide (ref = r)) as [<-|Hne]; [|rewrite lookup_insert_ne by done; by exists v].
        rewrite lookup_insert_eq. exists w'. split; [done|]. simplify_eq. simpl.
        destruct (decide (pid = q)) as [<-|]; [by rewrite lookup_insert_eq|by rewrite lookup_insert_ne].
    + intros i r q [= _ <- <-]. simpl. rewrite lookup_insert_eq. exists w'. split; [done|].
      simpl. by rewrite lookup_insert_eq.
  - apply run_inv_sink, (run_inv_heap a ref w); [done..|by eapply evolves_client].
  - apply run_inv_conn; [by apply run_inv_release|done].
Qed.

Lemma run_inv_stop a : run_inv a → run_inv (app_cancel a).
Proof.
  intros [Hg Hc Hj]. split; simpl.
  - intros ref w. rewrite lookup_fmap. destruct (a_heap a !! ref) as [v|] eqn:Hv; [|done].
    intros [= <-]. apply (proj1 (evolves_cancel v)). by eapply Hg.
  - intros ref w. rewrite lookup_fmap. destruct (a_heap a !! ref) as [v|] eqn:Hv; [|done].
    intros [= <-]. exact (Hc ref v Hv).
  - intros cid id ref pid Hcid. destruct (Hj cid id ref pid Hcid) as (w & Hw & Hp).
    exists (session_cancel w). rewrite lookup_fmap, Hw. split; [done|].
    by apply (carried_is_Some w); [apply carried_cancel|].
Qed.

(** Everything that is known of the connections and sessions. *)
Record all_inv (a : App) : Prop := {
  al_app : app_inv a;
  al_store : store_inv a;
  al_run : run_inv a;
}.

Lemma all_inv_conn_step a a' :
  all_inv a → conn_step good_env a a' → all_inv a' ∧ extends a a'.
Proof.
  intros [Ha Hst Hr] Hs. destruct (conn_step_store _ _ Ha Hst Hs) as [Hst' He]. split; [|done].
  split; [by eapply app_inv_conn_step|done|by eapply run_inv_conn_step].
Qed.

Lemma all_inv_app_step a a' : all_inv a → app_step good_env a a' → all_inv a' ∧ extends a a'.
Proof.
  intros [Ha Hst Hr] Hs. destruct (app_step_store _ _ Ha Hst Hs) as [Hst' He]. split; [|done].
  split; [by eapply app_inv_step|done|].
  destruct Hs as [cid c Hn _|a1 Hs|]; [by apply run_inv_conn|by eapply run_inv_conn_step|by apply run_inv_stop].
Qed.

Lemma all_inv_sink a k : all_inv a → all_inv (set_sink k a) ∧ extends a (set_sink k a).
Proof.
  intros [Ha Hst Hr]. split; [|by intros id]. split; [by apply app_inv_sink|by destruct Hst|by apply run_inv_sink].
Qed.

(** ** The way to the end *)

Lemma all_inv_conns a a' :
  rtc (conn_step good_env) a a' → all_inv a → all_inv a' ∧ extends a a' ∧ a_done a' = a_done a.
Proof.
  induction 1 as [a|a a1 a2 Hs _ IH]; intros Hi; [by split_and!; [|intros id|]|].
  destruct (all_inv_conn_step a a1 Hi Hs) as [Hi1 He1]. destruct (IH Hi1) as (Hi2 & He2 & Hd2).
  split_and!; [done|by eapply extends_trans|]. by rewrite Hd2, (proj2 (conn_step_fixed _ _ _ Hs)).
Qed.

(** [Join] returns. *)
Lemma player_ends a ref w pid c :
  a_heap a !! ref = Some w → world_good w → w_clients w !! pid = Some c → out_done c = true →
  ∃ a' w' c', rtc (conn_step good_env) a a' ∧ a_heap a' !! ref = Some w'
    ∧ w_clients w' !! pid = Some c' ∧ c_join c' = JLeft ∧ a_conns a' = a_conns a.
Proof.
  remember (work c) as n eqn:Hn. revert a w c Hn.
  induction (lt_wf n) as [n _ IH]. intros a w c -> Hw Hg Hc Hd.
  assert (c_join c = JLeft ∨ c_join c ≠ JLeft) as [Hj|Hj] by (destruct (c_join c); auto).
  { exists a, w, c. split_and!; [apply rtc_refl|done..]. }
  destruct (player_closer (with_sink (a_sink a) w) pid c (proj1 Hg) Hc Hd Hj)
    as (w' & c' & Hs & Hc' & Hlt & Hd').
  set (a1 := set_sink (S_sink (w_session w')) (set_heap (<[ref := w']> (a_heap a)) a)).
  destruct (IH (work c') Hlt a1 w' c') as (a2 & w2 & c2 & Hr & H2); [done| | |done|done|].
  - simpl. by rewrite lookup_insert_eq.
  - by apply (evolves_client w (a_sink a) pid c w').
  - exists a2, w2, c2. split; [|exact H2]. apply (rtc_l _ _ a1); [by eapply app_session|done].
Qed.

Lemma client_hello_returns c : returns (snd (client_hello c)).
Proof.
  revert c. fold (total client_hello). unfold client_hello, RecvRawTimeoutDefault, RecvRawTimeout, SetReadDeadline.
  apply total_bind; [|intros pkt; apply total_if; [apply total_fail|apply total_lift, ParseClientHello_returns]].
  apply total_bind; [apply total_modify|]. intros _ c. apply deferred_returns, RecvRaw_returns.
Qed.

Lemma acquire_returns v id secret a : app_inv a → returns (snd (acquireSession v id secret a)).
Proof.
  intros Hi. unfold acquireSession. destruct (a_sessions a !! id) as [s|] eqn:Hs.
  - destruct (ai_reg a Hi id s Hs) as ((w & -> & _) & _). by case_decide.
  - pose proof (proj2 (wrap_err_returns "failed to open session" _) (OpenSession_returns a v id secret))
      as [Hp Hf]. by destruct (wrap_err _ _).
Qed.

Definition ends (cid : nat) (a : App) : Prop :=
  ∃ a', rtc (conn_step good_env) a a' ∧ a_conns a' = <[cid := ClReturned]> (a_conns a).

Lemma ends_after cid a a1 pc :
  rtc (conn_step good_env) a a1 → a_conns a1 = <[cid := pc]> (a_conns a) → ends cid a1 → ends cid a.
Proof.
  intros Hr Hc (a' & Hr' & Hc'). exists a'. split; [by etrans|]. by rewrite Hc', Hc, insert_insert_eq.
Qed.

Lemma joined_ends cid id ref pid a :
  all_inv a → a_done a = true → a_conns a !! cid = Some (ClJoined id ref pid) → ends cid a.
Proof.
  intros [Ha _ Hr] Hd Hcid. destruct (ri_joined a Hr cid id ref pid Hcid) as (w & Hw & c & Hc).
  destruct (ai_held a Ha cid _ id ref Hcid eq_refl) as (s & Hs & Href).
  destruct (ai_reg a Ha id s Hs) as ((w0 & Hw0 & _ & _ & Hdone & _) & _).
  rewrite Href, Hw in Hw0. simplify_eq. pose proof (ri_good a Hr _ w0 Hw) as Hg.
  assert (out_done c = true) as Hcd by (eapply (proj2 Hg); [congruence|done]).
  destruct (player_ends a _ w0 pid c Hw Hg Hc Hcd) as (a1 & w1 & c1 & Hr1 & Hw1 & Hc1 & Hl & Hconns).
  exists (set_conn cid ClReturned (releaseSession id a1)). split.
  - eapply rtc_r; [exact Hr1|]. eapply app_release; [by rewrite Hconns|done..].
  - simpl. rewrite <- Hconns. f_equal. unfold releaseSession, close_session.
    by repeat (case_match || case_decide).
Qed.

Lemma acquired_ends cid c hello ref a :
  all_inv a → a_done a = true → a_conns a !! cid = Some (ClAcquired c hello ref) → ends cid a.
Proof.
  intros Hi Hd Hcid.
  destruct (ai_held a (al_app a Hi) cid _ _ ref Hcid eq_refl) as (s & Hs & Href).
  destruct (ai_reg a (al_app a Hi) _ s Hs) as ((w & Hw & _) & _). rewrite Href in Hw.
  set (pid := fresh (dom (w_clients w))).
  assert (w_clients w !! pid = None) as Hn by (apply not_elem_of_dom, is_fresh).
  pose proof (app_join good_env a cid c hello ref w pid [] Hcid Hw Hn) as Hst.
  eapply (ends_after cid a _ (ClJoined (ch_SessionID hello) ref pid)); [by apply rtc_once|done|].
  eapply joined_ends; [by apply (all_inv_conn_step a)|exact Hd|].
  simpl. by rewrite lookup_insert_eq.
Qed.

Lemma conn_ends cid pc a :
  all_inv a → a_done a = true → a_conns a !! cid = Some pc → ends cid a.
Proof.
  intros Hi Hd Hcid. destruct pc as [c|c hello ref|id ref pid|].
  - pose proof (client_hello_returns c) as [Hp Hf].
    destruct (client_hello c) as [c' [hello|e| |]] eqn:Hh; [| |done..].
    + set (v := MkEnv (fresh (dom (a_heap a))) None None []).
      assert (a_heap a !! env_ref v = None) as Hv by (apply not_elem_of_dom, is_fresh).
      pose proof (acquire_returns v (ch_SessionID hello) (ch_SessionSecret hello) a (al_app a Hi)) as [Hp' Hf'].
      destruct (acquireSession v (ch_SessionID hello) (ch_SessionSecret hello) a)
        as [a1 [ref|e| |]] eqn:Hacq; [| |done..].
      * pose proof (app_acquire good_env a cid c c' hello v a1 ref Hcid Hh eq_refl Hv Hacq) as Hst.
        eapply (ends_after cid a _ (ClAcquired c' hello ref)); [by apply rtc_once| |].
        { simpl. f_equal.
          by destruct (acquire_ok _ _ _ _ _ _ Hacq) as [(?&?&_&_&_&_&->)|(?&_&_&_&->)]. }
        eapply acquired_ends; [by apply (all_inv_conn_step a)| |simpl; by rewrite lookup_insert_eq].
        by rewrite (proj2 (conn_step_fixed _ _ _ Hst)).
      * exists (set_conn cid ClReturned a1). split; [by apply rtc_once; eapply (app_refused _ _ _ _ _ _ v)|].
        by apply acquire_err in Hacq as ->.
    + exists (set_conn cid ClReturned a). split; [by apply rtc_once; eapply app_bad_hello|done].
  - by eapply acquired_ends.
  - by eapply joined_ends.
  - exists a. split; [apply rtc_refl|]. by rewrite insert_id.
Qed.

Lemma conns_end (l : list nat) a :
  all_inv a → a_done a = true →
  ∃ a', rtc (conn_step good_env) a a'
    ∧ ∀ cid pc, a_conns a' !! cid = Some pc → (cid ∉ l ∧ a_conns a !! cid = Some pc) ∨ returned pc.
Proof.
  revert a. induction l as [|cid l IH]; intros a Hi Hd.
  { exists a. split; [apply rtc_refl|]. left. split; [apply not_elem_of_nil|done]. }
  destruct (a_conns a !! cid) as [pc|] eqn:Hcid.
  - destruct (conn_ends cid pc a Hi Hd Hcid) as (a1 & Hr1 & Hc1).
    destruct (all_inv_conns _ _ Hr1 Hi) as (Hi1 & _ & Hd1).
    destruct (IH a1 Hi1) as (a2 & Hr2 & Hc2); [congruence|]. exists a2. split; [by etrans|].
    intros x q Hx. destruct (Hc2 x q Hx) as [[Hnl Hq]|]; [|by right]. rewrite Hc1 in Hq.
    apply lookup_insert_Some in Hq as [[<- <-]|[Hne Hq]]; [by right|].
    left. split; [|done]. apply not_elem_of_cons. split; [congruence|done].
  - destruct (IH a Hi Hd) as (a2 & Hr2 & Hc2). exists a2. split; [done|].
    intros x q Hx. destruct (Hc2 x q Hx) as [[Hnl Hq]|]; [|by right]. left. split; [|done].
    apply not_elem_of_cons. split; [congruence|done].
Qed.

Lemma all_conns_end a :
  all_inv a → a_done a = true →
  ∃ a', rtc (conn_step good_env) a a' ∧ map_Forall (λ _, returned) (a_conns a').
Proof.
  intros Hi Hd. destruct (conns_end (elements (dom (a_conns a))) a Hi Hd) as (a' & Hr & Hc).
  exists a'. split; [done|]. intros cid pc Hcid. destruct (Hc cid pc Hcid) as [[Hn Ha]|]; [|done].
  destruct Hn. apply elem_of_elements, elem_of_dom. by eexists.
Qed.

(** ** The sink *)

Definition sink_done (k : Sink PositionEvent) : Prop :=
  match k with SinkNull => True | SinkNats s => o_done (sk_ch s) = true end.

Lemma sink_done_Send subject ev k : sink_done k → sink_done (fst (sink_Send subject ev k)).
Proof.
  destruct k as [|s]; [done|]. simpl. by rewrite (proj1 (o_send_cases (MkEventNATS subject ev) (sk_ch s))).
Qed.

Lemma handlePacket_sink since now pid pkt w c w1 r :
  w_clients w !! pid = Some c → handlePacket since now pid pkt w = (w1, r) →
  S_sink (w_session w1) = S_sink (w_session w)
  ∨ ∃ subject ev, S_sink (w_session w1) = fst (sink_Send subject ev (S_sink (w_session w))).
Proof.
  intros Hc Hh. unfold handlePacket in Hh.
  destruct (decide (p_Op pkt = OpNOP)); [unfold mret, M_ret in Hh; simplify_eq; by left|].
  destruct (decide (p_Op pkt = OpWal)).
  - left. revert Hh. unfold lift, wrapM, on_err, on_wal, zoom, mbind, M_bind.
    destruct (wrap_err _ (Parse _)) as [en|e1| |]; [|by intros [= <- _]..].
    destruct (Append en _) as [l [[]|e1| |]]; [|by intros [= <- _]..].
    destruct (wrap_err _ (DedupKey en)) as [k|e1| |]; by intros [= <- _].
  - destruct (decide (p_Op pkt = OpPosition)); [|unfold mret, M_ret in Hh; simplify_eq; by left].
    unfold mbind at 1, M_bind at 1, lift in Hh.
    destruct (wrap_err _ (ParseClientPosition (p_Data pkt))) as [pos|e1| |];
      [|simplify_eq; by left..].
    destruct (handlePositionUpdate_eq since now pid pos w c Hc) as (data & _ & Heq).
    cbv zeta in Heq. unfold mbind, M_bind in Hh. rewrite Heq in Hh. unfold mret, M_ret in Hh. simplify_eq.
    destruct (pos_due (c_player c) since); [right; by eexists _, _|by left].
Qed.

Lemma client_step_sink w pid c w' :
  srv_inv w → w_clients w !! pid = Some c → client_step w pid c w' →
  sink_done (S_sink (w_session w)) → sink_done (S_sink (w_session w')).
Proof.
  intros Hi Hc Hs Hd.
  destruct Hs as [| | | | | | |pkt rest since now w1 o _ _ _ _ Hh|pkt rest since now w1 e _ _ _ _ Hh
    | | | | | | | | |e n i w1 o Hws Hh|e n i w1 err Hws Hh| |]; try exact Hd.
  1-2: assert (w_clients (upd_client pid (on_player (λ p, set_P_in (Chan (ch_cap (P_in p)) rest) p)) w) !! pid
         = Some (on_player (λ p, set_P_in (Chan (ch_cap (P_in p)) rest) p) c)) as Hc'
         by (simpl; by rewrite lookup_alter_eq, Hc);
       destruct (handlePacket_sink _ _ _ _ _ _ _ _ Hc' Hh) as [Hk|(subject & ev & Hk)];
       cbn [w_session upd_client]; rewrite Hk; [exact Hd|by apply sink_done_Send].
  all: destruct (handleWalEntry_spec pid e n i w c Hc (proj2 Hi pid c Hc) Hws) as [Heq _];
    rewrite Heq in Hh; simplify_eq; exact Hd.
Qed.

Lemma conn_step_sink a a' :
  all_inv a → conn_step good_env a a' → sink_done (a_sink a) → sink_done (a_sink a').
Proof.
  intros Hi Hs Hd. destruct Hs as [|cid c c' hello v a1 ref _ _ _ _ Ha|cid c c' hello v a1 e _ _ _ Ha| |
    ref w pid c w' Hw Hc Hst|]; simpl; try done.
  - by destruct (acquire_ok _ _ _ _ _ _ Ha) as [(?&?&_&_&_&_&->)|(?&_&_&_&->)].
  - by apply acquire_err in Ha as ->.
  - apply (client_step_sink (with_sink (a_sink a) w) pid c); [|done..].
    exact (proj1 (ri_good a (al_run a Hi) ref w Hw)).
  - unfold releaseSession, close_session. by repeat (case_match || case_decide).
Qed.

Lemma sink_run_done (k k' : SinkNATS PositionEvent) : Events.run_step k k' → o_done (sk_ch k) = true → o_done (sk_ch k') = true.
Proof. by intros []. Qed.

(** The goroutine of a closed sink ends. *)
Lemma sink_ends k : sink_done k →
  sink_ended k ∨ ∃ s k', k = SinkNats s ∧ Events.run_step s k' ∧ sink_ended (SinkNats k').
Proof.
  destruct k as [|s]; [by left|]. intros Hd. simpl in *. destruct (sk_pc s) eqn:Hp; [right|right|by left];
    exists s, (set_sk_pc RunDone s); (split; [done|]; split; [|done]); [by apply run_gave_up|by apply run_stop].
Qed.

(** Connections that returned are over. *)
Lemma conn_step_over ok a a' :
  map_Forall (λ _, returned) (a_conns a) → conn_step ok a a' → a_conns a' = a_conns a.
Proof.
  intros Hr Hs. destruct Hs as [cid c c' e H|cid c c' hello v a1 ref H|cid c c' hello v a1 e H
    |cid c hello ref w pid picks H| |cid id ref pid w c H];
    solve [by specialize (Hr cid _ H)|done].
Qed.

(** ** The invariant of the server *)

Definition leaving (p : run_pc) : Prop := match p with RWait | RSink | REnded => True | _ => False end.
Definition left_run (p : run_pc) : Prop := match p with RSink | REnded => True | _ => False end.

Record server_inv (s : Server) : Prop := {
  sv_all : all_inv (sv_app s);
  sv_leaving : leaving (sv_pc s) → a_done (sv_app s) = true;
  sv_left : left_run (sv_pc s) → sv_listening s = false
    ∧ map_Forall (λ _, returned) (a_conns (sv_app s)) ∧ sink_done (a_sink (sv_app s));
}.

Lemma server_own_inv s s' :
  server_inv s → own_step good_env s s' →
  server_inv s' ∧ extends (sv_app s) (sv_app s') ∧ a_done (sv_app s') = a_done (sv_app s).
Proof.
  intros [Ha Hl Hf] Hs. assert (extends (sv_app s) (sv_app s)) as Hex by (by intros id).
  destruct Hs as [Hp Hd|Hp Hd|Hp|Hd|Hp Hli Hr|Hp He|a Hs|k k' Hk Hs]; rewrite ?Hp in *.
  - by split; [split|].
  - by split; [split|].
  - by split; [split|].
  - split; [split; [done|done|]|done]. intros H. by destruct (Hf H).
  - destruct (all_inv_sink _ (sink_cancel (a_sink (sv_app s))) Ha) as [Ha' He].
    split; [split; [done|intros _; by apply Hl|]|done]. intros _. split; [done|]. split; [done|].
    simpl. by destruct (a_sink (sv_app s)).
  - split; [split; [done|intros _; by apply Hl|]|done]. intros _. by apply Hf.
  - destruct (all_inv_conn_step _ _ Ha Hs) as [Ha' He]. pose proof (proj2 (conn_step_fixed _ _ _ Hs)) as Hd.
    split; [split; simpl; [done|by rewrite Hd|]|by split].
    intros H. destruct (Hf H) as (H1 & H2 & H3). split; [done|].
    split; [by rewrite (conn_step_over _ _ _ H2 Hs)|by apply (conn_step_sink _ _ Ha Hs)].
  - destruct (all_inv_sink _ (SinkNats k') Ha) as [Ha' He]. split; [split; [done|done|]|done].
    intros H. destruct (Hf H) as (H1 & H2 & H3). rewrite Hk in H3. split; [done|]. split; [done|].
    exact (sink_run_done _ _ Hs H3).
Qed.

Lemma server_run_inv s s' :
  server_inv s → server_step good_env s s' → server_inv s' ∧ extends (sv_app s) (sv_app s').
Proof.
  intros Hi Hs. destruct Hs as [s' Hs|cid c Hp _ Hn Hc|].
  - by destruct (server_own_inv s s' Hi Hs) as (? & ? & _).
  - destruct Hi as [Ha Hl Hf]. destruct (all_inv_app_step _ _ Ha (app_accept _ _ cid c Hn Hc)) as [Ha' He].
    by split; [split|].
  - destruct Hi as [Ha Hl Hf]. destruct (all_inv_app_step _ _ Ha (app_stop _ _)) as [Ha' He].
    by split; [split|].
Qed.

Lemma server_reach_inv s s' :
  server_reach good_env s s' → server_inv s → server_inv s' ∧ extends (sv_app s) (sv_app s').
Proof.
  induction 1 as [s|s s1 s2 Hs _ IH]; intros Hi; [by split; [|intros id]|].
  destruct (server_run_inv s s1 Hi Hs) as [Hi1 He1]. destruct (IH Hi1) as [Hi2 He2].
  split; [done|by eapply extends_trans].
Qed.

Lemma server_inv_run listen getenv flag_data args picks disk s0 :
  Run listen getenv flag_data args picks disk = Some (Ok s0) → store_inv (sv_app s0) → server_inv s0.
Proof.
  intros Hr Hst. unfold Run in Hr. destruct listen; [done|].
  destruct (ParseConfig getenv flag_data args) as [conf|]; simpl in Hr; [|done]. simplify_eq.
  split; simpl; [|done|done]. split; [by eapply (app_inv_reach good_env), rtc_refl|done|].
  split; intros *; simpl; by rewrite lookup_empty.
Qed.

(** *** Sequences of steps of the server *)

Lemma own_conns s a' :
  rtc (conn_step good_env) (sv_app s) a' → rtc (own_step good_env) s (set_app a' s).
Proof.
  destruct s as [a p b]. simpl. induction 1 as [a|a a1 a2 Hs _ IH]; [apply rtc_refl|].
  eapply rtc_l; [by apply (sv_conn _ (MkServer a p b))|exact IH].
Qed.

Lemma own_reach_inv s s' :
  rtc (own_step good_env) s s' → server_inv s →
  server_inv s' ∧ extends (sv_app s) (sv_app s') ∧ a_done (sv_app s') = a_done (sv_app s).
Proof.
  induction 1 as [s|s s1 s2 Hs _ IH]; intros Hi; [by split; [|split; [intros id|]]|].
  destruct (server_own_inv s s1 Hi Hs) as (Hi1 & He1 & Hd1). destruct (IH Hi1) as (Hi2 & He2 & Hd2).
  split; [done|]. split; [by eapply extends_trans|congruence].
Qed.

(** The loop is left and the listener closed. *)
Lemma loop_ends s :
  a_done (sv_app s) = true → ¬ left_run (sv_pc s) →
  rtc (own_step good_env) s (MkServer (sv_app s) RWait false).
Proof.
  intros Hd Hp. destruct s as [a p b]. simpl in *.
  assert (own_step good_env (MkServer a p b) (MkServer a p false)) as H1
    by exact (sv_unlisten good_env (MkServer a p b) Hd).
  eapply rtc_l; [exact H1|]. clear H1.
  assert (own_step good_env (MkServer a RLoop false) (MkServer a RWait false)) as H2
    by exact (sv_break good_env (MkServer a RLoop false) eq_refl Hd).
  destruct p; try done; [by apply rtc_once|].
  eapply rtc_l; [exact (sv_accept_err good_env (MkServer a RAccept false) eq_refl)|by apply rtc_once].
Qed.

Lemma sink_closes s :
  server_inv s → sv_pc s = RSink → ∃ s', rtc (own_step good_env) s s' ∧ sv_pc s' = REnded.
Proof.
  intros Hi Hp. assert (sink_done (a_sink (sv_app s))) as Hd
    by (apply (sv_left s Hi); by rewrite Hp).
  destruct (sink_ends _ Hd) as [He|(k & k' & Hk & Hs & He)].
  - exists (set_pc REnded s). split; [|done]. by apply rtc_once, sv_end.
  - exists (set_pc REnded (set_app (set_sink (SinkNats k') (sv_app s)) s)). split; [|done].
    eapply rtc_l; [by eapply sv_sink|]. apply rtc_once. by apply sv_end.
Qed.

Lemma server_ends s :
  server_inv s → a_done (sv_app s) = true → ∃ s', rtc (own_step good_env) s s' ∧ sv_pc s' = REnded.
Proof.
  intros Hi Hd. destruct (sv_pc s) eqn:Hp.
  4: { by apply sink_closes. }
  4: { exists s. split; [apply rtc_refl|done]. }
  all: pose proof (loop_ends s Hd) as H1; rewrite Hp in H1; specialize (H1 (λ f, f));
    set (s1 := MkServer (sv_app s) RWait false) in *;
    destruct (all_conns_end (sv_app s) (sv_all s Hi) Hd) as (a' & Hr & Hret);
    pose proof (own_conns s1 a' Hr) as H2;
    assert (own_step good_env (set_app a' s1)
      (set_pc RSink (set_app (set_sink (sink_cancel (a_sink a')) a') s1))) as H3
      by exact (sv_wait good_env (set_app a' s1) eq_refl eq_refl Hret);
    assert (rtc (own_step good_env) s (set_pc RSink (set_app (set_sink (sink_cancel (a_sink a')) a') s1)))
      as H4 by (etrans; [exact H1|]; eapply rtc_r; [exact H2|exact H3]);
    destruct (own_reach_inv _ _ H4 Hi) as (Hi' & _);
    destruct (sink_closes _ Hi' eq_refl) as (s' & H5 & H6);
    exists s'; (split; [by etrans|done]).
Qed.

(** A server that has left [run]: nothing is open. *)
Lemma left_closed s :
  server_inv s → left_run (sv_pc s) →
  a_sessions (sv_app s) = ∅ ∧ ∀ ref w, a_heap (sv_app s) !! ref = Some w → file_closed w = true.
Proof.
  intros Hi Hp. destruct (sv_left s Hi Hp) as (_ & Hret & _). pose proof (sv_all s Hi) as [Ha _ Hr].
  assert (a_sessions (sv_app s) = ∅) as He.
  { apply map_empty. intros id. destruct (a_sessions (sv_app s) !! id) as [x|] eqn:Hx; [|done].
    destruct (ai_reg _ Ha id x Hx) as (_ & Hn & Hpos). rewrite (holders_zero id) in Hn; [lia|].
    intros cid pc Hc Hh. by rewrite (Hret cid pc Hc) in Hh. }
  split; [done|]. intros ref w Hw. destruct (ri_closed _ Hr ref w Hw) as [(id & x & Hx & _)|?]; [|done].
  by rewrite He, lookup_empty in Hx.
Qed.

(** The file of a session that is not open holds its log. *)
Lemma stored_log a id :
  store_inv a → a_sessions a !! id = None →
  default [] (a_disk a !! wal_path (session_dir (a_prefix a) id)) = wal_bytes (log_of a id).
Proof.
  intros Hi Hn. destruct (disk_entry a (wal_path (session_dir (a_prefix a) id)) Hi) as (es & Hes & Hnorm & Hk).
  destruct (open_stored _ es Hes Hnorm Hk) as (w & Ho & Hwe & _). unfold log_of. rewrite Hn, Ho. simpl.
  by rewrite Hwe.
Qed.

(** ** Properties *)

(** C20: how the server ends.  [run] leaves its loop only when its context is
    cancelled, and once it is cancelled the server can always get to the end of [Run]
    by itself, whatever the connections were doing, with full queues, broken
    connections and clients that say nothing: no goroutine waits for another for
    ever.  At the end no connection is served and no session is registered, every
    file is closed, and the file of each session holds exactly its log, which extends
    the log it had when the context was cancelled. *)
Theorem server_shutdown listen getenv flag_data args picks disk s0 s :
  Run listen getenv flag_data args picks disk = Some (Ok s0) → store_inv (sv_app s0) →
  server_reach good_env s0 s →
  (leaving (sv_pc s) → a_done (sv_app s) = true)
  ∧ (a_done (sv_app s) = true →
     ∃ s', rtc (own_step good_env) s s' ∧ sv_pc s' = REnded
     ∧ ∀ id, log_of (sv_app s) id `prefix_of` log_of (sv_app s') id)
  ∧ (sv_pc s = REnded →
     sv_listening s = false ∧ map_Forall (λ _, returned) (a_conns (sv_app s))
     ∧ a_sessions (sv_app s) = ∅
     ∧ (∀ ref w, a_heap (sv_app s) !! ref = Some w → file_closed w = true)
     ∧ ∀ id, default [] (a_disk (sv_app s) !! wal_path (session_dir (a_prefix (sv_app s)) id))
             = wal_bytes (log_of (sv_app s) id)).
Proof.
  intros Hrun Hst Hr. destruct (server_reach_inv s0 s Hr) as [Hi _]; [by eapply server_inv_run|]. split_and!.
  - apply Hi.
  - intros Hd. destruct (server_ends s Hi Hd) as (s' & Hs & Hp). exists s'.
    destruct (own_reach_inv _ _ Hs Hi) as (_ & He & _). by split_and!.
  - intros Hp. destruct (left_closed s Hi) as [Hn Hc]; [by rewrite Hp|].
    destruct (sv_left s Hi) as (H1 & H2 & _); [by rewrite Hp|]. split_and!; [done..|].
    intros id. apply stored_log; [apply Hi|by rewrite Hn].
Qed.

(** The server of [ex_app7], which holds a session with a player that is about to
    join, is interrupted. *)
Definition ex_getenv (_ : bytes) : bytes := [].
Definition ex_flags (d : bytes) (_ : list bytes) : option bytes := Some d.
Definition ex_server (a : App) (p : run_pc) : Server := MkServer a p true.
Definition ex_dir : bytes := str "./data/server".
Definition ex_sdisk : gmap bytes bytes :=
  {[ wal_path (session_dir ex_dir (ch_SessionID ex_hello)) := wal_bytes [ex_item] ]}.
Definition ex_sapp0 : App := new_app ex_dir SinkNull ex_sdisk.
Definition ex_sapp1 : App := set_conn 0 (ClRecv ex_client) ex_sapp0.
Definition ex_sapp2 : App :=
  set_conn 0 (ClAcquired ex_client' ex_hello 7)
    (fst (acquireSession (ex_env 7) (ch_SessionID ex_hello) (ch_SessionSecret ex_hello) ex_sapp1)).

Lemma ex_server_reach :
  server_reach good_env (ex_server ex_sapp0 RLoop) (ex_server (app_cancel ex_sapp2) RLoop).
Proof.
  apply (rtc_l _ _ (ex_server ex_sapp0 RAccept)); [apply sv_own, sv_again; reflexivity|].
  apply (rtc_l _ _ (ex_server ex_sapp1 RLoop)).
  { apply (sv_accept _ (ex_server ex_sapp0 RAccept)); reflexivity. }
  apply (rtc_l _ _ (ex_server ex_sapp2 RLoop)).
  { apply sv_own, (sv_conn _ (ex_server ex_sapp1 RLoop)).
    apply (app_acquire _ _ 0 ex_client ex_client' ex_hello (ex_env 7)); vm_compute; reflexivity. }
  apply rtc_once, (sv_interrupt _ (ex_server ex_sapp2 RLoop)).
Qed.

Lemma ex_sdisk_inv : store_inv ex_sapp0.
Proof.
  split.
  - intros path data H. change (ex_sdisk !! path = Some data) in H. unfold ex_sdisk in H.
    apply lookup_singleton_Some in H as [_ <-]. exists [ex_item].
    split; [reflexivity|]. split; [apply Forall_singleton, ex_item_normal|]. apply NoDup_singleton.
  - intros i s w H. cbn in H. rewrite lookup_empty in H. discriminate H.
Qed.

Lemma server_shutdown_witness :
  Run None ex_getenv ex_flags [] [] ex_sdisk = Some (Ok (ex_server ex_sapp0 RLoop))
  ∧ store_inv ex_sapp0
  ∧ ∃ s', rtc (own_step good_env) (ex_server (app_cancel ex_sapp2) RLoop) s' ∧ sv_pc s' = REnded
    ∧ ∀ id, log_of (app_cancel ex_sapp2) id `prefix_of` log_of (sv_app s') id.
Proof.
  assert (Run None ex_getenv ex_flags [] [] ex_sdisk = Some (Ok (ex_server ex_sapp0 RLoop))) as Hrun
    by reflexivity.
  split; [exact Hrun|]. split; [exact ex_sdisk_inv|].
  destruct (server_shutdown None ex_getenv ex_flags [] [] ex_sdisk _ _ Hrun ex_sdisk_inv ex_server_reach)
    as (_ & H & _).
  exact (H eq_refl).
Defined.
