(* ===== verification/IpcMsg.v ===== *)
(** * Messages between the game and the client (client/internal/ipc)

    The big-endian messages of [msg.go] and the length-prefixed framing of
    [unixsock.go]. *)

From stdpp Require Import base list strings vector numbers tactics.
From Stdlib Require Import ZArith Lia.
From S2P Require Import Prelude Words GoIO.

Module ipc.

(** ** Opcodes and message types *)

Definition OpHello : u8 := U8 1.
Definition OpWal : u8 := U8 2.
Definition OpWalQuery : u8 := U8 3.
Definition OpWalAck : u8 := U8 4.
Definition OpPosition : u8 := U8 5.
Definition OpInfoItem : u8 := U8 6.
Definition OpInfoEntrance : u8 := U8 7.

Record Message : Type := MkMessage { m_Seq : u32; m_Op : u8; m_Payload : bytes }.

Record MessageBodyPositionIn : Type := MkPositionIn {
  pi_Key : u16; pi_X : i16; pi_Y : i16; pi_Z : i16;
}.

Record MessageBodyPositionOut : Type := MkPositionOut {
  po_ID : u16;
  po_Color : u16;
  po_Name : vec u8 8;
  po_Key : u16; po_X : i16; po_Y : i16; po_Z : i16;
}.

Record MessageBodyHelloIn : Type := MkHelloIn {
  hi_Magic : vec u8 8;
  hi_SessionID : vec u8 16;
  hi_SessionSecret : vec u8 8;
  hi_PlayerID : vec u8 16;
  hi_PlayerName : vec u8 8;
  hi_WorldID : u8;
}.

Record MessageBodyHelloOut : Type := MkHelloOut {
  ho_Magic : vec u8 8; ho_SeqGame : u32; ho_SeqNet : u32;
}.

Record MessageBodyWalIn : Type := MkWalIn { wi_Token : u32; wi_Type : u8; wi_Data : bytes }.

Record MessageBodyWalOut : Type := MkWalOut {
  wo_Index : u32;
  wo_Type : u8;
  wo_From : u8;
  wo_PlayerName : vec u8 8;
  wo_Data : bytes;
}.

Record WalItem : Type := MkWalItem {
  it_To : u8; it_Game : u8; it_GI : u16; it_Flags : u16; it_Key : u32;
}.

Record WalEvent : Type := MkWalEvent { ev_EventID : u32 }.

Record MessageBodyInfoItem : Type := MkInfoItem { ii_Key : u32; ii_GI : u16; ii_Flags : u8 }.

Record MessageBodyInfoEntrance : Type := MkInfoEntrance {
  ie_Original : u32; ie_Entrance : u32; ie_Age : u8;
}.

#[export] Instance Message_eq_dec : EqDecision Message.
Proof. solve_decision. Defined.
#[export] Instance WalItem_eq_dec : EqDecision WalItem.
Proof. solve_decision. Defined.
#[export] Instance WalIn_eq_dec : EqDecision MessageBodyWalIn.
Proof. solve_decision. Defined.
#[export] Instance HelloIn_eq_dec : EqDecision MessageBodyHelloIn.
Proof. solve_decision. Defined.
#[export] Instance PositionOut_eq_dec : EqDecision MessageBodyPositionOut.
Proof. solve_decision. Defined.
#[export] Instance WalOut_eq_dec : EqDecision MessageBodyWalOut.
Proof. solve_decision. Defined.
#[export] Instance InfoItem_eq_dec : EqDecision MessageBodyInfoItem.
Proof. solve_decision. Defined.

(** ** Parsers *)

Definition ParseMessage (data : bytes) : res Message :=
  if decide (length data < 5) then Err (Errorf "message too short") else
  seq ← be_get32 data 0 4;
  op ← index data 4;
  payload ← slice_from data 5;
  Ok (MkMessage seq op payload).

Definition ParseMessageBodyPositionIn (data : bytes) : res MessageBodyPositionIn :=
  if decide (length data < 8) then Err (Errorf "message body too short for POSITION_IN") else
  key ← be_get16 data 0 2;
  x ← be_get16 data 2 4;
  y ← be_get16 data 4 6;
  z ← be_get16 data 6 8;
  Ok (MkPositionIn key (int16 x) (int16 y) (int16 z)).

Definition ParseMessageBodyHelloIn (data : bytes) : res MessageBodyHelloIn :=
  if decide (length data < 57) then Err (Errorf "message body too short for HELLO_IN") else
  magic ← slice data 0 8;
  sid ← slice data 8 24;
  secret ← slice data 24 32;
  pid ← slice data 32 48;
  name ← slice data 48 56;
  world ← index data 56;
  Ok (MkHelloIn (arr_of 8 magic) (arr_of 16 sid) (arr_of 8 secret) (arr_of 16 pid)
        (arr_of 8 name) world).

Definition ParseMessageBodyWalIn (data : bytes) : res MessageBodyWalIn :=
  if decide (length data < 5) then Err (Errorf "message body too short for WAL_IN") else
  token ← be_get32 data 0 4;
  typ ← index data 4;
  rest ← slice_from data 5;
  Ok (MkWalIn token typ rest).

Definition ParseWalItem (data : bytes) : res WalItem :=
  if decide (length data < 10) then Err (Errorf "WAL item too short") else
  to ← index data 0;
  game ← index data 1;
  gi ← be_get16 data 2 4;
  flags ← be_get16 data 4 6;
  key ← be_get32 data 6 10;
  Ok (MkWalItem to game gi flags key).

Definition ParseWalEvent (data : bytes) : res WalEvent :=
  if decide (length data < 4) then Err (Errorf "WAL event too short") else
  id ← be_get32 data 0 4;
  Ok (MkWalEvent id).

(** The test on the length is the code's: it reads [data[6]] when the length is
    at least six. *)
Definition ParseMessageBodyInfoItem (data : bytes) : res MessageBodyInfoItem :=
  if decide (length data < 6) then Err (Errorf "message body too short for INFO_ITEM") else
  key ← be_get32 data 0 4;
  gi ← be_get16 data 4 6;
  flags ← if decide (6 ≤ length data) then index data 6 else Ok (U8 1);
  Ok (MkInfoItem key gi flags).

Definition ParseMessageBodyInfoEntrance (data : bytes) : res MessageBodyInfoEntrance :=
  if decide (length data < 9) then Err (Errorf "message body too short for INFO_ENTRANCE") else
  original ← be_get32 data 0 4;
  entrance ← be_get32 data 4 8;
  age ← index data 8;
  Ok (MkInfoEntrance original entrance age).

(** ** Serializers *)

Definition Message_Serialize (msg : Message) : res bytes :=
  let data := zeros (5 + length (m_Payload msg)) in
  data ← be_put32 data 0 4 (m_Seq msg);
  data ← set_index data 4 (m_Op msg);
  data ← copy_from data 5 (m_Payload msg);
  Ok data.

Definition HelloOut_Serialize (body : MessageBodyHelloOut) : res bytes :=
  let data := zeros 16 in
  data ← copy_into data 0 8 (ho_Magic body);
  data ← be_put32 data 8 12 (ho_SeqGame body);
  data ← be_put32 data 12 16 (ho_SeqNet body);
  Ok data.

Definition WalOut_Serialize (body : MessageBodyWalOut) : res bytes :=
  let data := zeros (14 + length (wo_Data body)) in
  data ← be_put32 data 0 4 (wo_Index body);
  data ← set_index data 4 (wo_Type body);
  data ← set_index data 5 (wo_From body);
  data ← copy_into data 6 14 (wo_PlayerName body);
  data ← copy_from data 14 (wo_Data body);
  Ok data.

Definition WalItem_Serialize (item : WalItem) : res bytes :=
  let data := zeros 10 in
  data ← set_index data 0 (it_To item);
  data ← set_index data 1 (it_Game item);
  data ← be_put16 data 2 4 (it_GI item);
  data ← be_put16 data 4 6 (it_Flags item);
  data ← be_put32 data 6 10 (it_Key item);
  Ok data.

Definition WalEvent_Serialize (event : WalEvent) : res bytes :=
  let data := zeros 4 in
  data ← be_put32 data 0 4 (ev_EventID event);
  Ok data.

Definition PositionOut_Serialize (body : MessageBodyPositionOut) : res bytes :=
  let data := zeros 20 in
  data ← be_put16 data 0 2 (po_ID body);
  data ← be_put16 data 2 4 (po_Color body);
  data ← copy_into data 4 12 (po_Name body);
  data ← be_put16 data 12 14 (po_Key body);
  data ← be_put16 data 14 16 (uint16 (po_X body));
  data ← be_put16 data 16 18 (uint16 (po_Y body));
  data ← be_put16 data 18 20 (uint16 (po_Z body));
  Ok data.

(** ** Unix socket framing *)

(** [int] has 64 bits, so the length read from the header is never negative. *)
Definition Read : M conn bytes :=
  header ← conn_read_full 4;
  len ← lift (le_Uint32 header);
  msg ← conn_read_full (Z.to_nat (uval len));
  mret msg.

Definition Write (data : bytes) : M conn unit :=
  header ← lift (le_put32 (zeros 4) 0 4 (U32 (Z.of_nat (length data))));
  conn_write header;;
  conn_write data.

(** ** Layouts

    The bytes of each message as the concatenation of its fields: for a message
    the game sends this is the encoding the parser is meant to invert. *)

Definition message_layout (m : Message) : bytes :=
  be_bytes 4 (uval (m_Seq m)) ++ [m_Op m] ++ m_Payload m.

Definition position_in_layout (p : MessageBodyPositionIn) : bytes :=
  be_bytes 2 (uval (pi_Key p)) ++ be_bytes 2 (uval (uint16 (pi_X p)))
  ++ be_bytes 2 (uval (uint16 (pi_Y p))) ++ be_bytes 2 (uval (uint16 (pi_Z p))).

Definition hello_in_layout (h : MessageBodyHelloIn) : bytes :=
  vec_to_list (hi_Magic h) ++ vec_to_list (hi_SessionID h)
  ++ vec_to_list (hi_SessionSecret h) ++ vec_to_list (hi_PlayerID h)
  ++ vec_to_list (hi_PlayerName h) ++ [hi_WorldID h].

Definition wal_in_layout (w : MessageBodyWalIn) : bytes :=
  be_bytes 4 (uval (wi_Token w)) ++ [wi_Type w] ++ wi_Data w.

Definition wal_item_layout (i : WalItem) : bytes :=
  [it_To i] ++ [it_Game i] ++ be_bytes 2 (uval (it_GI i))
  ++ be_bytes 2 (uval (it_Flags i)) ++ be_bytes 4 (uval (it_Key i)).

Definition wal_event_layout (e : WalEvent) : bytes := be_bytes 4 (uval (ev_EventID e)).

Definition info_item_layout (i : MessageBodyInfoItem) : bytes :=
  be_bytes 4 (uval (ii_Key i)) ++ be_bytes 2 (uval (ii_GI i)) ++ [ii_Flags i].

Definition info_entrance_layout (i : MessageBodyInfoEntrance) : bytes :=
  be_bytes 4 (uval (ie_Original i)) ++ be_bytes 4 (uval (ie_Entrance i)) ++ [ie_Age i].

Definition hello_out_layout (h : MessageBodyHelloOut) : bytes :=
  vec_to_list (ho_Magic h) ++ be_bytes 4 (uval (ho_SeqGame h)) ++ be_bytes 4 (uval (ho_SeqNet h)).

Definition wal_out_layout (w : MessageBodyWalOut) : bytes :=
  be_bytes 4 (uval (wo_Index w)) ++ [wo_Type w] ++ [wo_From w]
  ++ vec_to_list (wo_PlayerName w) ++ wo_Data w.

Definition position_out_layout (p : MessageBodyPositionOut) : bytes :=
  be_bytes 2 (uval (po_ID p)) ++ be_bytes 2 (uval (po_Color p)) ++ vec_to_list (po_Name p)
  ++ be_bytes 2 (uval (po_Key p)) ++ be_bytes 2 (uval (uint16 (po_X p)))
  ++ be_bytes 2 (uval (uint16 (po_Y p))) ++ be_bytes 2 (uval (uint16 (po_Z p))).

(** A parser that reads exactly a layout of [n] bytes: shorter data is refused
    with an error, longer data is accepted and starts with the layout of the
    value, and the layout of a value is parsed to it whatever follows. *)
Definition reads_exactly {A} (parse : bytes → res A) (layout : A → bytes) (n : nat) : Prop :=
  ∀ d, (length d < n → ∃ e, parse d = Err e)
  ∧ (n ≤ length d → ∃ a, parse d = Ok a ∧ d = layout a ++ drop n d)
  ∧ ∀ a, parse (layout a ++ d) = Ok a.

(** *** Serializers produce the layouts *)

Lemma Message_Serialize_layout m : Message_Serialize m = Ok (message_layout m).
Proof. unfold Message_Serialize. solve_layout. Qed.

Lemma HelloOut_Serialize_layout h : HelloOut_Serialize h = Ok (hello_out_layout h).
Proof. unfold HelloOut_Serialize. solve_layout. Qed.

Lemma WalOut_Serialize_layout w : WalOut_Serialize w = Ok (wal_out_layout w).
Proof. unfold WalOut_Serialize. solve_layout. Qed.

Lemma WalItem_Serialize_layout i : WalItem_Serialize i = Ok (wal_item_layout i).
Proof. unfold WalItem_Serialize. solve_layout. Qed.

Lemma WalEvent_Serialize_layout e : WalEvent_Serialize e = Ok (wal_event_layout e).
Proof. unfold WalEvent_Serialize. solve_layout. Qed.

Lemma PositionOut_Serialize_layout p : PositionOut_Serialize p = Ok (position_out_layout p).
Proof. unfold PositionOut_Serialize. solve_layout. Qed.

(** *** Parsers invert the layouts *)

(** Read every field of a long enough buffer, keeping the prefix covered. *)
Ltac take_fields :=
  repeat match goal with
    | |- context [be_get16 ?d ?a ?b] =>
        let x := fresh "x" in let H := fresh "Hx" in
        destruct (be_get16_inbounds d a b) as [x H]; [lia..|];
        rewrite H; apply be_get16_take in H; [|done]
    | |- context [be_get32 ?d ?a ?b] =>
        let x := fresh "x" in let H := fresh "Hx" in
        destruct (be_get32_inbounds d a b) as [x H]; [lia..|];
        rewrite H; apply be_get32_take in H; [|done]
    | |- context [slice ?d ?a ?b] =>
        let x := fresh "x" in let H := fresh "Hx" in let Hl := fresh "Hl" in
        destruct (slice_inbounds d a b) as (x & H & Hl); [lia|];
        rewrite H; apply slice_take in H; cbn [Nat.sub] in Hl
    | |- context [index ?d ?i] =>
        let x := fresh "x" in let H := fresh "Hx" in
        destruct (index_ok d i) as [x H]; [lia|]; rewrite H; apply index_take in H
    end.

Ltac join_fields :=
  repeat match goal with
    | H : take ?n ?d = _ |- context [take ?n ?d] => rewrite H
    end;
  cbn [m_Seq m_Op m_Payload wi_Token wi_Type wi_Data pi_Key pi_X pi_Y pi_Z hi_Magic hi_SessionID hi_SessionSecret hi_PlayerID hi_PlayerName
       hi_WorldID it_To it_Game it_GI it_Flags it_Key ev_EventID ie_Original ie_Entrance ie_Age
       ii_Key ii_GI ii_Flags];
  rewrite ?arr_of_list, ?uint16_int16, ?take_0, <- ?app_assoc by done; reflexivity.

Ltac solve_exact n :=
  let d := fresh "d" in intros d; split_and!;
  [ intros; rewrite decide_True by done; by eexists
  | intros; rewrite decide_False by lia; take_fields; rewrite ?res_bind_ok;
    eexists; split; [reflexivity|];
    rewrite <- (take_drop n d) at 1; f_equal; join_fields
  | let a := fresh "a" in intros a; solve_parse; by destruct a ].

Lemma ParseMessageBodyPositionIn_exact :
  reads_exactly ParseMessageBodyPositionIn position_in_layout 8.
Proof. unfold ParseMessageBodyPositionIn, position_in_layout. solve_exact 8. Qed.

Lemma ParseMessageBodyHelloIn_exact :
  reads_exactly ParseMessageBodyHelloIn hello_in_layout 57.
Proof. unfold ParseMessageBodyHelloIn, hello_in_layout. solve_exact 57. Qed.

Lemma ParseWalItem_exact : reads_exactly ParseWalItem wal_item_layout 10.
Proof. unfold ParseWalItem, wal_item_layout. solve_exact 10. Qed.

Lemma ParseWalEvent_exact : reads_exactly ParseWalEvent wal_event_layout 4.
Proof. unfold ParseWalEvent, wal_event_layout. solve_exact 4. Qed.

Lemma ParseMessageBodyInfoEntrance_exact :
  reads_exactly ParseMessageBodyInfoEntrance info_entrance_layout 9.
Proof. unfold ParseMessageBodyInfoEntrance, info_entrance_layout. solve_exact 9. Qed.

(** [INFO_ITEM] reads seven bytes after checking for six. *)
Lemma ParseMessageBodyInfoItem_short d :
  length d < 6 → ∃ e, ParseMessageBodyInfoItem d = Err e.
Proof. intros. unfold ParseMessageBodyInfoItem. rewrite decide_True by done. by eexists. Qed.

Lemma ParseMessageBodyInfoItem_six d :
  length d = 6 → ParseMessageBodyInfoItem d = Panic.
Proof.
  intros Hl. unfold ParseMessageBodyInfoItem. rewrite decide_False, decide_True by lia.
  destruct (be_get32_inbounds d 0 4) as [? ->]; [lia..|].
  destruct (be_get16_inbounds d 4 6) as [? ->]; [lia..|].
  rewrite !res_bind_ok. unfold index. by rewrite lookup_ge_None_2 by lia.
Qed.

Lemma ParseMessageBodyInfoItem_long d :
  7 ≤ length d → ∃ a, ParseMessageBodyInfoItem d = Ok a ∧ d = info_item_layout a ++ drop 7 d.
Proof.
  intros. unfold ParseMessageBodyInfoItem, info_item_layout.
  rewrite decide_False, decide_True by lia. take_fields. rewrite ?res_bind_ok.
  eexists; split; [reflexivity|]. rewrite <- (take_drop 7 d) at 1. f_equal. join_fields.
Qed.

Lemma ParseMessageBodyInfoItem_layout i rest :
  ParseMessageBodyInfoItem (info_item_layout i ++ rest) = Ok i.
Proof.
  unfold ParseMessageBodyInfoItem, info_item_layout. rewrite decide_False by len.
  rewrite decide_True by len. rewrite <- ?app_assoc. run_reads. by destruct i.
Qed.

(** Messages whose last field is the rest of the data. *)
Lemma ParseMessage_layout m : ParseMessage (message_layout m) = Ok m.
Proof.
  unfold ParseMessage, message_layout. rewrite decide_False by len. run_reads.
  unfold slice_from. do 2 (rewrite slice_skip by len). rewrite slice_all by len. by destruct m.
Qed.

Lemma ParseMessage_exact d :
  (length d < 5 ∧ ∃ e, ParseMessage d = Err e)
  ∨ (5 ≤ length d ∧ ∃ m, ParseMessage d = Ok m ∧ d = message_layout m).
Proof.
  unfold ParseMessage, message_layout. destruct (decide (length d < 5)); [left; eauto|right].
  split; [lia|]. unfold slice_from. take_fields. rewrite ?res_bind_ok.
  eexists; split; [reflexivity|]. rewrite <- (take_ge d (length d)) at 1 by done. join_fields.
Qed.

Lemma ParseMessageBodyWalIn_layout w : ParseMessageBodyWalIn (wal_in_layout w) = Ok w.
Proof.
  unfold ParseMessageBodyWalIn, wal_in_layout. rewrite decide_False by len. run_reads.
  unfold slice_from. do 2 (rewrite slice_skip by len). rewrite slice_all by len. by destruct w.
Qed.

Lemma ParseMessageBodyWalIn_exact d :
  (length d < 5 ∧ ∃ e, ParseMessageBodyWalIn d = Err e)
  ∨ (5 ≤ length d ∧ ∃ w, ParseMessageBodyWalIn d = Ok w ∧ d = wal_in_layout w).
Proof.
  unfold ParseMessageBodyWalIn, wal_in_layout. destruct (decide (length d < 5)); [left; eauto|right].
  split; [lia|]. unfold slice_from. take_fields. rewrite ?res_bind_ok.
  eexists; split; [reflexivity|]. rewrite <- (take_ge d (length d)) at 1 by done. join_fields.
Qed.

Lemma reads_exactly_returns {A} (parse : bytes → res A) layout n d :
  reads_exactly parse layout n → returns (parse d).
Proof.
  intros H. destruct (H d) as (Hs & Hl & _). destruct (decide (length d < n)).
  - by destruct Hs as [? ->].
  - by destruct Hl as (? & -> & _); [lia|].
Qed.

#[export] Hint Resolve ParseMessageBodyPositionIn_exact ParseMessageBodyHelloIn_exact
  ParseWalItem_exact ParseWalEvent_exact ParseMessageBodyInfoEntrance_exact : go.

(** *** Distinct messages have distinct bytes *)

(** Compare two layouts field by field. *)
Ltac same_fields :=
  repeat match goal with
    | H : _ ++ _ = _ ++ _ |- _ => apply app_inj_1 in H as [? H]; [|len]
    end;
  repeat match goal with
    | H : be_bytes 2 _ = be_bytes 2 _ |- _ => apply be_bytes2_inj in H
    | H : be_bytes 4 _ = be_bytes 4 _ |- _ => apply be_bytes4_inj in H
    | H : vec_to_list _ = vec_to_list _ |- _ => apply vec_to_list_inj2 in H
    | H : uint16 _ = uint16 _ |- _ => apply (f_equal int16) in H; rewrite !int16_uint16 in H
    end;
  congruence.

Lemma hello_out_layout_inj h1 h2 : hello_out_layout h1 = hello_out_layout h2 → h1 = h2.
Proof. unfold hello_out_layout. intros H. destruct h1, h2;
  cbn [ho_Magic ho_SeqGame ho_SeqNet] in *. same_fields. Qed.

Lemma wal_out_layout_inj w1 w2 : wal_out_layout w1 = wal_out_layout w2 → w1 = w2.
Proof.
  unfold wal_out_layout. intros H. destruct w1, w2; cbn [wo_Index wo_Type wo_From wo_PlayerName wo_Data] in *.
  same_fields.
Qed.

Lemma position_out_layout_inj p1 p2 : position_out_layout p1 = position_out_layout p2 → p1 = p2.
Proof.
  unfold position_out_layout. intros H. destruct p1, p2;
    cbn [po_ID po_Color po_Name po_Key po_X po_Y po_Z] in *. same_fields.
Qed.

(** *** Framing *)

Definition ipc_frame (data : bytes) : bytes := le_bytes 4 (Z.of_nat (length data)) ++ data.

Definition frameable (data : bytes) : Prop := (Z.of_nat (length data) < 2 ^ 32)%Z.

Lemma Write_ok data c :
  tx_script c = [] → frameable data → Write data c = (set_tx (tx c ++ ipc_frame data) [] c, Ok tt).
Proof.
  unfold frameable. intros Hs Hf. unfold Write. rewrite le_put32_whole.
  rewrite uval_to_uint_small by lia. unfold mbind, M_bind, lift, conn_write. rewrite Hs. simpl.
  unfold ipc_frame. by rewrite <- app_assoc.
Qed.

Lemma Read_frame data rest c :
  frameable data → rx c = ipc_frame data ++ rest → Read c = (set_rx rest c, Ok data).
Proof.
  unfold frameable. intros Hf Hc. unfold Read, mbind, M_bind, conn_read_full, lift.
  rewrite Hc. unfold ipc_frame. rewrite <- app_assoc, read_full_app by len.
  rewrite <- (uval_to_uint_small 32 (Z.of_nat (length data))) at 1 by lia.
  rewrite le_Uint32_bytes, uval_to_uint_small, Nat2Z.id by lia. cbn [rx rx_end set_rx].
  by rewrite read_full_app.
Qed.

Lemma Read_returns c : returns (snd (Read c)).
Proof.
  unfold Read, mbind, M_bind, conn_read_full, lift.
  destruct (read_full_from_cases (rx c) (rx_end c) 4) as [(h & -> & Hl)|[e ->]]; [|done].
  unfold le_Uint32. rewrite fixed_ok by done. cbn [mbind res_bind].
  cbn [rx rx_end set_rx].
  by edestruct (read_full_from_cases (drop 4 (rx c)) (rx_end c)) as [(d & -> & _)|[e ->]].
Qed.

(** The receive loop of [handleMsgIn]: messages until the first failure. *)
Fixpoint read_all (fuel : nat) (c : conn) : list bytes * res unit :=
  match fuel with
  | 0 => ([], NoFuel)
  | S fuel =>
      match Read c with
      | (c', Ok d) => let '(ds, r) := read_all fuel c' in (d :: ds, r)
      | (_, Err e) => ([], Err e)
      | (_, Panic) => ([], Panic)
      | (_, NoFuel) => ([], NoFuel)
      end
  end.

Fixpoint write_all (ds : list bytes) : M conn unit :=
  match ds with
  | [] => mret tt
  | d :: ds => Write d;; write_all ds
  end.

Lemma write_all_stream ds c :
  Forall frameable ds → tx_script c = [] →
  write_all ds c = (set_tx (tx c ++ concat (ipc_frame <$> ds)) [] c, Ok tt).
Proof.
  intros Hds. revert c. induction Hds as [|d ds Hd Hds IH]; intros c Hs; simpl.
  - rewrite app_nil_r. destruct c; by simplify_eq/=.
  - unfold mbind, M_bind. rewrite Write_ok by done. rewrite IH by done.
    simpl. by rewrite <- app_assoc.
Qed.

Lemma Read_end c : rx c = [] → rx_end c = EOF → Read c = (set_rx [] c, Err EOF).
Proof. intros Hc He. unfold Read, mbind, M_bind, conn_read_full. by rewrite Hc, He. Qed.

Lemma read_all_stream ds fuel c :
  Forall frameable ds → rx c = concat (ipc_frame <$> ds) → rx_end c = EOF → length ds < fuel →
  read_all fuel c = (ds, Err EOF).
Proof.
  intros Hds. revert fuel c. induction Hds as [|d ds Hd Hds IH]; intros fuel c Hc He Hf;
    (destruct fuel as [|fuel]; [lia|]); cbn [read_all].
  - by rewrite Read_end.
  - rewrite (Read_frame d (concat (ipc_frame <$> ds))) by done.
    rewrite IH; [done..|simpl in Hf; lia].
Qed.

(** ** Properties *)

(** C40: each parser of a message of the game accepts exactly the data that
    starts with the big-endian layout of a value, which it returns; shorter data
    is refused with an error and no data makes it panic.  The two messages that
    end in free data take all of it. *)
Theorem ipc_parsers_exact (d : bytes) :
  reads_exactly ParseMessageBodyPositionIn position_in_layout 8
  ∧ reads_exactly ParseMessageBodyHelloIn hello_in_layout 57
  ∧ reads_exactly ParseWalItem wal_item_layout 10
  ∧ reads_exactly ParseWalEvent wal_event_layout 4
  ∧ reads_exactly ParseMessageBodyInfoEntrance info_entrance_layout 9
  ∧ ((length d < 5 ∧ ∃ e, ParseMessage d = Err e)
     ∨ (5 ≤ length d ∧ ∃ m, ParseMessage d = Ok m ∧ Message_Serialize m = Ok d))
  ∧ ((length d < 5 ∧ ∃ e, ParseMessageBodyWalIn d = Err e)
     ∨ (5 ≤ length d ∧ ∃ w, ParseMessageBodyWalIn d = Ok w ∧ d = wal_in_layout w)).
Proof.
  split_and!; eauto with go; [|apply ParseMessageBodyWalIn_exact].
  destruct (ParseMessage_exact d) as [?|(Hl & m & Hm & Hd)]; [by left|right].
  split; [done|]. exists m. split; [done|]. by rewrite Message_Serialize_layout, <- Hd.
Qed.

(** [INFO_ITEM] is the exception: the parser checks for six bytes and then
    reads the seventh, so a body of exactly six bytes, the length for which the
    source sets default flags, makes it panic; it does so on no other input. *)
Theorem info_item_panic (d : bytes) :
  (ParseMessageBodyInfoItem d = Panic ↔ length d = 6)
  ∧ (length d < 6 → ∃ e, ParseMessageBodyInfoItem d = Err e)
  ∧ (∀ i, ParseMessageBodyInfoItem d = Ok i → d = info_item_layout i ++ drop 7 d)
  ∧ (∀ i rest, ParseMessageBodyInfoItem (info_item_layout i ++ rest) = Ok i).
Proof.
  split_and!.
  - split; [|apply ParseMessageBodyInfoItem_six]. intros Hp.
    destruct (decide (length d < 6)) as [Hl|].
    { destruct (ParseMessageBodyInfoItem_short d Hl) as [e He]. congruence. }
    destruct (decide (length d = 6)); [done|].
    destruct (ParseMessageBodyInfoItem_long d) as (a & Ha & _); [lia|]. congruence.
  - apply ParseMessageBodyInfoItem_short.
  - intros i Hi. destruct (decide (length d < 6)) as [Hl|].
    { destruct (ParseMessageBodyInfoItem_short d Hl) as [e He]. congruence. }
    destruct (decide (length d = 6)) as [Hl|].
    { rewrite ParseMessageBodyInfoItem_six in Hi by done. congruence. }
    destruct (ParseMessageBodyInfoItem_long d) as (a & Ha & Hd); [lia|]. congruence.
  - apply ParseMessageBodyInfoItem_layout.
Qed.

Lemma info_item_panic_witness :
  let d := U8 0 :: zeros 5 in
  length d = 6 ∧ ParseMessageBodyInfoItem d = Panic
  ∧ ((ParseMessageBodyInfoItem [] = Panic ↔ 0 = 6) ∧ ∃ e, ParseMessageBodyInfoItem [] = Err e).
Proof.
  split_and!; [reflexivity|exact (proj2 (proj1 (info_item_panic (U8 0 :: zeros 5))) eq_refl)
    |exact (proj1 (info_item_panic []))|].
  apply (proj1 (proj2 (info_item_panic []))). simpl. lia.
Defined.

(** Whatever the client sends the game is parsed back by the layout it was
    written with: messages, WAL items and events are recovered by the parsers of
    the same file, and distinct values of the messages that have no parser here
    have distinct bytes. *)
Theorem ipc_serialize_faithful :
  (∀ m, ∃ d, Message_Serialize m = Ok d ∧ ParseMessage d = Ok m)
  ∧ (∀ i, ∃ d, WalItem_Serialize i = Ok d ∧ length d = 10 ∧ ParseWalItem d = Ok i)
  ∧ (∀ e, ∃ d, WalEvent_Serialize e = Ok d ∧ length d = 4 ∧ ParseWalEvent d = Ok e)
  ∧ (∀ h1 h2, HelloOut_Serialize h1 = HelloOut_Serialize h2 → h1 = h2)
  ∧ (∀ w1 w2, WalOut_Serialize w1 = WalOut_Serialize w2 → w1 = w2)
  ∧ (∀ p1 p2, PositionOut_Serialize p1 = PositionOut_Serialize p2 → p1 = p2).
Proof.
  split_and!.
  - intros m. rewrite Message_Serialize_layout. eauto using ParseMessage_layout.
  - intros i. rewrite WalItem_Serialize_layout. eexists. split_and!; [done| |].
    + unfold wal_item_layout. len.
    + rewrite <- (app_nil_r (wal_item_layout i)). apply ParseWalItem_exact.
  - intros e. rewrite WalEvent_Serialize_layout. eexists. split_and!; [done| |].
    + unfold wal_event_layout. len.
    + rewrite <- (app_nil_r (wal_event_layout e)). apply ParseWalEvent_exact.
  - intros h1 h2. rewrite !HelloOut_Serialize_layout. intros H%Ok_inj. by apply hello_out_layout_inj.
  - intros w1 w2. rewrite !WalOut_Serialize_layout. intros H%Ok_inj. by apply wal_out_layout_inj.
  - intros p1 p2. rewrite !PositionOut_Serialize_layout. intros H%Ok_inj.
    by apply position_out_layout_inj.
Qed.

(** Messages written to the Unix socket one after the other are read back
    one by one, unchanged and in order, followed by end of file; no bytes on the
    socket make the reader panic. *)
Theorem unix_framing (ds : list bytes) :
  Forall frameable ds →
  let sent := tx (fst (write_all ds (conn_on [] EOF))) in
  read_all (S (length ds)) (conn_on sent EOF) = (ds, Err EOF)
  ∧ ∀ c, returns (snd (Read c)).
Proof.
  intros Hds. rewrite write_all_stream by done. cbv zeta. cbn [fst tx set_tx conn_on app].
  split; [|apply Read_returns]. apply read_all_stream; [done..|lia].
Qed.

Lemma unix_framing_witness :
  let ds := [[U8 1; U8 2]; []; [U8 3]] in
  Forall frameable ds
  ∧ read_all 4 (conn_on (tx (fst (write_all ds (conn_on [] EOF)))) EOF) = (ds, Err EOF).
Proof.
  intros ds. assert (Forall frameable ds) as H by (repeat constructor; vm_compute; done).
  split; [exact H|]. exact (proj1 (unix_framing ds H)).
Defined.

End ipc.
