(* ===== verification/Project64.v ===== *)
(** * The pipe of Project64 (client/internal/ipc/project64_windows.go)

    The second transport to a game.  The calls of golang.org/x/sys/windows are not
    code of the repository: what they answer is an argument of each operation. *)

From stdpp Require Import base gmap sets strings vector numbers tactics list.
From Stdlib Require Import ZArith Lia.
From S2P Require Import Prelude Words GoIO GoStr.

(** ** Pipes *)

(** [strings.HasPrefix] *)
Definition HasPrefix (s prefix : bytes) : bool := bool_decide (take (length prefix) s = prefix).

(** [readDir] is what [os.ReadDir] answers for the directory of the pipes. *)
Definition listPipes (readDir : res (list bytes)) : list bytes :=
  match readDir with
  | Ok entries => (λ name, str "\\.\pipe\" ++ name) <$> filter (λ name, HasPrefix name (str "pj64em-ipc.")) entries
  | _ => []
  end.

Definition PollProject64 (readDir : res (list bytes)) : list bytes := listPipes readDir.

(** ** Opening and closing

    The state is the set of handles that are open. *)

Abbreviation handle := N.

Record PJ64Conn : Type := MkPJ64 { pj_handle : handle; pj_readEvent : handle; pj_writeEvent : handle }.

(** What the system answers to the calls of [newPJ64Conn]. *)
Record open_answers : Type := MkOpen {
  oa_utf16 : res unit;
  oa_createFile : res handle;
  oa_setState : res unit;
  oa_readEvent : res handle;
  oa_writeEvent : res handle;
}.

Definition acquire (r : res handle) : M (gset handle) handle :=
  h ← lift r;
  modify (λ s, {[h]} ∪ s);;
  mret h.

Definition CloseHandle (h : handle) : M (gset handle) unit := modify (λ s, s ∖ {[h]}).

Definition newPJ64Conn (a : open_answers) : M (gset handle) PJ64Conn :=
  lift (oa_utf16 a);;
  h ← acquire (oa_createFile a);
  on_err (lift (oa_setState a)) (λ err, CloseHandle h;; fail err);;
  readEvent ← on_err (acquire (oa_readEvent a)) (λ err, CloseHandle h;; fail err);
  writeEvent ← on_err (acquire (oa_writeEvent a))
    (λ err, CloseHandle readEvent;; CloseHandle h;; fail err);
  mret (MkPJ64 h readEvent writeEvent).

Definition Close (c : PJ64Conn) : M (gset handle) unit :=
  CloseHandle (pj_handle c);;
  CloseHandle (pj_readEvent c);;
  CloseHandle (pj_writeEvent c).

(** ** Overlapped input and output *)

Inductive winerr : Type :=
  | ERROR_IO_PENDING
  | ERROR_MORE_DATA
  | WinError (code : Z).

#[export] Instance winerr_eq_dec : EqDecision winerr.
Proof. solve_decision. Defined.

(** One transfer: what [ReadFile] or [WriteFile] returns, what is in the buffer
    when it is over, what [WaitForSingleObject] and [GetOverlappedResult] return. *)
Record transfer : Type := MkTransfer {
  tr_start : option winerr;
  tr_data : bytes;
  tr_wait : option winerr;
  tr_result : nat * option winerr;
}.

Definition waitOverlapped (t : transfer) : nat * option winerr :=
  if decide (tr_start t ≠ None ∧ tr_start t ≠ Some ERROR_IO_PENDING) then (0, tr_start t)
  else match (if decide (tr_start t = Some ERROR_IO_PENDING) then tr_wait t else None) with
       | Some err => (0, Some err)
       | None => tr_result t
       end.

(** [Read] on the transfers that happen, its buffer of 512 bytes before the loop
    being [buf]; [None] when it still waits after the last. *)
Fixpoint read_loop (ts : list transfer) (buf msg : bytes) : option (res bytes) :=
  match ts with
  | [] => None
  | t :: ts =>
      let '(n, err) := waitOverlapped t in
      let buf := tr_data t ++ drop (length (tr_data t)) buf in
      let msg := msg ++ take n buf in
      match err with
      | None => Some (Ok msg)
      | Some ERROR_MORE_DATA => read_loop ts buf msg
      | Some ERROR_IO_PENDING => Some (Err (OSError 997))
      | Some (WinError code) => Some (Err (OSError code))
      end
  end.

Definition Read (ts : list transfer) : option (res bytes) := read_loop ts (zeros 512) [].

Definition Write (t : transfer) : option winerr := snd (waitOverlapped t).

(** ** Facts *)

(** The answers of a system: no panics, and every handle it gives out is new. *)
Record sound_answers (s : gset handle) (a : open_answers) : Prop := {
  sa_returns : returns (oa_utf16 a) ∧ returns (oa_createFile a) ∧ returns (oa_setState a)
    ∧ returns (oa_readEvent a) ∧ returns (oa_writeEvent a);
  sa_fresh h : oa_createFile a = Ok h ∨ oa_readEvent a = Ok h ∨ oa_writeEvent a = Ok h → h ∉ s;
  sa_read h : oa_createFile a = Ok h → oa_readEvent a ≠ Ok h;
  sa_write h : oa_createFile a = Ok h ∨ oa_readEvent a = Ok h → oa_writeEvent a ≠ Ok h;
}.

(** A part of a message that does not end it: transferred while [Read] waits, or
    at once. *)
Inductive part : Type := Waited (d : bytes) | AtOnce (d : bytes).

Definition part_data (p : part) : bytes := match p with Waited d | AtOnce d => d end.

(** The calls for a part in a pipe of messages, when more of the message follows,
    and for the last part. *)
Definition part_transfer (p : part) : transfer :=
  match p with
  | Waited d => MkTransfer (Some ERROR_IO_PENDING) d None (length d, Some ERROR_MORE_DATA)
  | AtOnce d => MkTransfer (Some ERROR_MORE_DATA) d None (length d, Some ERROR_MORE_DATA)
  end.
Definition last_transfer (p : part) : transfer :=
  match p with
  | Waited d => MkTransfer (Some ERROR_IO_PENDING) d None (length d, None)
  | AtOnce d => MkTransfer None d None (length d, None)
  end.

Definition kept (p : part) : bytes := match p with Waited d => d | AtOnce _ => [] end.

Lemma read_loop_parts ps q buf msg :
  read_loop ((part_transfer <$> ps) ++ [last_transfer q]) buf msg
  = Some (Ok (msg ++ concat (kept <$> ps) ++ part_data q)).
Proof.
  revert buf msg. induction ps as [|p ps IH]; intros buf msg; cbn [fmap list_fmap app concat].
  - by destruct q as [d|d]; simpl; rewrite take_app_length.
  - rewrite <- app_assoc. destruct p as [d|d]; cbn [read_loop part_transfer kept];
      unfold waitOverlapped; cbn [tr_start tr_data tr_wait tr_result].
    + rewrite decide_False by (by intros [_ []]). rewrite decide_True by done.
      by rewrite take_app_length, IH, <- app_assoc.
    + rewrite decide_True by done. rewrite take_0, app_nil_r. by rewrite IH.
Qed.

(** ** Properties *)

(** A message of Project64 arrives whole if [Read] had to wait for it, however
    long it is and however it is cut into parts.  A part that [ReadFile] reports at
    once with ERROR_MORE_DATA is lost: [waitOverlapped] takes this answer for a
    failure and gives a length of 0, and [Read] goes on without the part. *)
Theorem project64_read ps q :
  Read ((part_transfer <$> ps) ++ [last_transfer q]) = Some (Ok (concat (kept <$> ps) ++ part_data q))
  ∧ (Forall (λ p, kept p = part_data p) ps →
     Read ((part_transfer <$> ps) ++ [last_transfer q])
     = Some (Ok (concat (part_data <$> ps) ++ part_data q))).
Proof.
  unfold Read. rewrite read_loop_parts. split; [done|]. intros Hps.
  assert (kept <$> ps = part_data <$> ps) as ->; [|done].
  induction Hps as [|p ps Hp _ IH]; [done|]. cbn [fmap list_fmap]. by rewrite Hp, IH.
Qed.

(** No handle leaks.  When [newPJ64Conn] fails, whichever call it was, all
    handles that it opened are closed again; when it succeeds it holds three
    handles, and [Close] closes these and no other. *)
Theorem project64_handles s a :
  sound_answers s a →
  let '(s', r) := newPJ64Conn a s in
  returns r ∧ (∀ e, r = Err e → s' = s)
  ∧ ∀ c, r = Ok c → s' = {[pj_writeEvent c; pj_readEvent c; pj_handle c]} ∪ s
      ∧ Close c s' = (s, Ok tt).
Proof.
  intros [(H1 & H2 & H3 & H4 & H5) Hf Hr Hw]. unfold newPJ64Conn, acquire, on_err, CloseHandle, mbind, M_bind, lift, modify.
  destruct (oa_utf16 a) as [[]|e| |]; [|done|by destruct H1..].
  destruct (oa_createFile a) as [h|e| |] eqn:Eh; [|done|by destruct H2..].
  assert (h ∉ s) as Hh by (apply Hf; auto).
  destruct (oa_setState a) as [[]|e| |]; [| |by destruct H3..].
  2: { split_and!; [done| |done]. intros e' _. set_solver. }
  destruct (oa_readEvent a) as [r|e| |] eqn:Er; [| |by destruct H4..].
  2: { split_and!; [done| |done]. intros e' _. set_solver. }
  assert (r ∉ s ∧ r ≠ h) as [Hr1 Hr2].
  { split; [apply Hf; auto|]. intros ->. by apply (Hr h). }
  destruct (oa_writeEvent a) as [w|e| |] eqn:Ew; [| |by destruct H5..].
  2: { split_and!; [done| |done]. intros e' _. set_solver. }
  assert (w ∉ s ∧ w ≠ h ∧ w ≠ r) as (Hw1 & Hw2 & Hw3).
  { split; [apply Hf; auto|]. split; intros ->; [by apply (Hw h); [left|]|by apply (Hw r); [right|]]. }
  split_and!; [done|done|]. intros c [= <-]. simpl. split; [set_solver|].
  unfold Close, CloseHandle, mbind, M_bind, modify. simpl. f_equal. set_solver.
Qed.

(** The system gives out 1 and 2 and has no third handle. *)
Definition ex_answers : open_answers :=
  MkOpen (Ok tt) (Ok 1%N) (Ok tt) (Ok 2%N) (Err (OSError 8)).

Lemma ex_answers_sound : sound_answers {[7%N]} ex_answers.
Proof.
  split; [by split_and!| |intros h [= <-]; by intros [=]|by intros h _].
  intros h [Hh|[Hh|Hh]]; simpl in Hh; [injection Hh as <-; set_solver..|done].
Qed.

Lemma project64_handles_witness :
  newPJ64Conn ex_answers {[7%N]} = ({[7%N]}, Err (OSError 8)).
Proof.
  pose proof (project64_handles {[7%N]} ex_answers ex_answers_sound) as H.
  destruct (newPJ64Conn ex_answers {[7%N]}) as [s' r] eqn:E.
  assert (r = Err (OSError 8)) as -> by (apply (f_equal snd) in E; symmetry; exact E).
  destruct H as (_ & H & _). by rewrite (H _ eq_refl).
Defined.
