(* ===== verification/SendQueue.v ===== *)
(** * The send queue (client/internal/game/send_queue.go)

    The file-backed set of WAL entries that the game produced and the server has
    not yet acknowledged. *)

From stdpp Require Import base gmap sets list strings vector numbers tactics.
From Stdlib Require Import ZArith Lia.
From S2P Require Import Prelude Words GoIO.

(** ** State and operations *)

Record SendQueue : Type := MkSQ {
  q_done : bool;
  q_file : file;
  q_entries : gmap (vec u8 16) bytes;
}.

Definition set_q_file (f : file) (q : SendQueue) : SendQueue := MkSQ (q_done q) f (q_entries q).
Definition on_qfile {A} (m : M file A) : M SendQueue A := zoom q_file set_q_file m.

Definition upd_entries (g : gmap (vec u8 16) bytes → gmap (vec u8 16) bytes) (q : SendQueue) :
    SendQueue := MkSQ (q_done q) (q_file q) (g (q_entries q)).

(** The ID prefix, or [None] at the end of the file ([break]). *)
Definition read_id : M SendQueue (option (vec u8 16)) := λ q,
  match on_qfile (file_read_full 16) q with
  | (q', Ok id) => (q', Ok (Some (arr_of 16 id)))
  | (q', Err EOF) => (q', Ok None)
  | (q', Err e) => (q', Err (Wrapf "send queue: failed to read entry ID" e))
  | (q', Panic) => (q', Panic)
  | (q', NoFuel) => (q', NoFuel)
  end.

Definition load_record (id : vec u8 16) : M SendQueue unit :=
  lengthBuf ← wrapM "send queue: failed to read entry length" (on_qfile (file_read_full 4));
  length ← lift (le_Uint32 lengthBuf);
  data ← wrapM "send queue: failed to read entry data"
           (on_qfile (file_read_full (Z.to_nat (uval length))));
  modify (upd_entries <[id := data]>).

Fixpoint loadSendQueue (fuel : nat) : M SendQueue unit :=
  match fuel with
  | 0 => lift NoFuel
  | S fuel =>
      id ← read_id;
      match id with
      | None => mret tt
      | Some id => load_record id;; loadSendQueue fuel
      end
  end.

Definition sq_Close : M SendQueue unit :=
  modify (λ q, MkSQ true (q_file q) (q_entries q));;
  ignore (on_qfile file_close).

Definition new_sq (f : file) : SendQueue := MkSQ false f ∅.

(** Every iteration of [loadSendQueue] consumes at least the bytes of an ID. *)
Definition sq_fuel (f : file) : nat := S (length (f_data f)).

(** [OpenSendQueue] on what [os.OpenFile] returned: the queue, or the error and
    the file it closed. *)
Definition OpenSendQueue (opened : res file) : option file * res SendQueue :=
  match wrap_err "send queue" opened with
  | Ok f =>
      match loadSendQueue (sq_fuel f) (new_sq f) with
      | (q, Ok _) => (None, Ok q)
      | (q, Err e) => (Some (q_file (fst (sq_Close q))), Err e)
      | (q, Panic) => (None, Panic)
      | (q, NoFuel) => (None, NoFuel)
      end
  | Err e => (None, Err e)
  | Panic => (None, Panic)
  | NoFuel => (None, NoFuel)
  end.

(** Errors of the file calls are printed or dropped. *)
Definition Ack (id : vec u8 16) : M SendQueue unit :=
  n ← gets (λ q, size (q_entries q));
  if decide (n = 0) then mret tt else
  modify (upd_entries (delete id));;
  n ← gets (λ q, size (q_entries q));
  (if decide (n = 0)
   then ignore (on_qfile (file_truncate 0);; on_qfile (file_seek_start 0))
   else mret tt);;
  ignore (on_qfile file_sync).

(** The file part of [Add]: three writes at the end and a sync. *)
Definition add_record (id : vec u8 16) (data : bytes) : M SendQueue unit :=
  wrapM "failed to seek to end of send queue" (on_qfile file_seek_end);;
  wrapM "failed to write entry ID to send queue" (on_qfile (file_write id));;
  lengthBuf ← lift (le_put32 (zeros 4) 0 4 (U32 (Z.of_nat (length data))));
  wrapM "failed to write entry length to send queue" (on_qfile (file_write lengthBuf));;
  wrapM "failed to write entry data to send queue" (on_qfile (file_write data));;
  wrapM "failed to sync send queue" (on_qfile file_sync).

Definition Add (id : vec u8 16) (data : bytes) : M SendQueue unit :=
  exists_ ← gets (λ q, bool_decide (is_Some (q_entries q !! id)));
  if (exists_ : bool) then mret tt else
  add_record id data;;
  modify (upd_entries <[id := data]>).

(** The entries in some order: a Go map is iterated in no particular one, and
    nothing below depends on this choice. *)
Definition Pending (q : SendQueue) : list bytes := (map_to_list (q_entries q)).*2.

(** ** What the file means *)

Abbreviation record := (vec u8 16 * bytes)%type.

Definition rec_frame (r : record) : bytes :=
  vec_to_list r.1 ++ le_bytes 4 (Z.of_nat (length r.2)) ++ r.2.

Definition rec_bytes (rs : list record) : bytes := concat (rec_frame <$> rs).

Definition rec_ok (r : record) : Prop := (Z.of_nat (length r.2) < 2 ^ 32)%Z.

(** The entries a sequence of records stands for: the last one of an ID counts. *)
Definition replay (m : gmap (vec u8 16) bytes) (rs : list record) : gmap (vec u8 16) bytes :=
  foldl (λ m r, <[r.1 := r.2]> m) m rs.

(** The file of an open queue is the records [rs], and they cover the entries
    in memory: a restart forgets none of them. *)
Record backs (q : SendQueue) (rs : list record) : Prop := {
  b_open : f_closed (q_file q) = false;
  b_data : f_data (q_file q) = rec_bytes rs;
  b_ok : Forall rec_ok rs;
  b_covers : q_entries q ⊆ replay ∅ rs;
}.

(** *** The abstract queue *)

Inductive sq_op : Type :=
  | OpAdd (id : vec u8 16) (data : bytes)
  | OpAck (id : vec u8 16).

(** What the callers do: they drop the error of [Add] and [Ack] has none. *)
Definition sq_exec (q : SendQueue) (o : sq_op) : SendQueue :=
  match o with
  | OpAdd id data => fst (Add id data q)
  | OpAck id => fst (Ack id q)
  end.

Definition sq_spec (m : gmap (vec u8 16) bytes) (o : sq_op) : gmap (vec u8 16) bytes :=
  match o with
  | OpAdd id data => match m !! id with Some _ => m | None => <[id := data]> m end
  | OpAck id => delete id m
  end.

Definition op_ok (o : sq_op) : Prop :=
  match o with OpAdd id data => rec_ok (id, data) | OpAck _ => True end.

(** ** Replaying records *)

Lemma replay_app m rs1 rs2 : replay m (rs1 ++ rs2) = replay (replay m rs1) rs2.
Proof. apply foldl_app. Qed.

Lemma rec_bytes_app rs1 rs2 : rec_bytes (rs1 ++ rs2) = rec_bytes rs1 ++ rec_bytes rs2.
Proof. unfold rec_bytes. by rewrite fmap_app, concat_app. Qed.

Lemma rec_bytes_cons r rs : rec_bytes (r :: rs) = rec_frame r ++ rec_bytes rs.
Proof. done. Qed.

Lemma length_rec_frame r : length (rec_frame r) = 20 + length r.2.
Proof. unfold rec_frame. len. Qed.

Lemma length_rec_bytes rs : length rs ≤ length (rec_bytes rs).
Proof.
  induction rs as [|r rs IH]; [done|].
  rewrite rec_bytes_cons, length_app, length_rec_frame. simpl. lia.
Qed.

(** ** Loading *)

Lemma set_q_file_id q : set_q_file (q_file q) q = q.
Proof. by destruct q. Qed.

Lemma rec_length r : rec_ok r → Z.to_nat (uval (U32 (Z.of_nat (length r.2)))) = length r.2.
Proof. unfold rec_ok. intros. rewrite uval_to_uint_small by lia. lia. Qed.

Lemma load_record_frame fuel r R q :
  rec_ok r → reading (q_file q) (rec_frame r ++ R) →
  ∃ f, loadSendQueue (S fuel) q
       = loadSendQueue fuel (set_q_file f (upd_entries <[r.1 := r.2]> q))
    ∧ reading f R ∧ f_data f = f_data (q_file q).
Proof.
  intros Hr Hrd. unfold rec_frame in Hrd. rewrite <- !app_assoc in Hrd.
  destruct (file_read_full_app 16 _ _ _ Hrd) as (f1 & H1 & Hrd1 & Hd1); [len|].
  destruct (file_read_full_app 4 _ _ _ Hrd1) as (f2 & H2 & Hrd2 & Hd2); [len|].
  destruct (file_read_full_app (length r.2) _ _ _ Hrd2) as (f3 & H3 & Hrd3 & Hd3); [done|].
  exists f3. split_and!; [|done|congruence]. cbn [loadSendQueue].
  unfold mbind at 1, M_bind at 1, read_id, on_qfile at 1, zoom at 1. rewrite H1.
  rewrite arr_of_vec.
  unfold mbind at 1, M_bind at 1, load_record, mbind, M_bind, wrapM, on_err, on_qfile, zoom.
  cbn [q_file set_q_file]. rewrite H2. unfold lift.
  pose proof (rec_length r Hr) as Hn. unfold rec_ok in Hr.
  rewrite le_Uint32_length by done. cbv beta iota. rewrite Hn. cbn [q_file set_q_file]. rewrite H3. done.
Qed.

Lemma load_records fuel rs R q :
  Forall rec_ok rs → reading (q_file q) (rec_bytes rs ++ R) →
  ∃ f, loadSendQueue (length rs + fuel) q
       = loadSendQueue fuel (MkSQ (q_done q) f (replay (q_entries q) rs))
    ∧ reading f R ∧ f_data f = f_data (q_file q).
Proof.
  intros Hrs. revert q. induction Hrs as [|r rs Hr Hrs IH]; intros q Hrd.
  { exists (q_file q). split_and!; [by destruct q|done|done]. }
  rewrite rec_bytes_cons, <- app_assoc in Hrd. cbn [length Nat.add].
  destruct (load_record_frame (length rs + fuel) r _ q Hr Hrd) as (f & -> & Hrd' & Hd).
  destruct (IH (set_q_file f (upd_entries <[r.1 := r.2]> q)) Hrd') as (f' & Hl & Hr' & Hd').
  exists f'. split_and!; [by rewrite Hl|done|by rewrite Hd'].
Qed.

Lemma sq_load_end fuel q :
  reading (q_file q) [] → ∃ f, loadSendQueue (S fuel) q = (set_q_file f q, Ok tt)
    ∧ f_data f = f_data (q_file q) ∧ f_closed f = false ∧ f_script f = [].
Proof.
  intros (Ho & Hs & Hr & _). cbn [loadSendQueue]. unfold mbind, M_bind, read_id, on_qfile, zoom.
  unfold file_read_full. rewrite decide_False by done. unfold mbind, M_bind, next_outcome.
  rewrite Ho, Hs. unfold get_bytes. fold (f_rest (q_file q)). rewrite Hr. simpl.
  eexists. by split.
Qed.

Lemma sq_fuel_split rs k f :
  f_data f = rec_bytes rs ++ k → ∃ n, sq_fuel f = length rs + S n.
Proof.
  intros Hf. exists (length (f_data f) - length rs). unfold sq_fuel. rewrite Hf, length_app.
  pose proof (length_rec_bytes rs). lia.
Qed.

(** Opening a file that holds whole records. *)
Lemma OpenSendQueue_records rs :
  Forall rec_ok rs →
  ∃ q, OpenSendQueue (Ok (open_file (rec_bytes rs) [])) = (None, Ok q)
    ∧ q_entries q = replay ∅ rs ∧ backs q rs ∧ f_script (q_file q) = [].
Proof.
  intros Hrs. set (f0 := open_file (rec_bytes rs) []).
  assert (reading f0 (rec_bytes rs ++ [])) as Hrd by (rewrite app_nil_r; apply reading_open).
  destruct (sq_fuel_split rs [] f0) as [n Hn]; [by rewrite app_nil_r|].
  destruct (load_records (S n) rs [] (new_sq f0) Hrs Hrd) as (f1 & Hl1 & Hrd1 & Hd1).
  destruct (sq_load_end n (MkSQ false f1 (replay ∅ rs))) as (f2 & Hl2 & Hd2 & Hc2 & Hs2); [done|].
  unfold OpenSendQueue, wrap_err. rewrite Hn, Hl1. cbn [new_sq q_done q_entries].
  rewrite Hl2. eexists. split; [done|]. split_and!; [done| |done].
  split; simpl; [done| |done|done]. rewrite Hd2. simpl. by rewrite Hd1.
Qed.

(** ** Writing *)

Lemma write_step msg bs q :
  at_end (q_file q) →
  ∃ f r bs', wrapM msg (on_qfile (file_write bs)) q = (set_q_file f q, r)
  ∧ f_data f = f_data (q_file q) ++ bs' ∧ at_end f
  ∧ ((r = Ok tt ∧ bs' = bs ∧ faults (f_script (q_file q)) = faults (f_script f))
     ∨ ((∃ e, r = Err e) ∧ bs' `prefix_of` bs
        ∧ faults (f_script (q_file q)) = S (faults (f_script f)))).
Proof.
  intros [Ho Hp]. destruct (file_write_cases bs (q_file q) Ho Hp) as (s & r & bs' & Hw & Hc).
  unfold wrapM, on_err, on_qfile, zoom. rewrite Hw.
  destruct Hc as [(-> & -> & Hf)|([c ->] & Hpre & Hf)]; eexists _, _, _; (split; [done|]);
    simpl; (split; [done|]); (split; [split; [done|]; simpl; rewrite length_app; lia|]).
  - by left.
  - right. split; [by eexists|done].
Qed.

Lemma sys_step {A} msg (m : M file A) q :
  f_closed (q_file q) = false →
  ∃ s, (wrapM msg (on_qfile (syscall m)) q
          = wrapM msg (on_qfile m) (set_q_file (File (f_data (q_file q)) (f_pos (q_file q)) false s) q)
        ∧ faults (f_script (q_file q)) = faults s)
     ∨ ((∃ e, wrapM msg (on_qfile (syscall m)) q
          = (set_q_file (File (f_data (q_file q)) (f_pos (q_file q)) false s) q, Err e))
        ∧ faults (f_script (q_file q)) = S (faults s)).
Proof.
  intros Ho. unfold wrapM, on_err, on_qfile, zoom.
  destruct (syscall_cases m (q_file q) Ho) as [(s & Hs & Hf)|(s & c & Hs & Hf)];
    rewrite Hs; exists s; [by left|right]. simpl. eauto.
Qed.

(** What [add_record] appends, and how its outcome depends on the disk. *)
Definition add_outcome (id : vec u8 16) (d : bytes) (q q' : SendQueue) (r : res unit) : Prop :=
  ∃ f bs, q' = set_q_file f q ∧ f_closed f = false
  ∧ f_data f = f_data (q_file q) ++ bs ∧ bs `prefix_of` rec_frame (id, d)
  ∧ ((r = Ok tt ∧ bs = rec_frame (id, d) ∧ faults (f_script (q_file q)) = faults (f_script f))
     ∨ ((∃ e, r = Err e) ∧ faults (f_script (q_file q)) ≠ 0)).

Lemma add_record_spec id d q :
  rec_ok (id, d) → f_closed (q_file q) = false →
  let '(q', r) := add_record id d q in add_outcome id d q q' r.
Proof.
  intros Hok Ho. unfold add_record, add_outcome, rec_frame; cbn [fst snd].
  unfold mbind, M_bind, lift. rewrite le_put32_whole.
  unfold rec_ok in Hok. rewrite uval_to_uint_small by (simpl in *; lia).
  unfold file_seek_end.
  destruct (sys_step "failed to seek to end of send queue"
    (modify (λ f, set_f_pos (length (f_data f)) f)) q Ho) as (s & [[-> H0]|[[e ->] H0]]); cycle 1.
  { eexists _, []. split_and!; [done..|by rewrite app_nil_r|apply prefix_nil|].
    right. split; [by eexists|lia]. }
  unfold wrapM at 1, on_err, on_qfile at 1, zoom, modify. cbn beta iota.
  set (q0 := set_q_file _ (set_q_file _ q)).
  destruct (write_step "failed to write entry ID to send queue" id q0)
    as (f1 & r1 & b1 & -> & Hd1 & He1 & [(-> & -> & H1)|([e ->] & Hp1 & H1)]); [done|..]; cycle 1.
  { eexists f1, b1. split_and!; [done|apply He1|done|by apply prefix_app_r|].
    right. split; [by eexists|]. simpl in H1. lia. }
  destruct (write_step "failed to write entry length to send queue" (le_bytes 4 (Z.of_nat (length d)))
    (set_q_file f1 q0)) as (f2 & r2 & b2 & -> & Hd2 & He2 & [(-> & -> & H2)|([e ->] & Hp2 & H2)]);
    [done|..]; cycle 1.
  { eexists f2, (vec_to_list id ++ b2). simpl in Hd1, Hd2, H1, H2.
    split_and!; [done|apply He2|by rewrite Hd2, Hd1, <- app_assoc
      |by apply prefix_app, prefix_app_r|]. right. split; [by eexists|lia]. }
  destruct (write_step "failed to write entry data to send queue" d
    (set_q_file f2 (set_q_file f1 q0)))
    as (f3 & r3 & b3 & -> & Hd3 & He3 & [(-> & -> & H3)|([e ->] & Hp3 & H3)]);
    [done|..]; cycle 1.
  { eexists f3, (vec_to_list id ++ le_bytes 4 (Z.of_nat (length d)) ++ b3).
    simpl in Hd1, Hd2, Hd3, H1, H2, H3.
    split_and!; [done|apply He3|by rewrite Hd3, Hd2, Hd1, <- !app_assoc
      |by do 2 apply prefix_app|]. right. split; [by eexists|lia]. }
  unfold file_sync.
  destruct (sys_step "failed to sync send queue" (mret tt) (set_q_file f3 (set_q_file f2 (set_q_file f1 q0))))
    as (s' & [[-> H4]|[[e ->] H4]]); [apply He3| |];
    simpl in Hd1, Hd2, Hd3, H1, H2, H3, H4; cbn;
    eexists _, (vec_to_list id ++ le_bytes 4 (Z.of_nat (length d)) ++ d);
    (split_and!; [done|done|by rewrite Hd3, Hd2, Hd1, <- !app_assoc|done|]).
  - left. split_and!; [done|done|simpl; lia].
  - right. split; [by eexists|lia].
Qed.

Lemma Add_known id d q x : q_entries q !! id = Some x → Add id d q = (q, Ok tt).
Proof. intros H. unfold Add, mbind, M_bind, gets. rewrite bool_decide_true; [done|by eexists]. Qed.

Lemma Add_new id d q :
  q_entries q !! id = None →
  Add id d q = (add_record id d;; modify (upd_entries <[id := d]>)) q.
Proof.
  intros H. unfold Add. unfold mbind at 1, M_bind at 1, gets. rewrite bool_decide_false; [done|].
  rewrite H. by intros [].
Qed.

(** [Add] of a new ID: the record is at the end of the file and in the map, or
    the call failed, the map is unchanged and some part of the record was
    written. *)
Lemma Add_cases id d q q' r :
  rec_ok (id, d) → f_closed (q_file q) = false → q_entries q !! id = None →
  Add id d q = (q', r) →
  f_closed (q_file q') = false ∧ ∃ bs, bs `prefix_of` rec_frame (id, d)
  ∧ f_data (q_file q') = f_data (q_file q) ++ bs
  ∧ ((r = Ok tt ∧ bs = rec_frame (id, d) ∧ q_entries q' = <[id := d]> (q_entries q)
      ∧ faults (f_script (q_file q)) = faults (f_script (q_file q')))
     ∨ ((∃ e, r = Err e) ∧ q_entries q' = q_entries q ∧ faults (f_script (q_file q)) ≠ 0)).
Proof.
  intros Hok Ho Hn Hadd. rewrite (Add_new _ _ _ Hn) in Hadd. unfold mbind, M_bind, modify in Hadd.
  pose proof (add_record_spec id d q Hok Ho) as Hs. destruct (add_record id d q) as [q1 r1].
  destruct Hs as (f & bs & -> & Hc & Hd & Hp & [(-> & -> & Hf)|([e ->] & Hf)]); simplify_eq/=;
    (split; [done|]); eexists; (split; [done|split; [done|]]); [by left|right; eauto].
Qed.

Lemma sync_ignored q :
  f_closed (q_file q) = false →
  ∃ f, ignore (on_qfile file_sync) q = (set_q_file f q, Ok tt)
  ∧ f_closed f = false ∧ f_data f = f_data (q_file q)
  ∧ (faults (f_script (q_file q)) = 0 → faults (f_script f) = 0).
Proof.
  intros Ho. unfold ignore, on_qfile, zoom, file_sync.
  destruct (syscall_cases (mret tt) (q_file q) Ho) as [(s & -> & H)|(s & c & -> & H)];
    eexists; (split; [done|]); (split_and!; [done..|simpl; lia]).
Qed.

Lemma empty_ignored q :
  f_closed (q_file q) = false →
  ∃ f, ignore (on_qfile (file_truncate 0);; on_qfile (file_seek_start 0)) q = (set_q_file f q, Ok tt)
  ∧ f_closed f = false ∧ (f_data f = f_data (q_file q) ∨ f_data f = [])
  ∧ (faults (f_script (q_file q)) = 0 → faults (f_script f) = 0 ∧ f_data f = []).
Proof.
  intros Ho. unfold ignore, mbind, M_bind, on_qfile, zoom, file_truncate, file_seek_start.
  destruct (syscall_cases (modify (λ f, set_f_data (resize 0 (U8 0) (f_data f)) f)) (q_file q) Ho)
    as [(s & -> & H)|(s & c & -> & H)]; try unfold modify at 1; cbn [q_file set_q_file]; cycle 1.
  { eexists. split; [done|]. split_and!; [done|by left|lia]. }
  set (f1 := set_f_data _ _).
  destruct (syscall_cases (modify (set_f_pos 0)) f1) as [(s' & -> & H')|(s' & c & -> & H')];
    [done| |]; eexists; (split; [done|]); simpl in *; rewrite resize_0;
    (split_and!; [done|by right|split; [lia|done]]).
Qed.

(** [Ack] removes the entry, and empties the file only when nothing is left. *)
Lemma Ack_cases id q q' r :
  f_closed (q_file q) = false → Ack id q = (q', r) →
  r = Ok tt ∧ f_closed (q_file q') = false ∧ q_entries q' = delete id (q_entries q)
  ∧ (f_data (q_file q') = f_data (q_file q)
     ∨ (f_data (q_file q') = [] ∧ q_entries q' = ∅))
  ∧ (faults (f_script (q_file q)) = 0 → faults (f_script (q_file q')) = 0
     ∧ (q_entries q ≠ ∅ → q_entries q' = ∅ → f_data (q_file q') = [])).
Proof.
  intros Ho. unfold Ack. unfold mbind at 1, M_bind at 1, gets at 1.
  destruct (decide (size (q_entries q) = 0)) as [Hz|Hz].
  { intros [= <- <-]. apply map_size_empty_iff in Hz. rewrite Hz.
    split_and!; [done..|by rewrite delete_empty|by left|done]. }
  unfold mbind, M_bind, modify, gets. set (q1 := upd_entries (delete id) q).
  destruct (decide (size (q_entries q1) = 0)) as [Hz'|Hz'].
  - apply map_size_empty_iff in Hz'.
    destruct (empty_ignored q1 Ho) as (f1 & Hq1 & Hc1 & Hd1 & Hf1).
    unfold mbind, M_bind in Hq1. rewrite Hq1.
    destruct (sync_ignored (set_q_file f1 q1)) as (f2 & -> & Hc2 & Hd2 & Hf2); [done|].
    intros [= <- <-]. cbn in *. rewrite Hd2. split_and!; [done..| |].
    + destruct Hd1; auto.
    + intros ?. destruct Hf1; auto.
  - destruct (sync_ignored q1 Ho) as (f2 & Hq2 & Hc2 & Hd2 & Hf2).
    unfold mret, M_ret. rewrite Hq2. intros [= <- <-]. cbn in *. split_and!; [done..|by left|]. intros. split; [auto|].
    intros _ He. by rewrite He, map_size_empty in Hz'.
Qed.

(** *** Both operations return, whatever the disk answers *)

Lemma file_ops_total :
  (∀ n, total (file_truncate n)) ∧ (∀ n, total (file_seek_start n)) ∧ total file_seek_end
  ∧ total file_sync.
Proof. split_and!; intros; by apply file_total_syscall. Qed.

Lemma Ack_total id : total (Ack id).
Proof.
  destruct file_ops_total as (Ht & Hs & He & Hy). unfold Ack, on_qfile.
  apply total_bind; [done|]. intros n. case_decide; [done|].
  apply total_bind; [done|]. intros _. apply total_bind; [done|]. intros n2.
  case_decide; auto 10 with go.
Qed.

Lemma Add_total id data : total (Add id data).
Proof.
  destruct file_ops_total as (Ht & Hs & He & Hy). unfold Add, add_record, on_qfile.
  assert (returns (le_put32 (zeros 4) 0 4 (U32 (Z.of_nat (length data)))))
    by (by rewrite le_put32_whole).
  pose proof file_total_write. apply total_bind; [done|]. intros [|]; [done|].
  repeat (apply total_bind; [|intros ?]); auto with go.
Qed.

(** ** Keeping the file behind the map *)

Lemma replay_covers_insert id d m rs :
  m ⊆ replay ∅ rs → <[id := d]> m ⊆ replay ∅ (rs ++ [(id, d)]).
Proof. intros H. rewrite replay_app. by apply insert_mono. Qed.

Lemma replay_covers_extra id d m rs :
  m !! id = None → m ⊆ replay ∅ rs → m ⊆ replay ∅ (rs ++ [(id, d)]).
Proof. intros Hn H. rewrite replay_app. simpl. by apply insert_subseteq_r. Qed.

Lemma backs_Ack id q q' r rs :
  backs q rs → Ack id q = (q', r) → ∃ rs', backs q' rs' ∧ rs' `prefix_of` rs.
Proof.
  intros [Ho Hd Hk Hc] Ha. destruct (Ack_cases id q q' r Ho Ha) as (_ & Ho' & He & Hd' & _).
  destruct Hd' as [Hd'|[Hd' He']].
  - exists rs. split; [|done]. split; [done|congruence|done|].
    rewrite He. etrans; [apply delete_subseteq|done].
  - exists []. split; [|apply prefix_nil]. split; [done|done|done|].
    rewrite He'. apply map_empty_subseteq.
Qed.

Lemma backs_Add_ok id d q q' rs :
  rec_ok (id, d) → backs q rs → Add id d q = (q', Ok tt) →
  ∃ rs', backs q' rs' ∧ rs' `prefix_of` rs ++ [(id, d)].
Proof.
  intros Hok Hb Ha. pose proof Hb as [Ho Hd Hk Hc]. destruct (q_entries q !! id) as [x|] eqn:Hx.
  { rewrite (Add_known _ _ _ _ Hx) in Ha. simplify_eq. exists rs. split; [done|by eexists]. }
  destruct (Add_cases id d q q' (Ok tt) Hok Ho Hx Ha)
    as (Ho' & bs & Hp & Hd' & [(_ & -> & He & _)|([e [=]] & _)]).
  exists (rs ++ [(id, d)]). split; [|done]. split; [done| |by apply Forall_app_2; [|constructor]|].
  - rewrite Hd', Hd, rec_bytes_app, rec_bytes_cons. unfold rec_bytes; simpl. by rewrite app_nil_r.
  - rewrite He. by apply replay_covers_insert.
Qed.

(** The entries are among the records of the file. *)
Lemma replay_lookup rs m id d :
  replay m rs !! id = Some d → (id, d) ∈ rs ∨ m !! id = Some d.
Proof.
  revert m. induction rs as [|[i x] rs IH]; intros m; simpl; [by right|].
  intros [Hin|Hm]%IH; [left; by right|]. apply lookup_insert_Some in Hm as [[-> ->]|[_ Hm]]; [left; by left|by right].
Qed.

Lemma backs_lookup q rs id d : backs q rs → q_entries q !! id = Some d → (id, d) ∈ rs.
Proof.
  intros [_ _ _ Hc] Hq. destruct (replay_lookup rs ∅ id d) as [?|He]; [|done|].
  - by eapply lookup_weaken.
  - by rewrite lookup_empty in He.
Qed.

Lemma reopen_covers q rs :
  backs q rs →
  ∃ q', OpenSendQueue (Ok (open_file (f_data (q_file q)) [])) = (None, Ok q')
  ∧ q_entries q ⊆ q_entries q'.
Proof.
  intros [Ho Hd Hk Hc]. rewrite Hd. destruct (OpenSendQueue_records rs Hk) as (q' & Hq & He & _).
  exists q'. by rewrite He.
Qed.

(** With a disk that refuses nothing, [Add] succeeds. *)
Lemma Add_nofault id d q :
  rec_ok (id, d) → f_closed (q_file q) = false → faults (f_script (q_file q)) = 0 →
  ∃ q', Add id d q = (q', Ok tt) ∧ q_entries q' = sq_spec (q_entries q) (OpAdd id d)
  ∧ faults (f_script (q_file q')) = 0.
Proof.
  intros Hok Ho Hf. simpl. destruct (q_entries q !! id) as [x|] eqn:Hx.
  { rewrite (Add_known _ _ _ _ Hx). by eexists. }
  destruct (Add id d q) as [q' r] eqn:Ha.
  destruct (Add_cases id d q q' r Hok Ho Hx Ha)
    as (Ho' & bs & Hp & Hd' & [(-> & -> & He & Hf')|(_ & _ & ?)]); [|done].
  exists q'. split_and!; [done..|congruence].
Qed.

Lemma sq_exec_step q o rs :
  op_ok o → backs q rs → faults (f_script (q_file q)) = 0 →
  q_entries (sq_exec q o) = sq_spec (q_entries q) o
  ∧ faults (f_script (q_file (sq_exec q o))) = 0 ∧ ∃ rs', backs (sq_exec q o) rs'.
Proof.
  intros Hok Hb Hf. destruct o as [id d|id]; cbn [sq_exec].
  - destruct (Add_nofault id d q Hok (b_open q rs Hb) Hf) as (q' & Ha & He & Hf').
    rewrite Ha. split_and!; [done..|]. destruct (backs_Add_ok _ _ _ _ _ Hok Hb Ha) as (? & ? & _); eauto.
  - destruct (Ack id q) as [q' r] eqn:Ha.
    destruct (Ack_cases id q q' r (b_open q rs Hb) Ha) as (_ & _ & He & _ & Hf').
    split_and!; [done|by apply Hf'|destruct (backs_Ack _ _ _ _ _ Hb Ha) as (? & ? & _); eauto].
Qed.

Lemma sq_exec_run q ops rs :
  Forall op_ok ops → backs q rs → faults (f_script (q_file q)) = 0 →
  q_entries (foldl sq_exec q ops) = foldl sq_spec (q_entries q) ops
  ∧ ∃ rs', backs (foldl sq_exec q ops) rs'.
Proof.
  intros Hok. revert q rs. induction Hok as [|o ops Ho Hok IH]; intros q rs Hb Hf; simpl; [eauto|].
  destruct (sq_exec_step q o rs Ho Hb Hf) as (He & Hf' & rs' & Hb').
  rewrite <- He. by eapply IH.
Qed.

(** ** Torn records *)

Lemma wrapped_short msg n R q :
  reading (q_file q) R → length R < n →
  ∃ f e, wrapM msg (on_qfile (file_read_full n)) q = (set_q_file f q, Err e)
    ∧ f_closed f = false ∧ f_script f = [].
Proof.
  intros Hrd Hl. destruct (file_read_full_short n _ _ Hrd Hl) as (f & Hr & Hc & Hs).
  unfold wrapM, on_err, on_qfile, zoom. rewrite Hr. by eexists _, _.
Qed.

Lemma wrapped_full msg n l R q :
  reading (q_file q) (l ++ R) → length l = n →
  ∃ f, wrapM msg (on_qfile (file_read_full n)) q = (set_q_file f q, Ok l) ∧ reading f R.
Proof.
  intros Hrd Hl. destruct (file_read_full_app n _ _ _ Hrd Hl) as (f & Hr & Hrd' & _).
  unfold wrapM, on_err, on_qfile, zoom. rewrite Hr. by eexists.
Qed.

(** The length and the data of a record that stops before its end. *)
Lemma load_record_cut id0 d R q :
  rec_ok (id0, d) → R `prefix_of` le_bytes 4 (Z.of_nat (length d)) ++ d →
  length R < 4 + length d → reading (q_file q) R →
  ∃ f e, load_record id0 q = (set_q_file f q, Err e) ∧ f_closed f = false ∧ f_script f = [].
Proof.
  intros Hok Hpre Hl Hrd. unfold load_record. unfold mbind at 1, M_bind at 1.
  destruct (decide (length R < 4)) as [Hs|Hs].
  { destruct (wrapped_short "send queue: failed to read entry length" 4 R q Hrd Hs)
      as (f & e & -> & Hc & Hsc). by eexists _, _. }
  apply prefix_take_length in Hpre. rewrite take_app_ge in Hpre by (rewrite length_le_bytes; lia).
  rewrite Hpre in Hrd, Hl. rewrite length_app, length_le_bytes in Hl.
  destruct (wrapped_full "send queue: failed to read entry length" 4 _ _ q Hrd) as (f & -> & Hrd');
    [len|].
  unfold mbind at 1, M_bind at 1, lift. pose proof (rec_length _ Hok) as Hn. unfold rec_ok in Hok.
  cbn [snd] in Hok, Hn. rewrite le_Uint32_length by done. unfold mbind, M_bind. rewrite Hn.
  edestruct (wrapped_short "send queue: failed to read entry data" (length d) _ (set_q_file f q) Hrd')
    as (f' & e & -> & Hc & Hsc); [rewrite length_le_bytes; lia|]. by eexists _, _.
Qed.

Lemma load_cut fuel r bs q :
  rec_ok r → bs `prefix_of` rec_frame r → 0 < length bs < length (rec_frame r) →
  reading (q_file q) bs →
  ∃ q' e, loadSendQueue (S fuel) q = (q', Err e)
    ∧ f_closed (q_file q') = false ∧ f_script (q_file q') = [].
Proof.
  intros Hok Hpre Hl Hrd. rewrite length_rec_frame in Hl. unfold rec_frame in Hpre.
  cbn [loadSendQueue]. unfold mbind at 1, M_bind at 1, read_id, on_qfile at 1, zoom at 1.
  destruct (decide (length bs < 16)) as [Hs|Hs].
  { destruct (file_read_full_short 16 _ _ Hrd Hs) as (f & -> & Hc & Hsc).
    rewrite decide_False by (intros ->; simpl in Hl; lia). by eexists _, _. }
  apply prefix_take_length in Hpre. rewrite take_app_ge in Hpre by (rewrite length_vec_to_list; lia).
  set (R := take _ _) in Hpre.
  assert (R `prefix_of` le_bytes 4 (Z.of_nat (length r.2)) ++ r.2) as HR by apply take_prefix.
  assert (length R < 4 + length r.2) as HlR.
  { rewrite Hpre, length_app, length_vec_to_list in Hl. lia. }
  rewrite Hpre in Hrd.
  destruct (file_read_full_app 16 _ _ _ Hrd) as (f & -> & Hrd' & _); [len|].
  unfold mbind, M_bind.
  destruct (load_record_cut (arr_of 16 r.1) r.2 R (set_q_file f q)) as (f' & e & -> & Hc & Hsc);
    [by destruct r|done..|]. by eexists _, _.
Qed.

Lemma OpenSendQueue_torn rs r bs :
  Forall rec_ok rs → rec_ok r → bs `prefix_of` rec_frame r → 0 < length bs < length (rec_frame r) →
  ∃ f e, OpenSendQueue (Ok (open_file (rec_bytes rs ++ bs) [])) = (Some f, Err e)
    ∧ f_closed f = true.
Proof.
  intros Hrs Hr Hpre Hl. set (f0 := open_file _ []).
  destruct (sq_fuel_split rs bs f0) as [n Hn]; [done|].
  destruct (load_records (S n) rs bs (new_sq f0) Hrs) as (f1 & Hl1 & Hrd1 & _); [apply reading_open|].
  destruct (load_cut n r bs (MkSQ false f1 (replay ∅ rs)) Hr Hpre Hl) as (q' & e & Hl2 & Hc & Hs);
    [done|].
  assert (loadSendQueue (sq_fuel f0) (new_sq f0) = (q', Err e)) as Hload by (by rewrite Hn, Hl1).
  unfold OpenSendQueue, wrap_err. rewrite Hload. eexists _, e. split; [done|].
  unfold sq_Close, mbind, M_bind, modify, ignore, on_qfile, zoom; simpl.
  by destruct (file_close_cases (q_file q')) as (s & [] & -> & _).
Qed.

(** ** Termination of loading *)

Lemma read_id_total q :
  let '(q', r) := read_id q in
  returns r ∧ (∀ id, r = Ok (Some id) → length (f_rest (q_file q')) < length (f_rest (q_file q))).
Proof.
  unfold read_id, on_qfile, zoom. pose proof (file_read_full_progress 16 (q_file q)) as Hp.
  destruct (file_read_full 16 (q_file q)) as [f [bs|e| |]]; destruct Hp as [Hr Hb]; simpl.
  - destruct (Hb bs eq_refl) as [Hl Hf]. split; [done|]. intros. lia.
  - destruct e; (split; [done|by intros ? [=]]).
  - by destruct Hr.
  - by destruct Hr.
Qed.

Lemma wrapped_progress msg n q :
  let '(q', r) := wrapM msg (on_qfile (file_read_full n)) q in
  returns r ∧ ∀ bs, r = Ok bs → length bs = n ∧ length (f_rest (q_file q')) ≤ length (f_rest (q_file q)).
Proof.
  unfold wrapM, on_err, on_qfile, zoom. pose proof (file_read_full_progress n (q_file q)) as Hp.
  destruct (file_read_full n (q_file q)) as [f [bs|e| |]]; destruct Hp as [Hr Hb]; [|done|by destruct Hr..].
  simpl. split; [done|]. intros bs' Hbs. destruct (Hb bs' Hbs). split; [done|lia].
Qed.

Lemma load_record_total id q :
  let '(q', r) := load_record id q in
  returns r ∧ (r = Ok tt → length (f_rest (q_file q')) ≤ length (f_rest (q_file q))).
Proof.
  unfold load_record, mbind, M_bind.
  pose proof (wrapped_progress "send queue: failed to read entry length" 4 q) as H1.
  destruct (wrapM _ _ q) as [q1 [lb|e| |]]; destruct H1 as [Hr1 H1]; [|done|by destruct Hr1..].
  destruct (H1 lb eq_refl) as [Hl Hle]. unfold lift, le_Uint32. rewrite fixed_ok by done.
  cbn [mbind res_bind].
  pose proof (wrapped_progress "send queue: failed to read entry data"
    (Z.to_nat (uval (U32 (le_value lb)))) q1) as H2.
  destruct (wrapM _ _ q1) as [q2 [d|e| |]]; destruct H2 as [Hr2 H2]; [|done|by destruct Hr2..].
  destruct (H2 d eq_refl). simpl. split; [done|]. intros _. lia.
Qed.

Lemma sq_load_total fuel q :
  length (f_rest (q_file q)) < fuel → returns (snd (loadSendQueue fuel q)).
Proof.
  revert q. induction fuel as [|fuel IH]; intros q Hf; [lia|]. cbn [loadSendQueue].
  unfold mbind at 1, M_bind at 1. pose proof (read_id_total q) as Hi.
  destruct (read_id q) as [q1 [[id|]|e| |]]; destruct Hi as [Hr Hi]; [|done|done|by destruct Hr..].
  unfold mbind, M_bind. pose proof (load_record_total id q1) as Hb.
  destruct (load_record id q1) as [q2 [[]|e| |]]; destruct Hb as [Hr' Hb]; [|done|by destruct Hr'..].
  apply IH. specialize (Hi id eq_refl). specialize (Hb eq_refl). lia.
Qed.

(** ** Properties *)

Lemma Add_error_cases id d q q' e rs :
  rec_ok (id, d) → backs q rs → Add id d q = (q', Err e) →
  q_entries q' = q_entries q
  ∧ ((∃ rs', backs q' rs')
     ∨ ∃ f err, OpenSendQueue (Ok (open_file (f_data (q_file q')) [])) = (Some f, Err err)).
Proof.
  intros Hok [Ho Hd Hk Hc] Ha. destruct (q_entries q !! id) as [x|] eqn:Hx.
  { rewrite (Add_known _ _ _ _ Hx) in Ha. simplify_eq. }
  destruct (Add_cases id d q q' (Err e) Hok Ho Hx Ha)
    as (Ho' & bs & Hp & Hd' & [([=] & _)|(_ & He & _)]).
  split; [done|]. destruct (decide (length bs = 0)) as [->%length_zero_iff_nil|Hn].
  { left. exists rs. split; [done|by rewrite Hd', Hd, app_nil_r|done|by rewrite He]. }
  destruct (decide (length bs < length (rec_frame (id, d)))) as [Hl|Hl]; [right|left].
  - destruct (OpenSendQueue_torn rs (id, d) bs) as (f & err & Hopen & _); [done..|lia|].
    exists f, err. by rewrite Hd', Hd.
  - exists (rs ++ [(id, d)]). apply prefix_length_eq in Hp; [|lia].
    split; [done| |by apply Forall_app_2; [|constructor]|].
    + rewrite Hd', Hd, Hp, rec_bytes_app, rec_bytes_cons. unfold rec_bytes; simpl.
      by rewrite app_nil_r.
    + rewrite He. by apply replay_covers_extra.
Qed.

(** C7: a queue opened from its file and used by any sequence of [Add] and [Ack]
    holds exactly the entries added and not acknowledged since (on top of what
    the file held), all of them are in [Pending], and a restart at any point finds
    them again. *)
Theorem send_queue_refines rs ops :
  Forall rec_ok rs → Forall op_ok ops →
  ∃ q0 q1, OpenSendQueue (Ok (open_file (rec_bytes rs) [])) = (None, Ok q0)
  ∧ let q := foldl sq_exec q0 ops in
    q_entries q = foldl sq_spec (replay ∅ rs) ops
    ∧ (∀ id d, q_entries q !! id = Some d → d ∈ Pending q)
    ∧ OpenSendQueue (Ok (open_file (f_data (q_file q)) [])) = (None, Ok q1)
    ∧ q_entries q ⊆ q_entries q1.
Proof.
  intros Hrs Hops. destruct (OpenSendQueue_records rs Hrs) as (q0 & Ho & He & Hb & Hs).
  destruct (sq_exec_run q0 ops rs Hops Hb) as (He' & rs' & Hb'); [by rewrite Hs|].
  destruct (reopen_covers _ _ Hb') as (q1 & Ho1 & Hsub).
  exists q0, q1. split; [done|]. cbv zeta. rewrite <- He. split_and!; [done| |done..].
  intros id d Hid. unfold Pending. apply list_elem_of_fmap.
  exists (id, d). split; [done|]. by apply elem_of_map_to_list.
Qed.

Definition ex_id (n : Z) : vec u8 16 := arr_of 16 [U8 n].

Lemma send_queue_refines_witness :
  let rs := [(ex_id 1, [U8 10])] in
  let ops := [OpAdd (ex_id 2) [U8 20; U8 21]; OpAck (ex_id 1); OpAck (ex_id 2);
              OpAdd (ex_id 3) []] in
  Forall rec_ok rs ∧ Forall op_ok ops
  ∧ ∃ q0 q1, OpenSendQueue (Ok (open_file (rec_bytes rs) [])) = (None, Ok q0)
  ∧ let q := foldl sq_exec q0 ops in
    q_entries q = foldl sq_spec (replay ∅ rs) ops
    ∧ (∀ id d, q_entries q !! id = Some d → d ∈ Pending q)
    ∧ OpenSendQueue (Ok (open_file (f_data (q_file q)) [])) = (None, Ok q1)
    ∧ q_entries q ⊆ q_entries q1.
Proof.
  intros rs ops.
  assert (Forall rec_ok rs) as H1 by (repeat constructor; vm_compute; reflexivity).
  assert (Forall op_ok ops) as H2 by (repeat constructor; vm_compute; reflexivity).
  split; [exact H1|]. split; [exact H2|]. exact (send_queue_refines rs ops H1 H2).
Defined.

(** C26: what a disk that refuses calls can do to the queue.  [Ack] and a
    successful [Add] leave a file that covers the map; a failed [Add] leaves the
    map unchanged, but nothing cuts a partly written record off again, and then
    the file is one that [OpenSendQueue] refuses at the next start. *)
Theorem send_queue_faults id d q q' r rs :
  rec_ok (id, d) → backs q rs →
  (Ack id q = (q', r) →
     r = Ok tt ∧ q_entries q' = delete id (q_entries q) ∧ ∃ rs', backs q' rs')
  ∧ (Add id d q = (q', r) →
     (r = Ok tt ∧ q_entries q' = sq_spec (q_entries q) (OpAdd id d) ∧ ∃ rs', backs q' rs')
     ∨ ((∃ e, r = Err e) ∧ q_entries q' = q_entries q
        ∧ ((∃ rs', backs q' rs')
           ∨ ∃ f err, OpenSendQueue (Ok (open_file (f_data (q_file q')) [])) = (Some f, Err err)))).
Proof.
  intros Hok Hb. pose proof (b_open q rs Hb) as Ho. split.
  - intros Ha. destruct (Ack_cases id q q' r Ho Ha) as (-> & _ & He & _).
    split_and!; [done..|]. destruct (backs_Ack _ _ _ _ _ Hb Ha) as (? & ? & _); eauto.
  - intros Ha. simpl. destruct (q_entries q !! id) as [x|] eqn:Hx.
    { rewrite (Add_known _ _ _ _ Hx) in Ha. simplify_eq. left. eauto. }
    destruct (Add_cases id d q q' r Hok Ho Hx Ha)
      as (_ & _ & _ & _ & [(-> & _ & He & _)|([e ->] & _)]); [left|right].
    + split_and!; [done..|]. destruct (backs_Add_ok _ _ _ _ _ Hok Hb Ha) as (? & ? & _); eauto.
    + split; [by eexists|]. by eapply Add_error_cases.
Qed.

(** The disk accepts the seek, the ID and the length, then fails in the data. *)
Definition ex_torn : SendQueue :=
  MkSQ false (File [] 0 false [Done; Done; Done; Fails 1 28]) ∅.

Lemma send_queue_faults_witness :
  let q := ex_torn in let id := ex_id 7 in let d := [U8 1; U8 2] in
  ∃ q' r, Add id d q = (q', r) ∧ r ≠ Ok tt ∧ length (f_data (q_file q')) = 21
  ∧ ((r = Ok tt ∧ q_entries q' = sq_spec (q_entries q) (OpAdd id d) ∧ ∃ rs', backs q' rs')
     ∨ ((∃ e, r = Err e) ∧ q_entries q' = q_entries q
        ∧ ((∃ rs', backs q' rs')
           ∨ ∃ f err, OpenSendQueue (Ok (open_file (f_data (q_file q')) [])) = (Some f, Err err)))).
Proof.
  intros q id d. destruct (Add id d q) as [q' r] eqn:Ha. exists q', r. split; [reflexivity|].
  assert (backs q []) as Hb by (split; [reflexivity|reflexivity|constructor|apply map_empty_subseteq]).
  assert (rec_ok (id, d)) as Hok by (vm_compute; reflexivity).
  pose proof (proj2 (send_queue_faults id d q q' r [] Hok Hb) Ha) as H.
  apply (f_equal (λ x, (length (f_data (q_file x.1)), bool_decide (x.2 = Ok tt)))) in Ha.
  vm_compute in Ha. injection Ha as Hl Hr. split; [|split; [symmetry; exact Hl|exact H]].
  intros ->. discriminate Hr.
Defined.

(** Opening the queue always ends, on any file contents and whatever the disk
    answers, with a queue or with an error. *)
Lemma OpenSendQueue_returns (data : bytes) (script : list outcome) :
  returns (snd (OpenSendQueue (Ok (open_file data script)))).
Proof.
  unfold OpenSendQueue, wrap_err. set (f := open_file data script).
  assert (returns (snd (loadSendQueue (sq_fuel f) (new_sq f)))) as [Hp Hf].
  { apply sq_load_total. unfold f_rest, sq_fuel, f; simpl. rewrite drop_0. lia. }
  destruct (loadSendQueue (sq_fuel f) (new_sq f)) as [q [[]|e| |]]; simpl in *;
    [done|done|by destruct Hp|by destruct Hf].
Qed.
