(* ===== verification/ClientPorts.v ===== *)
(** * The outgoing channels of a client session

    [Session.Send], [TrySend], [SendUplink] and [TrySendUplink]
    (client/internal/game/session.go and uplink.go): what the handlers of the
    client do to [msgOut] and [uplinkOut], and what is taken from them. *)

From stdpp Require Import base list strings numbers tactics.
From Stdlib Require Import ZArith Lia.
From S2P Require Import Prelude Words GoIO Packet IpcMsg.

(** ** The ports of a session

    [p_done] is [ctx.Err() != nil].  [p_picks] are the choices of a [select] with
    several ready cases: [true] takes the send. *)

Record Ports : Type := MkPorts {
  p_done : bool;
  p_picks : list bool;
  p_msgOut : port ipc.Message;
  p_uplinkOut : port Packet;
}.

Definition set_msgOut (c : port ipc.Message) (p : Ports) : Ports :=
  MkPorts (p_done p) (p_picks p) c (p_uplinkOut p).
Definition set_uplinkOut (c : port Packet) (p : Ports) : Ports :=
  MkPorts (p_done p) (p_picks p) (p_msgOut p) c.

(** [select { case c <- x: case <-ctx.Done(): }], with both cases ready. *)
Definition pick : M Ports bool := λ p,
  match p_picks p with
  | [] => (p, Ok true)
  | b :: bs => (MkPorts (p_done p) bs (p_msgOut p) (p_uplinkOut p), Ok b)
  end.

(** Whether a [select] between a send on [c] and [ctx.Done()] sends. *)
Definition chooses {A} (c : port A) : M Ports bool := λ p,
  if p_done p then
    if chan_ready (pt_chan c) then pick p else (p, Ok false)
  else (p, Ok true).

Definition Send (msg : ipc.Message) : M Ports unit := λ p,
  (go ← chooses (p_msgOut p);
   if (go : bool) then modify (λ p, set_msgOut (port_send msg (p_msgOut p)) p) else mret tt) p.

Definition TrySend (msg : ipc.Message) : M Ports unit := λ p,
  if chan_ready (pt_chan (p_msgOut p)) then
    (go ← chooses (p_msgOut p);
     if (go : bool) then modify (λ p, set_msgOut (port_push msg (p_msgOut p)) p) else mret tt) p
  else (p, Ok tt).

Definition SendUplink (pkt : Packet) : M Ports unit := λ p,
  (go ← chooses (p_uplinkOut p);
   if (go : bool) then modify (λ p, set_uplinkOut (port_send pkt (p_uplinkOut p)) p)
   else mret tt) p.

Definition TrySendUplink (pkt : Packet) : M Ports unit := λ p,
  if p_done p then (p, Ok tt)
  else if chan_ready (pt_chan (p_uplinkOut p))
  then (set_uplinkOut (port_push pkt (p_uplinkOut p)) p, Ok tt)
  else (p, Ok tt).

(** ** Facts *)

(** *** While the session lives, the choices are determined *)

Lemma Send_live msg p :
  p_done p = false → Send msg p = (set_msgOut (port_send msg (p_msgOut p)) p, Ok tt).
Proof. intros H. unfold Send, chooses, mbind, M_bind. by rewrite H. Qed.

Lemma TrySend_live msg p :
  p_done p = false →
  TrySend msg p = (if chan_ready (pt_chan (p_msgOut p))
                   then set_msgOut (port_push msg (p_msgOut p)) p else p, Ok tt).
Proof. intros H. unfold TrySend, chooses, mbind, M_bind. rewrite H. by case_match. Qed.

Lemma TrySendUplink_live pkt p :
  p_done p = false →
  TrySendUplink pkt p = (if chan_ready (pt_chan (p_uplinkOut p))
                         then set_uplinkOut (port_push pkt (p_uplinkOut p)) p else p, Ok tt).
Proof. intros H. unfold TrySendUplink. rewrite H. by case_match. Qed.

Lemma SendUplink_live pkt p :
  p_done p = false → SendUplink pkt p = (set_uplinkOut (port_send pkt (p_uplinkOut p)) p, Ok tt).
Proof. intros H. unfold SendUplink, chooses, mbind, M_bind. by rewrite H. Qed.

(** *** Whatever the choices, a send adds its element or nothing *)

Definition same_ports (p p' : Ports) : Prop :=
  p_done p' = p_done p ∧ ch_cap (pt_chan (p_msgOut p')) = ch_cap (pt_chan (p_msgOut p))
  ∧ ch_cap (pt_chan (p_uplinkOut p')) = ch_cap (pt_chan (p_uplinkOut p)).

Lemma chooses_cases {A} (c : port A) p :
  ∃ b bs, chooses c p = (MkPorts (p_done p) bs (p_msgOut p) (p_uplinkOut p), Ok b)
  ∧ (p_done p = false → b = true)
  ∧ (p_done p = true → chan_ready (pt_chan c) = false → b = false).
Proof.
  unfold chooses, pick. destruct p as [[] bs m u]; simpl; [|by eexists _, _].
  destruct (chan_ready (pt_chan c)); [|by eexists _, _].
  destruct bs; by eexists _, _.
Qed.

Lemma Send_cases msg p :
  ∃ p', Send msg p = (p', Ok tt) ∧ same_ports p p' ∧ p_uplinkOut p' = p_uplinkOut p
  ∧ (pt_sent (p_msgOut p') = pt_sent (p_msgOut p) ++ [msg]
     ∨ (p_done p = true ∧ p_msgOut p' = p_msgOut p)).
Proof.
  unfold Send, mbind, M_bind. destruct (chooses_cases (p_msgOut p) p) as (b & bs & -> & Hb & _).
  destruct b; simpl.
  - eexists. split; [done|]. simpl. rewrite pt_sent_send. split; [|split; [done|by left]].
    split_and!; [done| |done]. simpl. unfold port_send, port_take. by repeat case_match.
  - eexists. split; [done|]. split; [done|]. split; [done|]. right.
    destruct (p_done p); [done|]. by discriminate Hb.
Qed.

Lemma TrySend_cases msg p :
  ∃ p', TrySend msg p = (p', Ok tt) ∧ same_ports p p' ∧ p_uplinkOut p' = p_uplinkOut p
  ∧ (p_msgOut p' = p_msgOut p
     ∨ (p_msgOut p' = port_push msg (p_msgOut p) ∧ chan_ready (pt_chan (p_msgOut p)) = true)).
Proof.
  unfold TrySend. destruct (chan_ready (pt_chan (p_msgOut p))) eqn:Hr.
  - unfold mbind, M_bind. destruct (chooses_cases (p_msgOut p) p) as (b & bs & -> & _).
    destruct b; (eexists; split; [done|]); (split; [by split_and!|]); (split; [done|]); auto.
  - exists p. split; [done|]. split; [by split_and!|]. auto.
Qed.

Lemma TrySendUplink_cases pkt p :
  ∃ p', TrySendUplink pkt p = (p', Ok tt) ∧ same_ports p p' ∧ p_msgOut p' = p_msgOut p
  ∧ (p_uplinkOut p' = p_uplinkOut p
     ∨ (p_uplinkOut p' = port_push pkt (p_uplinkOut p) ∧ chan_ready (pt_chan (p_uplinkOut p)) = true)).
Proof.
  unfold TrySendUplink. destruct (p_done p);
    [|destruct (chan_ready (pt_chan (p_uplinkOut p))) eqn:Hr];
    (eexists; split; [done|]); (split; [by split_and!|]); (split; [done|]); auto.
Qed.

Lemma SendUplink_ports pkt p : same_ports p (fst (SendUplink pkt p)).
Proof.
  unfold SendUplink, mbind, M_bind.
  destruct (chooses_cases (p_uplinkOut p) p) as (b & bs & -> & _). destruct b; [|done].
  split_and!; [done..|]. simpl. unfold port_send, port_take. by repeat case_match.
Qed.
