(* ===== verification/PositionSystem.v ===== *)
(** * Player positions (client/internal/game/position_system.go)

    The position of the own player on its way to the server, and the local
    numbers under which the game knows the other players. *)

From stdpp Require Import base gmap sets strings vector numbers tactics list.
From Stdlib Require Import ZArith Lia.
From S2P Require Import Prelude Words GoIO Packet IpcMsg ClientPorts.

(** ** State *)

Record PositionData : Type := MkPos { pd_Key : u16; pd_X : i16; pd_Y : i16; pd_Z : i16 }.

Record PlayerData : Type := MkPlayer { pl_Name : vec u8 8; pl_LocalID : u16; pl_TTL : Z }.

Record PositionSystem : Type := MkPS {
  ps_pos : PositionData;
  ps_local : gmap (vec u8 16) PlayerData;
  ps_localIdFree : list u16;
  ps_localIdNext : u16;
}.

Definition no_pos : u16 := U16 65535.

Definition createPositionSystem : PositionSystem :=
  MkPS (MkPos no_pos (I16 0) (I16 0) (I16 0)) ∅ [] (U16 1).

Definition set_pos p s := MkPS p (ps_local s) (ps_localIdFree s) (ps_localIdNext s).
Definition set_local l s := MkPS (ps_pos s) l (ps_localIdFree s) (ps_localIdNext s).
Definition set_ids f n s := MkPS (ps_pos s) (ps_local s) f n.

(** The system and the ports of its session. *)
Abbreviation PSys := (PositionSystem * Ports)%type.

Definition on_ports {A} (m : M Ports A) : M PSys A := zoom snd (λ p s, (fst s, p)) m.
Definition on_ps {A} (m : M PositionSystem A) : M PSys A := zoom fst (λ p s, (p, snd s)) m.

(** ** Operations *)

Definition sendSelfPos : M PSys unit :=
  pos ← gets (λ s, ps_pos (fst s));
  if decide (pd_Key pos ≠ no_pos) then
    data ← lift (ClientPosition_Serialize
                   (MkClientPosition (pd_Key pos) (pd_X pos) (pd_Y pos) (pd_Z pos)));
    on_ports (TrySendUplink (MkPacket OpPosition data));;
    on_ps (modify (set_pos (MkPos no_pos (pd_X pos) (pd_Y pos) (pd_Z pos))))
  else mret tt.

(** One iteration of the loop of [lowerTTLs]. *)
Definition lower_one (s : PositionSystem) (id : vec u8 16) : PositionSystem :=
  match ps_local s !! id with
  | None => s
  | Some d =>
      let ttl := (pl_TTL d - 1)%Z in
      if decide (ttl <= 0)%Z
      then set_ids (ps_localIdFree s ++ [pl_LocalID d]) (ps_localIdNext s)
             (set_local (delete id (ps_local s)) s)
      else set_local (<[id := MkPlayer (pl_Name d) (pl_LocalID d) ttl]> (ps_local s)) s
  end.

(** [for id, data := range s.local]: Go visits the keys in an order that it
    chooses, here [order]. *)
Definition lowerTTLs (order : list (vec u8 16)) (s : PositionSystem) : PositionSystem :=
  foldl lower_one s order.

Definition range_order (s : PositionSystem) (order : list (vec u8 16)) : Prop :=
  order ≡ₚ (map_to_list (ps_local s)).*1.

Definition tick (order : list (vec u8 16)) : M PSys unit :=
  sendSelfPos;;
  on_ps (modify (lowerTTLs order)).

Definition OnGamePos (msg : ipc.MessageBodyPositionIn) : M PSys unit :=
  on_ps (modify (set_pos
    (MkPos (ipc.pi_Key msg) (ipc.pi_X msg) (ipc.pi_Y msg) (ipc.pi_Z msg)))).

(** The local number of a new player: the last freed one, or the next. *)
Definition take_local_id (s : PositionSystem) : u16 * PositionSystem :=
  match ps_localIdFree s !! (length (ps_localIdFree s) - 1) with
  | Some id =>
      (id, set_ids (take (length (ps_localIdFree s) - 1) (ps_localIdFree s)) (ps_localIdNext s) s)
  | None => (ps_localIdNext s, set_ids (ps_localIdFree s) (uincr (ps_localIdNext s)) s)
  end.

(** The entry of the player of a server position, created when it is new. *)
Definition seen (pkt : ServerPosition) : M PositionSystem PlayerData := λ s,
  match ps_local s !! sp_ID pkt with
  | None =>
      let '(localID, s) := take_local_id s in
      let data := MkPlayer (sp_Name pkt) localID 30 in
      (set_local (<[sp_ID pkt := data]> (ps_local s)) s, Ok data)
  | Some d =>
      let data := MkPlayer (pl_Name d) (pl_LocalID d) 30 in
      (set_local (<[sp_ID pkt := data]> (ps_local s)) s, Ok data)
  end.

Definition OnServerPos (pkt : ServerPosition) : M PSys unit :=
  data ← on_ps (seen pkt);
  color ← lift (be_get16 (vec_to_list (sp_ID pkt)) 0 2);
  payload ← lift (ipc.PositionOut_Serialize
    (ipc.MkPositionOut (pl_LocalID data) color (sp_Name pkt) (sp_Key pkt)
       (sp_X pkt) (sp_Y pkt) (sp_Z pkt)));
  on_ports (TrySend (ipc.MkMessage (U32 0) ipc.OpPosition payload)).

(** ** Runs

    The goroutine of [run] ticks, the session's goroutines call [OnGamePos] and
    [OnServerPos]; each holds [s.mu] while it changes the state.  The consumers
    of the two channels may run at any time. *)

Inductive pos_event : Type :=
  | EvTick (order : list (vec u8 16))
  | EvGamePos (msg : ipc.MessageBodyPositionIn)
  | EvServerPos (pkt : ServerPosition).

Definition pos_exec (s : PSys) (e : pos_event) : PSys :=
  match e with
  | EvTick order => fst (tick order s)
  | EvGamePos msg => fst (OnGamePos msg s)
  | EvServerPos pkt => fst (OnServerPos pkt s)
  end.

Inductive pos_step (s : PSys) : option pos_event → PSys → Prop :=
  | pos_tick order :
      range_order (fst s) order →
      pos_step s (Some (EvTick order)) (pos_exec s (EvTick order))
  | pos_game msg : pos_step s (Some (EvGamePos msg)) (pos_exec s (EvGamePos msg))
  | pos_server pkt : pos_step s (Some (EvServerPos pkt)) (pos_exec s (EvServerPos pkt))
  | pos_ports p : pos_step s None (fst s, p).

(** Runs in which at most [n] players are known at any time. *)
Inductive pos_run (n : nat) (s0 : PSys) : list pos_event → PSys → Prop :=
  | pos_start : size (ps_local (fst s0)) ≤ n → pos_run n s0 [] s0
  | pos_next tr s o s' :
      pos_run n s0 tr s → pos_step s o s' → size (ps_local (fst s')) ≤ n →
      pos_run n s0 (tr ++ option_list o) s'.

(** ** The local numbers *)

Definition used_ids (s : PositionSystem) : list u16 :=
  (λ x, pl_LocalID x.2) <$> map_to_list (ps_local s).

(** The numbers below [k + 1] are split between the players and the free list. *)
Definition ids_wf (k : nat) (s : PositionSystem) : Prop :=
  used_ids s ++ ps_localIdFree s ≡ₚ (λ i, U16 (Z.of_nat i)) <$> seq 1 k
  ∧ ps_localIdNext s = U16 (Z.of_nat (S k)).

Lemma used_ids_insert_new s id d :
  ps_local s !! id = None →
  used_ids (set_local (<[id := d]> (ps_local s)) s) ≡ₚ pl_LocalID d :: used_ids s.
Proof. intros H. unfold used_ids; simpl. by rewrite map_to_list_insert. Qed.

Lemma used_ids_delete s id d :
  ps_local s !! id = Some d →
  used_ids s ≡ₚ pl_LocalID d :: used_ids (set_local (delete id (ps_local s)) s).
Proof. intros H. unfold used_ids; simpl. by rewrite <- (map_to_list_delete _ id d H). Qed.

Lemma used_ids_update s id d d' :
  ps_local s !! id = Some d → pl_LocalID d' = pl_LocalID d →
  used_ids (set_local (<[id := d']> (ps_local s)) s) ≡ₚ used_ids s.
Proof.
  intros H Hid. rewrite (used_ids_delete s id d H), <- Hid.
  pose proof (used_ids_insert_new (set_local (delete id (ps_local s)) s) id d') as Hi.
  simpl in Hi. rewrite insert_delete_eq in Hi. apply Hi. apply lookup_delete_eq.
Qed.

Lemma lower_one_wf k s id : ids_wf k s → ids_wf k (lower_one s id).
Proof.
  intros [Hp Hn]. unfold lower_one. destruct (ps_local s !! id) as [d|] eqn:Hd; [|done].
  case_decide; (split; [|done]).
  - rewrite <- Hp, (used_ids_delete s id d Hd). simpl.
    change (used_ids (set_ids _ _ ?s)) with (used_ids s).
    by rewrite app_assoc, Permutation_app_comm.
  - by rewrite (used_ids_update s id d).
Qed.

Lemma lowerTTLs_wf k order s : ids_wf k s → ids_wf k (lowerTTLs order s).
Proof.
  unfold lowerTTLs. revert s. induction order as [|id order IH]; intros s Hs; simpl; [done|].
  by apply IH, lower_one_wf.
Qed.

Lemma length_used_ids s : length (used_ids s) = size (ps_local s).
Proof. unfold used_ids. by rewrite length_fmap, length_map_to_list. Qed.

Lemma take_local_id_cases s :
  (∃ l i, ps_localIdFree s = l ++ [i] ∧ take_local_id s = (i, set_ids l (ps_localIdNext s) s))
  ∨ (ps_localIdFree s = []
     ∧ take_local_id s = (ps_localIdNext s, set_ids [] (uincr (ps_localIdNext s)) s)).
Proof.
  unfold take_local_id. destruct (ps_localIdFree s !! _) as [i|] eqn:Hl; [left|right].
  - destruct (lookup_last_split _ _ Hl) as [l Hf]. exists l, i. split; [done|].
    by rewrite Hf, length_app, Nat.add_sub, take_app_length.
  - destruct (ps_localIdFree s); [done|]. apply lookup_ge_None in Hl. simpl in Hl. lia.
Qed.

Lemma uincr_of_nat {w} (k : nat) :
  uincr (to_uint w (Z.of_nat k)) = to_uint w (Z.of_nat (S k)).
Proof. apply uint_eq. simpl. rewrite Zplus_mod_idemp_l. do 2 f_equal. lia. Qed.

(** A new player takes a number: the pool grows only when no number is free. *)
Lemma seen_wf k n pkt s :
  ids_wf k s → k ≤ n → size (ps_local (fst (seen pkt s))) ≤ n →
  ∃ k', ids_wf k' (fst (seen pkt s)) ∧ k' ≤ n.
Proof.
  intros [Hp Hn] Hk. unfold seen. destruct (ps_local s !! sp_ID pkt) as [d|] eqn:Hd; intros Hsz.
  { exists k. split; [|done]. split; [|done]. simpl. by rewrite (used_ids_update s _ d). }
  destruct (take_local_id_cases s) as [(l & i & Hf & Ht)|[Hf Ht]]; rewrite Ht in Hsz |- *;
    cbn [fst] in *; unfold ids_wf;
    pose proof (used_ids_insert_new s (sp_ID pkt) (MkPlayer (sp_Name pkt)
      (fst (take_local_id s)) 30) Hd) as Hu; rewrite Ht in Hu; cbn [fst] in Hu;
    unfold used_ids in *; cbn [ps_local set_local set_ids ps_localIdFree ps_localIdNext pl_LocalID] in *.
  - exists k. split; [|done]. split; [|done]. rewrite Hu, <- Hp, Hf.
    rewrite (Permutation_app_comm l). simpl. apply Permutation_middle.
  - exists (S k). rewrite Hf, app_nil_r in *. split; [split|].
    + rewrite Hu, Hp, Hn. rewrite (seq_S k 1), fmap_app. by rewrite Permutation_app_comm.
    + by rewrite Hn, uincr_of_nat.
    + rewrite map_size_insert_None in Hsz by done. apply Permutation_length in Hp.
      rewrite !length_fmap, length_map_to_list, length_seq in Hp. lia.
Qed.

(** ** What the operations do to the system *)

Lemma sendSelfPos_spec s :
  ∃ p k, sendSelfPos s = ((set_pos (MkPos k (pd_X (ps_pos s.1)) (pd_Y (ps_pos s.1))
                                          (pd_Z (ps_pos s.1))) s.1, p), Ok tt)
  ∧ k = no_pos
  ∧ (pd_Key (ps_pos s.1) = no_pos → p = s.2)
  ∧ (pd_Key (ps_pos s.1) ≠ no_pos → ∃ d, ClientPosition_Serialize (MkClientPosition
       (pd_Key (ps_pos s.1)) (pd_X (ps_pos s.1)) (pd_Y (ps_pos s.1)) (pd_Z (ps_pos s.1))) = Ok d
     ∧ TrySendUplink (MkPacket OpPosition d) s.2 = (p, Ok tt)).
Proof.
  destruct s as [[[k x y z] l f n] p]; cbn [fst snd ps_pos pd_Key pd_X pd_Y pd_Z].
  unfold sendSelfPos, mbind, M_bind, gets; cbn [fst snd ps_pos pd_Key pd_X pd_Y pd_Z].
  destruct (decide (k ≠ no_pos)) as [Hk|Hk].
  - rewrite ClientPosition_Serialize_layout. unfold lift, on_ports, zoom; cbn [fst snd].
    destruct (TrySendUplink_cases (MkPacket OpPosition
      (client_position_layout (MkClientPosition k x y z))) p) as (p' & Hs & _).
    rewrite Hs. eexists p', _. split; [done|]. split_and!; [done..|].
    intros _. by eexists.
  - exists p, k. apply dec_stable in Hk. split_and!; [done|done|done|by intros []].
Qed.

Lemma seen_returns pkt s : ∃ d, seen pkt s = (fst (seen pkt s), Ok d)
  ∧ ps_local (fst (seen pkt s)) = <[sp_ID pkt := d]> (ps_local s) ∧ pl_TTL d = 30%Z
  ∧ (∀ d', ps_local s !! sp_ID pkt = Some d' → pl_LocalID d = pl_LocalID d').
Proof.
  unfold seen. destruct (ps_local s !! sp_ID pkt) as [d|] eqn:Hd.
  - eexists. split_and!; [done..|]. by intros ? [= <-].
  - destruct (take_local_id_cases s) as [(l & i & _ & ->)|[_ ->]];
      (eexists; split_and!; [done..|]); by intros ? [=].
Qed.

(** The message a server position is turned into. *)
Definition pos_out (pkt : ServerPosition) (d : PlayerData) : ipc.MessageBodyPositionOut :=
  ipc.MkPositionOut (pl_LocalID d) (U16 (be_value (take 2 (vec_to_list (sp_ID pkt)))))
    (sp_Name pkt) (sp_Key pkt) (sp_X pkt) (sp_Y pkt) (sp_Z pkt).

Lemma OnServerPos_spec pkt s :
  ∃ d p, seen pkt s.1 = (fst (seen pkt s.1), Ok d)
  ∧ OnServerPos pkt s = ((fst (seen pkt s.1), p), Ok tt)
  ∧ TrySend (ipc.MkMessage (U32 0) ipc.OpPosition (ipc.position_out_layout (pos_out pkt d))) s.2
    = (p, Ok tt).
Proof.
  destruct (seen_returns pkt s.1) as (d & Hs & _).
  destruct (TrySend_cases (ipc.MkMessage (U32 0) ipc.OpPosition
    (ipc.position_out_layout (pos_out pkt d))) s.2) as (p & Ht & _).
  exists d, p. split; [done|]. split; [|done].
  unfold OnServerPos, mbind, M_bind, on_ps, zoom. rewrite Hs. unfold lift.
  assert (be_get16 (vec_to_list (sp_ID pkt)) 0 2
    = Ok (U16 (be_value (take 2 (vec_to_list (sp_ID pkt)))))) as ->.
  { unfold be_get16, slice. rewrite decide_True by (rewrite length_vec_to_list; lia).
    rewrite res_bind_ok, drop_0. unfold be_Uint16. rewrite fixed_ok; [done|].
    rewrite length_take, length_vec_to_list. lia. }
  rewrite ipc.PositionOut_Serialize_layout. unfold on_ports, zoom; cbn [fst snd].
  unfold pos_out in Ht. by rewrite Ht.
Qed.

Lemma tick_system order s :
  fst (fst (tick order s))
  = lowerTTLs order (set_pos (MkPos no_pos (pd_X (ps_pos s.1)) (pd_Y (ps_pos s.1))
                                    (pd_Z (ps_pos s.1))) s.1).
Proof.
  unfold tick, mbind, M_bind. destruct (sendSelfPos_spec s) as (p & k & -> & -> & _). done.
Qed.

(** ** The local numbers of a run *)

Lemma ids_wf_run n (s : PSys) tr (s' : PSys) :
  ids_wf 0 s.1 → pos_run n s tr s' → ∃ k, ids_wf k s'.1 ∧ k ≤ n.
Proof.
  intros H0. induction 1 as [|tr s1 o s2 _ (k & Hk & Hn) Hs Hsz]; [exists 0; split; [done|lia]|].
  destruct Hs as [order Ho|msg|pkt|p]; unfold pos_exec in *.
  - exists k. split; [|done]. rewrite tick_system. by apply lowerTTLs_wf.
  - by exists k.
  - destruct (OnServerPos_spec pkt s1) as (d & p & _ & He & _). rewrite He in *.
    by apply (seen_wf k).
  - by exists k.
Qed.

Lemma ids_wf_start : ids_wf 0 createPositionSystem.
Proof. split; [done|reflexivity]. Qed.

Lemma pool_id k i : (Z.of_nat k <= 65535)%Z → i ∈ (λ i, U16 (Z.of_nat i)) <$> seq 1 k →
  (1 <= uval i <= Z.of_nat k)%Z.
Proof.
  intros Hk (j & -> & [Hj Hj']%elem_of_seq)%list_elem_of_fmap.
  rewrite uval_to_uint_small by (simpl; lia). lia.
Qed.

Lemma pool_nodup k : (Z.of_nat k <= 65535)%Z → NoDup ((λ i, U16 (Z.of_nat i)) <$> seq 1 k).
Proof.
  intros Hk. apply NoDup_fmap_2_strong; [|apply NoDup_seq].
  intros i j [Hi Hi']%elem_of_seq [Hj Hj']%elem_of_seq Heq%(f_equal uval).
  rewrite !uval_to_uint_small in Heq by (simpl; lia). lia.
Qed.

Lemma ids_wf_distinct k s id1 id2 d1 d2 :
  ids_wf k s → (Z.of_nat k <= 65535)%Z → ps_local s !! id1 = Some d1 → ps_local s !! id2 = Some d2 →
  pl_LocalID d1 = pl_LocalID d2 → id1 = id2.
Proof.
  intros [Hp _] Hk H1 H2 Heq. destruct (decide (id1 = id2)) as [|Hne]; [done|exfalso].
  pose proof (pool_nodup k Hk) as Hnd. rewrite <- Hp in Hnd. apply NoDup_app in Hnd as (Hnd & _ & _).
  rewrite (used_ids_delete s id1 d1 H1) in Hnd.
  assert (ps_local (set_local (delete id1 (ps_local s)) s) !! id2 = Some d2) as H2'
    by (simpl; by rewrite lookup_delete_ne).
  rewrite (used_ids_delete _ id2 d2 H2'), Heq in Hnd.
  apply NoDup_cons in Hnd as [Hnd _]. apply Hnd. left.
Qed.

Lemma ids_wf_range k s id d :
  ids_wf k s → (Z.of_nat k <= 65535)%Z → ps_local s !! id = Some d → (1 <= uval (pl_LocalID d) <= Z.of_nat k)%Z.
Proof.
  intros [Hp _] Hk H. apply pool_id; [done|]. rewrite <- Hp. apply elem_of_app. left.
  rewrite (used_ids_delete s id d H). left.
Qed.

(** ** Lowering the time to live *)

Definition lower_data (d : PlayerData) : option PlayerData :=
  if decide (pl_TTL d - 1 <= 0)%Z then None
  else Some (MkPlayer (pl_Name d) (pl_LocalID d) (pl_TTL d - 1)).

Lemma lower_one_lookup s id id' :
  ps_local (lower_one s id) !! id'
  = if decide (id = id') then ps_local s !! id ≫= lower_data else ps_local s !! id'.
Proof.
  unfold lower_one, lower_data. destruct (ps_local s !! id) as [d|] eqn:Hd; simpl.
  - destruct (decide (pl_TTL d - 1 <= 0)%Z), (decide (id = id')) as [<-|Hne]; simpl;
      by rewrite ?lookup_delete_eq, ?lookup_insert_eq, ?lookup_delete_ne, ?lookup_insert_ne.
  - by destruct (decide (id = id')) as [<-|].
Qed.

Lemma lowerTTLs_lookup order s id :
  NoDup order →
  ps_local (lowerTTLs order s) !! id
  = if decide (id ∈ order) then ps_local s !! id ≫= lower_data else ps_local s !! id.
Proof.
  unfold lowerTTLs. intros Hnd. revert s. induction Hnd as [|i order Hi Hnd IH]; intros s; cbn [foldl];
    [by rewrite decide_False by (by intros ?%elem_of_nil)|].
  rewrite IH, lower_one_lookup. destruct (decide (id ∈ order)) as [Hin|Hin].
  - rewrite decide_False by (by intros ->). by rewrite decide_True by (by right).
  - destruct (decide (i = id)) as [->|Hne]; [by rewrite decide_True by (by left)|].
    rewrite decide_False; [done|]. by intros [?|?]%elem_of_cons.
Qed.

(** A tick lowers every player once, whatever the order of the map. *)
Lemma tick_lookup order s id :
  range_order s.1 order → ps_local (fst (fst (tick order s))) !! id = ps_local s.1 !! id ≫= lower_data.
Proof.
  intros Ho. rewrite tick_system. rewrite lowerTTLs_lookup.
  - cbn [ps_local set_pos]. destruct (ps_local s.1 !! id) as [d|] eqn:Hd;
      [|by destruct (decide (id ∈ order))].
    rewrite decide_True; [done|]. rewrite Ho. apply list_elem_of_fmap.
    exists (id, d). split; [done|]. by apply elem_of_map_to_list.
  - rewrite Ho. apply NoDup_fst_map_to_list.
Qed.

(** The ticks of a trace in which player [id] does not appear. *)
Definition quiet (id : vec u8 16) (e : pos_event) : Prop :=
  match e with EvServerPos pkt => sp_ID pkt ≠ id | _ => True end.

Definition is_tick (e : pos_event) : bool := match e with EvTick _ => true | _ => false end.

Definition ticks (tr : list pos_event) : nat := length (filter is_tick tr).

Definition aged (d : PlayerData) (n : nat) : option PlayerData :=
  if decide (Z.of_nat n < pl_TTL d)%Z
  then Some (MkPlayer (pl_Name d) (pl_LocalID d) (pl_TTL d - Z.of_nat n)) else None.

Lemma aged_lower d n : aged d n ≫= lower_data = aged d (S n).
Proof.
  unfold aged, lower_data. destruct (decide (Z.of_nat n < pl_TTL d)%Z); simpl.
  - repeat case_decide; try lia; [done|]. do 2 f_equal. lia.
  - by rewrite decide_False by lia.
Qed.

Lemma seen_other pkt s id :
  sp_ID pkt ≠ id → ps_local (fst (seen pkt s)) !! id = ps_local s !! id.
Proof.
  intros Hne. destruct (seen_returns pkt s) as (d & _ & -> & _). by rewrite lookup_insert_ne.
Qed.

Lemma aged_run n (s : PSys) tr s' id d :
  pos_run n s tr s' → Forall (quiet id) tr → ps_local s.1 !! id = Some d → (0 < pl_TTL d)%Z →
  ps_local s'.1 !! id = aged d (ticks tr).
Proof.
  intros Hr Hq Hd Hpos. induction Hr as [|tr s1 o s2 Hr IH Hs _].
  { unfold aged. rewrite decide_True by done. rewrite Hd. simpl.
    change (Z.of_nat (ticks [])) with 0%Z. rewrite Z.sub_0_r. by destruct d. }
  apply Forall_app in Hq as [Hq Ho]. specialize (IH Hq).
  unfold ticks. rewrite filter_app, length_app. fold (ticks tr).
  destruct Hs as [order Hord|msg|pkt|p]; unfold pos_exec; simpl.
  - rewrite tick_lookup by done. rewrite IH, aged_lower. by rewrite Nat.add_1_r.
  - by rewrite Nat.add_0_r.
  - destruct (OnServerPos_spec pkt s1) as (d' & p & _ & -> & _). simpl.
    rewrite seen_other, Nat.add_0_r; [done|]. by apply Forall_cons in Ho as [? _].
  - by rewrite Nat.add_0_r.
Qed.

(** *** The own position *)

Lemma lowerTTLs_pos order s : ps_pos (lowerTTLs order s) = ps_pos s.
Proof.
  unfold lowerTTLs. revert s. induction order as [|id order IH]; intros s; simpl; [done|].
  rewrite IH. unfold lower_one. by repeat case_match.
Qed.

Lemma tick_ports order s : snd (fst (tick order s)) = snd (fst (sendSelfPos s)).
Proof.
  unfold tick, mbind, M_bind. destruct (sendSelfPos_spec s) as (p & k & -> & _). done.
Qed.

Lemma tick_pos_key order s : pd_Key (ps_pos (fst (fst (tick order s)))) = no_pos.
Proof. by rewrite tick_system, lowerTTLs_pos. Qed.

Lemma sendSelfPos_none s : pd_Key (ps_pos s.1) = no_pos → snd (fst (sendSelfPos s)) = s.2.
Proof.
  intros H. destruct (sendSelfPos_spec s) as (p & k & -> & _ & Hp & _). simpl. by apply Hp.
Qed.

(** ** Properties *)

Definition ex_pos (n : Z) : ServerPosition :=
  MkServerPosition (arr_of 16 [U8 n; U8 7]) (arr_of 8 []) (U16 3) (I16 (-5)) (I16 0) (I16 9).

Definition ex_ports : Ports := MkPorts false [] (make_port _ 16) (make_port _ 16).
Definition ex_sys : PSys := (createPositionSystem, ex_ports).
Definition ex_sys1 : PSys := pos_exec ex_sys (EvServerPos (ex_pos 1)).
Definition ex_sys2 : PSys := pos_exec ex_sys1 (EvServerPos (ex_pos 2)).

Lemma ex_pos_run : pos_run 2 ex_sys [EvServerPos (ex_pos 1); EvServerPos (ex_pos 2)] ex_sys2.
Proof.
  change [EvServerPos (ex_pos 1); EvServerPos (ex_pos 2)]
    with (([] ++ option_list (Some (EvServerPos (ex_pos 1))))
          ++ option_list (Some (EvServerPos (ex_pos 2)))).
  apply (pos_next 2 _ _ ex_sys1); [|apply pos_server|vm_compute; lia].
  apply (pos_next 2 _ _ ex_sys); [|apply pos_server|vm_compute; lia].
  apply pos_start. vm_compute. lia.
Qed.

(** C30: however ticks, game positions and server positions interleave, while at most
    [n] players are present at a time and [n] is below 2^16, the game never sees two
    players under one number and every number is between 1 and [n]: numbers of players
    that timed out are given out again before a new one is taken. *)
Theorem local_ids_distinct n p tr s id1 id2 d1 d2 :
  (Z.of_nat n <= 65535)%Z →
  pos_run n (createPositionSystem, p) tr s →
  ps_local s.1 !! id1 = Some d1 → ps_local s.1 !! id2 = Some d2 →
  (1 <= uval (pl_LocalID d1) <= Z.of_nat n)%Z
  ∧ (pl_LocalID d1 = pl_LocalID d2 → id1 = id2).
Proof.
  intros Hn Hr H1 H2. destruct (ids_wf_run n (createPositionSystem, p) tr s ids_wf_start Hr) as (k & Hk & Hkn).
  split.
  - destruct (ids_wf_range k s.1 id1 d1 Hk) as [??]; [lia|done|lia].
  - apply (ids_wf_distinct k s.1); [done|lia|done..].
Qed.

Lemma local_ids_distinct_witness :
  ∃ d1 d2, ps_local ex_sys2.1 !! sp_ID (ex_pos 1) = Some d1
  ∧ ps_local ex_sys2.1 !! sp_ID (ex_pos 2) = Some d2
  ∧ (1 <= uval (pl_LocalID d1) <= 2)%Z ∧ (pl_LocalID d1 = pl_LocalID d2 → sp_ID (ex_pos 1) = sp_ID (ex_pos 2)).
Proof.
  destruct (ps_local ex_sys2.1 !! sp_ID (ex_pos 1)) as [d1|] eqn:H1; [|vm_compute in H1; discriminate H1].
  destruct (ps_local ex_sys2.1 !! sp_ID (ex_pos 2)) as [d2|] eqn:H2; [|vm_compute in H2; discriminate H2].
  exists d1, d2. split; [reflexivity|]. split; [reflexivity|].
  apply (local_ids_distinct 2 ex_ports [EvServerPos (ex_pos 1); EvServerPos (ex_pos 2)] ex_sys2);
    [lia|exact ex_pos_run|exact H1|exact H2].
Defined.

(** After a position of a player the next 29 ticks keep it, with its number,
    and the 30th forgets it, if no other position of this player arrives in
    between, whatever else happens and in whatever order the map is visited. *)
Theorem position_expiry n (s : PSys) pkt tr s' :
  pos_run n (pos_exec s (EvServerPos pkt)) tr s' → Forall (quiet (sp_ID pkt)) tr →
  ∃ d, ps_local (fst (pos_exec s (EvServerPos pkt))) !! sp_ID pkt = Some d
  ∧ (∀ d0, ps_local s.1 !! sp_ID pkt = Some d0 → pl_LocalID d = pl_LocalID d0)
  ∧ (ticks tr < 30 →
     ps_local s'.1 !! sp_ID pkt
     = Some (MkPlayer (pl_Name d) (pl_LocalID d) (30 - Z.of_nat (ticks tr))))
  ∧ (30 ≤ ticks tr → ps_local s'.1 !! sp_ID pkt = None).
Proof.
  intros Hr Hq. destruct (seen_returns pkt s.1) as (d & _ & Hl & Ht & Hid).
  assert (ps_local (fst (pos_exec s (EvServerPos pkt))) !! sp_ID pkt = Some d) as Hd.
  { unfold pos_exec. destruct (OnServerPos_spec pkt s) as (d' & p & _ & -> & _). simpl.
    by rewrite Hl, lookup_insert_eq. }
  exists d. split_and!; [done..| |];
    intros; rewrite (aged_run n _ tr s' (sp_ID pkt) d) by (done || lia); unfold aged; rewrite Ht.
  - by rewrite decide_True by lia.
  - by rewrite decide_False by lia.
Qed.

Lemma position_expiry_witness :
  let tr := [EvServerPos (ex_pos 2)] in
  pos_run 2 ex_sys1 tr ex_sys2 ∧ Forall (quiet (sp_ID (ex_pos 1))) tr
  ∧ ∃ d, ps_local ex_sys1.1 !! sp_ID (ex_pos 1) = Some d
  ∧ (∀ d0, ps_local createPositionSystem !! sp_ID (ex_pos 1) = Some d0 → pl_LocalID d = pl_LocalID d0)
  ∧ (ticks tr < 30 →
     ps_local ex_sys2.1 !! sp_ID (ex_pos 1)
     = Some (MkPlayer (pl_Name d) (pl_LocalID d) (30 - Z.of_nat (ticks tr))))
  ∧ (30 ≤ ticks tr → ps_local ex_sys2.1 !! sp_ID (ex_pos 1) = None).
Proof.
  intros tr.
  assert (pos_run 2 ex_sys1 tr ex_sys2) as Hr.
  { apply (pos_next 2 _ [] ex_sys1 (Some (EvServerPos (ex_pos 2)))); [|apply pos_server|vm_compute; lia].
    apply pos_start. vm_compute. lia. }
  assert (Forall (quiet (sp_ID (ex_pos 1))) tr) as Hq
    by (constructor; [intros H; vm_compute in H; discriminate H|constructor]).
  split; [exact Hr|]. split; [exact Hq|]. exact (position_expiry 2 ex_sys (ex_pos 1) tr ex_sys2 Hr Hq).
Defined.

(** A position of the game is sent to the server by the next tick, once, as
    the packet whose body parses to it, if the uplink channel has room (it is
    dropped otherwise); the key [0xffff], which means no position, is never
    sent. *)
Theorem self_position_sent (s : PSys) msg order order' :
  p_done s.2 = false →
  let s1 := pos_exec s (EvGamePos msg) in
  let s2 := pos_exec s1 (EvTick order) in
  let s3 := pos_exec s2 (EvTick order') in
  p_uplinkOut s3.2 = p_uplinkOut s2.2
  ∧ (ipc.pi_Key msg = no_pos → p_uplinkOut s2.2 = p_uplinkOut s.2)
  ∧ (chan_ready (pt_chan (p_uplinkOut s.2)) = false → p_uplinkOut s2.2 = p_uplinkOut s.2)
  ∧ (ipc.pi_Key msg ≠ no_pos → chan_ready (pt_chan (p_uplinkOut s.2)) = true →
     ∃ body, pt_sent (p_uplinkOut s2.2) = pt_sent (p_uplinkOut s.2) ++ [MkPacket OpPosition body]
     ∧ ParseClientPosition body
       = Ok (MkClientPosition (ipc.pi_Key msg) (ipc.pi_X msg) (ipc.pi_Y msg) (ipc.pi_Z msg))).
Proof.
  intros Hd s1 s2 s3. subst s1 s2 s3. unfold pos_exec. rewrite !tick_ports.
  rewrite (sendSelfPos_none (fst (tick _ _))) by apply tick_pos_key. rewrite tick_ports.
  set (s1 := fst (OnGamePos msg s)). change (ipc.pi_Key msg) with (pd_Key (ps_pos s1.1)).
  change s.2 with s1.2 in *.
  destruct (sendSelfPos_spec s1) as (p & k & -> & _ & Hnone & Hsome). cbn [fst snd].
  split; [done|]. split; [intros H; by rewrite Hnone|].
  destruct (decide (pd_Key (ps_pos s1.1) = no_pos)) as [Hk|Hk]; [by rewrite Hnone by done|].
  destruct (Hsome Hk) as (d & Hd' & Hs). rewrite TrySendUplink_live in Hs by done.
  simplify_eq. split; [by intros ->|]. intros _ ->. exists d. cbn [p_uplinkOut set_uplinkOut].
  rewrite pt_sent_push. split; [done|]. rewrite ClientPosition_Serialize_layout in Hd'.
  apply Ok_inj in Hd' as <-. rewrite <- (app_nil_r (client_position_layout _)).
  apply ParseClientPosition_layout.
Qed.

Lemma self_position_sent_witness :
  let msg := ipc.MkPositionIn (U16 17) (I16 1) (I16 (-2)) (I16 3) in
  let s1 := pos_exec ex_sys1 (EvGamePos msg) in
  let s2 := pos_exec s1 (EvTick [sp_ID (ex_pos 1)]) in
  p_done ex_sys1.2 = false ∧ chan_ready (pt_chan (p_uplinkOut ex_sys1.2)) = true
  ∧ ∃ body, pt_sent (p_uplinkOut s2.2) = pt_sent (p_uplinkOut ex_sys1.2) ++ [MkPacket OpPosition body]
  ∧ ParseClientPosition body = Ok (MkClientPosition (U16 17) (I16 1) (I16 (-2)) (I16 3)).
Proof.
  intros msg s1 s2. split; [reflexivity|]. split; [reflexivity|].
  destruct (self_position_sent ex_sys1 msg [sp_ID (ex_pos 1)] [] eq_refl) as (_ & _ & _ & H).
  apply H; [|reflexivity]. intros He. vm_compute in He. discriminate He.
Defined.

(** A position of another player reaches the game as one message with the
    local number of that player, if the channel to the game has room. *)
Theorem server_position_forwarded (s : PSys) pkt :
  p_done s.2 = false → chan_ready (pt_chan (p_msgOut s.2)) = true →
  let s' := pos_exec s (EvServerPos pkt) in
  ∃ d payload, ps_local s'.1 !! sp_ID pkt = Some d
  ∧ ipc.PositionOut_Serialize (ipc.MkPositionOut (pl_LocalID d)
      (U16 (be_value (take 2 (vec_to_list (sp_ID pkt))))) (sp_Name pkt) (sp_Key pkt)
      (sp_X pkt) (sp_Y pkt) (sp_Z pkt)) = Ok payload
  ∧ pt_sent (p_msgOut s'.2)
    = pt_sent (p_msgOut s.2) ++ [ipc.MkMessage (U32 0) ipc.OpPosition payload].
Proof.
  intros Hd Hr s'. subst s'. unfold pos_exec.
  destruct (OnServerPos_spec pkt s) as (d & p & Hs & -> & Ht). cbn [fst snd].
  destruct (seen_returns pkt s.1) as (d' & Hs' & Hl & _).
  assert (d' = d) as -> by (rewrite Hs in Hs'; congruence).
  exists d. eexists. rewrite Hl, lookup_insert_eq. split; [done|].
  rewrite ipc.PositionOut_Serialize_layout. split; [done|].
  rewrite TrySend_live, Hr in Ht by done. simplify_eq. cbn [p_msgOut set_msgOut].
  apply pt_sent_push.
Qed.

Lemma server_position_forwarded_witness :
  p_done ex_sys1.2 = false ∧ chan_ready (pt_chan (p_msgOut ex_sys1.2)) = true
  ∧ ∃ d payload, ps_local ex_sys2.1 !! sp_ID (ex_pos 2) = Some d
  ∧ ipc.PositionOut_Serialize (ipc.MkPositionOut (pl_LocalID d)
      (U16 (be_value (take 2 (vec_to_list (sp_ID (ex_pos 2)))))) (sp_Name (ex_pos 2)) (sp_Key (ex_pos 2))
      (sp_X (ex_pos 2)) (sp_Y (ex_pos 2)) (sp_Z (ex_pos 2))) = Ok payload
  ∧ pt_sent (p_msgOut ex_sys2.2)
    = pt_sent (p_msgOut ex_sys1.2) ++ [ipc.MkMessage (U32 0) ipc.OpPosition payload].
Proof.
  split; [reflexivity|]. split; [reflexivity|].
  exact (server_position_forwarded ex_sys1 (ex_pos 2) eq_refl eq_refl).
Defined.
