(* ===== verification/Daemon.v ===== *)
(** * The daemon (client/internal/daemon)

    The messages the game client sends to the daemon, and the hub that passes
    them on to the subscribers of the HTTP interface: client.go, the connection
    handling of daemon.go and the subscription part of http.go. *)

From stdpp Require Import base gmap sets strings vector numbers tactics list relations.
From Stdlib Require Import ZArith Lia.
From S2P Require Import Prelude Words GoIO GoStr.

Module daemon.

(** ** Messages and the client's end of the connection *)

Definition MsgType : Type := bytes.

Definition MsgTypeGameStart : MsgType := str "GAME_START".
Definition MsgTypeGameEnd : MsgType := str "GAME_END".
Definition MsgTypeInfoItem : MsgType := str "INFO_ITEM".
Definition MsgTypeInfoEntrance : MsgType := str "INFO_ENTRANCE".

(** A field left out of a Go literal is [[]], [0] or [None]. *)
Record Msg : Type := MkMsg {
  Type_ : MsgType;
  SessionID : bytes;
  PlayerID : bytes;
  PlayerName : bytes;
  WorldID : Z;
  Item : bytes;
  Location : bytes;
  Original : bytes;
  Entrance : bytes;
  Age : bytes;
  Self : option bool;
}.

#[export] Instance Msg_eq_dec : EqDecision Msg.
Proof. solve_decision. Defined.

(** The channel of a [DaemonConn]; [sendLoop] is its receiver. *)
Definition chSend : Type := port Msg.

Definition createDaemonConn : chSend := make_port Msg 128.

(** [conn.chSend <- data], with no other case to select. *)
Definition Send (data : Msg) : M chSend unit := modify (port_send data).

(** ** Unbuffered channels

    [uc_waiting]: the receiver is blocked in its receive.  [uc_got] is what it
    has received. *)

Abbreviation ch_ref := nat.

Record uchan : Type := UChan {
  uc_closed : bool;
  uc_waiting : bool;
  uc_got : list bytes;
}.

(** [close(ch)]: closing a closed channel panics. *)
Definition close_chan (ch : ch_ref) : M (gmap ch_ref uchan) unit := λ h,
  match h !! ch with
  | Some c =>
      if uc_closed c then (h, Panic)
      else (<[ch := UChan true (uc_waiting c) (uc_got c)]> h, Ok tt)
  | None => (h, Panic)
  end.

(** [select { case ch <- msg: default: }]: sending on a closed channel panics. *)
Definition try_send_chan (ch : ch_ref) (msg : bytes) : M (gmap ch_ref uchan) unit := λ h,
  match h !! ch with
  | Some c =>
      if uc_closed c then (h, Panic)
      else if uc_waiting c then (<[ch := UChan false false (uc_got c ++ [msg])]> h, Ok tt)
      else (h, Ok tt)
  | None => (h, Panic)
  end.

(** ** Clients of the daemon *)

Record client : Type := MkClient {
  cl_id : vec u8 16;
  cl_subs : gset ch_ref;
  cl_done : bool;
}.

Definition newClient (id : vec u8 16) : client := MkClient id ∅ false.

(** A client and the heap of channels. *)
Definition CS : Type := client * gmap ch_ref uchan.

Definition on_heap {A} (m : M (gmap ch_ref uchan) A) : M CS A := zoom snd (λ h s, (fst s, h)) m.
Definition set_subs (f : gset ch_ref → gset ch_ref) (s : CS) : CS :=
  (MkClient (cl_id (fst s)) (f (cl_subs (fst s))) (cl_done (fst s)), snd s).

Definition subscribe : M CS ch_ref :=
  ch ← gets (λ s, fresh (dom (snd s)));
  on_heap (modify (<[ch := UChan false false []]>));;
  modify (set_subs (union {[ch]}));;
  mret ch.

Definition unsubscribe (ch : ch_ref) : M CS unit :=
  ok ← gets (λ s, bool_decide (ch ∈ cl_subs (fst s)));
  if (ok : bool) then
    on_heap (close_chan ch);;
    modify (set_subs (λ subs, subs ∖ {[ch]}))
  else mret tt.

(** A Go map is visited in some order: [order] is any enumeration of it. *)
Fixpoint close_subs (order : list ch_ref) : M CS unit :=
  match order with
  | [] => mret tt
  | sub :: order =>
      on_heap (close_chan sub);;
      modify (set_subs (λ subs, subs ∖ {[sub]}));;
      close_subs order
  end.

Definition close_done : M CS unit := λ s,
  if cl_done (fst s) then (s, Panic)
  else ((MkClient (cl_id (fst s)) (cl_subs (fst s)) true, snd s), Ok tt).

Definition close (order : list ch_ref) : M CS unit :=
  close_subs order;;
  close_done.

Fixpoint broadcast_to (order : list ch_ref) (msg : bytes) : M CS unit :=
  match order with
  | [] => mret tt
  | sub :: order => on_heap (try_send_chan sub msg);; broadcast_to order msg
  end.

Definition broadcast (order : list ch_ref) (msg : bytes) : M CS unit := broadcast_to order msg.

(** ** The daemon

    [h_clients] is [d.clients] (client pointers are numbers), [h_conns] every
    client ever created with the program point of its [handleConnection], and
    [h_http] the subscription each HTTP handler holds. *)

Abbreviation cl_ref := nat.

Inductive conn_pc : Type := Serving | Removed | Closed.

Record hub : Type := MkHub {
  h_clients : gmap (vec u8 16) cl_ref;
  h_conns : gmap cl_ref (client * conn_pc);
  h_heap : gmap ch_ref uchan;
  h_http : list (cl_ref * ch_ref);
}.

#[export] Instance client_eq_dec : EqDecision client.
Proof. solve_decision. Defined.
#[export] Instance conn_pc_eq_dec : EqDecision conn_pc.
Proof. solve_decision. Defined.

Definition new_hub : hub := MkHub ∅ ∅ ∅ [].

(** Run a method of client [c] under its lock. *)
Definition on_client {A} (c : cl_ref) (pc' : conn_pc → conn_pc) (m : M CS A) : M hub A := λ h,
  match h_conns h !! c with
  | Some (cl, pc) =>
      let '(s, r) := m (cl, h_heap h) in
      (MkHub (h_clients h) (<[c := (fst s, pc' pc)]> (h_conns h)) (snd s) (h_http h), r)
  | None => (h, Panic)
  end.

(** [handleConnection] up to its loop; [id] is what [newClient] drew. *)
Definition connect (c : cl_ref) (id : vec u8 16) (h : hub) : hub :=
  MkHub (<[id := c]> (h_clients h)) (<[c := (newClient id, Serving)]> (h_conns h)) (h_heap h) (h_http h).

(** [delete(d.clients, client.id)] in the deferred function. *)
Definition remove (c : cl_ref) (h : hub) : hub :=
  match h_conns h !! c with
  | Some (cl, _) =>
      MkHub (delete (cl_id cl) (h_clients h)) (<[c := (cl, Removed)]> (h_conns h)) (h_heap h) (h_http h)
  | None => h
  end.

(** The critical section of [httpRouteClientEvents]; [None] is the answer
    "Client not found". *)
Definition route_events (key : vec u8 16) : M hub (option ch_ref) := λ h,
  match h_clients h !! key with
  | Some c =>
      (ch ← on_client c id subscribe;
       modify (λ h, MkHub (h_clients h) (h_conns h) (h_heap h) (h_http h ++ [(c, ch)]));;
       mret (Some ch)) h
  | None => (h, Ok None)
  end.

(** The key of the path value: too short values are padded with zeros and too
    long ones cut by [copy]. *)
Definition route_key (path : bytes) : res (vec u8 16) :=
  id ← hex_DecodeString path;
  Ok (arr_of 16 id).

(** A step of the hub: a connection's goroutine, an HTTP handler's, or a
    receiver that starts to wait. *)
Inductive hub_step (h : hub) : M hub unit → Prop :=
  | hub_connect c id : h_conns h !! c = None → hub_step h (modify (connect c id))
  | hub_message c cl order msg :
      h_conns h !! c = Some (cl, Serving) → order ≡ₚ elements (cl_subs cl) →
      hub_step h (on_client c id (broadcast order msg))
  | hub_remove c cl :
      h_conns h !! c = Some (cl, Serving) → hub_step h (modify (remove c))
  | hub_close c cl order :
      h_conns h !! c = Some (cl, Removed) → order ≡ₚ elements (cl_subs cl) →
      hub_step h (on_client c (λ _, Closed) (close order))
  | hub_subscribe key : hub_step h (ignore (route_events key))
  | hub_wait ch uc :
      h_heap h !! ch = Some uc →
      hub_step h (modify (λ h, MkHub (h_clients h) (h_conns h)
        (<[ch := UChan (uc_closed uc) (negb (uc_closed uc)) (uc_got uc)]> (h_heap h)) (h_http h)))
  | hub_unsubscribe c ch :
      (c, ch) ∈ h_http h → hub_step h (on_client c id (unsubscribe ch)).

Inductive hub_reach : hub → Prop :=
  | reach_new : hub_reach new_hub
  | reach_step h m : hub_reach h → hub_step h m → hub_reach (fst (m h)).

(** ** What a method may do to the channels *)

Definition flags (h : gmap ch_ref uchan) : gmap ch_ref bool := uc_closed <$> h.

(** A method of a client keeps its subscriptions open, opens only fresh
    channels, closes only its own and leaves the others alone. *)
Record tame (s s' : CS) : Prop := {
  t_id : cl_id (fst s') = cl_id (fst s);
  t_subs : ∀ ch, ch ∈ cl_subs (fst s') →
    flags (snd s') !! ch = Some false ∧ (ch ∈ cl_subs (fst s) ∨ flags (snd s) !! ch = None);
  t_others : ∀ ch b, ch ∉ cl_subs (fst s) → flags (snd s) !! ch = Some b →
    flags (snd s') !! ch = Some b;
  t_own : ∀ ch, ch ∈ cl_subs (fst s) →
    ∃ b, flags (snd s') !! ch = Some b ∧ (b = false → ch ∈ cl_subs (fst s'));
}.

(** All subscriptions of a client are open channels. *)
Definition subs_open (s : CS) : Prop :=
  ∀ ch, ch ∈ cl_subs (fst s) → flags (snd s) !! ch = Some false.

Lemma tame_refl s : subs_open s → tame s s.
Proof. intros Hs. split; [done|by auto|done|]. intros ch Hch. exists false. auto. Qed.

Lemma flags_open h ch : flags h !! ch = Some false →
  ∃ w g, h !! ch = Some (UChan false w g).
Proof.
  unfold flags. rewrite lookup_fmap. destruct (h !! ch) as [[c w g]|]; simpl; [|done].
  intros [= ->]. eauto.
Qed.

Lemma close_chan_open h ch :
  flags h !! ch = Some false →
  ∃ h', close_chan ch h = (h', Ok tt) ∧ flags h' = <[ch := true]> (flags h).
Proof.
  intros (w & g & Hc)%flags_open. unfold close_chan. rewrite Hc. simpl. eexists. split; [done|].
  unfold flags. by rewrite fmap_insert.
Qed.

Lemma try_send_open h ch msg :
  flags h !! ch = Some false →
  ∃ h', try_send_chan ch msg h = (h', Ok tt) ∧ flags h' = flags h.
Proof.
  intros Hf. destruct (flags_open _ _ Hf) as (w & g & Hc). unfold try_send_chan. rewrite Hc. simpl.
  destruct w; eexists; (split; [done|]); [|done].
  unfold flags in *. rewrite fmap_insert. by apply insert_id.
Qed.

Lemma broadcast_spec order msg cl h :
  (∀ ch, ch ∈ order → flags h !! ch = Some false) →
  ∃ h', broadcast_to order msg (cl, h) = ((cl, h'), Ok tt) ∧ flags h' = flags h.
Proof.
  revert h. induction order as [|sub order IH]; intros h Ho; simpl; [by eexists|].
  destruct (try_send_open h sub msg) as (h1 & Hs & Hf1); [apply Ho; set_solver|].
  unfold mbind, M_bind, on_heap, zoom; simpl. rewrite Hs.
  destruct (IH h1) as (h2 & -> & Hf2); [rewrite Hf1; set_solver|].
  exists h2. split; [done|]. by rewrite Hf2.
Qed.

Lemma close_subs_spec order cl h :
  NoDup order → (∀ ch, ch ∈ order → flags h !! ch = Some false) →
  ∃ h', close_subs order (cl, h)
    = ((MkClient (cl_id cl) (cl_subs cl ∖ list_to_set order) (cl_done cl), h'), Ok tt)
  ∧ (∀ ch, ch ∈ order → flags h' !! ch = Some true)
  ∧ (∀ ch, ch ∉ order → flags h' !! ch = flags h !! ch).
Proof.
  revert cl h. induction order as [|sub order IH]; intros cl h Hnd Ho; simpl.
  { exists h. split_and!; [|set_solver|done]. destruct cl; simpl. by rewrite difference_empty_L. }
  apply NoDup_cons in Hnd as [Hsub Hnd].
  destruct (close_chan_open h sub) as (h1 & Hc & Hf1); [apply Ho; set_solver|].
  unfold mbind, M_bind, on_heap, zoom, modify, set_subs; simpl. rewrite Hc; simpl.
  destruct (IH (MkClient (cl_id cl) (cl_subs cl ∖ {[sub]}) (cl_done cl)) h1) as (h2 & -> & Hin & Hout); [done| |].
  { intros ch Hch. rewrite Hf1, lookup_insert_ne by set_solver. apply Ho. set_solver. }
  exists h2. split_and!.
  - simpl. by rewrite difference_difference_l_L.
  - intros ch [->|Hch]%elem_of_cons; [|by apply Hin].
    rewrite Hout by done. by rewrite Hf1, lookup_insert_eq.
  - intros ch Hch. rewrite Hout by set_solver. rewrite Hf1, lookup_insert_ne by set_solver. done.
Qed.

Lemma broadcast_tame order msg s :
  subs_open s → order ≡ₚ elements (cl_subs (fst s)) →
  ∃ s', broadcast order msg s = (s', Ok tt) ∧ fst s' = fst s ∧ tame s s'.
Proof.
  destruct s as [cl h]; simpl. intros Hs Ho. unfold broadcast.
  destruct (broadcast_spec order msg cl h) as (h' & -> & Hf).
  { intros ch Hch. apply Hs; simpl. by rewrite Ho, elem_of_elements in Hch. }
  eexists. split; [done|]. split; [done|]. split; simpl; rewrite ?Hf; [done|by auto|done|].
  intros ch Hch. exists false. auto.
Qed.

Lemma close_tame order s :
  subs_open s → cl_done (fst s) = false → order ≡ₚ elements (cl_subs (fst s)) →
  ∃ s', close order s = (s', Ok tt) ∧ cl_subs (fst s') = ∅ ∧ cl_done (fst s') = true ∧ tame s s'.
Proof.
  destruct s as [cl h]; simpl. intros Hs Hd Ho.
  assert (∀ ch, ch ∈ order ↔ ch ∈ cl_subs cl) as Hin by (intros ch; by rewrite Ho, elem_of_elements).
  destruct (close_subs_spec order cl h) as (h' & Hc & Ht & Hf).
  { rewrite Ho. apply NoDup_elements. }
  { intros ch Hch. by apply Hs, Hin. }
  assert (cl_subs cl ∖ list_to_set order = ∅) as Hempty by set_solver.
  unfold close, mbind, M_bind. rewrite Hc, Hempty. unfold close_done; simpl. rewrite Hd.
  eexists. split; [done|]. split; [done|]. split; [done|]. split; simpl; [done|set_solver| |].
  - intros ch b Hch Hb. rewrite Hf; [done|]. by rewrite Hin.
  - intros ch Hch. exists true. split; [|done]. by apply Ht, Hin.
Qed.

Lemma subscribe_tame s :
  subs_open s →
  ∃ ch s', subscribe s = (s', Ok ch) ∧ cl_done (fst s') = cl_done (fst s)
  ∧ ch ∈ cl_subs (fst s') ∧ flags (snd s') !! ch = Some false ∧ tame s s'.
Proof.
  destruct s as [cl h]; intros Hs. unfold subscribe, mbind, M_bind, gets, on_heap, zoom, modify, set_subs; simpl.
  set (ch := fresh (dom h)). eexists ch, _. split; [done|]; simpl. split; [done|].
  assert (h !! ch = None) as Hch by (apply not_elem_of_dom, is_fresh).
  assert (flags (<[ch := UChan false false []]> h) = <[ch := false]> (flags h)) as Hf
    by (unfold flags; by rewrite fmap_insert).
  split; [set_solver|]. rewrite Hf, lookup_insert_eq. split; [done|].
  assert (flags h !! ch = None) as Hn by (unfold flags; by rewrite lookup_fmap, Hch).
  split; simpl; rewrite ?Hf.
  - done.
  - intros c [->%elem_of_singleton|Hc]%elem_of_union; [rewrite lookup_insert_eq; auto|].
    pose proof (Hs c Hc) as Ho; simpl in Ho. rewrite lookup_insert_ne by (intros <-; congruence). auto.
  - intros c b Hc Hb. rewrite lookup_insert_ne by (intros <-; congruence). done.
  - intros c Hc. pose proof (Hs c Hc) as Ho; simpl in Ho. exists false.
    rewrite lookup_insert_ne by (intros <-; congruence). split; [done|set_solver].
Qed.

Lemma unsubscribe_tame ch s :
  subs_open s →
  ∃ s', unsubscribe ch s = (s', Ok tt) ∧ cl_done (fst s') = cl_done (fst s)
  ∧ cl_subs (fst s') ⊆ cl_subs (fst s) ∧ tame s s'.
Proof.
  destruct s as [cl h]; intros Hs. unfold unsubscribe, mbind at 1, M_bind at 1, gets. simpl.
  case_bool_decide as Hch; [|by eexists; eauto using tame_refl].
  destruct (close_chan_open h ch) as (h' & Hc & Hf); [by apply Hs|].
  unfold mbind, M_bind, on_heap, zoom, modify, set_subs; simpl. rewrite Hc; simpl.
  eexists. split; [done|]. simpl. split; [done|]. split; [set_solver|].
  split; simpl; rewrite ?Hf.
  - done.
  - intros c Hc'. rewrite lookup_insert_ne by set_solver. split; [apply Hs; set_solver|set_solver].
  - intros c b Hc' Hb. rewrite lookup_insert_ne by set_solver. done.
  - intros c Hc'. destruct (decide (c = ch)) as [->|].
    + exists true. by rewrite lookup_insert_eq.
    + exists false. rewrite lookup_insert_ne by done. split; [by apply Hs|set_solver].
Qed.

(** ** The invariant of the daemon *)

Record hub_inv (h : hub) : Prop := {
  hi_subs : ∀ c cl pc, h_conns h !! c = Some (cl, pc) → subs_open (cl, h_heap h);
  hi_disj : ∀ c1 c2 cl1 cl2 pc1 pc2 ch,
    h_conns h !! c1 = Some (cl1, pc1) → h_conns h !! c2 = Some (cl2, pc2) →
    ch ∈ cl_subs cl1 → ch ∈ cl_subs cl2 → c1 = c2;
  hi_pc : ∀ c cl pc, h_conns h !! c = Some (cl, pc) →
    (cl_done cl = true ↔ pc = Closed) ∧ (pc = Closed → cl_subs cl = ∅);
  hi_keys : ∀ key c, h_clients h !! key = Some c →
    ∃ cl, h_conns h !! c = Some (cl, Serving) ∧ cl_id cl = key;
  hi_http : ∀ c ch, (c, ch) ∈ h_http h →
    ∃ cl pc b, h_conns h !! c = Some (cl, pc) ∧ flags (h_heap h) !! ch = Some b
      ∧ (b = false → ch ∈ cl_subs cl);
}.

(** The hub after a method of client [c] took [(cl, h_heap h)] to [s']. *)
Definition client_update (c : cl_ref) (pc : conn_pc) (s' : CS) (h : hub) : hub :=
  MkHub (h_clients h) (<[c := (fst s', pc)]> (h_conns h)) (snd s') (h_http h).

Lemma client_update_inv c cl pc pc' s' h :
  hub_inv h → h_conns h !! c = Some (cl, pc) → tame (cl, h_heap h) s' →
  (pc = Serving → pc' = Serving) →
  (cl_done (fst s') = true ↔ pc' = Closed) → (pc' = Closed → cl_subs (fst s') = ∅) →
  hub_inv (client_update c pc' s' h).
Proof.
  intros [Hs Hd Hp Hk Hh] Hc [Tid Tsubs Toth Town] Hserv Hdone Hempty. simpl in *.
  assert (∀ c2 cl2 pc2 ch, c2 ≠ c → h_conns h !! c2 = Some (cl2, pc2) → ch ∈ cl_subs cl2 →
    ch ∉ cl_subs (fst s')) as Hfresh.
  { intros c2 cl2 pc2 ch Hne Hc2 Hch Hch'. destruct (Tsubs ch Hch') as [_ [Hin|Hn]].
    - by destruct Hne; apply (Hd c2 c cl2 cl pc2 pc ch).
    - pose proof (Hs _ _ _ Hc2 ch Hch). simpl in *. congruence. }
  split; simpl.
  - intros c2 cl2 pc2 Hc2 ch Hch. simpl in *. destruct (decide (c2 = c)) as [->|Hne].
    + rewrite lookup_insert_eq in Hc2. simplify_eq. by apply Tsubs.
    + rewrite lookup_insert_ne in Hc2 by done. apply Toth; [|by apply (Hs _ _ _ Hc2)].
      intros Hin. by destruct Hne; apply (Hd c2 c cl2 cl pc2 pc ch).
  - intros c1 c2 cl1 cl2 pc1 pc2 ch [[<- [= <- <-]]|[? H1]]%lookup_insert_Some
      [[<- [= <- <-]]|[? H2]]%lookup_insert_Some Hch1 Hch2; [done|..].
    + by destruct (Hfresh c2 cl2 pc2 ch).
    + by destruct (Hfresh c1 cl1 pc1 ch).
    + by apply (Hd c1 c2 cl1 cl2 pc1 pc2 ch).
  - intros c2 cl2 pc2 Hc2. destruct (decide (c2 = c)) as [->|Hne].
    + rewrite lookup_insert_eq in Hc2. by simplify_eq.
    + rewrite lookup_insert_ne in Hc2 by done. by apply (Hp c2).
  - intros key c2 Hc2. destruct (Hk key c2 Hc2) as (cl2 & Hcl2 & Hid).
    destruct (decide (c2 = c)) as [->|Hne].
    + simplify_eq. exists (fst s'). rewrite lookup_insert_eq. by rewrite Hserv, Tid.
    + exists cl2. by rewrite lookup_insert_ne.
  - intros c2 ch Hin. destruct (Hh c2 ch Hin) as (cl2 & pc2 & b & Hc2 & Hb & Hopen).
    destruct (decide (c2 = c)) as [->|Hne].
    + simplify_eq. rewrite lookup_insert_eq. destruct (decide (ch ∈ cl_subs cl)) as [Hch|Hch].
      * destruct (Town ch Hch) as (b' & Hb' & Hsub). by exists (fst s'), pc', b'.
      * exists (fst s'), pc', b. split_and!; [done|by apply Toth|]. by intros ?%Hopen.
    + exists cl2, pc2. rewrite lookup_insert_ne by done.
      destruct (decide (ch ∈ cl_subs cl)) as [Hch|Hch]; [|by exists b; auto].
      destruct (Town ch Hch) as (b' & Hb' & Hsub). exists b'. split_and!; [done..|].
      intros ->. destruct b; [|by auto].
      pose proof (Hs _ _ _ Hc ch Hch) as Ho. simpl in Ho. congruence.
Qed.

Lemma on_client_eq {A} c cl pc pc' (m : M CS A) s' r h :
  h_conns h !! c = Some (cl, pc) → m (cl, h_heap h) = (s', r) →
  on_client c pc' m h = (client_update c (pc' pc) s' h, r).
Proof. intros Hc Hm. unfold on_client, client_update. by rewrite Hc, Hm. Qed.

Lemma connect_inv c id h : hub_inv h → h_conns h !! c = None → hub_inv (connect c id h).
Proof.
  intros [Hs Hd Hp Hk Hh] Hc. split; simpl.
  - intros c2 cl2 pc2 Hc2 ch Hch. destruct (decide (c2 = c)) as [->|].
    + rewrite lookup_insert_eq in Hc2. simplify_eq. simpl in Hch. set_solver.
    + rewrite lookup_insert_ne in Hc2 by done. by apply (Hs _ _ _ Hc2).
  - intros c1 c2 cl1 cl2 pc1 pc2 ch [[<- [= <- <-]]|[? H1]]%lookup_insert_Some
      [[<- [= <- <-]]|[? H2]]%lookup_insert_Some Hch1 Hch2; [done|set_solver|set_solver|].
    by apply (Hd c1 c2 cl1 cl2 pc1 pc2 ch).
  - intros c2 cl2 pc2 Hc2. destruct (decide (c2 = c)) as [->|].
    + rewrite lookup_insert_eq in Hc2. simplify_eq. done.
    + rewrite lookup_insert_ne in Hc2 by done. by apply (Hp c2).
  - intros key c2 Hc2. destruct (decide (key = id)) as [->|].
    + rewrite lookup_insert_eq in Hc2. simplify_eq. exists (newClient id). by rewrite lookup_insert_eq.
    + rewrite lookup_insert_ne in Hc2 by done. destruct (Hk key c2 Hc2) as (cl2 & Hcl2 & Hid).
      exists cl2. rewrite lookup_insert_ne by congruence. done.
  - intros c2 ch Hin. destruct (Hh c2 ch Hin) as (cl2 & pc2 & b & Hc2 & Hb & Hopen).
    exists cl2, pc2, b. rewrite lookup_insert_ne by congruence. done.
Qed.

Lemma remove_inv c cl h :
  hub_inv h → h_conns h !! c = Some (cl, Serving) → hub_inv (remove c h).
Proof.
  intros [Hs Hd Hp Hk Hh] Hc. unfold remove. rewrite Hc. split; simpl.
  - intros c2 cl2 pc2 [[<- [= <- <-]]|[? Hc2]]%lookup_insert_Some; [|by eapply Hs].
    by apply (Hs _ _ _ Hc).
  - intros c1 c2 cl1 cl2 pc1 pc2 ch [[<- [= <- <-]]|[? H1]]%lookup_insert_Some
      [[<- [= <- <-]]|[? H2]]%lookup_insert_Some Hch1 Hch2; [done|..].
    + by apply (Hd c c2 cl cl2 Serving pc2 ch).
    + by apply (Hd c1 c cl1 cl pc1 Serving ch).
    + by apply (Hd c1 c2 cl1 cl2 pc1 pc2 ch).
  - intros c2 cl2 pc2 [[<- [= <- <-]]|[? Hc2]]%lookup_insert_Some; [|by apply (Hp c2)].
    destruct (Hp _ _ _ Hc) as [[H1 _] _]. split; [|done]. split; [|done]. by intros ?%H1.
  - intros key c2 [Hne Hc2]%lookup_delete_Some. destruct (Hk key c2 Hc2) as (cl2 & Hcl2 & Hid).
    exists cl2. rewrite lookup_insert_ne; [done|]. intros <-. simplify_eq.
  - intros c2 ch Hin. destruct (Hh c2 ch Hin) as (cl2 & pc2 & b & Hc2 & Hb & Hopen).
    destruct (decide (c2 = c)) as [->|].
    + simplify_eq. rewrite lookup_insert_eq. by eexists _, _, _.
    + rewrite lookup_insert_ne by done. by eexists _, _, _.
Qed.

Lemma flags_insert_same h ch uc uc' :
  h !! ch = Some uc → uc_closed uc' = uc_closed uc → flags (<[ch := uc']> h) = flags h.
Proof.
  intros Hc He. unfold flags. rewrite fmap_insert, He. apply insert_id. by rewrite lookup_fmap, Hc.
Qed.

Lemma heap_inv heap h :
  hub_inv h → flags heap = flags (h_heap h) →
  hub_inv (MkHub (h_clients h) (h_conns h) heap (h_http h)).
Proof.
  intros [Hs Hd Hp Hk Hh] Hf. split; simpl; rewrite ?Hf; [|done..].
  intros c cl pc Hc ch Hch. simpl. rewrite Hf. by apply (Hs _ _ _ Hc).
Qed.

(** A new subscription: [None] when the key is unknown. *)
Lemma route_events_spec key h :
  hub_inv h →
  ∃ h' o, route_events key h = (h', Ok o) ∧ hub_inv h'
  ∧ match h_clients h !! key with
    | None => o = None ∧ h' = h
    | Some c => ∃ ch cl, o = Some ch ∧ h_http h' = h_http h ++ [(c, ch)]
                ∧ h_conns h' !! c = Some (cl, Serving) ∧ ch ∈ cl_subs cl
    end.
Proof.
  intros Hi. unfold route_events. destruct (h_clients h !! key) as [c|] eqn:Hkey; [|by exists h, None].
  destruct (hi_keys h Hi key c Hkey) as (cl & Hc & Hid).
  destruct (subscribe_tame (cl, h_heap h)) as (ch & s' & Hsub & Hdone & Hch & Hf & Ht);
    [by eapply (hi_subs h)|].
  unfold mbind, M_bind. rewrite (on_client_eq c cl Serving id subscribe s' _ h Hc Hsub). simpl.
  assert (hub_inv (client_update c Serving s' h)) as Hi'.
  { apply (client_update_inv c cl Serving); try done. rewrite Hdone. simpl. by eapply (hi_pc h). }
  eexists _, _. split; [done|]. split.
  - destruct Hi' as [H1 H2 H3 H4 H5]. split; simpl; [done..|].
    intros c2 ch2 [Hin|[=->->]%list_elem_of_singleton]%elem_of_app; [by apply H5|].
    rewrite lookup_insert_eq. by exists (fst s'), Serving, false.
  - exists ch, (fst s'). simpl. by rewrite lookup_insert_eq.
Qed.

Lemma hub_step_inv h m :
  hub_inv h → hub_step h m → snd (m h) = Ok tt ∧ hub_inv (fst (m h)).
Proof.
  intros Hi Hstep. destruct Hstep.
  - split; [done|]. by apply connect_inv.
  - destruct (broadcast_tame order msg (cl, h_heap h)) as (s' & Hb & Hfst & Ht); [by eapply (hi_subs h)|done|].
    rewrite (on_client_eq c cl Serving id _ s' (Ok tt)) by done. split; [done|].
    apply (client_update_inv c cl Serving); try done. rewrite Hfst. by eapply (hi_pc h).
  - split; [done|]. by eapply remove_inv.
  - destruct (hi_pc h Hi _ _ _ H) as [Hpc _].
    destruct (close_tame order (cl, h_heap h)) as (s' & Hb & Hempty & Hd & Ht); [by eapply (hi_subs h)| |done|].
    { simpl. destruct (cl_done cl); [|done]. destruct Hpc as [Hpc _]. by discriminate Hpc. }
    rewrite (on_client_eq c cl Removed _ _ s' (Ok tt)) by done. split; [done|].
    by apply (client_update_inv c cl Removed).
  - destruct (route_events_spec key h Hi) as (h' & o & Hr & Hi' & _).
    unfold ignore. by rewrite Hr.
  - split; [done|]. simpl. apply heap_inv; [done|]. by eapply flags_insert_same.
  - destruct (hi_http h Hi _ _ H) as (cl & pc & b & Hc & _).
    destruct (unsubscribe_tame ch (cl, h_heap h)) as (s' & Hb & Hd & Hsub & Ht); [by eapply (hi_subs h)|].
    rewrite (on_client_eq c cl pc id _ s' (Ok tt)) by done. split; [done|].
    destruct (hi_pc h Hi _ _ _ Hc) as [Hpc He]. simpl in *.
    apply (client_update_inv c cl pc); try done; [by rewrite Hd|]. intros Hcl. specialize (He Hcl). set_solver.
Qed.

Lemma hub_reach_inv h : hub_reach h → hub_inv h.
Proof.
  induction 1 as [|h m Hr IH Hs].
  - split; simpl; [intros *; rewrite lookup_empty; done..|set_solver].
  - by apply (hub_step_inv h m IH Hs).
Qed.

(** A client that connects, gets a subscriber, loses its connection and ends. *)
Definition ex_key : vec u8 16 := arr_of 16 [U8 1; U8 2].
Definition ex_hub1 : hub := fst (modify (connect 0 ex_key) new_hub).
Definition ex_hub2 : hub := fst (ignore (route_events ex_key) ex_hub1).
Definition ex_hub3 : hub := fst (modify (remove 0) ex_hub2).
Definition ex_hub4 : hub := fst (on_client 0 (λ _, Closed) (close [0]) ex_hub3).

Lemma ex_hub2_reach : hub_reach ex_hub2.
Proof.
  eapply reach_step; [|apply hub_subscribe].
  eapply reach_step; [apply reach_new|apply hub_connect; done].
Qed.

Lemma ex_hub2_conn : h_conns ex_hub2 !! 0 = Some (MkClient ex_key {[0]} false, Serving).
Proof. by_compute. Qed.

Lemma ex_hub3_conn : h_conns ex_hub3 !! 0 = Some (MkClient ex_key {[0]} false, Removed).
Proof. by_compute. Qed.

Lemma ex_hub4_reach : hub_reach ex_hub4.
Proof.
  eapply reach_step; [|eapply hub_close; [apply ex_hub3_conn|simpl; by rewrite elements_singleton]].
  eapply reach_step; [apply ex_hub2_reach|]. eapply hub_remove, ex_hub2_conn.
Qed.

(** C32: no method of the daemon ever panics and every subscription ends.
    Whatever connections, messages, subscriptions and closings interleave, no channel
    is closed twice and none is sent to after it was closed.  A subscription is only
    ever given out on a client whose connection is being served, and once that
    connection's goroutine has finished, the channel of every subscription given out
    on it is closed, so the HTTP handler that holds it returns. *)
Theorem hub_channels h :
  hub_reach h →
  (∀ m, hub_step h m → snd (m h) = Ok tt)
  ∧ ∀ c ch cl, (c, ch) ∈ h_http h → h_conns h !! c = Some (cl, Closed) →
     (∃ uc, h_heap h !! ch = Some uc ∧ uc_closed uc = true)
     ∧ ∀ key, h_clients h !! key ≠ Some c.
Proof.
  intros Hr. pose proof (hub_reach_inv h Hr) as Hi. split; [intros m Hs; by apply (hub_step_inv h m)|].
  intros c ch cl Hin Hc. split.
  - destruct (hi_http h Hi _ _ Hin) as (cl' & pc & b & Hc' & Hb & Hsub). simplify_eq.
    destruct (hi_pc h Hi _ _ _ Hc) as [_ He]. destruct b; [|set_solver].
    unfold flags in Hb. rewrite lookup_fmap in Hb. apply fmap_Some in Hb as (uc & Hu & ->). eauto.
  - intros key Hk. destruct (hi_keys h Hi key c Hk) as (cl' & Hc' & _). simplify_eq.
Qed.

Lemma hub_channels_witness :
  snd (on_client 0 id (broadcast [0] (str "{}")) ex_hub2) = Ok tt
  ∧ (∃ uc, h_heap ex_hub4 !! 0 = Some uc ∧ uc_closed uc = true)
  ∧ ∀ key, h_clients ex_hub4 !! key ≠ Some 0.
Proof.
  split.
  - destruct (hub_channels ex_hub2 ex_hub2_reach) as [H _]. apply H.
    eapply hub_message; [apply ex_hub2_conn|]. simpl. rewrite elements_singleton. reflexivity.
  - destruct (hub_channels ex_hub4 ex_hub4_reach) as [_ H].
    apply (H 0 0 (MkClient ex_key ∅ true)).
    + apply (bool_decide_unpack _). vm_compute. exact I.
    + apply (bool_decide_unpack _). vm_compute. exact I.
Defined.

End daemon.
