(* ===== verification/DaemonWire.v ===== *)
(** * The wire of the daemon (client/internal/daemon/msg.go, conn.go, daemon.go)

    The JSON of a message, the frames of [sendMsg] and [recvMsg], the client's
    [sendLoop], and the loop of [handleConnection] that turns what it receives into
    the strings it broadcasts; the list of clients of the HTTP server (http.go). *)

From stdpp Require Import base gmap sets strings vector numbers tactics list.
From Stdlib Require Import ZArith Lia.
From S2P Require Import Prelude Words GoIO GoStr Json IpcMsg Daemon.

Import daemon.

(** ** The JSON of a message *)

(** The tag [omitempty]. *)
Definition omit_string (name : string) (v : bytes) : list (bytes * bytes) :=
  if decide (v = []) then [] else [(str name, json_string v)].
Definition omit_int (name : string) (z : Z) : list (bytes * bytes) :=
  if decide (z = 0)%Z then [] else [(str name, json_int z)].
Definition omit_bool_ptr (name : string) (b : option bool) : list (bytes * bytes) :=
  match b with None => [] | Some b => [(str name, json_bool b)] end.

Definition msg_members (m : Msg) : list (bytes * bytes) :=
  [(str "type", json_string (Type_ m))]
  ++ omit_string "sessionId" (SessionID m) ++ omit_string "playerId" (PlayerID m)
  ++ omit_string "playerName" (PlayerName m) ++ omit_int "worldId" (WorldID m)
  ++ omit_string "item" (Item m) ++ omit_string "location" (Location m)
  ++ omit_string "original" (Original m) ++ omit_string "entrance" (Entrance m)
  ++ omit_string "age" (Age m) ++ omit_bool_ptr "self" (Self m).

(** [json.Marshal(msg)], which has no error for this type. *)
Definition Marshal (m : Msg) : bytes := json_object (msg_members m).

Definition zero_Msg : Msg := MkMsg [] [] [] [] 0 [] [] [] [] [] None.

Definition set_Type v m := MkMsg v (SessionID m) (PlayerID m) (PlayerName m) (WorldID m) (Item m)
  (Location m) (Original m) (Entrance m) (Age m) (Self m).
Definition set_SessionID v m := MkMsg (Type_ m) v (PlayerID m) (PlayerName m) (WorldID m) (Item m)
  (Location m) (Original m) (Entrance m) (Age m) (Self m).
Definition set_PlayerID v m := MkMsg (Type_ m) (SessionID m) v (PlayerName m) (WorldID m) (Item m)
  (Location m) (Original m) (Entrance m) (Age m) (Self m).
Definition set_PlayerName v m := MkMsg (Type_ m) (SessionID m) (PlayerID m) v (WorldID m) (Item m)
  (Location m) (Original m) (Entrance m) (Age m) (Self m).
Definition set_WorldID v m := MkMsg (Type_ m) (SessionID m) (PlayerID m) (PlayerName m) v (Item m)
  (Location m) (Original m) (Entrance m) (Age m) (Self m).
Definition set_Item v m := MkMsg (Type_ m) (SessionID m) (PlayerID m) (PlayerName m) (WorldID m) v
  (Location m) (Original m) (Entrance m) (Age m) (Self m).
Definition set_Location v m := MkMsg (Type_ m) (SessionID m) (PlayerID m) (PlayerName m) (WorldID m) (Item m)
  v (Original m) (Entrance m) (Age m) (Self m).
Definition set_Original v m := MkMsg (Type_ m) (SessionID m) (PlayerID m) (PlayerName m) (WorldID m) (Item m)
  (Location m) v (Entrance m) (Age m) (Self m).
Definition set_Entrance v m := MkMsg (Type_ m) (SessionID m) (PlayerID m) (PlayerName m) (WorldID m) (Item m)
  (Location m) (Original m) v (Age m) (Self m).
Definition set_Age v m := MkMsg (Type_ m) (SessionID m) (PlayerID m) (PlayerName m) (WorldID m) (Item m)
  (Location m) (Original m) (Entrance m) v (Self m).
Definition set_Self v m := MkMsg (Type_ m) (SessionID m) (PlayerID m) (PlayerName m) (WorldID m) (Item m)
  (Location m) (Original m) (Entrance m) (Age m) v.

Definition msg_fields : list (field Msg) :=
  [on_field "type" Type_ set_Type dec_string;
   on_field "sessionId" SessionID set_SessionID dec_string;
   on_field "playerId" PlayerID set_PlayerID dec_string;
   on_field "playerName" PlayerName set_PlayerName dec_string;
   on_field "worldId" WorldID set_WorldID dec_int;
   on_field "item" Item set_Item dec_string;
   on_field "location" Location set_Location dec_string;
   on_field "original" Original set_Original dec_string;
   on_field "entrance" Entrance set_Entrance dec_string;
   on_field "age" Age set_Age dec_string;
   on_field "self" Self set_Self dec_bool_ptr].

(** ** Frames *)

Definition sendMsg (msg : Msg) : M conn unit :=
  let data := Marshal msg in
  header ← lift (le_put32 (zeros 4) 0 4 (U32 (Z.of_nat (length data))));
  conn_write header;;
  conn_write data.

Definition recvMsg : M conn Msg :=
  header ← conn_read_full 4;
  size ← lift (le_Uint32 header);
  data ← conn_read_full (Z.to_nat (uval size));
  lift (Unmarshal (dec_struct msg_fields) zero_Msg data).

(** The messages that [sendLoop] takes from [chSend]; the error of [sendMsg] is
    dropped. *)
Fixpoint sendLoop (msgs : list Msg) : M conn unit :=
  match msgs with
  | [] => mret tt
  | data :: msgs => ignore (sendMsg data);; sendLoop msgs
  end.

(** The loop of [handleConnection] while the daemon runs: the strings it gives to
    [client.broadcast], until [recvMsg] fails. *)
Fixpoint relay (fuel : nat) : M conn (list bytes) := λ c,
  match fuel with
  | 0 => (c, NoFuel)
  | S fuel =>
      match recvMsg c with
      | (c, Ok msg) =>
          (rest ← relay fuel; mret (Marshal msg :: rest)) c
      | (c, Err _) => (c, Ok [])
      | (c, Panic) => (c, Panic)
      | (c, NoFuel) => (c, NoFuel)
      end
  end.

(** A message takes at least the four bytes of its header. *)
Definition relay_fuel (c : conn) : nat := S (length (rx c)).

(** ** The list of clients *)

Definition clientInfo (id : bytes) : bytes := json_object [(str "id", json_string id)].

(** The IDs in the order in which [d.clients] is visited. *)
Definition client_ids (order : list cl_ref) (h : hub) : list bytes :=
  omap (λ c, '(cl, _) ← h_conns h !! c; Some (hex_EncodeToString (vec_to_list (cl_id cl)))) order.

(** The body of the answer; [Encode] ends it with a newline. *)
Definition httpRouteClients (order : list cl_ref) (h : hub) : bytes :=
  json_object [(str "clients", json_array (clientInfo <$> client_ids order h))] ++ [U8 10].

(** ** What comes back *)

(** The strings of a message with their invalid bytes replaced. *)
Definition clean_msg (m : Msg) : Msg :=
  MkMsg (to_valid (Type_ m)) (to_valid (SessionID m)) (to_valid (PlayerID m)) (to_valid (PlayerName m))
    (WorldID m) (to_valid (Item m)) (to_valid (Location m)) (to_valid (Original m))
    (to_valid (Entrance m)) (to_valid (Age m)) (Self m).

Definition valid_msg (m : Msg) : Prop :=
  Forall valid_utf8 [Type_ m; SessionID m; PlayerID m; PlayerName m; Item m; Location m; Original m;
    Entrance m; Age m].

Lemma clean_valid m : valid_msg m → clean_msg m = m.
Proof.
  intros Hm. repeat (apply Forall_cons in Hm as [? Hm]). unfold clean_msg.
  rewrite !to_valid_id by done. by destruct m.
Qed.

(** The members of [Marshal m] as JSON values. *)
Definition json_of_string (name : string) (v : bytes) : list (bytes * json) :=
  if decide (v = []) then [] else [(str name, JString (to_valid v))].
Definition json_of_int (name : string) (z : Z) : list (bytes * json) :=
  if decide (z = 0)%Z then [] else [(str name, JNumber (json_int z))].
Definition json_of_bool_ptr (name : string) (b : option bool) : list (bytes * json) :=
  match b with None => [] | Some b => [(str name, JBool b)] end.

Definition msg_json (m : Msg) : list (bytes * json) :=
  [(str "type", JString (to_valid (Type_ m)))]
  ++ json_of_string "sessionId" (SessionID m) ++ json_of_string "playerId" (PlayerID m)
  ++ json_of_string "playerName" (PlayerName m) ++ json_of_int "worldId" (WorldID m)
  ++ json_of_string "item" (Item m) ++ json_of_string "location" (Location m)
  ++ json_of_string "original" (Original m) ++ json_of_string "entrance" (Entrance m)
  ++ json_of_string "age" (Age m) ++ json_of_bool_ptr "self" (Self m).

Lemma reads_omit_string name v :
  ascii (str name) → Forall2 reads_member (omit_string name v) (json_of_string name v).
Proof.
  intros Hn. unfold omit_string, json_of_string. case_decide; constructor; [|done].
  split_and!; [done..|apply reads_string].
Qed.

Lemma reads_omit_int name z :
  ascii (str name) → Forall2 reads_member (omit_int name z) (json_of_int name z).
Proof.
  intros Hn. unfold omit_int, json_of_int. case_decide; constructor; [|done].
  split_and!; [done..|apply reads_int].
Qed.

Lemma reads_omit_bool_ptr name b :
  ascii (str name) → Forall2 reads_member (omit_bool_ptr name b) (json_of_bool_ptr name b).
Proof. intros Hn. destruct b; constructor; [|done]. split_and!; [done..|apply reads_bool]. Qed.

Ltac by_ascii := repeat constructor; by_compute.

Lemma parse_Marshal m : parse_json (Marshal m) = Ok (JObject (msg_json m)).
Proof.
  apply parse_json_object. unfold msg_members, msg_json.
  apply Forall2_app; [constructor; [|done]; split_and!; [done|by_ascii|apply reads_string]|].
  repeat (apply Forall2_app; [first [apply reads_omit_string|apply reads_omit_int]; by_ascii|]).
  apply reads_omit_bool_ptr. by_ascii.
Qed.

Lemma dec_members_app {S} (fields : list (field S)) s ms1 ms2 :
  dec_members fields s (ms1 ++ ms2) = (s' ← dec_members fields s ms1; dec_members fields s' ms2).
Proof.
  revert s. induction ms1 as [|[k j] ms1 IH]; intros s; [done|]. cbn [app dec_members].
  rewrite res_bind_assoc. destruct (find_field fields k) as [f|]; [|by rewrite !res_bind_ok].
  by destruct (f s j); cbn [mbind res_bind].
Qed.

(** A member that was omitted leaves the zero value, any other one sets it. *)
Lemma dec_string_member {S} (fields : list (field S)) s name get set v :
  find_field fields (str name) = Some (on_field name get set dec_string).2 → set [] s = s →
  dec_members fields s (json_of_string name v) = Ok (set (to_valid v) s).
Proof.
  intros Hf Hs. unfold json_of_string. case_decide as Hv.
  { subst. change (to_valid []) with (@nil u8). by rewrite Hs. }
  cbn [dec_members]. by rewrite Hf.
Qed.

Lemma dec_int_member {S} (fields : list (field S)) s name get set z :
  find_field fields (str name) = Some (on_field name get set dec_int).2 → set 0%Z s = s → in_int64 z →
  dec_members fields s (json_of_int name z) = Ok (set z s).
Proof.
  intros Hf Hs Hz. unfold json_of_int. case_decide as Hv; [subst; by rewrite Hs|].
  cbn [dec_members]. rewrite Hf. cbn [on_field snd]. unfold dec_int.
  destruct (json_int_spec z) as (_ & _ & _ & _ & ->). by rewrite decide_True.
Qed.

Lemma dec_bool_member {S} (fields : list (field S)) s name get set b :
  find_field fields (str name) = Some (on_field name get set dec_bool_ptr).2 → set None s = s →
  dec_members fields s (json_of_bool_ptr name b) = Ok (set b s).
Proof. intros Hf Hs. destruct b as [b|]; [|by rewrite <- Hs at 1]. cbn [json_of_bool_ptr dec_members]. by rewrite Hf. Qed.

Ltac msg_cbn :=
  cbv beta iota delta [set_Type set_SessionID set_PlayerID set_PlayerName set_WorldID set_Item set_Location set_Original
    set_Entrance set_Age set_Self Type_ SessionID PlayerID PlayerName WorldID Item Location Original
    Entrance Age Self].

Lemma Unmarshal_Marshal m :
  in_int64 (WorldID m) → Unmarshal (dec_struct msg_fields) zero_Msg (Marshal m) = Ok (clean_msg m).
Proof.
  intros Hz. unfold Unmarshal. rewrite parse_Marshal, res_bind_ok. unfold dec_struct, msg_json, zero_Msg, clean_msg.
  rewrite dec_members_app.
  assert (∀ s v, dec_members msg_fields s [(str "type", JString v)] = Ok (set_Type v s)) as -> by done.
  rewrite res_bind_ok. msg_cbn.
  repeat (rewrite dec_members_app;
    first [erewrite dec_string_member|erewrite dec_int_member]; [|by reflexivity|by reflexivity|try exact Hz..];
    rewrite res_bind_ok; msg_cbn).
  rewrite (dec_bool_member _ _ "self" Self set_Self); msg_cbn; by reflexivity.
Qed.

(** ** The frames *)

Lemma sendMsg_Write m : sendMsg m = ipc.Write (Marshal m).
Proof. done. Qed.

Lemma recvMsg_Read c :
  recvMsg c = (data ← ipc.Read; lift (Unmarshal (dec_struct msg_fields) zero_Msg data)) c.
Proof.
  unfold recvMsg, ipc.Read, mbind, M_bind, lift.
  destruct (conn_read_full 4 c) as [c1 [h|e| |]]; [|done..].
  destruct (le_Uint32 h) as [n|e| |]; [|done..].
  by destruct (conn_read_full (Z.to_nat (uval n)) c1) as [c2 [d|e| |]].
Qed.

Lemma msg_fields_total : Forall field_total msg_fields.
Proof. unfold msg_fields. total_fields. Qed.

Lemma recvMsg_returns c : returns (snd (recvMsg c)).
Proof.
  rewrite recvMsg_Read. unfold mbind, M_bind. pose proof (ipc.Read_returns c) as [Hp Hf].
  destruct (ipc.Read c) as [c1 [d|e| |]]; [|done..].
  apply Unmarshal_returns, dec_struct_total, msg_fields_total.
Qed.

(** Messages whose JSON fits a frame. *)
Definition wire_msg (m : Msg) : Prop := in_int64 (WorldID m) ∧ ipc.frameable (Marshal m).

Definition wire (ms : list Msg) : bytes := concat (ipc.ipc_frame ∘ Marshal <$> ms).

Lemma recvMsg_frame m rest c :
  wire_msg m → rx c = ipc.ipc_frame (Marshal m) ++ rest →
  recvMsg c = (set_rx rest c, Ok (clean_msg m)).
Proof.
  intros [Hz Hf] Hc. rewrite recvMsg_Read. unfold mbind, M_bind.
  rewrite (ipc.Read_frame _ rest) by done. unfold lift. by rewrite Unmarshal_Marshal.
Qed.

(** Less than a frame is an error. *)
Lemma Read_cut data k c :
  ipc.frameable data → k < length (ipc.ipc_frame data) → rx c = take k (ipc.ipc_frame data) →
  ∃ c' e, ipc.Read c = (c', Err e).
Proof.
  unfold ipc.frameable. intros Hf Hk Hc. unfold ipc.Read, mbind, M_bind, conn_read_full, lift.
  unfold ipc.ipc_frame in *. rewrite length_app, length_le_bytes in Hk.
  destruct (decide (k < 4)) as [Hk4|Hk4].
  - destruct (read_full_lacking (rx c) (rx_end c) 4) as [e ->]; [|by eexists _, _].
    rewrite Hc, length_take. lia.
  - rewrite Hc, take_app_ge, length_le_bytes by (rewrite length_le_bytes; lia).
    rewrite read_full_app by len.
    assert (le_Uint32 (le_bytes 4 (Z.of_nat (length data))) = Ok (U32 (Z.of_nat (length data)))) as ->.
    { rewrite <- (uval_to_uint_small 32 (Z.of_nat (length data))) at 1 by lia. by rewrite le_Uint32_bytes. }
    rewrite uval_to_uint_small, Nat2Z.id by lia. cbn [rx rx_end set_rx].
    destruct (read_full_lacking (take (k - 4) data) (rx_end c) (length data)) as [e ->]; [|by eexists _, _].
    rewrite length_take. lia.
Qed.

Lemma sendLoop_wire ms c :
  Forall wire_msg ms → tx_script c = [] →
  sendLoop ms c = (set_tx (tx c ++ wire ms) [] c, Ok tt).
Proof.
  intros Hms. revert c. induction Hms as [|m ms [_ Hm] _ IH]; intros c Hs.
  - unfold wire; simpl. rewrite app_nil_r. destruct c. simpl in Hs. by subst.
  - cbn [sendLoop]. unfold mbind, M_bind, ignore. rewrite sendMsg_Write, (ipc.Write_ok _ c Hs Hm).
    rewrite IH by done. unfold wire. cbn [fmap list_fmap concat compose]. cbn [tx set_tx]. by rewrite app_assoc.
Qed.

(** The daemon on the first [k] bytes of what a client sent. *)
Lemma relay_wire ms k fuel c :
  Forall wire_msg ms → rx c = take k (wire ms) → length (rx c) < fuel →
  ∃ n, snd (relay fuel c) = Ok (Marshal ∘ clean_msg <$> take n ms)
  ∧ (length (wire ms) ≤ k → length ms ≤ n).
Proof.
  intros Hms. revert k fuel c. induction Hms as [|m ms Hm Hms IH]; intros k [|fuel] c Hc Hf; try lia.
  - unfold wire in Hc. simpl in Hc. rewrite take_nil in Hc. exists 0. split; [|simpl; lia].
    cbn [relay]. rewrite recvMsg_Read. unfold mbind at 1, M_bind at 1.
    destruct (Read_cut [] 0 c) as (c' & e & ->); [done|simpl; lia|done|done].
  - assert (wire (m :: ms) = ipc.ipc_frame (Marshal m) ++ wire ms) as Hw by done. rewrite Hw in *.
    destruct (decide (k < length (ipc.ipc_frame (Marshal m)))) as [Hk|Hk].
    + rewrite take_app_le in Hc by lia. exists 0. rewrite length_app. split; [|lia].
      cbn [relay]. rewrite recvMsg_Read. unfold mbind at 1, M_bind at 1.
      destruct (Read_cut (Marshal m) k c) as (c' & e & ->); [apply Hm|done|done|done].
    + rewrite take_app_ge in Hc by lia. cbn [relay]. rewrite (recvMsg_frame m _ c Hm Hc).
      destruct (IH (k - length (ipc.ipc_frame (Marshal m))) fuel
        (set_rx (take (k - length (ipc.ipc_frame (Marshal m))) (wire ms)) c)) as (n & Hr & Hn); [done| |].
      { assert (4 ≤ length (ipc.ipc_frame (Marshal m)))
          by (unfold ipc.ipc_frame; rewrite length_app, length_le_bytes; lia).
        apply (f_equal length) in Hc. rewrite length_app in Hc. cbn [rx set_rx]. lia. }
      exists (S n). rewrite length_app. split; [|intros Hl; simpl; apply le_n_S, Hn; lia].
      unfold mbind, M_bind. destruct (relay fuel _) as [c' r]. simpl in Hr. by subst r.
Qed.

(** The loop ends on every input. *)
Lemma recvMsg_consumes c c' m : recvMsg c = (c', Ok m) → length (rx c') < length (rx c).
Proof.
  unfold recvMsg, mbind at 1, M_bind at 1, conn_read_full at 1.
  destruct (read_full_from_cases (rx c) (rx_end c) 4) as [(h & Hh & Hl)|[e ->]]; [|done]. rewrite Hh.
  assert (4 ≤ length (rx c)) as H4.
  { unfold read_full_from in Hh. case_decide; [done|]. by simplify_eq. }
  unfold mbind, M_bind, lift. destruct (le_Uint32 h) as [n|e| |]; [|done..].
  unfold conn_read_full. cbn [rx rx_end set_rx].
  destruct (read_full_from_cases (drop 4 (rx c)) (rx_end c) (Z.to_nat (uval n))) as [(d & -> & _)|[e ->]]; [|done].
  intros [= <- _]. cbn [rx set_rx]. rewrite !length_drop. lia.
Qed.

Lemma relay_returns fuel c : length (rx c) < fuel → returns (snd (relay fuel c)).
Proof.
  revert c. induction fuel as [|fuel IH]; intros c Hf; [lia|]. cbn [relay].
  pose proof (recvMsg_returns c) as [Hp Hn]. pose proof (recvMsg_consumes c) as Hl.
  destruct (recvMsg c) as [c' [m|e| |]]; [|done..]. specialize (Hl c' m eq_refl).
  unfold mbind, M_bind. specialize (IH c' ltac:(lia)). by destruct (relay fuel c') as [c'' [| | |]].
Qed.

Lemma route_key_hex (id : vec u8 16) : route_key (hex_EncodeToString (vec_to_list id)) = Ok id.
Proof. unfold route_key. rewrite hex_round_trip, res_bind_ok. by rewrite arr_of_vec. Qed.

Lemma elem_of_client_ids order h path :
  path ∈ client_ids order h ↔
  ∃ c cl pc, c ∈ order ∧ h_conns h !! c = Some (cl, pc)
    ∧ path = hex_EncodeToString (vec_to_list (cl_id cl)).
Proof.
  unfold client_ids. rewrite list_elem_of_omap. split.
  - intros (c & Hc & Hp). destruct (h_conns h !! c) as [[cl pc]|] eqn:E; [|done].
    exists c, cl, pc. by injection Hp as <-.
  - intros (c & cl & pc & Hc & E & ->). exists c. by rewrite E.
Qed.

(** ** Properties *)

(** C31: what the game's events look like to a subscriber.  The frames that
    [sendLoop] writes for messages, read by the loop of [handleConnection] on a
    stream cut at any byte, become the broadcasts of a prefix of these messages, in
    order and of all of them when nothing was cut; each broadcast is the JSON of the
    message with the bytes of its strings that are not UTF-8 replaced, so the very
    JSON of the message when its strings are valid.  On any other bytes the loop
    ends without a panic. *)
Theorem daemon_relay ms k c d :
  Forall wire_msg ms → tx_script c = [] →
  (snd (sendLoop ms c) = Ok tt ∧ tx (fst (sendLoop ms c)) = tx c ++ wire ms)
  ∧ (rx d = take k (wire ms) →
     ∃ n, snd (relay (relay_fuel d) d) = Ok (Marshal ∘ clean_msg <$> take n ms)
     ∧ (length (wire ms) ≤ k → length ms ≤ n))
  ∧ (∀ m, valid_msg m → Marshal (clean_msg m) = Marshal m)
  ∧ (∀ d', returns (snd (relay (relay_fuel d') d'))).
Proof.
  intros Hms Hs. split; [by rewrite (sendLoop_wire ms c Hms Hs)|]. split; [|split].
  - intros Hd. apply relay_wire; [done..|unfold relay_fuel; lia].
  - intros m Hm. by rewrite clean_valid.
  - intros d'. apply relay_returns. unfold relay_fuel. lia.
Qed.

Definition ex_msgs : list Msg :=
  [MkMsg MsgTypeGameStart (str "00ff") (str "01") (str "Lin<k>") 3 [] [] [] [] [] None;
   MkMsg MsgTypeInfoItem [] [] [] 0 (str "BOW") [] [] [] [] (Some true)].

Lemma daemon_relay_witness :
  let d := conn_on (take 150 (wire ex_msgs)) EOF in
  (snd (sendLoop ex_msgs (conn_on [] EOF)) = Ok tt
   ∧ tx (fst (sendLoop ex_msgs (conn_on [] EOF))) = wire ex_msgs)
  ∧ ∃ n, snd (relay (relay_fuel d) d) = Ok (Marshal ∘ clean_msg <$> take n ex_msgs)
     ∧ (length (wire ex_msgs) ≤ 150 → length ex_msgs ≤ n).
Proof.
  intros d.
  assert (Forall wire_msg ex_msgs) as Hms by
    (repeat constructor; vm_compute; first [reflexivity|discriminate]).
  destruct (daemon_relay ex_msgs 150 (conn_on [] EOF) d Hms eq_refl) as (H1 & H2 & _).
  split; [exact H1|]. apply H2. reflexivity.
Defined.

(** The JSON of the first message, as Go writes it. *)
Example ex_json :
  Marshal (MkMsg MsgTypeInfoEntrance [] [] (str "L<k") (-30) [] [] [] [] [] (Some false))
  = str "{" ++ json_string (str "type") ++ str ":" ++ json_string (str "INFO_ENTRANCE")
    ++ str "," ++ json_string (str "playerName") ++ str ":" ++ [quote] ++ str "L\u003ck" ++ [quote]
    ++ str "," ++ json_string (str "worldId") ++ str ":-30"
    ++ str "," ++ json_string (str "self") ++ str ":false}".
Proof. by_compute. Qed.

(** An ID from the list of clients leads to its client.  Whatever the daemon
    went through, the answer of [httpRouteClients] lists exactly the registered
    clients, and a request for the events of a listed ID, as it was written, is
    decoded to the key of that very client and gets an open subscription on it while
    its connection is being served. *)
Theorem listed_client_found h order :
  hub_reach h → order ≡ₚ (map_to_list (h_clients h)).*2 →
  (∀ path, path ∈ client_ids order h ↔
     ∃ key c, h_clients h !! key = Some c ∧ path = hex_EncodeToString (vec_to_list key))
  ∧ ∀ key c, h_clients h !! key = Some c →
     route_key (hex_EncodeToString (vec_to_list key)) = Ok key
     ∧ let '(h', r) := route_events key h in
       ∃ ch cl uc, r = Ok (Some ch) ∧ (c, ch) ∈ h_http h'
       ∧ h_conns h' !! c = Some (cl, Serving) ∧ ch ∈ cl_subs cl
       ∧ h_heap h' !! ch = Some uc ∧ uc_closed uc = false.
Proof.
  intros Hr Ho. pose proof (hub_reach_inv h Hr) as Hi. split.
  - intros path. rewrite elem_of_client_ids. setoid_rewrite Ho. split.
    + intros (c & cl & pc & Hin & Hc & ->).
      apply list_elem_of_fmap in Hin as ([key c'] & -> & Hk%elem_of_map_to_list).
      destruct (hi_keys h Hi key c' Hk) as (cl' & Hc' & <-). simpl in Hc.
      rewrite Hc' in Hc. injection Hc as <- <-. by exists (cl_id cl'), c'.
    + intros (key & c & Hk & ->). destruct (hi_keys h Hi key c Hk) as (cl & Hc & <-).
      exists c, cl, Serving. split; [|done]. apply list_elem_of_fmap. exists (cl_id cl, c).
      by rewrite elem_of_map_to_list.
  - intros key c Hk. split; [apply route_key_hex|].
    destruct (route_events_spec key h Hi) as (h' & o & -> & Hi' & Hcase).
    rewrite Hk in Hcase. destruct Hcase as (ch & cl & -> & Hh & Hc & Hch).
    pose proof (hi_subs h' Hi' _ _ _ Hc ch Hch) as Hf. simpl in Hf.
    destruct (flags_open _ _ Hf) as (w & g & Hu).
    exists ch, cl, (UChan false w g). split_and!; [done| |done..].
    rewrite Hh. apply elem_of_app. right. by apply list_elem_of_singleton.
Qed.

Lemma listed_client_found_witness :
  client_ids [0] ex_hub2 = [str "01020000000000000000000000000000"]
  ∧ ∃ ch, snd (route_events ex_key ex_hub2) = Ok (Some ch).
Proof.
  split; [by_compute|]. destruct (listed_client_found ex_hub2 [0] ex_hub2_reach) as [_ H].
  - change (h_clients ex_hub2) with (<[ex_key := 0]> (∅ : gmap (vec u8 16) cl_ref)).
    rewrite map_to_list_insert, map_to_list_empty by apply lookup_empty. reflexivity.
  - destruct (H ex_key 0) as [_ H2]; [by_compute|]. destruct (route_events ex_key ex_hub2) as [h' r].
    destruct H2 as (ch & cl & uc & -> & _). exists ch. reflexivity.
Defined.
