(* ===== verification/DaemonConn.v ===== *)
(** * The client's end of the connection to the daemon (client/internal/daemon/conn.go)

    [Send], [sendLoop] and [Close] of a [DaemonConn] as they run side by side: what
    reaches the daemon of what the sessions send, up to the end of the client.
    [sendMsg] writes header and body in two calls, each of which may write a part at a
    time; a write fails when [Close] has shut the connection or the daemon is gone, so
    the last frame may be torn anywhere.  A write that fails for another reason is not
    modelled. *)

From stdpp Require Import base gmap sets strings vector numbers tactics list relations.
From Stdlib Require Import ZArith Lia.
From S2P Require Import Prelude Words GoIO GoStr Json IpcMsg Daemon DaemonWire.

Import daemon.

(** ** State *)

(** [sendLoop]: in its receive, in [sendMsg] before [json.Marshal], in one of its two
    [conn.Write] calls, and returned.  [cur] is what the current call has not
    written yet, [next] are the calls to come. *)
Inductive loop_pc : Type :=
  | LTake | LSend (data : Msg) | LWrite (data : Msg) (cur : bytes) (next : list bytes) | LReturned.

(** [dc_closed]: [chSend] is closed; [dc_shut]: the connection is; [dc_broken]: the
    daemon's end is gone, so that every write fails from then on. *)
Record DaemonConn : Type := MkDaemonConn {
  dc_conn : conn;
  dc_chSend : chSend;
  dc_closed : bool;
  dc_shut : bool;
  dc_broken : bool;
  dc_loop : loop_pc;
}.

Definition new_DaemonConn (c : conn) : DaemonConn :=
  MkDaemonConn c createDaemonConn false false false LTake.

Definition set_dconn c d :=
  MkDaemonConn c (dc_chSend d) (dc_closed d) (dc_shut d) (dc_broken d) (dc_loop d).
Definition set_ch p d :=
  MkDaemonConn (dc_conn d) p (dc_closed d) (dc_shut d) (dc_broken d) (dc_loop d).
Definition set_loop l d :=
  MkDaemonConn (dc_conn d) (dc_chSend d) (dc_closed d) (dc_shut d) (dc_broken d) l.
Definition break_conn d :=
  MkDaemonConn (dc_conn d) (dc_chSend d) (dc_closed d) (dc_shut d) true (dc_loop d).

(** [close(d.chSend)], then [d.conn.Close()]: a second call panics. *)
Definition close_channel : M DaemonConn unit := λ d,
  if dc_closed d then (d, Panic)
  else (MkDaemonConn (dc_conn d) (dc_chSend d) true (dc_shut d) (dc_broken d) (dc_loop d), Ok tt).
Definition shut_conn (d : DaemonConn) : DaemonConn :=
  MkDaemonConn (dc_conn d) (dc_chSend d) (dc_closed d) true (dc_broken d) (dc_loop d).

(** Writes fail. *)
Definition dead (d : DaemonConn) : bool := dc_shut d || dc_broken d.

(** [bs] reach the connection. *)
Definition put (bs : bytes) (d : DaemonConn) : DaemonConn :=
  set_dconn (set_tx (tx (dc_conn d) ++ bs) (tx_script (dc_conn d)) (dc_conn d)) d.

(** ** Steps *)

(** The label is the message that is sent.  A [conn.Write] writes its bytes in pieces;
    [Close] and the end of the daemon may come between two of them, and between the
    two calls of [sendMsg]. *)
Inductive conn_step (d : DaemonConn) : list Msg → DaemonConn → Prop :=
  (* Send, when the channel has room; sending on a closed channel panics *)
  | cs_send data :
      dc_closed d = false → chan_ready (pt_chan (dc_chSend d)) = true →
      conn_step d [data] (set_ch (port_push data (dc_chSend d)) d)
  (* sendLoop: a closed channel still gives what it holds *)
  | cs_take data rest :
      dc_loop d = LTake → ch_buf (pt_chan (dc_chSend d)) = data :: rest →
      conn_step d [] (set_loop (LSend data) (set_ch (port_take (dc_chSend d)) d))
  | cs_return :
      dc_loop d = LTake → dc_closed d = true → ch_buf (pt_chan (dc_chSend d)) = [] →
      conn_step d [] (set_loop LReturned d)
  (* sendMsg: its error is dropped *)
  | cs_marshal data header :
      dc_loop d = LSend data →
      le_put32 (zeros 4) 0 4 (U32 (Z.of_nat (length (Marshal data)))) = Ok header →
      conn_step d [] (set_loop (LWrite data header [Marshal data]) d)
  | cs_write data bs cur next :
      dc_loop d = LWrite data (bs ++ cur) next → bs ≠ [] → dead d = false →
      conn_step d [] (set_loop (LWrite data cur next) (put bs d))
  | cs_written data cur next :
      dc_loop d = LWrite data [] (cur :: next) → conn_step d [] (set_loop (LWrite data cur next) d)
  | cs_sent data :
      dc_loop d = LWrite data [] [] → conn_step d [] (set_loop LTake d)
  | cs_write_err data cur next :
      dc_loop d = LWrite data cur next → dead d = true → conn_step d [] (set_loop LTake d)
  (* Close *)
  | cs_close d' : close_channel d = (d', Ok tt) → conn_step d [] d'
  | cs_shut : dc_closed d = true → conn_step d [] (shut_conn d)
  (* the daemon goes away *)
  | cs_break : conn_step d [] (break_conn d).

(** An execution with the messages sent in it, oldest first. *)
Inductive conn_trace (d0 : DaemonConn) : list Msg → DaemonConn → Prop :=
  | ct_start : conn_trace d0 [] d0
  | ct_step tr d ms d' : conn_trace d0 tr d → conn_step d ms d' → conn_trace d0 (tr ++ ms) d'.

(** ** Invariant *)

(** The message that was taken and is not written to its end, and what of its frame
    is not on the connection. *)
Definition in_hand (d : DaemonConn) : list Msg :=
  match dc_loop d with LSend data | LWrite data _ _ => [data] | _ => [] end.
Definition unwritten (d : DaemonConn) : bytes :=
  match dc_loop d with
  | LSend data => wire [data]
  | LWrite _ cur next => cur ++ concat next
  | _ => []
  end.

(** [wr] are the messages written, [torn] what there is of the frame of the next one,
    [nxt]; [more] was taken after the connection died. *)
Record written (c0 : conn) (d : DaemonConn) (wr nxt more : list Msg) (torn : bytes) : Prop := {
  wr_taken : pt_taken (dc_chSend d) = wr ++ nxt ++ more;
  wr_tx : tx (dc_conn d) = tx c0 ++ wire wr ++ torn;
  wr_next : torn `prefix_of` wire nxt ∧ length nxt ≤ 1;
  wr_live : dead d = false → nxt = in_hand d ∧ more = [] ∧ torn ++ unwritten d = wire (in_hand d);
}.

Record conn_inv (c0 : conn) (tr : list Msg) (d : DaemonConn) : Prop := {
  ci_sent : pt_sent (dc_chSend d) = tr;
  ci_script : tx_script (dc_conn d) = [];
  ci_wr : ∃ wr nxt more torn, written c0 d wr nxt more torn;
}.

#[local] Arguments Marshal : simpl never.
#[local] Arguments wire : simpl never.

Lemma wire_app ms1 ms2 : wire (ms1 ++ ms2) = wire ms1 ++ wire ms2.
Proof. unfold wire. by rewrite fmap_app, concat_app. Qed.

Lemma wire_one m : wire [m] = ipc.ipc_frame (Marshal m).
Proof. unfold wire. cbn [fmap list_fmap concat compose]. by rewrite app_nil_r. Qed.

Lemma header_frame m header :
  wire_msg m → le_put32 (zeros 4) 0 4 (U32 (Z.of_nat (length (Marshal m)))) = Ok header →
  header ++ Marshal m = wire [m].
Proof.
  intros [_ Hf] Hh. unfold ipc.frameable in Hf.
  rewrite le_put32_whole, uval_to_uint_small in Hh by lia. injection Hh as <-. by rewrite wire_one.
Qed.

Lemma sendMsg_wire m c :
  wire_msg m → tx_script c = [] → sendMsg m c = (set_tx (tx c ++ wire [m]) [] c, Ok tt).
Proof. intros [_ Hf] Hs. by rewrite sendMsg_Write, (ipc.Write_ok _ c Hs Hf), wire_one. Qed.

(** A step of a dead connection writes nothing, and it stays dead. *)
Lemma dead_step d ms d' :
  dead d = true → conn_step d ms d' → tx (dc_conn d') = tx (dc_conn d) ∧ dead d' = true.
Proof.
  intros Hd Hs. destruct Hs as [| | | |? ? ? ? ? ? Hl| | | |d' Hc| |]; try (by split).
  - congruence.
  - unfold close_channel in Hc. destruct (dc_closed d); [done|]. by injection Hc as <-.
  - split; [done|]. unfold dead. simpl. apply orb_true_r.
Qed.

Lemma dead_trace d ms d' :
  dead d = true → conn_trace d ms d' → tx (dc_conn d') = tx (dc_conn d) ∧ dead d' = true.
Proof.
  intros Hd. induction 1 as [|tr d1 ms d2 _ [IH1 IH2] Hs]; [done|].
  destruct (dead_step d1 ms d2 IH2 Hs) as [-> ?]. done.
Qed.

(** The messages taken so far, after a step. *)
Lemma taken_step d ms d' :
  conn_step d ms d' → ∃ x, pt_taken (dc_chSend d') = pt_taken (dc_chSend d) ++ x
  ∧ (x ≠ [] → dc_loop d = LTake ∧ ∃ m, x = [m] ∧ dc_loop d' = LSend m).
Proof.
  intros Hs. destruct Hs as [data Hc Hr|data rest Hl Hb|Hl Hc Hb| | | | | |d' Hc| |];
    try (exists []; by rewrite app_nil_r).
  - exists [data]. unfold port_take. simpl. rewrite Hb. simpl. split; [done|]. intros _. split; [done|].
    by exists data.
  - exists []. rewrite app_nil_r. unfold close_channel in Hc. destruct (dc_closed d); [done|].
    by injection Hc as <-.
Qed.

(** What a dead connection wrote is settled. *)
Lemma written_dead c0 d wr nxt more torn ms d' :
  written c0 d wr nxt more torn → conn_step d ms d' → dead d' = true →
  tx (dc_conn d') = tx (dc_conn d) → ∃ more', written c0 d' wr nxt more' torn.
Proof.
  intros [H1 H2 H3 _] Hs Hd Ht. destruct (taken_step d ms d' Hs) as (x & Hx & _).
  exists (more ++ x). split; [by rewrite Hx, H1, <- !app_assoc|by rewrite Ht|done|congruence].
Qed.

(** A live step of [sendLoop]. *)
Lemma written_live c0 d ms d' wr nxt more torn :
  (∀ m, m ∈ pt_sent (dc_chSend d) → wire_msg m) →
  written c0 d wr nxt more torn → conn_step d ms d' → dead d' = false →
  ∃ wr' nxt' more' torn', written c0 d' wr' nxt' more' torn'.
Proof.
  intros Hw Hwr Hs Hd'. assert (dead d = false) as Hd.
  { destruct (dead d) eqn:Hd; [|done]. destruct (dead_step d ms d' Hd Hs). congruence. }
  pose proof Hwr as [H1 H2 [H3 H3'] H4]. destruct (H4 Hd) as (-> & -> & H5). unfold in_hand, unwritten in *.
  destruct Hs as [data Hc Hr|data rest Hl Hb|Hl Hc Hb|data header Hl Hh|data bs cur next Hl Hbs Hdd
    |data cur next Hl|data Hl|data cur next Hl Hdd|d' Hc|Hc|].
  - exists wr, (in_hand d), [], torn. by split.
  - rewrite Hl in *. exists wr, [data], [], torn. apply app_nil in H5 as [-> _].
    split; simpl; [|done|split; [apply prefix_nil|done]|done].
    unfold port_take. rewrite Hb. simpl in *. by rewrite H1, app_nil_r.
  - rewrite Hl in *. exists wr, [], [], torn. by split.
  - rewrite Hl in *. exists wr, [data], [], torn. split; simpl; [done|done|done|]. intros _.
    split; [done|]. split; [done|]. simpl in H5.
    assert (torn = []) as -> by (by apply (app_inv_tail (wire [data]))).
    change (header ++ (Marshal data ++ []) = wire [data]). rewrite (app_nil_r (Marshal data)), (header_frame data header); [done| |done].
    apply Hw. unfold pt_sent. rewrite H1. simpl. set_solver.
  - rewrite Hl in *. exists wr, [data], [], (torn ++ bs). split; simpl; [done| | |].
    + by rewrite H2, <- !app_assoc.
    + split; [|done]. simpl in H5. rewrite <- H5, <- app_assoc. by apply prefix_app, prefix_app_r.
    + intros _. split; [done|]. split; [done|]. unfold unwritten, in_hand. simpl in *.
      by rewrite <- H5, <- !app_assoc.
  - rewrite Hl in *. exists wr, [data], [], torn. by split.
  - rewrite Hl in *. simpl in H5. rewrite app_nil_r in H5. exists (wr ++ [data]), [], [], [].
    split; simpl; [by rewrite H1, !app_nil_r| |split; [done|lia]|done].
    by rewrite H2, wire_app, H5, app_nil_r.
  - congruence.
  - unfold close_channel in Hc. destruct (dc_closed d); [done|]. injection Hc as <-.
    exists wr, (in_hand d), [], torn. by split.
  - exists wr, (in_hand d), [], torn. split; [done|done|done|]. done.
  - exists wr, (in_hand d), [], torn. split; [done|done|done|]. unfold dead in Hd'. simpl in Hd'.
    by rewrite orb_true_r in Hd'.
Qed.

(** Nothing is written by a step that leaves the connection dead. *)
Lemma dead_after d ms d' :
  conn_step d ms d' → dead d' = true → tx (dc_conn d') = tx (dc_conn d).
Proof.
  intros Hs Hd. destruct Hs as [| | | |? ? ? ? ? ? Hl| | | |d' Hc| |]; try done.
  - unfold dead in *. simpl in Hd. congruence.
  - unfold close_channel in Hc. destruct (dc_closed d); [done|]. by injection Hc as <-.
Qed.

Lemma conn_inv_step c0 tr d ms d' :
  Forall wire_msg tr → conn_inv c0 tr d → conn_step d ms d' → conn_inv c0 (tr ++ ms) d'.
Proof.
  intros Hms [Hs Hsc (wr & nxt & more & torn & Hw)] Hstep. split.
  - rewrite <- Hs. clear Hw Hsc. destruct Hstep as [data Hc Hr|data rest Hl Hb| | | | | | |d' Hc| |];
      rewrite ?app_nil_r; try done.
    + unfold pt_sent, port_push. simpl. by rewrite app_assoc.
    + unfold pt_sent, port_take. simpl. rewrite Hb. simpl. by rewrite <- app_assoc.
    + unfold close_channel in Hc. destruct (dc_closed d); [done|]. by injection Hc as <-.
  - rewrite <- Hsc. destruct Hstep as [| | | | | | | |d' Hc| |]; try done.
    unfold close_channel in Hc. destruct (dc_closed d); [done|]. by injection Hc as <-.
  - destruct (dead d') eqn:Hd.
    + destruct (written_dead c0 d wr nxt more torn ms d' Hw Hstep Hd (dead_after d ms d' Hstep Hd)) as [more' H].
      by exists wr, nxt, more', torn.
    + eapply written_live; [|exact Hw|exact Hstep|done]. intros m. rewrite Hs. by apply Forall_forall.
Qed.

Lemma conn_trace_inv c0 tr d :
  tx_script c0 = [] → conn_trace (new_DaemonConn c0) tr d → Forall wire_msg tr → conn_inv c0 tr d.
Proof.
  intros Hs. induction 1 as [|tr d ms d' _ IH Hstep]; intros Hms.
  - split; [done|done|]. exists [], [], [], []. split; [done| |by split; [|simpl; lia]|done].
    simpl. by rewrite !app_nil_r.
  - apply Forall_app in Hms as [Hms _]. eapply conn_inv_step; [exact Hms|by apply IH|done].
Qed.

(** *** [sendMsg] left alone *)

(** The steps of the loop from [sendMsg] to its next receive. *)
Definition loop_steps : DaemonConn → DaemonConn → Prop := rtc (λ d d', conn_step d [] d').

Lemma loop_sends d data :
  dc_loop d = LSend data → dead d = false → wire_msg data → tx_script (dc_conn d) = [] →
  loop_steps d (set_loop LTake (set_dconn (fst (sendMsg data (dc_conn d))) d)).
Proof.
  intros Hl Hd Hw Hs. assert (∃ header, le_put32 (zeros 4) 0 4 (U32 (Z.of_nat (length (Marshal data)))) = Ok header
    ∧ header ≠ []) as (header & Hh & Hne).
  { rewrite le_put32_whole. eexists. split; [done|]. intros Hx%(f_equal length).
    by rewrite length_le_bytes in Hx. }
  pose proof (header_frame data header Hw Hh) as Hf.
  assert (Marshal data ≠ []) as Hm by (unfold Marshal; done).
  eapply rtc_l; [by apply (cs_marshal d data header)|].
  eapply rtc_l; [apply (cs_write _ data header [] [Marshal data]); [simpl; by rewrite app_nil_r|done|done]|].
  eapply rtc_l; [by apply (cs_written _ data (Marshal data) [])|].
  eapply rtc_l; [apply (cs_write _ data (Marshal data) [] []); [simpl; by rewrite app_nil_r|done|done]|].
  eapply rtc_l; [by apply (cs_sent _ data)|]. rewrite (sendMsg_wire data _ Hw Hs), <- Hf.
  unfold put, set_dconn, set_loop. simpl. rewrite <- app_assoc, Hs. apply rtc_refl.
Qed.

(** ** Properties *)

(** C35: what reaches the daemon.  The bytes on the connection are the frames of a
    prefix of the messages sent, in the order of [Send], followed by at most a part
    of the frame of the next one.  Until [Close], and while the daemon is there,
    nothing is skipped: what is not on the connection is the rest of the frame in
    hand and what waits in the channel, and [sendLoop], left alone, writes the message
    in hand as [sendMsg] does.  But [Close] shuts the connection without waiting for
    the loop: not a byte is written afterwards, of the frame in hand or of the
    messages in the channel.  The same holds when the daemon has gone, since the
    errors of [sendMsg] are dropped. *)
Theorem daemon_conn_order c0 tr d :
  tx_script c0 = [] → conn_trace (new_DaemonConn c0) tr d → Forall wire_msg tr →
  ∃ wr nxt torn, tx (dc_conn d) = tx c0 ++ wire wr ++ torn
  ∧ wr ++ nxt `prefix_of` tr ∧ length nxt ≤ 1 ∧ torn `prefix_of` wire nxt
  ∧ (dc_shut d = false → dc_broken d = false →
     tr = wr ++ in_hand d ++ ch_buf (pt_chan (dc_chSend d))
     ∧ torn ++ unwritten d = wire (in_hand d)
     ∧ (∀ data, dc_loop d = LSend data → torn = []
        ∧ loop_steps d (set_loop LTake (set_dconn (fst (sendMsg data (dc_conn d))) d))))
  ∧ (∀ ms d', conn_trace (shut_conn d) ms d' ∨ conn_trace (break_conn d) ms d' →
     tx (dc_conn d') = tx (dc_conn d)).
Proof.
  intros Hs Ht Hms. destruct (conn_trace_inv c0 tr d Hs Ht Hms) as [H1 H2 (wr & nxt & more & torn & Hw)].
  destruct Hw as [W1 W2 [W3 W4] W5]. exists wr, nxt, torn. split; [done|]. split.
  { rewrite <- H1. unfold pt_sent. rewrite W1, !app_assoc. rewrite <- app_assoc. by apply prefix_app_r. }
  split; [done|]. split; [done|]. split.
  - intros Hsh Hbr. assert (dead d = false) as Hd by (unfold dead; by rewrite Hsh, Hbr).
    destruct (W5 Hd) as (-> & -> & Hu). rewrite app_nil_r in W1.
    assert (tr = wr ++ in_hand d ++ ch_buf (pt_chan (dc_chSend d))) as Htr
      by (rewrite <- H1; unfold pt_sent; by rewrite W1, <- app_assoc).
    split; [exact Htr|]. split; [done|]. intros data Hl. unfold in_hand, unwritten in Hu, Htr. rewrite Hl in Hu, Htr.
    split; [by apply (app_inv_tail (wire [data]))|]. apply loop_sends; [done|done| |done].
    rewrite Forall_forall in Hms. apply Hms. rewrite Htr. set_solver.
  - intros ms d' [Htr|Htr]; eapply dead_trace in Htr as [-> _]; try done.
    unfold dead. simpl. apply orb_true_r.
Qed.

(** The client ends in the middle of its last message. *)
Definition ex_end_msg : Msg := MkMsg MsgTypeGameEnd [] [] [] 0 [] [] [] [] [] None.
Definition ex_header : bytes := le_bytes 4 (Z.of_nat (length (Marshal ex_end_msg))).
Definition ex_dc0 : DaemonConn := new_DaemonConn (conn_on [] EOF).
Definition ex_dc1 : DaemonConn := set_ch (port_push ex_end_msg (dc_chSend ex_dc0)) ex_dc0.
Definition ex_dc2 : DaemonConn :=
  set_loop (LSend ex_end_msg) (set_ch (port_take (dc_chSend ex_dc1)) ex_dc1).
Definition ex_dc3 : DaemonConn := set_loop (LWrite ex_end_msg ex_header [Marshal ex_end_msg]) ex_dc2.
Definition ex_dc4 : DaemonConn :=
  set_loop (LWrite ex_end_msg [] [Marshal ex_end_msg]) (put ex_header ex_dc3).
Definition ex_dc5 : DaemonConn := fst (close_channel ex_dc4).

Lemma daemon_conn_order_witness :
  conn_trace ex_dc0 [ex_end_msg] ex_dc5
  ∧ tx (dc_conn ex_dc5) = ex_header
  ∧ ∀ ms d', conn_trace (shut_conn ex_dc5) ms d' → tx (dc_conn d') = ex_header.
Proof.
  assert (conn_trace ex_dc0 [ex_end_msg] ex_dc5) as Ht.
  { apply (ct_step _ [ex_end_msg] ex_dc4 []); [|apply cs_close; reflexivity].
    apply (ct_step _ [ex_end_msg] ex_dc3 []); [|exact (cs_write ex_dc3 ex_end_msg ex_header [] _ eq_refl ltac:(discriminate) eq_refl)].
    apply (ct_step _ [ex_end_msg] ex_dc2 []); [|apply (cs_marshal ex_dc2); vm_compute; reflexivity].
    apply (ct_step _ [ex_end_msg] ex_dc1 []); [|exact (cs_take ex_dc1 ex_end_msg [] eq_refl eq_refl)].
    apply (ct_step _ [] ex_dc0 [ex_end_msg]); [apply ct_start|apply cs_send; reflexivity]. }
  split; [exact Ht|]. split; [vm_compute; reflexivity|].
  destruct (daemon_conn_order (conn_on [] EOF) [ex_end_msg] ex_dc5 eq_refl Ht)
    as (wr & nxt & torn & _ & _ & _ & _ & _ & H).
  - repeat constructor; vm_compute; first [reflexivity|discriminate].
  - intros ms d' Hd. rewrite (H ms d' (or_introl Hd)). vm_compute. reflexivity.
Defined.
