(* ===== verification/DaemonRun.v ===== *)
(** * The daemon at work (client/internal/daemon/daemon.go, http.go)

    [run] with its listener and watchdog, the goroutine of each connection, and the
    websocket handlers of the subscribers, over the hub of Daemon.v and the frames of
    DaemonWire.v: what a subscriber gets of what a client sent, and when the daemon
    ends. *)

From stdpp Require Import base gmap sets strings vector numbers tactics list relations.
From Stdlib Require Import ZArith Lia.
From S2P Require Import Prelude Words GoIO GoStr Json IpcMsg Daemon DaemonWire.

Import daemon.

(** ** Program points *)

(** [run] before the test of its loop, in [AcceptUnix], and returned. *)
Inductive run_pc : Type := DLoop | DAccept | DEnded.

(** [handleConnection]: before [newClient], before the test of the loop, in [recvMsg],
    before [client.broadcast], and in the deferred function before and after the
    client is removed. *)
Inductive conn_pc : Type :=
  | HStart | HTest | HRecv | HBroadcast (data : bytes) | HRemove | HClose | HEnded.

(** [httpRouteClientEvents] after its critical section: in [Upgrade], in the
    [select], in [WriteMessage], and returned. *)
Inductive ws_pc : Type := WsUpgrade | WsSelect | WsWrite (msg : bytes) | WsReturned.

(** ** State *)

(** [k_first] is the connection as it was accepted; [k_sent] what
    [client.broadcast] was called with, oldest first. *)
Record dconn : Type := MkDconn {
  k_conn : conn;
  k_first : conn;
  k_pc : conn_pc;
  k_open : bool;
  k_sent : list bytes;
}.

(** [ws_out] is what was written to the websocket; [ws_from] the length of [k_sent]
    at the time of the subscription.  [ws_gone]: [ReadMessage] has failed. *)
Record ws : Type := MkWs {
  ws_client : cl_ref;
  ws_ch : ch_ref;
  ws_pc_of : ws_pc;
  ws_gone : bool;
  ws_out : list bytes;
  ws_from : nat;
}.

(** [dn_done] is [d.ctx.Err() != nil]; [dn_watch]: the watchdog runs. *)
Record dstate : Type := MkD {
  dn_done : bool;
  dn_pc : run_pc;
  dn_listening : bool;
  dn_watch : bool;
  dn_hub : hub;
  dn_conns : gmap cl_ref dconn;
  dn_ws : gmap nat ws;
}.

Definition new_daemon : dstate := MkD false DLoop true true new_hub ∅ ∅.

Definition set_done d := MkD true (dn_pc d) (dn_listening d) (dn_watch d) (dn_hub d) (dn_conns d) (dn_ws d).
Definition set_pc p d := MkD (dn_done d) p (dn_listening d) (dn_watch d) (dn_hub d) (dn_conns d) (dn_ws d).
Definition unlisten d := MkD (dn_done d) (dn_pc d) false (dn_watch d) (dn_hub d) (dn_conns d) (dn_ws d).
Definition unwatch d := MkD (dn_done d) (dn_pc d) (dn_listening d) false (dn_hub d) (dn_conns d) (dn_ws d).
Definition set_hub h d :=
  MkD (dn_done d) (dn_pc d) (dn_listening d) (dn_watch d) h (dn_conns d) (dn_ws d).
Definition set_conn c k d :=
  MkD (dn_done d) (dn_pc d) (dn_listening d) (dn_watch d) (dn_hub d) (<[c := k]> (dn_conns d)) (dn_ws d).
Definition set_ws i w d :=
  MkD (dn_done d) (dn_pc d) (dn_listening d) (dn_watch d) (dn_hub d) (dn_conns d) (<[i := w]> (dn_ws d)).

Definition k_goto pc k := MkDconn (k_conn k) (k_first k) pc (k_open k) (k_sent k).
Definition k_read c k := MkDconn c (k_first k) (k_pc k) (k_open k) (k_sent k).
Definition k_shut k := MkDconn (k_conn k) (k_first k) (k_pc k) false (k_sent k).
Definition k_said data k := MkDconn (k_conn k) (k_first k) (k_pc k) (k_open k) (k_sent k ++ [data]).
Definition w_goto pc w := MkWs (ws_client w) (ws_ch w) pc (ws_gone w) (ws_out w) (ws_from w).
Definition w_wrote msg w :=
  MkWs (ws_client w) (ws_ch w) (ws_pc_of w) (ws_gone w) (ws_out w ++ [msg]) (ws_from w).
Definition w_leave w := MkWs (ws_client w) (ws_ch w) (ws_pc_of w) true (ws_out w) (ws_from w).

(** The handler starts to receive from its channel. *)
Definition wait_on (ch : ch_ref) (h : hub) : hub :=
  match h_heap h !! ch with
  | Some uc => MkHub (h_clients h) (h_conns h)
      (<[ch := UChan (uc_closed uc) (negb (uc_closed uc)) (uc_got uc)]> (h_heap h)) (h_http h)
  | None => h
  end.

(** The deferred [client.unsubscribe(ch)]. *)
Definition leave (i : nat) (w : ws) (d : dstate) : dstate :=
  set_hub (fst (on_client (ws_client w) id (unsubscribe (ws_ch w)) (dn_hub d)))
    (set_ws i (w_goto WsReturned w) d).

(** The body of [watchdog] after five seconds. *)
Definition watch_tick (d : dstate) : dstate :=
  if decide (h_clients (dn_hub d) = ∅) then set_done d else d.

(** ** Steps *)

(** What the daemon does by itself: the loop of [run], the goroutine that closes the
    listener, and the watchdog. [AcceptUnix] on a closed listener fails. *)
Inductive run_step (d : dstate) : dstate → Prop :=
  | dr_again : dn_pc d = DLoop → dn_done d = false → run_step d (set_pc DAccept d)
  | dr_end : dn_pc d = DLoop → dn_done d = true → run_step d (set_pc DEnded d)
  | dr_closed : dn_pc d = DAccept → dn_listening d = false → run_step d (set_pc DLoop d)
  | dr_unlisten : dn_done d = true → run_step d (unlisten d)
  | wd_tick : dn_watch d = true → dn_done d = false → run_step d (watch_tick d)
  | wd_stop : dn_watch d = true → dn_done d = true → run_step d (unwatch d).

(** [handleConnection] on connection [c]: the random IDs of registered clients are
    different. *)
Inductive serve_step (c : cl_ref) (d : dstate) : dstate → Prop :=
  | hc_start k id :
      dn_conns d !! c = Some k → k_pc k = HStart → h_clients (dn_hub d) !! id = None →
      serve_step c d (set_hub (connect c id (dn_hub d)) (set_conn c (k_goto HTest k) d))
  | hc_test k :
      dn_conns d !! c = Some k → k_pc k = HTest →
      serve_step c d (set_conn c (k_goto (if dn_done d then HRemove else HRecv) k) d)
  | hc_recv k k' msg :
      dn_conns d !! c = Some k → k_pc k = HRecv → recvMsg (k_conn k) = (k', Ok msg) →
      serve_step c d (set_conn c (k_goto (HBroadcast (Marshal msg)) (k_read k' k)) d)
  | hc_recv_err k k' e :
      dn_conns d !! c = Some k → k_pc k = HRecv → recvMsg (k_conn k) = (k', Err e) →
      serve_step c d (set_conn c (k_goto HRemove (k_read k' k)) d)
  | hc_broadcast k data cl order :
      dn_conns d !! c = Some k → k_pc k = HBroadcast data →
      h_conns (dn_hub d) !! c = Some (cl, Serving) → order ≡ₚ elements (cl_subs cl) →
      serve_step c d (set_hub (fst (on_client c id (broadcast order data) (dn_hub d)))
        (set_conn c (k_goto HTest (k_said data k)) d))
  | hc_remove k :
      dn_conns d !! c = Some k → k_pc k = HRemove →
      serve_step c d (set_hub (remove c (dn_hub d)) (set_conn c (k_goto HClose (k_shut k)) d))
  | hc_close k cl order :
      dn_conns d !! c = Some k → k_pc k = HClose →
      h_conns (dn_hub d) !! c = Some (cl, Removed) → order ≡ₚ elements (cl_subs cl) →
      serve_step c d (set_hub (fst (on_client c (λ _, Closed) (close order) (dn_hub d)))
        (set_conn c (k_goto HEnded k) d)).

Inductive daemon_step (d : dstate) : dstate → Prop :=
  | ds_run d' : run_step d d' → daemon_step d d'
  | ds_serve c d' : serve_step c d d' → daemon_step d d'
  (* a client connects, or [AcceptUnix] fails for a reason that passes *)
  | dr_accept c k :
      dn_pc d = DAccept → dn_listening d = true → dn_conns d !! c = None →
      daemon_step d (set_pc DLoop (set_conn c (MkDconn k k HStart true []) d))
  | dr_accept_err : dn_pc d = DAccept → daemon_step d (set_pc DLoop d)
  (* httpRouteClientEvents *)
  | ws_subscribe i path key c k ch h' :
      dn_ws d !! i = None → route_key path = Ok key →
      h_clients (dn_hub d) !! key = Some c → dn_conns d !! c = Some k →
      route_events key (dn_hub d) = (h', Ok (Some ch)) →
      daemon_step d (set_hub h' (set_ws i (MkWs c ch WsUpgrade false [] (length (k_sent k))) d))
  | ws_upgraded i w :
      dn_ws d !! i = Some w → ws_pc_of w = WsUpgrade →
      daemon_step d (set_hub (wait_on (ws_ch w) (dn_hub d)) (set_ws i (w_goto WsSelect w) d))
  | ws_not_upgraded i w :
      dn_ws d !! i = Some w → ws_pc_of w = WsUpgrade → daemon_step d (leave i w d)
  | ws_reader i w :
      dn_ws d !! i = Some w → ws_pc_of w ≠ WsUpgrade → daemon_step d (set_ws i (w_leave w) d)
  | ws_msg i w uc msg :
      dn_ws d !! i = Some w → ws_pc_of w = WsSelect → h_heap (dn_hub d) !! ws_ch w = Some uc →
      uc_got uc = ws_out w ++ [msg] → daemon_step d (set_ws i (w_goto (WsWrite msg) w) d)
  | ws_ended i w uc :
      dn_ws d !! i = Some w → ws_pc_of w = WsSelect → h_heap (dn_hub d) !! ws_ch w = Some uc →
      uc_got uc = ws_out w → uc_closed uc = true → daemon_step d (leave i w d)
  | ws_left i w uc :
      dn_ws d !! i = Some w → ws_pc_of w = WsSelect → h_heap (dn_hub d) !! ws_ch w = Some uc →
      uc_waiting uc = true → ws_gone w = true → daemon_step d (leave i w d)
  | ws_written i w msg :
      dn_ws d !! i = Some w → ws_pc_of w = WsWrite msg →
      daemon_step d (set_hub (wait_on (ws_ch w) (dn_hub d))
        (set_ws i (w_goto WsSelect (w_wrote msg w)) d))
  | ws_write_err i w msg :
      dn_ws d !! i = Some w → ws_pc_of w = WsWrite msg → daemon_step d (leave i w d).

Definition daemon_reach : dstate → dstate → Prop := rtc daemon_step.

(** ** What the methods of a client do to the channels *)

(** Channels may be closed, nothing else happens to them. *)
Definition same_got (h h' : gmap ch_ref uchan) : Prop :=
  ∀ ch uc, h !! ch = Some uc →
    ∃ b, h' !! ch = Some (UChan b (uc_waiting uc) (uc_got uc)) ∧ (uc_closed uc = true → b = true).

#[export] Instance same_got_preorder : PreOrder same_got.
Proof.
  split.
  - intros h ch [b w g] H. by exists b.
  - intros h1 h2 h3 H12 H23 ch uc H. destruct (H12 ch uc H) as (b & H2 & Hb).
    destruct (H23 ch _ H2) as (b' & H3 & Hb'). exists b'. split; [done|]. auto.
Qed.

Lemma close_chan_got ch h : same_got h (fst (close_chan ch h)).
Proof.
  unfold close_chan. destruct (h !! ch) as [[b w g]|] eqn:Hc; [|reflexivity].
  destruct b; [reflexivity|]. intros ch' uc H. simpl. destruct (decide (ch = ch')) as [<-|Hne].
  - rewrite lookup_insert_eq. simplify_eq. by exists true.
  - rewrite lookup_insert_ne by done. destruct uc as [b' w' g']. by exists b'.
Qed.

Lemma close_subs_got order s : same_got (snd s) (snd (fst (close_subs order s))).
Proof.
  revert s. induction order as [|sub order IH]; intros [cl h]; [reflexivity|].
  cbn [close_subs]. unfold mbind, M_bind, on_heap, zoom, modify, set_subs. simpl.
  pose proof (close_chan_got sub h) as Hc. destruct (close_chan sub h) as [h1 [[]|e| |]]; simpl in *; [|done..].
  etrans; [exact Hc|]. apply (IH (_, h1)).
Qed.

Lemma close_got order s : same_got (snd s) (snd (fst (close order s))).
Proof.
  unfold close, mbind, M_bind. pose proof (close_subs_got order s) as Hc.
  destruct (close_subs order s) as [s' [[]|e| |]]; simpl in *; [|done..].
  unfold close_done. by destruct (cl_done (fst s')).
Qed.

Lemma unsubscribe_got ch s : same_got (snd s) (snd (fst (unsubscribe ch s))).
Proof.
  unfold unsubscribe, mbind at 1, M_bind at 1, gets. case_bool_decide; [|reflexivity].
  destruct s as [cl h]. unfold mbind, M_bind, on_heap, zoom, modify, set_subs. simpl.
  pose proof (close_chan_got ch h) as Hc. by destruct (close_chan ch h) as [h1 [[]|e| |]].
Qed.

(** Every subscriber that waits gets the message. *)
Definition told (msg : bytes) (uc : uchan) : uchan :=
  if uc_waiting uc then UChan (uc_closed uc) false (uc_got uc ++ [msg]) else uc.

Lemma broadcast_got order msg cl h :
  NoDup order → (∀ ch, ch ∈ order → flags h !! ch = Some false) →
  ∀ ch, snd (fst (broadcast_to order msg (cl, h))) !! ch
        = (if decide (ch ∈ order) then told msg <$> h !! ch else h !! ch).
Proof.
  revert h. induction order as [|sub order IH]; intros h Hnd Ho ch.
  { by rewrite decide_False by apply not_elem_of_nil. }
  apply NoDup_cons in Hnd as [Hsub Hnd]. cbn [broadcast_to]. unfold mbind, M_bind, on_heap, zoom. simpl.
  destruct (flags_open h sub) as (w & g & Hc); [apply Ho; set_solver|].
  destruct (try_send_open h sub msg) as (h1 & Hs & Hf); [apply Ho; set_solver|]. rewrite Hs.
  rewrite IH; [|done|rewrite Hf; set_solver].
  assert (h1 = <[sub := told msg (UChan false w g)]> h) as ->.
  { unfold try_send_chan in Hs. rewrite Hc in Hs. simpl in Hs. unfold told. simpl.
    destruct w; simplify_eq; [done|]. by rewrite insert_id. }
  destruct (decide (sub = ch)) as [<-|Hne].
  - rewrite decide_False, decide_True by (done || set_solver). by rewrite lookup_insert_eq, Hc.
  - rewrite lookup_insert_ne by done. destruct (decide (ch ∈ order)) as [Hi|Hi].
    + by rewrite decide_True by set_solver.
    + by rewrite decide_False by set_solver.
Qed.

Lemma wait_on_got ch ch' h :
  h_heap (wait_on ch h) !! ch'
  = if decide (ch = ch') then (λ uc, UChan (uc_closed uc) (negb (uc_closed uc)) (uc_got uc)) <$> h_heap h !! ch
    else h_heap h !! ch'.
Proof.
  unfold wait_on. destruct (h_heap h !! ch) as [uc|] eqn:Hc; simpl.
  - case_decide as He; [subst; by rewrite lookup_insert_eq|by rewrite lookup_insert_ne].
  - case_decide as He; [by subst|done].
Qed.

(** ** The goroutines and the hub *)

Definition hub_point (pc : conn_pc) : option daemon.conn_pc :=
  match pc with
  | HStart => None
  | HTest | HRecv | HBroadcast _ | HRemove => Some Serving
  | HClose => Some Removed
  | HEnded => Some Closed
  end.

(** A connection in its loop is registered. *)
Definition in_hub (h : hub) (c : cl_ref) (pc : conn_pc) : Prop :=
  match hub_point pc with
  | None => h_conns h !! c = None
  | Some p => ∃ cl, h_conns h !! c = Some (cl, p) ∧ (p = Serving → h_clients h !! cl_id cl = Some c)
  end.

Record agree (d : dstate) : Prop := {
  ag_hub : hub_reach (dn_hub d);
  ag_conn c k : dn_conns d !! c = Some k → in_hub (dn_hub d) c (k_pc k);
  ag_known c x : h_conns (dn_hub d) !! c = Some x → is_Some (dn_conns d !! c);
  ag_http i w : dn_ws d !! i = Some w → (ws_client w, ws_ch w) ∈ h_http (dn_hub d);
}.

Lemma agree_same d d' :
  agree d → dn_hub d' = dn_hub d → dn_conns d' = dn_conns d →
  (∀ i w, dn_ws d' !! i = Some w → ∃ w0, dn_ws d !! i = Some w0 ∧ ws_client w = ws_client w0 ∧ ws_ch w = ws_ch w0) →
  agree d'.
Proof.
  intros [Hh Hc Hk Hw] Eh Ec Ew. split; rewrite ?Eh, ?Ec; [done..|].
  intros i w Hi. destruct (Ew i w Hi) as (w0 & H0 & -> & ->). by eapply Hw.
Qed.

(** A connection moves on, the hub with it. *)
Lemma agree_conn d c k k' h' :
  agree d → dn_conns d !! c = Some k → hub_reach h' →
  in_hub h' c (k_pc k') →
  (∀ c', c' ≠ c → h_conns h' !! c' = h_conns (dn_hub d) !! c') →
  (∀ key c', c' ≠ c → h_clients (dn_hub d) !! key = Some c' → h_clients h' !! key = Some c') →
  h_http h' = h_http (dn_hub d) →
  agree (set_hub h' (set_conn c k' d)).
Proof.
  intros [Hh Hc Hk Hw] Hck Hr Hin Hoth Hreg Hhttp. split; simpl; [done|..].
  - intros x q [[<- <-]|[Hne Hq]]%lookup_insert_Some; [done|].
    specialize (Hc x q Hq). unfold in_hub in *. destruct (hub_point (k_pc q)).
    + destruct Hc as (cl & Hcl & Hs). exists cl. rewrite Hoth by done. split; [done|]. auto.
    + by rewrite Hoth.
  - intros x y Hx. destruct (decide (c = x)) as [<-|Hne]; [by rewrite lookup_insert_eq|].
    rewrite lookup_insert_ne by done. apply (Hk x y). by rewrite <- Hoth.
  - rewrite Hhttp. exact Hw.
Qed.

Lemma agree_point d c k k' :
  agree d → dn_conns d !! c = Some k → hub_point (k_pc k') = hub_point (k_pc k) → agree (set_conn c k' d).
Proof.
  intros Ha Hk Hp. change (set_conn c k' d) with (set_hub (dn_hub d) (set_conn c k' d)).
  apply (agree_conn d c k); [done..|by apply ag_hub| |done|done|done].
  pose proof (ag_conn d Ha c k Hk) as Hin. unfold in_hub in *. by rewrite Hp.
Qed.

(** The subscription of a handler is on a client of the hub. *)
Lemma agree_ws_client d i w :
  agree d → dn_ws d !! i = Some w →
  ∃ cl pc b, h_conns (dn_hub d) !! ws_client w = Some (cl, pc)
    ∧ flags (h_heap (dn_hub d)) !! ws_ch w = Some b ∧ (b = false → ws_ch w ∈ cl_subs cl).
Proof.
  intros Ha Hi. pose proof (hub_reach_inv _ (ag_hub d Ha)) as Hv. by apply (hi_http _ Hv), (ag_http d Ha i).
Qed.

Lemma agree_leave d i w : agree d → dn_ws d !! i = Some w → agree (leave i w d).
Proof.
  intros Ha Hi. pose proof (hub_reach_inv _ (ag_hub d Ha)) as Hv.
  destruct (agree_ws_client d i w Ha Hi) as (cl & pc & b & Hc & _).
  assert (hub_step (dn_hub d) (on_client (ws_client w) id (unsubscribe (ws_ch w)))) as Hs
    by (apply hub_unsubscribe; by eapply ag_http).
  destruct (unsubscribe_tame (ws_ch w) (cl, h_heap (dn_hub d))) as (s' & Hu & _ & _ & Ht);
    [by eapply (hi_subs _ Hv)|].
  unfold leave. pose proof (reach_step _ _ (ag_hub d Ha) Hs) as Hr.
  rewrite (on_client_eq _ _ _ _ _ _ _ _ Hc Hu) in *. simpl in Hr |- *.
  split; simpl; [done|..].
  - intros x q Hq. pose proof (ag_conn d Ha x q Hq) as Hin. unfold in_hub in *. simpl.
    destruct (decide (ws_client w = x)) as [<-|Hne].
    + rewrite lookup_insert_eq, Hc in *. destruct (hub_point (k_pc q)) as [p|]; [|done].
      destruct Hin as (cl0 & Hcl & Hreg). simplify_eq. exists (fst s'). split; [done|].
      rewrite (t_id _ _ Ht). done.
    + by rewrite lookup_insert_ne.
  - intros x y [[<- _]|[_ Hx]]%lookup_insert_Some; [by eapply ag_known|by eapply ag_known].
  - intros j v [[<- <-]|[_ Hj]]%lookup_insert_Some; [by apply (ag_http d Ha i w)|by eapply ag_http].
Qed.

Lemma wait_on_reach h ch uc : hub_reach h → h_heap h !! ch = Some uc → hub_reach (wait_on ch h).
Proof.
  intros Hr Hc. pose proof (reach_step _ _ Hr (hub_wait h ch uc Hc)) as H. simpl in H.
  unfold wait_on. by rewrite Hc.
Qed.

Lemma wait_on_conns ch h :
  h_conns (wait_on ch h) = h_conns h ∧ h_clients (wait_on ch h) = h_clients h ∧ h_http (wait_on ch h) = h_http h.
Proof. unfold wait_on. by destruct (h_heap h !! ch). Qed.

Lemma agree_wait d i w w' :
  agree d → dn_ws d !! i = Some w → ws_client w' = ws_client w → ws_ch w' = ws_ch w →
  agree (set_hub (wait_on (ws_ch w) (dn_hub d)) (set_ws i w' d)).
Proof.
  intros Ha Hi Ec Eh. destruct (agree_ws_client d i w Ha Hi) as (cl & pc & b & Hc & Hf & _).
  unfold flags in Hf. rewrite lookup_fmap in Hf. apply fmap_Some in Hf as (uc & Hu & _).
  destruct (wait_on_conns (ws_ch w) (dn_hub d)) as (E1 & E2 & E3).
  split; simpl; [by eapply wait_on_reach; [apply Ha|]|..].
  - intros x q Hq. pose proof (ag_conn d Ha x q Hq) as Hin. unfold in_hub in *. by rewrite E1, E2.
  - rewrite E1. apply Ha.
  - rewrite E3. intros j v [[<- <-]|[_ Hj]]%lookup_insert_Some;
      [rewrite Ec, Eh; by apply (ag_http d Ha i w)|by eapply ag_http].
Qed.

Lemma serving_conn d c k :
  agree d → dn_conns d !! c = Some k → hub_point (k_pc k) = Some Serving →
  ∃ cl, h_conns (dn_hub d) !! c = Some (cl, Serving) ∧ h_clients (dn_hub d) !! cl_id cl = Some c.
Proof.
  intros Ha Hk Hp. pose proof (ag_conn d Ha c k Hk) as Hin. unfold in_hub in Hin. rewrite Hp in Hin.
  destruct Hin as (cl & Hc & Hr). exists cl. auto.
Qed.

Lemma broadcast_agree d c k cl data order :
  agree d → dn_conns d !! c = Some k → k_pc k = HBroadcast data →
  h_conns (dn_hub d) !! c = Some (cl, Serving) → order ≡ₚ elements (cl_subs cl) →
  ∃ heap, fst (on_client c id (broadcast order data) (dn_hub d))
    = MkHub (h_clients (dn_hub d)) (h_conns (dn_hub d)) heap (h_http (dn_hub d))
  ∧ (∀ ch, heap !! ch = if decide (ch ∈ cl_subs cl) then told data <$> h_heap (dn_hub d) !! ch
                        else h_heap (dn_hub d) !! ch)
  ∧ hub_reach (fst (on_client c id (broadcast order data) (dn_hub d))).
Proof.
  intros Ha Hk Hp Hc Ho. pose proof (hub_reach_inv _ (ag_hub d Ha)) as Hv.
  assert (∀ ch, ch ∈ order ↔ ch ∈ cl_subs cl) as Hin by (intros ch; by rewrite Ho, elem_of_elements).
  assert (∀ ch, ch ∈ order → flags (h_heap (dn_hub d)) !! ch = Some false) as Hf
    by (intros ch Hch; apply (hi_subs _ Hv c cl Serving Hc ch); by apply Hin).
  destruct (broadcast_spec order data cl (h_heap (dn_hub d)) Hf) as (h' & Hb & _).
  assert (NoDup order) as Hnd by (rewrite Ho; apply NoDup_elements).
  pose proof (broadcast_got order data cl _ Hnd Hf) as Hg. rewrite Hb in Hg. simpl in Hg.
  exists h'. split_and!.
  - rewrite (on_client_eq _ _ _ _ _ _ _ _ Hc Hb). unfold client_update. simpl. f_equal. by apply insert_id.
  - intros ch. rewrite Hg. pose proof (Hin ch) as Hi.
    destruct (decide (ch ∈ order)), (decide (ch ∈ cl_subs cl)); tauto.
  - apply reach_step; [by apply Ha|]. by apply (hub_message _ c cl).
Qed.

Lemma close_agree d c k cl order :
  agree d → dn_conns d !! c = Some k → k_pc k = HClose →
  h_conns (dn_hub d) !! c = Some (cl, Removed) → order ≡ₚ elements (cl_subs cl) →
  ∃ s', fst (on_client c (λ _, Closed) (close order) (dn_hub d)) = client_update c Closed s' (dn_hub d)
  ∧ same_got (h_heap (dn_hub d)) (snd s')
  ∧ hub_reach (fst (on_client c (λ _, Closed) (close order) (dn_hub d))).
Proof.
  intros Ha Hk Hp Hc Ho. pose proof (hub_reach_inv _ (ag_hub d Ha)) as Hv.
  destruct (hi_pc _ Hv c cl Removed Hc) as [Hd _].
  destruct (close_tame order (cl, h_heap (dn_hub d))) as (s' & Hb & _); [by eapply (hi_subs _ Hv)| |done|].
  { simpl. destruct (cl_done cl); [|done]. by destruct Hd as [Hd _]; specialize (Hd eq_refl). }
  pose proof (close_got order (cl, h_heap (dn_hub d))) as Hg. rewrite Hb in Hg. simpl in Hg.
  exists s'. split_and!; [|done|].
  - by rewrite (on_client_eq _ _ _ _ _ _ _ _ Hc Hb).
  - apply reach_step; [by apply Ha|]. by apply (hub_close _ c cl).
Qed.

Lemma subscribe_agree d key c ch h' :
  agree d → h_clients (dn_hub d) !! key = Some c →
  route_events key (dn_hub d) = (h', Ok (Some ch)) →
  h_heap (dn_hub d) !! ch = None
  ∧ h_heap h' = <[ch := UChan false false []]> (h_heap (dn_hub d))
  ∧ h_clients h' = h_clients (dn_hub d) ∧ h_http h' = h_http (dn_hub d) ++ [(c, ch)]
  ∧ (∃ cl subs, h_conns (dn_hub d) !! c = Some (cl, Serving)
     ∧ h_conns h' = <[c := (MkClient (cl_id cl) subs (cl_done cl), Serving)]> (h_conns (dn_hub d)))
  ∧ hub_reach h'.
Proof.
  intros Ha Hkey Hr. pose proof (hub_reach_inv _ (ag_hub d Ha)) as Hv.
  destruct (hi_keys _ Hv key c Hkey) as (cl & Hc & _).
  pose proof (reach_step _ _ (ag_hub d Ha) (hub_subscribe (dn_hub d) key)) as Hreach.
  unfold ignore in Hreach. rewrite Hr in Hreach. simpl in Hreach.
  unfold route_events in Hr. rewrite Hkey in Hr. unfold mbind, M_bind in Hr.
  set (ch0 := fresh (dom (h_heap (dn_hub d)))) in *.
  assert (subscribe (cl, h_heap (dn_hub d))
    = ((MkClient (cl_id cl) ({[ch0]} ∪ cl_subs cl) (cl_done cl),
        <[ch0 := UChan false false []]> (h_heap (dn_hub d))), Ok ch0)) as Hs by done.
  rewrite (on_client_eq _ _ _ _ _ _ _ _ Hc Hs) in Hr. unfold mret, M_ret in Hr. simpl in Hr.
  injection Hr as <- <-. simpl.
  assert (h_heap (dn_hub d) !! ch0 = None) as Hf by (apply not_elem_of_dom; apply is_fresh).
  split_and!; [done..| |done]. by eexists _, _.
Qed.

(** One lemma per step that changes the hub or the connections. *)
Lemma agree_accept d c k :
  agree d → dn_conns d !! c = None →
  agree (set_pc DLoop (set_conn c (MkDconn k k HStart true []) d)).
Proof.
  intros [Hh Hc Hk Hw] Hn. split; simpl; [done|..|done].
  - intros x q [[<- <-]|[_ Hq]]%lookup_insert_Some; [|by apply Hc].
    simpl. destruct (h_conns (dn_hub d) !! c) as [y|] eqn:Hy; [|done].
    destruct (Hk c y Hy) as [? ?]. congruence.
  - intros x y Hx. destruct (decide (c = x)) as [<-|]; [by rewrite lookup_insert_eq|].
    rewrite lookup_insert_ne by done. by eapply Hk.
Qed.

Lemma agree_register d c k id0 :
  agree d → dn_conns d !! c = Some k → k_pc k = HStart → h_clients (dn_hub d) !! id0 = None →
  agree (set_hub (connect c id0 (dn_hub d)) (set_conn c (k_goto HTest k) d)).
Proof.
  intros Ha Hk Hp Hid.
  pose proof (ag_conn d Ha c k Hk) as Hin. unfold in_hub in Hin. rewrite Hp in Hin. simpl in Hin.
  apply (agree_conn d c k); [done..| | | | |done].
  - exact (reach_step _ _ (ag_hub d Ha) (hub_connect _ c id0 Hin)).
  - exists (newClient id0). simpl. by rewrite !lookup_insert_eq.
  - intros c' Hne. simpl. by rewrite lookup_insert_ne.
  - intros key c' Hne Hc'. simpl. rewrite lookup_insert_ne; [done|congruence].
Qed.

Lemma agree_remove d c k :
  agree d → dn_conns d !! c = Some k → k_pc k = HRemove →
  agree (set_hub (remove c (dn_hub d)) (set_conn c (k_goto HClose (k_shut k)) d)).
Proof.
  intros Ha Hk Hp.
  destruct (serving_conn d c k Ha Hk) as (cl & Hc & Hreg); [by rewrite Hp|].
  pose proof (reach_step _ _ (ag_hub d Ha) (hub_remove _ c cl Hc)) as Hreach. simpl in Hreach.
  unfold remove in *. rewrite Hc in *. apply (agree_conn d c k); [done..| | | |done].
  - exists cl. simpl. by rewrite lookup_insert_eq.
  - intros c' Hne. simpl. by rewrite lookup_insert_ne.
  - intros key c' Hne Hc'. simpl. rewrite lookup_delete_ne; [done|]. intros <-. congruence.
Qed.

Lemma agree_close d c k cl order :
  agree d → dn_conns d !! c = Some k → k_pc k = HClose →
  h_conns (dn_hub d) !! c = Some (cl, Removed) → order ≡ₚ elements (cl_subs cl) →
  agree (set_hub (fst (on_client c (λ _, Closed) (close order) (dn_hub d)))
    (set_conn c (k_goto HEnded k) d)).
Proof.
  intros Ha Hk Hp Hc Ho.
  destruct (close_agree d c k cl order Ha Hk Hp Hc Ho) as (s' & Heq & _ & Hreach). rewrite Heq in *.
  apply (agree_conn d c k); [done..| | |done|done].
  - exists (fst s'). simpl. by rewrite lookup_insert_eq.
  - intros c' Hne. simpl. by rewrite lookup_insert_ne.
Qed.

Lemma agree_subscribe d i key c k ch h' :
  agree d → h_clients (dn_hub d) !! key = Some c → dn_conns d !! c = Some k →
  route_events key (dn_hub d) = (h', Ok (Some ch)) →
  agree (set_hub h' (set_ws i (MkWs c ch WsUpgrade false [] (length (k_sent k))) d)).
Proof.
  intros Ha Hkey Hk Hr.
  destruct (subscribe_agree d key c ch h' Ha Hkey Hr) as (_ & _ & Ecl & Ehttp & (cl & subs & Hc & Ec) & Hreach).
  split; simpl; [done|..].
  - intros x q Hq. pose proof (ag_conn d Ha x q Hq) as Hin. unfold in_hub in *. rewrite Ecl, Ec.
    destruct (decide (c = x)) as [<-|Hne]; [|by rewrite lookup_insert_ne].
    rewrite lookup_insert_eq. rewrite Hc in Hin. destruct (hub_point (k_pc q)); [|done].
    destruct Hin as (cl' & Hcl' & Hreg). simplify_eq. by eexists.
  - rewrite Ec. intros x y [[<- _]|[_ Hx]]%lookup_insert_Some; by eapply ag_known.
  - rewrite Ehttp. intros j v [[<- <-]|[_ Hj]]%lookup_insert_Some; apply elem_of_app;
      [right; by apply list_elem_of_singleton|left; by eapply ag_http].
Qed.

Lemma agree_step d d' : agree d → daemon_step d d' → agree d'.
Proof.
  intros Ha Hs. destruct Hs as [? [Hp Hd|Hp Hd|Hp Hl|Hd|Hw Hd|Hw Hd]
    |c ? [k id0 Hk Hp Hid|k Hk Hp|k k' msg Hk Hp Hr|k k' e Hk Hp Hr|k data cl order Hk Hp Hc Ho|k Hk Hp
         |k cl order Hk Hp Hc Ho]|c k Hp Hl Hn|Hp
    |i path key c k ch h' Hi Hpath Hkey Hk Hr|i w Hi Hp|i w Hi Hp|i w Hi Hp|i w uc msg Hi Hp Hu Hg
    |i w uc Hi Hp Hu Hg Hcl|i w uc Hi Hp Hu Hg Hgo|i w msg Hi Hp|i w msg Hi Hp].
  1-4, 6, 15: apply (agree_same d); [done..|]; intros i w Hi; by exists w.
  - unfold watch_tick. case_decide; [|done]. apply (agree_same d); [done..|]. intros i w Hi. by exists w.
  - by apply agree_register.
  - apply (agree_point d c k); [done..|]. rewrite Hp. by destruct (dn_done d).
  - apply (agree_point d c k); [done..|]. by rewrite Hp.
  - apply (agree_point d c k); [done..|]. by rewrite Hp.
  - destruct (broadcast_agree d c k cl data order Ha Hk Hp Hc Ho) as (heap & Heq & _ & Hreach).
    rewrite Heq in *. apply (agree_conn d c k); [done..| |done|done|done].
    destruct (serving_conn d c k Ha Hk) as (cl' & Hc' & Hreg); [by rewrite Hp|]. by exists cl'.
  - by apply agree_remove.
  - by eapply agree_close.
  - by apply agree_accept.
  - by eapply agree_subscribe.
  - by eapply agree_wait.
  - by apply agree_leave.
  - apply (agree_same d); [done..|]. intros j v. simpl. intros [[<- <-]|[_ Hj]]%lookup_insert_Some; [by exists w|by exists v].
  - apply (agree_same d); [done..|]. intros j v. simpl. intros [[<- <-]|[_ Hj]]%lookup_insert_Some; [by exists w|by exists v].
  - by apply agree_leave.
  - by apply agree_leave.
  - by eapply agree_wait.
  - by apply agree_leave.
Qed.

(** ** What the subscribers get *)

(** How far a handler is with what its channel gave it. *)
Definition heard (uc : uchan) (w : ws) : Prop :=
  match ws_pc_of w with
  | WsUpgrade => uc_got uc = [] ∧ ws_out w = [] ∧ uc_waiting uc = false
  | WsSelect =>
      (uc_got uc = ws_out w ∧ (uc_waiting uc = true ∨ uc_closed uc = true))
      ∨ (∃ msg, uc_got uc = ws_out w ++ [msg] ∧ uc_waiting uc = false)
  | WsWrite msg => uc_got uc = ws_out w ++ [msg] ∧ uc_waiting uc = false
  | WsReturned => uc_closed uc = true ∧ ws_out w `prefix_of` uc_got uc
  end.

Record stream_ok (d : dstate) (w : ws) (uc : uchan) (k : dconn) : Prop := {
  so_ch : h_heap (dn_hub d) !! ws_ch w = Some uc;
  so_conn : dn_conns d !! ws_client w = Some k;
  so_heard : heard uc w;
  so_sub : uc_got uc `sublist_of` drop (ws_from w) (k_sent k);
  so_from : ws_from w ≤ length (k_sent k);
}.

Record streams (d : dstate) : Prop := {
  st_ws i w : dn_ws d !! i = Some w → ∃ uc k, stream_ok d w uc k;
  st_own i j w v : dn_ws d !! i = Some w → dn_ws d !! j = Some v → ws_ch w = ws_ch v → i = j;
}.

Lemma heard_closed b uc w :
  heard uc w → (uc_closed uc = true → b = true) → heard (UChan b (uc_waiting uc) (uc_got uc)) w.
Proof. unfold heard. simpl. destruct (ws_pc_of w); naive_solver. Qed.

(** Connections whose goroutines say nothing. *)
Definition quiet (d d' : dstate) : Prop :=
  ∀ c k, dn_conns d !! c = Some k → ∃ k', dn_conns d' !! c = Some k' ∧ k_sent k' = k_sent k.

Lemma stream_ok_frame d d' w uc k :
  same_got (h_heap (dn_hub d)) (h_heap (dn_hub d')) → quiet d d' →
  stream_ok d w uc k → ∃ uc' k', stream_ok d' w uc' k'.
Proof.
  intros Hg Hq [H1 H2 H3 H4 H5]. destruct (Hg _ _ H1) as (b & H1' & Hb). destruct (Hq _ _ H2) as (k' & H2' & Hs).
  eexists _, k'. split; [exact H1'|done|by apply heard_closed|simpl; by rewrite Hs..].
Qed.

Lemma streams_frame d d' :
  dn_ws d' = dn_ws d → same_got (h_heap (dn_hub d)) (h_heap (dn_hub d')) → quiet d d' →
  streams d → streams d'.
Proof.
  intros Ew Hg Hq [Hs Ho]. split; rewrite Ew; [|done].
  intros i w Hi. destruct (Hs i w Hi) as (uc & k & Hok). by eapply stream_ok_frame.
Qed.

(** One handler moves on, together with its channel. *)
Lemma streams_move d d' i w w' uc' k' :
  streams d → dn_ws d !! i = Some w → dn_ws d' = <[i := w']> (dn_ws d) → dn_conns d' = dn_conns d →
  ws_ch w' = ws_ch w →
  (∀ ch uc, ch ≠ ws_ch w → h_heap (dn_hub d) !! ch = Some uc →
     ∃ b, h_heap (dn_hub d') !! ch = Some (UChan b (uc_waiting uc) (uc_got uc)) ∧ (uc_closed uc = true → b = true)) →
  stream_ok d' w' uc' k' → streams d'.
Proof.
  intros [Hs Ho] Hi Ew Ec Ech Hg Hok. split; rewrite Ew.
  - intros j v [[<- <-]|[Hne Hj]]%lookup_insert_Some; [by exists uc', k'|].
    destruct (Hs j v Hj) as (uc & k & [H1 H2 H3 H4 H5]).
    destruct (Hg (ws_ch v) uc) as (b & H1' & Hb); [|done|].
    { intros He. apply Hne. by eapply Ho. }
    eexists _, k. split; [exact H1'|by rewrite Ec|by apply heard_closed|done|done].
  - intros j1 j2 v1 v2 [[<- <-]|[Hn1 H1]]%lookup_insert_Some [[<- <-]|[Hn2 H2]]%lookup_insert_Some; [done|..].
    + rewrite Ech. intros He. by apply (Ho i j2 w v2).
    + rewrite Ech. intros He. by apply (Ho j1 i v1 w).
    + by apply Ho.
Qed.

Lemma same_got_refl_at (h : gmap ch_ref uchan) ch uc :
  h !! ch = Some uc → ∃ b, h !! ch = Some (UChan b (uc_waiting uc) (uc_got uc)) ∧ (uc_closed uc = true → b = true).
Proof. apply same_got_preorder. Qed.

(** The handler returns: its channel is closed if it was not yet. *)
Lemma streams_leave d i w :
  agree d → streams d → dn_ws d !! i = Some w → ws_pc_of w ≠ WsReturned → streams (leave i w d).
Proof.
  intros Ha Hs Hi Hp. pose proof (hub_reach_inv _ (ag_hub d Ha)) as Hv.
  destruct (agree_ws_client d i w Ha Hi) as (cl & pc & b & Hc & Hf & Hb).
  destruct (unsubscribe_tame (ws_ch w) (cl, h_heap (dn_hub d))) as (s' & Hu & _ & Hsub & Ht);
    [by eapply (hi_subs _ Hv)|].
  pose proof (unsubscribe_got (ws_ch w) (cl, h_heap (dn_hub d))) as Hg. rewrite Hu in Hg. simpl in Hg.
  destruct (st_ws d Hs i w Hi) as (uc & k & [H1 H2 H3 H4 H5]).
  destruct (Hg _ _ H1) as (b' & H1' & Hb').
  assert (b' = true) as ->.
  { destruct b'; [done|]. exfalso.
    assert (flags (snd s') !! ws_ch w = Some false) as Hf' by (unfold flags; by rewrite lookup_fmap, H1').
    destruct b.
    - destruct (uc_closed uc) eqn:Hcl; [by specialize (Hb' eq_refl)|].
      unfold flags in Hf. rewrite lookup_fmap, H1 in Hf. simpl in Hf. congruence.
    - unfold unsubscribe, mbind at 1, M_bind at 1, gets in Hu. simpl in Hu.
      rewrite bool_decide_true in Hu by auto. unfold mbind, M_bind, on_heap, zoom, modify, set_subs in Hu.
      simpl in Hu. destruct (close_chan_open _ _ Hf) as (h1 & Hcc & Hf1). rewrite Hcc in Hu. simpl in Hu.
      simplify_eq. simpl in Hf'. by rewrite Hf1, lookup_insert_eq in Hf'. }
  unfold leave. rewrite (on_client_eq _ _ _ _ _ _ _ _ Hc Hu). simpl.
  eapply (streams_move d _ i w (w_goto WsReturned w)); [done..| |].
  - intros ch uc0 _ Hch. by apply Hg.
  - split; [exact H1'|exact H2| |exact H4|exact H5]. unfold heard. simpl. split; [done|].
    unfold heard in H3. destruct (ws_pc_of w); [by destruct H3 as (-> & -> & _)| | |done].
    + destruct H3 as [(-> & _)|(m & -> & _)]; [done|by apply prefix_app_r].
    + destruct H3 as (-> & _). by apply prefix_app_r.
Qed.

(** The handler waits for the next message. *)
Lemma streams_wait d i w w' :
  streams d → dn_ws d !! i = Some w → ws_client w' = ws_client w → ws_ch w' = ws_ch w →
  ws_from w' = ws_from w → ws_pc_of w' = WsSelect →
  (∀ uc, heard uc w → uc_got uc = ws_out w') →
  streams (set_hub (wait_on (ws_ch w) (dn_hub d)) (set_ws i w' d)).
Proof.
  intros Hs Hi Ec Ech Ef Hp Hgot. destruct (st_ws d Hs i w Hi) as (uc & k & [H1 H2 H3 H4 H5]).
  eapply (streams_move d _ i w w' (UChan (uc_closed uc) (negb (uc_closed uc)) (uc_got uc)) k); [done..| |].
  - intros ch uc0 Hne Hch. simpl. rewrite wait_on_got, decide_False by done. by apply same_got_refl_at.
  - split; simpl; [|by rewrite Ec| |by rewrite Ef|by rewrite Ef].
    + rewrite Ech, wait_on_got, decide_True, H1 by done. reflexivity.
    + unfold heard. rewrite Hp. simpl. left. split; [by apply Hgot|]. destruct (uc_closed uc); auto.
Qed.

(** A message is broadcast. *)
Lemma streams_broadcast d c k cl data order :
  agree d → streams d → dn_conns d !! c = Some k → k_pc k = HBroadcast data →
  h_conns (dn_hub d) !! c = Some (cl, Serving) → order ≡ₚ elements (cl_subs cl) →
  streams (set_hub (fst (on_client c id (broadcast order data) (dn_hub d)))
    (set_conn c (k_goto HTest (k_said data k)) d)).
Proof.
  intros Ha Hs Hk Hp Hc Ho. pose proof (hub_reach_inv _ (ag_hub d Ha)) as Hv.
  destruct (broadcast_agree d c k cl data order Ha Hk Hp Hc Ho) as (heap & Heq & Hheap & _). rewrite Heq.
  split; [|by apply Hs]. simpl. intros i w Hi. destruct (st_ws d Hs i w Hi) as (uc & q & [H1 H2 H3 H4 H5]).
  destruct (agree_ws_client d i w Ha Hi) as (cl' & pc & b & Hc' & Hf & Hb).
  destruct (decide (ws_ch w ∈ cl_subs cl)) as [Hin|Hin].
  - assert (b = false) as ->.
    { pose proof (hi_subs _ Hv c cl Serving Hc _ Hin) as Hopen. simpl in Hopen. congruence. }
    assert (c = ws_client w) as ->
      by (by apply (hi_disj _ Hv c (ws_client w) cl cl' Serving pc (ws_ch w)); auto).
    rewrite Hk in H2. injection H2 as <-. exists (told data uc), (k_goto HTest (k_said data k)). split; simpl.
    + by rewrite Hheap, decide_True, H1.
    + by rewrite lookup_insert_eq.
    + unfold heard, told in *. destruct (uc_waiting uc) eqn:Hw; simpl; rewrite ?Hw; [|done].
      destruct (ws_pc_of w); [by destruct H3 as (_ & _ & ?)| |by destruct H3 as (_ & ?)|].
      * destruct H3 as [(-> & _)|(m & _ & ?)]; [right; by exists data|done].
      * destruct H3 as (? & ?). split; [done|]. by apply prefix_app_r.
    + unfold told. destruct (uc_waiting uc); simpl.
      * rewrite drop_app_le by done. by apply sublist_app.
      * etrans; [exact H4|]. rewrite drop_app. by apply sublist_inserts_r.
    + rewrite length_app. lia.
  - exists uc. destruct (decide (ws_client w = c)) as [<-|Hne].
    + rewrite Hk in H2. injection H2 as <-. exists (k_goto HTest (k_said data k)). split; simpl; [|by rewrite lookup_insert_eq|done| |rewrite length_app; lia].
      * by rewrite Hheap, decide_False.
      * etrans; [exact H4|]. rewrite drop_app. by apply sublist_inserts_r.
    + exists q. split; simpl; [|by rewrite lookup_insert_ne|done..].
      by rewrite Hheap, decide_False.
Qed.

Lemma quiet_refl d d' : dn_conns d' = dn_conns d → quiet d d'.
Proof. intros E c k Hk. rewrite E. by exists k. Qed.

Lemma quiet_conn d c k k' :
  dn_conns d !! c = Some k → k_sent k' = k_sent k → ∀ h, quiet d (set_hub h (set_conn c k' d)).
Proof.
  intros Hk Hs h x q Hq. simpl. destruct (decide (c = x)) as [<-|Hne].
  - rewrite lookup_insert_eq. simplify_eq. by exists k'.
  - rewrite lookup_insert_ne by done. by exists q.
Qed.

(** A new subscription is on a new channel. *)
Lemma streams_subscribe d i key c k ch h' :
  agree d → streams d → h_clients (dn_hub d) !! key = Some c → dn_conns d !! c = Some k →
  route_events key (dn_hub d) = (h', Ok (Some ch)) →
  streams (set_hub h' (set_ws i (MkWs c ch WsUpgrade false [] (length (k_sent k))) d)).
Proof.
  intros Ha Hst Hkey Hk Hr.
  destruct (subscribe_agree d key c ch h' Ha Hkey Hr) as (Hfresh & Eh & _ & _ & _ & _).
  assert (∀ j v, dn_ws d !! j = Some v → ws_ch v ≠ ch) as Hne.
  { intros j v Hj <-. destruct (st_ws d Hst j v Hj) as (uc & q & [H1 _ _ _ _]). congruence. }
  split; simpl.
  - intros j v [[<- <-]|[_ Hj]]%lookup_insert_Some.
    + exists (UChan false false []), k. split; simpl; [by rewrite Eh, lookup_insert_eq|done|done| |done].
      apply sublist_nil_l.
    + destruct (st_ws d Hst j v Hj) as (uc & q & [H1 H2 H3 H4 H5]). exists uc, q. split; try done.
      simpl. rewrite Eh, lookup_insert_ne; [done|]. apply not_eq_sym. by eapply Hne.
  - intros j1 j2 v1 v2 [[<- <-]|[Hn1 H1]]%lookup_insert_Some [[<- <-]|[Hn2 H2]]%lookup_insert_Some; [done|..].
    + simpl. intros He. by destruct (Hne _ _ H2).
    + simpl. intros He. by destruct (Hne _ _ H1).
    + by apply Hst.
Qed.

Lemma streams_step d d' : agree d → streams d → daemon_step d d' → streams d'.
Proof.
  intros Ha Hst Hs. destruct Hs as [? [Hp Hd|Hp Hd|Hp Hl|Hd|Hw Hd|Hw Hd]
    |c ? [k id0 Hk Hp Hid|k Hk Hp|k k' msg Hk Hp Hr|k k' e Hk Hp Hr|k data cl order Hk Hp Hc Ho|k Hk Hp
         |k cl order Hk Hp Hc Ho]|c k Hp Hl Hn|Hp
    |i path key c k ch h' Hi Hpath Hkey Hk Hr|i w Hi Hp|i w Hi Hp|i w Hi Hp|i w uc msg Hi Hp Hu Hg
    |i w uc Hi Hp Hu Hg Hcl|i w uc Hi Hp Hu Hg Hgo|i w msg Hi Hp|i w msg Hi Hp].
  1-4, 6, 15: by apply (streams_frame d); [|reflexivity|apply quiet_refl|].
  - unfold watch_tick. case_decide; [|done]. by apply (streams_frame d); [|reflexivity|apply quiet_refl|].
  - apply (streams_frame d); [done|reflexivity| |done]. by apply (quiet_conn d c k).
  - apply (streams_frame d); [done|reflexivity| |done]. exact (quiet_conn d c k (k_goto _ k) Hk eq_refl (dn_hub d)).
  - apply (streams_frame d); [done|reflexivity| |done].
    by apply (quiet_conn d c k (k_goto (HBroadcast (Marshal msg)) (k_read k' k)) Hk eq_refl (dn_hub d)).
  - apply (streams_frame d); [done|reflexivity| |done].
    by apply (quiet_conn d c k (k_goto HRemove (k_read k' k)) Hk eq_refl (dn_hub d)).
  - by eapply streams_broadcast.
  - apply (streams_frame d); [done| |by apply (quiet_conn d c k)|done]. simpl. unfold remove.
    destruct (h_conns (dn_hub d) !! c) as [[cl pc]|]; reflexivity.
  - destruct (close_agree d c k cl order Ha Hk Hp Hc Ho) as (s' & -> & Hg & _).
    apply (streams_frame d); [done|exact Hg|by apply (quiet_conn d c k)|done].
  - apply (streams_frame d); [done|reflexivity| |done]. intros x q Hq. simpl.
    rewrite lookup_insert_ne by congruence. by exists q.
  - by eapply streams_subscribe.
  - apply (streams_wait d i w); [done..|]. intros uc. unfold heard. rewrite Hp. simpl. intros (? & ? & _). congruence.
  - apply streams_leave; [done..|]. by rewrite Hp.
  - destruct (st_ws d Hst i w Hi) as (uc & k & [H1 H2 H3 H4 H5]).
    apply (streams_move d _ i w (w_leave w) uc k); [done..| |by split].
    intros ch u _ Hu. by apply same_got_refl_at.
  - destruct (st_ws d Hst i w Hi) as (uc' & k & [H1 H2 H3 H4 H5]). rewrite Hu in H1. injection H1 as <-.
    apply (streams_move d _ i w (w_goto (WsWrite msg) w) uc k); [done..| |].
    { intros ch u _ Hu'. by apply same_got_refl_at. }
    split; [done..| |done|done]. unfold heard in *. rewrite Hp in H3. simpl.
    destruct H3 as [(He & _)|(m & He & Hwt)]; rewrite Hg in He.
    + apply (f_equal length) in He. rewrite length_app in He. simpl in He. lia.
    + by apply app_inj_tail in He as [_ <-].
  - apply streams_leave; [done..|]. by rewrite Hp.
  - apply streams_leave; [done..|]. by rewrite Hp.
  - apply (streams_wait d i w); [done..|]. intros uc. unfold heard. rewrite Hp. by intros (-> & _).
  - apply streams_leave; [done..|]. by rewrite Hp.
Qed.

(** ** What the connections relay *)

Definition pending (k : dconn) : list bytes := match k_pc k with HBroadcast data => [data] | _ => [] end.

Definition reading (pc : conn_pc) : bool :=
  match pc with HStart | HTest | HRecv | HBroadcast _ => true | _ => false end.

(** What was broadcast is what the loop makes of the connection, so far. *)
Definition relays (k : dconn) : Prop :=
  (reading (k_pc k) = true → ∀ fuel rest, snd (relay fuel (k_conn k)) = Ok rest →
     snd (relay (length (k_sent k ++ pending k) + fuel) (k_first k)) = Ok ((k_sent k ++ pending k) ++ rest))
  ∧ ∃ fuel rest, length (rx (k_first k)) < fuel
     ∧ snd (relay fuel (k_first k)) = Ok ((k_sent k ++ pending k) ++ rest).

Lemma relay_next fuel c c' msg rest :
  recvMsg c = (c', Ok msg) → snd (relay fuel c') = Ok rest → snd (relay (S fuel) c) = Ok (Marshal msg :: rest).
Proof.
  intros Hr Hf. cbn [relay]. rewrite Hr. unfold mbind, M_bind.
  destruct (relay fuel c') as [c2 r]. simpl in Hf. by subst r.
Qed.

(** From the loop, the rest of the connection can always be read. *)
Lemma relays_some k :
  (∀ fuel rest, snd (relay fuel (k_conn k)) = Ok rest →
     snd (relay (length (k_sent k ++ pending k) + fuel) (k_first k)) = Ok ((k_sent k ++ pending k) ++ rest)) →
  ∃ fuel rest, length (rx (k_first k)) < fuel
    ∧ snd (relay fuel (k_first k)) = Ok ((k_sent k ++ pending k) ++ rest).
Proof.
  intros H. set (fuel := S (length (rx (k_conn k)) + length (rx (k_first k)))).
  assert (∃ rest, snd (relay fuel (k_conn k)) = Ok rest) as [rest Hrest].
  { pose proof (relay_returns fuel (k_conn k)) as Hr. destruct Hr as [Hp Hf]; [unfold fuel; lia|].
    destruct (snd (relay fuel (k_conn k))) as [rest|e| |] eqn:E; [by exists rest| |done..].
    exfalso. revert E. clear. generalize (k_conn k). induction fuel as [|fuel IH]; intros c; [done|].
    cbn [relay]. destruct (recvMsg c) as [c1 [m|e1| |]]; [|done..]. unfold mbind, M_bind.
    specialize (IH c1). by destruct (relay fuel c1) as [c2 [r|e2| |]]. }
  eexists _, rest. split; [|by apply H]. unfold fuel. lia.
Qed.

Lemma relays_start k : relays (MkDconn k k HStart true []).
Proof.
  assert (∀ fuel rest, snd (relay fuel k) = Ok rest → snd (relay (length (@nil bytes ++ []) + fuel) k) = Ok (([] ++ []) ++ rest))
    as H by done.
  split; [by intros _|]. by apply (relays_some (MkDconn k k HStart true [])).
Qed.

Lemma relays_recv k k' msg :
  relays k → k_pc k = HRecv → recvMsg (k_conn k) = (k', Ok msg) →
  relays (k_goto (HBroadcast (Marshal msg)) (k_read k' k)).
Proof.
  intros [H _] Hp Hr. rewrite Hp in H. specialize (H eq_refl). unfold pending in H. rewrite Hp in H.
  set (q := k_goto _ _). assert (∀ fuel rest, snd (relay fuel (k_conn q)) = Ok rest →
     snd (relay (length (k_sent q ++ pending q) + fuel) (k_first q)) = Ok ((k_sent q ++ pending q) ++ rest)) as Hq.
  { intros fuel rest Hf. specialize (H (S fuel) (Marshal msg :: rest) (relay_next _ _ _ _ _ Hr Hf)).
    unfold pending, q. simpl. rewrite app_nil_r in H. rewrite length_app, <- app_assoc. simpl.
    replace (length (k_sent k) + 1 + fuel) with (length (k_sent k) + S fuel) by lia. exact H. }
  split; [by intros _|by apply relays_some].
Qed.

(** The goroutine moves on and neither receives nor sends. *)
Lemma relays_goto k q :
  relays k → k_conn q = k_conn k ∨ reading (k_pc q) = false → k_first q = k_first k →
  k_sent q ++ pending q = k_sent k ++ pending k → (reading (k_pc q) = true → reading (k_pc k) = true) →
  relays q.
Proof.
  intros [H1 H2] Ec Ef Es Hr. split.
  - intros Hq. destruct Ec as [Ec|Ec]; [|congruence]. rewrite Ec, Ef, Es. by apply H1, Hr.
  - by rewrite Ef, Es.
Qed.

Definition all_relay (d : dstate) : Prop := ∀ c k, dn_conns d !! c = Some k → relays k.

Lemma all_relay_set d c k h : all_relay d → relays k → all_relay (set_hub h (set_conn c k d)).
Proof. intros Hd Hk x q. simpl. intros [[<- <-]|[_ Hq]]%lookup_insert_Some; [done|by eapply Hd]. Qed.

Lemma all_relay_step d d' : all_relay d → daemon_step d d' → all_relay d'.
Proof.
  intros Ha Hs. destruct Hs as [? [Hp Hd|Hp Hd|Hp Hl|Hd|Hw Hd|Hw Hd]
    |c ? [k id0 Hk Hp Hid|k Hk Hp|k k' msg Hk Hp Hr|k k' e Hk Hp Hr|k data cl order Hk Hp Hc Ho|k Hk Hp
         |k cl order Hk Hp Hc Ho]|c k Hp Hl Hn|Hp
    |i path key c k ch h' Hi Hpath Hkey Hk Hr|i w Hi Hp|i w Hi Hp|i w Hi Hp|i w uc msg Hi Hp Hu Hg
    |i w uc Hi Hp Hu Hg Hcl|i w uc Hi Hp Hu Hg Hgo|i w msg Hi Hp|i w msg Hi Hp]; try exact Ha.
  - unfold watch_tick. by case_decide.
  - apply all_relay_set; [done|]. apply (relays_goto k); [by eapply Ha|by left|done|by unfold pending; rewrite Hp|by rewrite Hp].
  - apply (all_relay_set d c _ (dn_hub d)); [done|].
    apply (relays_goto k); [by eapply Ha|by left|done| |by rewrite Hp].
    unfold pending. rewrite Hp. simpl. by destruct (dn_done d).
  - apply (all_relay_set d c _ (dn_hub d)); [done|]. apply relays_recv; [by eapply Ha|done..].
  - apply (all_relay_set d c _ (dn_hub d)); [done|].
    apply (relays_goto k); [by eapply Ha|by right|done|by unfold pending; rewrite Hp|done].
  - apply all_relay_set; [done|]. apply (relays_goto k); [by eapply Ha|by left|done| |by rewrite Hp].
    unfold pending. rewrite Hp. simpl. by rewrite app_nil_r.
  - apply all_relay_set; [done|]. apply (relays_goto k); [by eapply Ha|by right|done|by unfold pending; rewrite Hp|done].
  - apply all_relay_set; [done|]. apply (relays_goto k); [by eapply Ha|by right|done|by unfold pending; rewrite Hp|done].
  - exact (all_relay_set d c _ (dn_hub d) Ha (relays_start k)).
Qed.

(** ** The end *)

Definition serving_pc (pc : conn_pc) : bool := match pc with HRecv | HBroadcast _ => true | _ => false end.

(** Once the daemon is stopped nobody receives. *)
Definition stopped (d : dstate) : Prop :=
  dn_done d = true → ∀ c k, dn_conns d !! c = Some k → serving_pc (k_pc k) = false.

Lemma stopped_set d c k h :
  stopped d → (dn_done d = true → serving_pc (k_pc k) = false) → stopped (set_hub h (set_conn c k d)).
Proof. intros Hd Hk H x q. simpl. intros [[<- <-]|[_ Hq]]%lookup_insert_Some; [by apply Hk|by eapply Hd]. Qed.

Lemma stopped_step d d' : agree d → stopped d → daemon_step d d' → stopped d'.
Proof.
  intros Hag Ha Hs. destruct Hs as [? [Hp Hd|Hp Hd|Hp Hl|Hd|Hw Hd|Hw Hd]
    |c ? [k id0 Hk Hp Hid|k Hk Hp|k k' msg Hk Hp Hr|k k' e Hk Hp Hr|k data cl order Hk Hp Hc Ho|k Hk Hp
         |k cl order Hk Hp Hc Ho]|c k Hp Hl Hn|Hp
    |i path key c k ch h' Hi Hpath Hkey Hk Hr|i w Hi Hp|i w Hi Hp|i w Hi Hp|i w uc msg Hi Hp Hu Hg
    |i w uc Hi Hp Hu Hg Hcl|i w uc Hi Hp Hu Hg Hgo|i w msg Hi Hp|i w msg Hi Hp]; try exact Ha;
    try (by apply stopped_set).
  - unfold watch_tick. case_decide as He; [|done]. intros _ c k Hk. simpl in Hk.
    destruct (k_pc k) eqn:Hp; try done;
      destruct (serving_conn d c k Hag Hk) as (cl & _ & Hr); rewrite ?Hp; try done;
      by rewrite He, lookup_empty in Hr.
  - apply (stopped_set d c _ (dn_hub d)); [done|]. intros Hd. simpl. by rewrite Hd.
  - apply (stopped_set d c _ (dn_hub d)); [done|]. intros Hd. specialize (Ha Hd c k Hk). by rewrite Hp in Ha.
Qed.

(** A connection whose goroutine is past [conn.Close] is closed; one that is not in
    its loop yet has relayed nothing. *)
Definition marked (k : dconn) : Prop :=
  match k_pc k with HStart => k_sent k = [] | HClose | HEnded => k_open k = false | _ => True end.

Definition all_marked (d : dstate) : Prop := ∀ c k, dn_conns d !! c = Some k → marked k.

Lemma all_marked_set d c k h : all_marked d → marked k → all_marked (set_hub h (set_conn c k d)).
Proof. intros Hd Hk x q. simpl. intros [[<- <-]|[_ Hq]]%lookup_insert_Some; [done|by eapply Hd]. Qed.

Lemma all_marked_step d d' : all_marked d → daemon_step d d' → all_marked d'.
Proof.
  intros Ha Hs. destruct Hs as [? [Hp Hd|Hp Hd|Hp Hl|Hd|Hw Hd|Hw Hd]
    |c ? [k id0 Hk Hp Hid|k Hk Hp|k k' msg Hk Hp Hr|k k' e Hk Hp Hr|k data cl order Hk Hp Hc Ho|k Hk Hp
         |k cl order Hk Hp Hc Ho]|c k Hp Hl Hn|Hp
    |i path key c k ch h' Hi Hpath Hkey Hk Hr|i w Hi Hp|i w Hi Hp|i w Hi Hp|i w uc msg Hi Hp Hu Hg
    |i w uc Hi Hp Hu Hg Hcl|i w uc Hi Hp Hu Hg Hgo|i w msg Hi Hp|i w msg Hi Hp]; try exact Ha;
    try (by apply all_marked_set); try (by apply (all_marked_set d c _ (dn_hub d))).
  - unfold watch_tick. by case_decide.
  - apply (all_marked_set d c _ (dn_hub d)); [done|]. unfold marked. simpl. by destruct (dn_done d).
  - apply all_marked_set; [done|]. pose proof (Ha c k Hk) as Hm. unfold marked in *. by rewrite Hp in Hm.
Qed.

Record daemon_inv (d : dstate) : Prop := {
  di_agree : agree d;
  di_streams : streams d;
  di_relay : all_relay d;
  di_stopped : stopped d;
  di_marked : all_marked d;
}.

Lemma daemon_inv_new : daemon_inv new_daemon.
Proof.
  split.
  - split; simpl; [apply reach_new|intros ? ?; by rewrite lookup_empty..].
  - split; simpl; [intros ? ?; by rewrite lookup_empty|intros ? ? ? ?; by rewrite lookup_empty].
  - intros c k. simpl. by rewrite lookup_empty.
  - done.
  - intros c k. simpl. by rewrite lookup_empty.
Qed.

Lemma daemon_inv_step d d' : daemon_inv d → daemon_step d d' → daemon_inv d'.
Proof.
  intros [H1 H2 H3 H4 H5] Hs. split; [by eapply agree_step|by eapply streams_step
    |by eapply all_relay_step|by eapply stopped_step|by eapply all_marked_step].
Qed.

Lemma daemon_inv_reach d d' : daemon_reach d d' → daemon_inv d → daemon_inv d'.
Proof. induction 1; eauto using daemon_inv_step. Qed.

(** What was broadcast on a connection; nothing on one that was not accepted yet. *)
Definition said (d : dstate) (c : cl_ref) : list bytes :=
  match dn_conns d !! c with Some k => k_sent k | None => [] end.

Lemma said_set d c k h c' :
  said (set_hub h (set_conn c k d)) c' = if decide (c = c') then k_sent k else said d c'.
Proof.
  unfold said. simpl. case_decide as He; [subst; by rewrite lookup_insert_eq|by rewrite lookup_insert_ne].
Qed.

Lemma stopped_silent d d' :
  daemon_inv d → daemon_step d d' → dn_done d = true →
  dn_done d' = true ∧ ∀ c, said d' c = said d c.
Proof.
  intros [_ _ _ Hst _] Hs Hd. specialize (Hst Hd).
  assert (∀ c k k' h, dn_conns d !! c = Some k → k_sent k' = k_sent k →
    ∀ c', said (set_hub h (set_conn c k' d)) c' = said d c') as Hset.
  { intros c k k' h Hk Hsent c'. rewrite said_set. case_decide; [|done]. subst. unfold said. by rewrite Hk. }
  destruct Hs as [? [Hp Hd'|Hp Hd'|Hp Hl|Hd'|Hw Hd'|Hw Hd']
    |c ? [k id0 Hk Hp Hid|k Hk Hp|k k' msg Hk Hp Hr|k k' e Hk Hp Hr|k data cl order Hk Hp Hc Ho|k Hk Hp
         |k cl order Hk Hp Hc Ho]|c k Hp Hl Hn|Hp
    |i path key c k ch h' Hi Hpath Hkey Hk Hr|i w Hi Hp|i w Hi Hp|i w Hi Hp|i w uc msg Hi Hp Hu Hg
    |i w uc Hi Hp Hu Hg Hcl|i w uc Hi Hp Hu Hg Hgo|i w msg Hi Hp|i w msg Hi Hp]; try (by split).
  - congruence.
  - split; [done|]. by apply (Hset c k).
  - split; [done|]. exact (Hset c k (k_goto _ k) (dn_hub d) Hk eq_refl).
  - specialize (Hst c k Hk). by rewrite Hp in Hst.
  - specialize (Hst c k Hk). by rewrite Hp in Hst.
  - specialize (Hst c k Hk). by rewrite Hp in Hst.
  - split; [done|]. by apply (Hset c k).
  - split; [done|]. by apply (Hset c k).
  - split; [done|]. intros c'. change (said (set_hub (dn_hub d) (set_conn c (MkDconn k k HStart true []) d)) c' = said d c').
    rewrite said_set. case_decide; [|done]. subst. unfold said. by rewrite Hn.
Qed.

Lemma stopped_silent_reach d d' :
  daemon_reach d d' → daemon_inv d → dn_done d = true →
  dn_done d' = true ∧ ∀ c, said d' c = said d c.
Proof.
  induction 1 as [d|d d1 d2 Hs _ IH]; intros Hi Hd; [done|].
  destruct (stopped_silent d d1 Hi Hs Hd) as [Hd1 H1].
  destruct (IH (daemon_inv_step _ _ Hi Hs) Hd1) as [Hd2 H2]. split; [done|]. intros c. by rewrite H2.
Qed.

(** Once the daemon is stopped its own goroutines close the listener, and [run]
    returns. *)
Lemma run_returns d :
  dn_done d = true → dn_pc d ≠ DEnded →
  ∃ d', rtc run_step d d' ∧ dn_pc d' = DEnded ∧ dn_listening d' = false.
Proof.
  intros Hd Hne. destruct (dn_pc d) eqn:Hp; [| |done].
  - exists (set_pc DEnded (unlisten d)). split; [|by split].
    eapply rtc_l; [by apply dr_unlisten|]. by apply rtc_once, dr_end.
  - exists (set_pc DEnded (set_pc DLoop (unlisten d))). split; [|by split].
    eapply rtc_l; [by apply dr_unlisten|]. eapply rtc_l; [by apply dr_closed|]. by apply rtc_once, dr_end.
Qed.

(** The end of [handleConnection]. *)
Lemma conn_removed c k d :
  daemon_inv d → dn_conns d !! c = Some k → k_pc k = HClose ∨ k_pc k = HEnded →
  ∃ d' k', rtc (serve_step c) d d' ∧ dn_conns d' !! c = Some k' ∧ k_pc k' = HEnded ∧ k_open k' = false.
Proof.
  intros Hi Hk Hp. pose proof (di_marked d Hi c k Hk) as Hm. unfold marked in Hm. destruct Hp as [Hp|Hp]; rewrite Hp in Hm.
  - pose proof (ag_conn d (di_agree d Hi) c k Hk) as Hin. unfold in_hub in Hin. rewrite Hp in Hin.
    destruct Hin as (cl & Hc & _). eexists _, (k_goto HEnded k). split; [by eapply rtc_once, hc_close|].
    split; [apply lookup_insert_eq|done].
  - exists d, k. by split; [apply rtc_refl|].
Qed.

Lemma conn_removes c k d :
  daemon_inv d → dn_conns d !! c = Some k → k_pc k = HRemove →
  ∃ d' k', rtc (serve_step c) d d' ∧ dn_conns d' !! c = Some k' ∧ k_pc k' = HEnded ∧ k_open k' = false.
Proof.
  intros Hi Hk Hp. pose proof (hc_remove c d k Hk Hp) as Hs. set (d1 := set_hub _ _) in Hs.
  destruct (conn_removed c (k_goto HClose (k_shut k)) d1) as (d' & k' & Hr & H);
    [by apply (daemon_inv_step d), (ds_serve d c)|apply lookup_insert_eq|by left|].
  exists d', k'. split; [by eapply rtc_l|done].
Qed.

Lemma conn_tests c k d :
  daemon_inv d → dn_done d = true → dn_conns d !! c = Some k → k_pc k = HTest →
  ∃ d' k', rtc (serve_step c) d d' ∧ dn_conns d' !! c = Some k' ∧ k_pc k' = HEnded ∧ k_open k' = false.
Proof.
  intros Hi Hd Hk Hp. pose proof (hc_test c d k Hk Hp) as Hs. rewrite Hd in Hs.
  destruct (conn_removes c (k_goto HRemove k) (set_conn c (k_goto HRemove k) d)) as (d' & k' & Hr & H);
    [by apply (daemon_inv_step d), (ds_serve d c)|apply lookup_insert_eq|done|].
  exists d', k'. split; [by eapply rtc_l|done].
Qed.

(** Once the daemon is stopped the goroutine of every connection closes it. *)
Lemma serve_ends c k d id :
  daemon_inv d → dn_done d = true → dn_conns d !! c = Some k → h_clients (dn_hub d) !! id = None →
  ∃ d' k', rtc (serve_step c) d d' ∧ dn_conns d' !! c = Some k' ∧ k_pc k' = HEnded ∧ k_open k' = false.
Proof.
  intros Hi Hd Hk Hid. pose proof (di_stopped d Hi Hd c k Hk) as Hst. destruct (k_pc k) eqn:Hp; try done.
  - pose proof (hc_start c d k id Hk Hp Hid) as Hs. set (d1 := set_hub _ _) in Hs.
    destruct (conn_tests c (k_goto HTest k) d1) as (d' & k' & Hr & H);
      [by apply (daemon_inv_step d), (ds_serve d c)|done|apply lookup_insert_eq|done|].
    exists d', k'. split; [by eapply rtc_l|done].
  - by eapply conn_tests.
  - by eapply conn_removes.
  - eapply conn_removed; [done..|by left].
  - eapply conn_removed; [done..|by right].
Qed.

(** ** Properties *)

(** C33: what a subscriber gets.  In every execution of the daemon, whatever the
    connections, the other subscribers and the websockets do, what was written to a
    websocket is, in order and each at most once, a part of what was broadcast on its
    client since it subscribed; and that is, in order and without a gap, a prefix of
    the JSON of the messages the client sent, wherever its connection broke.  A
    subscriber that is waiting when a message is broadcast gets it; one that is still
    writing the previous one does not. *)
Theorem subscriber_stream d i w :
  daemon_reach new_daemon d → dn_ws d !! i = Some w →
  ∃ k uc, dn_conns d !! ws_client w = Some k ∧ h_heap (dn_hub d) !! ws_ch w = Some uc
  ∧ ws_out w `sublist_of` drop (ws_from w) (k_sent k)
  ∧ (∀ ms n, Forall wire_msg ms → rx (k_first k) = take n (wire ms) →
     k_sent k `prefix_of` (Marshal ∘ clean_msg <$> ms))
  ∧ (∀ data cl order, k_pc k = HBroadcast data →
     h_conns (dn_hub d) !! ws_client w = Some (cl, Serving) → order ≡ₚ elements (cl_subs cl) →
     uc_closed uc = false →
     h_heap (fst (on_client (ws_client w) id (broadcast order data) (dn_hub d))) !! ws_ch w
     = Some (if uc_waiting uc then UChan false false (ws_out w ++ [data]) else uc)).
Proof.
  intros Hr Hi. pose proof (daemon_inv_reach _ _ Hr daemon_inv_new) as [Ha Hst Hre _ _].
  destruct (st_ws d Hst i w Hi) as (uc & k & [H1 H2 H3 H4 H5]). exists k, uc. split; [done|]. split; [done|].
  split; [|split].
  - etrans; [|exact H4]. unfold heard in H3. destruct (ws_pc_of w).
    + destruct H3 as (-> & -> & _). done.
    + destruct H3 as [(-> & _)|(m & -> & _)]; [done|by apply sublist_inserts_r].
    + destruct H3 as (-> & _). by apply sublist_inserts_r.
    + destruct H3 as (_ & x & ->). by apply sublist_inserts_r.
  - intros ms n Hms Hrx. destruct (Hre _ k H2) as (_ & fuel & rest & Hlt & Heq).
    destruct (relay_wire ms n fuel (k_first k) Hms Hrx Hlt) as (n' & Heq' & _).
    rewrite Heq in Heq'. injection Heq' as He. etrans; [|exists (Marshal ∘ clean_msg <$> drop n' ms);
      rewrite <- fmap_app; by rewrite take_drop].
    rewrite <- He, <- app_assoc. by apply prefix_app_r.
  - intros data cl order Hp Hc Ho Hopen.
    destruct (broadcast_agree d _ k cl data order Ha H2 Hp Hc Ho) as (heap & -> & Hheap & _). simpl.
    destruct (agree_ws_client d i w Ha Hi) as (cl' & pc & b & Hc' & Hf & Hb).
    assert (b = false) as -> by (unfold flags in Hf; rewrite lookup_fmap, H1 in Hf; simpl in Hf; congruence).
    simplify_eq. rewrite Hheap, decide_True, H1 by auto. simpl. unfold told.
    destruct (uc_waiting uc) eqn:Hw; [|done]. rewrite Hopen. do 3 f_equal.
    unfold heard in H3. rewrite Hw in H3. destruct (ws_pc_of w).
    + by destruct H3 as (_ & _ & ?).
    + by destruct H3 as [(-> & _)|(m & _ & ?)].
    + by destruct H3 as (_ & ?).
    + destruct H3 as (? & _). congruence.
Qed.

(** A client with one message and a subscriber. *)
Definition ex_wire : list Msg := [MkMsg MsgTypeGameEnd [] [] [] 0 [] [] [] [] [] None].
Definition ex_dconn : conn := conn_on (wire ex_wire) EOF.
Definition ex_path : bytes := str "0102".

Definition ex_d1 : dstate := set_pc DLoop (set_conn 0 (MkDconn ex_dconn ex_dconn HStart true []) (set_pc DAccept new_daemon)).
Definition ex_d2 : dstate :=
  set_hub (connect 0 ex_key (dn_hub ex_d1)) (set_conn 0 (MkDconn ex_dconn ex_dconn HTest true []) ex_d1).
Definition ex_w0 : ws := MkWs 0 0 WsUpgrade false [] 0.
Definition ex_d3 : dstate := set_hub (fst (route_events ex_key (dn_hub ex_d2))) (set_ws 0 ex_w0 ex_d2).
Definition ex_d4 : dstate :=
  set_hub (wait_on 0 (dn_hub ex_d3)) (set_ws 0 (w_goto WsSelect ex_w0) ex_d3).
Definition ex_d5 : dstate := set_conn 0 (MkDconn ex_dconn ex_dconn HRecv true []) ex_d4.

Lemma ex_daemon_reach : daemon_reach new_daemon ex_d5.
Proof.
  apply (rtc_l _ _ (set_pc DAccept new_daemon)); [apply ds_run, dr_again; reflexivity|].
  apply (rtc_l _ _ ex_d1); [apply (dr_accept (set_pc DAccept new_daemon) 0 ex_dconn); reflexivity|].
  apply (rtc_l _ _ ex_d2).
  { apply (ds_serve _ 0), (hc_start 0 ex_d1 (MkDconn ex_dconn ex_dconn HStart true []) ex_key); reflexivity. }
  apply (rtc_l _ _ ex_d3).
  { apply (ws_subscribe ex_d2 0 ex_path ex_key 0 (MkDconn ex_dconn ex_dconn HTest true []) 0
      (fst (route_events ex_key (dn_hub ex_d2)))); vm_compute; reflexivity. }
  apply (rtc_l _ _ ex_d4); [apply (ws_upgraded ex_d3 0 ex_w0); vm_compute; reflexivity|].
  apply rtc_once, (ds_serve _ 0), (hc_test 0 ex_d4 (MkDconn ex_dconn ex_dconn HTest true [])); reflexivity.
Qed.

Lemma subscriber_stream_witness :
  dn_ws ex_d5 !! 0 = Some (w_goto WsSelect ex_w0)
  ∧ ∃ k uc, dn_conns ex_d5 !! 0 = Some k ∧ h_heap (dn_hub ex_d5) !! 0 = Some uc
    ∧ k_sent k `prefix_of` (Marshal ∘ clean_msg <$> ex_wire).
Proof.
  assert (dn_ws ex_d5 !! 0 = Some (w_goto WsSelect ex_w0)) as Hw by reflexivity.
  split; [exact Hw|].
  destruct (subscriber_stream ex_d5 0 _ ex_daemon_reach Hw) as (k & uc & H1 & H2 & _ & H3 & _).
  exists k, uc. split; [exact H1|]. split; [exact H2|].
  assert (k = MkDconn ex_dconn ex_dconn HRecv true []) as -> by (vm_compute in H1; by injection H1 as <-).
  apply (H3 ex_wire (length (wire ex_wire))).
  - repeat constructor; vm_compute; first [reflexivity|discriminate].
  - vm_compute. reflexivity.
Defined.

(** C34: when the daemon ends.  While a connection is being served the watchdog does
    not stop the daemon.  Once it is stopped nothing more is ever broadcast; the
    daemon's own goroutines (the one that closes the listener, and [run]) bring [run]
    to its end whatever else does not happen, with the listener closed; and the
    goroutine of every connection, left to itself, closes it.  This concerns also a
    connection that was accepted but not registered when the watchdog woke up: not
    one of its messages is ever relayed. *)
Theorem daemon_watchdog d :
  daemon_reach new_daemon d →
  (∀ c k, dn_conns d !! c = Some k → serving_pc (k_pc k) = true → dn_done d = false ∧ watch_tick d = d)
  ∧ (dn_done d = true →
     (∀ d' c, daemon_reach d d' → dn_done d' = true ∧ said d' c = said d c)
     ∧ (dn_pc d ≠ DEnded → ∃ d', rtc run_step d d' ∧ dn_pc d' = DEnded ∧ dn_listening d' = false)
     ∧ ∀ c k, dn_conns d !! c = Some k →
       (∀ id, h_clients (dn_hub d) !! id = None →
          ∃ d' k', rtc (serve_step c) d d' ∧ dn_conns d' !! c = Some k'
            ∧ k_pc k' = HEnded ∧ k_open k' = false)
       ∧ (k_pc k = HStart → ∀ d', daemon_reach d d' → said d' c = [])).
Proof.
  intros Hr. pose proof (daemon_inv_reach _ _ Hr daemon_inv_new) as Hi. split.
  - intros c k Hk Hp. split.
    + destruct (dn_done d) eqn:Hd; [|done]. pose proof (di_stopped d Hi Hd c k Hk). congruence.
    + unfold watch_tick. rewrite decide_False; [done|]. intros He.
      destruct (serving_conn d c k (di_agree d Hi) Hk) as (cl & _ & Hreg); [by destruct (k_pc k)|].
      by rewrite He, lookup_empty in Hreg.
  - intros Hd. assert (∀ d' c, daemon_reach d d' → dn_done d' = true ∧ said d' c = said d c) as Hsilent.
    { intros d' c Hr'. destruct (stopped_silent_reach d d' Hr' Hi Hd) as [H1 H2]. by split. }
    split; [done|]. split.
    { by apply run_returns. }
    intros c k Hk. split; [intros id Hid; by eapply serve_ends|].
    intros Hp d' Hr'. destruct (Hsilent d' c Hr') as [_ ->]. unfold said. rewrite Hk.
    pose proof (di_marked d Hi c k Hk) as Hm. unfold marked in Hm. by rewrite Hp in Hm.
Qed.

(** The watchdog wakes up between the acceptance of a client and its registration. *)
Lemma daemon_watchdog_witness :
  dn_done (watch_tick ex_d1) = true
  ∧ k_pc <$> dn_conns (watch_tick ex_d1) !! 0 = Some HStart
  ∧ (∀ d', daemon_reach (watch_tick ex_d1) d' → said d' 0 = [])
  ∧ (∃ d', rtc run_step (watch_tick ex_d1) d' ∧ dn_pc d' = DEnded ∧ dn_listening d' = false)
  ∧ ∃ d' k', rtc (serve_step 0) (watch_tick ex_d1) d' ∧ dn_conns d' !! 0 = Some k'
      ∧ k_pc k' = HEnded ∧ k_open k' = false.
Proof.
  split; [reflexivity|]. split; [reflexivity|].
  assert (daemon_reach new_daemon (watch_tick ex_d1)) as Hr.
  { apply (rtc_l _ _ (set_pc DAccept new_daemon)); [apply ds_run, dr_again; reflexivity|].
    apply (rtc_l _ _ ex_d1); [apply (dr_accept (set_pc DAccept new_daemon) 0 ex_dconn); reflexivity|].
    apply rtc_once, ds_run, wd_tick; reflexivity. }
  destruct (daemon_watchdog (watch_tick ex_d1) Hr) as [_ H]. destruct (H eq_refl) as (_ & H2 & H3).
  destruct (H3 0 (MkDconn ex_dconn ex_dconn HStart true []) eq_refl) as [H4 H5].
  split; [exact (H5 eq_refl)|]. split; [apply H2; discriminate|]. exact (H4 ex_key eq_refl).
Defined.
