(* ===== verification/DaemonStart.v ===== *)
(** * Starting the daemon (client/internal/daemon/api.go, daemon.go)

    [Connect] as one client sees it, and the processes that start, serve and stop
    around the lock file and the socket: clients in [ensureDaemonStarted] and
    daemons in [Run]. *)

From stdpp Require Import base gmap sets strings vector numbers tactics list relations.
From Stdlib Require Import ZArith Lia.
From S2P Require Import Prelude Words GoIO GoStr Daemon.

(** ** Connecting *)

Inductive action : Type :=
  | RemoveSocket
  | CloseLock
  | RemoveLock
  | StartProcess (path : bytes) (args : list bytes).

(** What the system answers: [lock.TryLock], [os.Executable] and the start of a
    process. *)
Record start_answers : Type := MkStart {
  st_tryLock : res bool;
  st_executable : res bytes;
  st_start : res unit;
}.

Definition act (a : action) : M (list action) unit := modify (λ l, l ++ [a]).

Definition launchDaemon (a : start_answers) : M (list action) unit :=
  execPath ← lift (st_executable a);
  act (StartProcess execPath [execPath; str "--daemon"]);;
  lift (st_start a).

Definition ensureDaemonStarted (a : start_answers) : M (list action) unit :=
  ok ← lift (st_tryLock a);
  if negb ok then mret tt else
  act RemoveSocket;;
  act CloseLock;;
  act RemoveLock;;
  launchDaemon a.

(** An event of the loop of [Connect]: the timeout, or a tick with what [os.Stat]
    and [net.Dial] answer. *)
Inductive tick_event : Type :=
  | Timeout
  | Tick (stat : bool) (dial : res conn).

(** [err] is the error of the first [net.Dial]; without a timeout among the events
    the loop still waits. *)
Fixpoint connect_loop (events : list tick_event) (err : error) : res (conn * daemon.chSend) :=
  match events with
  | [] => NoFuel
  | Timeout :: _ => Err err
  | Tick false _ :: events => connect_loop events err
  | Tick true dial :: _ => c ← dial; Ok (c, daemon.createDaemonConn)
  end.

Definition Connect (a : start_answers) (dial : res conn) (events : list tick_event) :
    M (list action) (conn * daemon.chSend) :=
  ensureDaemonStarted a;;
  match dial with
  | Ok c => mret (c, daemon.createDaemonConn)
  | Err err => lift (connect_loop events err)
  | Panic => lift Panic
  | NoFuel => lift NoFuel
  end.

(** ** The processes

    The lock file is a path that may name an inode; a lock belongs to an inode
    (flock(2)).  [sys_socket] says whether the path of the socket names a socket,
    [sys_port] which daemon listens on the port of the HTTP server. *)

Abbreviation pid := nat.
Abbreviation inode := nat.

Inductive proc : Type :=
  (* a client in ensureDaemonStarted *)
  | CTryLock
  | CRemoveSocket (i : inode)
  | CCloseLock (i : inode)
  | CRemoveLock
  | CLaunch
  | CDone
  (* a daemon in Run *)
  | DTryLock
  | DRemoveSocket (i : inode)
  | DListen (i : inode)
  | DListenHttp (i : inode)
  | DServing (i : inode)
  | DStopped (i : inode)
  | DRemoveLock
  | DDone.

Record sys : Type := MkSys {
  sys_path : option inode;
  sys_locks : gmap inode pid;
  sys_socket : bool;
  sys_port : option pid;
  sys_procs : gmap pid proc;
}.

Definition goto (p : pid) (pc : proc) (s : sys) : sys :=
  MkSys (sys_path s) (sys_locks s) (sys_socket s) (sys_port s) (<[p := pc]> (sys_procs s)).
Definition set_path o (s : sys) := MkSys o (sys_locks s) (sys_socket s) (sys_port s) (sys_procs s).
Definition set_locks l (s : sys) := MkSys (sys_path s) l (sys_socket s) (sys_port s) (sys_procs s).
Definition set_socket b (s : sys) := MkSys (sys_path s) (sys_locks s) b (sys_port s) (sys_procs s).
Definition set_port o (s : sys) := MkSys (sys_path s) (sys_locks s) (sys_socket s) o (sys_procs s).

(** [flock.TryLock]: the file is created if need be. *)
Definition lock_inode (s : sys) : inode :=
  match sys_path s with
  | Some i => i
  | None => fresh (dom (sys_locks s))
  end.

Inductive sys_step (s : sys) : sys → Prop :=
  (* a client comes *)
  | ss_client p :
      sys_procs s !! p = None → sys_step s (goto p CTryLock s)
  | ss_c_locked p :
      sys_procs s !! p = Some CTryLock → is_Some (sys_locks s !! lock_inode s) →
      sys_step s (goto p CDone s)
  | ss_c_lock p :
      sys_procs s !! p = Some CTryLock → sys_locks s !! lock_inode s = None →
      sys_step s (goto p (CRemoveSocket (lock_inode s))
        (set_path (Some (lock_inode s)) (set_locks (<[lock_inode s := p]> (sys_locks s)) s)))
  | ss_c_socket p i :
      sys_procs s !! p = Some (CRemoveSocket i) → sys_step s (goto p (CCloseLock i) (set_socket false s))
  | ss_c_close p i :
      sys_procs s !! p = Some (CCloseLock i) →
      sys_step s (goto p CRemoveLock (set_locks (delete i (sys_locks s)) s))
  | ss_c_remove p :
      sys_procs s !! p = Some CRemoveLock → sys_step s (goto p CLaunch (set_path None s))
  | ss_c_launch p q :
      sys_procs s !! p = Some CLaunch → sys_procs s !! q = None →
      sys_step s (goto q DTryLock (goto p CDone s))
  | ss_c_no_launch p :
      sys_procs s !! p = Some CLaunch → sys_step s (goto p CDone s)
  (* a daemon *)
  | ss_d_locked p :
      sys_procs s !! p = Some DTryLock → is_Some (sys_locks s !! lock_inode s) →
      sys_step s (goto p DDone s)
  | ss_d_lock p :
      sys_procs s !! p = Some DTryLock → sys_locks s !! lock_inode s = None →
      sys_step s (goto p (DRemoveSocket (lock_inode s))
        (set_path (Some (lock_inode s)) (set_locks (<[lock_inode s := p]> (sys_locks s)) s)))
  | ss_d_socket p i :
      sys_procs s !! p = Some (DRemoveSocket i) → sys_step s (goto p (DListen i) (set_socket false s))
  | ss_d_listen p i :
      sys_procs s !! p = Some (DListen i) → sys_socket s = false →
      sys_step s (goto p (DListenHttp i) (set_socket true s))
  (* a socket is there already: the process panics and its locks go *)
  | ss_d_no_listen p i :
      sys_procs s !! p = Some (DListen i) → sys_socket s = true →
      sys_step s (goto p DRemoveLock (set_locks (delete i (sys_locks s)) s))
  | ss_d_http p i :
      sys_procs s !! p = Some (DListenHttp i) → sys_port s = None →
      sys_step s (goto p (DServing i) (set_port (Some p) s))
  (* the port is taken: a panic, whose deferred calls close the socket *)
  | ss_d_no_http p i :
      sys_procs s !! p = Some (DListenHttp i) → is_Some (sys_port s) →
      sys_step s (goto p (DStopped i) (set_socket false s))
  (* the watchdog found no clients: the listeners are closed *)
  | ss_d_stop p i :
      sys_procs s !! p = Some (DServing i) →
      sys_step s (goto p (DStopped i) (set_port None (set_socket false s)))
  | ss_d_close p i :
      sys_procs s !! p = Some (DStopped i) →
      sys_step s (goto p DRemoveLock (set_locks (delete i (sys_locks s)) s))
  | ss_d_remove p :
      sys_procs s !! p = Some DRemoveLock → sys_step s (goto p DDone (set_path None s)).

Definition no_sys : sys := MkSys None ∅ false None ∅.
Definition sys_reach : sys → Prop := rtc sys_step no_sys.

(** ** Facts *)

Definition serving (s : sys) (p : pid) : Prop := ∃ i, sys_procs s !! p = Some (DServing i).

(** The daemon that serves is the one that has the port. *)
Definition port_inv (s : sys) : Prop := ∀ p, serving s p ↔ sys_port s = Some p.

Lemma serving_goto s p pc q :
  serving (goto p pc s) q ↔ if decide (q = p) then ∃ i, pc = DServing i else serving s q.
Proof.
  unfold serving; simpl. destruct (decide (q = p)) as [->|Hne].
  - setoid_rewrite lookup_insert_eq. naive_solver.
  - setoid_rewrite lookup_insert_ne; [|done]. done.
Qed.

(** A process that does not serve goes to a point where it does not serve. *)
Lemma port_inv_goto s s' p pc :
  port_inv s → ¬ serving s p → (∀ i, pc ≠ DServing i) →
  sys_procs s' = sys_procs s → sys_port s' = sys_port s → port_inv (goto p pc s').
Proof.
  intros Hi Hp Hpc Hprocs Hport q. rewrite serving_goto. simpl. rewrite Hport.
  assert (serving s' q ↔ serving s q) as Hq by (unfold serving; by rewrite Hprocs).
  destruct (decide (q = p)) as [->|Hne]; [|by rewrite Hq, (Hi q)].
  split; [intros [i ?]; by destruct (Hpc i)|]. intros ?%Hi. done.
Qed.

Lemma not_serving s p pc : sys_procs s !! p = Some pc → (∀ i, pc ≠ DServing i) → ¬ serving s p.
Proof. intros Hp Hpc [i Hi]. rewrite Hp in Hi. injection Hi as ->. by destruct (Hpc i). Qed.

Lemma port_inv_step s s' : port_inv s → sys_step s s' → port_inv s'.
Proof.
  intros Hi Hs. destruct Hs;
    try (eapply (port_inv_goto s); [done|by eapply not_serving|done|done|done]).
  - apply (port_inv_goto s); [done| |done|done|done]. intros [i Hp]. congruence.
  - apply (port_inv_goto (goto p CDone s)); [|..|done|done|done].
    + apply (port_inv_goto s); [done|by eapply not_serving|done|done|done].
    + intros [i Hq]. simpl in Hq. rewrite lookup_insert_ne in Hq; [congruence|]. intros ->. congruence.
  - intros q. rewrite serving_goto. simpl. destruct (decide (q = p)) as [->|Hne]; [naive_solver|].
    assert (serving (set_port (Some p) s) q ↔ serving s q) as -> by done.
    rewrite (Hi q). split; [congruence|]. intros [= ->]. done.
  - intros q. rewrite serving_goto. simpl. destruct (decide (q = p)) as [->|Hne]; [naive_solver|].
    assert (serving (set_port None (set_socket false s)) q ↔ serving s q) as -> by done.
    rewrite (Hi q). assert (sys_port s = Some p) as -> by (apply Hi; by eexists). naive_solver.
Qed.

Lemma port_inv_reach s : sys_reach s → port_inv s.
Proof.
  apply (rtc_ind_r (R := sys_step) port_inv); [|by intros y z _ Hs Hy; eapply port_inv_step].
  intros p. unfold serving. simpl. split; [|done]. intros [i Hp]. by rewrite lookup_empty in Hp.
Qed.

(** The inode whose lock a process has. *)
Definition locked (pc : proc) : option inode :=
  match pc with
  | CRemoveSocket i | CCloseLock i | DRemoveSocket i | DListen i | DListenHttp i | DServing i
  | DStopped i => Some i
  | _ => None
  end.

Definition lock_inv (s : sys) : Prop :=
  ∀ p pc i, sys_procs s !! p = Some pc → locked pc = Some i → sys_locks s !! i = Some p.

(** [p] goes on with the lock that it has, if any. *)
Lemma lock_inv_goto s s' p pc :
  lock_inv s → sys_procs s' = sys_procs s → sys_locks s' = sys_locks s →
  (∀ i, locked pc = Some i → sys_locks s !! i = Some p) → lock_inv (goto p pc s').
Proof.
  intros Hi Hprocs Hlocks Hpc q pc' i. simpl. rewrite Hprocs, Hlocks.
  destruct (decide (q = p)) as [->|Hne].
  - rewrite lookup_insert_eq. intros [= <-]. apply Hpc.
  - rewrite lookup_insert_ne by done. apply Hi.
Qed.

Lemma lock_inv_lock s p pc i o :
  lock_inv s → sys_locks s !! i = None → locked pc = Some i →
  lock_inv (goto p pc (set_path o (set_locks (<[i := p]> (sys_locks s)) s))).
Proof.
  intros Hi Hl Hpc q pc' j. simpl. destruct (decide (q = p)) as [->|Hne].
  - rewrite lookup_insert_eq. intros [= <-] Hj. assert (j = i) as -> by congruence.
    by rewrite lookup_insert_eq.
  - rewrite lookup_insert_ne by done. intros Hq Hj. pose proof (Hi q pc' j Hq Hj) as H.
    rewrite lookup_insert_ne; [done|]. intros ->. congruence.
Qed.

Lemma lock_inv_unlock s p pc0 pc i :
  lock_inv s → sys_procs s !! p = Some pc0 → locked pc0 = Some i → locked pc = None →
  lock_inv (goto p pc (set_locks (delete i (sys_locks s)) s)).
Proof.
  intros Hi Hp H0 Hpc q pc' j. simpl. destruct (decide (q = p)) as [->|Hne].
  - rewrite lookup_insert_eq. intros [= <-] Hj. congruence.
  - rewrite lookup_insert_ne by done. intros Hq Hj. pose proof (Hi q pc' j Hq Hj) as H.
    rewrite lookup_delete_ne; [done|]. intros ->. pose proof (Hi p pc0 j Hp H0). congruence.
Qed.

Lemma lock_inv_step s s' : lock_inv s → sys_step s s' → lock_inv s'.
Proof.
  intros Hi Hs. destruct Hs;
    first [ by eapply lock_inv_lock
          | by eapply lock_inv_unlock
          | apply (lock_inv_goto s); [done..|]; simpl; intros ? [= <-]; by eapply Hi
          | idtac ].
  apply (lock_inv_goto (goto p CDone s)); [|done|done|done].
  by apply (lock_inv_goto s).
Qed.

Lemma lock_inv_reach s : sys_reach s → lock_inv s.
Proof.
  apply (rtc_ind_r (R := sys_step) lock_inv); [|by intros y z _ Hs Hy; eapply lock_inv_step].
  intros p pc i Hp. simpl in Hp. by rewrite lookup_empty in Hp.
Qed.

(** No client waits for a daemon and no daemon starts or stops. *)
Definition at_rest (pc : proc) : bool :=
  match pc with CDone | DDone | DServing _ => true | _ => false end.
Definition settled (s : sys) : Prop := map_Forall (λ _ pc, at_rest pc) (sys_procs s).

Tactic Notation "go_step" uconstr(c) := eapply rtc_l; [eapply c; vm_compute; reflexivity|].

(** Two clients connect at the same time: the second tries the lock after the first
    has released it and removes its file after the first daemon has locked it. *)
Lemma race_reached :
  ∃ s, sys_reach s ∧ serving s 1 ∧ sys_socket s = false ∧ sys_path s = None ∧ settled s.
Proof.
  eexists. split; [unfold sys_reach|].
  - go_step (ss_client _ 0). go_step (ss_c_lock _ 0). go_step (ss_c_socket _ 0). go_step (ss_c_close _ 0).
    go_step (ss_c_remove _ 0). go_step (ss_c_launch _ 0 1).
    go_step (ss_client _ 2). go_step (ss_c_lock _ 2). go_step (ss_c_socket _ 2). go_step (ss_c_close _ 2).
    go_step (ss_d_lock _ 1). go_step (ss_d_socket _ 1). go_step (ss_d_listen _ 1). go_step (ss_d_http _ 1).
    go_step (ss_c_remove _ 2). go_step (ss_c_launch _ 2 3).
    go_step (ss_d_lock _ 3). go_step (ss_d_socket _ 3). go_step (ss_d_listen _ 3).
    eapply rtc_l; [eapply (ss_d_no_http _ 3); [vm_compute; reflexivity|eexists; vm_compute; reflexivity]|].
    go_step (ss_d_close _ 3). go_step (ss_d_remove _ 3). apply rtc_refl.
  - split; [eexists; vm_compute; reflexivity|]. split; [done|]. split; [done|]. by_compute.
Qed.

(** What a daemon that starts alone goes through: it serves, its socket is there. *)
Lemma serves_alone s p :
  sys_procs s !! p = Some DTryLock → sys_locks s !! lock_inode s = None → sys_port s = None →
  ∃ s', rtc sys_step s s' ∧ serving s' p ∧ sys_socket s' = true.
Proof.
  intros Hp Hl Hport. eexists. split.
  - eapply rtc_l; [by apply (ss_d_lock _ p)|].
    eapply rtc_l; [eapply (ss_d_socket _ p); apply lookup_insert_eq|].
    eapply rtc_l; [eapply (ss_d_listen _ p); [apply lookup_insert_eq|done]|].
    eapply rtc_l; [eapply (ss_d_http _ p); [apply lookup_insert_eq|done]|]. apply rtc_refl.
  - split; [|done]. eexists. apply lookup_insert_eq.
Qed.

(** The first tick at which the socket is there, unless the time is over before. *)
Inductive first_event : list tick_event → tick_event → Prop :=
  | fe_timeout events : first_event (Timeout :: events) Timeout
  | fe_tick dial events : first_event (Tick true dial :: events) (Tick true dial)
  | fe_later dial events e : first_event events e → first_event (Tick false dial :: events) e.

(** When another process has the lock [Connect] starts nothing, and when it gets the
    lock it removes the socket, gives the lock up, removes its file and starts the
    daemon, in this order.  It then returns what the first dial, or else the first
    tick with a socket, gives; when the time is over before it gives the error of the
    first dial. *)
Theorem connect_outcome a dial events e ok path l :
  returns dial → first_event events e → st_tryLock a = Ok ok →
  st_executable a = Ok path → st_start a = Ok tt →
  Connect a dial events l =
    (if ok then l ++ [RemoveSocket; CloseLock; RemoveLock; StartProcess path [path; str "--daemon"]] else l,
     match dial, e with
     | Err _, Tick _ dial' => c ← dial'; Ok (c, daemon.createDaemonConn)
     | Err err, Timeout => Err err
     | _, _ => c ← dial; Ok (c, daemon.createDaemonConn)
     end).
Proof.
  intros Hd He Hok Hpath Hstart.
  assert (∀ err, connect_loop events err
    = match e with Timeout => Err err | Tick _ dial' => c ← dial'; Ok (c, daemon.createDaemonConn) end) as Hloop.
  { intros err. induction He; [done..|]. apply IHHe. }
  unfold Connect, ensureDaemonStarted, launchDaemon, act, mbind, M_bind, lift, modify.
  rewrite Hok. destruct ok; simpl; [rewrite Hpath, Hstart, <- !app_assoc|];
    (destruct dial as [c|err| |]; [|rewrite Hloop|by destruct Hd..]); by destruct e.
Qed.

(** ** Properties *)

(** C36: in every execution of clients and daemons no two processes have the lock
    of the same file and at most one daemon serves, and a daemon that finds the
    lock and the port free can serve with its socket in place.  But the lock
    does not keep daemons apart: a client removes the lock file after it has released
    the lock, and two clients that start at the same time can end with a daemon that
    serves and has neither socket nor lock file, so that no client reaches it. *)
Theorem daemon_start_lock :
  (∀ s, sys_reach s →
     (∀ p q pc pc' i, sys_procs s !! p = Some pc → sys_procs s !! q = Some pc' →
        locked pc = Some i → locked pc' = Some i → p = q)
     ∧ (∀ p q, serving s p → serving s q → p = q)
     ∧ ∀ p, sys_procs s !! p = Some DTryLock → sys_locks s !! lock_inode s = None →
         sys_port s = None → ∃ s', rtc sys_step s s' ∧ serving s' p ∧ sys_socket s' = true)
  ∧ ∃ s p, sys_reach s ∧ serving s p ∧ settled s ∧ sys_socket s = false ∧ sys_path s = None.
Proof.
  split.
  - intros s Hs. pose proof (lock_inv_reach s Hs) as Hl. pose proof (port_inv_reach s Hs) as Hp.
    split_and!; [|intros p q ?%Hp ?%Hp; congruence|apply serves_alone].
    intros p q pc pc' i H1 H2 H3 H4. pose proof (Hl p pc i H1 H3). pose proof (Hl q pc' i H2 H4).
    congruence.
  - destruct race_reached as (s & ? & ? & ? & ? & ?). by exists s, 1.
Qed.
