(* ===== verification/ClientSession.v ===== *)
(** * The client session (client/internal/game/session.go)

    The session between one game and the server: its start, the handlers of what
    the game and the server send, and the queue and log they work on.  The data
    model of info.go is here too. *)

From stdpp Require Import base gmap sets strings vector numbers tactics list.
From Stdlib Require Import ZArith Lia.
From S2P Require Import Prelude Words GoIO GoStr WalEntry Packet Wal IpcMsg SendQueue.
From S2P Require Import ClientPorts PositionSystem Daemon.

(** ** State *)

Inductive InfoMode : Type := InfoModeSingle | InfoModeCoop | InfoModeMulti.

#[export] Instance InfoMode_eq_dec : EqDecision InfoMode.
Proof. solve_decision. Defined.

(** What info.go extracts from the patch file. *)
Record Info : Type := MkInfo {
  i_SessionID : vec u8 16;
  i_SessionSecret : vec u8 8;
  i_WorldID : u8;
  i_Mode : InfoMode;
  i_Items : gmap u16 bytes;
  i_Locations : gmap u32 bytes;
  i_Entrances : gmap u32 bytes;
}.

(** [m[k]] on a map of strings. *)
Definition map_get {K} `{Countable K} (m : gmap K bytes) (k : K) : bytes := default [] (m !! k).

(** [s_ports] holds [ctx], [msgOut] and [uplinkOut]; [s_sendQ] is [None] for the
    nil pointer. *)
Record Session : Type := MkSession {
  s_Info : Info;
  s_PlayerID : vec u8 16;
  s_PlayerName : vec u8 8;
  s_SeqGame : u32;
  s_SeqNet : u32;
  s_dataDir : bytes;
  s_Conn : conn;
  s_Daemon : daemon.chSend;
  s_msgIn : chan ipc.Message;
  s_uplinkIn : chan Packet;
  s_ports : Ports;
  s_sendQ : option SendQueue;
  s_wal : WAL;
  s_positions : PositionSystem;
}.

Definition set_s_SeqGame n s := MkSession (s_Info s) (s_PlayerID s) (s_PlayerName s) n (s_SeqNet s)
  (s_dataDir s) (s_Conn s) (s_Daemon s) (s_msgIn s) (s_uplinkIn s) (s_ports s) (s_sendQ s) (s_wal s)
  (s_positions s).
Definition set_s_SeqNet n s := MkSession (s_Info s) (s_PlayerID s) (s_PlayerName s) (s_SeqGame s) n
  (s_dataDir s) (s_Conn s) (s_Daemon s) (s_msgIn s) (s_uplinkIn s) (s_ports s) (s_sendQ s) (s_wal s)
  (s_positions s).
Definition set_s_Conn c s := MkSession (s_Info s) (s_PlayerID s) (s_PlayerName s) (s_SeqGame s)
  (s_SeqNet s) (s_dataDir s) c (s_Daemon s) (s_msgIn s) (s_uplinkIn s) (s_ports s) (s_sendQ s)
  (s_wal s) (s_positions s).
Definition set_s_Daemon d s := MkSession (s_Info s) (s_PlayerID s) (s_PlayerName s) (s_SeqGame s)
  (s_SeqNet s) (s_dataDir s) (s_Conn s) d (s_msgIn s) (s_uplinkIn s) (s_ports s) (s_sendQ s)
  (s_wal s) (s_positions s).
Definition set_s_uplinkIn c s := MkSession (s_Info s) (s_PlayerID s) (s_PlayerName s) (s_SeqGame s)
  (s_SeqNet s) (s_dataDir s) (s_Conn s) (s_Daemon s) (s_msgIn s) c (s_ports s) (s_sendQ s)
  (s_wal s) (s_positions s).
Definition set_s_ports p s := MkSession (s_Info s) (s_PlayerID s) (s_PlayerName s) (s_SeqGame s)
  (s_SeqNet s) (s_dataDir s) (s_Conn s) (s_Daemon s) (s_msgIn s) (s_uplinkIn s) p (s_sendQ s)
  (s_wal s) (s_positions s).
Definition set_s_sendQ q s := MkSession (s_Info s) (s_PlayerID s) (s_PlayerName s) (s_SeqGame s)
  (s_SeqNet s) (s_dataDir s) (s_Conn s) (s_Daemon s) (s_msgIn s) (s_uplinkIn s) (s_ports s) q
  (s_wal s) (s_positions s).
Definition set_s_wal w s := MkSession (s_Info s) (s_PlayerID s) (s_PlayerName s) (s_SeqGame s)
  (s_SeqNet s) (s_dataDir s) (s_Conn s) (s_Daemon s) (s_msgIn s) (s_uplinkIn s) (s_ports s) (s_sendQ s)
  w (s_positions s).
Definition set_s_positions p s := MkSession (s_Info s) (s_PlayerID s) (s_PlayerName s) (s_SeqGame s)
  (s_SeqNet s) (s_dataDir s) (s_Conn s) (s_Daemon s) (s_msgIn s) (s_uplinkIn s) (s_ports s) (s_sendQ s)
  (s_wal s) p.

Definition on_Conn {A} (m : M conn A) : M Session A := zoom s_Conn set_s_Conn m.
Definition on_Daemon {A} (m : M daemon.chSend A) : M Session A := zoom s_Daemon set_s_Daemon m.
Definition on_ports {A} (m : M Ports A) : M Session A := zoom s_ports set_s_ports m.
Definition on_wal {A} (m : M WAL A) : M Session A := zoom s_wal set_s_wal m.
Definition on_positions {A} (m : M (PositionSystem * Ports) A) : M Session A :=
  zoom (λ s, (s_positions s, s_ports s)) (λ ps s, set_s_positions (fst ps) (set_s_ports (snd ps) s)) m.

(** A method call on [s.sendQ]: on the nil pointer it panics. *)
Definition on_sendQ {A} (m : M SendQueue A) : M Session A := λ s,
  match s_sendQ s with
  | Some q => let '(q', r) := m q in (set_s_sendQ (Some q') s, r)
  | None => (s, Panic)
  end.

(** ** What the server sends *)

Definition handleUplinkPacket (pkt : Packet) : M Session unit :=
  if decide (p_Op pkt = OpNOP) then mret tt
  else if decide (p_Op pkt = OpWal) then
    body ← lift (wrap_err "failed to parse server WAL packet" (ParseServerWal (p_Data pkt)));
    wrapM "failed to append WAL entry" (on_wal (Append (sw_Entry body)));;
    dedupKey ← lift (wrap_err "failed to compute deduplication key" (DedupKey (sw_Entry body)));
    on_sendQ (Ack dedupKey)
  else if decide (p_Op pkt = OpWalAck) then
    if decide (length (p_Data pkt) ≠ 16) then fail (Errorf "invalid WAL ACK packet length") else
    on_sendQ (Ack (arr_of 16 (p_Data pkt)))
  else if decide (p_Op pkt = OpPosition) then
    posMsg ← lift (wrap_err "failed to parse server position packet" (ParseServerPosition (p_Data pkt)));
    on_positions (OnServerPos posMsg)
  else mret tt.

(** ** What the game sends *)

(** The error of [p.sendQ.Add] is dropped. *)
Definition newWalEntry (entry : WalEntry) : M Session unit :=
  data ← lift (Serialize entry);
  dedupKey ← lift (DedupKey entry);
  ignore (on_sendQ (Add dedupKey data));;
  on_ports (TrySendUplink (MkPacket OpWal data)).

(** [nonce] is what [rand.Read] fills the nonce with. *)
Definition wal_item_entry (s : Session) (item : ipc.WalItem) (nonce : vec u8 4) : res WalEntry :=
  n ← (if decide (Z.land (uval (ipc.it_Flags item)) 1 ≠ 0%Z)
       then le_Uint32 (vec_to_list nonce) else Ok (U32 0));
  Ok (MkEntry WalItem (s_PlayerID s) (s_PlayerName s) (i_WorldID (s_Info s))
        (MkItem (ipc.it_To item) (ipc.it_Game item) (ipc.it_GI item) (ipc.it_Flags item)
           (ipc.it_Key item) n) zero_event).

Definition wal_event_entry (s : Session) (event : ipc.WalEvent) : WalEntry :=
  MkEntry WalEvent (s_PlayerID s) (s_PlayerName s) (i_WorldID (s_Info s)) zero_item
    (MkEvent (ipc.ev_EventID event)).

(** The entry [handleWalIn] builds. *)
Definition wal_in_entry (w : ipc.MessageBodyWalIn) (nonce : vec u8 4) (s : Session) : res WalEntry :=
  if decide (ipc.wi_Type w = WalItem) then
    item ← ipc.ParseWalItem (ipc.wi_Data w);
    wal_item_entry s item nonce
  else if decide (ipc.wi_Type w = WalEvent) then
    event ← ipc.ParseWalEvent (ipc.wi_Data w);
    Ok (wal_event_entry s event)
  else Err (Errorf "unhandled WAL type").

Definition handleWalIn (nonce : vec u8 4) (w : ipc.MessageBodyWalIn) : M Session unit :=
  r ← gets (wal_in_entry w nonce);
  entry ← lift r;
  wrapM "failed to create new WAL entry" (newWalEntry entry);;
  payload ← lift (be_put32 (zeros 4) 0 4 (ipc.wi_Token w));
  on_ports (Send (ipc.MkMessage (U32 0) ipc.OpWalAck payload)).

(** The message for one entry of the log; the [switch] leaves [data] nil on an
    unknown type. *)
Definition wal_out_data (entry : WalEntry) : res bytes :=
  if decide (e_Type entry = WalItem) then
    ipc.WalItem_Serialize (ipc.MkWalItem (i_To (e_Item entry)) (i_Game (e_Item entry))
      (i_GI (e_Item entry)) (i_Flags (e_Item entry)) (i_Key (e_Item entry)))
  else if decide (e_Type entry = WalEvent) then
    ipc.WalEvent_Serialize (ipc.MkWalEvent (ev_ID (e_Event entry)))
  else Ok [].

Definition blank_name : vec u8 8 := arr_of 8 [].

Definition wal_out_msg (self : vec u8 16) (i : u32) (entry : WalEntry) : res ipc.Message :=
  let playerName := if decide (e_PlayerID entry ≠ self) then e_PlayerName entry else blank_name in
  data ← wal_out_data entry;
  payload ← ipc.WalOut_Serialize (ipc.MkWalOut i (e_Type entry) (e_From entry) playerName data);
  Ok (ipc.MkMessage (U32 0) ipc.OpWal payload).

(** The iterations [i], [i + 1], ... of the loop, [n] of them left. *)
Fixpoint sendGameWal_loop (n : nat) (i index : u32) : M Session unit :=
  match n with
  | 0 => mret tt
  | S n =>
      s ← gets (λ s, s);
      entry ← lift (Get (s_wal s) (uadd index i));
      match entry with
      | None => mret tt
      | Some entry =>
          msg ← lift (wal_out_msg (s_PlayerID s) (uadd index i) entry);
          on_ports (Send msg);;
          sendGameWal_loop n (uincr i) index
      end
  end.

Definition sendGameWal (index : u32) : M Session unit := sendGameWal_loop 16 (U32 0) index.

Definition entranceName (info : Info) (id : u32) : bytes :=
  if decide (id = U32 4294967295) then [] else
  let e := map_get (i_Entrances info) id in
  if decide (e = []) then str "UNKNOWN" else e.

Definition ageName (age : u8) : bytes :=
  if decide (age = U8 0) then str "ADULT"
  else if decide (age = U8 1) then str "CHILD"
  else str "UNKNOWN".

Definition info_item_msg (info : Info) (m : ipc.MessageBodyInfoItem) : daemon.Msg :=
  daemon.MkMsg daemon.MsgTypeInfoItem [] [] [] 0
    (map_get (i_Items info) (ipc.ii_GI m)) (map_get (i_Locations info) (ipc.ii_Key m)) [] [] []
    (Some (bool_decide (Z.land (uval (ipc.ii_Flags m)) 1 ≠ 0%Z))).

Definition info_entrance_msg (info : Info) (m : ipc.MessageBodyInfoEntrance) : daemon.Msg :=
  daemon.MkMsg daemon.MsgTypeInfoEntrance [] [] [] 0 [] []
    (entranceName info (ipc.ie_Original m)) (entranceName info (ipc.ie_Entrance m))
    (ageName (ipc.ie_Age m)) None.

(** The expected sequence number, and its update. *)
Definition expectedSeq (msg : ipc.Message) : M Session u32 := λ s,
  if decide (ipc.m_Op msg = ipc.OpHello) then (s, Ok (U32 0))
  else (set_s_SeqGame (uincr (s_SeqGame s)) s, Ok (s_SeqGame s)).

(** The [switch] of [handleMsg]. *)
Definition dispatch (nonce : vec u8 4) (msg : ipc.Message) : M Session unit :=
  info ← gets s_Info;
  if decide (ipc.m_Op msg = ipc.OpHello) then fail (Errorf "unexpected HELLO message from game")
  else if decide (ipc.m_Op msg = ipc.OpWal) then
    walMsg ← lift (ipc.ParseMessageBodyWalIn (ipc.m_Payload msg));
    if decide (i_Mode info ≠ InfoModeSingle) then handleWalIn nonce walMsg else mret tt
  else if decide (ipc.m_Op msg = ipc.OpWalQuery) then
    if decide (length (ipc.m_Payload msg) < 4) then fail (Errorf "WAL_QUERY message too short") else
    index ← lift (be_get32 (ipc.m_Payload msg) 0 4);
    sendGameWal index
  else if decide (ipc.m_Op msg = ipc.OpPosition) then
    posMsg ← lift (ipc.ParseMessageBodyPositionIn (ipc.m_Payload msg));
    if decide (i_Mode info ≠ InfoModeSingle) then on_positions (OnGamePos posMsg) else mret tt
  else if decide (ipc.m_Op msg = ipc.OpInfoItem) then
    m ← lift (ipc.ParseMessageBodyInfoItem (ipc.m_Payload msg));
    on_Daemon (daemon.Send (info_item_msg info m))
  else if decide (ipc.m_Op msg = ipc.OpInfoEntrance) then
    m ← lift (ipc.ParseMessageBodyInfoEntrance (ipc.m_Payload msg));
    on_Daemon (daemon.Send (info_entrance_msg info m))
  else mret tt.

Definition handleMsg (nonce : vec u8 4) (msg : ipc.Message) : M Session unit :=
  seq ← expectedSeq msg;
  if decide (ipc.m_Seq msg ≠ seq) then fail (Errorf "unexpected sequence number") else
  dispatch nonce msg.

(** ** Loops *)

(** [handleMsgOut] for one message of [msgOut]. *)
Definition msg_out (msg : ipc.Message) : M Session unit :=
  seq ← gets s_SeqNet;
  modify (set_s_SeqNet (uincr seq));;
  data ← lift (ipc.Message_Serialize (ipc.MkMessage seq (ipc.m_Op msg) (ipc.m_Payload msg)));
  on_Conn (ipc.Write data).

Fixpoint msgs_out (msgs : list ipc.Message) : M Session unit :=
  match msgs with
  | [] => mret tt
  | msg :: msgs => msg_out msg;; msgs_out msgs
  end.

(** [handleMsgLoop] on the messages of [msgIn], each with its nonce. *)
Fixpoint msg_loop (msgs : list (vec u8 4 * ipc.Message)) : M Session unit :=
  match msgs with
  | [] => mret tt
  | (nonce, msg) :: msgs => handleMsg nonce msg;; msg_loop msgs
  end.

(** One round of [handleSendQueue]: [pending] is what [Pending] returned. *)
Fixpoint send_pending (pending : list bytes) : M Session unit :=
  match pending with
  | [] => mret tt
  | data :: pending =>
      _ ← lift (Parse data);
      on_ports (SendUplink (MkPacket OpWal data));;
      send_pending pending
  end.

Definition send_queue_round : M Session unit := λ s,
  match s_sendQ s with
  | Some q => send_pending (Pending q) s
  | None => (s, Panic)
  end.

(** ** Starting and ending *)

(** [mkdir] is what [os.MkdirAll] answers. *)
Definition makeDataDir (prefix : bytes) (id : vec u8 16) (mkdir : option error) : res bytes :=
  let dataDir := session_dir prefix id in
  match mkdir with
  | Some err => Err err
  | None => Ok dataDir
  end.

Definition hello_magic : vec u8 8 :=
  arr_of 8 [U8 79; U8 111; U8 84; U8 77; U8 77; U8 127; U8 1; U8 0].

Definition Run_checks (info : Info) (hello : ipc.MessageBodyHelloIn) : res unit :=
  if decide (ipc.hi_SessionID hello ≠ i_SessionID info
             ∨ ipc.hi_SessionSecret hello ≠ i_SessionSecret info)
  then Err (Errorf "Session mismatch between game and patchfile")
  else if decide (ipc.hi_WorldID hello ≠ i_WorldID info)
  then Err (Errorf "World ID mismatch between game and patchfile")
  else Ok tt.

(** The queue of a session that is not a single player's. *)
Definition Run_queue (info : Info) (dataDir : bytes) (opened : bytes → res file) :
    res (option SendQueue) :=
  if decide (i_Mode info ≠ InfoModeSingle)
  then q ← snd (OpenSendQueue (opened (dataDir ++ str "/send_queue.dat"))); Ok (Some q)
  else Ok None.

(** The HELLO OUT message. *)
Definition Run_hello (seqGame seqNet : u32) : M conn unit :=
  body ← lift (ipc.HelloOut_Serialize (ipc.MkHelloOut hello_magic seqGame seqNet));
  data ← lift (ipc.Message_Serialize (ipc.MkMessage (U32 0) ipc.OpHello body));
  ipc.Write data.

(** [Run] up to the start of its goroutines.  [opened] is what [os.OpenFile]
    answers, [randBytes] what [rand.Read] fills in, [conn] the game's connection;
    [done] and [picks] belong to the context.  An error is a [return]. *)
Definition Run_start (DataDir : bytes) (info : Info) (hello : ipc.MessageBodyHelloIn)
    (mkdir : option error) (opened : bytes → res file) (randBytes : vec u8 8)
    (done : bool) (picks : list bool) (Conn : conn) (aDaemon : daemon.chSend) : res Session :=
  _ ← Run_checks info hello;
  dataDir ← makeDataDir DataDir (ipc.hi_SessionID hello) mkdir;
  sendQ ← Run_queue info dataDir opened;
  wal ← snd (OpenWAL (opened (dataDir ++ str "/wal.bin")));
  seqGame ← le_get32 (vec_to_list randBytes) 0 4;
  seqNet ← le_get32 (vec_to_list randBytes) 4 8;
  let Conn' := fst (ignore (Run_hello seqGame seqNet) Conn) in
  Ok (MkSession info (ipc.hi_PlayerID hello) (ipc.hi_PlayerName hello) seqGame seqNet dataDir
        Conn' aDaemon (make_chan _ 16) (make_chan _ 16)
        (MkPorts done picks (make_port _ 16) (make_port _ 16)) sendQ wal createPositionSystem).

Definition game_start_msg (s : Session) : daemon.Msg :=
  daemon.MkMsg daemon.MsgTypeGameStart
    (hex_EncodeToString (vec_to_list (i_SessionID (s_Info s))))
    (hex_EncodeToString (vec_to_list (s_PlayerID s))) (name_string (s_PlayerName s))
    (uval (i_WorldID (s_Info s))) [] [] [] [] [] None.

Definition game_end_msg : daemon.Msg :=
  daemon.MkMsg daemon.MsgTypeGameEnd [] [] [] 0 [] [] [] [] [] None.

Definition Run_begin : M Session unit := λ s, on_Daemon (daemon.Send (game_start_msg s)) s.

(** The end of [Run] and its deferred calls; [single] sessions have no queue to
    close. *)
Definition Run_end : M Session unit :=
  on_Daemon (daemon.Send game_end_msg);;
  ignore (on_wal Wal.Close);;
  s ← gets (λ s, s);
  match s_sendQ s with
  | Some _ => on_sendQ sq_Close
  | None => mret tt
  end.

(** ** Well-formed sessions *)

Record session_wf (s : Session) : Prop := {
  sw_queue : i_Mode (s_Info s) ≠ InfoModeSingle → is_Some (s_sendQ s);
  sw_mem : mem_wf (s_wal s);
}.

(** A computation that keeps [session_wf] and returns from such a state. *)
Definition safe {A} (m : M Session A) : Prop := ∀ s,
  session_wf s → let '(s', r) := m s in
    returns r ∧ session_wf s' ∧ s_Info s' = s_Info s.

Lemma safe_total {A} (m : M Session A) :
  total m → (∀ s, session_wf s → session_wf (fst (m s)) ∧ s_Info (fst (m s)) = s_Info s) → safe m.
Proof. intros Ht Hw s Hs. specialize (Ht s). destruct (Hw s Hs). by destruct (m s). Qed.

Lemma safe_bind {A B} (m : M Session A) (k : A → M Session B) :
  safe m → (∀ a, safe (k a)) → safe (m ≫= k).
Proof.
  intros Hm Hk s Hs. unfold mbind, M_bind. specialize (Hm s Hs).
  destruct (m s) as [s' [a|e| |]]; destruct Hm as ([Hp Hf] & Hs' & Hi); [|done..].
  specialize (Hk a s' Hs'). destruct (k a s') as [s'' r]. destruct Hk as (?&?&->). done.
Qed.

Lemma safe_id {A} (m : M Session A) : total m → (∀ s, fst (m s) = s) → safe m.
Proof. intros Ht Hw. apply safe_total; [done|]. intros s Hs. by rewrite Hw. Qed.

Lemma safe_lift {A} (r : res A) : returns r → safe (lift r).
Proof. intros. apply safe_id; [by apply total_lift|done]. Qed.

Lemma safe_wrapM {A} msg (m : M Session A) : safe m → safe (wrapM msg m).
Proof.
  intros Hm s Hs. specialize (Hm s Hs). unfold wrapM, on_err.
  destruct (m s) as [s' [a|e| |]]; [done| |done..]. by destruct Hm as (_ & ? & ?).
Qed.

Lemma safe_on_ports {A} (m : M Ports A) : total m → safe (on_ports m).
Proof.
  intros Hm. apply safe_total; [by apply total_zoom|]. intros s [Hq Hw].
  unfold on_ports, zoom. destruct (m (s_ports s)). by split; [split|].
Qed.

Lemma safe_on_Daemon {A} (m : M daemon.chSend A) : total m → safe (on_Daemon m).
Proof.
  intros Hm. apply safe_total; [by apply total_zoom|]. intros s [Hq Hw].
  unfold on_Daemon, zoom. destruct (m (s_Daemon s)). by split; [split|].
Qed.

Lemma safe_on_positions {A} (m : M (PositionSystem * Ports) A) : total m → safe (on_positions m).
Proof.
  intros Hm. apply safe_total; [by apply total_zoom|]. intros s [Hq Hw].
  unfold on_positions, zoom. destruct (m _). by split; [split|].
Qed.

Lemma safe_Append e : safe (on_wal (Append e)).
Proof.
  apply safe_total; [apply total_zoom; intros w; apply Append_returns|].
  intros s [Hq Hw]. unfold on_wal, zoom. pose proof (mem_wf_Append e _ Hw).
  destruct (Append e (s_wal s)). by split; [split|].
Qed.

(** A method of the queue in a session that has one. *)
Lemma on_sendQ_some {A} (m : M SendQueue A) s q :
  s_sendQ s = Some q →
  on_sendQ m s = (set_s_sendQ (Some (fst (m q))) s, snd (m q)).
Proof. intros Hq. unfold on_sendQ. rewrite Hq. by destruct (m q). Qed.

Lemma ports_total :
  (∀ m, total (Send m)) ∧ (∀ m, total (TrySend m)) ∧ (∀ p, total (TrySendUplink p)).
Proof.
  split_and!; intros x p.
  - destruct (Send_cases x p) as (? & -> & _). done.
  - destruct (TrySend_cases x p) as (? & -> & _). done.
  - destruct (TrySendUplink_cases x p) as (? & -> & _). done.
Qed.

Lemma OnServerPos_total pkt : total (OnServerPos pkt).
Proof. intros s. destruct (OnServerPos_spec pkt s) as (? & ? & _ & -> & _). done. Qed.

(** ** No handler panics *)

Lemma safe_on_sendQ {A} (m : M SendQueue A) s :
  total m → session_wf s → i_Mode (s_Info s) ≠ InfoModeSingle →
  returns (snd (on_sendQ m s)) ∧ session_wf (fst (on_sendQ m s))
  ∧ s_Info (fst (on_sendQ m s)) = s_Info s.
Proof.
  intros Hm [Hq Hw] Hmode. destruct (Hq Hmode) as [q Hs]. rewrite (on_sendQ_some m s q Hs).
  split; [apply Hm|]. by split; [split|].
Qed.

(** The same for handlers that only run in sessions with a server. *)
Definition safe_multi {A} (m : M Session A) : Prop := ∀ s,
  session_wf s → i_Mode (s_Info s) ≠ InfoModeSingle →
  returns (snd (m s)) ∧ session_wf (fst (m s)) ∧ s_Info (fst (m s)) = s_Info s.

Lemma safe_multi_safe {A} (m : M Session A) : safe m → safe_multi m.
Proof. intros Hm s Hs _. specialize (Hm s Hs). by destruct (m s). Qed.

Lemma safe_multi_bind {A B} (m : M Session A) (k : A → M Session B) :
  safe_multi m → (∀ a, safe_multi (k a)) → safe_multi (m ≫= k).
Proof.
  intros Hm Hk s Hs Hmode. unfold mbind, M_bind. specialize (Hm s Hs Hmode).
  destruct (m s) as [s' [a|e| |]]; destruct Hm as ([Hp Hf] & Hs' & Hi); simpl in *; [|done..].
  specialize (Hk a s' Hs'). rewrite Hi in Hk. by apply Hk.
Qed.

Lemma safe_multi_wrapM {A} msg (m : M Session A) : safe_multi m → safe_multi (wrapM msg m).
Proof.
  intros Hm s Hs Hmode. destruct (Hm s Hs Hmode) as ([Hp Hf] & ? & ?). unfold wrapM, on_err.
  by destruct (m s) as [s' [a|e| |]].
Qed.

Lemma safe_multi_ignore {A} (m : M Session A) : safe_multi m → safe_multi (ignore m).
Proof.
  intros Hm s Hs Hmode. destruct (Hm s Hs Hmode) as ([Hp Hf] & ? & ?). unfold ignore.
  by destruct (m s) as [s' [a|e| |]].
Qed.

Lemma safe_multi_sendQ {A} (m : M SendQueue A) : total m → safe_multi (on_sendQ m).
Proof. intros Hm s Hs Hmode. by apply safe_on_sendQ. Qed.

#[local] Hint Resolve safe_on_ports safe_on_Daemon safe_on_positions safe_Append : go.
#[local] Hint Resolve Serialize_returns DedupKey_returns Ack_total Add_total OnServerPos_total : go.

Lemma safe_ret {A} (a : A) : safe (mret a).
Proof. apply safe_id; [apply total_ret|done]. Qed.

Lemma safe_fail {A} e : safe (fail e : M Session A).
Proof. apply safe_id; [apply total_fail|done]. Qed.

Lemma safe_gets {A} (f : Session → A) : safe (gets f).
Proof. apply safe_id; [apply total_gets|done]. Qed.

Lemma handleUplinkPacket_safe pkt : safe_multi (handleUplinkPacket pkt).
Proof.
  destruct ports_total as (HS & HT & HU). unfold handleUplinkPacket.
  case_decide; [apply safe_multi_safe, safe_ret|]. case_decide.
  { apply safe_multi_bind; [apply safe_multi_safe, safe_lift, wrap_err_returns, ParseServerWal_returns|].
    intros body. apply safe_multi_bind; [apply safe_multi_safe, safe_wrapM, safe_Append|].
    intros _. apply safe_multi_bind; [apply safe_multi_safe, safe_lift, wrap_err_returns, DedupKey_returns|].
    intros k. apply safe_multi_sendQ, Ack_total. }
  case_decide.
  { case_decide; [apply safe_multi_safe, safe_fail|apply safe_multi_sendQ, Ack_total]. }
  case_decide; [|apply safe_multi_safe, safe_ret].
  apply safe_multi_bind; [apply safe_multi_safe, safe_lift, wrap_err_returns, ParseServerPosition_returns|].
  intros p. apply safe_multi_safe, safe_on_positions, OnServerPos_total.
Qed.

Lemma newWalEntry_safe e : safe_multi (newWalEntry e).
Proof.
  destruct ports_total as (HS & HT & HU). unfold newWalEntry.
  apply safe_multi_bind; [apply safe_multi_safe, safe_lift, Serialize_returns|]. intros data.
  apply safe_multi_bind; [apply safe_multi_safe, safe_lift, DedupKey_returns|]. intros key.
  apply safe_multi_bind; [apply safe_multi_ignore, safe_multi_sendQ, Add_total|]. intros _.
  apply safe_multi_safe, safe_on_ports, HU.
Qed.

Lemma wal_in_entry_returns w nonce s : returns (wal_in_entry w nonce s).
Proof.
  unfold wal_in_entry. case_decide; [|case_decide; [|done]]; apply res_bind_returns.
  - by eapply ipc.reads_exactly_returns, ipc.ParseWalItem_exact.
  - intros item _. unfold wal_item_entry. apply res_bind_returns; [|done]. case_decide; [|done].
    unfold le_Uint32. by rewrite fixed_ok by apply length_vec_to_list.
  - by eapply ipc.reads_exactly_returns, ipc.ParseWalEvent_exact.
  - done.
Qed.

(** The acknowledgement of a token. *)
Definition ack_payload (token : u32) : bytes := be_bytes 4 (uval token).

Lemma ack_payload_eq token : be_put32 (zeros 4) 0 4 token = Ok (ack_payload token).
Proof. apply be_put32_whole. Qed.

Lemma handleWalIn_safe nonce w : safe_multi (handleWalIn nonce w).
Proof.
  destruct ports_total as (HS & HT & HU). intros s Hs Hmode.
  unfold handleWalIn, mbind at 1, M_bind at 1, gets.
  pose proof (wal_in_entry_returns w nonce s) as Hr.
  assert (safe_multi (entry ← lift (wal_in_entry w nonce s);
    wrapM "failed to create new WAL entry" (newWalEntry entry);;
    payload ← lift (be_put32 (zeros 4) 0 4 (ipc.wi_Token w));
    on_ports (Send (ipc.MkMessage (U32 0) ipc.OpWalAck payload)))) as Hsafe; [|by apply Hsafe].
  apply safe_multi_bind; [by apply safe_multi_safe, safe_lift|]. intros entry.
  apply safe_multi_bind; [apply safe_multi_wrapM, newWalEntry_safe|]. intros _.
  rewrite ack_payload_eq. apply safe_multi_safe, safe_on_ports, HS.
Qed.

(** The message that carries entry [e] at index [i] to the game of player [self]. *)
Definition wal_out_of (self : vec u8 16) (i : u32) (e : WalEntry) : ipc.Message :=
  ipc.MkMessage (U32 0) ipc.OpWal (ipc.wal_out_layout
    (ipc.MkWalOut i (e_Type e) (e_From e)
       (if decide (e_PlayerID e = self) then blank_name else e_PlayerName e)
       (if decide (e_Type e = WalItem)
        then ipc.wal_item_layout (ipc.MkWalItem (i_To (e_Item e)) (i_Game (e_Item e)) (i_GI (e_Item e))
               (i_Flags (e_Item e)) (i_Key (e_Item e)))
        else if decide (e_Type e = WalEvent)
        then ipc.wal_event_layout (ipc.MkWalEvent (ev_ID (e_Event e)))
        else []))).

Lemma wal_out_msg_Ok self i e : wal_out_msg self i e = Ok (wal_out_of self i e).
Proof.
  unfold wal_out_msg, wal_out_data, wal_out_of.
  destruct (decide (e_Type e = WalItem)); [rewrite ipc.WalItem_Serialize_layout|
    destruct (decide (e_Type e = WalEvent)); [rewrite ipc.WalEvent_Serialize_layout|]];
    rewrite res_bind_ok, ipc.WalOut_Serialize_layout, res_bind_ok;
    by destruct (decide (e_PlayerID e = self)); rewrite ?decide_True, ?decide_False by auto.
Qed.

Lemma sendGameWal_loop_safe n i index : safe (sendGameWal_loop n i index).
Proof.
  destruct ports_total as (HS & HT & HU). revert i.
  induction n as [|n IH]; intros i; [apply safe_ret|]. intros s Hs. cbn [sendGameWal_loop].
  unfold mbind at 1, M_bind at 1, gets.
  destruct (Get_total (s_wal s) (uadd index i)) as [o ->]; [apply Hs|].
  unfold mbind at 1, M_bind at 1, lift at 1. destruct o as [e|]; [|by split_and!].
  rewrite wal_out_msg_Ok. unfold mbind at 1, M_bind at 1, lift.
  set (m := wal_out_of _ _ _).
  assert (safe (on_ports (Send m);; sendGameWal_loop n (uincr i) index)) as Hk; [|by apply Hk].
  apply safe_bind; [by apply safe_on_ports|]. by intros _.
Qed.

Lemma daemon_Send_total m : total (daemon.Send m).
Proof. apply total_modify. Qed.

(** The one message whose parser panics. *)
Definition six_byte_info (msg : ipc.Message) : Prop :=
  ipc.m_Op msg = ipc.OpInfoItem ∧ length (ipc.m_Payload msg) = 6.

#[export] Instance six_byte_info_dec msg : Decision (six_byte_info msg).
Proof. unfold six_byte_info. apply _. Defined.

Lemma OpInfoItem_other :
  ipc.OpInfoItem ≠ ipc.OpHello ∧ ipc.OpInfoItem ≠ ipc.OpWal ∧ ipc.OpInfoItem ≠ ipc.OpWalQuery
  ∧ ipc.OpInfoItem ≠ ipc.OpPosition.
Proof. split_and!; apply (bool_decide_unpack _); vm_compute; exact I. Qed.

Lemma dispatch_six nonce msg s :
  six_byte_info msg → dispatch nonce msg s = (s, Panic).
Proof.
  intros [Hop Hlen]. destruct OpInfoItem_other as (H1 & H2 & H3 & H4).
  unfold dispatch, mbind at 1, M_bind at 1, gets. rewrite Hop.
  rewrite !decide_False by done. rewrite decide_True by done.
  unfold mbind, M_bind, lift. by rewrite ipc.ParseMessageBodyInfoItem_six.
Qed.

Lemma ParseMessageBodyInfoItem_returns d :
  length d ≠ 6 → returns (ipc.ParseMessageBodyInfoItem d).
Proof.
  intros Hd. destruct (decide (length d < 6)) as [Hl|Hl].
  - by destruct (ipc.ParseMessageBodyInfoItem_short d Hl) as [e ->].
  - destruct (ipc.ParseMessageBodyInfoItem_long d) as (a & -> & _); [lia|done].
Qed.

Lemma dispatch_safe nonce msg : ¬ six_byte_info msg → safe (dispatch nonce msg).
Proof.
  intros Hsix s Hs. unfold dispatch, mbind at 1, M_bind at 1, gets.
  case_decide; [by apply safe_fail|]. case_decide.
  { unfold mbind, M_bind, lift.
    assert (returns (ipc.ParseMessageBodyWalIn (ipc.m_Payload msg))) as [Hp Hf].
    { by destruct (ipc.ParseMessageBodyWalIn_exact (ipc.m_Payload msg))
        as [(_&?&->)|(_&?&->&_)]. }
    destruct (ipc.ParseMessageBodyWalIn _) as [w|e| |]; [|by split_and!|done|done].
    destruct (decide (i_Mode (s_Info s) ≠ InfoModeSingle)) as [Hmode|]; [|by split_and!].
    pose proof (handleWalIn_safe nonce w s Hs Hmode). by destruct (handleWalIn nonce w s). }
  case_decide.
  { case_decide; [by apply safe_fail|].
    assert (safe (index ← lift (be_get32 (ipc.m_Payload msg) 0 4); sendGameWal index)) as Hk; [|by apply Hk].
    apply safe_bind; [apply safe_lift|intros; apply sendGameWal_loop_safe].
    destruct (be_get32_inbounds (ipc.m_Payload msg) 0 4) as [? ->]; [lia..|done]. }
  case_decide.
  { assert (safe (posMsg ← lift (ipc.ParseMessageBodyPositionIn (ipc.m_Payload msg));
      if decide (i_Mode (s_Info s) ≠ InfoModeSingle) then on_positions (OnGamePos posMsg) else mret tt))
      as Hk; [|by apply Hk].
    apply safe_bind; [apply safe_lift; eapply ipc.reads_exactly_returns, ipc.ParseMessageBodyPositionIn_exact|].
    intros p. case_decide; [|apply safe_ret]. by apply safe_on_positions. }
  case_decide.
  { assert (safe (m ← lift (ipc.ParseMessageBodyInfoItem (ipc.m_Payload msg));
      on_Daemon (daemon.Send (info_item_msg (s_Info s) m)))) as Hk; [|by apply Hk].
    apply safe_bind; [apply safe_lift, ParseMessageBodyInfoItem_returns|].
    { intros Hl. by destruct Hsix. }
    intros m. apply safe_on_Daemon, daemon_Send_total. }
  case_decide; [|by apply safe_ret].
  assert (safe (m ← lift (ipc.ParseMessageBodyInfoEntrance (ipc.m_Payload msg));
    on_Daemon (daemon.Send (info_entrance_msg (s_Info s) m)))) as Hk; [|by apply Hk].
  apply safe_bind; [apply safe_lift; eapply ipc.reads_exactly_returns, ipc.ParseMessageBodyInfoEntrance_exact|].
  intros m. apply safe_on_Daemon, daemon_Send_total.
Qed.

(** ** Sequence numbers *)

Lemma expectedSeq_hello msg s :
  ipc.m_Op msg = ipc.OpHello → expectedSeq msg s = (s, Ok (U32 0)).
Proof. intros H. unfold expectedSeq. by rewrite decide_True. Qed.

Lemma expectedSeq_other msg s :
  ipc.m_Op msg ≠ ipc.OpHello →
  expectedSeq msg s = (set_s_SeqGame (uincr (s_SeqGame s)) s, Ok (s_SeqGame s)).
Proof. intros H. unfold expectedSeq. by rewrite decide_False. Qed.

Lemma dispatch_hello nonce msg s :
  ipc.m_Op msg = ipc.OpHello → ∃ e, dispatch nonce msg s = (s, Err e).
Proof. intros H. unfold dispatch, mbind, M_bind, gets. rewrite decide_True by done. by eexists. Qed.

(** A method of the queue changes nothing else. *)
Lemma keeps_sendQ {T A} (f : Session → T) (m : M SendQueue A) :
  (∀ q s, f (set_s_sendQ q s) = f s) → keeps f (on_sendQ m).
Proof. intros Hf s. unfold on_sendQ. destruct (s_sendQ s); [|done]. destruct (m _). apply Hf. Qed.

(** So does what the game's log query and entries do, apart from the channels
    and the queue. *)
Lemma sendGameWal_keeps {T} (f : Session → T) index :
  (∀ m, keeps f (on_ports (Send m))) → keeps f (sendGameWal index).
Proof.
  intros Hf. unfold sendGameWal. generalize 16 (U32 0). intros n.
  induction n as [|n IH]; intros i; cbn [sendGameWal_loop]; [by apply keeps_pure|].
  apply keeps_bind; [by apply keeps_pure|]. intros s. apply keeps_bind; [by apply keeps_pure|].
  intros [e|]; [|by apply keeps_pure]. apply keeps_bind; [by apply keeps_pure|]. intros m.
  apply keeps_bind; [done|]. intros _. apply IH.
Qed.

(** *** Contexts and capacities *)

(** Whether the session is over, and the capacities of its channels. *)
Definition shape (s : Session) : bool * nat * nat * nat :=
  (p_done (s_ports s), ch_cap (pt_chan (p_msgOut (s_ports s))),
   ch_cap (pt_chan (p_uplinkOut (s_ports s))), ch_cap (s_uplinkIn s)).

Lemma keeps_shape_ports {A} (m : M Ports A) :
  (∀ p, same_ports p (fst (m p))) → keeps shape (on_ports m).
Proof.
  intros Hm s. unfold on_ports, zoom. specialize (Hm (s_ports s)). destruct (m (s_ports s)) as [p r].
  destruct Hm as (Hd & Ho & Hu). unfold shape; simpl in *. by rewrite Hd, Ho, Hu.
Qed.

Lemma keeps_shape_sends :
  (∀ m, keeps shape (on_ports (Send m))) ∧ (∀ p, keeps shape (on_ports (TrySendUplink p))).
Proof.
  split; intros x; apply keeps_shape_ports; intros p.
  - by destruct (Send_cases x p) as (? & -> & ? & _).
  - by destruct (TrySendUplink_cases x p) as (? & -> & ? & _).
Qed.

Lemma keeps_shape_positions {A} (m : M (PositionSystem * Ports) A) :
  (∀ x, same_ports (snd x) (snd (fst (m x)))) → keeps shape (on_positions m).
Proof.
  intros Hm s. unfold on_positions, zoom. specialize (Hm (s_positions s, s_ports s)).
  destruct (m _) as [[ps p] r]. destruct Hm as (Hd & Ho & Hu). unfold shape; simpl in *.
  by rewrite Hd, Ho, Hu.
Qed.

Lemma OnServerPos_shape pkt : keeps shape (on_positions (OnServerPos pkt)).
Proof.
  apply keeps_shape_positions. intros x. destruct (OnServerPos_spec pkt x) as (d & p & _ & -> & Ht). simpl.
  by edestruct TrySend_cases as (p' & Hp' & ? & _); rewrite Hp' in Ht; simplify_eq.
Qed.

Lemma tick_shape order : keeps shape (on_positions (tick order)).
Proof.
  apply keeps_shape_positions. intros x. rewrite tick_ports.
  destruct (sendSelfPos_spec x) as (p & k & -> & _ & Hn & Hs). simpl.
  destruct (decide (pd_Key (ps_pos x.1) = no_pos)) as [Hk|Hk]; [by rewrite (Hn Hk)|].
  destruct (Hs Hk) as (d & _ & Ht).
  by edestruct TrySendUplink_cases as (p' & Hp' & ? & _); rewrite Hp' in Ht; simplify_eq.
Qed.

Lemma handleMsg_shape nonce msg : keeps shape (handleMsg nonce msg).
Proof.
  destruct keeps_shape_sends as [HS HU].
  assert (∀ A (m : M SendQueue A), keeps shape (on_sendQ m)) by (intros; by apply keeps_sendQ).
  assert (∀ i, keeps shape (sendGameWal i)) by (intros i; by apply sendGameWal_keeps).
  assert (∀ m, keeps shape (on_positions (OnGamePos m)))
    by (intros m; by apply keeps_shape_positions).
  assert (keeps shape (expectedSeq msg)) by (intros s; unfold expectedSeq; by case_decide).
  unfold handleMsg, dispatch, handleWalIn, newWalEntry. solve_keeps.
Qed.

Lemma handleUplinkPacket_shape pkt : keeps shape (handleUplinkPacket pkt).
Proof.
  assert (∀ A (m : M SendQueue A), keeps shape (on_sendQ m)) by (intros; by apply keeps_sendQ).
  pose proof OnServerPos_shape. unfold handleUplinkPacket. solve_keeps.
Qed.

(** No handler but [handleMsg] moves the two counters. *)
Lemma dispatch_keeps_seq nonce msg :
  keeps (λ s, (s_SeqGame s, s_SeqNet s, s_Conn s)) (dispatch nonce msg).
Proof.
  set (f := λ s, _).
  assert (∀ A (m : M SendQueue A), keeps f (on_sendQ m)) by (intros; by apply keeps_sendQ).
  assert (∀ i, keeps f (sendGameWal i))
    by (intros i; apply sendGameWal_keeps; intros m; by apply keeps_zoom).
  unfold dispatch, handleWalIn, newWalEntry. solve_keeps.
Qed.

(** A message that is accepted has the expected number, which then grows. *)
Lemma handleMsg_Ok nonce msg s s' :
  handleMsg nonce msg s = (s', Ok tt) →
  ipc.m_Op msg ≠ ipc.OpHello ∧ ipc.m_Seq msg = s_SeqGame s ∧ s_SeqGame s' = uincr (s_SeqGame s).
Proof.
  unfold handleMsg, mbind at 1, M_bind at 1.
  destruct (decide (ipc.m_Op msg = ipc.OpHello)) as [Hop|Hop].
  - rewrite expectedSeq_hello by done. case_decide; [done|].
    destruct (dispatch_hello nonce msg s Hop) as [e ->]. done.
  - rewrite expectedSeq_other by done. case_decide as Hseq; [done|]. intros H.
    pose proof (dispatch_keeps_seq nonce msg (set_s_SeqGame (uincr (s_SeqGame s)) s)) as Hg.
    rewrite H in Hg. by simplify_eq/=.
Qed.

(** A message out of sequence changes nothing but the counter. *)
Lemma handleMsg_bad_seq nonce msg s :
  ipc.m_Op msg = ipc.OpHello ∨ ipc.m_Seq msg ≠ s_SeqGame s →
  ∃ e n, handleMsg nonce msg s = (set_s_SeqGame n s, Err e).
Proof.
  intros Hbad. assert (set_s_SeqGame (s_SeqGame s) s = s) as Hid by (by destruct s).
  unfold handleMsg, mbind at 1, M_bind at 1.
  destruct (decide (ipc.m_Op msg = ipc.OpHello)) as [Hop|Hop].
  - rewrite expectedSeq_hello by done. destruct (dispatch_hello nonce msg s Hop) as [e He].
    exists (if decide (ipc.m_Seq msg ≠ U32 0) then Errorf "unexpected sequence number" else e), (s_SeqGame s).
    rewrite Hid. by case_decide.
  - rewrite expectedSeq_other by done. destruct Hbad as [|Hseq]; [done|].
    rewrite decide_True by done. by eexists _, _.
Qed.

Lemma uadd_0 {w} (x : uint w) : uadd x (to_uint w 0) = x.
Proof.
  unfold uadd. rewrite uval_to_uint_small by (pose proof (uint_bounds x); lia).
  by rewrite Z.add_0_r, to_uint_uval.
Qed.

Lemma uadd_uincr (x : u32) j : uadd (uincr x) (U32 (Z.of_nat j)) = uadd x (U32 (Z.of_nat (S j))).
Proof.
  apply uint_eq. unfold uadd, uincr, to_uint; cbn [uval].
  rewrite Zplus_mod_idemp_l, !Zplus_mod_idemp_r. f_equal. lia.
Qed.

Lemma msg_loop_seq msgs s s' :
  msg_loop msgs s = (s', Ok tt) →
  (∀ i nonce msg, msgs !! i = Some (nonce, msg) →
     ipc.m_Op msg ≠ ipc.OpHello ∧ ipc.m_Seq msg = uadd (s_SeqGame s) (U32 (Z.of_nat i)))
  ∧ s_SeqGame s' = uadd (s_SeqGame s) (U32 (Z.of_nat (length msgs))).
Proof.
  revert s. induction msgs as [|[nonce msg] msgs IH]; intros s; cbn [msg_loop].
  { intros [= <-]. split; [done|]. by rewrite uadd_0. }
  unfold mbind, M_bind. destruct (handleMsg nonce msg s) as [s1 [[]|e| |]] eqn:H; [|done..].
  intros Hl. destruct (handleMsg_Ok _ _ _ _ H) as (Hop & Hseq & Hs1).
  destruct (IH _ Hl) as [Hi Hn]. rewrite Hs1 in *.
  split; [|by rewrite Hn, uadd_uincr].
  intros [|i] n m; simpl; [intros [= -> ->]; by rewrite uadd_0|]. intros Hm.
  rewrite <- uadd_uincr. by eapply Hi.
Qed.

(** What [handleMsgOut] writes for the messages it takes. *)
Definition numbered (n : u32) (i : nat) (msg : ipc.Message) : ipc.Message :=
  ipc.MkMessage (uadd n (U32 (Z.of_nat i))) (ipc.m_Op msg) (ipc.m_Payload msg).

Definition out_frame (msg : ipc.Message) : bytes := ipc.ipc_frame (ipc.message_layout msg).

Lemma msgs_out_frames msgs s :
  tx_script (s_Conn s) = [] →
  Forall (λ m, ipc.frameable (ipc.m_Payload m ++ zeros 5)) msgs →
  ∃ s', msgs_out msgs s = (s', Ok tt)
  ∧ tx (s_Conn s') = tx (s_Conn s) ++ concat (out_frame <$> imap (numbered (s_SeqNet s)) msgs)
  ∧ s_SeqNet s' = uadd (s_SeqNet s) (U32 (Z.of_nat (length msgs))).
Proof.
  intros Hs Hf. revert s Hs. induction Hf as [|msg msgs Hm Hf IH]; intros s Hs.
  { exists s. cbn [msgs_out imap]. rewrite fmap_nil, app_nil_r. by rewrite uadd_0. }
  cbn [msgs_out]. unfold mbind at 1, M_bind at 1, msg_out.
  unfold mbind at 1, M_bind at 1, gets, mbind at 1, M_bind at 1, modify.
  rewrite ipc.Message_Serialize_layout. unfold mbind, M_bind, lift, on_Conn, zoom.
  cbn [s_Conn set_s_SeqNet].
  rewrite ipc.Write_ok; [|done|].
  2: { unfold ipc.frameable, ipc.message_layout in *. cbn [ipc.m_Seq ipc.m_Op ipc.m_Payload].
       revert Hm. autorewrite with len. lia. }
  destruct (IH (set_s_Conn (set_tx (tx (s_Conn s) ++ out_frame (numbered (s_SeqNet s) 0 msg)) [] (s_Conn s))
    (set_s_SeqNet (uincr (s_SeqNet s)) s))) as (s' & Hr & Htx & Hn); [done|].
  exists s'. unfold out_frame, numbered in *. cbn [s_Conn s_SeqNet set_s_Conn set_s_SeqNet tx set_tx] in *.
  rewrite uadd_0 in Hr, Htx. split; [exact Hr|]. rewrite Htx, Hn.
  split; [|by rewrite uadd_uincr]. cbn [imap]. rewrite fmap_cons. cbn [concat].
  rewrite uadd_0, <- app_assoc. do 3 f_equal. f_equal. apply imap_ext. intros i m _. simpl. by rewrite uadd_uincr.
Qed.

(** ** The log sent to the game *)

Lemma uadd_next (x i : u32) k :
  uadd x i = U32 (Z.of_nat k) → uadd x (uincr i) = U32 (Z.of_nat (S k)).
Proof.
  intros H. rewrite <- uincr_length, <- H. apply uint_eq. unfold uadd, uincr, to_uint; cbn [uval].
  rewrite Zplus_mod_idemp_r, Zplus_mod_idemp_l. f_equal. lia.
Qed.

Lemma Get_nat w k :
  mem_wf w → (Z.of_nat (length (w_entries w)) < 2 ^ 32)%Z → k ≤ length (w_entries w) →
  Get w (U32 (Z.of_nat k)) = Ok (w_entries w !! k).
Proof.
  intros Hw Hlen Hk. unfold Get. rewrite count_small by done.
  rewrite uval_to_uint_small, Nat2Z.id by lia.
  case_decide; [rewrite lookup_ge_None_2 by lia; done|].
  destruct (lookup_lt_is_Some_2 (w_entries w) k) as [e ->]; [lia|done].
Qed.

Lemma sendGameWal_loop_sent n k i index s :
  p_done (s_ports s) = false → mem_wf (s_wal s) →
  (Z.of_nat (length (w_entries (s_wal s))) < 2 ^ 32)%Z → k ≤ length (w_entries (s_wal s)) →
  uadd index i = U32 (Z.of_nat k) →
  ∃ p, sendGameWal_loop n i index s = (set_s_ports p s, Ok tt)
  ∧ p_done p = false ∧ p_uplinkOut p = p_uplinkOut (s_ports s)
  ∧ pt_sent (p_msgOut p) = pt_sent (p_msgOut (s_ports s))
      ++ imap (λ j e, wal_out_of (s_PlayerID s) (U32 (Z.of_nat (k + j))) e)
           (take n (drop k (w_entries (s_wal s)))).
Proof.
  intros Hd Hw Hlen. revert s k i Hd Hw Hlen.
  induction n as [|n IH]; intros s k i Hd Hw Hlen Hk Hi; cbn [sendGameWal_loop].
  { exists (s_ports s). destruct s; simpl in *. by rewrite app_nil_r. }
  unfold mbind at 1, M_bind at 1, gets. rewrite Hi, Get_nat by done.
  unfold mbind at 1, M_bind at 1, lift at 1.
  destruct (w_entries (s_wal s) !! k) as [e|] eqn:He.
  2: { exists (s_ports s). apply lookup_ge_None in He. rewrite drop_ge by done.
       destruct s; simpl in *. by rewrite app_nil_r. }
  rewrite wal_out_msg_Ok. unfold mbind at 1, M_bind at 1, lift, mbind, M_bind, on_ports, zoom.
  rewrite Send_live by done. set (m := wal_out_of _ _ _).
  pose proof (lookup_lt_Some _ _ _ He) as Hlt.
  destruct (IH (set_s_ports (set_msgOut (port_send m (p_msgOut (s_ports s))) (s_ports s)) s) (S k) (uincr i))
    as (p & Hp & Hdp & Hup & Hsp); [done..|by apply uadd_next|].
  exists p. unfold mbind, M_bind in Hp. cbn [s_wal s_PlayerID s_ports set_s_ports] in *.
  split; [exact Hp|]. split; [done|]. split; [done|]. rewrite Hsp. cbn [p_msgOut set_msgOut].
  rewrite pt_sent_send, <- app_assoc, (drop_S _ e k) by done. simpl. f_equal.
  unfold m. rewrite Nat.add_0_r. f_equal. apply imap_ext. intros j x _. simpl.
  by rewrite Nat.add_succ_r.
Qed.

Lemma sendGameWal_sent index s :
  p_done (s_ports s) = false → mem_wf (s_wal s) →
  (Z.of_nat (length (w_entries (s_wal s))) < 2 ^ 32)%Z →
  ∃ p, sendGameWal index s = (set_s_ports p s, Ok tt)
  ∧ p_done p = false ∧ p_uplinkOut p = p_uplinkOut (s_ports s)
  ∧ pt_sent (p_msgOut p) = pt_sent (p_msgOut (s_ports s))
      ++ imap (λ j e, wal_out_of (s_PlayerID s) (U32 (uval index + Z.of_nat j)) e)
           (take 16 (drop (Z.to_nat (uval index)) (w_entries (s_wal s)))).
Proof.
  intros Hd Hw Hlen. pose proof (uint_bounds index) as Hb.
  destruct (decide (Z.to_nat (uval index) ≤ length (w_entries (s_wal s)))) as [Hk|Hk].
  - destruct (sendGameWal_loop_sent 16 (Z.to_nat (uval index)) (U32 0) index s) as (p & Hp & ? & ? & Hs);
      [done..| |].
    { by rewrite uadd_0, Z2Nat.id, to_uint_uval by lia. }
    exists p. split; [exact Hp|]. split; [done|]. split; [done|]. rewrite Hs. f_equal.
    apply imap_ext. intros j e _. simpl. do 2 f_equal. rewrite Nat2Z.inj_add, Z2Nat.id by lia. done.
  - exists (s_ports s). rewrite (drop_ge (w_entries (s_wal s))) by lia. simpl.
    rewrite app_nil_r. split; [|done]. unfold sendGameWal. cbn [sendGameWal_loop].
    unfold mbind, M_bind, gets, lift. rewrite uadd_0. unfold Get.
    rewrite count_small by done. rewrite decide_True by lia. by destruct s.
Qed.

(** ** The entries of the game *)

(** The nonce of an item: random when bit 0 of its flags ([OVF_RENEW]) is set. *)
Definition item_nonce (flags : u16) (nonce : vec u8 4) : u32 :=
  if decide (Z.land (uval flags) 1 = 0%Z) then U32 0 else U32 (le_value (vec_to_list nonce)).

Lemma wal_item_entry_Ok s item nonce :
  wal_item_entry s item nonce = Ok (MkEntry WalItem (s_PlayerID s) (s_PlayerName s)
    (i_WorldID (s_Info s)) (MkItem (ipc.it_To item) (ipc.it_Game item) (ipc.it_GI item)
      (ipc.it_Flags item) (ipc.it_Key item) (item_nonce (ipc.it_Flags item) nonce)) zero_event).
Proof.
  unfold wal_item_entry, item_nonce. destruct (decide (Z.land _ _ = _)) as [->|Hn].
  - by rewrite decide_False by (by intros []).
  - rewrite decide_True by done. unfold le_Uint32. by rewrite fixed_ok by apply length_vec_to_list.
Qed.

Lemma wal_in_entry_normal w nonce s e : wal_in_entry w nonce s = Ok e → normal e.
Proof.
  unfold wal_in_entry. case_decide; [|case_decide; [|done]];
    intros (x & _ & He)%res_bind_Ok_inv.
  - rewrite wal_item_entry_Ok in He. simplify_eq. split; [by left|done].
  - simplify_eq. split; [by right|done].
Qed.

Lemma wal_in_entry_identity w nonce s e :
  wal_in_entry w nonce s = Ok e → e_PlayerID e = s_PlayerID s ∧ e_PlayerName e = s_PlayerName s.
Proof.
  unfold wal_in_entry. case_decide; [|case_decide; [|done]];
    intros (x & _ & He)%res_bind_Ok_inv; [rewrite wal_item_entry_Ok in He|]; by simplify_eq.
Qed.

Lemma Add_Ok_some k d q : snd (Add k d q) = Ok tt → is_Some (q_entries (fst (Add k d q)) !! k).
Proof.
  unfold Add. unfold mbind at 1 3, M_bind at 1 3, gets. case_bool_decide as Hs; [done|].
  unfold mbind, M_bind, modify. destruct (add_record k d q) as [q' [[]|e| |]]; simpl; [|done..].
  intros _. rewrite lookup_insert_eq. by eexists.
Qed.

(** What [newWalEntry] does in a session with a queue. *)
Lemma newWalEntry_eq e s q :
  known_type e → s_sendQ s = Some q →
  ∃ k d, DedupKey e = Ok k ∧ Serialize e = Ok d
  ∧ newWalEntry e s = (set_s_ports (fst (TrySendUplink (MkPacket OpWal d) (s_ports s)))
      (set_s_sendQ (Some (fst (Add k d q))) s), Ok tt).
Proof.
  intros Hk Hq. destruct (proj1 (DedupKey_known e) Hk) as [k Hkey].
  destruct (Serialize_known e Hk) as (d & Hd & _). exists k, d. split; [done|]. split; [done|].
  unfold newWalEntry, mbind, M_bind, lift. rewrite Hd, Hkey. unfold ignore.
  rewrite (on_sendQ_some _ s q Hq). pose proof (Add_total k d q) as [Hp Hf].
  assert (∀ s', on_ports (TrySendUplink (MkPacket OpWal d)) s'
    = (set_s_ports (fst (TrySendUplink (MkPacket OpWal d) (s_ports s'))) s', Ok tt)) as Hu.
  { intros s'. unfold on_ports, zoom.
    destruct (TrySendUplink_cases (MkPacket OpWal d) (s_ports s')) as (p & -> & _). done. }
  destruct (snd (Add k d q)) as [[]|err| |]; [by rewrite Hu..|done|done].
Qed.

Definition ack_msg (token : u32) : ipc.Message :=
  ipc.MkMessage (U32 0) ipc.OpWalAck (ack_payload token).

Lemma handleWalIn_eq nonce w s q e :
  p_done (s_ports s) = false → s_sendQ s = Some q → wal_in_entry w nonce s = Ok e →
  ∃ k d p, DedupKey e = Ok k ∧ Serialize e = Ok d
  ∧ handleWalIn nonce w s = (set_s_ports p (set_s_sendQ (Some (fst (Add k d q))) s), Ok tt)
  ∧ p_done p = false
  ∧ pt_sent (p_msgOut p) = pt_sent (p_msgOut (s_ports s)) ++ [ack_msg (ipc.wi_Token w)]
  ∧ p_uplinkOut p = (if chan_ready (pt_chan (p_uplinkOut (s_ports s)))
                     then port_push (MkPacket OpWal d) (p_uplinkOut (s_ports s))
                     else p_uplinkOut (s_ports s)).
Proof.
  intros Hd Hq He. destruct (wal_in_entry_normal _ _ _ _ He) as [Hk _].
  destruct (newWalEntry_eq e s q Hk Hq) as (k & d & Hkey & Hser & Hn).
  exists k, d. unfold handleWalIn, mbind at 1, M_bind at 1, gets. rewrite He.
  unfold mbind, M_bind, lift. unfold wrapM, on_err. rewrite Hn.
  rewrite ack_payload_eq. unfold on_ports, zoom; cbn [s_ports set_s_ports set_s_sendQ].
  rewrite TrySendUplink_live by done. cbn [fst].
  assert (∀ p, p_done p = false → Send (ack_msg (ipc.wi_Token w)) p
    = (set_msgOut (port_send (ack_msg (ipc.wi_Token w)) (p_msgOut p)) p, Ok tt)) as HS
    by (intros; by apply Send_live).
  unfold ack_msg in HS. rewrite HS by (by case_match).
  eexists. split; [done|]. split; [done|]. split; [done|].
  unfold ack_msg. case_match; cbn [p_done p_msgOut p_uplinkOut set_msgOut set_uplinkOut];
    by rewrite pt_sent_send.
Qed.

(** *** The start of a session *)

(** A disk that opens a file, with any contents and any later answers, or refuses. *)
Definition disk_answers (opened : bytes → res file) : Prop := ∀ path,
  (∃ data script, opened path = Ok (open_file data script)) ∨ (∃ e, opened path = Err e).

(** The HELLO OUT message on the wire. *)
Definition hello_out_frame (seqGame seqNet : u32) : bytes :=
  ipc.ipc_frame (ipc.message_layout (ipc.MkMessage (U32 0) ipc.OpHello
    (ipc.hello_out_layout (ipc.MkHelloOut hello_magic seqGame seqNet)))).

Lemma Run_hello_sent seqGame seqNet c :
  tx_script c = [] →
  ignore (Run_hello seqGame seqNet) c = (set_tx (tx c ++ hello_out_frame seqGame seqNet) [] c, Ok tt).
Proof.
  intros Hs. unfold ignore, Run_hello, mbind, M_bind, lift.
  rewrite ipc.HelloOut_Serialize_layout, ipc.Message_Serialize_layout.
  rewrite ipc.Write_ok; [done|done|]. unfold ipc.frameable, ipc.message_layout, ipc.hello_out_layout.
  rewrite !length_app. cbn [ipc.m_Payload ipc.m_Seq ipc.m_Op]. by len.
Qed.

Lemma Run_checks_Ok info h :
  Run_checks info h = Ok tt ↔
  ipc.hi_SessionID h = i_SessionID info ∧ ipc.hi_SessionSecret h = i_SessionSecret info
  ∧ ipc.hi_WorldID h = i_WorldID info.
Proof.
  unfold Run_checks. case_decide as H1; [split; [done|naive_solver]|].
  case_decide as H2; [split; [done|naive_solver]|]. split; [|done]. intros _.
  apply Decidable.not_or in H1 as [?%dec_stable ?%dec_stable]. done.
Qed.

Lemma Run_queue_returns info dataDir opened : disk_answers opened → returns (Run_queue info dataDir opened).
Proof.
  intros Ho. unfold Run_queue. case_decide; [|done]. apply res_bind_returns; [|done].
  destruct (Ho (dataDir ++ str "/send_queue.dat")) as [(data & script & ->)|[e ->]];
    [apply OpenSendQueue_returns|done].
Qed.

Lemma Run_start_returns DataDir info h mkdir opened randBytes done picks c d :
  disk_answers opened → returns (Run_start DataDir info h mkdir opened randBytes done picks c d).
Proof.
  intros Ho. unfold Run_start.
  apply res_bind_returns; [unfold Run_checks; by repeat case_decide|]. intros [] _.
  apply res_bind_returns; [unfold makeDataDir; by destruct mkdir|]. intros dataDir _.
  apply res_bind_returns; [by apply Run_queue_returns|]. intros q _.
  apply res_bind_returns.
  { destruct (Ho (dataDir ++ str "/wal.bin")) as [(data & script & ->)|[e ->]]; [apply OpenWAL_returns|done]. }
  intros wal _. destruct (le_get32_inbounds (vec_to_list randBytes) 0 4) as [x ->]; [done|len|].
  destruct (le_get32_inbounds (vec_to_list randBytes) 4 8) as [y ->]; [done|len|]. done.
Qed.

(** *** The round over the send queue *)

Lemma send_pending_live ds s :
  p_done (s_ports s) = false → Forall (λ d, ∃ e, Parse d = Ok e) ds →
  ∃ p, send_pending ds s = (set_s_ports p s, Ok tt)
  ∧ p_done p = false ∧ p_msgOut p = p_msgOut (s_ports s)
  ∧ pt_sent (p_uplinkOut p) = pt_sent (p_uplinkOut (s_ports s)) ++ (MkPacket OpWal <$> ds).
Proof.
  intros Hl Hds. revert s Hl. induction Hds as [|d ds [e He] _ IH]; intros s Hl.
  { exists (s_ports s). rewrite app_nil_r. split_and!; [by destruct s|done..]. }
  cbn [send_pending]. rewrite He. unfold mbind at 1, M_bind at 1, lift.
  unfold mbind, M_bind, on_ports at 1, zoom. rewrite SendUplink_live by done.
  set (p1 := set_uplinkOut _ _). destruct (IH (set_s_ports p1 s) Hl) as (p & -> & Hd & Hm & Hu).
  exists p. split_and!; [done|done|done|]. rewrite Hu. cbn [s_ports set_s_ports].
  unfold p1. cbn [set_uplinkOut p_uplinkOut]. by rewrite pt_sent_send, <- app_assoc.
Qed.

(** [handleMsg] panics on one kind of message only. *)
Lemma handleMsg_panics nonce msg s :
  session_wf s →
  let '(s', r) := handleMsg nonce msg s in
  (r = Panic ↔ six_byte_info msg ∧ ipc.m_Seq msg = s_SeqGame s)
  ∧ r ≠ NoFuel ∧ session_wf s' ∧ s_Info s' = s_Info s.
Proof.
  intros Hs. assert (∀ n, session_wf (set_s_SeqGame n s)) as Hn by (intros n; by destruct Hs; split).
  destruct (decide (ipc.m_Op msg = ipc.OpHello ∨ ipc.m_Seq msg ≠ s_SeqGame s)) as [Hbad|Hok].
  - destruct (handleMsg_bad_seq nonce msg s Hbad) as (e & n & ->). split_and!; [|done|by apply Hn|done].
    split; [done|]. intros [[Hop _] Hseq]. destruct Hbad as [H|H]; [|done].
    rewrite Hop in H. by destruct OpInfoItem_other as [? _].
  - apply Decidable.not_or in Hok as [Hop Hseq%dec_stable]. unfold handleMsg, mbind, M_bind.
    rewrite expectedSeq_other, decide_False by auto.
    destruct (decide (six_byte_info msg)) as [Hsix|Hsix].
    + rewrite dispatch_six by done. split_and!; [done|done|by apply Hn|done].
    + pose proof (dispatch_safe nonce msg Hsix _ (Hn (uincr (s_SeqGame s)))) as H.
      destruct (dispatch nonce msg _) as [s' r]. destruct H as ([Hp Hf] & Hw & Hi).
      split_and!; [|done..]. split; [done|]. by intros [].
Qed.

(** ** Properties *)

Definition ex_info : Info :=
  MkInfo (arr_of 16 [U8 1]) (arr_of 8 [U8 2]) (U8 3) InfoModeMulti
    {[U16 5 := str "BOW"]} ∅ ∅.

(** A session with an empty queue and a log of two entries. *)
Definition ex_session : Session :=
  MkSession ex_info ex_player (arr_of 8 (str "LINK")) (U32 100) (U32 4294967295) (str "data")
    (conn_on [] EOF) daemon.createDaemonConn (make_chan _ 16) (make_chan _ 16)
    (MkPorts false [] (make_port _ 16) (make_port _ 16)) (Some (MkSQ false (open_file [] []) ∅))
    (fst (Append ex_event ex_wal1)) createPositionSystem.

Lemma ex_session_wf : session_wf ex_session.
Proof. split; [by eexists|]. apply mem_wf_Append, mem_wf_Append, mem_wf_new. Qed.

(** C28: a session starts or is refused, and starts well.  On any files and
    whatever the disk answers, [Run] gets to its goroutines or returns, and it does
    not panic; it starts only for the game of the patch: the same session, secret
    and world.  Then the session is well formed, belongs to the player of the HELLO,
    takes both sequence numbers from the random bytes, and has told them to the
    game. *)
Theorem session_start DataDir info h mkdir opened randBytes done picks c d :
  disk_answers opened →
  let r := Run_start DataDir info h mkdir opened randBytes done picks c d in
  returns r
  ∧ ∀ s, r = Ok s →
    ipc.hi_SessionID h = i_SessionID info ∧ ipc.hi_SessionSecret h = i_SessionSecret info
    ∧ ipc.hi_WorldID h = i_WorldID info
    ∧ session_wf s ∧ s_Info s = info
    ∧ s_PlayerID s = ipc.hi_PlayerID h ∧ s_PlayerName s = ipc.hi_PlayerName h
    ∧ vec_to_list randBytes = le_bytes 4 (uval (s_SeqGame s)) ++ le_bytes 4 (uval (s_SeqNet s))
    ∧ s_dataDir s = session_dir DataDir (i_SessionID info)
    ∧ (tx_script c = [] → tx (s_Conn s) = tx c ++ hello_out_frame (s_SeqGame s) (s_SeqNet s)).
Proof.
  intros Ho r. split; [by apply Run_start_returns|]. intros s. subst r. unfold Run_start.
  intros ([] & (Hid & Hsec & Hw)%Run_checks_Ok & Hr)%res_bind_Ok_inv.
  apply res_bind_Ok_inv in Hr as (dataDir & Hdir & Hr).
  apply res_bind_Ok_inv in Hr as (q & Hq & Hr). apply res_bind_Ok_inv in Hr as (l & Hl & Hr).
  apply res_bind_Ok_inv in Hr as (x & Hx & Hr). apply res_bind_Ok_inv in Hr as (y & Hy & Hr).
  apply Ok_inj in Hr as <-. cbn [s_Info s_PlayerID s_PlayerName s_SeqGame s_SeqNet s_dataDir s_Conn].
  split_and!; [done..| |done|done|done| | |].
  - split; [|by eapply OpenWAL_mem_wf]. cbn [s_Info s_sendQ]. intros Hm. unfold Run_queue in Hq.
    rewrite decide_True in Hq by done. apply res_bind_Ok_inv in Hq as (q' & _ & [= <-]). by eexists.
  - apply le_get32_take in Hx, Hy; [|done..]. rewrite take_0, app_nil_l in Hx. rewrite Hx in Hy.
    rewrite <- Hy. by rewrite take_ge by len.
  - rewrite <- Hid. unfold makeDataDir in Hdir. by destruct mkdir; simplify_eq.
  - intros Hs. by rewrite Run_hello_sent.
Qed.

Definition ex_hello : ipc.MessageBodyHelloIn :=
  ipc.MkHelloIn hello_magic (arr_of 16 [U8 1]) (arr_of 8 [U8 2]) ex_player (arr_of 8 (str "LINK")) (U8 3).

(** A damaged log file is refused; empty files are not. *)
Lemma session_start_witness :
  let start := λ opened, Run_start (str "data") ex_info ex_hello None opened (arr_of 8 [U8 100]) false []
    (conn_on [] EOF) daemon.createDaemonConn in
  is_ok (start (λ _, Ok (open_file [] []))) = true
  ∧ is_ok (start (λ _, Ok (open_file [U8 1] []))) = false
  ∧ returns (start (λ _, Ok (open_file [U8 1] [])))
  ∧ ∀ s, start (λ _, Ok (open_file [] [])) = Ok s → session_wf s.
Proof.
  intros start. split; [vm_compute; reflexivity|]. split; [vm_compute; reflexivity|]. split.
  - apply (session_start (str "data") ex_info ex_hello None (λ _, Ok (open_file [U8 1] []))).
    intros path. left. exists [U8 1], []. reflexivity.
  - intros s Hs.
    apply (proj2 (session_start (str "data") ex_info ex_hello None (λ _, Ok (open_file [] []))
      (arr_of 8 [U8 100]) false [] (conn_on [] EOF) daemon.createDaemonConn
      (λ path, or_introl (ex_intro _ [] (ex_intro _ [] eq_refl)))) s Hs).
Defined.

(** C17: the handlers never panic, whatever the game and the server send, with
    one exception.  [handleMsg] panics exactly when the message is an INFO_ITEM of
    six bytes with the expected sequence number; otherwise it returns, with the
    session still well formed.  [handleUplinkPacket] always does, in a session
    that has an uplink. *)
Theorem handlers_never_panic nonce msg pkt s :
  session_wf s →
  (let '(s', r) := handleMsg nonce msg s in
   (r = Panic ↔ six_byte_info msg ∧ ipc.m_Seq msg = s_SeqGame s)
   ∧ r ≠ NoFuel ∧ session_wf s' ∧ s_Info s' = s_Info s)
  ∧ (i_Mode (s_Info s) ≠ InfoModeSingle →
     let '(s', r) := handleUplinkPacket pkt s in
     returns r ∧ session_wf s' ∧ s_Info s' = s_Info s).
Proof.
  intros Hs. split; [by apply handleMsg_panics|].
  intros Hm. pose proof (handleUplinkPacket_safe pkt s Hs Hm) as H. by destruct (handleUplinkPacket pkt s).
Qed.

Lemma handlers_never_panic_witness :
  let msg := ipc.MkMessage (U32 100) ipc.OpInfoItem (zeros 6) in
  six_byte_info msg ∧ ipc.m_Seq msg = s_SeqGame ex_session
  ∧ (let '(s', r) := handleMsg (arr_of 4 []) msg ex_session in
     (r = Panic ↔ six_byte_info msg ∧ ipc.m_Seq msg = s_SeqGame ex_session)
     ∧ r ≠ NoFuel ∧ session_wf s' ∧ s_Info s' = s_Info ex_session).
Proof.
  intros msg. split; [split; reflexivity|]. split; [reflexivity|].
  exact (proj1 (handlers_never_panic (arr_of 4 []) msg (MkPacket OpNOP []) ex_session ex_session_wf)).
Defined.

(** C18: sequence numbers in both directions.  The messages accepted in a run of
    [handleMsgLoop] carry consecutive numbers from [SeqGame] on, modulo 2^32, and
    none is a HELLO; a message with another number ends the session with nothing
    but the counter changed.  [handleMsgOut] gives the messages it writes
    consecutive numbers from [SeqNet] on, in the order in which they were queued. *)
Theorem sequence_numbers s :
  (∀ msgs s', msg_loop msgs s = (s', Ok tt) →
     (∀ i nonce msg, msgs !! i = Some (nonce, msg) →
        ipc.m_Op msg ≠ ipc.OpHello ∧ ipc.m_Seq msg = uadd (s_SeqGame s) (U32 (Z.of_nat i)))
     ∧ s_SeqGame s' = uadd (s_SeqGame s) (U32 (Z.of_nat (length msgs))))
  ∧ (∀ nonce msg, ipc.m_Op msg = ipc.OpHello ∨ ipc.m_Seq msg ≠ s_SeqGame s →
     ∃ e n, handleMsg nonce msg s = (set_s_SeqGame n s, Err e))
  ∧ (∀ msgs, tx_script (s_Conn s) = [] →
     Forall (λ m, ipc.frameable (ipc.m_Payload m ++ zeros 5)) msgs →
     ∃ s', msgs_out msgs s = (s', Ok tt)
     ∧ tx (s_Conn s') = tx (s_Conn s) ++ concat (out_frame <$> imap (numbered (s_SeqNet s)) msgs)
     ∧ s_SeqNet s' = uadd (s_SeqNet s) (U32 (Z.of_nat (length msgs)))).
Proof.
  split; [|split].
  - intros msgs s'. apply msg_loop_seq.
  - intros nonce msg. apply handleMsg_bad_seq.
  - intros msgs Ht Hf. by apply msgs_out_frames.
Qed.

(** Two messages out, with the counter wrapping around between them. *)
Lemma sequence_numbers_witness :
  let msgs := [ack_msg (U32 7); ack_msg (U32 8)] in
  Forall (λ m, ipc.frameable (ipc.m_Payload m ++ zeros 5)) msgs
  ∧ ∃ s', msgs_out msgs ex_session = (s', Ok tt)
  ∧ tx (s_Conn s') = tx (s_Conn ex_session)
      ++ concat (out_frame <$> imap (numbered (s_SeqNet ex_session)) msgs)
  ∧ s_SeqNet s' = uadd (s_SeqNet ex_session) (U32 (Z.of_nat (length msgs)))
  ∧ s_SeqNet s' = U32 1.
Proof.
  intros msgs. assert (Forall (λ m, ipc.frameable (ipc.m_Payload m ++ zeros 5)) msgs) as Hf
    by (repeat constructor).
  split; [exact Hf|].
  destruct (proj2 (proj2 (sequence_numbers ex_session)) msgs eq_refl Hf) as (s' & H1 & H2 & H3).
  exists s'. split; [exact H1|]. split; [exact H2|]. split; [exact H3|].
  rewrite H3. apply (bool_decide_unpack _). vm_compute. exact I.
Defined.

(** C29: the log is replicated to the game in windows of sixteen.  A WAL_QUERY
    for [index] queues, in a live session, one message for each of the entries
    [index .. index + 15] that the log has, in order, each with its index; the
    player name is blank on the player's own entries.  Nothing else changes. *)
Theorem game_wal_query index s :
  p_done (s_ports s) = false → mem_wf (s_wal s) →
  (Z.of_nat (length (w_entries (s_wal s))) < 2 ^ 32)%Z →
  ∃ p, sendGameWal index s = (set_s_ports p s, Ok tt)
  ∧ p_uplinkOut p = p_uplinkOut (s_ports s)
  ∧ pt_sent (p_msgOut p) = pt_sent (p_msgOut (s_ports s))
      ++ imap (λ j e, wal_out_of (s_PlayerID s) (U32 (uval index + Z.of_nat j)) e)
           (take 16 (drop (Z.to_nat (uval index)) (w_entries (s_wal s)))).
Proof.
  intros Hd Hw Hlen. destruct (sendGameWal_sent index s Hd Hw Hlen) as (p & Hp & _ & Hu & Hs).
  by exists p.
Qed.

Lemma game_wal_query_witness :
  length (w_entries (s_wal ex_session)) = 2
  ∧ ∃ p, sendGameWal (U32 1) ex_session = (set_s_ports p ex_session, Ok tt)
  ∧ p_uplinkOut p = p_uplinkOut (s_ports ex_session)
  ∧ pt_sent (p_msgOut p) = pt_sent (p_msgOut (s_ports ex_session))
      ++ imap (λ j e, wal_out_of (s_PlayerID ex_session) (U32 (uval (U32 1) + Z.of_nat j)) e)
           (take 16 (drop (Z.to_nat (uval (U32 1))) (w_entries (s_wal ex_session)))).
Proof.
  split; [reflexivity|]. apply (game_wal_query (U32 1) ex_session); [reflexivity| |reflexivity].
  apply ex_session_wf.
Defined.

(** C15: an item or event of the game becomes exactly one pending entry.  In a
    live session [handleWalIn] builds an entry with the player's own identity,
    adds its serialization to the send queue under its deduplication key, offers
    it to the uplink and acknowledges the token to the game: the acknowledgement
    is sent even when the disk refused the entry, because the error of [Add] is
    dropped.  Without the renew flag the key of an item depends on the world, the
    game and the location key alone, so a repeated message is one entry; with it
    the nonce tells the entries apart. *)
Theorem game_entry_queued nonce w s q e :
  p_done (s_ports s) = false → s_sendQ s = Some q → wal_in_entry w nonce s = Ok e →
  ∃ k d p, DedupKey e = Ok k ∧ Serialize e = Ok d ∧ Parse d = Ok e
  ∧ handleWalIn nonce w s = (set_s_ports p (set_s_sendQ (Some (fst (Add k d q))) s), Ok tt)
  ∧ pt_sent (p_msgOut p) = pt_sent (p_msgOut (s_ports s)) ++ [ack_msg (ipc.wi_Token w)]
  ∧ p_uplinkOut p = (if chan_ready (pt_chan (p_uplinkOut (s_ports s)))
                     then port_push (MkPacket OpWal d) (p_uplinkOut (s_ports s))
                     else p_uplinkOut (s_ports s))
  ∧ (snd (Add k d q) = Ok tt → is_Some (q_entries (fst (Add k d q)) !! k))
  ∧ e_PlayerID e = s_PlayerID s ∧ e_PlayerName e = s_PlayerName s
  ∧ (∀ item, ipc.wi_Type w = WalItem → ipc.ParseWalItem (ipc.wi_Data w) = Ok item →
     key_fields e = (WalItem, i_WorldID (s_Info s), ipc.it_Game item, ipc.it_Key item,
                     item_nonce (ipc.it_Flags item) nonce)).
Proof.
  intros Hd Hq He. destruct (wal_in_entry_normal _ _ _ _ He) as [Hk Hn].
  destruct (handleWalIn_eq nonce w s q e Hd Hq He) as (k & d & p & Hkey & Hser & Hw & _ & Hm & Hu).
  exists k, d, p. split_and!; [done|done| |done|done|done| |apply (wal_in_entry_identity w nonce s e He)|apply (wal_in_entry_identity w nonce s e He)|].
  - by rewrite (Parse_Serialize e d Hser), Hn.
  - apply Add_Ok_some.
  - intros item Ht Hitem. unfold wal_in_entry in He. rewrite decide_True, Hitem, res_bind_ok in He by done.
    rewrite wal_item_entry_Ok in He. simplify_eq. done.
Qed.

(** An item with the renew flag. *)
Definition ex_wal_in : ipc.MessageBodyWalIn :=
  ipc.MkWalIn (U32 77) WalItem
    (ipc.wal_item_layout (ipc.MkWalItem (U8 1) (U8 0) (U16 5) (U16 1) (U32 42))).

Lemma game_entry_queued_witness :
  ∃ q e, s_sendQ ex_session = Some q
  ∧ wal_in_entry ex_wal_in (arr_of 4 [U8 9]) ex_session = Ok e
  ∧ i_Nonce (e_Item e) = U32 9
  ∧ ∃ k d p, DedupKey e = Ok k ∧ Serialize e = Ok d ∧ Parse d = Ok e
  ∧ handleWalIn (arr_of 4 [U8 9]) ex_wal_in ex_session
    = (set_s_ports p (set_s_sendQ (Some (fst (Add k d q))) ex_session), Ok tt).
Proof.
  set (q := MkSQ false (open_file [] []) ∅).
  destruct (wal_in_entry ex_wal_in (arr_of 4 [U8 9]) ex_session) as [e| | |] eqn:He;
    [|vm_compute in He; discriminate He..].
  exists q, e. split; [reflexivity|]. split; [reflexivity|]. split.
  { apply (f_equal (λ r, match r with Ok e => i_Nonce (e_Item e) | _ => U32 0 end)) in He.
    rewrite <- He. apply (bool_decide_unpack _). vm_compute. exact I. }
  destruct (game_entry_queued (arr_of 4 [U8 9]) ex_wal_in ex_session q e eq_refl eq_refl He)
    as (k & d & p & H1 & H2 & H3 & H4 & _).
  exists k, d, p. split; [exact H1|]. split; [exact H2|]. split; [exact H3|exact H4].
Defined.
