(* ===== verification/GameInfo.v ===== *)
(** * The patch file (client/internal/game/info.go)

    What the client reads from the patch: the session it belongs to, and the names
    of items, locations and entrances. *)

From stdpp Require Import base gmap sets strings vector numbers tactics list.
From Stdlib Require Import ZArith Lia.
From S2P Require Import Prelude Words GoIO GoStr Json WalEntry Packet Wal IpcMsg SendQueue.
From S2P Require Import ClientPorts PositionSystem Daemon ClientSession.

(** [zip.OpenReader] gives a reader, which answers for the name of a file with
    its contents: the outcome of [reader.Open] and [io.ReadAll]. *)
Definition Reader : Type := bytes → res bytes.

Definition set_i_Items m i := MkInfo (i_SessionID i) (i_SessionSecret i) (i_WorldID i) (i_Mode i)
  m (i_Locations i) (i_Entrances i).
Definition set_i_Locations m i := MkInfo (i_SessionID i) (i_SessionSecret i) (i_WorldID i) (i_Mode i)
  (i_Items i) m (i_Entrances i).
Definition set_i_Entrances m i := MkInfo (i_SessionID i) (i_SessionSecret i) (i_WorldID i) (i_Mode i)
  (i_Items i) (i_Locations i) m.

(** ** Manifests *)

(** [versionField] *)
Definition dec_version : Decoder Z := dec_struct [on_field "version" id (λ v _, v) dec_int].

(** An entry of a manifest: its key and its name. *)
Definition entry_fields {w} (key sym : string) : list (field (uint w * bytes)) :=
  [on_field key fst (λ k e, (k, snd e)) (dec_uint w);
   on_field sym snd (λ s e, (fst e, s)) dec_string].

(** A manifest: the list of entries under its one field. *)
Definition dec_manifest {w} (name key sym : string) : Decoder (list (uint w * bytes)) :=
  dec_struct [on_field name id (λ l _, l)
    (dec_slice (to_uint w 0, []) (dec_struct (entry_fields key sym)))].

(** The entries of a manifest file, an error where the code returns. *)
Definition manifest {w} (reader : Reader) (file : bytes) (name key sym : string) :
    res (list (uint w * bytes)) :=
  data ← reader file;
  version ← Unmarshal dec_version 0%Z data;
  if decide (version ≠ 1)%Z then Err (Errorf "unknown version") else
  Unmarshal (dec_manifest name key sym) [] data.

(** [for _, e := range entries { m[e.key] = e.sym }] *)
Definition add_entries {K} `{Countable K} (entries : list (K * bytes)) (m : gmap K bytes) : gmap K bytes :=
  foldl (λ m e, <[e.1 := e.2]> m) m entries.

Definition parseItems (reader : Reader) (info : Info) : Info :=
  match manifest (w := 16) reader (str "manifests/items.json") "items" "id" "sym" with
  | Ok items => set_i_Items (add_entries items (i_Items info)) info
  | _ => info
  end.

Definition parseLocations (reader : Reader) (info : Info) : Info :=
  match manifest (w := 32) reader (str "manifests/locations.json") "locations" "key" "location" with
  | Ok locs => set_i_Locations (add_entries locs (i_Locations info)) info
  | _ => info
  end.

Definition parseEntrances (reader : Reader) (info : Info) : Info :=
  match manifest (w := 32) reader (str "manifests/entrances.json") "entrances" "key" "sym" with
  | Ok locs => set_i_Entrances (add_entries locs (i_Entrances info)) info
  | _ => info
  end.

(** ** The metadata *)

Record rawMeta : Type := MkRawMeta {
  rm_SessionID : bytes;
  rm_SessionSecret : bytes;
  rm_WorldID : u8;
  rm_Mode : bytes;
}.

Definition meta_fields : list (field rawMeta) :=
  [on_field "sessionId" rm_SessionID
     (λ v m, MkRawMeta v (rm_SessionSecret m) (rm_WorldID m) (rm_Mode m)) dec_string;
   on_field "sessionSecret" rm_SessionSecret
     (λ v m, MkRawMeta (rm_SessionID m) v (rm_WorldID m) (rm_Mode m)) dec_string;
   on_field "worldId" rm_WorldID
     (λ v m, MkRawMeta (rm_SessionID m) (rm_SessionSecret m) v (rm_Mode m)) (dec_uint 8);
   on_field "mode" rm_Mode
     (λ v m, MkRawMeta (rm_SessionID m) (rm_SessionSecret m) (rm_WorldID m) v) dec_string].

Definition zero_rawMeta : rawMeta := MkRawMeta [] [] (U8 0) [].

(** [rawMetaFile] has the one field [Meta]. *)
Definition dec_rawMetaFile : Decoder rawMeta :=
  dec_struct [on_field "meta" id (λ m _, m) (dec_struct meta_fields)].

Definition parse_mode (mode : bytes) : res InfoMode :=
  if decide (mode = str "single") then Ok InfoModeSingle
  else if decide (mode = str "coop") then Ok InfoModeCoop
  else if decide (mode = str "multi") then Ok InfoModeMulti
  else Err (Errorf "unknown mode").

(** [opened] is what [zip.OpenReader] answers. *)
Definition ExtractGameInfo (opened : res Reader) : res Info :=
  reader ← opened;
  metaData ← reader (str "meta.json");
  rawMeta ← Unmarshal dec_rawMetaFile zero_rawMeta metaData;
  sessionID ← hex_DecodeString (rm_SessionID rawMeta);
  if decide (length sessionID ≠ 16) then Err (Errorf "invalid session ID length") else
  sessionSecret ← hex_DecodeString (rm_SessionSecret rawMeta);
  if decide (length sessionSecret ≠ 8) then Err (Errorf "invalid session secret length") else
  mode ← parse_mode (rm_Mode rawMeta);
  let info := MkInfo (arr_of 16 sessionID) (arr_of 8 sessionSecret) (rm_WorldID rawMeta) mode ∅ ∅ ∅ in
  let info := parseItems reader info in
  let info := parseLocations reader info in
  let info := parseEntrances reader info in
  Ok info.

(** ** Facts *)

(** A reader whose files can be read or not, without a panic. *)
Definition reader_ok (reader : Reader) : Prop := ∀ name, returns (reader name).

Lemma dec_version_total : dec_total dec_version.
Proof. apply dec_struct_total. total_fields. Qed.

Lemma dec_manifest_total {w} name key sym : dec_total (@dec_manifest w name key sym).
Proof.
  assert (Forall field_total (@entry_fields w key sym)) by total_fields.
  apply dec_struct_total. total_fields.
Qed.

Lemma dec_rawMetaFile_total : dec_total dec_rawMetaFile.
Proof.
  assert (Forall field_total meta_fields) by total_fields.
  apply dec_struct_total. total_fields.
Qed.

Lemma hex_DecodeString_returns s : returns (hex_DecodeString s).
Proof. by destruct (hex_DecodeString_cases s) as [(d & -> & _)| ->]. Qed.

Lemma manifest_returns {w} reader file name key sym :
  reader_ok reader → returns (@manifest w reader file name key sym).
Proof.
  intros Hr. unfold manifest. apply res_bind_returns; [apply Hr|]. intros data _.
  apply res_bind_returns; [apply Unmarshal_returns, dec_version_total|]. intros v _.
  case_decide; [done|]. apply Unmarshal_returns, dec_manifest_total.
Qed.

Lemma ExtractGameInfo_returns opened :
  (∀ reader, opened = Ok reader → reader_ok reader) → returns opened → returns (ExtractGameInfo opened).
Proof.
  intros Hr Ho. unfold ExtractGameInfo. apply res_bind_returns; [done|]. intros reader Hreader.
  apply res_bind_returns; [by apply Hr|]. intros data _.
  apply res_bind_returns; [apply Unmarshal_returns, dec_rawMetaFile_total|]. intros m _.
  apply res_bind_returns; [apply hex_DecodeString_returns|]. intros id _. case_decide; [done|].
  apply res_bind_returns; [apply hex_DecodeString_returns|]. intros secret _. case_decide; [done|].
  apply res_bind_returns; [|done]. unfold parse_mode. by repeat case_decide.
Qed.

(** Later entries win. *)
Lemma add_entries_map {K} `{Countable K} (entries : list (K * bytes)) :
  add_entries entries ∅ = list_to_map (reverse entries).
Proof.
  unfold add_entries. induction entries as [|e entries IH] using rev_ind; [done|].
  rewrite foldl_app, IH, reverse_snoc. by destruct e.
Qed.

(** The names a manifest gives: none when the file is missing, malformed or of
    another version. *)
Definition names {w} (m : res (list (uint w * bytes))) : gmap (uint w) bytes :=
  match m with Ok l => list_to_map (reverse l) | _ => ∅ end.

Definition item_names (reader : Reader) : gmap u16 bytes :=
  names (manifest reader (str "manifests/items.json") "items" "id" "sym").
Definition location_names (reader : Reader) : gmap u32 bytes :=
  names (manifest reader (str "manifests/locations.json") "locations" "key" "location").
Definition entrance_names (reader : Reader) : gmap u32 bytes :=
  names (manifest reader (str "manifests/entrances.json") "entrances" "key" "sym").

Lemma parse_names reader id secret world mode :
  parseEntrances reader (parseLocations reader (parseItems reader (MkInfo id secret world mode ∅ ∅ ∅)))
  = MkInfo id secret world mode (item_names reader) (location_names reader) (entrance_names reader).
Proof.
  unfold parseEntrances, parseLocations, parseItems, item_names, location_names, entrance_names, names.
  destruct (manifest reader (str "manifests/items.json") _ _ _);
    destruct (manifest reader (str "manifests/locations.json") _ _ _);
    destruct (manifest reader (str "manifests/entrances.json") _ _ _);
    unfold set_i_Items, set_i_Locations, set_i_Entrances; cbn [i_SessionID i_SessionSecret i_WorldID i_Mode
      i_Items i_Locations i_Entrances]; by rewrite ?add_entries_map.
Qed.

Lemma parse_mode_Ok s mode :
  parse_mode s = Ok mode ↔
  (s = str "single" ∧ mode = InfoModeSingle) ∨ (s = str "coop" ∧ mode = InfoModeCoop)
  ∨ (s = str "multi" ∧ mode = InfoModeMulti).
Proof.
  assert (str "coop" ≠ str "single" ∧ str "multi" ≠ str "single" ∧ str "multi" ≠ str "coop") as (H1 & H2 & H3)
    by (split_and!; by_compute).
  unfold parse_mode. split.
  - repeat case_decide; intros; simplify_eq; auto.
  - intros [[-> ->]|[[-> ->]|[-> ->]]].
    + done.
    + rewrite decide_False by done. done.
    + rewrite decide_False by done. rewrite decide_False by done. done.
Qed.

(** ** Properties *)

(** C37: what a patch file is taken for.  On any archive, whatever its files
    hold, [ExtractGameInfo] returns, with an error or an [Info].  It accepts an
    archive exactly when [meta.json] is JSON of the right types whose two IDs are
    the hexadecimal of 16 and 8 bytes and whose mode is one of the three; the
    [Info] has these IDs, this mode and world.  The names are those of the
    manifests of version 1, the last entry of a key winning; a manifest that is
    missing, malformed or of another version gives no names and spoils nothing
    else. *)
Theorem extract_game_info opened reader info :
  (∀ reader, opened = Ok reader → reader_ok reader) → returns opened →
  returns (ExtractGameInfo opened)
  ∧ (opened = Ok reader →
     (ExtractGameInfo opened = Ok info ↔
      ∃ data meta, reader (str "meta.json") = Ok data
      ∧ Unmarshal dec_rawMetaFile zero_rawMeta data = Ok meta
      ∧ hex_DecodeString (rm_SessionID meta) = Ok (vec_to_list (i_SessionID info))
      ∧ hex_DecodeString (rm_SessionSecret meta) = Ok (vec_to_list (i_SessionSecret info))
      ∧ parse_mode (rm_Mode meta) = Ok (i_Mode info) ∧ i_WorldID info = rm_WorldID meta
      ∧ i_Items info = item_names reader ∧ i_Locations info = location_names reader
      ∧ i_Entrances info = entrance_names reader)).
Proof.
  intros Hr Ho. split; [by apply ExtractGameInfo_returns|]. intros ->. unfold ExtractGameInfo.
  rewrite res_bind_ok. split.
  - intros (data & Hd & (meta & Hm & (id & Hid & H)%res_bind_Ok_inv)%res_bind_Ok_inv)%res_bind_Ok_inv.
    case_decide as Hl; [done|].
    apply res_bind_Ok_inv in H as (secret & Hs & H). case_decide as Hl2; [done|].
    apply res_bind_Ok_inv in H as (mode & Hmode & H). cbv zeta in H. rewrite parse_names in H.
    apply Ok_inj in H as <-. exists data, meta.
    split_and!; [done|done| | |done..]; cbn [i_SessionID i_SessionSecret]; by rewrite arr_of_list.
  - intros (data & meta & -> & Hm & Hid & Hs & Hmode & Hw & Hi & Hl & He).
    rewrite res_bind_ok, Hm, res_bind_ok, Hid, res_bind_ok.
    rewrite decide_False by (rewrite length_vec_to_list; auto). rewrite Hs, res_bind_ok.
    rewrite decide_False by (rewrite length_vec_to_list; auto). rewrite Hmode, res_bind_ok.
    cbv zeta. rewrite parse_names. rewrite !arr_of_vec, <- Hw, <- Hi, <- Hl, <- He. by destruct info.
Qed.

(** A text with apostrophes for the quotation marks of JSON. *)
Definition quoted (s : string) : bytes :=
  (λ b, if decide (b = U8 39) then quote else b) <$> str s.

Definition ex_meta : bytes :=
  quoted "{'meta': {'sessionId': '000102030405060708090a0b0c0d0e0F', 'SESSIONSECRET': '0001020304050607', 'worldId': 3, 'mode': 'coop', 'seed': [1, 2.5e3, null]}}".

Definition ex_rawMeta : rawMeta :=
  MkRawMeta (str "000102030405060708090a0b0c0d0e0F") (str "0001020304050607") (U8 3) (str "coop").

(** A patch with its metadata, one good manifest with a repeated key, one that
    is not JSON and one of another version. *)
Definition ex_reader : Reader := λ name,
  if decide (name = str "meta.json") then Ok ex_meta
  else if decide (name = str "manifests/items.json") then
    Ok (quoted "{'version': 1, 'items': [{'id': 5, 'sym': 'BOW'}, {'id': 5, 'sym': 'H\u0041MMER'}, {'id': 6}]}")
  else if decide (name = str "manifests/locations.json") then Ok (quoted "{'version': 1,}")
  else if decide (name = str "manifests/entrances.json") then
    Ok (quoted "{'version': 2, 'entrances': [{'key': 1, 'sym': 'X'}]}")
  else Err (Errorf "file does not exist").

Definition ex_patch_info : Info :=
  MkInfo (arr_of 16 (U8 <$> [0; 1; 2; 3; 4; 5; 6; 7; 8; 9; 10; 11; 12; 13; 14; 15]%Z))
    (arr_of 8 (U8 <$> [0; 1; 2; 3; 4; 5; 6; 7]%Z)) (U8 3) InfoModeCoop
    {[U16 5 := str "HAMMER"; U16 6 := []]} ∅ ∅.

#[local] Instance rawMeta_eq_dec : EqDecision rawMeta.
Proof. solve_decision. Defined.

Lemma extract_game_info_witness :
  returns (ExtractGameInfo (Ok ex_reader)) ∧ ExtractGameInfo (Ok ex_reader) = Ok ex_patch_info.
Proof.
  assert (∀ reader, Ok ex_reader = Ok reader → reader_ok reader) as Hr.
  { intros reader [= <-] name. unfold ex_reader. repeat case_decide; split; discriminate. }
  assert (returns (Ok ex_reader)) as Ho by (split; discriminate).
  destruct (extract_game_info (Ok ex_reader) ex_reader ex_patch_info Hr Ho) as [H1 H2].
  split; [exact H1|]. apply (H2 eq_refl). exists ex_meta, ex_rawMeta. split_and!; by_compute.
Defined.
