(* ===== verification/ClientRun.v ===== *)
(** * The life of a client session (client/internal/game/session.go, uplink.go)

    [Run] from the start of its goroutines to its return: who cancels the context,
    who waits for whom, and what closes when.  The handlers are those of
    ClientSession.v; the goroutines of one connection to the server are those of
    Uplink.v and appear here as one that works on the session; UplinkRun.v puts the
    real ones in its place. *)

From stdpp Require Import base gmap sets strings vector numbers tactics list relations.
From Stdlib Require Import ZArith Lia.
From S2P Require Import Prelude Words GoIO GoStr WalEntry Packet Wal IpcMsg SendQueue.
From S2P Require Import ClientPorts PositionSystem Daemon ClientSession.

(** ** Program points *)

(** [Run]: after the goroutines are started; [MGroup] waits in [wg.Wait]. *)
Inductive main_pc : Type := MStart | MWait | MPositions | MGroup | MEnd | MEnded | MCrashed.
(** [handleMsgIn] *)
Inductive in_pc : Type := GRead | GPush (msg : ipc.Message) | GStopped.
(** [handleMsgOut] *)
Inductive out_pc : Type := OSelect | OWrite (msg : ipc.Message) | OStopped.
(** [handleMsgLoop] *)
Inductive loop_pc : Type := LSelect | LHandle (msg : ipc.Message) | LStopped.
(** [handleUplink]: the test of the loop, [handleUplinkConn], the pause. *)
Inductive up_pc : Type := UTop | UConn | UPause | UStopped.
(** [handleSendQueue] *)
Inductive queue_pc : Type := QTop | QPause | QStopped.

(** [l_closed]: the connection to the game is closed.  [l_posdone]: the context of
    the position system is cancelled; [l_pos]: its goroutine runs. *)
Record life : Type := MkLife {
  l_s : Session;
  l_closed : bool;
  l_posdone : bool;
  l_pos : bool;
  l_main : main_pc;
  l_in : in_pc;
  l_out : out_pc;
  l_loop : loop_pc;
  l_up : up_pc;
  l_queue : queue_pc;
}.

Definition set_s s l := MkLife s (l_closed l) (l_posdone l) (l_pos l) (l_main l) (l_in l) (l_out l)
  (l_loop l) (l_up l) (l_queue l).
Definition set_closed l := MkLife (l_s l) true (l_posdone l) (l_pos l) (l_main l) (l_in l) (l_out l)
  (l_loop l) (l_up l) (l_queue l).
Definition set_posdone l := MkLife (l_s l) (l_closed l) true (l_pos l) (l_main l) (l_in l) (l_out l)
  (l_loop l) (l_up l) (l_queue l).
Definition stop_pos l := MkLife (l_s l) (l_closed l) (l_posdone l) false (l_main l) (l_in l) (l_out l)
  (l_loop l) (l_up l) (l_queue l).
Definition set_main p l := MkLife (l_s l) (l_closed l) (l_posdone l) (l_pos l) p (l_in l) (l_out l)
  (l_loop l) (l_up l) (l_queue l).
Definition set_in p l := MkLife (l_s l) (l_closed l) (l_posdone l) (l_pos l) (l_main l) p (l_out l)
  (l_loop l) (l_up l) (l_queue l).
Definition set_out p l := MkLife (l_s l) (l_closed l) (l_posdone l) (l_pos l) (l_main l) (l_in l) p
  (l_loop l) (l_up l) (l_queue l).
Definition set_loop p l := MkLife (l_s l) (l_closed l) (l_posdone l) (l_pos l) (l_main l) (l_in l)
  (l_out l) p (l_up l) (l_queue l).
Definition set_up p l := MkLife (l_s l) (l_closed l) (l_posdone l) (l_pos l) (l_main l) (l_in l)
  (l_out l) (l_loop l) p (l_queue l).
Definition set_queue p l := MkLife (l_s l) (l_closed l) (l_posdone l) (l_pos l) (l_main l) (l_in l)
  (l_out l) (l_loop l) (l_up l) p.

(** [s.ctx.Err() != nil] *)
Definition done (l : life) : bool := p_done (s_ports (l_s l)).

(** [s.cancel()] *)
Definition cancel (l : life) : life :=
  let p := s_ports (l_s l) in
  set_s (set_s_ports (MkPorts true (p_picks p) (p_msgOut p) (p_uplinkOut p)) (l_s l)) l.

Definition set_msgIn (c : chan ipc.Message) (s : Session) : Session :=
  MkSession (s_Info s) (s_PlayerID s) (s_PlayerName s) (s_SeqGame s) (s_SeqNet s)
    (s_dataDir s) (s_Conn s) (s_Daemon s) c (s_uplinkIn s) (s_ports s)
    (s_sendQ s) (s_wal s) (s_positions s).

(** [aDaemon.Send] can go on: a send on a full channel waits for [sendLoop]. *)
Definition daemon_ready (s : Session) : bool := chan_ready (pt_chan (s_Daemon s)).

(** What the goroutines of a connection do to the session: not to the context, the
    daemon and the game's connection. *)
Definition uplink_moves (s s' : Session) : Prop :=
  p_done (s_ports s') = p_done (s_ports s) ∧ s_Daemon s' = s_Daemon s ∧ s_Conn s' = s_Conn s
  ∧ s_Info s' = s_Info s.

Definition stopped (l : life) : Prop :=
  l_in l = GStopped ∧ l_out l = OStopped ∧ l_loop l = LStopped ∧ l_up l = UStopped
  ∧ l_queue l = QStopped.

(** The state in which [Run] has started its goroutines. *)
Definition start_life (s : Session) : life :=
  let multi := bool_decide (i_Mode (s_Info s) ≠ InfoModeSingle) in
  MkLife s false false true MStart GRead OSelect LSelect
    (if multi then UTop else UStopped) (if multi then QTop else QStopped).

(** ** Steps of the session *)

Definition handled {A} (r : res A) (l : life) : life :=
  match r with
  | Ok _ => set_loop LSelect l
  | Panic => set_main MCrashed l
  | Err _ | NoFuel => cancel (set_loop LStopped l)
  end.

(** Every goroutine but [handleUplink]. *)
Inductive game_step (l : life) : life → Prop :=
  (* Run *)
  | os_begin ss r :
      l_main l = MStart → daemon_ready (l_s l) = true → Run_begin (l_s l) = (ss, r) →
      game_step l (set_main MWait (set_s ss l))
  | os_cancelled :
      l_main l = MWait → done l = true → game_step l (set_main MPositions (set_posdone l))
  | os_positions :
      l_main l = MPositions → l_pos l = false → game_step l (set_main MGroup (set_closed l))
  | os_group : l_main l = MGroup → stopped l → game_step l (set_main MEnd l)
  | os_end ss r :
      l_main l = MEnd → daemon_ready (l_s l) = true → Run_end (l_s l) = (ss, r) →
      game_step l (set_main MEnded (set_s ss l))
  (* the position system *)
  | os_tick order ss :
      l_pos l = true → on_positions (tick order) (l_s l) = (ss, Ok tt) → game_step l (set_s ss l)
  | os_pos_stop : l_pos l = true → l_posdone l = true → game_step l (stop_pos l)
  (* handleMsgIn *)
  | os_read ss data msg :
      l_in l = GRead → l_closed l = false → on_Conn ipc.Read (l_s l) = (ss, Ok data) →
      ipc.ParseMessage data = Ok msg → game_step l (set_in (GPush msg) (set_s ss l))
  | os_read_err ss r :
      l_in l = GRead → l_closed l = false → on_Conn ipc.Read (l_s l) = (ss, r) →
      ¬ is_Some (match (data ← r; ipc.ParseMessage data) with Ok m => Some m | _ => None end) →
      game_step l (cancel (set_in GStopped (set_s ss l)))
  | os_read_closed :
      l_in l = GRead → l_closed l = true → game_step l (cancel (set_in GStopped l))
  | os_push msg :
      l_in l = GPush msg → chan_ready (s_msgIn (l_s l)) = true →
      game_step l (set_in GRead (set_s (set_msgIn (chan_push msg (s_msgIn (l_s l))) (l_s l)) l))
  | os_in_stop msg :
      l_in l = GPush msg → done l = true → game_step l (cancel (set_in GStopped l))
  (* handleMsgOut *)
  | os_take msg rest :
      l_out l = OSelect → ch_buf (pt_chan (p_msgOut (s_ports (l_s l)))) = msg :: rest →
      game_step l (set_out (OWrite msg) (set_s (set_s_ports
        (set_msgOut (port_take (p_msgOut (s_ports (l_s l)))) (s_ports (l_s l))) (l_s l)) l))
  | os_write msg ss r :
      l_out l = OWrite msg → l_closed l = false → msg_out msg (l_s l) = (ss, r) →
      game_step l (if is_ok r then set_out OSelect (set_s ss l)
                  else cancel (set_out OStopped (set_s ss l)))
  | os_write_closed msg :
      l_out l = OWrite msg → l_closed l = true →
      game_step l (cancel (set_out OStopped
        (set_s (set_s_SeqNet (uincr (s_SeqNet (l_s l))) (l_s l)) l)))
  | os_out_stop :
      l_out l = OSelect → done l = true → game_step l (cancel (set_out OStopped l))
  (* handleMsgLoop: a handler that sends to the daemon waits for it *)
  | os_msg msg rest :
      l_loop l = LSelect → ch_buf (s_msgIn (l_s l)) = msg :: rest →
      game_step l (set_loop (LHandle msg)
        (set_s (set_msgIn (Chan (ch_cap (s_msgIn (l_s l))) rest) (l_s l)) l))
  | os_handle msg nonce ss r :
      l_loop l = LHandle msg → handleMsg nonce msg (l_s l) = (ss, r) →
      daemon_ready (l_s l) = true ∨ s_Daemon ss = s_Daemon (l_s l) →
      game_step l (handled r (set_s ss l))
  | os_loop_stop :
      l_loop l = LSelect → done l = true → game_step l (cancel (set_loop LStopped l))
  (* handleSendQueue *)
  | os_round ss r :
      l_queue l = QTop → done l = false → send_queue_round (l_s l) = (ss, r) →
      game_step l (if is_ok r then set_queue QPause (set_s ss l)
                  else cancel (set_queue QStopped (set_s ss l)))
  | os_queue_resume : l_queue l = QPause → game_step l (set_queue QTop l)
  | os_queue_stop :
      l_queue l = QTop ∨ l_queue l = QPause → done l = true →
      game_step l (cancel (set_queue QStopped l)).

(** [handleUplink], with a connection as a goroutine that works on the session. *)
Inductive up_step (l : life) : life → Prop :=
  | os_up_conn : l_up l = UTop → done l = false → up_step l (set_up UConn l)
  | os_up_work ss :
      l_up l = UConn → uplink_moves (l_s l) ss → up_step l (set_s ss l)
  | os_up_return :
      l_up l = UConn → up_step l (set_up (if done l then UTop else UPause) l)
  | os_up_resume : l_up l = UPause → up_step l (set_up UTop l)
  | os_up_stop : l_up l = UTop → done l = true → up_step l (set_up UStopped l).

Inductive own_step (l l' : life) : Prop :=
  | os_game : game_step l l' → own_step l l'
  | os_uplink : up_step l l' → own_step l l'.

(** The others: [sendLoop] takes a message, the user interrupts the client. *)
Inductive env_step (l : life) : life → Prop :=
  | es_daemon : env_step l (set_s (set_s_Daemon (port_take (s_Daemon (l_s l))) (l_s l)) l)
  | es_interrupt : env_step l (cancel l).

Definition life_step (l l' : life) : Prop :=
  l_main l ≠ MEnded ∧ l_main l ≠ MCrashed ∧ (own_step l l' ∨ env_step l l').

Definition life_reach (s : Session) : life → Prop := rtc life_step (start_life s).

(** ** The context stays cancelled *)

Definition keeps_done {A} (m : M Session A) : Prop := keeps (λ s, p_done (s_ports s)) m.

Lemma keeps_shape_done {A} (m : M Session A) : keeps shape m → keeps_done m.
Proof. intros Hm s. specialize (Hm s). unfold shape in Hm. by injection Hm. Qed.

Lemma send_pending_done ds : keeps_done (send_pending ds).
Proof.
  unfold keeps_done. assert (∀ p, keeps_done (on_ports (SendUplink p))) as Hu
    by (intros p; apply keeps_shape_done, keeps_shape_ports, SendUplink_ports).
  induction ds as [|d ds IH]; cbn [send_pending]; [solve_keeps|].
  apply keeps_bind; [by apply keeps_pure|]. intros _. apply keeps_bind; [apply Hu|]. done.
Qed.

Lemma send_queue_round_done : keeps_done send_queue_round.
Proof. intros s. unfold send_queue_round. destruct (s_sendQ s); [apply send_pending_done|done]. Qed.

Lemma Run_end_done : keeps_done Run_end.
Proof.
  unfold keeps_done, Run_end, on_Daemon, on_wal. set (f := λ s, _).
  assert (∀ A (m : M SendQueue A), keeps f (on_sendQ m)) by (intros; by apply keeps_sendQ).
  solve_keeps. destruct (s_sendQ _); solve_keeps.
Qed.

Lemma run_ports {A} (m : M Session A) s ss r :
  keeps_done m → m s = (ss, r) → p_done (s_ports ss) = p_done (s_ports s).
Proof. intros Hm H. specialize (Hm s). by rewrite H in Hm. Qed.

Lemma on_Conn_done {A} (m : M conn A) : keeps_done (on_Conn m).
Proof. unfold keeps_done, on_Conn. solve_keeps. Qed.

Lemma msg_out_done msg : keeps_done (msg_out msg).
Proof.
  unfold keeps_done, msg_out. set (f := λ s, _).
  assert (∀ n, keeps f (modify (set_s_SeqNet n))) by done.
  assert (∀ A (m : M conn A), keeps f (on_Conn m)) by (intros; apply on_Conn_done). solve_keeps.
Qed.

Lemma own_step_done l l' : done l = true → own_step l l' → done l' = true.
Proof.
  intros Hd Hs. unfold done in *.
  destruct Hs as [Hs|Hs]; [|destruct Hs as [|ss _ (H & _)| | |]; try done; simpl; by rewrite H].
  destruct Hs as [ss r _ _ H| | | |ss r _ _ H|order ss _ H| |ss data msg _ _ H _|ss r _ _ H _| | | |
    |msg ss r _ _ H| | | |msg nonce ss r _ H _| |ss r _ _ H| |]; try done; simpl.
  - unfold Run_begin in H. by injection H as <- _.
  - by rewrite (run_ports _ _ _ _ Run_end_done H).
  - by rewrite (run_ports _ _ _ _ (keeps_shape_done _ (tick_shape order)) H).
  - by rewrite (run_ports _ _ _ _ (on_Conn_done ipc.Read) H).
  - destruct (is_ok r); simpl; [|done]. by rewrite (run_ports _ _ _ _ (msg_out_done msg) H).
  - apply (run_ports _ _ _ _ (keeps_shape_done _ (handleMsg_shape nonce msg))) in H.
    destruct r; simpl; congruence.
  - destruct (is_ok r); simpl; [|done]. by rewrite (run_ports _ _ _ _ send_queue_round_done H).
Qed.

(** ** The invariant *)

(** How far [Run] got. *)
Definition phase (m : main_pc) : nat :=
  match m with
  | MStart | MCrashed => 0 | MWait => 1 | MPositions => 2 | MGroup => 3 | MEnd => 4 | MEnded => 5
  end.

(** The contexts of the log and the queue are cancelled, their files closed. *)
Definition files_closed (s : Session) : Prop :=
  w_done (s_wal s) = true ∧ f_closed (w_file (s_wal s)) = true
  ∧ ∀ q, s_sendQ s = Some q → q_done q = true ∧ f_closed (q_file q) = true.

Record life_inv (s0 : Session) (l : life) : Prop := {
  li_in : l_in l = GStopped ∨ l_out l = OStopped ∨ l_loop l = LStopped → done l = true;
  li_multi : i_Mode (s_Info s0) ≠ InfoModeSingle →
    l_up l = UStopped ∨ l_queue l = QStopped → done l = true;
  li_main : 2 ≤ phase (l_main l) → done l = true ∧ l_posdone l = true;
  li_closed : 3 ≤ phase (l_main l) → l_closed l = true ∧ l_pos l = false;
  li_end : 4 ≤ phase (l_main l) → stopped l;
  li_files : l_main l = MEnded →
    files_closed (l_s l)
    ∧ last (pt_sent (s_Daemon (l_s l))) = Some game_end_msg;
}.

Lemma life_step_done l l' : done l = true → life_step l l' → done l' = true.
Proof.
  intros Hd (_ & _ & [Hs|[]]); [by eapply own_step_done|done|done].
Qed.

(** [Run_end] closes the files and tells the daemon. *)
Lemma Wal_Close_done w :
  w_done (fst (Wal.Close w)) = true ∧ f_closed (w_file (fst (Wal.Close w))) = true
  ∧ returns (snd (Wal.Close w)).
Proof.
  unfold Wal.Close, on_file, zoom, mbind, M_bind, modify. cbn [w_file].
  by destruct (file_close_cases (w_file w)) as (s & r & -> & ?).
Qed.

Lemma sq_Close_done q : q_done (fst (sq_Close q)) = true ∧ f_closed (q_file (fst (sq_Close q))) = true.
Proof.
  unfold sq_Close, mbind, M_bind, modify, on_qfile, ignore, zoom. cbn [q_file].
  by destruct (file_close_cases (q_file q)) as (s & [] & -> & _).
Qed.

Lemma Run_end_files s ss r :
  Run_end s = (ss, r) →
  files_closed ss ∧ last (pt_sent (s_Daemon ss)) = Some game_end_msg.
Proof.
  unfold Run_end, mbind, M_bind, on_Daemon, daemon.Send, modify, ignore, on_wal, gets, zoom.
  cbn [s_Daemon s_wal set_s_Daemon]. destruct (Wal_Close_done (s_wal s)) as (Hw & Hc & Hp & Hf).
  destruct (Wal.Close (s_wal s)) as [w r0]. simpl in Hw, Hc, Hp, Hf.
  assert (last (pt_sent (port_send game_end_msg (s_Daemon s))) = Some game_end_msg) as Hl
    by (by rewrite pt_sent_send, last_snoc).
  destruct r0 as [[]|e| |]; [| |done..]; cbn [s_sendQ set_s_wal set_s_Daemon];
    (destruct (s_sendQ s) as [q|] eqn:Hq;
     [rewrite (on_sendQ_some _ _ q) by done; pose proof (sq_Close_done q)|]); intros [= <- _];
    (split; [|done]); (split; [done|]); (split; [done|]); cbn; intros q' Hq'; by simplify_eq.
Qed.

Lemma life_inv_start s : life_inv s (start_life s).
Proof.
  unfold start_life. split; simpl; try lia; [naive_solver| |done].
  intros Hm. rewrite bool_decide_true by done. naive_solver.
Qed.

(** The session changed, [Run] and the goroutines did not. *)
Definition same_points (l l' : life) : Prop :=
  l_main l' = l_main l ∧ l_closed l' = l_closed l ∧ l_posdone l' = l_posdone l ∧ l_pos l' = l_pos l
  ∧ l_in l' = l_in l ∧ l_out l' = l_out l ∧ l_loop l' = l_loop l ∧ l_up l' = l_up l
  ∧ l_queue l' = l_queue l.

Lemma life_inv_same s0 l l' :
  life_inv s0 l → l_main l ≠ MEnded → (done l = true → done l' = true) → same_points l l' →
  life_inv s0 l'.
Proof.
  intros [H1 H2 H3 H4 H5 H6] Hm Hd (Em & Ec & Ep & Eo & Ei & Eu & El & Ea & Eq). unfold stopped in *.
  split; unfold stopped; rewrite ?Em, ?Ec, ?Ep, ?Eo, ?Ei, ?Eu, ?El, ?Ea, ?Eq; try naive_solver.
Qed.

(** A goroutine moved, [Run] did not get to its end. *)
Lemma life_inv_moved s0 l l' :
  life_inv s0 l → phase (l_main l) < 4 → (done l = true → done l' = true) →
  l_main l' = l_main l → l_closed l' = l_closed l → l_posdone l' = l_posdone l → l_pos l' = l_pos l →
  (l_in l' = GStopped ∨ l_out l' = OStopped ∨ l_loop l' = LStopped → done l' = true) →
  (i_Mode (s_Info s0) ≠ InfoModeSingle → l_up l' = UStopped ∨ l_queue l' = QStopped → done l' = true) →
  life_inv s0 l'.
Proof.
  intros [H1 H2 H3 H4 H5 H6] Hph Hd Em Ec Ep Eo Hi Hm.
  split; rewrite ?Em, ?Ec, ?Ep, ?Eo; [done|done|naive_solver|naive_solver|lia|].
  intros E. rewrite E in Hph. simpl in Hph. lia.
Qed.

(** Past [wg.Wait] no goroutine is left that could move. *)
Lemma not_stopped_early s0 l :
  life_inv s0 l → ¬ stopped l → phase (l_main l) < 4.
Proof. intros Hi Hs. destruct (decide (phase (l_main l) < 4)); [done|]. destruct Hs. apply (li_end _ _ Hi). lia. Qed.

Ltac moved s0 l Hi Hd :=
  apply (life_inv_moved s0 l);
    [exact Hi
    |eapply not_stopped_early; [exact Hi|]; unfold stopped; intros ?; destruct_and?; naive_solver congruence
    |exact Hd|by repeat case_match..|simpl; intros|simpl; intros];
    repeat case_match; first [reflexivity|assumption|naive_solver].

Lemma own_step_inv s0 l l' : l_main l ≠ MEnded → life_inv s0 l → own_step l l' → life_inv s0 l'.
Proof.
  intros Hne Hi Hs.
  assert (done l = true → done l' = true) as Hd by (intros; by eapply own_step_done).
  pose proof Hi as [H1 H2 H3 H4 H5 H6].
  destruct Hs as [Hs|Hs]; destruct Hs.
  7: { split; simpl; [exact H1|exact H2|exact H3|intros Hp; destruct (H4 Hp); done|exact H5|exact H6]. }
  all: try (match goal with
    | |- life_inv _ (set_s _ _) => apply (life_inv_same s0 l); [done..|by repeat split]
    | |- life_inv _ (set_main _ _) => idtac
    | |- life_inv _ (handled ?r _) => idtac
    | _ => moved s0 l Hi Hd
    end).
  1-5: match goal with H : l_main ?x = _ |- _ => rewrite H in H3, H4, H5; simpl in H3, H4, H5 end.
  - split; simpl; [auto|auto|lia..|done].
  - split; simpl; [done|done|done|lia..|done].
  - destruct H3 as [? ?]; [lia|]. split; simpl; [done|done|done|done|lia|done].
  - split; simpl; [done|done|intros _; apply H3; lia|intros _; apply H4; lia|done|done].
  - split; simpl; [auto|auto|intros _; destruct H3; [lia|]; auto|intros _; apply H4; lia
      |intros _; apply H5; lia|intros _; by eapply Run_end_files].
  - assert (phase (l_main l) < 4) as Hp
      by (eapply not_stopped_early; [exact Hi|]; unfold stopped; intros ?; destruct_and?; congruence).
    destruct r; [moved s0 l Hi Hd|moved s0 l Hi Hd| |moved s0 l Hi Hd].
    split; simpl in *; [auto|auto|lia..|done].
Qed.

Lemma life_inv_reach s l : life_reach s l → life_inv s l.
Proof.
  apply (rtc_ind_r (R := life_step) (life_inv s)); [apply life_inv_start|].
  intros y z _ (Hne & _ & Hs) Hy. destruct Hs as [Hs|Hs]; [by eapply own_step_inv|].
  apply (life_inv_same s y); [done|done| |by destruct Hs].
  intros Hd. by destruct Hs.
Qed.

(** ** The way to the end *)

(** A handler sends at most one message to the daemon. *)
Lemma dispatch_daemon nonce msg s :
  s_Daemon (fst (dispatch nonce msg s)) = s_Daemon s
  ∨ ∃ m, s_Daemon (fst (dispatch nonce msg s)) = port_send m (s_Daemon s).
Proof.
  unfold dispatch, mbind at 1, M_bind at 1, gets.
  assert (∀ A (m : M SendQueue A), keeps s_Daemon (on_sendQ m)) by (intros; by apply keeps_sendQ).
  assert (∀ i, keeps s_Daemon (sendGameWal i))
    by (intros i; apply sendGameWal_keeps; intros m; by apply keeps_zoom).
  assert (∀ w, keeps s_Daemon (handleWalIn nonce w))
    by (intros w; unfold handleWalIn, newWalEntry; solve_keeps).
  assert (∀ A (r : res A) (k : A → M Session unit),
    (∀ a, keeps s_Daemon (k a)) → s_Daemon (fst ((a ← lift r; k a) s)) = s_Daemon s) as Hk.
  { intros A r k Hk. apply keeps_bind; [by apply keeps_pure|done]. }
  case_decide; [by left|].
  case_decide; [left; apply Hk; intros w; solve_keeps|].
  case_decide; [left; case_decide; [done|]; by apply Hk|].
  case_decide; [left; apply Hk; intros m; solve_keeps|].
  case_decide; [|case_decide; [|by left]].
  - unfold mbind, M_bind, lift. destruct (ipc.ParseMessageBodyInfoItem _); [|by left..]. right. by eexists.
  - unfold mbind, M_bind, lift. destruct (ipc.ParseMessageBodyInfoEntrance _); [|by left..]. right. by eexists.
Qed.

Lemma handleMsg_daemon nonce msg s :
  s_Daemon (fst (handleMsg nonce msg s)) = s_Daemon s
  ∨ ∃ m, s_Daemon (fst (handleMsg nonce msg s)) = port_send m (s_Daemon s).
Proof.
  unfold handleMsg, mbind, M_bind.
  destruct (decide (ipc.m_Op msg = ipc.OpHello)) as [Hop|Hop];
    [rewrite expectedSeq_hello by done|rewrite expectedSeq_other by done];
    (case_decide; [by left|]); [apply dispatch_daemon|apply (dispatch_daemon nonce msg (set_s_SeqGame _ s))].
Qed.

(** Free places in the channel to the daemon, and messages still to come. *)
Definition room (l : life) : nat :=
  ch_cap (pt_chan (s_Daemon (l_s l))) - length (ch_buf (pt_chan (s_Daemon (l_s l)))).
Definition to_send (l : life) : nat :=
  match l_loop l with LHandle _ => 1 | _ => 0 end
  + match l_main l with MStart => 2 | MEnded | MCrashed => 0 | _ => 1 end.

Definition over (l : life) : Prop := l_main l = MEnded ∨ l_main l = MCrashed.

(** Steps to the end. *)
Definition left_over (l : life) : nat :=
  match l_main l with
  | MStart => 5 | MWait => 4 | MPositions => 3 | MGroup => 2 | MEnd => 1 | MEnded | MCrashed => 0
  end
  + (if l_pos l then 1 else 0)
  + match l_in l with GStopped => 0 | _ => 1 end
  + match l_out l with OStopped => 0 | _ => 1 end
  + match l_loop l with LHandle _ => 2 | LSelect => 1 | LStopped => 0 end
  + match l_up l with UConn => 3 | UPause => 2 | UTop => 1 | UStopped => 0 end
  + match l_queue l with QStopped => 0 | _ => 1 end.

(** No message is being handled, and the client did not crash. *)
Definition calm (l : life) : Prop := (∀ msg, l_loop l ≠ LHandle msg) ∧ l_main l ≠ MCrashed.

Definition closer (l l' : life) : Prop :=
  own_step l l' ∧ left_over l' < left_over l ∧ (over l' ∨ to_send l' ≤ room l')
  ∧ (calm l → calm l').

Lemma room_ready l : 1 ≤ room l → daemon_ready (l_s l) = true.
Proof. unfold room, daemon_ready, chan_ready. intros H. apply Nat.ltb_lt. lia. Qed.

Lemma room_send m l s' :
  1 ≤ room l → s_Daemon s' = port_send m (s_Daemon (l_s l)) → S (room (set_s s' l)) = room l.
Proof.
  intros Hr Hs. pose proof (room_ready l Hr) as Hc. unfold daemon_ready in Hc.
  unfold room in *. simpl. rewrite Hs. unfold port_send. rewrite Hc. simpl. rewrite length_app. simpl. lia.
Qed.

(** While the session stays as it is. *)
Lemma closer_same l l' :
  own_step l l' → to_send l ≤ room l → s_Daemon (l_s l') = s_Daemon (l_s l) →
  l_loop l' = l_loop l ∨ l_loop l' = LStopped → l_main l' = l_main l ∨ l_main l' ≠ MCrashed →
  left_over l' < left_over l → to_send l' ≤ to_send l → closer l l'.
Proof.
  intros Hs Hr Hd Hlp Hm Hl Ht. split_and!; [done|done| |].
  - right. unfold room in *. rewrite Hd. lia.
  - intros [Hc1 Hc2]. split; [|by destruct Hm as [->|]].
    intros msg. by destruct Hlp as [->| ->].
Qed.

Lemma loop_closer l :
  done l = true → to_send l ≤ room l → l_loop l ≠ LStopped → l_main l = MGroup → ∃ l', closer l l'.
Proof.
  intros Hd Hr Hl Hm. destruct (l_loop l) as [|msg|] eqn:El; [| |done].
  - exists (cancel (set_loop LStopped l)). apply closer_same; [by apply os_game, os_loop_stop|done|done|by right|by left|..];
      unfold left_over, to_send; simpl; rewrite El; lia.
  - assert (2 ≤ room l) as Hr2 by (unfold to_send in Hr; by rewrite El, Hm in Hr).
    destruct (handleMsg (arr_of 4 []) msg (l_s l)) as [ss r] eqn:Eh.
    exists (handled r (set_s ss l)). split_and!.
    + eapply os_game, os_handle; [exact El|exact Eh|]. left. apply room_ready. lia.
    + unfold left_over. destruct r; simpl; rewrite ?El, ?Hm; lia.
    + destruct (decide (r = Panic)) as [->|Hp]; [by left; right|]. right.
      assert (to_send (handled r (set_s ss l)) = 1 ∧ room (handled r (set_s ss l)) = room (set_s ss l))
        as [-> ->] by (unfold to_send; destruct r; simpl; rewrite ?Hm; done).
      pose proof (handleMsg_daemon (arr_of 4 []) msg (l_s l)) as Hs. rewrite Eh in Hs. simpl in Hs.
      destruct Hs as [Hs|[m Hs]]; [unfold room in *; simpl; rewrite Hs; lia|].
      pose proof (room_send m l ss ltac:(lia) Hs). lia.
    + intros [Hcalm _]. by destruct (Hcalm msg).
Qed.

Ltac closer_by c :=
  eexists; apply closer_same; [first [apply os_game; eapply c; by eauto|apply os_uplink; eapply c; by eauto]|done|done|by auto|by auto|..];
  unfold left_over, to_send; simpl;
  repeat match goal with H : ?f ?x = _ |- _ => rewrite H end; lia.

(** In [wg.Wait], with the connection closed, every goroutine finds its way out. *)
Lemma group_closer l :
  done l = true → l_closed l = true → to_send l ≤ room l → l_main l = MGroup → ∃ l', closer l l'.
Proof.
  intros Hd Hc Hr Hm.
  destruct (l_loop l) eqn:El; [apply loop_closer; by rewrite ?El..|].
  destruct (l_in l) eqn:Ei; [closer_by os_read_closed|closer_by os_in_stop|].
  destruct (l_out l) eqn:Eo; [closer_by os_out_stop|closer_by os_write_closed|].
  destruct (l_up l) eqn:Eu; [closer_by os_up_stop| |closer_by os_up_resume|].
  { exists (set_up UTop l). apply closer_same; [|done|done|by left|by left|..].
    - pose proof (os_up_return l Eu) as H. rewrite Hd in H. by apply os_uplink.
    - unfold left_over; simpl; rewrite Eu; lia.
    - done. }
  destruct (l_queue l) eqn:Eq; [closer_by os_queue_stop|closer_by os_queue_stop|].
  closer_by os_group.
Qed.

Lemma life_closer s0 l :
  life_inv s0 l → done l = true → to_send l ≤ room l → ¬ over l → ∃ l', closer l l'.
Proof.
  intros Hi Hd Hr Ho. destruct (l_main l) eqn:Em.
  - destruct (Run_begin (l_s l)) as [ss r] eqn:Eb. exists (set_main MWait (set_s ss l)).
    assert (2 ≤ to_send l) as H2 by (unfold to_send; rewrite Em; lia).
    assert (S (room (set_s ss l)) = room l) as Hroom.
    { apply (room_send (game_start_msg (l_s l))); [lia|]. unfold Run_begin in Eb. by injection Eb as <- _. }
    split_and!.
    + eapply os_game, os_begin; [done|apply room_ready; lia|exact Eb].
    + unfold left_over. simpl. rewrite Em. lia.
    + right. change (room (set_main MWait (set_s ss l))) with (room (set_s ss l)).
      unfold to_send in *. simpl. rewrite Em in Hr. lia.
    + by intros [Hc _].
  - closer_by os_cancelled.
  - destruct (l_pos l) eqn:Ep; [|closer_by os_positions].
    assert (l_posdone l = true) by (apply (li_main _ _ Hi); rewrite Em; simpl; lia). closer_by os_pos_stop.
  - apply group_closer; [done| |done|done]. apply (li_closed _ _ Hi). rewrite Em. simpl. lia.
  - destruct (Run_end (l_s l)) as [ss r] eqn:Ee. exists (set_main MEnded (set_s ss l)). split_and!.
    + eapply os_game, os_end; [done| |exact Ee]. apply room_ready. unfold to_send in Hr. rewrite Em in Hr. lia.
    + unfold left_over. simpl. rewrite Em. lia.
    + left. by left.
    + by intros [Hc _].
  - destruct Ho. by left.
  - destruct Ho. by right.
Qed.

Lemma not_over l : ¬ over l → l_main l ≠ MEnded ∧ l_main l ≠ MCrashed.
Proof. intros H. split; intros Hm; apply H; [by left|by right]. Qed.

Lemma over_or_not l : over l ∨ ¬ over l.
Proof. unfold over. destruct (l_main l); auto; by right; intros []. Qed.

(** The session by itself. *)
Definition alone (l l' : life) : Prop := ¬ over l ∧ own_step l l'.

Lemma ends_alone s0 l :
  life_inv s0 l → done l = true → over l ∨ to_send l ≤ room l →
  ∃ l', rtc alone l l' ∧ over l' ∧ (calm l → l_main l' = MEnded).
Proof.
  remember (left_over l) as n eqn:Hn. revert l Hn. induction (lt_wf n) as [n _ IH]. intros l -> Hi Hd Hr.
  destruct (over_or_not l) as [Ho|Ho].
  { exists l. split_and!; [apply rtc_refl|done|]. intros [_ Hc]. by destruct Ho. }
  destruct Hr as [|Hr]; [done|].
  destruct (life_closer s0 l Hi Hd Hr Ho) as (l1 & Hs & Hlt & Hr1 & Hc).
  destruct (IH (left_over l1) Hlt l1) as (l' & Hl' & Ho' & Hc'); [done| |by eapply own_step_done|done|].
  { eapply own_step_inv; [|exact Hi|exact Hs]. intros Hm. apply Ho. by left. }
  exists l'. split_and!; [by apply (rtc_l _ _ l1)|done|auto].
Qed.

(** *** Crashes *)

(** The client crashed, or the message at work makes it crash. *)
Definition crashing (l : life) : Prop :=
  l_main l = MCrashed
  ∨ ∃ nonce msg, l_loop l = LHandle msg ∧ snd (handleMsg nonce msg (l_s l)) = Panic.

Lemma crashing_info l :
  session_wf (l_s l) → crashing l →
  l_main l = MCrashed ∨ ∃ msg, l_loop l = LHandle msg ∧ six_byte_info msg.
Proof.
  intros Hw [Hm|(nonce & msg & Hl & Hp)]; [by left|right]. exists msg. split; [done|].
  pose proof (handleMsg_panics nonce msg (l_s l) Hw) as H. destruct (handleMsg nonce msg (l_s l)) as [s r].
  simpl in Hp. subst r. destruct H as ([H _] & _). by apply H.
Qed.

(** The handler at work finishes first. *)
Lemma calms_down s0 l :
  life_inv s0 l → ¬ over l → to_send l ≤ room l → ¬ crashing l →
  ∃ l', (l' = l ∨ game_step l l') ∧ life_inv s0 l' ∧ calm l' ∧ to_send l' ≤ room l'
  ∧ (done l = true → done l' = true).
Proof.
  intros Hi Ho Hr Hc. destruct (l_loop l) as [|msg|] eqn:El.
  1, 3: assert (calm l) by (split; [by rewrite El|intros Hm; apply Hc; by left]);
    exists l; split; [by left|done].
  destruct (handleMsg (arr_of 4 []) msg (l_s l)) as [ss r] eqn:Eh.
  assert (r ≠ Panic) as Hp by (intros ->; apply Hc; right; exists (arr_of 4 []), msg; by rewrite Eh).
  assert (1 ≤ to_send l) as H1 by (unfold to_send; rewrite El; lia).
  assert (game_step l (handled r (set_s ss l))) as Hg
    by (eapply os_handle; [exact El|exact Eh|]; left; apply room_ready; lia).
  pose proof (os_game _ _ Hg) as Hs. exists (handled r (set_s ss l)). split; [by right|]. split; [|split; [|split]].
  - eapply own_step_inv; [|exact Hi|exact Hs]. intros Hm. apply Ho. by left.
  - assert (l_main l ≠ MCrashed) as Hm by (intros Hm; apply Hc; by left). by destruct r.
  - assert (S (to_send (handled r (set_s ss l))) = to_send l
      ∧ room (handled r (set_s ss l)) = room (set_s ss l)) as [Ht ->]
      by (unfold to_send; rewrite El; by destruct r).
    pose proof (handleMsg_daemon (arr_of 4 []) msg (l_s l)) as Hd. rewrite Eh in Hd. simpl in Hd.
    destruct Hd as [Hd|[m Hd]]; [unfold room in *; simpl; rewrite Hd; lia|].
    pose proof (room_send m l ss ltac:(lia) Hd). lia.
  - intros Hd. by eapply own_step_done.
Qed.

(** A cancelled session ends, crashed or not; and not crashed if it is not crashing. *)
Lemma ends_uncrashed s0 l :
  life_inv s0 l → done l = true → over l ∨ to_send l ≤ room l → ¬ crashing l →
  ∃ l', rtc alone l l' ∧ l_main l' = MEnded.
Proof.
  intros Hi Hd Hr Hc. destruct (over_or_not l) as [[Hm|Hm]|Ho];
    [exists l; split; [apply rtc_refl|done]|by destruct Hc; left|]. destruct Hr as [|Hr]; [done|].
  destruct (calms_down s0 l Hi Ho Hr Hc) as (l1 & Hl1 & Hi1 & Hc1 & Hr1 & Hd1).
  destruct (ends_alone s0 l1 Hi1 (Hd1 Hd)) as (l2 & Hl2 & _ & Hm2); [by right|].
  exists l2. split; [|auto]. destruct Hl1 as [->|Hg]; [done|].
  eapply rtc_l; [split; [exact Ho|by apply os_game]|done].
Qed.

Lemma to_send_room l : 3 ≤ room l → to_send l ≤ room l.
Proof. intros H. unfold to_send. destruct (l_loop l), (l_main l); lia. Qed.

(** ** Properties *)

(** C16: how a session ends.  When one of the goroutines that serve the game ends,
    whatever the reason, the context is cancelled; once it is cancelled the session
    can always get to the end of [Run] by itself, from any point of its goroutines,
    if the channel to the daemon has three free places and the client is not crashing:
    no goroutine waits for another for ever.  A client is crashing only if it has
    crashed or the message that it handles panics, which in a well-formed session is an
    INFO_ITEM of six bytes.  When [Run] has ended all goroutines are over, the files
    of the log and the queue and the connection are closed, so that nobody uses them
    after they are closed, and the last message to the daemon is GAME_END.  But the sends to the daemon have no other case: while the
    channel to it is full [Run] does not get past its last message. *)
Theorem session_shutdown s l :
  life_reach s l →
  (l_in l = GStopped ∨ l_out l = OStopped ∨ l_loop l = LStopped → done l = true)
  ∧ (done l = true → 3 ≤ room l → ¬ crashing l → ∃ l', rtc alone l l' ∧ l_main l' = MEnded)
  ∧ (done l = true → 3 ≤ room l → ∃ l', rtc alone l l' ∧ over l')
  ∧ (session_wf (l_s l) → crashing l →
     l_main l = MCrashed ∨ ∃ msg, l_loop l = LHandle msg ∧ six_byte_info msg)
  ∧ (l_main l = MEnded →
     stopped l ∧ l_pos l = false ∧ l_closed l = true
     ∧ w_done (s_wal (l_s l)) = true ∧ f_closed (w_file (s_wal (l_s l))) = true
     ∧ (∀ q, s_sendQ (l_s l) = Some q → q_done q = true ∧ f_closed (q_file q) = true)
     ∧ last (pt_sent (s_Daemon (l_s l))) = Some game_end_msg)
  ∧ (l_main l = MEnd → daemon_ready (l_s l) = false → ∀ l', ¬ own_step l l').
Proof.
  intros Hr. pose proof (life_inv_reach s l Hr) as Hi. split_and!.
  - apply Hi.
  - intros Hd Hroom. apply (ends_uncrashed s); [done|done|]. right. by apply to_send_room.
  - intros Hd Hroom. destruct (ends_alone s l Hi Hd) as (l' & H1 & H2 & _); [|by exists l'].
    right. by apply to_send_room.
  - apply crashing_info.
  - intros Hm. destruct (li_files _ _ Hi Hm) as ((H0 & H1 & H2) & H3).
    destruct (li_closed _ _ Hi) as [H4 H5]; [rewrite Hm; simpl; lia|].
    split_and!; [|done..]. apply (li_end _ _ Hi). rewrite Hm. simpl. lia.
  - intros Hm Hready l' Hs. destruct (li_closed _ _ Hi) as [_ Hp]; [rewrite Hm; simpl; lia|].
    destruct (li_end _ _ Hi) as (Hin & Hout & Hlp & Hup & Hqu); [rewrite Hm; simpl; lia|].
    destruct Hs as [Hs|Hs]; destruct Hs; naive_solver congruence.
Qed.

(** The user interrupts a session that has just started. *)
Lemma session_shutdown_witness :
  done (cancel (start_life ex_session)) = true
  ∧ ∃ l', rtc alone (cancel (start_life ex_session)) l' ∧ l_main l' = MEnded.
Proof.
  split; [reflexivity|].
  destruct (session_shutdown ex_session (cancel (start_life ex_session))) as (_ & H & _).
  - apply rtc_once. split; [discriminate|]. split; [discriminate|]. right. apply es_interrupt.
  - destruct H as (l' & Hl & Hm); [reflexivity| | |exists l'; split; [exact Hl|exact Hm]].
    + apply (bool_decide_unpack _). vm_compute. exact I.
    + intros [Hc|(nonce & msg & Hc & _)]; discriminate Hc.
Defined.
