(* ===== verification/ClientApp.v ===== *)
(** * Finding a game (client/internal/app/app.go, client/internal/ipc)

    The connections that are tried on each platform, the HELLO a game must send, and
    one round of the main loop, over any implementation of the interface [ipc.Conn].
    What a session does after [Run] has started its goroutines is an argument of the
    round; ClientStart.v takes it from ClientRun.v. *)

From stdpp Require Import base gmap sets strings vector numbers tactics list.
From Stdlib Require Import ZArith Lia.
From S2P Require Import Prelude Words GoIO GoStr Project64 WalEntry Packet Wal IpcMsg SendQueue.
From S2P Require Import ClientPorts PositionSystem Daemon ClientSession.

(** ** Sockets *)

(** [strings.HasSuffix] *)
Definition HasSuffix (s suffix : bytes) : bool :=
  bool_decide (length suffix ≤ length s ∧ drop (length s - length suffix) s = suffix).

(** The build tags of platform_unix.go and platform_windows.go. *)
Inductive platform : Type := Unix | Windows.

(** [env] is the value of the environment variable of the platform. *)
Definition getRuntimeDir (p : platform) (env : bytes) : res bytes :=
  if decide (env = []) then Panic
  else Ok match p with Unix => env | Windows => env ++ str "\Temp" end.

(** [readDir] is what [os.ReadDir] answers: the names in the directory. *)
Definition listSockets (p : platform) (env : bytes) (readDir : bytes → res (list bytes)) : res (list bytes) :=
  runtimeDir ← getRuntimeDir p env;
  let dir := runtimeDir ++ str "/n64-ipc" in
  match readDir dir with
  | Ok entries => Ok ((λ name, dir ++ str "/" ++ name) <$> filter (λ name, HasSuffix name (str ".sock")) entries)
  | _ => Ok []
  end.

(** A factory is the path of its socket or pipe. *)
Definition PollUnix (p : platform) (env : bytes) (readDir : bytes → res (list bytes)) : res (list bytes) :=
  sockets ← listSockets p env readDir;
  Ok sockets.

(** [pipes] is what [os.ReadDir] answers for the directory of the pipes of Windows. *)
Definition Poll (p : platform) (env : bytes) (pipes : res (list bytes)) (readDir : bytes → res (list bytes)) :
    res (list bytes) :=
  match p with
  | Unix => PollUnix p env readDir
  | Windows =>
      let pj64 := PollProject64 pipes in
      unix ← PollUnix p env readDir;
      Ok (pj64 ++ unix)
  end.

(** ** The interface of a connection

    What is used of the interface [ipc.Conn] to find a game; the sockets of
    unixsock.go implement it. *)

Class IpcConn (C : Type) := {
  conn_Read : M C bytes;
  conn_Read_total : total conn_Read;
}.

#[export] Program Instance unix_conn : IpcConn conn := {| conn_Read := ipc.Read |}.
Next Obligation. intros c. apply ipc.Read_returns. Qed.

Section app.
Context {C : Type} `{IpcConn C}.

(** ** The HELLO of the game *)

Definition hello : M C ipc.MessageBodyHelloIn :=
  raw ← wrapM "failed to read from connection" conn_Read;
  msg ← lift (wrap_err "failed to parse message" (ipc.ParseMessage raw));
  if decide (ipc.m_Op msg ≠ ipc.OpHello) then fail (Errorf "unexpected operation code") else
  if decide (ipc.m_Seq msg ≠ U32 0) then fail (Errorf "unexpected sequence number") else
  hello ← lift (wrap_err "failed to parse HELLO_IN message body" (ipc.ParseMessageBodyHelloIn (ipc.m_Payload msg)));
  if decide (ipc.hi_Magic hello ≠ hello_magic) then fail (Errorf "unexpected magic") else
  mret hello.

(** ** Polling

    [po_opened] are the sockets that were opened, [po_closed] those closed again,
    both oldest first. *)

Record Polled : Type := MkPolled { po_opened : list bytes; po_closed : list bytes }.

Definition open_socket (path : bytes) : M Polled unit :=
  modify (λ p, MkPolled (po_opened p ++ [path]) (po_closed p)).
Definition close_socket (path : bytes) : M Polled unit :=
  modify (λ p, MkPolled (po_opened p) (po_closed p ++ [path])).

(** [dial] is what the [Open] of a factory answers for its path. *)
Fixpoint poll_loop (dial : bytes → res C) (factories : list bytes) :
    M Polled (option (bytes * C * ipc.MessageBodyHelloIn)) :=
  match factories with
  | [] => mret None
  | factory :: factories =>
      match dial factory with
      | Ok c =>
          open_socket factory;;
          match hello c with
          | (c, Ok h) => mret (Some (factory, c, h))
          | (_, Err _) => close_socket factory;; poll_loop dial factories
          | (_, Panic) => lift Panic
          | (_, NoFuel) => lift NoFuel
          end
      | Err _ => poll_loop dial factories
      | Panic => lift Panic
      | NoFuel => lift NoFuel
      end
  end.

Definition poll (p : platform) (env : bytes) (pipes : res (list bytes))
    (readDir : bytes → res (list bytes)) (dial : bytes → res C) :
    M Polled (option (bytes * C * ipc.MessageBodyHelloIn)) :=
  factories ← lift (Poll p env pipes readDir);
  poll_loop dial factories.

(** ** The main loop

    One round while the context is not cancelled.  [run] is [game.Run] with the
    connection at a path and its HELLO. *)

(** [Refused]: [Run] returned before it started its goroutines; [Played]: it came to
    its end with the session; [Unended]: it did not, since the process crashed or the
    session goes on for ever. *)
Inductive round : Type :=
  | Waited
  | Refused (path : bytes) (e : error)
  | Played (path : bytes) (s : Session)
  | Unended (path : bytes) (s : Session) (crashed : bool).

Definition loop_round (p : platform) (env : bytes) (pipes : res (list bytes))
    (readDir : bytes → res (list bytes)) (dial : bytes → res C)
    (run : bytes → C → ipc.MessageBodyHelloIn → M Polled round) : M Polled round :=
  r ← poll p env pipes readDir dial;
  match r with
  | None => mret Waited
  | Some (path, c, h) => run path c h
  end.

(** [game.Run]: [start] up to the start of its goroutines, which leaves the connection
    as it is when it fails; [play] is the rest, with the session. *)
Definition game_Run (start : C → ipc.MessageBodyHelloIn → res Session)
    (play : bytes → Session → M Polled round) (path : bytes) (c : C) (h : ipc.MessageBodyHelloIn) :
    M Polled round :=
  match start c h with
  | Ok s => play path s
  | Err e => mret (Refused path e)
  | Panic => lift Panic
  | NoFuel => lift NoFuel
  end.

(** The rest of [Run] when the session comes to its end: [session.Conn.Close()], and
    the end of its goroutines. *)
Definition play_to_end (path : bytes) (s : Session) : M Polled round :=
  close_socket path;; mret (Played path s).

(** ** Facts *)

Lemma ParseMessage_returns raw : returns (ipc.ParseMessage raw).
Proof. by destruct (ipc.ParseMessage_exact raw) as [(_ & e & ->)|(_ & m & -> & _)]. Qed.

Lemma ParseHelloIn_returns d : returns (ipc.ParseMessageBodyHelloIn d).
Proof. eapply ipc.reads_exactly_returns, ipc.ParseMessageBodyHelloIn_exact. Qed.

Lemma hello_returns c : returns (snd (hello c)).
Proof.
  unfold hello, wrapM, on_err, mbind, M_bind. pose proof (conn_Read_total c) as [Hp Hf].
  destruct (conn_Read c) as [c1 [raw|e| |]]; [|done..]. unfold lift.
  destruct (ParseMessage_returns raw) as [Hp2 Hf2].
  destruct (ipc.ParseMessage raw) as [msg|e| |]; [|done..]. simpl.
  case_decide; [done|]. case_decide; [done|].
  destruct (ParseHelloIn_returns (ipc.m_Payload msg)) as [Hp3 Hf3].
  destruct (ipc.ParseMessageBodyHelloIn _) as [h|e| |]; [|done..]. simpl. by case_decide.
Qed.

(** The message of a game that is let in. *)
Definition hello_message (raw : bytes) (h : ipc.MessageBodyHelloIn) : Prop :=
  ∃ payload, raw = ipc.message_layout (ipc.MkMessage (U32 0) ipc.OpHello payload)
  ∧ ipc.ParseMessageBodyHelloIn payload = Ok h ∧ ipc.hi_Magic h = hello_magic.

Lemma hello_Ok c c' h :
  hello c = (c', Ok h) ↔ ∃ raw, conn_Read c = (c', Ok raw) ∧ hello_message raw h.
Proof.
  unfold hello, wrapM, on_err, mbind, M_bind. split.
  - destruct (conn_Read c) as [c1 [raw|e| |]]; [|done..]. unfold lift.
    destruct (ipc.ParseMessage_exact raw) as [(_ & e & ->)|(_ & m & -> & Hl)]; [done|]. cbn [wrap_err].
    case_decide as Hop; [done|]. case_decide as Hseq; [done|].
    destruct (ipc.ParseMessageBodyHelloIn _) as [h'|e| |] eqn:Hh; [|done..]. cbn [wrap_err].
    case_decide as Hm; [done|]. intros [= <- <-]. exists raw. split; [done|]. exists (ipc.m_Payload m).
    split_and!; [|done..]. rewrite Hl. destruct m. simpl in *. by subst.
  - intros (raw & -> & payload & -> & Hh & Hm). unfold lift. rewrite ipc.ParseMessage_layout. cbn [wrap_err].
    rewrite !decide_False by (by intros Hn; apply Hn). cbn [ipc.m_Payload]. rewrite Hh. cbn [wrap_err].
    by rewrite decide_False by (by intros Hn; apply Hn).
Qed.

(** What the socket at a path gives. *)
Definition greeting (dial : bytes → res C) (path : bytes) : option (C * ipc.MessageBodyHelloIn) :=
  match dial path with
  | Ok c => match hello c with (c', Ok h) => Some (c', h) | _ => None end
  | _ => None
  end.

Definition dialled (dial : bytes → res C) (fs : list bytes) : list bytes :=
  filter (λ f, is_ok (dial f) = true) fs.

Lemma poll_loop_spec dial fs p :
  (∀ f, returns (dial f)) →
  (poll_loop dial fs p = (MkPolled (po_opened p ++ dialled dial fs) (po_closed p ++ dialled dial fs), Ok None)
   ∧ Forall (λ f, greeting dial f = None) fs)
  ∨ ∃ pre f post c h, fs = pre ++ f :: post ∧ Forall (λ f, greeting dial f = None) pre
    ∧ greeting dial f = Some (c, h)
    ∧ poll_loop dial fs p
      = (MkPolled (po_opened p ++ dialled dial pre ++ [f]) (po_closed p ++ dialled dial pre), Ok (Some (f, c, h))).
Proof.
  intros Hd. revert p. induction fs as [|f fs IH]; intros p.
  { left. simpl. rewrite !app_nil_r. by destruct p. }
  cbn [poll_loop]. destruct (Hd f) as [Hp Hf]. destruct (dial f) as [c|e| |] eqn:Hdial; [| |done..].
  - unfold mbind, M_bind, open_socket, modify. pose proof (hello_returns c) as [Hp2 Hf2].
    destruct (hello c) as [c' [h|e| |]] eqn:Hh; [| |done..].
    + right. exists [], f, fs, c', h. split_and!; [done..| |].
      { unfold greeting. by rewrite Hdial, Hh. }
      change (dialled dial []) with (@nil bytes). by rewrite app_nil_r.
    + assert (greeting dial f = None) as Hg by (unfold greeting; by rewrite Hdial, Hh).
      cbn [close_socket modify po_opened po_closed].
      assert (∀ l, dialled dial (f :: l) = f :: dialled dial l) as Hcons.
      { intros l. unfold dialled. by rewrite filter_cons_True by (cbn beta; by rewrite Hdial). }
      destruct (IH (MkPolled (po_opened p ++ [f]) (po_closed p ++ [f]))) as
        [[-> Hall]|(pre & f' & post & c2 & h & -> & Hall & Hg' & ->)]; [left|right].
      * split; [|by constructor]. simpl. by rewrite Hcons, <- !app_assoc.
      * exists (f :: pre), f', post, c2, h. split_and!; [done|by constructor|done|].
        simpl. by rewrite Hcons, <- !app_assoc.
  - assert (greeting dial f = None) as Hg by (unfold greeting; by rewrite Hdial).
    assert (∀ l, dialled dial (f :: l) = dialled dial l) as Hcons.
    { intros l. unfold dialled. by rewrite filter_cons_False by (cbn beta; by rewrite Hdial). }
    destruct (IH p) as [[-> Hall]|(pre & f' & post & c2 & h & -> & Hall & Hg' & ->)]; [left|right].
    + split; [|by constructor]. by rewrite Hcons.
    + exists (f :: pre), f', post, c2, h. split_and!; [done|by constructor|done|]. by rewrite Hcons.
Qed.

Lemma PollUnix_eq p env readDir :
  env ≠ [] → ∃ sockets, PollUnix p env readDir = Ok sockets.
Proof.
  intros He. unfold PollUnix, listSockets, getRuntimeDir. rewrite decide_False by done.
  rewrite res_bind_ok. cbv zeta. destruct (readDir _); by eexists.
Qed.

Lemma Poll_eq p env pipes readDir :
  env ≠ [] → ∃ factories, Poll p env pipes readDir = Ok factories.
Proof.
  intros He. unfold Poll. destruct (PollUnix_eq p env readDir He) as [sockets ->]. destruct p; by eexists.
Qed.

(** ** Properties *)

(** C39: which game the client plays with.  The sockets are those of the runtime
    directory that end in [.sock], on Windows after the pipes of Project64; a round
    tries them in this order and takes the first one that can be opened and whose
    first message is a HELLO with sequence number 0 and the magic of the protocol.  Every other
    connection it opened is closed again.  The connection it took is closed when
    the session was played; when [Run] refuses the game it stays open: this is the
    only way a round leaves a connection behind, while sessions come to their end. *)
Theorem game_round pf env pipes readDir dial run p :
  env ≠ [] → (∀ f, returns (dial f)) → (∀ c h, returns (run c h)) →
  ∃ sockets, Poll pf env pipes readDir = Ok sockets
  ∧ ∃ p' r, loop_round pf env pipes readDir dial (game_Run run play_to_end) p = (p', Ok r)
  ∧ match r with
    | Waited => Forall (λ f, greeting dial f = None) sockets
        ∧ p' = MkPolled (po_opened p ++ dialled dial sockets) (po_closed p ++ dialled dial sockets)
    | Played f _ | Refused f _ =>
        ∃ pre post c h, sockets = pre ++ f :: post ∧ Forall (λ f, greeting dial f = None) pre
        ∧ (∃ c0 raw, dial f = Ok c0 ∧ conn_Read c0 = (c, Ok raw) ∧ hello_message raw h)
        ∧ po_opened p' = po_opened p ++ dialled dial pre ++ [f]
        ∧ match r with
          | Played _ s => run c h = Ok s ∧ po_closed p' = po_closed p ++ dialled dial pre ++ [f]
          | Refused _ e => run c h = Err e ∧ po_closed p' = po_closed p ++ dialled dial pre
          | _ => False
          end
    | Unended _ _ _ => False
    end.
Proof.
  intros He Hd Hrun. destruct (Poll_eq pf env pipes readDir He) as [sockets Hpoll].
  exists sockets. split; [done|]. unfold loop_round, poll, mbind, M_bind, lift. rewrite Hpoll.
  destruct (poll_loop_spec dial sockets p Hd) as [[-> Hall]|(pre & f & post & c & h & Hs & Hall & Hg & ->)].
  { eexists _, Waited. split; [done|]. by split. }
  assert (∃ c0 raw, dial f = Ok c0 ∧ conn_Read c0 = (c, Ok raw) ∧ hello_message raw h) as Hm.
  { unfold greeting in Hg. destruct (dial f) as [c0| | |]; [|done..].
    destruct (hello c0) as [c' [h'| | |]] eqn:Hh; [|done..]. injection Hg as -> ->.
    apply hello_Ok in Hh as (raw & ? & ?). by exists c0, raw. }
  destruct (Hrun c h) as [Hp Hf]. unfold game_Run. destruct (run c h) as [s|e| |] eqn:Hr; [| |done..].
  - eexists _, (Played f s). split; [done|]. exists pre, post, c, h. split_and!; [done..| |done|].
    + done.
    + simpl. by rewrite <- app_assoc.
  - eexists _, (Refused f e). split; [done|]. exists pre, post, c, h. by split_and!.
Qed.

End app.

(** Two sockets, of which the second is a game of another world. *)
Definition ex_hello_in : ipc.MessageBodyHelloIn :=
  ipc.MkHelloIn hello_magic (arr_of 16 [U8 1]) (arr_of 8 [U8 2]) ex_player (arr_of 8 (str "LINK")) (U8 9).

Definition ex_dial : bytes → res conn := λ path,
  if decide (path = str "/run/n64-ipc/a.sock") then Ok (conn_on (ipc.ipc_frame (str "junk")) EOF)
  else if decide (path = str "/run/n64-ipc/c.sock") then
    Ok (conn_on (ipc.ipc_frame (ipc.message_layout
      (ipc.MkMessage (U32 0) ipc.OpHello (ipc.hello_in_layout ex_hello_in)))) EOF)
  else Err (OSError 2).

Definition ex_run (c : conn) (h : ipc.MessageBodyHelloIn) : res Session :=
  Run_start (str "data") ex_info h None (λ _, Ok (open_file [] [])) (arr_of 8 []) false [] c
    daemon.createDaemonConn.

Lemma game_round_witness :
  let r := loop_round Unix (str "/run") (Ok []) (λ _, Ok [str "a.sock"; str "b.txt"; str "c.sock"]) ex_dial
    (game_Run ex_run play_to_end) (MkPolled [] []) in
  po_opened (fst r) = [str "/run/n64-ipc/a.sock"; str "/run/n64-ipc/c.sock"]
  ∧ po_closed (fst r) = [str "/run/n64-ipc/a.sock"]
  ∧ ∃ sockets, Poll Unix (str "/run") (Ok []) (λ _, Ok [str "a.sock"; str "b.txt"; str "c.sock"]) = Ok sockets
  ∧ ∃ p' o, r = (p', Ok o).
Proof.
  intros r. split; [by_compute|]. split; [by_compute|].
  assert (∀ f, returns (ex_dial f)) as Hd
    by (intros f; unfold ex_dial; repeat case_decide; split; discriminate).
  assert (∀ c h, returns (ex_run c h)) as Hr.
  { intros c h. apply Run_start_returns. intros path. left. exists [], []. reflexivity. }
  destruct (game_round Unix (str "/run") (Ok []) (λ _, Ok [str "a.sock"; str "b.txt"; str "c.sock"]) ex_dial ex_run
    (MkPolled [] [])) as (sockets & H1 & p' & o & H2 & _); [by_compute|exact Hd|exact Hr|].
  exists sockets. split; [exact H1|]. exists p', o. exact H2.
Defined.
