(* ===== verification/ClientStart.v ===== *)
(** * The client from its start to its end (client/main.go, client/internal/config,
    client/internal/app)

    The command line, the patch, the daemon, the rounds with the games and the end;
    on Windows the association of patch files with the program.  The rounds are those
    of ClientApp.v, with the sessions of ClientRun.v: a session comes to its end, a
    goroutine of it panics and ends the process, or it goes on for ever ([course]).
    What the program does is a list of events.  The environment variable of the
    directory of the sockets is assumed to be set ([sr_env]); without it the program
    panics. *)

From stdpp Require Import base gmap sets strings vector numbers tactics list.
From Stdlib Require Import ZArith Lia.
From S2P Require Import Prelude Words GoIO GoStr WalEntry Packet Wal IpcMsg SendQueue.
From S2P Require Import ClientPorts PositionSystem Daemon DaemonStart ClientSession GameInfo ClientRun ClientApp.

(** ** The command line *)






(** ** Events *)

Inductive event : Type :=
  | ESetValue (key name value : bytes)
  | ENotify
  | EPrint (text : bytes)
  | EError (e : error)
  | EDaemon (a : action)
  | ERound (p : Polled) (r : round)
  | ECloseDaemon.

Definition emit (e : event) : M (list event) unit := modify (λ l, l ++ [e]).


(** ** Starting the daemon (client/internal/util) *)

(** [os.Getenv("XDG_RUNTIME_DIR")] or [os.Getenv("TMP")]. *)
Definition RunDir (p : platform) (env : bytes) : bytes :=
  match p with
  | Unix => env ++ str "/ootmm"
  | Windows => env ++ str "\OoTMM"
  end.

Definition daemonSocketPath (p : platform) (env : bytes) : bytes := RunDir p env ++ str "/internal.sock".
Definition daemonLockPath (p : platform) (env : bytes) : bytes := RunDir p env ++ str "/internal.lock".

(** The attributes of the new process: which of its standard files are the null
    device (the others are closed) and whether it leads a session or a process group. *)
Record ProcAttr : Type := MkProcAttr {
  pa_null : list bool;
  pa_setsid : bool;
  pa_new_group : bool;
}.

Inductive proc_event : Type := OpenNull | CloseNull | Spawn (path : bytes) (args : list bytes) (attr : ProcAttr) | Release.

Definition proc_emit (e : proc_event) : M (list proc_event) unit := modify (λ l, l ++ [e]).

(** [openNull] and [start] are what the system answers. *)
Definition StartDetachedProcess (p : platform) (openNull start : res unit) (path : bytes) (args : list bytes) :
    M (list proc_event) unit :=
  match p with
  | Unix =>
      lift openNull;;
      proc_emit OpenNull;;
      deferred (
        let attr := MkProcAttr [true; true; true] true false in
        lift start;;
        proc_emit (Spawn path args attr);;
        proc_emit Release)
        (proc_emit CloseNull)
  | Windows =>
      let attr := MkProcAttr [false; false; false] false true in
      lift start;;
      proc_emit (Spawn path args attr);;
      proc_emit Release
  end.

(** ** File associations (util_windows.go)

    [create] is what [registry.CreateKey] answers for a key: whether it existed.
    The errors of [SetStringValue] are dropped by the code. *)

Definition create_key (create : bytes → res bool) (key : bytes) : M (list event) bool := lift (create key).

Definition key_ootmm : bytes := str "Software\Classes\.ootmm".
Definition key_patch : bytes := str "Software\Classes\OoTMM.Patch".
Definition key_command : bytes := str "Software\Classes\OoTMM.Patch\shell\open\command".
Definition key_icon : bytes := str "Software\Classes\OoTMM.Patch\DefaultIcon".

(** The double quote. *)
Definition quoted (s : bytes) : bytes := [U8 34] ++ s ++ [U8 34].

Definition registerFileAssociation_windows (executable : res bytes) (create : bytes → res bool) :
    M (list event) unit :=
  path ← lift executable;
  ok ← create_key create key_ootmm;
  let changed := negb ok in
  emit (ESetValue key_ootmm [] (str "OoTMM.Patch"));;
  ok ← create_key create key_patch;
  let changed := changed || negb ok in
  emit (ESetValue key_patch [] (str "OoTMM Patch File"));;
  create_key create key_command;;
  let changed := changed || negb ok in
  emit (ESetValue key_command [] (quoted path ++ str " " ++ quoted (str "%1")));;
  create_key create key_icon;;
  let changed := changed || negb ok in
  emit (ESetValue key_icon [] (quoted path ++ str ",-2"));;
  if changed then emit ENotify else mret tt.

(** An error is a [return]. *)
Definition registerFileAssociation (p : platform) (executable : res bytes) (create : bytes → res bool) :
    M (list event) unit :=
  match p with
  | Unix => mret tt
  | Windows => ignore (registerFileAssociation_windows executable create)
  end.

(** ** What is displayed *)







(** ** The rounds *)

Section app.
Context {C : Type} `{IpcConn C} (to_conn : C → conn).











(** ** Run and Start *)





(** ** Facts *)














End app.

(** The process that is started shares no file with the client and no session, its
    handle is released, and the null device is closed whatever the system answers. *)
Lemma StartDetachedProcess_spec p openNull start path args :
  returns openNull → returns start →
  let '(l, r) := StartDetachedProcess p openNull start path args [] in
  r = match p with Unix => openNull;; start | Windows => start end
  ∧ (OpenNull ∈ l ↔ CloseNull ∈ l)
  ∧ (r = Ok tt ↔ ∃ a, Spawn path args a ∈ l ∧ Release ∈ l ∧ pa_setsid a || pa_new_group a = true).
Proof.
  intros [Hp Hf] [Hp' Hf'].
  destruct p, openNull as [[]|e| |], start as [[]|e'| |]; try done; unfold proc_emit, modify; simpl;
    (split; [reflexivity|]; split; [set_solver|]);
    (split; [intros Hr|intros (a & Ha & Hl & _)]); try done; try (exfalso; set_solver).
  all: eexists; split; [repeat constructor|split; [set_solver|reflexivity]].
Qed.

(** ** Properties *)

(** Which keys were answered and which not, for a concrete number of keys. *)
Ltac answered_keys :=
  split; [lia|];
  split; [intros [|[|[|[|i]]]] key Hi Hk; try lia; simpl in Hk; simplify_eq; by eauto|];
  split; [intros key Hk; simpl in Hk; simplify_eq; by eauto|].

(** The association of patch files on Windows.  The values are set key by key until a
    key cannot be created; the shell is notified only when all four were, and only if
    one of the first two keys is new: the code compares the answer for the second key
    again after the third and the fourth, so that a new command or icon alone goes
    without a notification. *)
Theorem file_association path create :
  (∀ key, returns (create key)) →
  let keys := [key_ootmm; key_patch; key_command; key_icon] in
  let values := [str "OoTMM.Patch"; str "OoTMM Patch File";
                 quoted path ++ str " " ++ quoted (str "%1"); quoted path ++ str ",-2"] in
  ∃ n, n ≤ 4
    ∧ (∀ i key, i < n → keys !! i = Some key → ∃ ok, create key = Ok ok)
    ∧ (∀ key, keys !! n = Some key → ∃ e, create key = Err e)
    ∧ fst (registerFileAssociation Windows (Ok path) create [])
      = take n (zip_with (λ key value, ESetValue key [] value) keys values)
        ++ (if decide (n = 4 ∧ (create key_ootmm = Ok false ∨ create key_patch = Ok false))
            then [ENotify] else []).
Proof.
  intros Hc. cbv zeta.
  assert (∀ key, (∃ ok, create key = Ok ok) ∨ ∃ e, create key = Err e) as H.
  { intros key. destruct (Hc key) as [Hp Hf]. destruct (create key); [by eauto..|done|done]. }
  unfold registerFileAssociation, ignore, registerFileAssociation_windows, create_key, emit, modify, lift,
    mbind, M_bind, mret, M_ret.
  destruct (H key_ootmm) as [[o1 H1]|[e H1]]; rewrite H1; [|by exists 0; answered_keys].
  destruct (H key_patch) as [[o2 H2]|[e H2]]; rewrite H2; [|by exists 1; answered_keys].
  destruct (H key_command) as [[o3 H3]|[e H3]]; rewrite H3; [|by exists 2; answered_keys].
  destruct (H key_icon) as [[o4 H4]|[e H4]]; rewrite H4; [|by exists 3; answered_keys].
  exists 4. answered_keys. destruct o1, o2; case_decide as Hd; try done.
  all: exfalso; naive_solver.
Qed.




#[local] Instance Info_eq_dec : EqDecision Info.
Proof. solve_decision. Defined.


