(* ===== verification/Uplink.v ===== *)
(** * The uplink (client/internal/game/uplink.go)

    One connection of a client session to the server: draining what an earlier
    connection left, the handshake, and the four goroutines that move packets. *)

From stdpp Require Import base gmap sets strings vector numbers tactics list relations.
From Stdlib Require Import ZArith Lia.
From S2P Require Import Prelude Words GoIO GoStr WalEntry Packet Wal Events ServerSession IpcMsg.
From S2P Require Import SendQueue ClientPorts PositionSystem Daemon ClientSession.

(** ** Draining *)

Definition take_in (s : Session) : Session :=
  set_s_uplinkIn (Chan (ch_cap (s_uplinkIn s)) (drop 1 (ch_buf (s_uplinkIn s)))) s.

Definition take_out (s : Session) : Session :=
  set_s_ports (set_uplinkOut (port_take (p_uplinkOut (s_ports s))) (s_ports s)) s.

Definition in_ready (s : Session) : bool := bool_decide (ch_buf (s_uplinkIn s) ≠ []).
Definition out_ready (s : Session) : bool :=
  bool_decide (ch_buf (pt_chan (p_uplinkOut (s_ports s))) ≠ []).

(** The [select] takes from either channel when both are ready, as the [picks]
    say, and goes on to [drain_done] when neither is. *)
Fixpoint drain (fuel : nat) (picks : list bool) : M Session unit := λ s,
  match fuel with
  | 0 => (s, NoFuel)
  | S fuel =>
      match in_ready s, out_ready s with
      | false, false => (s, Ok tt)
      | true, false => drain fuel picks (take_in s)
      | false, true => drain fuel picks (take_out s)
      | true, true =>
          match picks with
          | true :: picks => drain fuel picks (take_in s)
          | _ => drain fuel (drop 1 picks) (take_out s)
          end
      end
  end.

(** Every iteration takes an element of one of the two buffers. *)
Definition drain_fuel (s : Session) : nat :=
  S (length (ch_buf (s_uplinkIn s)) + length (ch_buf (pt_chan (p_uplinkOut (s_ports s))))).

(** ** The handshake *)

Definition hello_data (s : Session) : ClientHello :=
  MkClientHello hello_magic (U32 65536) (i_SessionID (s_Info s)) (i_SessionSecret (s_Info s))
    (s_PlayerID s) (s_PlayerName s) (i_WorldID (s_Info s)) (Count (s_wal s)).

(** The checks of the server's reply. *)
Definition check_reply (pkt : Packet) : res unit :=
  if decide (p_Op pkt ≠ OpHello) then Err (Errorf "unexpected operation code") else
  if decide (length (p_Data pkt) < 12) then Err (Errorf "server hello too short") else
  magic ← slice (p_Data pkt) 0 8;
  if decide (magic ≠ vec_to_list hello_magic) then Err (Errorf "invalid magic in server hello") else
  version ← le_get32 (p_Data pkt) 8 12;
  if decide (version ≠ U32 65536) then Err (Errorf "invalid version in server hello") else
  Ok tt.

Definition handshake (s : Session) : M conn unit :=
  data ← lift (ClientHello_Serialize (hello_data s));
  SendRaw (MkPacket OpHello data);;
  pkt ← RecvRawTimeoutDefault;
  lift (check_reply pkt).

(** ** The goroutines of a connection *)

Inductive in_pc : Type := InRecv | InPush (pkt : Packet) | InStopped.
Inductive out_pc : Type := OutSelect | OutWrite (pkt : Packet) | OutStopped.
Inductive loop_pc : Type := Running | Stopped.

Record Uplink : Type := MkUplink {
  u_session : Session;
  u_conn : conn;
  u_done : bool;
  u_in : in_pc;
  u_out : out_pc;
  u_nops : loop_pc;
  u_pkts : loop_pc;
}.

(** The state in which [handleUplinkConn] starts its goroutines. *)
Definition start_uplink (s : Session) (c : conn) : Uplink :=
  MkUplink s c (p_done (s_ports s)) InRecv OutSelect Running Running.

(** [handleUplinkConn] from its connection on: [None] when the handshake failed
    and the function returned. *)
Definition handleUplinkConn (picks : list bool) (c : conn) (s : Session) :
    Session * res Uplink :=
  match drain (drain_fuel s) picks s with
  | (s', Ok _) =>
      match handshake s' c with
      | (c', Ok _) => (s', Ok (start_uplink s' c'))
      | (_, Err e) => (s', Err e)
      | (_, Panic) => (s', Panic)
      | (_, NoFuel) => (s', NoFuel)
      end
  | (s', Err e) => (s', Err e)
  | (s', Panic) => (s', Panic)
  | (s', NoFuel) => (s', NoFuel)
  end.

Definition upd_session (s : Session) (u : Uplink) : Uplink :=
  MkUplink s (u_conn u) (u_done u) (u_in u) (u_out u) (u_nops u) (u_pkts u).
Definition set_in (p : in_pc) (c : conn) (u : Uplink) : Uplink :=
  MkUplink (u_session u) c (u_done u) p (u_out u) (u_nops u) (u_pkts u).
Definition set_out (p : out_pc) (c : conn) (u : Uplink) : Uplink :=
  MkUplink (u_session u) c (u_done u) (u_in u) p (u_nops u) (u_pkts u).

(** [u.cancel()] *)
Definition u_cancel (u : Uplink) : Uplink :=
  MkUplink (u_session u) (u_conn u) true (u_in u) (u_out u) (u_nops u) (u_pkts u).
Definition stop_nops (u : Uplink) : Uplink :=
  MkUplink (u_session u) (u_conn u) (u_done u) (u_in u) (u_out u) Stopped (u_pkts u).
Definition stop_pkts (u : Uplink) : Uplink :=
  MkUplink (u_session u) (u_conn u) (u_done u) (u_in u) (u_out u) (u_nops u) Stopped.

Definition nop_packet : Packet := MkPacket OpNOP [].

Definition push_in (pkt : Packet) (s : Session) : Session :=
  set_s_uplinkIn (chan_push pkt (s_uplinkIn s)) s.

(** What the other goroutines of the session do to it meanwhile: they put packets
    into [uplinkOut] and leave [uplinkIn] and the packets taken alone. *)
Definition session_moves (s s' : Session) : Prop :=
  s_uplinkIn s' = s_uplinkIn s
  ∧ pt_taken (p_uplinkOut (s_ports s')) = pt_taken (p_uplinkOut (s_ports s)).

(** One step of the goroutines; the label is the packet that [handlePackets] handled. *)
Inductive uplink_own (u : Uplink) : option Packet → Uplink → Prop :=
  (* pumpIn *)
  | ul_recv c pkt :
      u_in u = InRecv → RecvRawTimeoutDefault (u_conn u) = (c, Ok pkt) →
      uplink_own u None (set_in (InPush pkt) c u)
  | ul_recv_err c e :
      u_in u = InRecv → RecvRawTimeoutDefault (u_conn u) = (c, Err e) →
      uplink_own u None (u_cancel (set_in InStopped c u))
  | ul_push pkt :
      u_in u = InPush pkt → chan_ready (s_uplinkIn (u_session u)) = true →
      uplink_own u None (set_in InRecv (u_conn u) (upd_session (push_in pkt (u_session u)) u))
  | ul_in_stop :
      u_done u = true → uplink_own u None (u_cancel (set_in InStopped (u_conn u) u))
  (* pumpOut *)
  | ul_take pkt rest :
      u_out u = OutSelect → ch_buf (pt_chan (p_uplinkOut (s_ports (u_session u)))) = pkt :: rest →
      uplink_own u None (set_out (OutWrite pkt) (u_conn u) (upd_session (take_out (u_session u)) u))
  | ul_write pkt c :
      u_out u = OutWrite pkt → SendRaw pkt (u_conn u) = (c, Ok tt) →
      uplink_own u None (set_out OutSelect c u)
  | ul_write_err pkt c e :
      u_out u = OutWrite pkt → SendRaw pkt (u_conn u) = (c, Err e) →
      uplink_own u None (u_cancel (set_out OutStopped c u))
  | ul_out_stop :
      u_out u = OutSelect → u_done u = true →
      uplink_own u None (u_cancel (set_out OutStopped (u_conn u) u))
  (* handleNops *)
  | ul_nop s :
      u_nops u = Running → on_ports (TrySendUplink nop_packet) (u_session u) = (s, Ok tt) →
      uplink_own u None (upd_session s u)
  | ul_nops_stop :
      u_done u = true → uplink_own u None (u_cancel (stop_nops u))
  (* handlePackets *)
  | ul_handle pkt rest s :
      u_pkts u = Running → ch_buf (s_uplinkIn (u_session u)) = pkt :: rest →
      handleUplinkPacket pkt (take_in (u_session u)) = (s, Ok tt) →
      uplink_own u (Some pkt) (upd_session s u)
  | ul_handle_err pkt rest s e :
      u_pkts u = Running → ch_buf (s_uplinkIn (u_session u)) = pkt :: rest →
      handleUplinkPacket pkt (take_in (u_session u)) = (s, Err e) →
      uplink_own u (Some pkt) (u_cancel (stop_pkts (upd_session s u)))
  | ul_pkts_stop :
      u_done u = true → uplink_own u None (u_cancel (stop_pkts u)).

(** With the rest of the session. *)
Inductive uplink_step (u : Uplink) : option Packet → Uplink → Prop :=
  | ul_own o u' : uplink_own u o u' → uplink_step u o u'
  | ul_session s : session_moves (u_session u) s → uplink_step u None (upd_session s u)
  | ul_session_done : uplink_step u None (u_cancel u).

(** Runs, with the packets handled so far. *)
Inductive uplink_run (u0 : Uplink) : list Packet → Uplink → Prop :=
  | ul_start : uplink_run u0 [] u0
  | ul_next tr u o u' :
      uplink_run u0 tr u → uplink_step u o u' → uplink_run u0 (tr ++ option_list o) u'.

(** ** Draining empties both channels and touches nothing else *)

(** [s] with the two channels emptied: [uplinkOut]'s elements were taken. *)
Definition drained (s : Session) : Session :=
  set_s_uplinkIn (Chan (ch_cap (s_uplinkIn s)) [])
    (set_s_ports (set_uplinkOut
      (Port (Chan (ch_cap (pt_chan (p_uplinkOut (s_ports s)))) [])
         (pt_sent (p_uplinkOut (s_ports s)))) (s_ports s)) s).

Lemma drained_take_in s : drained (take_in s) = drained s.
Proof. by destruct s. Qed.

Lemma drained_take_out s : drained (take_out s) = drained s.
Proof.
  destruct s as [i a b c d e f g h j [pd pp pm [[pc pb] pt]] l m n]. destruct pb as [|x pb]; [done|].
  unfold drained, take_out, pt_sent; simpl. by rewrite <- app_assoc.
Qed.

Lemma drained_empty s : in_ready s = false → out_ready s = false → drained s = s.
Proof.
  unfold in_ready, out_ready. intros Hi%bool_decide_eq_false_1%dec_stable Ho%bool_decide_eq_false_1%dec_stable.
  destruct s as [i a b c d e f g h [j1 j2] [pd pp pm [[pc pb] pt]] l m n]. simpl in *. subst.
  unfold drained, pt_sent; simpl. by rewrite app_nil_r.
Qed.

Lemma take_in_shorter s :
  in_ready s = true → drain_fuel s = S (drain_fuel (take_in s)).
Proof.
  unfold in_ready, drain_fuel. intros Hi%bool_decide_eq_true_1.
  destruct s as [i a b c d e f g h [j1 j2] p l m n]. simpl in *. by destruct j2.
Qed.

Lemma take_out_shorter s :
  out_ready s = true → drain_fuel s = S (drain_fuel (take_out s)).
Proof.
  unfold out_ready, drain_fuel. intros Hi%bool_decide_eq_true_1.
  destruct s as [i a b c d e f g h [j1 j2] [pd pp pm [[pc pb] pt]] l m n]. simpl in *.
  destruct pb; [done|]. simpl. lia.
Qed.

Lemma drain_eq picks s : drain (drain_fuel s) picks s = (drained s, Ok tt).
Proof.
  remember (drain_fuel s) as n eqn:Hn. revert picks s Hn.
  induction n as [|n IH]; intros picks s Hn; [done|]. cbn [drain].
  destruct (in_ready s) eqn:Hi, (out_ready s) eqn:Ho.
  - assert (∀ picks, drain n picks (take_in s) = (drained s, Ok tt)) as H1.
    { intros. rewrite IH, drained_take_in; [done|]. rewrite (take_in_shorter s Hi) in Hn. lia. }
    assert (∀ picks, drain n picks (take_out s) = (drained s, Ok tt)) as H2.
    { intros. rewrite IH, drained_take_out; [done|]. rewrite (take_out_shorter s Ho) in Hn. lia. }
    by destruct picks as [|[]].
  - rewrite IH, drained_take_in; [done|]. rewrite (take_in_shorter s Hi) in Hn. lia.
  - rewrite IH, drained_take_out; [done|]. rewrite (take_out_shorter s Ho) in Hn. lia.
  - by rewrite drained_empty.
Qed.

(** ** The handshake *)

Lemma client_hello_sendable s : sendable (MkPacket OpHello (client_hello_layout (hello_data s))).
Proof. unfold sendable, client_hello_layout; cbn [p_Data]. len. Qed.

Definition reply_of (v : ServerHello) : bytes := server_hello_layout v.

Definition good_reply : bytes := reply_of (MkServerHello hello_magic (U32 65536)).

Lemma check_reply_Ok pkt :
  check_reply pkt = Ok tt ↔ p_Op pkt = OpHello ∧ ∃ rest, p_Data pkt = good_reply ++ rest.
Proof.
  unfold check_reply, good_reply, reply_of, server_hello_layout. cbn [sh_Magic sh_Version]. split.
  - case_decide as Hop; [done|]. case_decide as Hl; [done|].
    destruct (slice (p_Data pkt) 0 8) as [magic| | |] eqn:Hm; [|done..]. rewrite res_bind_ok.
    case_decide as Hmg; [done|].
    destruct (le_get32 (p_Data pkt) 8 12) as [v| | |] eqn:Hv; [|done..]. rewrite res_bind_ok.
    case_decide as Hvv; [done|]. intros _. subst.
    split; [done|]. exists (drop 12 (p_Data pkt)).
    apply slice_take in Hm. apply le_get32_take in Hv; [|lia..].
    rewrite take_0, app_nil_l in Hm. rewrite Hm in Hv. rewrite <- Hv. by rewrite take_drop.
  - intros [-> [rest ->]]. rewrite decide_False by (by intros []).
    rewrite decide_False by len. rewrite <- app_assoc, slice_here by len. rewrite res_bind_ok.
    rewrite decide_False by (by intros []).
    assert (le_get32 (vec_to_list hello_magic ++ le_bytes 4 (uval (U32 65536)) ++ rest) 8 12 = Ok (U32 65536)) as ->.
    { apply le_get32_spec. rewrite slice_skip by len. by rewrite slice_here by len. }
    rewrite res_bind_ok. by rewrite decide_False by (by intros []).
Qed.

Lemma check_reply_returns pkt : returns (check_reply pkt).
Proof.
  unfold check_reply. case_decide; [done|]. case_decide; [done|].
  destruct (slice_inbounds (p_Data pkt) 0 8) as (m & -> & _); [lia|]. rewrite res_bind_ok.
  case_decide; [done|]. destruct (le_get32_inbounds (p_Data pkt) 8 12) as [v ->]; [lia..|].
  rewrite res_bind_ok. by case_decide.
Qed.

Lemma handshake_eq s c :
  tx_script c = [] →
  handshake s c = (pkt ← RecvRawTimeoutDefault; lift (check_reply pkt))
    (set_tx (tx c ++ frame (MkPacket OpHello (client_hello_layout (hello_data s)))) [] c).
Proof.
  intros Hs. unfold handshake. rewrite ClientHello_Serialize_layout.
  unfold mbind at 1 2, M_bind at 1 2, lift at 1.
  rewrite SendRaw_sendable by apply client_hello_sendable. unfold conn_write. by rewrite Hs.
Qed.

(** ** Packets in order *)

(** [SendRaw] writes the frame or a part of it. *)
Lemma SendRaw_tx pkt c c' r :
  SendRaw pkt c = (c', r) →
  ∃ j, tx c' = tx c ++ take j (frame pkt)
  ∧ (r = Ok tt → tx c' = tx c ++ frame pkt) ∧ rx c' = rx c ∧ rx_end c' = rx_end c.
Proof.
  destruct (decide (sendable pkt)) as [Hs|Hs].
  - rewrite SendRaw_sendable by done. unfold conn_write.
    destruct (tx_script c) as [|[|n e] s]; intros [= <- <-]; cbn [tx rx rx_end set_tx].
    + exists (length (frame pkt)). by rewrite take_ge by done.
    + exists (length (frame pkt)). by rewrite take_ge by done.
    + by exists n.
  - rewrite SendRaw_oversized by done. intros [= <- <-]. exists 0. by rewrite take_0, app_nil_r.
Qed.

Lemma RecvRaw_lacking p k c :
  sendable p → k < length (frame p) → rx c = take k (frame p) → ∃ c' e, RecvRaw c = (c', Err e).
Proof.
  intros Hp Hk Hc. rewrite length_frame in Hk. rewrite RecvRaw_unfold, Hc, frame_header.
  assert (length (header_of p) = 3) as Hh by (unfold header_of; len).
  destruct (decide (k < 3)).
  - destruct (read_full_lacking (take k (header_of p ++ p_Data p)) (rx_end c) 3) as [e ->];
      [rewrite length_take; lia|]. by eexists _, _.
  - rewrite take_app_ge, read_full_app, header_size, frame_size, Nat2Z.id by (done || lia).
    destruct (read_full_lacking (take (k - length (header_of p)) (p_Data p)) (rx_end c) (length (p_Data p)))
      as [e ->]; [rewrite length_take; lia|]. by eexists _, _.
Qed.

Lemma RecvRawTimeoutDefault_eq c :
  ∃ c0, rx c0 = rx c ∧ RecvRawTimeoutDefault c
    = (fst (SetReadDeadline None (fst (RecvRaw c0))), snd (RecvRaw c0)).
Proof.
  unfold RecvRawTimeoutDefault, RecvRawTimeout, mbind, M_bind, SetReadDeadline, modify, deferred.
  set (c0 := Conn _ _ _ _ _ _). exists c0. split; [done|]. by destruct (RecvRaw c0).
Qed.

(** What is received from the start of a stream of packets is its first one. *)
Lemma recv_stream ps k c c' pkt :
  Forall sendable ps → rx c = take k (stream ps) →
  RecvRawTimeoutDefault c = (c', Ok pkt) →
  ∃ ps' k', ps = pkt :: ps' ∧ rx c' = take k' (stream ps').
Proof.
  intros Hps Hrx. destruct (RecvRawTimeoutDefault_eq c) as (c0 & Hc0 & ->). rewrite <- Hc0 in Hrx.
  destruct ps as [|p ps].
  { unfold stream in Hrx; simpl in Hrx. rewrite take_nil in Hrx. rewrite RecvRaw_unfold, Hrx.
    destruct (read_full_lacking [] (rx_end c0) 3) as [e ->]; [simpl; lia|done]. }
  inversion Hps as [|?? Hp Hps']; subst.
  assert (stream (p :: ps) = frame p ++ stream ps) as Hst by done. rewrite Hst in Hrx.
  destruct (decide (k < length (frame p))) as [Hk|Hk].
  - rewrite take_app_le in Hrx by lia.
    destruct (RecvRaw_lacking p k c0) as (? & e & ->); done.
  - rewrite take_app_ge in Hrx by lia. rewrite (RecvRaw_frame p _ c0 Hp Hrx).
    intros [= <- <-]. by eexists ps, _.
Qed.

(** Handling a packet leaves the channels of the uplink alone. *)
Definition uplink_chans (s : Session) : chan Packet * port Packet :=
  (s_uplinkIn s, p_uplinkOut (s_ports s)).

Lemma OnServerPos_keeps pkt : keeps uplink_chans (on_positions (OnServerPos pkt)).
Proof.
  intros s. unfold on_positions, zoom.
  destruct (OnServerPos_spec pkt (s_positions s, s_ports s)) as (d & p & _ & -> & Ht).
  destruct (TrySend_cases (ipc.MkMessage (U32 0) ipc.OpPosition
    (ipc.position_out_layout (pos_out pkt d))) (s_ports s)) as (p' & Hp' & _ & Hu & _).
  simpl in Ht. rewrite Hp' in Ht. simplify_eq. unfold uplink_chans; simpl. by rewrite Hu.
Qed.

Lemma handleUplinkPacket_keeps pkt : keeps uplink_chans (handleUplinkPacket pkt).
Proof.
  assert (∀ A (m : M SendQueue A), keeps uplink_chans (on_sendQ m)) by (intros; by apply keeps_sendQ).
  pose proof OnServerPos_keeps. unfold handleUplinkPacket. solve_keeps.
Qed.

Lemma handled_chans pkt s s' r :
  handleUplinkPacket pkt s = (s', r) →
  s_uplinkIn s' = s_uplinkIn s ∧ p_uplinkOut (s_ports s') = p_uplinkOut (s_ports s).
Proof.
  intros H. pose proof (handleUplinkPacket_keeps pkt s) as Hk. rewrite H in Hk.
  unfold uplink_chans in Hk. by simplify_eq/=.
Qed.

(** The packets that arrived and are not handled yet. *)
Definition arrived (u : Uplink) : list Packet :=
  ch_buf (s_uplinkIn (u_session u)) ++ match u_in u with InPush pkt => [pkt] | _ => [] end.

(** The server sends [ps]; [tr] was handled. *)
Definition inbound (ps tr : list Packet) (u : Uplink) : Prop :=
  tr ++ arrived u `prefix_of` ps
  ∧ (u_in u ≠ InStopped →
     ∃ left k, ps = (tr ++ arrived u) ++ left ∧ rx (u_conn u) = take k (stream left)).

(** Of the packets taken from [uplinkOut] after [t0], all but the one being
    written are on the wire after [b0], whole and in order. *)
Definition outbound (t0 : list Packet) (b0 : bytes) (u : Uplink) : Prop :=
  ∃ written held part,
    pt_taken (p_uplinkOut (s_ports (u_session u))) = t0 ++ written ++ held
    ∧ tx (u_conn u) = b0 ++ stream written ++ part
    ∧ match u_out u with
      | OutSelect => held = [] ∧ part = []
      | OutWrite pkt => held = [pkt] ∧ part = []
      | OutStopped => part `prefix_of` stream held
      end.

Lemma inbound_step ps tr u o u' :
  Forall sendable ps → inbound ps tr u → uplink_step u o u' → inbound ps (tr ++ option_list o) u'.
Proof.
  intros Hps [Hpre Hleft] Hs. unfold inbound, arrived in *.
  destruct Hs as [o u' Hs|s [Hm1 Hm2]|]; [destruct Hs as [c pkt Hi Hr|c e Hi Hr|pkt Hi Hrdy|Hd
    |pkt rest Ho Hb|pkt c Ho Hw|pkt c e Ho Hw|Ho Hd|s Hn Hx|Hd|pkt rest s Hp Hb Hh
    |pkt rest s e Hp Hb Hh|Hd]|..]; simpl in *;
    rewrite ?app_nil_r; try done.
  - rewrite Hi, app_nil_r in *. destruct Hleft as (left & k & -> & Hrx); [done|].
    apply Forall_app in Hps as [_ Hps].
    destruct (recv_stream left k _ _ _ Hps Hrx Hr) as (left' & k' & -> & Hrx').
    rewrite !app_assoc. split; [|intros _; exists left', k'; split; [by rewrite <- !app_assoc|done]].
    rewrite <- !app_assoc. repeat apply prefix_app. by exists left'.
  - rewrite Hi, app_nil_r in Hpre. done.
  - rewrite Hi in *. rewrite ?app_nil_r in *. split; [done|]. intros _. by apply Hleft.
  - split; [|done]. etrans; [|exact Hpre]. apply prefix_app. by eexists.
  - split; [done|]. intros Hi. destruct (Hleft Hi) as (left & k & ? & ?).
    destruct (SendRaw_tx _ _ _ _ Hw) as (_ & _ & _ & -> & _). eauto.
  - split; [done|]. intros Hi. destruct (Hleft Hi) as (left & k & ? & ?).
    destruct (SendRaw_tx _ _ _ _ Hw) as (_ & _ & _ & -> & _). eauto.
  - assert (s_uplinkIn s = s_uplinkIn (u_session u)) as ->; [|done].
    unfold on_ports, zoom in Hx. destruct (TrySendUplink _ _). by simplify_eq.
  - destruct (handled_chans _ _ _ _ Hh) as [-> _]. simpl. rewrite Hb in *. simpl in *. rewrite drop_0.
    rewrite <- !app_assoc in *. done.
  - destruct (handled_chans _ _ _ _ Hh) as [-> _]. simpl. rewrite Hb in *. simpl in *. rewrite drop_0.
    rewrite <- !app_assoc in *. done.
  - by rewrite Hm1.
Qed.

Lemma outbound_step t0 b0 u o u' :
  outbound t0 b0 u → uplink_step u o u' → outbound t0 b0 u'.
Proof.
  intros (w & h & p & Ht & Htx & Hc) Hs. unfold outbound in *.
  destruct Hs as [o u' Hs|s [Hm1 Hm2]|]; [destruct Hs as [c pkt Hi Hr|c e Hi Hr|pkt Hi Hrdy|Hd
    |pkt rest Ho Hb|pkt c Ho Hw|pkt c e Ho Hw|Ho Hd|s Hn Hx|Hd|pkt rest s Hp Hb Hh
    |pkt rest s e Hp Hb Hh|Hd]|..]; simpl in *;
    try by exists w, h, p.
  - pose proof (RecvRawTimeoutDefault_tx (u_conn u)) as Hk. rewrite Hr in Hk. simpl in Hk. rewrite Hk.
    by exists w, h, p.
  - pose proof (RecvRawTimeoutDefault_tx (u_conn u)) as Hk. rewrite Hr in Hk. simpl in Hk. rewrite Hk.
    by exists w, h, p.
  - rewrite Ho in Hc. destruct Hc as [-> ->]. exists w, [pkt], [].
    unfold port_take. rewrite Hb. simpl. by rewrite Ht, app_nil_r, <- app_assoc.
  - rewrite Ho in Hc. destruct Hc as [-> ->]. exists (w ++ [pkt]), [], [].
    destruct (SendRaw_tx _ _ _ _ Hw) as (_ & _ & Hok & _). rewrite Hok by done.
    rewrite Ht, Htx, stream_app, stream_singleton, !app_nil_r, <- !app_assoc. done.
  - rewrite Ho in Hc. destruct Hc as [-> ->]. destruct (SendRaw_tx _ _ _ _ Hw) as (j & Hj & _).
    exists w, [pkt], (take j (frame pkt)).
    rewrite Ht, Hj, Htx, stream_singleton, !app_nil_r, <- !app_assoc.
    split_and!; [done..|apply take_prefix].
  - rewrite Ho in Hc. destruct Hc as [-> ->]. by exists w, [], [].
  - assert (pt_taken (p_uplinkOut (s_ports s)) = pt_taken (p_uplinkOut (s_ports (u_session u)))) as ->;
      [|by exists w, h, p].
    unfold on_ports, zoom in Hx. destruct (TrySendUplink_cases nop_packet (s_ports (u_session u)))
      as (p' & Hp' & _ & _ & Hc'). rewrite Hp' in Hx. simplify_eq. simpl.
    by destruct Hc' as [->|[-> _]].
  - destruct (handled_chans _ _ _ _ Hh) as [_ ->]. by exists w, h, p.
  - destruct (handled_chans _ _ _ _ Hh) as [_ ->]. by exists w, h, p.
  - rewrite Hm2. by exists w, h, p.
Qed.

Lemma uplink_run_inv ps t0 b0 u0 tr u :
  Forall sendable ps → inbound ps [] u0 → outbound t0 b0 u0 → uplink_run u0 tr u →
  inbound ps tr u ∧ outbound t0 b0 u.
Proof.
  intros Hps Hi Ho. induction 1 as [|tr u o u' _ [IH1 IH2] Hs]; [done|].
  split; [by eapply inbound_step|by eapply outbound_step].
Qed.

(** The connection after the HELLO went out. *)
Definition hello_sent (s : Session) (c : conn) : conn :=
  set_tx (tx c ++ frame (MkPacket OpHello (client_hello_layout (hello_data s)))) [] c.

Lemma handleUplinkConn_reply picks c s pkt rest :
  tx_script c = [] → sendable pkt → rx c = frame pkt ++ rest →
  ∃ c', rx c' = rest ∧ tx c' = tx (hello_sent (drained s) c)
  ∧ handleUplinkConn picks c s =
      (drained s, _ ← check_reply pkt; Ok (start_uplink (drained s) c')).
Proof.
  intros Hs Hp Hrx. unfold handleUplinkConn. rewrite drain_eq, handshake_eq by done.
  fold (hello_sent (drained s) c). unfold mbind at 1, M_bind at 1.
  destruct (RecvRawTimeoutDefault_eq (hello_sent (drained s) c)) as (c0 & Hc0 & Heq).
  pose proof (RecvRawTimeoutDefault_tx (hello_sent (drained s) c)) as Htx. rewrite Heq in *.
  rewrite (RecvRaw_frame pkt rest c0 Hp) in * by (by rewrite Hc0).
  eexists. split; [|split; [exact Htx|]]; [done|]. unfold lift.
  pose proof (check_reply_returns pkt) as [Hpa Hfu]. simpl. by destruct (check_reply pkt) as [[]| | |].
Qed.

(** ** Properties *)

Definition ex_ack : Packet := MkPacket OpWalAck (vec_to_list ex_player).
Definition ex_rest : bytes := stream [ex_ack; nop_packet].
Definition ex_conn : conn := conn_on (frame hello_packet ++ take 30 ex_rest) EOF.

Definition ex_u0 : Uplink := start_uplink (drained ex_session) (fst (handshake (drained ex_session) ex_conn)).
Definition ex_u1 : Uplink := set_in (InPush ex_ack) (fst (RecvRawTimeoutDefault (u_conn ex_u0))) ex_u0.
Definition ex_u2 : Uplink := set_in InRecv (u_conn ex_u1) (upd_session (push_in ex_ack (u_session ex_u1)) ex_u1).
Definition ex_u3 : Uplink :=
  upd_session (fst (handleUplinkPacket ex_ack (take_in (u_session ex_u2)))) ex_u2.

Lemma ex_u0_start : handleUplinkConn [] ex_conn ex_session = (drained ex_session, Ok ex_u0).
Proof.
  unfold handleUplinkConn. rewrite drain_eq.
  assert (snd (handshake (drained ex_session) ex_conn) = Ok tt) as Hok by by_compute.
  unfold ex_u0. destruct (handshake (drained ex_session) ex_conn) as [c r]. simpl in Hok. by subst r.
Qed.

Lemma ex_uplink_run : uplink_run ex_u0 [ex_ack] ex_u3.
Proof.
  assert (∀ {S A} (m : M S A) s a, snd (m s) = a → m s = (fst (m s), a)) as Hpair
    by (intros S A m s a <-; by destruct (m s)).
  change [ex_ack] with ((([] ++ option_list (@None Packet)) ++ option_list (@None Packet)) ++ option_list (Some ex_ack)).
  eapply ul_next; [eapply (ul_next _ _ ex_u1); [eapply (ul_next _ _ ex_u0); [apply ul_start|]|]|].
  - apply ul_own, (ul_recv ex_u0 _ ex_ack); [done|]. apply Hpair. by_compute.
  - apply ul_own, (ul_push ex_u1); done.
  - apply ul_own, (ul_handle ex_u2 ex_ack []); [done|reflexivity|]. apply Hpair. by_compute.
Qed.

(** C11: the two ends of the handshake agree.  [handleUplinkConn] drops what an
    earlier connection left in both channels and changes nothing else of the
    session; it sends one HELLO, which the server parses to the session, the
    player and the number of log entries the client already has; and it goes on
    exactly when the reply is a HELLO that starts with the protocol's magic and
    version, which the server's reply does. *)
Theorem uplink_handshake picks c s pkt rest :
  tx_script c = [] → sendable pkt → rx c = frame pkt ++ rest → mem_wf (s_wal s) →
  (∃ r, handleUplinkConn picks c s = (drained s, r) ∧ returns r
   ∧ ((∃ u, r = Ok u) ↔ p_Op pkt = OpHello ∧ ∃ more, p_Data pkt = good_reply ++ more)
   ∧ ∀ u, r = Ok u → u_session u = drained s ∧ rx (u_conn u) = rest
       ∧ tx (u_conn u) = tx c ++ frame (MkPacket OpHello (client_hello_layout (hello_data s))))
  ∧ ParseClientHello (client_hello_layout (hello_data s)) = Ok (hello_data s)
  ∧ ch_WalIndex (hello_data s) = U32 (Z.of_nat (length (w_entries (s_wal s))))
  ∧ p_Op hello_packet = OpHello ∧ p_Data hello_packet = good_reply.
Proof.
  intros Hs Hp Hrx Hw. split; [|split_and!; [|apply Hw|done|done]].
  2: { rewrite <- (app_nil_r (client_hello_layout _)). apply ParseClientHello_layout. }
  destruct (handleUplinkConn_reply picks c s pkt rest Hs Hp Hrx) as (c' & Hr & Ht & ->).
  eexists. split; [done|]. split; [|split].
  - apply res_bind_returns; [apply check_reply_returns|done].
  - rewrite <- check_reply_Ok. split.
    + intros [u ([] & H & _)%res_bind_Ok_inv]. done.
    + intros ->. by eexists.
  - intros u (x & _ & Hu)%res_bind_Ok_inv. injection Hu as <-. split; [done|]. split; [done|].
    simpl. by rewrite Ht.
Qed.

Lemma uplink_handshake_witness :
  sendable hello_packet
  ∧ ∃ r, handleUplinkConn [] ex_conn ex_session = (drained ex_session, r) ∧ returns r
   ∧ (∃ u, r = Ok u)
   ∧ ∀ u, r = Ok u → u_session u = drained ex_session ∧ rx (u_conn u) = take 30 ex_rest
       ∧ tx (u_conn u) = tx ex_conn
           ++ frame (MkPacket OpHello (client_hello_layout (hello_data ex_session))).
Proof.
  assert (sendable hello_packet) as Hp by (vm_compute; discriminate).
  split; [exact Hp|].
  destruct (uplink_handshake [] ex_conn ex_session hello_packet (take 30 ex_rest) eq_refl Hp eq_refl
    (sw_mem ex_session ex_session_wf)) as ((r & H1 & H2 & H3 & H4) & _).
  exists r. split; [exact H1|]. split; [exact H2|]. split; [|exact H4].
  apply H3. split; [reflexivity|]. exists []. reflexivity.
Defined.

(** C10: a connection moves packets in order, in both directions.  Of what the
    server sends after its HELLO, the packets handled so far are a prefix, however
    the goroutines interleave and wherever the stream is cut; and what the client
    has written is its HELLO, then whole packets taken from [uplinkOut] after the
    drain, in order, and at most a part of the next. *)
Theorem uplink_in_order picks c s pkt ps k u0 tr u :
  tx_script c = [] → sendable pkt → Forall sendable ps → rx c = frame pkt ++ take k (stream ps) →
  handleUplinkConn picks c s = (drained s, Ok u0) → uplink_run u0 tr u →
  tr `prefix_of` ps
  ∧ ∃ written held part,
    pt_taken (p_uplinkOut (s_ports (u_session u)))
    = pt_sent (p_uplinkOut (s_ports s)) ++ written ++ held
    ∧ tx (u_conn u) = tx c ++ frame (MkPacket OpHello (client_hello_layout (hello_data s)))
        ++ stream written ++ part
    ∧ (part = [] ∨ part `prefix_of` stream held).
Proof.
  intros Hs Hp Hps Hrx Hu0 Hrun.
  destruct (handleUplinkConn_reply picks c s pkt _ Hs Hp Hrx) as (c' & Hr & Ht & Heq).
  rewrite Heq in Hu0. injection Hu0 as Hu0. apply res_bind_Ok_inv in Hu0 as (x & _ & Hu0).
  injection Hu0 as <-.
  destruct (uplink_run_inv ps (pt_sent (p_uplinkOut (s_ports s))) (tx (hello_sent (drained s) c))
    (start_uplink (drained s) c') tr u Hps) as [[Hpre _] (w & h & p & H1 & H2 & H3)]; [| |done|].
  - unfold inbound, arrived. simpl. split; [apply prefix_nil|]. intros _. by exists ps, k.
  - exists [], [], []. simpl. rewrite !app_nil_r. done.
  - split; [by eapply prefix_app_l|]. exists w, h, p. split; [done|].
    rewrite H2. unfold hello_sent; cbn [tx set_tx]. rewrite <- !app_assoc. split; [done|].
    destruct (u_out u); [left; by destruct H3..|by right].
Qed.

Lemma uplink_in_order_witness :
  [ex_ack] `prefix_of` [ex_ack; nop_packet]
  ∧ ∃ written held part,
    pt_taken (p_uplinkOut (s_ports (u_session ex_u3)))
    = pt_sent (p_uplinkOut (s_ports ex_session)) ++ written ++ held
    ∧ tx (u_conn ex_u3) = tx ex_conn
        ++ frame (MkPacket OpHello (client_hello_layout (hello_data ex_session)))
        ++ stream written ++ part
    ∧ (part = [] ∨ part `prefix_of` stream held).
Proof.
  apply (uplink_in_order [] ex_conn ex_session hello_packet [ex_ack; nop_packet] 30 ex_u0).
  - reflexivity.
  - vm_compute. discriminate.
  - repeat constructor; vm_compute; discriminate.
  - reflexivity.
  - exact ex_u0_start.
  - exact ex_uplink_run.
Defined.
