(* ===== verification/UplinkRun.v ===== *)
(** * The life of the uplink (client/internal/game/uplink.go)

    [handleUplink] and [handleUplinkConn] from dialling to the next attempt: the
    connection of Uplink.v with its context, its end and the pause.  In ClientRun.v
    this goroutine may do anything to the session that leaves the game alone; here the
    two are put together, and what was shown there holds of the real one. *)

From stdpp Require Import base gmap sets strings vector numbers tactics list relations.
From Stdlib Require Import ZArith Lia.
From S2P Require Import Prelude Words GoIO GoStr WalEntry Packet Wal Events ServerSession IpcMsg.
From S2P Require Import SendQueue ClientPorts PositionSystem Daemon ClientSession ClientRun Uplink.

(** ** State *)

(** [handleUplink]: the test of its loop and the pause; [handleUplinkConn]: in
    [DialTimeout], before the draining and in the handshake. *)
Inductive up_point : Type :=
  | UpTop | UpDial | UpDrain (c : conn) | UpHello (c : conn) | UpPause | UpStopped.

(** [Serve u closed]: the goroutines of the connection [u] were started; [closed]: its
    context was cancelled, the connection is closed and [wg.Wait] waits for them. *)
Inductive uprun : Type :=
  | Idle (p : up_point) (s : Session)
  | Serve (u : Uplink) (closed : bool).

Definition sess (r : uprun) : Session :=
  match r with Idle _ s => s | Serve u _ => u_session u end.

(** The session changed; the context of the connection is a child of its context. *)
Definition with_sess (s : Session) (r : uprun) : uprun :=
  match r with
  | Idle p _ => Idle p s
  | Serve u closed =>
      let u := upd_session s u in
      Serve (if p_done (s_ports s) then u_cancel u else u) closed
  end.

(** [handleUplinkConn] returned. *)
Definition returned (s : Session) : uprun := Idle (if p_done (s_ports s) then UpTop else UpPause) s.

Definition all_stopped (u : Uplink) : Prop :=
  u_in u = InStopped ∧ u_out u = Uplink.OutStopped ∧ u_nops u = Stopped ∧ u_pkts u = Stopped.

(** ** Steps *)

Inductive up_own : uprun → uprun → Prop :=
  (* handleUplink *)
  | up_again s : p_done (s_ports s) = false → up_own (Idle UpTop s) (Idle UpDial s)
  | up_end s : p_done (s_ports s) = true → up_own (Idle UpTop s) (Idle UpStopped s)
  | up_resume s : up_own (Idle UpPause s) (Idle UpTop s)
  (* handleUplinkConn *)
  | up_dialled c s : up_own (Idle UpDial s) (Idle (UpDrain c) s)
  | up_dial_err s : up_own (Idle UpDial s) (returned s)
  | up_drained c picks s s' :
      drain (drain_fuel s) picks s = (s', Ok tt) → up_own (Idle (UpDrain c) s) (Idle (UpHello c) s')
  | up_hello c c' s :
      handshake s c = (c', Ok tt) → up_own (Idle (UpHello c) s) (Serve (start_uplink s c') false)
  | up_hello_err c c' s e :
      handshake s c = (c', Err e) → up_own (Idle (UpHello c) s) (returned s)
  | up_sync u : u_done u = true → up_own (Serve u false) (Serve (u_cancel u) true)
  | up_join u : all_stopped u → up_own (Serve u true) (returned (u_session u))
  (* the goroutines of the connection *)
  | up_work u o u' closed :
      uplink_own u o u' → (closed = true → u_conn u' = u_conn u) → up_own (Serve u closed) (Serve u' closed)
  | up_recv_closed u :
      u_in u = InRecv → up_own (Serve u true) (Serve (u_cancel (set_in InStopped (u_conn u) u)) true)
  | up_write_closed u pkt :
      u_out u = Uplink.OutWrite pkt →
      up_own (Serve u true) (Serve (u_cancel (Uplink.set_out Uplink.OutStopped (u_conn u) u)) true).

(** ** The session with its uplink *)

(** The goroutine [handleUplink] as ClientRun.v sees it. *)
Definition point (r : uprun) : up_pc :=
  match r with
  | Idle UpTop _ => UTop
  | Idle UpPause _ => UPause
  | Idle UpStopped _ => UStopped
  | _ => UConn
  end.

Record full : Type := MkFull { f_life : life; f_up : uprun }.

Definition start_full (s : Session) : full :=
  MkFull (start_life s) (Idle (if decide (i_Mode (s_Info s) ≠ InfoModeSingle) then UpTop else UpStopped) s).

Inductive full_own (f : full) : full → Prop :=
  | fo_uplink r :
      up_own (f_up f) r → full_own f (MkFull (set_up (point r) (set_s (sess r) (f_life f))) r)
  | fo_game l :
      game_step (f_life f) l → full_own f (MkFull l (with_sess (l_s l) (f_up f))).

Inductive full_step (f : full) : full → Prop :=
  | fs_own f' : ¬ over (f_life f) → full_own f f' → full_step f f'
  | fs_env l :
      ¬ over (f_life f) → env_step (f_life f) l → full_step f (MkFull l (with_sess (l_s l) (f_up f))).

Definition full_reach (s : Session) : full → Prop := rtc full_step (start_full s).

(** ** What a connection does to the session *)

Lemma handleUplinkPacket_outside pkt :
  keeps (λ s, (s_Daemon s, s_Conn s, s_Info s)) (handleUplinkPacket pkt).
Proof.
  set (f := λ s, _).
  assert (∀ A (m : M SendQueue A), keeps f (on_sendQ m)) by (intros; by apply keeps_sendQ).
  unfold handleUplinkPacket, on_wal, on_positions. solve_keeps.
Qed.

Lemma handled_moves pkt s s' r :
  handleUplinkPacket pkt s = (s', r) → uplink_moves s s'.
Proof.
  intros H. pose proof (handleUplinkPacket_outside pkt s) as Ho. pose proof (handleUplinkPacket_shape pkt s) as Hs.
  rewrite H in Ho, Hs. unfold shape in Hs. simpl in *. by simplify_eq/=.
Qed.

Lemma drained_moves s : uplink_moves s (drained s).
Proof. by destruct s as [? ? ? ? ? ? ? ? ? ? [] ? ? ?]. Qed.

Lemma uplink_own_moves u o u' : uplink_own u o u' → uplink_moves (u_session u) (u_session u').
Proof.
  assert (∀ s s', uplink_moves (take_in s) s' → uplink_moves s s') as Ht by done.
  intros Hs. destruct Hs as [| | | | | | | |s Hn Hx| |pkt rest s Hp Hb Hh|pkt rest s e Hp Hb Hh|]; try done; simpl.
  - unfold on_ports, zoom in Hx. destruct (TrySendUplink_cases nop_packet (s_ports (u_session u)))
      as (p & Hp & (Hd & _) & _). rewrite Hp in Hx. by simplify_eq.
  - apply Ht. by eapply handled_moves.
  - apply Ht. by eapply handled_moves.
Qed.

Lemma up_own_moves r r' : up_own r r' → uplink_moves (sess r) (sess r').
Proof.
  intros Hs. destruct Hs; try done; simpl.
  - rewrite drain_eq in H. simplify_eq. apply drained_moves.
  - by eapply uplink_own_moves.
Qed.

(** ** The goroutine of ClientRun.v can do the same *)

Lemma set_up_same l p : l_up l = p → set_up p l = l.
Proof. destruct l. by intros <-. Qed.
Lemma set_s_same l s : l_s l = s → set_s s l = l.
Proof. destruct l. by intros <-. Qed.

Lemma point_returned s : point (returned s) = if p_done (s_ports s) then UTop else UPause.
Proof. unfold returned. by destruct (p_done (s_ports s)). Qed.

Lemma up_own_simulated l r r' :
  up_own r r' → l_s l = sess r → l_up l = point r →
  let l' := set_up (point r') (set_s (sess r') l) in l' = l ∨ up_step l l'.
Proof.
  intros Hs Hl Hp. pose proof (up_own_moves r r' Hs) as Hm. cbv zeta.
  assert (point r = UConn → point r' = UConn →
    set_up (point r') (set_s (sess r') l) = l ∨ up_step l (set_up (point r') (set_s (sess r') l))) as Hwork.
  { intros Hr Hr'. right. rewrite Hr', set_up_same by (simpl; congruence). apply os_up_work; congruence. }
  assert (point r = UConn → r' = returned (sess r) →
    set_up (point r') (set_s (sess r') l) = l ∨ up_step l (set_up (point r') (set_s (sess r') l))) as Hret.
  { intros Hr ->. right. rewrite point_returned. cbn [sess returned]. rewrite set_s_same by done.
    pose proof (os_up_return l) as H. unfold done in H. rewrite Hl in H. apply H. congruence. }
  destruct Hs; try (by apply Hwork); try (by apply Hret); simpl in *; rewrite set_s_same by done; right.
  - apply os_up_conn; [done|]. unfold done. by rewrite Hl.
  - apply os_up_stop; [done|]. unfold done. by rewrite Hl.
  - by apply os_up_resume.
Qed.

(** The two parts agree on the session and on where the uplink is. *)
Record joined (f : full) : Prop := {
  jo_sess : l_s (f_life f) = sess (f_up f);
  jo_point : l_up (f_life f) = point (f_up f);
}.

Lemma sess_with s r : sess (with_sess s r) = s.
Proof. destruct r as [|u b]; [done|]. simpl. by destruct (p_done _). Qed.

Lemma point_with s r : point (with_sess s r) = point r.
Proof. by destruct r. Qed.

Lemma game_step_up l l' : game_step l l' → l_up l' = l_up l.
Proof.
  intros Hs. destruct Hs; try done; simpl.
  - by destruct (is_ok r).
  - by destruct r.
  - by destruct (is_ok r).
Qed.

Lemma joined_own f f' : joined f → full_own f f' → joined f'.
Proof.
  intros [H1 H2] Hs. destruct Hs as [r Hs|l Hs]; split; simpl; [done|done|by rewrite sess_with|].
  rewrite point_with. by rewrite (game_step_up _ _ Hs).
Qed.

Lemma joined_env f l : joined f → env_step (f_life f) l → joined (MkFull l (with_sess (l_s l) (f_up f))).
Proof. intros [H1 H2] Hs. split; simpl; rewrite ?sess_with, ?point_with; [done|]. by destruct Hs. Qed.

(** ** Contexts *)

Record up_inv (r : uprun) : Prop := {
  ui_stopped u closed : r = Serve u closed →
    u_in u = InStopped ∨ u_out u = Uplink.OutStopped ∨ u_nops u = Stopped ∨ u_pkts u = Stopped →
    u_done u = true;
  ui_parent u closed : r = Serve u closed → p_done (s_ports (u_session u)) = true → u_done u = true;
  ui_closed u : r = Serve u true → u_done u = true;
}.

Lemma up_inv_idle p s : up_inv (Idle p s).
Proof. by split. Qed.

Lemma up_inv_returned s : up_inv (returned s).
Proof. apply up_inv_idle. Qed.

Lemma up_inv_done u closed : u_done u = true → up_inv (Serve u closed).
Proof. intros Hd. split; intros; by simplify_eq. Qed.

Lemma uplink_own_done u o u' : u_done u = true → uplink_own u o u' → u_done u' = true.
Proof. by intros Hd []. Qed.

Lemma up_inv_own r r' : up_inv r → up_own r r' → up_inv r'.
Proof.
  intros Hi Hs.
  destruct Hs as [| | | | | |c c' s H| |u Hd|u Hd|u o u' closed Hw Hc|u Hd|u pkt Hd];
    auto using up_inv_idle, up_inv_returned, up_inv_done.
  - split; simpl; [|intros u cl [= <- <-]; done|done]. intros u cl [= <- <-] [|[|[|]]]; done.
  - destruct (u_done u) eqn:Hd; [by apply up_inv_done; eapply uplink_own_done|].
    pose proof (uplink_own_moves _ _ _ Hw) as (Hm & _). destruct Hi as [H1 H2 H3].
    assert (u_in u ≠ InStopped ∧ u_out u ≠ Uplink.OutStopped ∧ u_nops u ≠ Stopped ∧ u_pkts u ≠ Stopped) as Hrun.
    { split_and!; intros Hst; specialize (H1 u closed eq_refl); rewrite Hd in H1; naive_solver. }
    split.
    + intros v cl Hv Hst. simplify_eq. destruct Hw; simpl in *; try done; naive_solver.
    + intros v cl Hv Hp. simplify_eq. rewrite Hm in Hp. by rewrite (H2 u cl eq_refl Hp) in Hd.
    + intros v Hv. simplify_eq. by rewrite (H3 u eq_refl) in Hd.
Qed.

Lemma up_inv_with s r :
  up_inv r → (p_done (s_ports (sess r)) = true → p_done (s_ports s) = true) → up_inv (with_sess s r).
Proof.
  intros Hi Hp. destruct r as [p s0|u closed]; [apply up_inv_idle|]. simpl.
  destruct (p_done (s_ports s)) eqn:Hs; [by apply up_inv_done|].
  destruct Hi as [H1 H2 H3]. split.
  - intros v cl [= <- <-]. by apply (H1 u closed).
  - intros v cl [= <- <-]. simpl. congruence.
  - intros v [= <- ->]. by apply (H3 u).
Qed.

(** ** The end of a connection *)

Lemma handshake_total s : total (handshake s).
Proof.
  unfold handshake. rewrite ClientHello_Serialize_layout. apply total_bind; [by apply total_lift|]. intros data.
  apply total_bind.
  { intros c. destruct (decide (sendable (MkPacket OpHello data))) as [Hs|Hs].
    - rewrite SendRaw_sendable by done. unfold conn_write. by destruct (tx_script c) as [|[|] ?].
    - by rewrite SendRaw_oversized by done. }
  intros _. apply total_bind; [|intros pkt; apply total_lift, check_reply_returns].
  intros c. destruct (RecvRawTimeoutDefault_eq c) as (c0 & _ & ->). apply RecvRaw_returns.
Qed.

(** Goroutines of a connection that run. *)
Definition running (u : Uplink) : nat :=
  match u_in u with InStopped => 0 | _ => 1 end
  + match u_out u with Uplink.OutStopped => 0 | _ => 1 end
  + match u_nops u with Stopped => 0 | _ => 1 end
  + match u_pkts u with Stopped => 0 | _ => 1 end.

Ltac leaves c := eexists; split; [eapply c; by eauto|]; split_and!; [|done..];
  unfold running; simpl; repeat match goal with H : ?f ?x = _ |- _ => rewrite H end; lia.

(** With the connection closed each goroutine that runs finds its end. *)
Lemma goroutine_leaves u :
  u_done u = true → ¬ all_stopped u →
  ∃ u', up_own (Serve u true) (Serve u' true) ∧ running u' < running u ∧ u_done u' = true
    ∧ u_session u' = u_session u.
Proof.
  intros Hd Hst.
  assert (∀ o u', uplink_own u o u' → u_conn u' = u_conn u → up_own (Serve u true) (Serve u' true)) as Hw
    by (intros o u' H Hc; by eapply up_work).
  destruct (u_in u) eqn:Ei; [leaves up_recv_closed|..].
  { eexists. split; [by eapply Hw; [by apply ul_in_stop|]|]. split_and!; [|done..].
    unfold running; simpl; rewrite Ei; lia. }
  destruct (u_out u) eqn:Eo; [|leaves up_write_closed|].
  { eexists. split; [by eapply Hw; [by apply ul_out_stop|]|]. split_and!; [|done..].
    unfold running; simpl; rewrite Eo; lia. }
  destruct (u_nops u) eqn:En.
  { eexists. split; [by eapply Hw; [by apply ul_nops_stop|]|]. split_and!; [|done..].
    unfold running; simpl; rewrite En; lia. }
  destruct (u_pkts u) eqn:Ep; [|by destruct Hst].
  eexists. split; [by eapply Hw; [by apply ul_pkts_stop|]|]. split_and!; [|done..].
  unfold running; simpl; rewrite Ep; lia.
Qed.

Lemma all_stopped_dec u : all_stopped u ∨ ¬ all_stopped u.
Proof.
  unfold all_stopped. destruct (u_in u), (u_out u), (u_nops u), (u_pkts u); auto; right; intros (? & ? & ? & ?); done.
Qed.

Lemma closed_returns u :
  u_done u = true → rtc up_own (Serve u true) (returned (u_session u)).
Proof.
  remember (running u) as n eqn:Hn. revert u Hn. induction (lt_wf n) as [n _ IH]. intros u -> Hd.
  destruct (all_stopped_dec u) as [Hs|Hs]; [by apply rtc_once, up_join|].
  destruct (goroutine_leaves u Hd Hs) as (u' & Hstep & Hlt & Hd' & Hse).
  eapply rtc_l; [exact Hstep|]. rewrite <- Hse. by eapply IH.
Qed.

Lemma serve_returns u closed :
  u_done u = true → rtc up_own (Serve u closed) (returned (u_session u)).
Proof.
  intros Hd. destruct closed; [by apply closed_returns|].
  eapply rtc_l; [by apply up_sync|]. by apply (closed_returns (u_cancel u)).
Qed.

(** With its session cancelled the uplink ends. *)
Lemma uplink_ends r :
  up_inv r → p_done (s_ports (sess r)) = true →
  ∃ s, rtc up_own r (Idle UpStopped s) ∧ p_done (s_ports s) = true.
Proof.
  assert (∀ s, p_done (s_ports s) = true →
    ∃ s', rtc up_own (Idle UpTop s) (Idle UpStopped s') ∧ p_done (s_ports s') = true) as Htop.
  { intros s Hs. exists s. split; [|done]. by apply rtc_once, up_end. }
  assert (∀ s, p_done (s_ports s) = true →
    ∃ s', rtc up_own (returned s) (Idle UpStopped s') ∧ p_done (s_ports s') = true) as Hret.
  { intros s Hs. unfold returned. rewrite Hs. by apply Htop. }
  assert (∀ r r' : uprun, up_own r r' →
    (∃ s', rtc up_own r' (Idle UpStopped s') ∧ p_done (s_ports s') = true) →
    ∃ s', rtc up_own r (Idle UpStopped s') ∧ p_done (s_ports s') = true) as Hl.
  { intros x y Hs (s' & H1 & H2). exists s'. split; [by eapply rtc_l|done]. }
  assert (∀ u closed, u_done u = true → p_done (s_ports (u_session u)) = true →
    ∃ s', rtc up_own (Serve u closed) (Idle UpStopped s') ∧ p_done (s_ports s') = true) as Hserve.
  { intros u closed Hd Hp. destruct (Hret (u_session u) Hp) as (s' & H1 & H2).
    exists s'. split; [|done]. etrans; [by apply serve_returns|done]. }
  assert (∀ c s, p_done (s_ports s) = true →
    ∃ s', rtc up_own (Idle (UpHello c) s) (Idle UpStopped s') ∧ p_done (s_ports s') = true) as Hhello.
  { intros c s Hp. destruct (handshake_total s c) as [Hpa Hfu]. destruct (handshake s c) as [c' [[]|e| |]] eqn:E;
      [|eapply Hl; [by eapply up_hello_err|by apply Hret]|done..].
    eapply Hl; [by eapply up_hello|]. by apply Hserve. }
  intros Hi Hp. destruct r as [p s|u closed]; [|apply Hserve; [by eapply ui_parent|done]].
  simpl in Hp. destruct p.
  - by apply Htop.
  - eapply Hl; [apply up_dial_err|by apply Hret].
  - eapply Hl; [apply (up_drained c [] s); apply drain_eq|]. apply Hhello.
    destruct (drained_moves s) as (-> & _). done.
  - by apply Hhello.
  - eapply Hl; [apply up_resume|by apply Htop].
  - exists s. split; [apply rtc_refl|done].
Qed.

(** ** Both parts together *)

Record full_inv (s : Session) (f : full) : Prop := {
  fi_life : life_reach s (f_life f);
  fi_joined : joined f;
  fi_up : up_inv (f_up f);
}.

Lemma full_inv_start s : full_inv s (start_full s).
Proof.
  split; [apply rtc_refl| |apply up_inv_idle].
  split; [done|]. unfold start_full, start_life. cbn [f_life f_up l_up].
  by destruct (decide (i_Mode (s_Info s) ≠ InfoModeSingle)) as [H|H];
    [rewrite bool_decide_true by done|rewrite bool_decide_false by done].
Qed.

Lemma full_own_inv s f f' : ¬ over (f_life f) → full_inv s f → full_own f f' → full_inv s f'.
Proof.
  intros Ho [Hl Hj Hu] Hs. destruct (not_over _ Ho) as [Hm Hc].
  pose proof (joined_own f f' Hj Hs) as Hj'. destruct Hs as [r Hs|l Hs]; split; try done; simpl.
  - destruct (up_own_simulated (f_life f) _ _ Hs (jo_sess f Hj) (jo_point f Hj)) as [->|H]; [done|].
    eapply rtc_r; [exact Hl|]. split; [done|]. split; [done|]. left. by apply os_uplink.
  - by eapply up_inv_own.
  - eapply rtc_r; [exact Hl|]. split; [done|]. split; [done|]. left. by apply os_game.
  - apply up_inv_with; [done|]. rewrite <- (jo_sess f Hj). intros Hd.
    by apply (own_step_done (f_life f) l Hd), os_game.
Qed.

Lemma full_inv_reach s f : full_reach s f → full_inv s f.
Proof.
  apply (rtc_ind_r (R := full_step) (full_inv s)); [apply full_inv_start|].
  intros x y _ Hs Hx. destruct Hs as [y Ho Hs|l Ho Hs]; [by eapply full_own_inv|].
  destruct Hx as [Hl Hj Hu], (not_over _ Ho) as [Hm Hc]. split; simpl.
  - eapply rtc_r; [exact Hl|]. split; [done|]. split; [done|]. by right.
  - by apply joined_env.
  - apply up_inv_with; [done|]. rewrite <- (jo_sess x Hj). by destruct Hs.
Qed.

(** ** The end of the session *)

(** The session by itself, its uplink included. *)
Definition full_alone (f f' : full) : Prop := ¬ over (f_life f) ∧ full_own f f'.

(** The uplink goes on, the others stand still. *)
Lemma lift_up r r' l :
  rtc up_own r r' → ¬ over l → l_s l = sess r → l_up l = point r →
  rtc full_alone (MkFull l r) (MkFull (set_up (point r') (set_s (sess r') l)) r').
Proof.
  intros Hr. revert l. induction Hr as [r|r r1 r2 Hs _ IH]; intros l Ho Hse Hp.
  { rewrite set_s_same by done. rewrite set_up_same by done. apply rtc_refl. }
  eapply rtc_l; [split; [exact Ho|by apply fo_uplink]|].
  by apply (IH (set_up (point r1) (set_s (sess r1) l))).
Qed.

Lemma rtc_up_moves r r' : rtc up_own r r' → uplink_moves (sess r) (sess r').
Proof.
  induction 1 as [r|r r1 r2 Hs _ (I1 & I2 & I3 & I4)]; [done|].
  destruct (up_own_moves _ _ Hs) as (H1 & H2 & H3 & H4). split_and!; congruence.
Qed.

(** Without an uplink the steps of ClientRun.v are the steps here. *)
Lemma lift_alone l l' :
  rtc alone l l' → l_up l = UStopped →
  rtc full_alone (MkFull l (Idle UpStopped (l_s l))) (MkFull l' (Idle UpStopped (l_s l'))).
Proof.
  induction 1 as [l|l l1 l2 [Ho Hs] _ IH]; intros Hu; [apply rtc_refl|].
  destruct Hs as [Hs|Hs]; [|destruct Hs; congruence].
  eapply rtc_l; [split; [exact Ho|by apply fo_game]|]. apply IH. by rewrite (game_step_up _ _ Hs).
Qed.

Lemma session_ends s f :
  full_inv s f → done (f_life f) = true → over (f_life f) ∨ to_send (f_life f) ≤ room (f_life f) →
  ∃ f', rtc full_alone f f' ∧ over (f_life f') ∧ (calm (f_life f) → l_main (f_life f') = MEnded).
Proof.
  intros [Hl Hj Hu] Hd Hr. destruct f as [l r]. simpl in *.
  destruct (over_or_not l) as [Ho|Ho].
  { exists (MkFull l r). split; [apply rtc_refl|]. split; [done|]. intros [_ Hc]. by destruct Ho. }
  destruct Hr as [Hr|Hr]; [done|]. destruct Hj as [Hse Hp]; simpl in *.
  destruct (uplink_ends r Hu) as (s' & Hup & Hd'); [unfold done in Hd; by rewrite <- Hse|].
  pose proof (lift_up _ _ l Hup Ho Hse Hp) as Hfull. set (l1 := set_up _ _) in Hfull.
  destruct (rtc_up_moves _ _ Hup) as (_ & Hdm & _). simpl in Hdm.
  assert (full_inv s (MkFull l1 (Idle UpStopped s'))) as [Hl1 _ _].
  { assert (full_inv s (MkFull l r)) as H0 by by split. clear Hr. revert H0 Hfull.
    generalize (MkFull l r). intros f0 H0 Hf. revert H0.
    induction Hf as [f0|f0 f1 f2 [Ho' Hs] _ IH]; [done|]. intros H0. apply IH. by eapply full_own_inv. }
  destruct (ends_alone s l1) as (l2 & Hl2 & Ho2 & Hc2); [by apply life_inv_reach|done| |].
  { right. unfold to_send, room in *. simpl. rewrite Hdm, <- Hse. exact Hr. }
  exists (MkFull l2 (Idle UpStopped (l_s l2))). split_and!; [|done|done].
  etrans; [exact Hfull|]. by apply (lift_alone l1).
Qed.

Lemma full_alone_reach f f' : rtc full_alone f f' → rtc full_step f f'.
Proof. induction 1 as [|x y z [Ho Hs] _ IH]; [apply rtc_refl|]. by eapply rtc_l; [by apply fs_own|]. Qed.

(** [handleUplinkConn] of Uplink.v is a path here. *)
Lemma handleUplinkConn_path picks c s s' u :
  handleUplinkConn picks c s = (s', Ok u) → rtc up_own (Idle (UpDrain c) s) (Serve u false).
Proof.
  unfold handleUplinkConn. rewrite drain_eq.
  destruct (handshake (drained s) c) as [c' [[]|e| |]] eqn:Hh; intros [= _ <-].
  eapply rtc_l; [by apply (up_drained c picks), drain_eq|]. by eapply rtc_once, up_hello.
Qed.

Lemma session_ends_uncrashed s f :
  full_inv s f → done (f_life f) = true → over (f_life f) ∨ to_send (f_life f) ≤ room (f_life f) →
  ¬ crashing (f_life f) → ∃ f', rtc full_alone f f' ∧ l_main (f_life f') = MEnded.
Proof.
  intros Hi Hd Hr Hc. destruct (over_or_not (f_life f)) as [[Hm|Hm]|Ho];
    [exists f; split; [apply rtc_refl|done]|by destruct Hc; left|]. destruct Hr as [|Hr]; [done|].
  destruct (calms_down s (f_life f) (life_inv_reach _ _ (fi_life _ _ Hi)) Ho Hr Hc)
    as (l1 & Hl1 & _ & Hc1 & Hr1 & Hd1).
  assert (∃ f1, rtc full_alone f f1 ∧ f_life f1 = l1 ∧ full_inv s f1) as (f1 & Hf1 & Hl & Hi1).
  { destruct Hl1 as [->|Hg]; [exists f; split; [apply rtc_refl|done]|].
    eexists. split; [apply rtc_once; split; [exact Ho|by apply fo_game]|]. split; [done|].
    eapply full_own_inv; [exact Ho|exact Hi|by apply fo_game]. }
  subst l1. destruct (session_ends s f1 Hi1 (Hd1 Hd)) as (f2 & Hf2 & _ & Hm); [by right|].
  exists f2. split; [by etrans|auto].
Qed.

(** ** Properties *)

(** A session that connects to the server. *)
Definition ex_f4 : full := MkFull (set_up UConn (set_s (u_session ex_u0) (start_life ex_session))) (Serve ex_u0 false).

Lemma ex_full_reach : full_reach ex_session ex_f4.
Proof.
  assert (rtc up_own (Idle UpTop ex_session) (Serve ex_u0 false)) as Hup.
  { eapply rtc_l; [by apply up_again|]. eapply rtc_l; [apply up_dialled|].
    eapply handleUplinkConn_path, ex_u0_start. }
  assert (start_full ex_session = MkFull (start_life ex_session) (Idle UpTop ex_session)) as H0 by reflexivity.
  unfold full_reach. rewrite H0. apply full_alone_reach, (lift_up _ _ _ Hup); [|reflexivity..].
  intros [H|H]; discriminate H.
Qed.

(** C13: the uplink does what ClientRun.v assumes of it.  Every execution of a session
    with the real uplink (dialling, draining, handshake, the four goroutines, the end
    of the connection, the pause) is an execution of ClientRun.v with the session and
    the program point of the uplink, so that all that is shown there holds here.  When
    one goroutine of a connection ends, or the session is cancelled, the context of
    the connection is cancelled; it is closed only after that, so that no goroutine
    reads or writes a connection that was closed under a live context. *)
Theorem uplink_refines s f :
  full_reach s f →
  life_reach s (f_life f) ∧ l_s (f_life f) = sess (f_up f) ∧ l_up (f_life f) = point (f_up f)
  ∧ ∀ u closed, f_up f = Serve u closed →
    (u_in u = InStopped ∨ u_out u = Uplink.OutStopped ∨ u_nops u = Stopped ∨ u_pkts u = Stopped
     ∨ done (f_life f) = true ∨ closed = true → u_done u = true).
Proof.
  intros Hr. destruct (full_inv_reach s f Hr) as [Hl [Hs Hp] [H1 H2 H3]].
  split_and!; [done..|]. intros u closed Hu [H|[H|[H|[H|[H| ->]]]]];
    [apply (H1 u closed Hu); tauto..| |by apply H3].
  apply (H2 u closed Hu). unfold done in H. rewrite Hs, Hu in H. exact H.
Qed.

Lemma uplink_refines_witness :
  life_reach ex_session (f_life ex_f4) ∧ l_up (f_life ex_f4) = UConn.
Proof.
  destruct (uplink_refines ex_session ex_f4 ex_full_reach) as (H1 & _ & H2 & _).
  split; [exact H1|]. rewrite H2. reflexivity.
Defined.

Lemma rtc_dial s : p_done (s_ports s) = false → rtc up_own (returned s) (Idle UpDial s).
Proof.
  intros Hd. unfold returned. rewrite Hd. eapply rtc_l; [apply up_resume|]. by apply rtc_once, up_again.
Qed.

(** C14: how a connection ends, and the session with it.  A connection whose context is
    cancelled, for whatever reason and at whatever points its goroutines are, is
    closed and left by all of them without changing the session, and while the session
    lives the server is dialled again.  Once the session is cancelled the whole client
    session, its uplink included, can get to the end of [Run] by itself if the channel
    to the daemon has three free places and the client is not crashing: it has not
    crashed, and the message it handles, if any, does not panic (as an INFO_ITEM of six
    bytes does). *)
Theorem uplink_ends_and_redials s f :
  full_reach s f →
  (∀ u closed, f_up f = Serve u closed → u_done u = true →
    rtc up_own (f_up f) (returned (u_session u))
    ∧ (done (f_life f) = false → rtc up_own (f_up f) (Idle UpDial (u_session u))))
  ∧ (done (f_life f) = true → 3 ≤ room (f_life f) → ¬ crashing (f_life f) →
     ∃ f', rtc full_alone f f' ∧ l_main (f_life f') = MEnded).
Proof.
  intros Hr. pose proof (full_inv_reach s f Hr) as Hi. split.
  - intros u closed Hu Hd. rewrite Hu. pose proof (serve_returns u closed Hd) as Hret. split; [done|].
    intros Hl. etrans; [exact Hret|]. apply rtc_dial.
    unfold done in Hl. by rewrite (jo_sess f (fi_joined s f Hi)), Hu in Hl.
  - intros Hd Hroom. apply (session_ends_uncrashed s); [done..|]. right. by apply to_send_room.
Qed.

(** The user interrupts the session while it is connected. *)
Definition ex_f6 : full :=
  MkFull (cancel (f_life ex_f4)) (with_sess (l_s (cancel (f_life ex_f4))) (f_up ex_f4)).

Lemma uplink_ends_and_redials_witness :
  (∃ s', rtc up_own (f_up ex_f6) (Idle UpTop s'))
  ∧ ∃ f', rtc full_alone ex_f6 f' ∧ l_main (f_life f') = MEnded.
Proof.
  assert (full_reach ex_session ex_f6) as Hr.
  { eapply rtc_r; [exact ex_full_reach|]. apply fs_env; [|apply es_interrupt].
    intros [H|H]; discriminate H. }
  destruct (uplink_ends_and_redials ex_session ex_f6 Hr) as [H1 H2]. split.
  - eexists. destruct (H1 _ false eq_refl eq_refl) as [H _]. exact H.
  - destruct H2 as (f' & H & Hm); [reflexivity| | |exists f'; split; [exact H|exact Hm]].
    + apply (bool_decide_unpack _). vm_compute. exact I.
    + intros [Hc|(nonce & msg & Hc & _)]; discriminate Hc.
Defined.
