(* ===== verification/Replication.v ===== *)
(** * Replication of the log, end to end

    Any server that implements [LogServer] with any number of client sessions:
    the handlers of ClientSession.v and Uplink.v work on the real send queue and
    the real log replica, packets travel, get lost with their connection, and both
    sides restart from their files. *)

From stdpp Require Import base gmap sets strings vector numbers tactics list relations.
From Stdlib Require Import ZArith Lia.
From S2P Require Import Prelude Words GoIO GoStr WalEntry Packet Wal Events ServerSession LogServer.
From S2P Require Import IpcMsg SendQueue ClientPorts PositionSystem Daemon ClientSession Uplink.

(** ** The system *)

(** A client: [n_up] are packets written to a connection and not yet handled by
    the server, [n_down] what the server wrote to the current one and [pumpIn] has
    not put into [uplinkIn] yet, [n_next] the index at which the server's stream
    of the current connection stands.  [n_conn]: the goroutines of the connection
    run.  [n_round]: the records that the current round of [handleSendQueue] has not
    sent yet. *)
Record Node : Type := MkNode {
  n_session : Session;
  n_up : list Packet;
  n_down : list Packet;
  n_next : u32;
  n_conn : bool;
  n_round : list bytes;
}.

Definition set_n_session s n := MkNode s (n_up n) (n_down n) (n_next n) (n_conn n) (n_round n).
Definition set_n_up l n := MkNode (n_session n) l (n_down n) (n_next n) (n_conn n) (n_round n).
Definition set_n_down l n := MkNode (n_session n) (n_up n) l (n_next n) (n_conn n) (n_round n).
Definition set_n_next i n := MkNode (n_session n) (n_up n) (n_down n) i (n_conn n) (n_round n).
Definition set_n_conn b n := MkNode (n_session n) (n_up n) (n_down n) (n_next n) b (n_round n).
Definition set_n_round l n := MkNode (n_session n) (n_up n) (n_down n) (n_next n) (n_conn n) l.

(** What the log and the queue of a session, and its uplink, are made of. *)
Definition store (s : Session) : Info * option SendQueue * WAL * chan Packet * port Packet :=
  (s_Info s, s_sendQ s, s_wal s, s_uplinkIn s, p_uplinkOut (s_ports s)).

(** The files a session leaves behind, as its next start finds them. *)
Definition left_files (s : Session) (q : SendQueue) (path : bytes) : res file :=
  if decide (path = s_dataDir s ++ str "/wal.bin")
  then Ok (open_file (f_data (w_file (s_wal s))) [])
  else Ok (open_file (f_data (q_file q)) []).

Section system.
Context {St : Type} `{LogServer St}.

Definition reply_of_handle (r : res (option Packet)) : list Packet :=
  match r with Ok (Some p) => [p] | _ => [] end.

(** The way of an entry from the queue to the log and of the log to the client,
    with nothing lost: a round of [handleSendQueue] takes what is pending and sends
    one record after the other; the packets are written, handled by the server and
    answered; what the server writes arrives and is handled. *)
Inductive node_flow (s : St) (n : Node) : St → Node → Prop :=
  | nd_round q ds :
      n_round n = [] → p_done (s_ports (n_session n)) = false →
      s_sendQ (n_session n) = Some q → ds ≡ₚ Pending q → node_flow s n s (set_n_round ds n)
  | nd_resend d rest ss :
      n_round n = d :: rest → chan_ready (pt_chan (p_uplinkOut (s_ports (n_session n)))) = true →
      send_pending [d] (n_session n) = (ss, Ok tt) →
      node_flow s n s (set_n_round rest (set_n_session ss n))
  | nd_pump_out pkt rest :
      n_conn n = true → ch_buf (pt_chan (p_uplinkOut (s_ports (n_session n)))) = pkt :: rest →
      node_flow s n s (set_n_up (n_up n ++ [pkt]) (set_n_session (take_out (n_session n)) n))
  | nd_pump_in pkt rest :
      n_conn n = true → n_down n = pkt :: rest → chan_ready (s_uplinkIn (n_session n)) = true →
      node_flow s n s (set_n_down rest (set_n_session (push_in pkt (n_session n)) n))
  | nd_handle pkt rest ss r :
      n_conn n = true → ch_buf (s_uplinkIn (n_session n)) = pkt :: rest →
      handleUplinkPacket pkt (take_in (n_session n)) = (ss, r) →
      node_flow s n s (set_n_session ss n)
  | nd_serve up1 pkt up2 s' r :
      n_up n = up1 ++ pkt :: up2 → srv_handle pkt s = (s', r) →
      node_flow s n s' (set_n_up (up1 ++ up2) (set_n_down (n_down n ++ reply_of_handle r) n))
  | nd_stream p :
      n_conn n = true → srv_packet s (n_next n) = Some p →
      node_flow s n s (set_n_next (uincr (n_next n)) (set_n_down (n_down n ++ [p]) n)).

(** The other goroutines of the session, and positions of other players. *)
Inductive node_local (s : St) (n : Node) : St → Node → Prop :=
  | nd_game nonce msg ss r :
      handleMsg nonce msg (n_session n) = (ss, r) → node_local s n s (set_n_session ss n)
  | nd_tick order ss :
      on_positions (tick order) (n_session n) = (ss, Ok tt) → node_local s n s (set_n_session ss n)
  | nd_nop ss :
      on_ports (TrySendUplink nop_packet) (n_session n) = (ss, Ok tt) →
      node_local s n s (set_n_session ss n)
  | nd_other ss :
      store ss = store (n_session n) → node_local s n s (set_n_session ss n)
  | nd_position d :
      node_local s n s (set_n_down (n_down n ++ [MkPacket OpPosition d]) n).

(** The end of a connection and the next one. *)
Inductive node_link (s : St) (n : Node) : St → Node → Prop :=
  | nd_disconnect : node_link s n s (set_n_conn false n)
  | nd_drain : n_conn n = false → node_link s n s (set_n_session (drained (n_session n)) n)
  | nd_connect :
      n_conn n = false → ch_buf (s_uplinkIn (n_session n)) = [] →
      node_link s n s
        (MkNode (n_session n) (n_up n) [] (ch_WalIndex (hello_data (n_session n))) true (n_round n)).

(** What is lost: a reply of the server (it goes to an earlier connection), a packet,
    or the whole session, which starts again on its files. *)
Inductive node_loss (s : St) (n : Node) : St → Node → Prop :=
  | nd_mute up1 pkt up2 s' r :
      n_up n = up1 ++ pkt :: up2 → srv_handle pkt s = (s', r) →
      node_loss s n s' (set_n_up (up1 ++ up2) n)
  | nd_lose up1 pkt up2 :
      n_up n = up1 ++ pkt :: up2 → node_loss s n s (set_n_up (up1 ++ up2) n)
  | nd_restart q prefix hello randBytes done picks k d ss :
      s_sendQ (n_session n) = Some q →
      session_dir prefix (ipc.hi_SessionID hello) = s_dataDir (n_session n) →
      Run_start prefix (s_Info (n_session n)) hello None
        (left_files (n_session n) q) randBytes done picks k d = Ok ss →
      node_loss s n s (MkNode ss (n_up n) [] (n_next n) false []).

(** A step of one client, with the server. *)
Inductive node_step (s : St) (n : Node) (s' : St) (n' : Node) : Prop :=
  | nd_flow : node_flow s n s' n' → node_step s n s' n'
  | nd_local : node_local s n s' n' → node_step s n s' n'
  | nd_link : node_link s n s' n' → node_step s n s' n'
  | nd_loss : node_loss s n s' n' → node_step s n s' n'.

(** The whole system.  [sy_rogue] is any packet of anybody else. *)
Inductive sys_step (x : St * gmap nat Node) : St * gmap nat Node → Prop :=
  | sy_node i n s' n' :
      x.2 !! i = Some n → node_step x.1 n s' n' → sys_step x (s', <[i := n']> x.2)
  | sy_rogue pkt s' r : srv_handle pkt x.1 = (s', r) → sys_step x (s', x.2)
  | sy_restart s' : srv_restart x.1 s' → sys_step x (s', set_n_conn false <$> x.2).

Definition sys_reach : St * gmap nat Node → St * gmap nat Node → Prop := rtc sys_step.
End system.

(** ** The queue of a session *)

(** Every record of the queue is the serialization of a well-formed entry under
    its key. *)
Definition good_rec (r : record) : Prop :=
  ∃ e, normal e ∧ DedupKey e = Ok r.1 ∧ Serialize e = Ok r.2.

(** A queue whose file covers it, on a disk that refuses nothing. *)
Definition qstore (q : SendQueue) : Prop :=
  ∃ rs, backs q rs ∧ Forall good_rec rs ∧ faults (f_script (q_file q)) = 0.

Lemma good_rec_ok r : good_rec r → rec_ok r.
Proof.
  intros (e & [Hk _] & _ & Hd). destruct (Serialize_known e Hk) as (d & Hd' & Hl).
  rewrite Hd in Hd'. simplify_eq. unfold rec_ok. destruct Hl; lia.
Qed.

Lemma qstore_lookup q k d : qstore q → q_entries q !! k = Some d → good_rec (k, d).
Proof.
  intros (rs & Hb & Hg & _) Hq. pose proof (backs_lookup q rs k d Hb Hq).
  by eapply (proj1 (Forall_forall _ _)) in Hg.
Qed.

Lemma qstore_Add q k d :
  qstore q → good_rec (k, d) →
  qstore (fst (Add k d q)) ∧ snd (Add k d q) = Ok tt
  ∧ q_entries (fst (Add k d q)) = sq_spec (q_entries q) (OpAdd k d).
Proof.
  intros (rs & Hb & Hg & Hf) Hr. pose proof (good_rec_ok _ Hr) as Hok.
  destruct (Add_nofault k d q Hok (b_open q rs Hb) Hf) as (q' & Ha & He & Hf'). rewrite Ha. simpl.
  split; [|done]. destruct (backs_Add_ok _ _ _ _ _ Hok Hb Ha) as (rs' & Hb' & [l Hp]).
  exists rs'. split; [done|]. split; [|done].
  assert (Forall good_rec (rs ++ [(k, d)])) as Hall by (apply Forall_app_2; [done|by constructor]).
  rewrite Hp in Hall. by apply Forall_app in Hall as [? _].
Qed.

Lemma qstore_Ack q k :
  qstore q → qstore (fst (Ack k q)) ∧ snd (Ack k q) = Ok tt
  ∧ q_entries (fst (Ack k q)) = delete k (q_entries q).
Proof.
  intros (rs & Hb & Hg & Hf). destruct (Ack k q) as [q' r] eqn:Ha.
  destruct (Ack_cases k q q' r (b_open q rs Hb) Ha) as (-> & _ & He & _ & Hf').
  split; [|done]. destruct (backs_Ack _ _ _ _ _ Hb Ha) as (rs' & Hb' & [l ->]).
  exists rs'. split; [done|]. split; [by apply Forall_app in Hg as [? _]|by apply Hf'].
Qed.

Lemma qstore_reopen q :
  qstore q →
  ∃ q', snd (OpenSendQueue (Ok (open_file (f_data (q_file q)) []))) = Ok q'
  ∧ qstore q' ∧ q_entries q ⊆ q_entries q'.
Proof.
  intros (rs & Hb & Hg & Hf). rewrite (b_data q rs Hb).
  destruct (OpenSendQueue_records rs (b_ok q rs Hb)) as (q' & -> & He & Hb' & Hs).
  exists q'. split; [done|]. split; [exists rs; by rewrite Hs|]. rewrite He. apply Hb.
Qed.

(** ** What the handlers do to the store *)

Definition static (s : Session) : Info * WAL * chan Packet := (s_Info s, s_wal s, s_uplinkIn s).

Lemma handleMsg_static nonce msg : keeps static (handleMsg nonce msg).
Proof.
  assert (∀ A (m : M SendQueue A), keeps static (on_sendQ m)) by (intros; by apply keeps_sendQ).
  assert (∀ i, keeps static (sendGameWal i))
    by (intros i; apply sendGameWal_keeps; intros m; by apply keeps_zoom).
  assert (keeps static (expectedSeq msg)) by (intros s; unfold expectedSeq; by case_decide).
  unfold handleMsg, dispatch, handleWalIn, newWalEntry. solve_keeps.
Qed.

(** The queue of [s'] covers that of [s]. *)
Definition queue_grows (s s' : Session) : Prop := ∀ q,
  s_sendQ s = Some q → qstore q →
  ∃ q', s_sendQ s' = Some q' ∧ qstore q' ∧ q_entries q ⊆ q_entries q'.

Lemma queue_grows_same s s' : s_sendQ s' = s_sendQ s → queue_grows s s'.
Proof. intros He q Hq Hs. rewrite He. eauto. Qed.

Lemma queue_grows_trans s1 s2 s3 : queue_grows s1 s2 → queue_grows s2 s3 → queue_grows s1 s3.
Proof.
  intros H12 H23 q Hq Hs. destruct (H12 q Hq Hs) as (q2 & Hq2 & Hs2 & H2).
  destruct (H23 q2 Hq2 Hs2) as (q3 & Hq3 & Hs3 & H3). exists q3. split_and!; [done..|by etrans].
Qed.

Lemma newWalEntry_stored e s q :
  normal e → s_sendQ s = Some q → qstore q →
  ∃ k q', DedupKey e = Ok k ∧ s_sendQ (fst (newWalEntry e s)) = Some q' ∧ qstore q'
  ∧ q_entries q ⊆ q_entries q' ∧ is_Some (q_entries q' !! k).
Proof.
  intros He Hq Hs. destruct (newWalEntry_eq e s q (proj1 He) Hq) as (k & d & Hk & Hd & ->).
  destruct (qstore_Add q k d Hs) as (Hs' & Hok & Hent); [by exists e|].
  exists k, (fst (Add k d q)). split_and!; [done..| |by apply Add_Ok_some].
  rewrite Hent. simpl. destruct (q_entries q !! k) eqn:Hx; [done|]. by apply insert_subseteq.
Qed.

Lemma handleWalIn_queue nonce w s : queue_grows s (fst (handleWalIn nonce w s)).
Proof.
  unfold handleWalIn, mbind at 1, M_bind at 1, gets.
  destruct (wal_in_entry w nonce s) as [e|err| |] eqn:He; [|by apply queue_grows_same..].
  unfold mbind at 1, M_bind at 1, lift at 1. intros q Hq Hs.
  destruct (newWalEntry_stored e s q (wal_in_entry_normal _ _ _ _ He) Hq Hs)
    as (k & q' & _ & Hq' & Hs' & Hsub & _).
  destruct (newWalEntry_eq e s q) as (k' & d & _ & _ & Hn); [by eapply wal_in_entry_normal|done|].
  rewrite Hn in Hq'. unfold mbind, M_bind, wrapM, on_err, lift. rewrite Hn, ack_payload_eq.
  exists q'. split; [|done]. rewrite <- Hq'. unfold on_ports, zoom. by destruct (Send _ _).
Qed.

Lemma handleMsg_queue nonce msg s : queue_grows s (fst (handleMsg nonce msg s)).
Proof.
  assert (∀ i, keeps s_sendQ (sendGameWal i)) as Hgw
    by (intros i; apply sendGameWal_keeps; intros m; by apply keeps_zoom).
  assert (∀ s, queue_grows s (fst (dispatch nonce msg s))) as Hd.
  { clear s. intros s. unfold dispatch, mbind at 1, M_bind at 1, gets.
    destruct (decide (ipc.m_Op msg = ipc.OpHello)); [by apply queue_grows_same|].
    destruct (decide (ipc.m_Op msg = ipc.OpWal)).
    - unfold mbind, M_bind, lift. destruct (ipc.ParseMessageBodyWalIn _) as [w| | |]; [|by apply queue_grows_same..].
      case_decide; [apply handleWalIn_queue|by apply queue_grows_same].
    - apply queue_grows_same. match goal with |- s_sendQ (fst (?m s)) = _ => enough (keeps s_sendQ m) as Hk by apply Hk end.
      solve_keeps. }
  unfold handleMsg, mbind, M_bind.
  assert (s_sendQ (fst (expectedSeq msg s)) = s_sendQ s) as Hs by (unfold expectedSeq; by case_decide).
  assert (∃ n, snd (expectedSeq msg s) = Ok n) as [n Hn] by (unfold expectedSeq; case_decide; by eexists).
  destruct (expectedSeq msg s) as [s1 r]. simpl in *. subst r.
  case_decide; [by apply queue_grows_same|].
  apply (queue_grows_trans _ s1); [by apply queue_grows_same|apply Hd].
Qed.

(** *** Packets of the server *)

(** An acknowledgement of a key of [log]. *)
Definition ack_in (log : list WalEntry) (pkt : Packet) : Prop :=
  p_Op pkt = OpWalAck → ∃ k, has_key k log ∧ p_Data pkt = vec_to_list k.

Lemma wal_packet_is_wal x : is_wal (wal_packet x).
Proof. done. Qed.

Lemma wal_packet_parse e i :
  normal e → ParseServerWal (p_Data (wal_packet (e, i))) = Ok (MkServerWal i e).
Proof.
  intros [Hk Hn]. destruct (Serialize_known e Hk) as (d & Hd & _). unfold wal_packet.
  cbn [p_Data fst snd]. rewrite (ServerWal_Serialize_layout i e d Hd).
  pose proof (ParseServerWal_layout i e d [] Hd) as Hp. rewrite app_nil_r, Hn in Hp. exact Hp.
Qed.

Definition same_statics (s s' : Session) : Prop :=
  s_Info s' = s_Info s ∧ s_uplinkIn s' = s_uplinkIn s.

(** A log packet is appended to the replica and taken off the queue. *)
Lemma handle_wal_packet e i s q :
  normal e → synced (s_wal s) → s_sendQ s = Some q → qstore q →
  ∃ s' k q' l', handleUplinkPacket (wal_packet (e, i)) s = (s', Ok tt)
  ∧ DedupKey e = Ok k ∧ same_statics s s'
  ∧ s_wal s' = l' ∧ w_entries l' = aappend e (w_entries (s_wal s)) ∧ synced l'
  ∧ s_sendQ s' = Some q' ∧ qstore q' ∧ q_entries q' = delete k (q_entries q).
Proof.
  intros He Hw Hq Hs. destruct (Append_synced e _ He Hw) as (l' & Ha & Hes & Hl').
  destruct (proj1 (DedupKey_known e) (proj1 He)) as [k Hk].
  destruct (qstore_Ack q k Hs) as (Hs' & Hok & Hent).
  assert (OpWal ≠ OpNOP) as Hne by by_compute.
  unfold handleUplinkPacket. change (p_Op (wal_packet (e, i))) with OpWal.
  rewrite decide_False, decide_True by done. rewrite wal_packet_parse by done.
  cbn [wrap_err]. unfold mbind, M_bind, lift, wrapM, on_err, on_wal, zoom. cbn [sw_Entry].
  rewrite Ha, Hk. cbn [wrap_err]. rewrite (on_sendQ_some (Ack k) (set_s_wal l' s) q Hq).
  exists (set_s_sendQ (Some (fst (Ack k q))) (set_s_wal l' s)), k, (fst (Ack k q)), l'.
  by rewrite Hok.
Qed.

(** Any other packet leaves the replica alone; an acknowledgement takes one key
    off the queue. *)
Lemma handle_other_packet pkt s q :
  ¬ is_wal pkt → s_sendQ s = Some q → qstore q →
  let s' := fst (handleUplinkPacket pkt s) in
  same_statics s s' ∧ s_wal s' = s_wal s
  ∧ ∃ q', s_sendQ s' = Some q' ∧ qstore q' ∧
    (q_entries q' = q_entries q
     ∨ ∃ k, p_Op pkt = OpWalAck ∧ p_Data pkt = vec_to_list k ∧ q_entries q' = delete k (q_entries q)).
Proof.
  intros Hw Hq Hs. unfold is_wal in Hw. unfold handleUplinkPacket.
  assert (∃ q', s_sendQ s = Some q' ∧ qstore q' ∧ (q_entries q' = q_entries q
    ∨ ∃ k, p_Op pkt = OpWalAck ∧ p_Data pkt = vec_to_list k ∧ q_entries q' = delete k (q_entries q)))
    as Hsame by eauto.
  case_decide; [done|]. rewrite (decide_False (P := p_Op pkt = OpWal)) by done. case_decide as Hack.
  - case_decide as Hl; [done|]. rewrite (on_sendQ_some _ s q Hq). simpl. split; [done|]. split; [done|].
    destruct (qstore_Ack q (arr_of 16 (p_Data pkt)) Hs) as (Hs' & _ & Hent).
    eexists. split; [done|]. split; [done|]. right. exists (arr_of 16 (p_Data pkt)).
    rewrite arr_of_list by lia. done.
  - case_decide; [|done]. unfold mbind, M_bind, lift.
    destruct (wrap_err _ (ParseServerPosition _)) as [p|err| |]; [|done..].
    unfold on_positions, zoom. by destruct (OnServerPos p _) as [ps r].
Qed.

(** *** A new start *)

Lemma Run_start_stored prefix hello randBytes done picks k d s q s' :
  s_sendQ s = Some q → qstore q → synced (s_wal s) → i_Mode (s_Info s) ≠ InfoModeSingle →
  session_dir prefix (ipc.hi_SessionID hello) = s_dataDir s →
  Run_start prefix (s_Info s) hello None (left_files s q) randBytes done picks k d = Ok s' →
  s_Info s' = s_Info s ∧ synced (s_wal s') ∧ w_entries (s_wal s') = w_entries (s_wal s)
  ∧ ∃ q', s_sendQ s' = Some q' ∧ qstore q' ∧ q_entries q ⊆ q_entries q'.
Proof.
  intros Hq Hs Hw Hm Hdir. unfold Run_start. intros ([] & _ & Hst)%res_bind_Ok_inv.
  unfold makeDataDir in Hst. rewrite Hdir, res_bind_ok in Hst.
  apply res_bind_Ok_inv in Hst as (oq & Hoq & Hst). unfold Run_queue in Hoq.
  rewrite decide_True in Hoq by done. unfold left_files at 1 in Hoq.
  rewrite decide_False in Hoq by (intros ?%app_inv_head; done).
  destruct (qstore_reopen q Hs) as (q' & Ho & Hs' & Hsub). rewrite Ho in Hoq. simplify_eq/=.
  apply res_bind_Ok_inv in Hst as (l & Hl & Hst). unfold left_files in Hl. rewrite decide_True in Hl by done.
  destruct Hw as ((Hmw & Hk & Hn) & Hd & _).
  destruct (open_stored (f_data (w_file (s_wal s))) (w_entries (s_wal s))) as (l2 & Hl2 & He & Hsy);
    [apply Hd|done..|]. rewrite Hl2 in Hl. simplify_eq/=.
  apply res_bind_Ok_inv in Hst as (sg & _ & Hst). apply res_bind_Ok_inv in Hst as (sn & _ & Hst).
  simplify_eq/=. eauto 10.
Qed.

(** ** The invariant *)

Definition flight (n : Node) : list Packet := ch_buf (s_uplinkIn (n_session n)) ++ n_down n.

(** The log packets on their way are the entries after those of the replica, up
    to where the server's stream stands. *)
Definition flow (log : list WalEntry) (n : Node) : Prop :=
  let l := w_entries (s_wal (n_session n)) in
  Forall (ack_in log) (flight n)
  ∧ ∃ zs, filter is_wal (flight n) = wal_packet <$> zs
    ∧ zs.*1 = take (length zs) (drop (length l) log)
    ∧ uval (n_next n) = Z.of_nat (length l + length zs) ∧ length l + length zs ≤ length log.

Record node_inv (log : list WalEntry) (n : Node) : Prop := {
  ni_mode : i_Mode (s_Info (n_session n)) ≠ InfoModeSingle;
  ni_queue : ∃ q, s_sendQ (n_session n) = Some q ∧ qstore q;
  ni_wal : synced (s_wal (n_session n));
  ni_prefix : w_entries (s_wal (n_session n)) `prefix_of` log;
  ni_flow : n_conn n = true → flow log n;
  ni_round : Forall (λ d, ∃ k, good_rec (k, d)) (n_round n);
}.

(** Key [k] waits in the queue of the client or is in the log. *)
Definition owned (log : list WalEntry) (n : Node) (k : vec u8 16) : Prop :=
  (∃ q, s_sendQ (n_session n) = Some q ∧ is_Some (q_entries q !! k)) ∨ has_key k log.

Lemma has_key_prefix k l1 l2 : l1 `prefix_of` l2 → has_key k l1 → has_key k l2.
Proof. intros [l ->]. rewrite has_key_app. by left. Qed.

Lemma ack_in_grow log log' pkt : log `prefix_of` log' → ack_in log pkt → ack_in log' pkt.
Proof. intros Hp Ha Hop. destruct (Ha Hop) as (k & Hk & Hd). exists k. split; [by eapply has_key_prefix|done]. Qed.

Lemma take_drop_grow {A} (n m : nat) (l l' : list A) :
  l `prefix_of` l' → m + n ≤ length l → take n (drop m l') = take n (drop m l).
Proof.
  intros [k ->] Hn. rewrite drop_app_le by lia. rewrite take_app_le; [done|]. rewrite length_drop. lia.
Qed.

Lemma flow_grow log log' n : log `prefix_of` log' → flow log n → flow log' n.
Proof.
  intros Hp [Ha (zs & Hf & Hz & Hn & Hl)]. split.
  - eapply Forall_impl; [exact Ha|]. intros pkt. by apply ack_in_grow.
  - exists zs. split; [done|]. split; [|split; [done|]].
    + rewrite (take_drop_grow _ _ log) by done. exact Hz.
    + apply prefix_length in Hp. lia.
Qed.

Lemma node_inv_grow log log' n : log `prefix_of` log' → node_inv log n → node_inv log' n.
Proof.
  intros Hp [Hm Hq Hw Hpre Hf Hrd]. split; [done..|by etrans| |done]. intros Hc. eapply flow_grow; eauto.
Qed.

Lemma owned_grow log log' n k : log `prefix_of` log' → owned log n k → owned log' n k.
Proof. intros Hp [?|Hk]; [by left|right]. by eapply has_key_prefix. Qed.

(** *** Steps that leave replica and arrivals alone *)

Lemma node_inv_static log n ss :
  node_inv log n → static ss = static (n_session n) → queue_grows (n_session n) ss →
  node_inv log (set_n_session ss n)
  ∧ ∀ k, owned log n k → owned log (set_n_session ss n) k.
Proof.
  intros [Hm (q & Hq & Hs) Hw Hp Hf Hrd] Hst Hg. injection Hst as Hi Hwal Hin.
  destruct (Hg q Hq Hs) as (q' & Hq' & Hs' & Hsub). split.
  - split; simpl; rewrite ?Hi, ?Hwal; [done|by eauto|done|done| |done].
    intros Hc. specialize (Hf Hc). unfold flow, flight in *. simpl. by rewrite Hwal, Hin.
  - intros k [(q0 & Hq0 & Hk)|Hk]; [left|by right]. simplify_eq. exists q'. split; [done|].
    by eapply lookup_weaken_is_Some.
Qed.

Lemma flow_end log n :
  flow log n → n_down n = [] → ch_buf (s_uplinkIn (n_session n)) = [] →
  uval (n_next n) = Z.of_nat (length (w_entries (s_wal (n_session n)))).
Proof.
  intros [_ (zs & Hf & _ & Hn & _)] Hd Hb. unfold flight in Hf. rewrite Hb, Hd in Hf.
  symmetry in Hf. apply fmap_nil_inv in Hf. subst. rewrite Hn. simpl. lia.
Qed.

(** *** Arrivals *)

Lemma flow_eq log n n' :
  flight n' = flight n → w_entries (s_wal (n_session n')) = w_entries (s_wal (n_session n)) →
  n_next n' = n_next n → flow log n → flow log n'.
Proof. unfold flow. intros -> -> ->. done. Qed.

Lemma flow_push log n pkt :
  ¬ is_wal pkt → ack_in log pkt → flow log n → flow log (set_n_down (n_down n ++ [pkt]) n).
Proof.
  intros Hw Hack [Ha (zs & Hf & Hz & Hn & Hl)]. unfold flow, flight in *. simpl.
  rewrite app_assoc. split; [by apply Forall_app_2; [|constructor]|].
  exists zs. by rewrite filter_wal_snoc.
Qed.

Lemma flow_stream log n e :
  (Z.of_nat (length log) < 2 ^ 32)%Z → log !! Z.to_nat (uval (n_next n)) = Some e →
  flow log n →
  flow log (set_n_next (uincr (n_next n))
    (set_n_down (n_down n ++ [wal_packet (e, n_next n)]) n)).
Proof.
  intros Hlen He [Ha (zs & Hf & Hz & Hn & Hl)]. unfold flow, flight in *. simpl.
  pose proof (lookup_lt_Some _ _ _ He) as Hlt. rewrite app_assoc.
  rewrite Hn, Nat2Z.id in He. rewrite Hn, Nat2Z.id in Hlt.
  split; [by apply Forall_app_2; [|constructor]|]. exists (zs ++ [(e, n_next n)]).
  rewrite filter_app, Hf, fmap_app. split; [done|]. rewrite fmap_app, length_app. simpl.
  split_and!.
  - rewrite Hz, Nat.add_1_r. symmetry. apply take_S_snoc. by rewrite lookup_drop.
  - change (uval (uincr (n_next n)) = Z.of_nat (length (w_entries (s_wal (n_session n))) + (length zs + 1))).
    rewrite uincr_small by (change (2 ^ Z.of_N 32)%Z with (2 ^ 32)%Z; lia). lia.
  - lia.
Qed.

Lemma ack_not_wal k : ¬ is_wal (MkPacket OpWalAck k).
Proof. by destruct opcodes_distinct as (_ & _ & ? & _). Qed.

Lemma node_inv_push log n pkt :
  ¬ is_wal pkt → ack_in log pkt → node_inv log n →
  node_inv log (set_n_down (n_down n ++ [pkt]) n).
Proof.
  intros Hw Ha [Hm Hq Hwal Hp Hf Hrd]. split; [done..| |done]. intros Hc. simpl in Hc. by apply flow_push, Hf.
Qed.

Lemma node_inv_up log n l : node_inv log n → node_inv log (set_n_up l n).
Proof. intros [Hm Hq Hw Hp Hf Hrd]. split; try done. Qed.

(** *** One packet handled by the client *)

Lemma next_entry (l log : list WalEntry) e :
  NoDup (DedupKey <$> log) → l `prefix_of` log → log !! length l = Some e →
  aappend e l = l ++ [e] ∧ l ++ [e] `prefix_of` log.
Proof.
  intros Hnd [k ->] He. rewrite lookup_app_r, Nat.sub_diag in He by done.
  destruct k as [|x k]; [done|]. simplify_eq/=. split; [|by exists k; rewrite <- app_assoc].
  unfold aappend. rewrite decide_False; [done|]. intros Hin.
  rewrite fmap_app, fmap_cons in Hnd. apply NoDup_app in Hnd as (_ & Hd & _).
  by apply (Hd _ Hin); left.
Qed.

Lemma handle_inv log n pkt rest ss r :
  (Z.of_nat (length log) < 2 ^ 32)%Z → NoDup (DedupKey <$> log) → Forall normal log →
  node_inv log n → n_conn n = true → ch_buf (s_uplinkIn (n_session n)) = pkt :: rest →
  handleUplinkPacket pkt (take_in (n_session n)) = (ss, r) →
  node_inv log (set_n_session ss n) ∧ ∀ k, owned log n k → owned log (set_n_session ss n) k.
Proof.
  intros Hlen Hnd Hno [Hm (q & Hq & Hs) Hw Hp Hf Hrd] Hc Hb Hh.
  destruct (Hf Hc) as [Ha (zs & Hfz & Hz & Hn & Hl)]. unfold flight in Ha, Hfz. rewrite Hb in Ha, Hfz.
  inversion Ha as [|?? Hpk Ha']; subst.
  destruct (decide (is_wal pkt)) as [Hwal|Hwal].
  - simpl in Hfz. rewrite filter_cons_True in Hfz by done. destruct zs as [|[e i] zs]; [done|].
    injection Hfz as -> Hfz. simpl in Hz.
    assert (log !! length (w_entries (s_wal (n_session n))) = Some e) as He.
    { rewrite <- (Nat.add_0_r (length _)), <- lookup_drop.
      destruct (drop _ log) as [|x d]; [done|]. by simplify_eq/=. }
    destruct (next_entry _ _ _ Hnd Hp He) as [Hap Hpre].
    assert (normal e) as Hne by (by eapply (Forall_lookup_1 _ _ _ _ Hno)).
    destruct (handle_wal_packet e i (take_in (n_session n)) q) as
      (s' & k & q' & l' & Hs' & Hk & [Hi Hin] & Hwl & Hes & Hsy & Hq' & Hqs & Hqe); [done..|].
    rewrite Hs' in Hh. simplify_eq. simpl in Hes, Hin, Hi. rewrite Hap in Hes. rewrite Hb in Hin. simpl in Hin.
    split.
    + split; simpl; [by rewrite Hi|by eauto|done|by rewrite Hes| |done]. intros _.
      unfold flow, flight. simpl. rewrite Hin. simpl. rewrite drop_0.
      split; [done|]. exists zs. rewrite Hes, length_app. simpl. simpl in Hn, Hl.
      split_and!; [done| |lia|lia].
      rewrite <- drop_drop. destruct (drop (length _) log) as [|x d]; [done|]. by simplify_eq/=.
    + intros k2 [(q0 & Hq0 & Hk2)|Hk2]; [|by right]. simplify_eq.
      destruct (decide (k2 = k)) as [->|Hne2]; [right|left].
      * eapply has_key_prefix; [exact Hpre|]. apply has_key_app. right. by apply (has_key_singleton k k e).
      * exists q'. split; [done|]. rewrite Hqe. by rewrite lookup_delete_ne.
  - destruct (handle_other_packet pkt (take_in (n_session n)) q Hwal Hq Hs) as ([Hi Hin] & Hwl & q' & Hq' & Hqs & Hqe).
    rewrite Hh in *. simpl in *. rewrite Hb in Hin. simpl in Hin. rewrite filter_cons_False in Hfz by done.
    split.
    + split; simpl; rewrite ?Hi, ?Hwl; [done|by eauto|done|done| |done]. intros _.
      unfold flow, flight. simpl. rewrite Hin, Hwl. simpl. rewrite drop_0. split; [done|by exists zs].
    + intros k2 [(q0 & Hq0 & Hk2)|Hk2]; [|by right]. simplify_eq.
      destruct Hqe as [Hqe|(k & Hop & Hd & Hqe)]; [left; exists q'; by rewrite Hqe|].
      destruct (decide (k2 = k)) as [->|Hne2]; [right|left; exists q'; by rewrite Hqe, lookup_delete_ne].
      destruct (Hpk Hop) as (k' & Hk' & Hd'). rewrite Hd in Hd'. by apply vec_to_list_inj2 in Hd' as ->.
Qed.

(** ** The system keeps the invariant *)

Section system.
Context {St : Type} `{LogServer St}.

Definition short (s : St) : Prop := (Z.of_nat (length (srv_log s)) < 2 ^ 32)%Z.

(** What a packet does to the server. *)
Lemma srv_handle_cases s pkt s' r :
  srv_ok s → srv_handle pkt s = (s', r) →
  srv_ok s' ∧ srv_log s `prefix_of` srv_log s'
  ∧ ∀ p, r = Ok (Some p) → ¬ is_wal p ∧ ack_in (srv_log s') p.
Proof.
  intros Hok Hh. destruct (decide (p_Op pkt = OpWal)) as [Hop|Hop].
  - destruct (Parse_cases (p_Data pkt)) as [(_ & e & Hp & _)|(_ & err & Hp)].
    + destruct (srv_accepts s pkt e Hok Hop Hp) as (s1 & key & He & Hkey & Hlog & Hok').
      rewrite He in Hh. simplify_eq. split; [done|]. rewrite Hlog. split; [apply aappend_prefix|].
      intros p [= <-]. split; [apply ack_not_wal|]. intros _. exists key. split; [|done].
      pose proof (aappend_has e (srv_log s)) as Hin. rewrite Hkey in Hin.
      apply list_elem_of_fmap in Hin as (x & Hx & Hin). by exists x.
    + destruct (srv_ignores s pkt Hok) as (s1 & r1 & He & Hr & Hlog & Hok'); [right; eauto|].
      rewrite He in Hh. simplify_eq. rewrite Hlog. split_and!; [done..|]. intros p ->. by destruct (Hr p).
  - destruct (srv_ignores s pkt Hok) as (s1 & r1 & He & Hr & Hlog & Hok'); [by left|].
    rewrite He in Hh. simplify_eq. rewrite Hlog. split_and!; [done..|]. intros p ->. by destruct (Hr p).
Qed.

Lemma static_ports p s : static (set_s_ports p s) = static s ∧ s_sendQ (set_s_ports p s) = s_sendQ s.
Proof. done. Qed.

Lemma ports_step {A} (m : M Ports A) s ss r :
  on_ports m s = (ss, r) → static ss = static s ∧ s_sendQ ss = s_sendQ s.
Proof. unfold on_ports, zoom. destruct (m _). intros [= <- <-]. done. Qed.

Lemma tick_step order s ss r :
  on_positions (tick order) s = (ss, r) → static ss = static s ∧ s_sendQ ss = s_sendQ s.
Proof. unfold on_positions, zoom. destruct (tick _ _). intros [= <- <-]. done. Qed.

(** A step that changes nothing of the store but what the game adds. *)
Lemma local_inv log n ss :
  node_inv log n → static ss = static (n_session n) ∧ queue_grows (n_session n) ss →
  node_inv log (set_n_session ss n) ∧ ∀ k, owned log n k → owned log (set_n_session ss n) k.
Proof. intros Hn [Hs Hq]. by apply node_inv_static. Qed.

(** A new connection: nothing is in flight. *)
Lemma node_inv_connect s n :
  short s → ch_buf (s_uplinkIn (n_session n)) = [] → node_inv (srv_log s) n →
  node_inv (srv_log s)
    (MkNode (n_session n) (n_up n) [] (ch_WalIndex (hello_data (n_session n))) true (n_round n)).
Proof.
  intros Hsh Hin [Hm Hq Hw Hp Hf Hrd]. split; simpl; [done..| |done]. intros _. pose proof (prefix_length _ _ Hp) as Hle.
  unfold flow, flight; simpl. rewrite Hin. split; [done|]. exists []. simpl. split_and!; [done..| |lia].
  unfold Count. rewrite count_small by (apply Hw || (unfold short in Hsh; lia)). lia.
Qed.

(** A new start of the session finds the queue and the replica in the files. *)
Lemma node_inv_restart log n q prefix hello rb done0 picks k d ss i :
  node_inv log n → s_sendQ (n_session n) = Some q →
  session_dir prefix (ipc.hi_SessionID hello) = s_dataDir (n_session n) →
  Run_start prefix (s_Info (n_session n)) hello None (left_files (n_session n) q) rb done0 picks k d = Ok ss →
  node_inv log (MkNode ss (n_up n) [] i false [])
  ∧ ∀ key, owned log n key → owned log (MkNode ss (n_up n) [] i false []) key.
Proof.
  intros [Hm (q0 & Hq0 & Hs0) Hw Hp Hf Hrd] Hq Hdir Hr. rewrite Hq in Hq0. injection Hq0 as <-.
  destruct (Run_start_stored prefix hello rb done0 picks k d (n_session n) q ss)
    as (Hi & Hsy & He & q' & Hq' & Hs' & Hsub); [done..|].
  split; [split; simpl; [by rewrite Hi|by eauto|done|by rewrite He|done|constructor]|].
  intros k2 [(q0 & Hq0 & Hk2)|Hk2]; [left|by right]. rewrite Hq in Hq0. injection Hq0 as <-. exists q'. split; [done|].
  by eapply lookup_weaken_is_Some.
Qed.

Lemma send_pending_step ds s ss r :
  send_pending ds s = (ss, r) → static ss = static s ∧ s_sendQ ss = s_sendQ s.
Proof.
  intros Hs. assert (keeps (λ s, (static s, s_sendQ s)) (send_pending ds)) as Hk.
  { clear Hs. induction ds as [|d ds IH]; cbn [send_pending]; solve_keeps. }
  specialize (Hk s). rewrite Hs in Hk. split; [exact (f_equal fst Hk)|exact (f_equal snd Hk)].
Qed.

Lemma qstore_Pending q ds :
  qstore q → ds ≡ₚ Pending q → Forall (λ d, ∃ k, good_rec (k, d)) ds.
Proof.
  intros Hs Hp. apply Forall_forall. intros d Hd. rewrite Hp in Hd.
  apply list_elem_of_fmap in Hd as ([k d'] & -> & Hk%elem_of_map_to_list).
  exists k. by eapply qstore_lookup.
Qed.

Definition kept_by (s : St) (n : Node) (s' : St) (n' : Node) : Prop :=
  srv_ok s' ∧ srv_log s `prefix_of` srv_log s' ∧ node_inv (srv_log s') n'
  ∧ ∀ k, owned (srv_log s) n k → owned (srv_log s') n' k.

Lemma kept_here s n n' :
  srv_ok s → node_inv (srv_log s) n' ∧ (∀ k, owned (srv_log s) n k → owned (srv_log s) n' k) →
  kept_by s n s n'.
Proof. intros Hok [Hi Ho]. by split_and!. Qed.

(** A step of the session that leaves log, queue and arrivals alone. *)
Lemma kept_static s n ss :
  srv_ok s → node_inv (srv_log s) n →
  static ss = static (n_session n) ∧ s_sendQ ss = s_sendQ (n_session n) →
  kept_by s n s (set_n_session ss n).
Proof.
  intros Hok Hn [Hs Hq]. apply kept_here; [done|]. apply local_inv; [done|].
  split; [done|by apply queue_grows_same].
Qed.

Lemma kept_round s n s' n' ds :
  Forall (λ d, ∃ k, good_rec (k, d)) ds → kept_by s n s' n' → kept_by s n s' (set_n_round ds n').
Proof. intros Hd (H1 & H2 & [Hm Hq Hw Hp Hf Hrd] & H4). by split_and!. Qed.

(** The server handles a packet of the client; its reply arrives or does not. *)
Lemma kept_serve s n up1 pkt up2 s' r (lost : bool) :
  srv_ok s → node_inv (srv_log s) n → n_up n = up1 ++ pkt :: up2 → srv_handle pkt s = (s', r) →
  kept_by s n s' (set_n_up (up1 ++ up2)
    (if lost then n else set_n_down (n_down n ++ reply_of_handle r) n)).
Proof.
  intros Hok Hn Hu Hh. destruct (srv_handle_cases s pkt s' r Hok Hh) as (Hok' & Hpre & Hrep).
  pose proof (node_inv_grow _ _ _ Hpre Hn) as Hn'. split; [done|]. split; [done|].
  destruct lost; [split; [by apply node_inv_up|]; intros k Hk; by apply (owned_grow _ _ n k Hpre)|].
  split; [|intros k Hk; by apply (owned_grow _ _ n k Hpre)]. apply node_inv_up.
  destruct r as [[p|]|err| |]; simpl; rewrite ?app_nil_r; [|by destruct n..].
  destruct (Hrep p eq_refl). by apply node_inv_push.
Qed.

Lemma node_flow_inv s n s' n' :
  srv_ok s → short s' → node_inv (srv_log s) n → node_flow s n s' n' → kept_by s n s' n'.
Proof.
  intros Hok Hsh Hn Hstep. pose proof (kept_static s n) as Hst.
  destruct Hstep as [q ds Hrd Hl Hq Hds|d rest ss Hrd Hr Ht|pkt rest Hc Hb|pkt rest Hc Hd Hr
    |pkt rest ss r Hc Hb Hh|up1 pkt up2 s1 r Hu Hh|p Hc Hp].
  - apply kept_round; [|by apply kept_here].
    destruct Hn as [_ (q' & Hq' & Hs) _ _ _ _]. rewrite Hq in Hq'. injection Hq' as <-.
    by apply (qstore_Pending q).
  - apply kept_round; [|by apply Hst, (send_pending_step [d] _ _ (Ok tt))].
    pose proof (ni_round _ _ Hn) as Hg. rewrite Hrd in Hg. by apply Forall_cons in Hg as [_ ?].
  - destruct (Hst (take_out (n_session n)) Hok Hn) as (_ & _ & Hi & Ho); [done|].
    apply kept_here; [done|]. split; [by apply node_inv_up|exact Ho].
  - apply kept_here; [done|]. destruct Hn as [Hm Hq Hw Hp Hf Hrd]. split; [|done].
    split; simpl; [done..| |done]. intros _.
    apply (flow_eq _ n); [|done|done|by apply Hf]. unfold flight. simpl. rewrite Hd, <- app_assoc. done.
  - apply kept_here; [done|].
    apply (handle_inv (srv_log s) n pkt rest ss r Hsh); [by apply srv_keys|by apply srv_normal|done..].
  - by apply (kept_serve s n up1 pkt up2 s1 r false).
  - destruct (srv_streams s (n_next n) p Hok Hp) as (e & He & ->). apply kept_here; [done|].
    destruct Hn as [Hm Hq Hw Hpr Hf Hrd]. split; [|done]. split; [done..| |done]. intros _.
    apply flow_stream; [done|done|by apply Hf].
Qed.

Lemma node_local_inv s n s' n' :
  srv_ok s → node_inv (srv_log s) n → node_local s n s' n' → kept_by s n s' n'.
Proof.
  intros Hok Hn Hstep. pose proof (kept_static s n) as Hst.
  destruct Hstep as [nonce msg ss r Hg|order ss Ht|ss Ht|ss Hs|d].
  - pose proof (handleMsg_static nonce msg (n_session n)) as Hms.
    pose proof (handleMsg_queue nonce msg (n_session n)) as Hqg. rewrite Hg in *.
    apply kept_here; [done|]. by apply local_inv.
  - apply Hst; [done..|]. by eapply tick_step.
  - apply Hst; [done..|]. by eapply ports_step.
  - apply Hst; [done..|]. unfold store in Hs. unfold static. injection Hs as ?????. split; congruence.
  - apply kept_here; [done|]. split; [|done]. apply node_inv_push; [|by intros ?%opcodes_distinct|done].
    by destruct opcodes_distinct.
Qed.

Lemma node_step_inv s n s' n' :
  srv_ok s → short s' → node_inv (srv_log s) n → node_step s n s' n' → kept_by s n s' n'.
Proof.
  intros Hok Hsh Hn [Hs|Hs|Hs|Hs]; [by eapply node_flow_inv|by eapply node_local_inv|..].
  - destruct Hs as [|Hc|Hc Hin]; apply kept_here; try done.
    + destruct Hn as [Hm Hq Hw Hp Hf Hrd]. split; [|done]. by split.
    + destruct Hn as [Hm Hq Hw Hp Hf Hrd]. split; [|done]. split; simpl; [done..| |done]. congruence.
    + split; [by apply node_inv_connect|done].
  - destruct Hs as [up1 pkt up2 s1 r Hu Hh|up1 pkt up2 Hu|q prefix hello rb done picks k d ss Hq Hdir Hr].
    + by apply (kept_serve s n up1 pkt up2 s1 r true).
    + apply kept_here; [done|]. split; [by apply node_inv_up|done].
    + apply kept_here; [done|]. by eapply node_inv_restart.
Qed.

(** *** The whole system *)

Definition sys_inv (x : St * gmap nat Node) : Prop :=
  srv_ok x.1 ∧ ∀ i n, x.2 !! i = Some n → node_inv (srv_log x.1) n.

(** What a step keeps: no log shrinks, no client forgets an entry. *)
Definition sys_kept (x x' : St * gmap nat Node) : Prop :=
  srv_log x.1 `prefix_of` srv_log x'.1
  ∧ ∀ i n k, x.2 !! i = Some n → owned (srv_log x.1) n k →
    ∃ n', x'.2 !! i = Some n' ∧ owned (srv_log x'.1) n' k.

Lemma sys_kept_refl x : sys_kept x x.
Proof. split; [done|]. intros. eauto. Qed.

Lemma sys_kept_trans x y z : sys_kept x y → sys_kept y z → sys_kept x z.
Proof.
  intros [Hp1 H1] [Hp2 H2]. split; [by etrans|]. intros i n k Hn Ho.
  destruct (H1 i n k Hn Ho) as (n1 & Hn1 & Ho1). by apply (H2 i n1 k).
Qed.

(** A step of the server alone. *)
Lemma server_step_inv s s' (ns : gmap nat Node) :
  srv_ok s' → srv_log s `prefix_of` srv_log s' → sys_inv (s, ns) →
  sys_inv (s', ns) ∧ sys_kept (s, ns) (s', ns).
Proof.
  intros Hok Hp [_ Hn]. split; [split; [done|]|split; [done|]].
  - intros i n Hi. eapply node_inv_grow; [done|by eapply Hn].
  - intros i n k Hi Ho. exists n. split; [done|]. by eapply owned_grow.
Qed.

Lemma sys_step_inv x x' : sys_inv x → short x'.1 → sys_step x x' → sys_inv x' ∧ sys_kept x x'.
Proof.
  intros Hinv Hsh Hstep. destruct x as [s ns]. pose proof Hinv as [Hok Hns].
  destruct Hstep as [i n s' n' Hi Hstep|pkt s' r Hh|s' Hr]; simpl in *.
  - destruct (node_step_inv s n s' n' Hok Hsh (Hns i n Hi) Hstep) as (Hok' & Hp & Hn' & Ho).
    destruct (server_step_inv s s' ns Hok' Hp Hinv) as [[_ Hns'] [_ Hk]]. split.
    + split; [done|]. intros j m Hm. simpl in Hm.
      apply lookup_insert_Some in Hm as [[<- <-]|[Hne Hm]]; [done|]. by apply (Hns' j).
    + split; [done|]. intros j m k Hm Hom. simpl in *. destruct (decide (j = i)) as [->|Hne].
      * simplify_eq. exists n'. rewrite lookup_insert_eq. eauto.
      * rewrite lookup_insert_ne by done. by apply (Hk j m k).
  - destruct (srv_handle_cases s pkt s' r Hok Hh) as (Hok' & Hp & _). by apply server_step_inv.
  - destruct (srv_restarts s s' Hok Hr) as [Hok' Hlog].
    destruct (server_step_inv s s' ns Hok') as [[_ Hns'] [Hp Hk]]; [by rewrite Hlog|done|]. split.
    + split; [done|]. intros i n Hi. simpl in *. rewrite lookup_fmap in Hi.
      apply fmap_Some in Hi as (n0 & Hi & ->). destruct (Hns' i n0 Hi) as [Hm Hq Hw Hpr Hf Hrd]. by split.
    + split; [done|]. intros i n k Hi Ho. simpl in *. exists (set_n_conn false n).
      rewrite lookup_fmap, Hi. split; [done|]. destruct (Hk i n k Hi Ho) as (n1 & Hn1 & Ho1). by simplify_eq.
Qed.

Lemma sys_step_mono x x' :
  srv_ok x.1 → sys_step x x' → srv_ok x'.1 ∧ srv_log x.1 `prefix_of` srv_log x'.1.
Proof.
  intros Hok Hs. destruct Hs as [i n s' n' Hi Hn|pkt s' r Hh|s' Hr]; simpl.
  - destruct Hn as [Hn|Hn|Hn|Hn]; destruct Hn; try done; by edestruct srv_handle_cases as (? & ? & _).
  - by destruct (srv_handle_cases x.1 pkt s' r Hok Hh) as (? & ? & _).
  - destruct (srv_restarts x.1 s' Hok Hr) as [? ->]. done.
Qed.

Lemma sys_reach_mono x x' :
  srv_ok x.1 → sys_reach x x' → srv_ok x'.1 ∧ srv_log x.1 `prefix_of` srv_log x'.1.
Proof.
  intros Hok Hr. induction Hr as [|x y z Hs _ IH]; [done|].
  destruct (sys_step_mono x y Hok Hs) as [Hok' Hp]. destruct (IH Hok') as [? ?]. split; [done|by etrans].
Qed.

Lemma short_before x x' : srv_ok x.1 → sys_reach x x' → short x'.1 → short x.1.
Proof.
  intros Hok Hr Hsh. destruct (sys_reach_mono x x' Hok Hr) as [_ Hp]. unfold short in *.
  apply prefix_length in Hp. lia.
Qed.

Lemma sys_reach_inv x x' : sys_inv x → short x'.1 → sys_reach x x' → sys_inv x' ∧ sys_kept x x'.
Proof.
  intros Hinv Hsh Hr. revert Hsh.
  apply (rtc_ind_r (R := sys_step) (λ x', short x'.1 → sys_inv x' ∧ sys_kept x x') x); [| |exact Hr].
  { intros _. split; [done|apply sys_kept_refl]. }
  clear x' Hr. intros y z Hr Hs IH Hsh.
  destruct (sys_step_mono y z) as [_ Hp]; [apply (sys_reach_mono x y); [apply Hinv|done]|done|].
  destruct IH as [Hiy Hky]; [unfold short in *; apply prefix_length in Hp; lia|].
  destruct (sys_step_inv y z Hiy Hsh Hs) as [Hiz Hkz]. split; [done|by eapply sys_kept_trans].
Qed.
(** ** Where the system starts *)

(** A client that opened its empty files, in a session that is not a single
    player's. *)
Definition new_node (n : Node) : Prop :=
  ∃ prefix info hello randBytes picks c d ss,
    i_Mode info ≠ InfoModeSingle
    ∧ Run_start prefix info hello None (λ _, Ok (open_file [] [])) randBytes false picks c d = Ok ss
    ∧ n = MkNode ss [] [] (U32 0) false [].

Definition sys_start (x : St * gmap nat Node) : Prop :=
  srv_ok x.1 ∧ ∀ i n, x.2 !! i = Some n → new_node n.

Lemma new_node_inv log n : new_node n → node_inv log n.
Proof.
  intros (prefix & info & hello & rb & picks & c & d & ss & Hm & Hr & ->).
  unfold Run_start in Hr. apply res_bind_Ok_inv in Hr as ([] & _ & Hr).
  unfold makeDataDir in Hr. rewrite res_bind_ok in Hr.
  apply res_bind_Ok_inv in Hr as (oq & Hoq & Hr). unfold Run_queue in Hoq. rewrite decide_True in Hoq by done.
  destruct (OpenSendQueue_records []) as (q & Ho & _ & Hb & Hs); [done|].
  change (rec_bytes []) with (@nil u8) in Ho. rewrite Ho in Hoq. simpl in Hoq. simplify_eq.
  destruct (open_stored [] []) as (l & Hl & He & Hsy); [done|done|constructor|].
  rewrite Hl in Hr. cbn [snd] in Hr. rewrite res_bind_ok in Hr.
  apply res_bind_Ok_inv in Hr as (sg & _ & Hr). apply res_bind_Ok_inv in Hr as (sn & _ & Hr).
  simplify_eq. split; simpl; [done| |done|rewrite He; apply prefix_nil|done|constructor].
  exists q. split; [done|]. exists []. by rewrite Hs.
Qed.

Lemma sys_start_inv x : sys_start x → sys_inv x.
Proof. intros [Hok Hn]. split; [done|]. intros i n Hi. by eapply new_node_inv, Hn. Qed.

Lemma start_reach_inv x y : sys_start x → sys_reach x y → short y.1 → sys_inv y ∧ sys_kept x y.
Proof. intros Hx Hr Hsh. apply sys_reach_inv; [by apply sys_start_inv|done..]. Qed.

(** An accepted message of the game leaves its entry in the queue. *)
Lemma accepted_owned log n nonce msg w e k ss :
  node_inv log n → handleMsg nonce msg (n_session n) = (ss, Ok tt) →
  ipc.m_Op msg = ipc.OpWal → ipc.ParseMessageBodyWalIn (ipc.m_Payload msg) = Ok w →
  wal_in_entry w nonce (n_session n) = Ok e → DedupKey e = Ok k →
  owned log (set_n_session ss n) k.
Proof.
  intros [Hm (q & Hq & Hs) _ _ _ _] Hh Hop Hw He Hk. left. simpl.
  destruct (handleMsg_Ok _ _ _ _ Hh) as (Hhello & Hseq & _).
  revert Hh. unfold handleMsg, mbind at 1, M_bind at 1. rewrite expectedSeq_other by done.
  rewrite decide_False by auto. set (s1 := set_s_SeqGame _ _).
  unfold dispatch, mbind at 1, M_bind at 1, gets. rewrite decide_False, decide_True by done.
  unfold mbind at 1, M_bind at 1, lift at 1. rewrite Hw. rewrite decide_True by done.
  unfold handleWalIn, mbind at 1, M_bind at 1, gets.
  change (wal_in_entry w nonce s1) with (wal_in_entry w nonce (n_session n)). rewrite He.
  unfold mbind at 1, M_bind at 1, lift at 1.
  destruct (newWalEntry_stored e s1 q (wal_in_entry_normal _ _ _ _ He) Hq Hs)
    as (k' & q' & Hk' & Hq' & _ & _ & Hin). rewrite Hk in Hk'. simplify_eq.
  destruct (newWalEntry_eq e s1 q) as (k2 & d & _ & _ & Hn); [by eapply wal_in_entry_normal|done|].
  rewrite Hn in Hq'. unfold mbind, M_bind, wrapM, on_err, lift. rewrite Hn, ack_payload_eq.
  unfold on_ports, zoom. destruct (Send _ _). intros [= <- _]. by exists q'.
Qed.
End system.

(** ** An example: a server with one log entry and a client that joins it *)

#[local] Existing Instance ipc.WalIn_eq_dec.
#[local] Instance ex_server : LogServer World := world_server 0 0 1.

Definition ex_start_hello : ipc.MessageBodyHelloIn :=
  ipc.MkHelloIn hello_magic (arr_of 16 [U8 1]) (arr_of 8 [U8 2]) ex_player (arr_of 8 (str "LINK")) (U8 3).

Definition ex_started : res Session :=
  Run_start (str "data") ex_info ex_start_hello None (λ _, Ok (open_file [] []))
    (arr_of 8 [U8 100]) false [] (conn_on [] EOF) daemon.createDaemonConn.

(** The client before its first message, after an item of the game, and after the
    first packet of the server's stream. *)
Definition ex_node0 : Node :=
  MkNode (match ex_started with Ok s => s | _ => ex_session end) [] [] (U32 0) false [].
Definition ex_game_msg : ipc.Message :=
  ipc.MkMessage (U32 100) ipc.OpWal (ipc.wal_in_layout ex_wal_in).
Definition ex_node1 : Node :=
  set_n_session (fst (handleMsg (arr_of 4 [U8 9]) ex_game_msg (n_session ex_node0))) ex_node0.
Definition ex_node2 : Node := MkNode (drained (n_session ex_node1)) [] [] (U32 0) true [].
Definition ex_node3 : Node := set_n_next (U32 1) (set_n_down [wal_packet (ex_item, U32 0)] ex_node2).
Definition ex_node4 : Node :=
  set_n_down [] (set_n_session (push_in (wal_packet (ex_item, U32 0)) (n_session ex_node3)) ex_node3).
Definition ex_node5 : Node :=
  set_n_session
    (fst (handleUplinkPacket (wal_packet (ex_item, U32 0)) (take_in (n_session ex_node4)))) ex_node4.

Definition ex_sys (n : Node) : World * gmap nat Node := (ex_w1, {[0 := n]}).

Lemma ex_sys_start : sys_start (ex_sys ex_node0).
Proof.
  split.
  - split; [|by eexists]. change (synced ex_wal1). apply synced_Append; [split; [by left|by_compute]|].
    split; [split_and!; [apply mem_wf_new|constructor..]|]. by split; [split|].
  - intros i n Hn. simpl in Hn. apply lookup_singleton_Some in Hn as [_ <-].
    assert (is_ok ex_started = true) as Hok by by_compute.
    destruct ex_started as [s| | |] eqn:He; [|discriminate Hok..].
    exists (str "data"), ex_info, ex_start_hello, (arr_of 8 [U8 100]), [], (conn_on [] EOF),
      daemon.createDaemonConn, s. split; [done|]. split; [exact He|]. unfold ex_node0. by rewrite He.
Qed.

Lemma pair_snd {A B} (p : A * B) b : snd p = b → p = (fst p, b).
Proof. destruct p. by intros <-. Qed.

Lemma ex_game_ok : handleMsg (arr_of 4 [U8 9]) ex_game_msg (n_session ex_node0) = (n_session ex_node1, Ok tt).
Proof. unfold ex_node1. cbn [n_session set_n_session]. apply pair_snd. by_compute. Qed.

Lemma ex_handled :
  snd (handleUplinkPacket (wal_packet (ex_item, U32 0)) (take_in (n_session ex_node4))) = Ok tt.
Proof. by_compute. Qed.

Lemma ex_handle_step : node_step ex_w1 ex_node4 ex_w1 ex_node5.
Proof.
  pose proof (nd_handle ex_w1 ex_node4 (wal_packet (ex_item, U32 0)) [] _ (Ok tt) eq_refl eq_refl
    (pair_snd _ _ ex_handled)) as Hs.
  apply nd_flow. exact Hs.
Qed.

Lemma ex_sys_steps : sys_reach (ex_sys ex_node1) (ex_sys ex_node5).
Proof.
  assert (∀ n n', node_step ex_w1 n ex_w1 n' → sys_step (ex_sys n) (ex_sys n')) as Hone.
  { intros n n' Hs. change (ex_sys n') with (ex_w1, <[0 := n']> (ex_sys n).2).
    by apply (sy_node (ex_sys n) 0 n ex_w1 n'). }
  apply (rtc_l _ _ (ex_sys (set_n_session (drained (n_session ex_node1)) ex_node1))).
  { apply Hone, nd_link. by apply (nd_drain ex_w1 ex_node1). }
  apply (rtc_l _ _ (ex_sys ex_node2)).
  { apply Hone, nd_link. by apply (nd_connect ex_w1 (set_n_session (drained (n_session ex_node1)) ex_node1)). }
  apply (rtc_l _ _ (ex_sys ex_node3)).
  { apply Hone, nd_flow. apply (nd_stream ex_w1 ex_node2 (wal_packet (ex_item, U32 0))); [done|]. by_compute. }
  apply (rtc_l _ _ (ex_sys ex_node4)).
  { apply Hone, nd_flow. by apply (nd_pump_in ex_w1 ex_node3 (wal_packet (ex_item, U32 0)) []). }
  apply (rtc_once (ex_sys ex_node4)), Hone.
  exact ex_handle_step.
Qed.

Lemma ex_sys_reach : sys_reach (ex_sys ex_node0) (ex_sys ex_node5).
Proof.
  apply (rtc_l _ _ (ex_sys ex_node1)); [|apply ex_sys_steps].
  apply (sy_node (ex_sys ex_node0) 0 ex_node0 ex_w1 ex_node1); [done|].
  eapply nd_local, nd_game, ex_game_ok.
Qed.

(** ** Properties *)

(** C1: replicas never diverge.  In a system of any number of clients and one
    server, started on empty client files, whatever the games send, however
    packets travel, are lost with their connections or arrive late, and however
    often either side starts again from its files: while the log has fewer than
    2^32 entries, the log of every client is a prefix of the log of the server, so
    of any two clients one is ahead of the other; it holds no key twice; its file
    holds exactly its entries; and the log of the server has only grown. *)
Theorem replicas_are_prefixes {St : Type} `{LogServer St} (x y : St * gmap nat Node) i n :
  sys_start x → sys_reach x y → short y.1 → y.2 !! i = Some n →
  let l := w_entries (s_wal (n_session n)) in
  l `prefix_of` srv_log y.1
  ∧ (∀ j m, y.2 !! j = Some m →
     l `prefix_of` w_entries (s_wal (n_session m)) ∨ w_entries (s_wal (n_session m)) `prefix_of` l)
  ∧ NoDup (DedupKey <$> l)
  ∧ f_data (w_file (s_wal (n_session n))) = wal_bytes l
  ∧ srv_log x.1 `prefix_of` srv_log y.1.
Proof.
  intros Hx Hr Hsh Hn l. destruct (start_reach_inv x y Hx Hr Hsh) as [[_ Hns] [Hlog _]].
  destruct (Hns i n Hn) as [_ _ ((_ & Hk & _) & Hd & _) Hp _ _].
  split_and!; [exact Hp| |exact Hk|apply Hd|exact Hlog].
  intros j m Hm. destruct (Hns j m Hm) as [_ _ _ Hp' _ _]. by apply (prefix_weak_total l _ (srv_log y.1)).
Qed.

Lemma replicas_are_prefixes_witness :
  sys_reach (ex_sys ex_node0) (ex_sys ex_node5)
  ∧ length (w_entries (s_wal (n_session ex_node5))) = 1
  ∧ w_entries (s_wal (n_session ex_node5)) `prefix_of` session_log ex_w1
  ∧ NoDup (DedupKey <$> w_entries (s_wal (n_session ex_node5))).
Proof.
  split; [exact ex_sys_reach|]. split; [vm_compute; reflexivity|].
  destruct (replicas_are_prefixes (ex_sys ex_node0) (ex_sys ex_node5) 0 ex_node5
    ex_sys_start ex_sys_reach) as (H1 & _ & H2 & _); [vm_compute; reflexivity|reflexivity|].
  split; [exact H1|exact H2].
Defined.

(** C2: no entry of the game is lost.  Once [handleMsg] has accepted a WAL
    message of the game in a reachable state, its entry is never forgotten: in
    every later state, after any number of lost connections and restarts of the
    client and the server, either the queue of the client still holds a record
    under the key of the entry, which parses to an entry with this key, or the log
    of the server has an entry with this key. *)
Theorem no_entry_lost {St : Type} `{LogServer St} (x y z : St * gmap nat Node) i n nonce msg w e k ss :
  sys_start x → sys_reach x y → y.2 !! i = Some n →
  handleMsg nonce msg (n_session n) = (ss, Ok tt) →
  ipc.m_Op msg = ipc.OpWal → ipc.ParseMessageBodyWalIn (ipc.m_Payload msg) = Ok w →
  wal_in_entry w nonce (n_session n) = Ok e → DedupKey e = Ok k →
  sys_reach (y.1, <[i := set_n_session ss n]> y.2) z → short z.1 →
  ∃ n', z.2 !! i = Some n'
  ∧ ((∃ q d e', s_sendQ (n_session n') = Some q ∧ q_entries q !! k = Some d
        ∧ Parse d = Ok e' ∧ DedupKey e' = Ok k)
     ∨ has_key k (srv_log z.1)).
Proof.
  intros Hx Hxy Hn Hh Hop Hw He Hk Hyz Hsh. set (y' := (y.1, <[i := set_n_session ss n]> y.2)) in *.
  assert (sys_step y y') as Hstep by (by eapply sy_node; [|eapply nd_local, nd_game]).
  assert (short y.1) as Hshy.
  { apply (short_before y' z); [|done..]. apply (sys_reach_mono x y); [apply Hx|done]. }
  destruct (start_reach_inv x y Hx Hxy Hshy) as [Hinv _].
  destruct (sys_step_inv y y' Hinv Hshy Hstep) as [Hinv' _].
  destruct (sys_reach_inv y' z Hinv' Hsh Hyz) as [[_ Hnz] [_ Hkept]].
  destruct (Hkept i (set_n_session ss n) k) as (n' & Hn' & Ho).
  { simpl. by rewrite lookup_insert_eq. }
  { eapply accepted_owned; [by eapply (proj2 Hinv)|done..]. }
  exists n'. split; [done|]. destruct Ho as [(q & Hq & [d Hd])|?]; [left|by right].
  destruct (ni_queue _ _ (Hnz i n' Hn')) as (q' & Hq' & Hs). simplify_eq.
  destruct (qstore_lookup q k d Hs Hd) as (e' & Hnorm & Hk' & Hser).
  exists q, d, e'. split_and!; [done..| |done].
  rewrite (Parse_Serialize e' d Hser). by rewrite (proj2 Hnorm).
Qed.

(** The entry waits in the queue after the first packet of the stream. *)
Lemma no_entry_lost_witness :
  ∃ e k, wal_in_entry ex_wal_in (arr_of 4 [U8 9]) (n_session ex_node0) = Ok e ∧ DedupKey e = Ok k
  ∧ ∃ n', (ex_sys ex_node5).2 !! 0 = Some n'
  ∧ ((∃ q d e', s_sendQ (n_session n') = Some q ∧ q_entries q !! k = Some d
        ∧ Parse d = Ok e' ∧ DedupKey e' = Ok k)
     ∨ has_key k (srv_log ex_w1)).
Proof.
  assert (is_ok (wal_in_entry ex_wal_in (arr_of 4 [U8 9]) (n_session ex_node0)) = true) as Hi by by_compute.
  destruct (wal_in_entry ex_wal_in (arr_of 4 [U8 9]) (n_session ex_node0)) as [e| | |] eqn:He;
    [|discriminate Hi..].
  destruct (proj1 (DedupKey_known e) (proj1 (wal_in_entry_normal _ _ _ _ He))) as [k Hk].
  exists e, k. split; [reflexivity|]. split; [exact Hk|].
  apply (no_entry_lost (H := ex_server) (ex_sys ex_node0) (ex_sys ex_node0) (ex_sys ex_node5) 0 ex_node0
    (arr_of 4 [U8 9]) ex_game_msg ex_wal_in e k
    (fst (handleMsg (arr_of 4 [U8 9]) ex_game_msg (n_session ex_node0)))).
  - exact ex_sys_start.
  - apply rtc_refl.
  - reflexivity.
  - apply pair_snd. by_compute.
  - reflexivity.
  - by_compute.
  - exact He.
  - exact Hk.
  - exact ex_sys_steps.
  - vm_compute. reflexivity.
Defined.
