(* ===== verification/ReplicationUplink.v ===== *)
(** * The uplink of the replication model (client/internal/game/uplink.go)

    Replication.v has packets in flight in lists and a flag for a connection; the
    uplink of UplinkRun.v has bytes on a connection, four goroutines and their
    contexts.  Here the second is shown to implement the first, step by step, so that
    what Replication.v shows of the logs holds of clients with the real uplink. *)

From stdpp Require Import base gmap sets strings vector numbers tactics list relations.
From Stdlib Require Import ZArith Lia.
From S2P Require Import Prelude Words GoIO GoStr WalEntry Packet Wal Events ServerSession LogServer.
From S2P Require Import IpcMsg SendQueue ClientPorts PositionSystem Daemon ClientSession Uplink UplinkRun.
From S2P Require Import Replication.

(** ** The relation *)

(** The packet that [pumpOut] took and has not written, and the one that [pumpIn]
    received and has not passed on. *)
Definition held (u : Uplink) : list Packet :=
  match u_out u with Uplink.OutWrite pkt => [pkt] | _ => [] end.
Definition pushing (u : Uplink) : list Packet :=
  match u_in u with InPush pkt => [pkt] | _ => [] end.

(** A connection that is served.  What the server wrote is [n_down]: the packet that is
    passed on, then those whose bytes, up to a cut, are on the connection. *)
Record served (n : Node) (u : Uplink) : Prop := {
  sv_session : n_session n = u_session u;
  sv_conn : n_conn n = true;
  sv_up : ∃ up, n_up n = up ++ held u;
  sv_down : u_in u ≠ InStopped →
    ∃ left k, n_down n = pushing u ++ left ∧ rx (u_conn u) = take k (stream left) ∧ Forall sendable left;
}.

(** Before the reply of the server is read, nothing but it, up to a cut, is on the
    connection: what follows arrives later ([arrives]). *)
Definition reply_only (c : conn) : Prop := ∃ pkt k, sendable pkt ∧ rx c = take k (frame pkt).

Definition related (n : Node) (r : uprun) : Prop :=
  match r with
  | Idle p s =>
      n_session n = s ∧ n_conn n = false
      ∧ match p with
        | UpDrain c => reply_only c
        | UpHello c => reply_only c ∧ ch_buf (s_uplinkIn s) = []
        | _ => True
        end
  | Serve u _ => served n u
  end.

(** Bytes arrive at the client: the server's reply, or the frames of [ps]. *)
Inductive arrives (n : Node) : uprun → list Packet → uprun → Prop :=
  | ar_reply c c' s :
      reply_only c' → arrives n (Idle (UpHello c) s) [] (Idle (UpHello c') s)
  | ar_packets u c closed ps left k :
      n_down n = pushing u ++ left → Forall sendable (left ++ ps) →
      rx (u_conn u) `prefix_of` rx c → rx c = take k (stream (left ++ ps)) →
      arrives n (Serve u closed) ps (Serve (Uplink.set_in (u_in u) c u) closed).

Section link.
Context {St : Type} `{LogServer St}.

(** Steps of the client, with the server at rest. *)
Definition client_steps (s : St) : Node → Node → Prop := rtc (λ n n', node_step s n s n').

(** ** The connection *)

Lemma RecvRaw_rx_ok c c' pkt left k :
  Forall sendable left → rx c = take k (stream left) → RecvRawTimeoutDefault c = (c', Ok pkt) →
  ∃ left' k', left = pkt :: left' ∧ rx c' = take k' (stream left').
Proof. intros Hl Hr Hc. by eapply recv_stream. Qed.

Lemma SendRaw_rx pkt c c' r : SendRaw pkt c = (c', r) → rx c' = rx c.
Proof. intros Hs. by destruct (SendRaw_tx _ _ _ _ Hs) as (_ & _ & _ & ? & _). Qed.

(** The connection is left alone but for what was received. *)
Lemma served_same n u u' :
  served n u → u_session u' = u_session u → rx (u_conn u') = rx (u_conn u) → held u' = held u ∨ held u' = [] →
  pushing u' = pushing u ∨ u_in u' = InStopped → (u_in u' ≠ InStopped → u_in u ≠ InStopped) → served n u'.
Proof.
  intros [H1 H2 (up & H3) H4] Hs Hr Hh Hp Hi. split; [congruence|done| |].
  - destruct Hh as [->|Hh]; [by exists up|]. exists (n_up n). by rewrite Hh, app_nil_r.
  - intros Hne. destruct Hp as [->|]; [|done]. rewrite Hr. by apply H4, Hi.
Qed.

(** The session moved with its node. *)
Lemma served_session n u ss :
  served n u → served (set_n_session ss n) (upd_session ss u).
Proof. intros [H1 H2 H3 H4]. by split. Qed.

Lemma work_simulated s n u o u' :
  served n u → uplink_own u o u' → ∃ n', client_steps s n n' ∧ served n' u'.
Proof.
  intros Hv Hs. pose proof Hv as [H1 H2 (up & H3) H4].
  assert (∀ v, served n v → ∃ n', client_steps s n n' ∧ served n' v) as Hstay
    by (intros v Hn; exists n; split; [apply rtc_refl|done]).
  destruct Hs as [c pkt Hi Hr|c e Hi Hr|pkt Hi Hrdy|Hd|pkt rest Ho Hb|pkt c Ho Hw|pkt c e Ho Hw|Ho Hd
    |ss Hn Hx|Hd|pkt rest ss Hp Hb Hh|pkt rest ss e Hp Hb Hh|Hd].
  - destruct (H4 ltac:(by rewrite Hi)) as (left & k & Hdn & Hrx & Hl). unfold pushing in Hdn. rewrite Hi in Hdn.
    destruct (RecvRaw_rx_ok _ _ _ _ _ Hl Hrx Hr) as (left' & k' & -> & Hrx'). apply Forall_cons in Hl as [_ Hl].
    apply Hstay. split; [done|done|by exists up|]. intros _. by exists left', k'.
  - apply Hstay. split; [done|done|by exists up|done].
  - destruct (H4 ltac:(by rewrite Hi)) as (left & k & Hdn & Hrx & Hl). unfold pushing in Hdn. rewrite Hi in Hdn.
    rewrite <- H1 in Hrdy. exists (set_n_down left (set_n_session (push_in pkt (n_session n)) n)). split.
    + by apply rtc_once, nd_flow, nd_pump_in.
    + split; simpl; [by rewrite H1|done|by exists up|]. intros _. by exists left, k.
  - apply Hstay. split; [done|done|by exists up|done].
  - rewrite <- H1 in Hb. unfold held in H3. rewrite Ho, app_nil_r in H3.
    exists (set_n_up (n_up n ++ [pkt]) (set_n_session (take_out (n_session n)) n)). split.
    + by eapply rtc_once, nd_flow, nd_pump_out.
    + split; simpl; [by rewrite H1|done|by exists (n_up n)|exact H4].
  - apply Hstay. apply (served_same n u); simpl; [done..|by eapply SendRaw_rx|by right|by left|done].
  - apply Hstay. apply (served_same n u); simpl; [done..|by eapply SendRaw_rx|by right|by left|done].
  - apply Hstay. apply (served_same n u); simpl; [done..|by right|by left|done].
  - exists (set_n_session ss n). split; [|by apply served_session].
    apply rtc_once, nd_local, nd_nop. by rewrite H1.
  - by apply Hstay, (served_same n u); auto.
  - exists (set_n_session ss n). split; [|by apply served_session].
    apply rtc_once, nd_flow. eapply nd_handle; [done|by rewrite H1|]. rewrite H1. exact Hh.
  - exists (set_n_session ss n). split; [|by apply (served_same _ (upd_session ss u)); [apply served_session| | | | |]; auto].
    apply rtc_once, nd_flow. eapply nd_handle; [done|by rewrite H1|]. rewrite H1. exact Hh.
  - by apply Hstay, (served_same n u); auto.
Qed.

(** ** The life of the uplink *)

Lemma handshake_reads_reply s c c' :
  reply_only c → handshake s c = (c', Ok tt) → rx c' = [].
Proof.
  intros (pkt & k & Hp & Hrx). unfold handshake. rewrite ClientHello_Serialize_layout.
  unfold mbind, M_bind, lift. destruct (SendRaw _ c) as [c1 [[]|e| |]] eqn:Hs; [|done..].
  apply SendRaw_rx in Hs. destruct (RecvRawTimeoutDefault c1) as [c2 [p|e| |]] eqn:Hr; [|done..].
  destruct (RecvRaw_rx_ok c1 c2 p [pkt] k) as (left & k' & Hl & Hrx'); [by constructor| |done|].
  { by rewrite Hs, Hrx, stream_singleton. }
  injection Hl as <- <-. intros Hx. simplify_eq. rewrite Hrx'. by destruct k'.
Qed.

Lemma related_returned n s : n_session n = s → n_conn n = false → related n (returned s).
Proof. intros Hs Hc. unfold returned. by destruct (p_done (s_ports s)). Qed.

Lemma served_start n s c :
  n_session n = s → rx c = [] →
  served (MkNode (n_session n) (n_up n) [] (ch_WalIndex (hello_data (n_session n))) true (n_round n)) (start_uplink s c).
Proof.
  intros Hs Hr. split; [done|done|exists (n_up n); by rewrite app_nil_r|].
  intros _. exists [], 0. simpl. split; [done|]. by rewrite Hr.
Qed.

Lemma up_own_linked s n r r' :
  related n r → up_own r r' → (∀ c ss, r' = Idle (UpDrain c) ss → reply_only c) →
  ∃ n', client_steps s n n' ∧ related n' r'.
Proof.
  intros Hr Hs Hc.
  assert (related n r' → ∃ n', client_steps s n n' ∧ related n' r') as Hstay
    by (exists n; split; [apply rtc_refl|done]).
  destruct Hs as [ss Hd|ss Hd|ss|c ss|ss|c picks ss ss' Hdr|c c' ss Hh|c c' ss e Hh|u Hd|u Hst|u o u' closed Hw _
    |u Hi|u pkt Ho].
  1-3: destruct Hr as (H1 & H2 & _); by apply Hstay.
  - destruct Hr as (H1 & H2 & _). apply Hstay. split_and!; [done..|by eapply Hc].
  - destruct Hr as (H1 & H2 & _). by apply Hstay, related_returned.
  - destruct Hr as (H1 & H2 & H3). rewrite drain_eq in Hdr. injection Hdr as <-.
    exists (set_n_session (drained (n_session n)) n). split; [by apply rtc_once, nd_link, nd_drain|].
    split_and!; [by rewrite <- H1|done|done|done].
  - destruct Hr as (H1 & H2 & H3 & H4). eexists. split; [apply rtc_once, nd_link, nd_connect; [done|by rewrite H1]|].
    apply served_start; [done|]. by eapply handshake_reads_reply.
  - destruct Hr as (H1 & H2 & _). by apply Hstay, related_returned.
  - by apply Hstay, (served_same n u); auto.
  - exists (set_n_conn false n). split; [by apply rtc_once, nd_link, nd_disconnect|].
    apply related_returned; [apply Hr|done].
  - by eapply work_simulated.
  - apply Hstay, (served_same n u); auto; done.
  - apply Hstay, (served_same n u); auto; by right.
Qed.

(** What arrives are packets that the server wrote. *)
Lemma arrives_related n r ps r' :
  related n r → arrives n r ps r' → related (set_n_down (n_down n ++ ps) n) r'.
Proof.
  intros Hr Ha. destruct Ha as [c c' s Hc|u c closed ps left k Hd Hps Hp Hrx].
  - destruct Hr as (H1 & H2 & H3 & H4). by split_and!.
  - destruct Hr as [H1 H2 H3 H4]. split; [done|done|done|]. intros Hi. exists (left ++ ps), k.
    split; [|done]. simpl. by rewrite Hd, <- app_assoc.
Qed.

(** The rest of the session leaves [uplinkIn] alone. *)
Lemma session_related n r ss :
  related n r → s_uplinkIn ss = s_uplinkIn (sess r) → related (set_n_session ss n) (with_sess ss r).
Proof.
  intros Hr Hin. destruct r as [p s|u closed].
  - destruct Hr as (H1 & H2 & H3). split_and!; [done|done|]. destruct p; simpl in *; rewrite ?Hin; done.
  - simpl. destruct (p_done (s_ports ss)); [|by apply served_session].
    by apply (served_same _ (upd_session ss u)); [apply served_session| | | | |]; auto.
Qed.
End link.

(** ** Properties *)

(** C12: the uplink implements the client of Replication.v.  Whatever the uplink does by
    itself (dialling, draining, the handshake, the steps of its four goroutines, the
    end of the connection), from any state that corresponds to a node, is matched by
    steps of the node that leave the server alone; bytes that arrive on the connection
    are packets the server wrote, in order and cut anywhere; and the other goroutines
    of the session change both sides alike.  So every execution of a client with the
    real uplink is one of the system in which replicas are prefixes, no entry is lost
    and logs converge. *)
Theorem uplink_implements_node {St : Type} `{LogServer St} (s : St) n r :
  related n r →
  (∀ r', up_own r r' → (∀ c ss, r' = Idle (UpDrain c) ss → reply_only c) →
     ∃ n', client_steps s n n' ∧ related n' r')
  ∧ (∀ ps r', arrives n r ps r' → related (set_n_down (n_down n ++ ps) n) r')
  ∧ (∀ ss, s_uplinkIn ss = s_uplinkIn (sess r) → related (set_n_session ss n) (with_sess ss r))
  ∧ n_session n = sess r.
Proof.
  intros Hr. split_and!.
  - intros r' Hs Hc. by eapply up_own_linked.
  - intros ps r'. by apply arrives_related.
  - intros ss. by apply session_related.
  - destruct r; apply Hr.
Qed.

#[local] Existing Instance ex_server.

(** A connection on which an acknowledgement arrives and is received. *)
Definition ex_serving (c : conn) : Uplink := start_uplink (drained ex_session) c.
Definition ex_wire_conn : conn := conn_on (frame ex_ack) EOF.

Lemma uplink_implements_node_witness :
  related (MkNode (drained ex_session) [] [] (U32 0) true []) (Serve (ex_serving (conn_on [] EOF)) false)
  ∧ ∃ n u, related n (Serve u false) ∧ u_in u = InPush ex_ack ∧ n_session n = drained ex_session.
Proof.
  assert (related (MkNode (drained ex_session) [] [] (U32 0) true []) (Serve (ex_serving (conn_on [] EOF)) false)) as H0.
  { split; [reflexivity|reflexivity|exists []; reflexivity|].
    intros _. exists [], 0. split; [reflexivity|]. split; [reflexivity|constructor]. }
  split; [exact H0|].
  assert (arrives (MkNode (drained ex_session) [] [] (U32 0) true []) (Serve (ex_serving (conn_on [] EOF)) false) [ex_ack]
    (Serve (ex_serving ex_wire_conn) false)) as Ha.
  { apply (ar_packets _ (ex_serving (conn_on [] EOF)) ex_wire_conn false [ex_ack] [] (length (frame ex_ack))).
    - reflexivity.
    - apply Forall_singleton. vm_compute. discriminate.
    - apply prefix_nil.
    - reflexivity. }
  pose proof (proj1 (proj2 (uplink_implements_node ex_w1 _ _ H0)) _ _ Ha) as H1.
  destruct (proj1 (uplink_implements_node ex_w1 _ _ H1)
    (Serve (Uplink.set_in (InPush ex_ack) (fst (RecvRawTimeoutDefault ex_wire_conn)) (ex_serving ex_wire_conn)) false))
    as (n' & _ & H2).
  - apply (up_work _ None); [|discriminate]. apply ul_recv; [reflexivity|]. apply pair_snd. by_compute.
  - intros c ss Hc. discriminate Hc.
  - eexists n', _. split; [exact H2|]. split; [reflexivity|].
    exact (proj2 (proj2 (proj2 (uplink_implements_node ex_w1 _ _ H2)))).
Defined.
