(* ===== verification/Convergence.v ===== *)
(** * Convergence of the replicas

    From every reachable state of Replication.v in which the sessions of the
    clients still run there is a schedule of the clients' own steps ([sys_own]: no
    packet of anybody else, nothing lost but by reconnecting, no restart) after which
    all replicas equal the log of the server and every entry of a client is in it:
    each client connects, sends what waits in its queue, and follows the stream to its
    end.  And in every execution in which a client keeps its connection and loses
    nothing ([sys_keeps]), an entry on its way to the server gets there: it is in a
    round of the queue, in a channel, in flight, or in the log. *)

From stdpp Require Import base gmap sets strings vector numbers tactics list relations.
From Stdlib Require Import ZArith Lia.
From S2P Require Import Prelude Words GoIO GoStr WalEntry Packet Wal Events ServerSession LogServer.
From S2P Require Import IpcMsg SendQueue ClientPorts PositionSystem Daemon ClientSession Uplink Replication.

(** ** Capacities *)

(** The channels of the uplink have room for a packet. *)
Definition roomy (s : Session) : Prop :=
  0 < ch_cap (s_uplinkIn s) ∧ 0 < ch_cap (pt_chan (p_uplinkOut (s_ports s))).

Lemma roomy_shape s s' : shape s' = shape s → roomy s → roomy s'.
Proof. unfold shape, roomy. intros [= _ _ -> ->]. done. Qed.

Lemma keeps_roomy {A} (m : M Session A) s ss r :
  keeps shape m → m s = (ss, r) → roomy s → roomy ss.
Proof. intros Hk Hm. specialize (Hk s). rewrite Hm in Hk. by apply roomy_shape. Qed.

Lemma Run_start_roomy prefix info hello mkdir opened randBytes done picks c d ss :
  Run_start prefix info hello mkdir opened randBytes done picks c d = Ok ss → roomy ss.
Proof.
  unfold Run_start. intros (x1 & _ & (x2 & _ & (x3 & _ & (x4 & _ & (x5 & _ & (x6 & _ & Hs)
    %res_bind_Ok_inv)%res_bind_Ok_inv)%res_bind_Ok_inv)%res_bind_Ok_inv)%res_bind_Ok_inv)%res_bind_Ok_inv.
  simplify_eq. unfold roomy; simpl. lia.
Qed.

(** ** Runs of one client *)

Section convergence.
Context {St : Type} `{LogServer St}.

(** What a client does by itself: the way of its entries to the log and of the log to
    its replica, with nothing lost, and a new connection in the place of the old. *)
Definition own_way (s : St) (n : Node) (s' : St) (n' : Node) : Prop :=
  node_flow s n s' n' ∨ node_link s n s' n'.

(** Steps of this kind, each of one client of the system. *)
Inductive sys_own (x : St * gmap nat Node) : St * gmap nat Node → Prop :=
  | so_node i n s' n' :
      x.2 !! i = Some n → own_way x.1 n s' n' → sys_own x (s', <[i := n']> x.2).

Lemma own_way_step s n s' n' : own_way s n s' n' → node_step s n s' n'.
Proof. intros [?|?]; [by apply nd_flow|by apply nd_link]. Qed.

Lemma sys_own_reach x y : rtc sys_own x y → sys_reach x y.
Proof.
  apply rtc_subrel. intros u v [i n s' n' Hi Hs]. by eapply sy_node, own_way_step.
Qed.

Definition run : St * Node → St * Node → Prop :=
  rtc (λ a b, own_way a.1 a.2 b.1 b.2).

#[local] Instance run_preorder : PreOrder run.
Proof. unfold run. apply _. Qed.

Lemma node_step_roomy s n s' n' :
  roomy (n_session n) → node_step s n s' n' → roomy (n_session n').
Proof.
  destruct keeps_shape_sends as [_ HU].
  intros Hn [Hs|Hs|Hs|Hs].
  - destruct Hs as [q ds Hrd Hl Hq Hds|d rest ss Hrd Hr Ht|pkt rest Hc Hb|pkt rest Hc Hd Hr
      |pkt rest ss r Hc Hb Hh|up1 pkt up2 s1 r Hu Hh|p Hc Hp]; simpl; try exact Hn.
    + eapply keeps_roomy; [|exact Ht|done]. cbn [send_pending].
      apply keeps_bind; [by apply keeps_pure|]. intros _. apply keeps_bind; [|done].
      by apply keeps_shape_ports, SendUplink_ports.
    + unfold roomy, take_out, port_take in *. simpl. by case_match.
    + eapply keeps_roomy; [apply handleUplinkPacket_shape|exact Hh|exact Hn].
  - destruct Hs as [nonce msg ss r Hg|order ss Ht|ss Ht|ss Hst|d]; simpl; try exact Hn.
    + eapply keeps_roomy; [apply handleMsg_shape|exact Hg|done].
    + eapply keeps_roomy; [apply tick_shape|exact Ht|done].
    + eapply keeps_roomy; [apply HU|exact Ht|done].
    + unfold store in Hst. injection Hst as ??? Hin Hout. unfold roomy in *. by rewrite Hin, Hout.
  - by destruct Hs.
  - destruct Hs as [| |q prefix hello rb done picks k d ss Hq Hdir Hr]; simpl; try exact Hn.
    by eapply Run_start_roomy.
Qed.

Lemma sys_step_roomy (x x' : St * gmap nat Node) :
  (∀ i n, x.2 !! i = Some n → roomy (n_session n)) → sys_step x x' →
  ∀ i n, x'.2 !! i = Some n → roomy (n_session n).
Proof.
  intros Hx [i n s' n' Hi Hs|pkt s' r Hh|s' Hr] j m Hm; simpl in *.
  - apply lookup_insert_Some in Hm as [[<- <-]|[_ Hm]]; [|by apply (Hx j)].
    eapply node_step_roomy; [by apply (Hx i)|done].
  - by apply (Hx j).
  - rewrite lookup_fmap in Hm. apply fmap_Some in Hm as (n & Hn & ->). exact (Hx j n Hn).
Qed.

Lemma reach_roomy (x y : St * gmap nat Node) :
  (∀ i n, x.2 !! i = Some n → roomy (n_session n)) → sys_reach x y →
  ∀ i n, y.2 !! i = Some n → roomy (n_session n).
Proof.
  intros Hx Hr. induction Hr as [|x y z Hs _ IH]; [done|]. apply IH. by eapply sys_step_roomy.
Qed.

Lemma start_roomy x i n : sys_start x → x.2 !! i = Some n → roomy (n_session n).
Proof.
  intros [_ Hx] Hm.
  destruct (Hx i n Hm) as (prefix & info & hello & rb & picks & c & d & ss & _ & Hs & ->).
  by eapply Run_start_roomy.
Qed.

(** A run of one client is a run of the system. *)
Lemma run_own s n s' n' (ns : gmap nat Node) i :
  run (s, n) (s', n') → ns !! i = Some n → rtc sys_own (s, ns) (s', <[i := n']> ns).
Proof.
  intros Hr. remember (s, n) as a eqn:Ha. remember (s', n') as b eqn:Hb.
  revert s n ns Ha. induction Hr as [a|a c b Hs _ IH]; intros s n ns Ha Hi; simplify_eq.
  - by rewrite insert_id.
  - destruct c as [s1 n1]. simpl in Hs. apply (rtc_l _ _ (s1, <[i := n1]> ns)).
    + by apply (so_node (s, ns) i n).
    + rewrite <- (insert_insert_eq ns i n' n1). apply (IH eq_refl s1 n1); [done|].
      by rewrite lookup_insert_eq.
Qed.

(** ** The phases *)

(** A client whose session runs, with a fresh connection: nothing is under way. *)
Record ready (n : Node) : Prop := {
  rd_live : p_done (s_ports (n_session n)) = false;
  rd_roomy : roomy (n_session n);
  rd_conn : n_conn n = true;
  rd_down : n_down n = [];
  rd_in : ch_buf (s_uplinkIn (n_session n)) = [];
  rd_out : ch_buf (pt_chan (p_uplinkOut (s_ports (n_session n)))) = [];
}.

Lemma run_flow s n s1 n1 b : node_flow s n s1 n1 → run (s1, n1) b → run (s, n) b.
Proof. intros Hs Hr. apply (rtc_l _ _ (s1, n1)); [by left|done]. Qed.

Lemma run_link s n s1 n1 b : node_link s n s1 n1 → run (s1, n1) b → run (s, n) b.
Proof. intros Hs Hr. apply (rtc_l _ _ (s1, n1)); [by right|done]. Qed.

Lemma run_inv s n s' n' :
  srv_ok s → short s' → node_inv (srv_log s) n → run (s, n) (s', n') → node_inv (srv_log s') n'.
Proof.
  intros Hok Hsh Hn Hr.
  destruct (sys_reach_inv (s, {[0 := n]}) (s', <[0 := n']> {[0 := n]})) as [[_ Hns] _].
  - split; [done|]. intros i m Hm. simpl in Hm. by apply lookup_singleton_Some in Hm as [_ <-].
  - done.
  - apply sys_own_reach, (run_own s n); [done|]. apply lookup_singleton_eq.
  - apply (Hns 0). simpl. apply lookup_insert_eq.
Qed.

Lemma connects s n :
  p_done (s_ports (n_session n)) = false → roomy (n_session n) →
  ∃ n', run (s, n) (s, n') ∧ ready n' ∧ s_sendQ (n_session n') = s_sendQ (n_session n)
  ∧ n_round n' = n_round n.
Proof.
  intros Hl Hc. eexists. split; [|split; [|split]].
  - eapply run_link; [apply nd_disconnect|]. eapply run_link; [by apply nd_drain|].
    eapply run_link; [by apply nd_connect|]. apply rtc_refl.
  - split; done.
  - done.
  - done.
Qed.

Lemma length_aappend e l : length (aappend e l) ≤ S (length l).
Proof. unfold aappend. case_decide; rewrite ?length_app; simpl; lia. Qed.

Lemma aappend_has_key e k l : DedupKey e = Ok k → has_key k (aappend e l).
Proof.
  intros Hk. pose proof (aappend_has e l) as Hin. rewrite Hk in Hin.
  apply list_elem_of_fmap in Hin as (x & Hx & Hin). by exists x.
Qed.

(** The record of a key determines it. *)
Lemma good_rec_parse k d : good_rec (k, d) → ∃ e, Parse d = Ok e ∧ DedupKey e = Ok k.
Proof.
  intros (e & [_ Hn] & Hk & Hd). exists e. split; [|done]. simpl in Hd.
  by rewrite (Parse_Serialize e d Hd), Hn.
Qed.

Lemma good_rec_key k k' d : good_rec (k, d) → good_rec (k', d) → k = k'.
Proof.
  intros (e & Hp & Hk)%good_rec_parse (e' & Hp' & Hk')%good_rec_parse. congruence.
Qed.

(** The loop body of a round, with room on [uplinkOut]. *)
Lemma send_one d e s :
  p_done (s_ports s) = false → chan_ready (pt_chan (p_uplinkOut (s_ports s))) = true →
  Parse d = Ok e →
  send_pending [d] s
  = (set_s_ports (set_uplinkOut (port_push (MkPacket OpWal d) (p_uplinkOut (s_ports s))) (s_ports s)) s,
     Ok tt).
Proof.
  intros Hl Hr Hp. cbn [send_pending]. rewrite Hp. unfold mbind, M_bind, lift, on_ports, zoom.
  rewrite SendUplink_live by done. unfold port_send. by rewrite Hr.
Qed.

(** An acknowledgement takes its key off the queue. *)
Lemma handle_ack k s q :
  s_sendQ s = Some q → qstore q →
  handleUplinkPacket (MkPacket OpWalAck (vec_to_list k)) s
  = (set_s_sendQ (Some (fst (Ack k q))) s, Ok tt).
Proof.
  intros Hq Hs. destruct (qstore_Ack q k Hs) as (_ & Hok & _). unfold handleUplinkPacket. cbn [p_Op p_Data].
  rewrite (decide_False (P := OpWalAck = OpNOP)), (decide_False (P := OpWalAck = OpWal)),
    (decide_True (P := OpWalAck = OpWalAck)) by by_compute.
  rewrite decide_False by (rewrite length_vec_to_list; auto).
  rewrite arr_of_vec, (on_sendQ_some (Ack k) s q Hq). by rewrite Hok.
Qed.

(** The next record of a round reaches the log: it is sent, written, handled by the
    server, and its acknowledgement takes it off the queue. *)
Lemma submits s n q k d rest :
  srv_ok s → ready n → s_sendQ (n_session n) = Some q → qstore q →
  n_round n = d :: rest → good_rec (k, d) →
  ∃ s' n' q', run (s, n) (s', n') ∧ ready n' ∧ n_round n' = rest
  ∧ s_sendQ (n_session n') = Some q' ∧ qstore q' ∧ q_entries q' = delete k (q_entries q)
  ∧ srv_ok s' ∧ srv_log s `prefix_of` srv_log s' ∧ has_key k (srv_log s')
  ∧ length (srv_log s') ≤ S (length (srv_log s)).
Proof.
  intros Hok [Hl [Hc1 Hc2] Hc Hd Hi Ho] Hq Hs Hrd Hg.
  destruct (good_rec_parse k d Hg) as (e & Hp & Hkey).
  destruct (srv_accepts s (MkPacket OpWal d) e Hok eq_refl Hp) as (s' & k' & Hh & Hk' & Hlog & Hok').
  simpl in Hkey. rewrite Hkey in Hk'. apply Ok_inj in Hk' as <-.
  assert (chan_ready (pt_chan (p_uplinkOut (s_ports (n_session n)))) = true) as Hr.
  { unfold chan_ready. rewrite Ho. by apply Nat.ltb_lt. }
  pose proof (send_one d e (n_session n) Hl Hr Hp) as Hsend.
  set (ack := MkPacket OpWalAck (vec_to_list k)) in *. set (ss := set_s_ports _ _) in Hsend.
  set (s2 := take_out ss).
  assert (ch_buf (s_uplinkIn s2) = []) as Hi2 by exact Hi.
  assert (take_in (push_in ack s2) = s2) as Ht.
  { unfold take_in, push_in. cbn. rewrite Hi. destruct (n_session n) as [? ? ? ? ? ? ? ? ? [] ?].
    cbn in *. by subst. }
  assert (handleUplinkPacket ack (take_in (push_in ack s2))
    = (set_s_sendQ (Some (fst (Ack k q))) s2, Ok tt)) as Ha.
  { rewrite Ht. by apply handle_ack. }
  destruct (qstore_Ack q k Hs) as (Hs' & _ & Hent).
  eexists s', _, (fst (Ack k q)). split; [|split; [|split]].
  - eapply run_flow; [by apply (nd_resend s n d rest ss)|].
    eapply run_flow; [apply (nd_pump_out _ _ (MkPacket OpWal d) []); [done|]|].
    { cbn. by rewrite Ho. }
    eapply run_flow; [by apply (nd_serve _ _ (n_up n) (MkPacket OpWal d) [] s' (Ok (Some ack)))|].
    eapply run_flow; [apply (nd_pump_in _ _ ack []); [done|cbn; by rewrite Hd|]|].
    { cbn. unfold chan_ready. rewrite Hi. by apply Nat.ltb_lt. }
    eapply run_flow; [eapply (nd_handle _ _ ack []); [done| |exact Ha]|apply rtc_refl].
    cbn. by rewrite Hi.
  - assert (p_uplinkOut (s_ports s2) = Port (Chan (ch_cap (pt_chan (p_uplinkOut (s_ports (n_session n))))) [])
      (pt_taken (p_uplinkOut (s_ports (n_session n))) ++ [MkPacket OpWal d])) as Hout.
    { unfold s2, take_out, ss, port_take. cbn. by rewrite Ho. }
    split; [done|split; [done|]|done|done|done|];
      change (p_uplinkOut (s_ports (n_session _))) with (p_uplinkOut (s_ports s2)); by rewrite Hout.
  - done.
  - split_and!; [done|done|done|done| | |]; rewrite Hlog;
      [apply aappend_prefix|by apply aappend_has_key|apply length_aappend].
Qed.

(** The rest of a round. *)
Lemma finishes l s n q :
  srv_ok s → ready n → s_sendQ (n_session n) = Some q → qstore q →
  n_round n = l → Forall (λ d, ∃ k, good_rec (k, d)) l →
  ∃ s' n' q', run (s, n) (s', n') ∧ ready n' ∧ n_round n' = []
  ∧ s_sendQ (n_session n') = Some q' ∧ qstore q' ∧ q_entries q' ⊆ q_entries q
  ∧ (∀ d k, d ∈ l → good_rec (k, d) → q_entries q' !! k = None)
  ∧ (∀ k, is_Some (q_entries q !! k) → is_Some (q_entries q' !! k) ∨ has_key k (srv_log s'))
  ∧ srv_ok s' ∧ srv_log s `prefix_of` srv_log s'
  ∧ length (srv_log s') ≤ length (srv_log s) + length l.
Proof.
  intros Hok Hr Hq Hs Hrd Hl. revert s n q Hok Hr Hq Hs Hrd.
  induction Hl as [|d l [k Hg] _ IH]; intros s n q Hok Hr Hq Hs Hrd.
  { exists s, n, q. split; [apply rtc_refl|]. split_and!; try done; [|by left|simpl; lia].
    by intros ? ? ?%elem_of_nil. }
  destruct (submits s n q k d l) as (s1 & n1 & q1 & Hr1 & Hrd1 & Hl1 & Hq1 & Hs1 & He1 & Hok1 & Hp1 & Hk1 & Hlen1);
    [done..|].
  destruct (IH s1 n1 q1) as (s2 & n2 & q2 & Hr2 & Hrd2 & Hl2 & Hq2 & Hs2 & He2 & Hg2 & Hk2 & Hok2 & Hp2 & Hlen2);
    [done..|].
  exists s2, n2, q2. split; [by etrans|]. split_and!; try done; [| | |by etrans|simpl; lia].
  - etrans; [exact He2|]. rewrite He1. apply delete_subseteq.
  - intros d' k' [->|Hin]%elem_of_cons Hgd; [|by eapply Hg2].
    rewrite (good_rec_key k' k d Hgd Hg). eapply lookup_weaken_None; [|exact He2].
    rewrite He1. apply lookup_delete_eq.
  - intros k' Hk'. destruct (decide (k' = k)) as [->|Hne].
    + right. by eapply has_key_prefix.
    + apply Hk2. by rewrite He1, lookup_delete_ne.
Qed.

(** The client has nothing left to send. *)
Definition settled (n : Node) : Prop :=
  n_round n = [] ∧ ∃ q, s_sendQ (n_session n) = Some q ∧ qstore q ∧ q_entries q = ∅.

Definition n_pending (n : Node) : nat :=
  length (n_round n) + match s_sendQ (n_session n) with Some q => size (q_entries q) | None => 0 end.

Lemma map_subset_empty (m m' : gmap (vec u8 16) bytes) :
  m' ⊆ m → (∀ k, is_Some (m !! k) → m' !! k = None) → m' = ∅.
Proof.
  intros Hs Hn. apply map_empty. intros k. destruct (m' !! k) as [d|] eqn:Hd; [|done].
  pose proof (lookup_weaken _ _ _ _ Hd Hs) as Hm. rewrite Hn in Hd; [done|by eexists].
Qed.

(** A client that is left alone finishes its round and sends what is pending: its
    queue is empty then, and all that was in it is in the log. *)
Lemma settles s n q :
  srv_ok s → node_inv (srv_log s) n → p_done (s_ports (n_session n)) = false →
  roomy (n_session n) → s_sendQ (n_session n) = Some q →
  ∃ s' n', run (s, n) (s', n') ∧ settled n' ∧ p_done (s_ports (n_session n')) = false
  ∧ (∀ k, is_Some (q_entries q !! k) → has_key k (srv_log s'))
  ∧ srv_ok s' ∧ srv_log s `prefix_of` srv_log s'
  ∧ length (srv_log s') ≤ length (srv_log s) + n_pending n.
Proof.
  intros Hok Hinv Hl Hc Hq. destruct (ni_queue _ _ Hinv) as (q0 & Hq0 & Hs).
  rewrite Hq in Hq0. injection Hq0 as <-.
  destruct (connects s n Hl Hc) as (n1 & Hr1 & Hrd1 & Hq1 & Hl1). rewrite Hq in Hq1.
  destruct (finishes (n_round n) s n1 q Hok Hrd1 Hq1 Hs Hl1 (ni_round _ _ Hinv))
    as (s2 & n2 & q2 & Hr2 & Hrd2 & Hl2 & Hq2 & Hs2 & He2 & _ & Hk2 & Hok2 & Hp2 & Hlen2).
  set (n3 := set_n_round (Pending q2) n2).
  destruct (finishes (Pending q2) s2 n3 q2) as (s4 & n4 & q4 & Hr4 & Hrd4 & Hl4 & Hq4 & Hs4 & He4 & Hg4 & Hk4 & Hok4 & Hp4 & Hlen4);
    [done|by destruct Hrd2|done..|by apply (qstore_Pending q2)|].
  assert (q_entries q4 = ∅) as Hnil.
  { apply (map_subset_empty (q_entries q2)); [done|]. intros k [d Hd].
    apply (Hg4 d); [|by apply (qstore_lookup q2)]. unfold Pending. apply list_elem_of_fmap.
    exists (k, d). split; [done|]. by apply elem_of_map_to_list. }
  exists s4, n4. split.
  { etrans; [exact Hr1|]. etrans; [exact Hr2|]. eapply run_flow; [|exact Hr4].
    by apply (nd_round s2 n2 q2 (Pending q2)); [|apply Hrd2| |]. }
  split; [split; [done|by exists q4]|]. split; [apply Hrd4|]. split_and!; [|done|by etrans|].
  - intros k [Hk|Hk]%Hk2; [|by eapply has_key_prefix]. destruct (Hk4 k Hk) as [[d Hd]|]; [|done].
    rewrite Hnil, lookup_empty in Hd. done.
  - unfold n_pending. rewrite Hq. unfold Pending in Hlen4. rewrite length_fmap, length_map_to_list in Hlen4.
    pose proof (map_subseteq_size _ _ He2). lia.
Qed.

(** One packet of the stream arrives. *)
Lemma follows_one s n e :
  srv_ok s → short s → node_inv (srv_log s) n → ready n → settled n →
  srv_log s !! length (w_entries (s_wal (n_session n))) = Some e →
  ∃ n', run (s, n) (s, n') ∧ ready n' ∧ settled n'
  ∧ w_entries (s_wal (n_session n')) = w_entries (s_wal (n_session n)) ++ [e].
Proof.
  intros Hok Hsh Hinv [Hl [Hc1 Hc2] Hc Hd Hi Ho] [Hrd (q & Hq & Hs & Hnil)] He.
  pose proof (flow_end _ n (ni_flow _ _ Hinv Hc) Hd Hi) as Hnx.
  destruct Hinv as [Hm _ Hw Hpre _ _].
  destruct (next_entry _ _ _ (srv_keys s Hok) Hpre He) as [Hap _].
  assert (normal e) as Hne by (by eapply (Forall_lookup_1 _ _ _ _ (srv_normal s Hok))).
  set (pkt := wal_packet (e, n_next n)).
  set (s1 := push_in pkt (n_session n)).
  assert (take_in s1 = n_session n) as Ht.
  { unfold take_in, s1, push_in. cbn. rewrite Hi. destruct (n_session n) as [? ? ? ? ? ? ? ? ? [] ?]. cbn in *. by subst. }
  destruct (handle_wal_packet e (n_next n) (take_in s1) q)
    as (s2 & k & q' & l' & Hh & _ & _ & Hwl & Hes & _ & Hq' & Hs' & Hent); [done|by rewrite Ht..|done|].
  assert (shape s2 = shape (n_session n)) as Hshape.
  { pose proof (handleUplinkPacket_shape pkt (take_in s1)) as Hk. unfold pkt in Hk. rewrite Hh in Hk.
    by rewrite Ht in Hk. }
  pose proof (handled_chans _ _ _ _ Hh) as [Hin2 Hout2].
  eexists. split; [|split; [|split]].
  - eapply run_flow; [apply (nd_stream s n pkt); [done|]|].
    { apply srv_streams_all; [done|done|]. by rewrite Hnx, Nat2Z.id. }
    eapply run_flow; [apply (nd_pump_in _ _ pkt []); [done|cbn; by rewrite Hd|]|].
    { cbn. unfold chan_ready. rewrite Hi. by apply Nat.ltb_lt. }
    eapply run_flow; [eapply (nd_handle _ _ pkt []); [done| |exact Hh]|apply rtc_refl].
    cbn. by rewrite Hi.
  - unfold shape in Hshape. rewrite Ht in Hin2, Hout2. injection Hshape as ????.
    split; cbn; [congruence|split; congruence|done|done|by rewrite Hin2|by rewrite Hout2].
  - split; [exact Hrd|]. exists q'. cbn. split_and!; [done|done|]. by rewrite Hent, Hnil, delete_empty.
  - cbn. rewrite Hwl, Hes, Ht. exact Hap.
Qed.

Lemma follows s n :
  srv_ok s → short s → node_inv (srv_log s) n → ready n → settled n →
  ∃ n', run (s, n) (s, n') ∧ w_entries (s_wal (n_session n')) = srv_log s
  ∧ settled n' ∧ p_done (s_ports (n_session n')) = false.
Proof.
  intros Hok Hsh. remember (length (srv_log s) - length (w_entries (s_wal (n_session n)))) as m eqn:Hm.
  revert n Hm. induction m as [|m IH]; intros n Hm Hinv Hr Hse.
  - exists n. split; [apply rtc_refl|]. split; [|by split; [|apply Hr]].
    apply prefix_length_eq; [apply Hinv|lia].
  - destruct (lookup_lt_is_Some_2 (srv_log s) (length (w_entries (s_wal (n_session n))))) as [e He]; [lia|].
    destruct (follows_one s n e) as (n1 & Hr1 & Hrd1 & Hse1 & Hl1); [done..|].
    destruct (IH n1) as (n2 & Hr2 & Hl2 & Hse2 & Hd2);
      [rewrite Hl1, length_app; simpl; lia| |done|done|].
    { by eapply run_inv. }
    exists n2. split; [by etrans|done].
Qed.

(** ** All clients *)

Definition all_live (x : St * gmap nat Node) : Prop :=
  ∀ i n, x.2 !! i = Some n → p_done (s_ports (n_session n)) = false.
Definition all_roomy (x : St * gmap nat Node) : Prop :=
  ∀ i n, x.2 !! i = Some n → roomy (n_session n).

Lemma map_insert_all (P : Node → Prop) (ns : gmap nat Node) i n' :
  (∀ j n, ns !! j = Some n → P n) → P n' → ∀ j n, <[i := n']> ns !! j = Some n → P n.
Proof. intros Hn Hi j n [[_ <-]|[_ ?]]%lookup_insert_Some; [done|by apply (Hn j)]. Qed.

(** One client after the other: [I l] is the invariant while those of [l] wait. *)
Lemma in_turn (I : list nat → St * gmap nat Node → Prop) l x :
  (∀ i l y, I (i :: l) y → ∃ z, rtc sys_own y z ∧ I l z) → I l x →
  ∃ z, rtc sys_own x z ∧ I [] z.
Proof.
  intros Hstep. revert x. induction l as [|i l IH]; intros x Hx; [by exists x; split; [apply rtc_refl|]|].
  destruct (Hstep i l x Hx) as (y & Hr & Hy). destruct (IH y Hy) as (z & Hr' & Hz).
  exists z. split; [by etrans|done].
Qed.

(** How many entries the clients [l] have yet to send. *)
Definition waiting_of (ns : gmap nat Node) (l : list nat) : nat :=
  sum_list ((λ i, from_option n_pending 0 (ns !! i)) <$> l).
Definition waiting (ns : gmap nat Node) : nat := waiting_of ns (elements (dom ns)).

(** The clients of [l] did nothing yet, the others have their entries in the log. *)
Record submitting (x : St * gmap nat Node) (B : nat) (l : list nat) (y : St * gmap nat Node) : Prop := {
  sb_reach : rtc sys_own x y;
  sb_nodup : NoDup l;
  sb_live : all_live y;
  sb_dom : dom y.2 = dom x.2;
  sb_same i : i ∈ l → is_Some (x.2 !! i) ∧ y.2 !! i = x.2 !! i;
  sb_done i n q k : i ∉ l → x.2 !! i = Some n → s_sendQ (n_session n) = Some q →
    is_Some (q_entries q !! k) → has_key k (srv_log y.1);
  sb_settled i n : i ∉ l → y.2 !! i = Some n → settled n;
  sb_bound : length (srv_log y.1) + waiting_of x.2 l ≤ B;
}.

Lemma submitting_one x B i l y :
  sys_inv x → all_roomy x → (Z.of_nat B < 2 ^ 32)%Z → submitting x B (i :: l) y →
  ∃ z, rtc sys_own y z ∧ submitting x B l z.
Proof.
  intros Hx Hroomy HB [Hxy Hnd Hlive Hdom Hsame Hdone Hset Hb].
  pose proof (sys_own_reach _ _ Hxy) as Hreach.
  destruct (sys_reach_inv x y Hx) as [[Hok Hns] _]; [unfold short; lia|done|].
  pose proof (reach_roomy x y Hroomy Hreach) as Hry.
  destruct y as [s ns]; simpl in *.
  destruct (Hsame i) as [[n Hn] Hi]; [by left|]. rewrite Hn in Hi.
  destruct (ni_queue _ _ (Hns i n Hi)) as (q & Hq & Hs).
  destruct (settles s n q) as (s' & n' & Hr & Hse & Hl' & Hk & Hok' & Hp & Hlen);
    [done|by eapply Hns|by eapply Hlive|by eapply Hry|done|].
  pose proof (run_own s n s' n' ns i Hr Hi) as Hsys.
  exists (s', <[i := n']> ns). split; [done|].
  apply NoDup_cons in Hnd as [Hnin Hnd]. split; simpl; [by etrans|done| | | | | |].
  - exact (map_insert_all (λ n, p_done (s_ports (n_session n)) = false) ns i n' Hlive Hl').
  - rewrite dom_insert_L, <- Hdom. apply elem_of_dom_2 in Hi. set_solver.
  - intros j Hj. destruct (Hsame j) as [Hj1 Hj2]; [by right|]. split; [exact Hj1|].
    rewrite lookup_insert_ne; [exact Hj2|]. by intros ->.
  - intros j m q0 k Hj Hm Hq0 Hk0. destruct (decide (j = i)) as [->|Hne].
    + simplify_eq. by apply Hk.
    + eapply has_key_prefix; [exact Hp|]. by eapply (Hdone j m q0 k); [set_solver|..].
  - intros j m Hj [[<- <-]|[Hne Hm]]%lookup_insert_Some; [done|]. apply (Hset j); [set_solver|done].
  - unfold waiting_of in Hb. rewrite fmap_cons in Hb. simpl in Hb. rewrite Hn in Hb. simpl in Hb.
    unfold waiting_of. lia.
Qed.

(** The clients of [l] did nothing yet, the others hold the whole log. *)
Record following (x : St * gmap nat Node) (l : list nat) (y : St * gmap nat Node) : Prop := {
  fo_reach : rtc sys_own x y;
  fo_live : all_live y;
  fo_dom : dom y.2 = dom x.2;
  fo_some i : i ∈ l → i ∈ dom x.2;
  fo_log : y.1 = x.1;
  fo_settled i n : y.2 !! i = Some n → settled n;
  fo_done i n : i ∉ l → y.2 !! i = Some n → w_entries (s_wal (n_session n)) = srv_log x.1;
}.

Lemma following_one x i l y :
  sys_inv x → all_roomy x → short x.1 → following x (i :: l) y →
  ∃ z, rtc sys_own y z ∧ following x l z.
Proof.
  intros Hx Hroomy Hsh [Hxy Hlive Hdom Hsome Hlog Hset Hdone].
  pose proof (sys_own_reach _ _ Hxy) as Hreach.
  destruct (sys_reach_inv x y Hx) as [[Hok Hns] _]; [by rewrite Hlog|done|].
  pose proof (reach_roomy x y Hroomy Hreach) as Hry.
  destruct y as [s ns]; simpl in *. subst s.
  pose proof (Hsome i) as Hi. rewrite <- Hdom in Hi. apply elem_of_dom in Hi as [n Hi]; [|by left].
  destruct (connects x.1 n (Hlive i n Hi) (Hry i n Hi)) as (n1 & Hr1 & Hrd & Hq1 & Hl1).
  assert (node_inv (srv_log x.1) n1) as Hn1 by (eapply run_inv; [done..|by eapply Hns|done]).
  assert (settled n1) as Hs1 by (unfold settled; rewrite Hq1, Hl1; by apply (Hset i)).
  destruct (follows x.1 n1) as (n' & Hr2 & Hl & Hs2 & Hd); [done..|].
  assert (rtc sys_own (x.1, ns) (x.1, <[i := n']> ns)) as Hr by (apply (run_own x.1 n); [by etrans|done]).
  exists (x.1, <[i := n']> ns). split; [done|]. split; simpl.
  - by etrans.
  - exact (map_insert_all (λ n, p_done (s_ports (n_session n)) = false) ns i n' Hlive Hd).
  - rewrite dom_insert_L, <- Hdom. apply elem_of_dom_2 in Hi. set_solver.
  - intros j Hj. apply Hsome. by right.
  - done.
  - intros j m [[<- <-]|[Hne Hm]]%lookup_insert_Some; [done|by apply (Hset j)].
  - intros j m Hj Hm. apply lookup_insert_Some in Hm as [[<- <-]|[Hne Hm]]; [done|].
    apply (Hdone j); [set_solver|done].
Qed.

(** ** What is under way arrives *)

(** The records of a client that its round has yet to send, that wait in
    [uplinkOut], or that were written and are not handled yet. *)
Definition out_buf (s : Session) : list Packet := ch_buf (pt_chan (p_uplinkOut (s_ports s))).
Definition under_way (n : Node) : list bytes :=
  n_round n ++ (p_Data <$> filter is_wal (out_buf (n_session n) ++ n_up n)).

(** Steps of the system in which client [i], live, keeps its connection and loses
    nothing on it; the others, their packets and the server do what they like. *)
Inductive sys_keeps (i : nat) (x : St * gmap nat Node) : St * gmap nat Node → Prop :=
  | sk_own n s' n' :
      x.2 !! i = Some n → p_done (s_ports (n_session n)) = false →
      node_flow x.1 n s' n' ∨ node_local x.1 n s' n' → sys_keeps i x (s', <[i := n']> x.2)
  | sk_other j n s' n' :
      j ≠ i → x.2 !! j = Some n → node_step x.1 n s' n' → sys_keeps i x (s', <[j := n']> x.2)
  | sk_rogue pkt s' r : srv_handle pkt x.1 = (s', r) → sys_keeps i x (s', x.2)
  | sk_restart s' : srv_restart x.1 s' → sys_keeps i x (s', set_n_conn false <$> x.2).

Lemma sys_keeps_step i x y : sys_keeps i x y → sys_step x y.
Proof.
  intros [n s' n' Hi _ [Hs|Hs]|j n s' n' _ Hj Hs|pkt s' r Hh|s' Hr].
  - by eapply sy_node, nd_flow.
  - by eapply sy_node, nd_local.
  - by eapply sy_node.
  - by eapply sy_rogue.
  - by eapply sy_restart.
Qed.

(** The entry of key [k] is under way or in the log. *)
Definition carried (k : vec u8 16) (log : list WalEntry) (n : Node) : Prop :=
  has_key k log ∨ ∃ d e, d ∈ under_way n ∧ Parse d = Ok e ∧ DedupKey e = Ok k.

Lemma elem_under_way d n :
  d ∈ under_way n ↔ d ∈ n_round n
    ∨ ∃ pkt, is_wal pkt ∧ p_Data pkt = d ∧ (pkt ∈ out_buf (n_session n) ∨ pkt ∈ n_up n).
Proof.
  unfold under_way. rewrite elem_of_app, list_elem_of_fmap. apply or_iff_compat_l.
  setoid_rewrite list_elem_of_filter. setoid_rewrite elem_of_app. naive_solver.
Qed.

(** Nothing is taken away. *)
Lemma carried_grow k log log' n n' :
  log `prefix_of` log' → (∀ d, d ∈ under_way n → d ∈ under_way n') →
  carried k log n → carried k log' n'.
Proof.
  intros Hp Hu [Hk|(d & e & Hd & He)]; [left; by eapply has_key_prefix|right].
  exists d, e. by split; [apply Hu|].
Qed.

Lemma carried_session k log n ss :
  (∀ pkt, pkt ∈ out_buf (n_session n) → pkt ∈ out_buf ss) →
  carried k log n → carried k log (set_n_session ss n).
Proof.
  intros Ho. apply carried_grow; [done|]. intros d. rewrite !elem_under_way. simpl. naive_solver.
Qed.
(** *** The game only adds to [uplinkOut] *)

Definition adds {A} (m : M Session A) : Prop := ∀ s, out_buf s ⊆ out_buf (fst (m s)).

Lemma adds_keeps {A} (m : M Session A) : keeps out_buf m → adds m.
Proof. intros Hk s. by rewrite (Hk s). Qed.

Lemma adds_bind {A B} (m : M Session A) (k : A → M Session B) :
  adds m → (∀ a, adds (k a)) → adds (m ≫= k).
Proof.
  intros Hm Hk s. unfold mbind, M_bind. specialize (Hm s).
  destruct (m s) as [s' [a|e| |]]; simpl in *; [|done..]. etrans; [exact Hm|apply Hk].
Qed.

Lemma adds_wrapM {A} msg (m : M Session A) : adds m → adds (wrapM msg m).
Proof.
  intros Hm s. specialize (Hm s). unfold wrapM, on_err. by destruct (m s) as [s' [a|e| |]].
Qed.

Lemma adds_if {A} (P : Prop) `{Decision P} (m1 m2 : M Session A) :
  adds m1 → adds m2 → adds (if decide P then m1 else m2).
Proof. by case_decide. Qed.

Lemma TrySendUplink_adds pkt p :
  ch_buf (pt_chan (p_uplinkOut p)) ⊆ ch_buf (pt_chan (p_uplinkOut (fst (TrySendUplink pkt p)))).
Proof.
  destruct (TrySendUplink_cases pkt p) as (p' & -> & _ & _ & [Hu|[Hu _]]); simpl; rewrite Hu; [done|].
  simpl. set_solver.
Qed.

Lemma newWalEntry_adds e : adds (newWalEntry e).
Proof.
  assert (∀ A (m : M SendQueue A), keeps out_buf (on_sendQ m)) by (intros; by apply keeps_sendQ).
  unfold newWalEntry. repeat (apply adds_bind; [apply adds_keeps; solve_keeps|intros ?]).
  intros s. unfold on_ports, zoom. pose proof (TrySendUplink_adds (MkPacket OpWal a) (s_ports s)) as Hs.
  by destruct (TrySendUplink _ _).
Qed.

Lemma handleMsg_adds nonce msg : adds (handleMsg nonce msg).
Proof.
  assert (∀ m, keeps out_buf (on_ports (Send m))) as HS.
  { intros m s. unfold on_ports, zoom. destruct (Send_cases m (s_ports s)) as (p & -> & _ & Hu & _).
    unfold out_buf. simpl. by rewrite Hu. }
  assert (∀ i, keeps out_buf (sendGameWal i)) by (intros i; by apply sendGameWal_keeps).
  assert (keeps out_buf (expectedSeq msg)) by (intros s; unfold expectedSeq; by case_decide).
  assert (∀ m, keeps out_buf (on_positions (OnGamePos m))) by (intros m s; done).
  unfold handleMsg. apply adds_bind; [by apply adds_keeps|]. intros n.
  apply adds_if; [by apply adds_keeps|]. unfold dispatch.
  apply adds_bind; [by apply adds_keeps|]. intros info.
  apply adds_if; [by apply adds_keeps|]. apply adds_if; [|apply adds_keeps; solve_keeps].
  apply adds_bind; [by apply adds_keeps|]. intros w. apply adds_if; [|by apply adds_keeps].
  unfold handleWalIn. apply adds_bind; [by apply adds_keeps|]. intros r.
  apply adds_bind; [by apply adds_keeps|]. intros e.
  apply adds_bind; [apply adds_wrapM, newWalEntry_adds|]. intros _. apply adds_keeps. solve_keeps.
Qed.

Lemma tick_adds order s ss r : on_positions (tick order) s = (ss, r) → out_buf s ⊆ out_buf ss.
Proof.
  unfold on_positions, zoom. pose proof (tick_ports order (s_positions s, s_ports s)) as Ht.
  destruct (tick _ _) as [[x p] r']. intros [= <- <-]. simpl in Ht. unfold out_buf. simpl. rewrite Ht.
  destruct (sendSelfPos_spec (s_positions s, s_ports s)) as (p' & k & -> & _ & Hn & Hs). simpl in *.
  destruct (decide (pd_Key (ps_pos (s_positions s)) = no_pos)) as [Hk|Hk]; [by rewrite (Hn Hk)|].
  destruct (Hs Hk) as (d & _ & Hp). pose proof (TrySendUplink_adds (MkPacket OpPosition d) (s_ports s)) as Ha.
  by rewrite Hp in Ha.
Qed.

(** *** Every step of client [i] and of the others *)

Lemma carried_local k s n s' n' :
  node_local s n s' n' → carried k (srv_log s) n → carried k (srv_log s') n'.
Proof.
  intros Hs. destruct Hs as [nonce msg ss r Hg|order ss Ht|ss Ht|ss Hs|d];
    [apply carried_session..|by apply carried_grow].
  - intros pkt. pose proof (handleMsg_adds nonce msg (n_session n)) as Ha. rewrite Hg in Ha. apply Ha.
  - intros pkt. by apply (tick_adds _ _ _ _ Ht).
  - intros pkt. unfold on_ports, zoom in Ht. pose proof (TrySendUplink_adds nop_packet (s_ports (n_session n))) as Ha.
    destruct (TrySendUplink _ _) as [p r]. injection Ht as <- _. apply Ha.
  - unfold store in Hs. injection Hs as ???? Hout. intros pkt. unfold out_buf. by rewrite Hout.
Qed.

Lemma carried_flow k s n s' n' :
  srv_ok s → p_done (s_ports (n_session n)) = false → node_flow s n s' n' →
  carried k (srv_log s) n → carried k (srv_log s') n'.
Proof.
  intros Hok Hl Hs. destruct Hs as [q ds Hrd _ Hq Hds|d rest ss Hrd Hr Ht|pkt rest Hc Hb|pkt rest Hc Hd Hr
    |pkt rest ss r Hc Hb Hh|up1 pkt up2 s1 r Hu Hh|p Hc Hp].
  - apply carried_grow; [done|]. intros d. rewrite !elem_under_way, Hrd. simpl. set_solver.
  - intros [Hk|(d' & e & Hd & Hp & Hk)]; [by left|]. right. exists d', e. split; [|done].
    rewrite elem_under_way in *. simpl. rewrite Hrd in Hd.
    assert (out_buf ss = out_buf (n_session n) ++ [MkPacket OpWal d]) as Ho.
    { destruct (Parse d) as [e'|err| |] eqn:Hpd.
      { rewrite (send_one d e' _ Hl Hr Hpd) in Ht. by injection Ht as <-. }
      all: cbn [send_pending] in Ht; unfold mbind, M_bind, lift in Ht; by rewrite Hpd in Ht. }
    rewrite Ho. destruct Hd as [[->|Hd]%elem_of_cons|(pkt & Hw & Hdat & Hin)]; [|by left|].
    + right. exists (MkPacket OpWal d). split; [done|]. split; [done|]. left. set_solver.
    + right. exists pkt. split; [done|]. split; [done|]. set_solver.
  - apply carried_grow; [done|]. intros d. rewrite !elem_under_way. simpl.
    assert (out_buf (take_out (n_session n)) = rest) as Ho.
    { unfold out_buf, take_out, port_take. cbn. by rewrite Hb. }
    rewrite Ho. unfold out_buf. rewrite Hb. set_solver.
  - by apply carried_grow.
  - apply carried_session. intros p. destruct (handled_chans _ _ _ _ Hh) as [_ Ho]. unfold out_buf. by rewrite Ho.
  - destruct (srv_handle_cases s pkt s1 r Hok Hh) as (_ & Hpre & _).
    intros [Hk|(d & e & Hd & Hp & Hk)]; [left; by eapply has_key_prefix|].
    rewrite elem_under_way in Hd. rewrite Hu in Hd.
    destruct (decide (is_wal pkt ∧ p_Data pkt = d)) as [[Hw Hdat]|Hne].
    + left. subst d. destruct (srv_accepts s pkt e Hok Hw Hp) as (s2 & k' & Hh2 & Hk' & Hlog & _).
      rewrite Hh in Hh2. injection Hh2 as -> _. rewrite Hlog. by apply aappend_has_key.
    + right. exists d, e. split; [|done]. rewrite elem_under_way. simpl.
      destruct Hd as [Hd|(p & Hw & Hdat & Hin)]; [by left|right]. exists p. split; [done|]. split; [done|].
      destruct Hin as [Hin|[Hin|[->|Hin]%elem_of_cons]%elem_of_app]; [by left|set_solver|naive_solver|set_solver].
  - by apply carried_grow.
Qed.

Lemma carried_keeps i k x y n :
  srv_ok x.1 → sys_keeps i x y → x.2 !! i = Some n → carried k (srv_log x.1) n →
  ∃ n', y.2 !! i = Some n' ∧ carried k (srv_log y.1) n'.
Proof.
  intros Hok Hs Hn Hk. destruct (sys_step_mono x y Hok (sys_keeps_step i x y Hs)) as [_ Hp].
  destruct Hs as [n0 s' n' Hi Hl Hs|j m s' m' Hj Hm Hs|pkt s' r Hh|s' Hr]; simpl in *.
  - rewrite Hn in Hi. injection Hi as <-. exists n'. rewrite lookup_insert_eq. split; [done|].
    destruct Hs as [Hs|Hs]; [by eapply carried_flow|by eapply carried_local].
  - exists n. rewrite lookup_insert_ne by done. split; [done|]. by eapply carried_grow.
  - exists n. split; [done|]. by eapply carried_grow.
  - exists (set_n_conn false n). rewrite lookup_fmap, Hn. split; [done|]. by eapply carried_grow.
Qed.

Lemma carried_run i k x y n :
  srv_ok x.1 → rtc (sys_keeps i) x y → x.2 !! i = Some n → carried k (srv_log x.1) n →
  ∃ n', y.2 !! i = Some n' ∧ carried k (srv_log y.1) n'.
Proof.
  intros Hok Hr. revert n Hok. induction Hr as [x|x y z Hs _ IH]; intros n Hok Hn Hk; [by exists n|].
  destruct (carried_keeps i k x y n Hok Hs Hn Hk) as (n1 & Hn1 & Hk1).
  apply (IH n1); [|done..]. by apply (sys_step_mono x y Hok), (sys_keeps_step i).
Qed.

Lemma serve_one s n pkt :
  n_up n = [pkt] →
  node_flow s n (fst (srv_handle pkt s))
    (set_n_up [] (set_n_down (n_down n ++ reply_of_handle (snd (srv_handle pkt s))) n)).
Proof. intros Hu. by apply (nd_serve s n [] pkt []), surjective_pairing. Qed.

(** From a reachable state with live sessions: all entries to the log, then the log
    to all clients. *)
Lemma converges (y : St * gmap nat Node) :
  sys_inv y → all_roomy y → all_live y →
  (Z.of_nat (length (srv_log y.1) + waiting y.2) < 2 ^ 32)%Z →
  ∃ z, rtc sys_own y z ∧ dom z.2 = dom y.2
  ∧ (∀ i n, z.2 !! i = Some n → settled n ∧ w_entries (s_wal (n_session n)) = srv_log z.1)
  ∧ (∀ i n q k, y.2 !! i = Some n → s_sendQ (n_session n) = Some q →
     is_Some (q_entries q !! k) → has_key k (srv_log z.1)).
Proof.
  intros Hinv Hroomy Hlive Hb. set (B := length (srv_log y.1) + waiting y.2) in *.
  destruct (in_turn (submitting y B) (elements (dom y.2)) y) as (y1 & Hr1 & [_ _ Hl1 Hd1 _ Hk1 Hs1 Hb1]).
  { intros i l y1. by apply submitting_one. }
  { split; [done|apply NoDup_elements|done..| | | |unfold B, waiting; lia].
    - intros i Hi%elem_of_elements. split; [by apply elem_of_dom|done].
    - intros i n q k Hi Hn. apply elem_of_dom_2 in Hn. by rewrite elem_of_elements in Hi.
    - intros i n Hi Hn. apply elem_of_dom_2 in Hn. by rewrite elem_of_elements in Hi. }
  pose proof (sys_own_reach _ _ Hr1) as Hreach.
  assert (short y1.1) as Hsh by (unfold short; unfold waiting_of in Hb1; simpl in Hb1; lia).
  destruct (sys_reach_inv y y1 Hinv Hsh Hreach) as [Hinv1 _].
  destruct (in_turn (following y1) (elements (dom y1.2)) y1) as (z & Hr2 & [_ _ Hd2 _ Hlog2 Hs2 Hdone2]).
  { intros i l z. apply following_one; [done|exact (reach_roomy y y1 Hroomy Hreach)|done]. }
  { split; [done..| |done| |].
    - intros i. by rewrite elem_of_elements.
    - intros i n Hn. apply (Hs1 i n); [apply not_elem_of_nil|done].
    - intros i n Hi Hn. apply elem_of_dom_2 in Hn. by rewrite elem_of_elements in Hi. }
  exists z. rewrite Hlog2. split_and!; [by etrans|by rewrite Hd2| |].
  - intros i n Hn. split; [by apply (Hs2 i)|]. apply (Hdone2 i n); [apply not_elem_of_nil|done].
  - intros i n q k Hn. apply (Hk1 i n q k); [apply not_elem_of_nil|done].
Qed.
End convergence.

(** ** Properties *)

(** C5: the replicas converge.  In every reachable state: (1) if the contexts of the
    sessions are not cancelled and the log has room for what waits, there is a
    schedule of steps of the clients' uplinks and send queues alone, with packets
    only they and the server write, in which nothing is lost but what a connection
    drops when it ends and no client and no server starts again, after which every
    client has the whole log of the server, every entry that waited in a queue is in
    the log, and every queue is empty; (2) whatever the schedule, once client [i], live
    and on its connection without a loss, has sent the rest of its round, has nothing in
    [uplinkOut], and all it wrote is handled, every entry that was under way is in the
    log, whatever the others do meanwhile. *)
Theorem replicas_converge {St : Type} `{LogServer St} (x y : St * gmap nat Node) :
  sys_start x → sys_reach x y →
  (Z.of_nat (length (srv_log y.1) + waiting y.2) < 2 ^ 32)%Z →
  (all_live y →
   ∃ z, rtc sys_own y z ∧ dom z.2 = dom y.2 ∧ srv_log y.1 `prefix_of` srv_log z.1
   ∧ (∀ i n, z.2 !! i = Some n → w_entries (s_wal (n_session n)) = srv_log z.1
        ∧ ∃ q, s_sendQ (n_session n) = Some q ∧ q_entries q = ∅)
   ∧ (∀ i n q k, y.2 !! i = Some n → s_sendQ (n_session n) = Some q →
        is_Some (q_entries q !! k) → has_key k (srv_log z.1)))
  ∧ (∀ i n z d e k, y.2 !! i = Some n → d ∈ under_way n →
       Parse d = Ok e → DedupKey e = Ok k → rtc (sys_keeps i) y z →
       ∃ n', z.2 !! i = Some n'
       ∧ (n_round n' = [] → out_buf (n_session n') = [] → n_up n' = [] → has_key k (srv_log z.1))).
Proof.
  intros Hx Hr Hb. destruct (start_reach_inv x y Hx Hr) as [Hinv _]; [unfold short; lia|]. split.
  - intros Hlive. assert (all_roomy y) as Hroomy by exact (reach_roomy x y (λ i n, start_roomy x i n Hx) Hr).
    destruct (converges y Hinv Hroomy Hlive Hb) as (z & Hz & Hd & Hl & Hk). exists z.
    split; [done|]. split; [done|]. split.
    { by apply (sys_reach_mono y z (proj1 Hinv)), sys_own_reach. }
    split; [|done]. intros i n Hn. destruct (Hl i n Hn) as [[_ (q & Hq & _ & He)] ?]. split; [done|by exists q].
  - intros i n z d e k Hn Hd Hp Hk Hz.
    destruct (carried_run i k y z n (proj1 Hinv) Hz Hn) as (n' & Hn' & Hc); [right; by exists d, e|].
    exists n'. split; [done|]. intros H1 H2 H3. destruct Hc as [|(d' & e' & Hd' & _)]; [done|].
    unfold under_way in Hd'. rewrite H1, H2, H3 in Hd'. by apply elem_of_nil in Hd'.
Qed.

#[local] Existing Instance ex_server.

(** A client on a connection whose game sends an item: the entry is written, and the
    server handles it. *)
Definition ex_flow0 : Node := MkNode (drained (n_session ex_node0)) [] [] (U32 0) true [].
Definition ex_flow1 : Node :=
  set_n_session (fst (handleMsg (arr_of 4 [U8 9]) ex_game_msg (n_session ex_flow0))) ex_flow0.
Definition ex_flow_pkt : Packet :=
  match out_buf (n_session ex_flow1) with pkt :: _ => pkt | [] => nop_packet end.
Definition ex_flow2 : Node := set_n_up [ex_flow_pkt] (set_n_session (take_out (n_session ex_flow1)) ex_flow1).
Definition ex_flow_served : World * res (option Packet) := srv_handle ex_flow_pkt ex_w1.
Definition ex_flow3 : Node :=
  set_n_up [] (set_n_down (n_down ex_flow2 ++ reply_of_handle (snd ex_flow_served)) ex_flow2).

Lemma ex_flow_start : sys_reach (ex_sys ex_node0) (ex_sys ex_flow1).
Proof.
  assert (∀ n n', node_step ex_w1 n ex_w1 n' → sys_step (ex_sys n) (ex_sys n')) as Hone.
  { intros n n' Hs. change (ex_sys n') with (ex_w1, <[0 := n']> (ex_sys n).2).
    by apply (sy_node (ex_sys n) 0 n ex_w1 n'). }
  apply (rtc_l _ _ (ex_sys (set_n_session (drained (n_session ex_node0)) ex_node0))).
  { apply Hone, nd_link. by apply (nd_drain ex_w1 ex_node0). }
  apply (rtc_l _ _ (ex_sys ex_flow0)).
  { apply Hone, nd_link. by apply (nd_connect ex_w1 (set_n_session (drained (n_session ex_node0)) ex_node0)). }
  apply (rtc_once (ex_sys ex_flow0)), Hone, nd_local.
  by apply (nd_game ex_w1 ex_flow0 (arr_of 4 [U8 9]) ex_game_msg _ (snd (handleMsg (arr_of 4 [U8 9]) ex_game_msg (n_session ex_flow0)))),
    surjective_pairing.
Qed.

Lemma keeps_alone (s s' : World) n n' :
  p_done (s_ports (n_session n)) = false → node_flow s n s' n' →
  sys_keeps 0 (s, {[0 := n]}) (s', {[0 := n']}).
Proof.
  intros Hl Hs.
  pose proof (sk_own 0 (s, {[0 := n]}) n s' n' (lookup_singleton_eq 0 n) Hl (or_introl Hs)) as Hk.
  cbn [snd] in Hk. by rewrite insert_singleton_eq in Hk.
Qed.

Lemma ex_flow_live :
  p_done (s_ports (n_session ex_flow1)) = false ∧ p_done (s_ports (n_session ex_flow2)) = false.
Proof. split; vm_compute; reflexivity. Qed.

Lemma out_single s :
  length (out_buf s) = 1 →
  ch_buf (pt_chan (p_uplinkOut (s_ports s))) = [match out_buf s with pkt :: _ => pkt | [] => nop_packet end].
Proof. unfold out_buf. by destruct (ch_buf _) as [|p [|]]. Qed.

Lemma ex_flow_one : length (out_buf (n_session ex_flow1)) = 1.
Proof. vm_compute. reflexivity. Qed.

Lemma ex_flow_out : ch_buf (pt_chan (p_uplinkOut (s_ports (n_session ex_flow1)))) = [ex_flow_pkt].
Proof. exact (out_single _ ex_flow_one). Qed.

Lemma ex_flow_run : ∃ s', rtc (sys_keeps 0) (ex_sys ex_flow1) (s', {[0 := ex_flow3]}).
Proof.
  exists (fst ex_flow_served). destruct ex_flow_live as [H1 H2]. unfold ex_sys. apply (rtc_l _ _ (ex_w1, {[0 := ex_flow2]})).
  - apply keeps_alone; [exact H1|]. exact (nd_pump_out ex_w1 ex_flow1 ex_flow_pkt [] eq_refl ex_flow_out).
  - apply rtc_once, keeps_alone; [exact H2|]. exact (serve_one ex_w1 ex_flow2 ex_flow_pkt eq_refl).
Qed.

Lemma ex_flow_entry : ∃ e k, Parse (p_Data ex_flow_pkt) = Ok e ∧ DedupKey e = Ok k.
Proof.
  assert (is_ok (Parse (p_Data ex_flow_pkt)) = true) as Hp by by_compute.
  destruct (Parse (p_Data ex_flow_pkt)) as [e| | |] eqn:He; [|discriminate Hp..].
  destruct (proj1 (DedupKey_known e) (proj1 (Parse_normal _ _ He))) as [k Hk]. exists e, k. split; [reflexivity|exact Hk].
Qed.

Lemma ex_flow_under_way : p_Data ex_flow_pkt ∈ under_way ex_flow1.
Proof.
  apply elem_under_way. right. exists ex_flow_pkt. split; [unfold is_wal; by_compute|]. split; [done|].
  left. unfold out_buf. rewrite ex_flow_out. by left.
Qed.

Lemma ex_flow_all_out :
  n_round ex_flow3 = [] ∧ length (out_buf (n_session ex_flow3)) = 0 ∧ n_up ex_flow3 = [].
Proof. split; [reflexivity|]. split; [vm_compute; reflexivity|reflexivity]. Qed.

(** Both parts: a client with a waiting entry, and the one above. *)
Lemma replicas_converge_witness :
  waiting (ex_sys ex_node5).2 = 1
  ∧ (∃ z, rtc sys_own (ex_sys ex_node5) z
     ∧ (∀ i n, z.2 !! i = Some n → w_entries (s_wal (n_session n)) = srv_log z.1
          ∧ ∃ q, s_sendQ (n_session n) = Some q ∧ q_entries q = ∅)
     ∧ ∀ i n q k, (ex_sys ex_node5).2 !! i = Some n → s_sendQ (n_session n) = Some q →
          is_Some (q_entries q !! k) → has_key k (srv_log z.1))
  ∧ ∃ e k s', Parse (p_Data ex_flow_pkt) = Ok e ∧ DedupKey e = Ok k
    ∧ rtc (sys_keeps 0) (ex_sys ex_flow1) (s', {[0 := ex_flow3]}) ∧ has_key k (srv_log s').
Proof.
  split; [vm_compute; reflexivity|]. split.
  - destruct (replicas_converge (H := ex_server) (ex_sys ex_node0) (ex_sys ex_node5)) as [HA _].
    + exact ex_sys_start.
    + exact ex_sys_reach.
    + vm_compute. reflexivity.
    + destruct HA as (z & Hz & _ & _ & H1 & H2).
      { intros i n Hn. unfold ex_sys in Hn. cbn [snd] in Hn.
        apply lookup_singleton_Some in Hn as [_ <-]. vm_compute. reflexivity. }
      exists z. split; [exact Hz|]. split; [exact H1|exact H2].
  - destruct ex_flow_entry as (e & k & He & Hk). destruct ex_flow_run as [s' Hs]. exists e, k, s'.
    split; [exact He|]. split; [exact Hk|]. split; [exact Hs|].
    destruct (replicas_converge (H := ex_server) (ex_sys ex_node0) (ex_sys ex_flow1)) as [_ HB].
    + exact ex_sys_start.
    + exact ex_flow_start.
    + vm_compute. reflexivity.
    + destruct (HB 0 ex_flow1 _ _ e k (lookup_singleton_eq 0 ex_flow1) ex_flow_under_way He Hk Hs)
        as (n' & Hn' & Hf).
      cbn [snd] in Hn'. rewrite lookup_singleton_eq in Hn'. injection Hn' as <-.
      destruct ex_flow_all_out as (H1 & H2 & H3). cbn [fst] in Hf.
      exact (Hf H1 (nil_length_inv _ H2) H3).
Defined.

(** A round of the send queue goes through.  In every reachable state with a
    live session [handleSendQueue] finds a queue whose records all parse, so that the
    round never ends the session: it queues one log packet for each of them, in the
    order of [Pending], behind what was queued before, and changes nothing else. *)
Theorem resend_round {St : Type} `{LogServer St} (x y : St * gmap nat Node) i n :
  sys_start x → sys_reach x y → short y.1 → y.2 !! i = Some n →
  p_done (s_ports (n_session n)) = false →
  ∃ q p, s_sendQ (n_session n) = Some q
  ∧ send_queue_round (n_session n) = (set_s_ports p (n_session n), Ok tt)
  ∧ p_msgOut p = p_msgOut (s_ports (n_session n))
  ∧ pt_sent (p_uplinkOut p)
    = pt_sent (p_uplinkOut (s_ports (n_session n))) ++ (MkPacket OpWal <$> Pending q)
  ∧ ∀ k d, q_entries q !! k = Some d → MkPacket OpWal d ∈ pt_sent (p_uplinkOut p).
Proof.
  intros Hx Hr Hsh Hi Hl. destruct (start_reach_inv x y Hx Hr Hsh) as [[_ Hinv] _].
  destruct (ni_queue _ _ (Hinv i n Hi)) as (q & Hq & Hs). exists q.
  assert (Forall (λ d, ∃ e, Parse d = Ok e) (Pending q)) as Hp.
  { apply Forall_forall. intros d ([k d'] & -> & Hk%elem_of_map_to_list)%list_elem_of_fmap.
    destruct (qstore_lookup q k d' Hs Hk) as (e & _ & _ & Hser). eexists. by apply Parse_Serialize. }
  destruct (send_pending_live (Pending q) (n_session n) Hl Hp) as (p & Hsend & _ & Hm & Hu).
  exists p. split_and!; [done| |done|done|].
  - unfold send_queue_round. by rewrite Hq.
  - intros k d Hk. rewrite Hu. apply elem_of_app. right. apply list_elem_of_fmap. exists d. split; [done|].
    unfold Pending. apply list_elem_of_fmap. exists (k, d). by rewrite elem_of_map_to_list.
Qed.

Lemma resend_round_witness :
  ∃ p, send_queue_round (n_session ex_node5) = (set_s_ports p (n_session ex_node5), Ok tt).
Proof.
  destruct (resend_round (H := ex_server) (ex_sys ex_node0) (ex_sys ex_node5) 0 ex_node5)
    as (q & p & _ & Hp & _).
  - exact ex_sys_start.
  - exact ex_sys_reach.
  - vm_compute. reflexivity.
  - unfold ex_sys. cbn [snd]. apply lookup_singleton_eq.
  - vm_compute. reflexivity.
  - exists p. exact Hp.
Defined.
